(* ===== verification/_CoqProject ===== *)
-Q . S2P
Prelude.v
CoreTypes.v
LeaseCore.v
LeaseStore.v
LeaseManager.v
LeaseService.v
Matcher.v
RegistryStore.v
RegistryIndex.v
RegistryService.v
RegistryRace.v
TxnStore.v
TxnManager.v
TxnProtocol.v
TxnService.v
SpaceStore.v
SpaceSpec.v
SpaceManager.v
SpaceService.v
Shutdown.v
EventStore.v
EventManager.v
EventService.v
Sweep.v
SweepSchedule.v
Proxy.v
ProxyRace.v
Allowlist.v
AllowGrammar.v
Auth.v
Bootstrap.v
Dynamo.v
DynamoCodec.v
DynamoSample.v
DynamoRegistry.v
DynamoLease.v
DynamoTtl.v
DynamoTxn.v
DynamoEvent.v
DynamoEventSim.v
DynamoEventFaults.v
DynamoRows.v
DynamoSpace.v
DynamoSpaceSim.v
DynamoSpaceRefine.v
DynamoSpaceFaults.v
DynamoSpaceWatch.v
Boot.v
BootWiring.v
Drain.v
Observability.v
Telemetry.v
Djinn.v
TxnSpaces.v
TestKit.v
TestSpace.v
TestTxn.v
TestEvent.v
TestRegistry.v
TestLease.v
TestDynamoLease.v
TestDynamoTxn.v
TestDynamoEvent.v
TestDynamoSpace.v
TestAuth.v
TestNode.v
