(* ===== verification/Prelude.v ===== *)
(** * Coordin8's Djinn: a verification development

    Coordin8 is a coordination server in the style of Jini/JavaSpaces: clients
    hold leases on everything they put into it, and the server reclaims what is
    no longer renewed.  The Djinn (src/djinn) is its Rust implementation.  This
    library models the Djinn's own logic and proves what makes it correct.

    ** The program and its model

    Every stateful service owns an embedded lease grantor.  A reaper removes
    expired leases and broadcasts them; a cascade removes the resources of
    reclaimed leases, and an orphan sweep catches what the cascade missed.  The
    transaction manager runs two-phase commit over gRPC participants, of which
    the Space is one.  Stores are traits with two providers, one in memory and
    one over DynamoDB; both are modelled.

    - [Prelude]: results, machine integers, iteration over hash maps, strings,
      tactics, list and map lemmas.  [CoreTypes]: coordin8-core/src/error.rs,
      gRPC statuses, the part of chrono the code relies on.
    - Leases.  [LeaseCore]: coordin8-core/src/lease.rs (policy, expiry, the
      [LeaseStore] and [Leasing] interfaces as classes with laws).  [LeaseStore]:
      providers/local/src/lease_store.rs.  [LeaseManager]:
      coordin8-lease/src/manager.rs and reaper.rs.  [LeaseService]:
      coordin8-lease/src/service.rs.
    - Registry.  [Matcher]: coordin8-registry/src/matcher.rs.  [RegistryStore]:
      the trait and providers/local/src/registry_store.rs.  [RegistryIndex]:
      coordin8-registry/src/store.rs and the proxy's local resolver.
      [RegistryService]: coordin8-registry/src/service.rs, each handler as one
      function; [RegistryRace]: the same handlers cut at their awaits, any number
      of them in flight.
    - Transactions.  [TxnStore]: coordin8-core/src/txn.rs and
      providers/local/src/txn_store.rs.  [TxnManager]: coordin8-txn/src/manager.rs
      as programs of actions.  [TxnProtocol]: every interleaving of them.
      [TxnService]: coordin8-txn/src/service.rs.  [Allowlist]:
      coordin8-txn/src/allowlist.rs; [AllowGrammar]: the grammar it documents.
    - Space.  [SpaceStore]: coordin8-core/src/space.rs and
      providers/local/src/space_store.rs with the abstract space it represents.
      [SpaceSpec]: the specification, the refinement and its consequences.
      [SpaceManager]: coordin8-space/src/manager.rs and participant.rs.
      [SpaceService]: coordin8-space/src/service.rs.
    - Events.  [EventStore]: coordin8-core/src/event.rs and
      providers/local/src/event_store.rs.  [EventManager]:
      coordin8-event/src/manager.rs.  [EventService]: coordin8-event/src/service.rs
      with the durable delivery loop as a state machine.  [Shutdown]:
      coordin8-core/src/shutdown.rs.
    - [Sweep]: coordin8-djinn/src/sweep.rs and the cascades and sweeps wired in
      services.rs; [SweepSchedule]: when the sweep runs.  [Proxy]:
      coordin8-proxy/src/manager.rs and service.rs; [ProxyRace]: its calls and
      listener tasks interleaved.  [Auth]:
      coordin8-auth/src/lib.rs.  [Bootstrap]: coordin8-bootstrap/src/lib.rs
      (self-registration, remote resolver and enlister of a service in its own
      process).
    - The DynamoDB provider, providers/dynamo/src.  [Dynamo]: the service as a
      parameter with its laws, table.rs and lib.rs, paging.  [DynamoCodec]: single
      attributes.  [DynamoSample]: databases that satisfy the laws, one healthy and
      one that fails and lags.  [DynamoRegistry], [DynamoLease], [DynamoTxn],
      [DynamoEvent] and [DynamoSpace]: registry_store.rs, lease_store.rs,
      txn_store.rs, event_store.rs and space_store.rs; [DynamoEventSim] and
      [DynamoEventFaults], and [DynamoSpaceSim], [DynamoSpaceRefine],
      [DynamoSpaceFaults] and [DynamoSpaceWatch], hold the theorems on the last
      two, [DynamoRows] what is common to rows and page loops, [DynamoTtl] the
      deletions DynamoDB makes by itself.
    - The process.  [Boot]: the commands of coordin8-djinn/src/main.rs and the
      boot sequences of services.rs, as programs over the database they prepare
      and the tasks they spawn, ending with the servers and what they mount.
      [BootWiring]: the theorems on them.  [Drain]: the registration task, the
      health check and the graceful shutdown of services.rs.  [Observability]:
      coordin8-observability/src (labels, counters, trace propagation);
      [Telemetry]: what its [init] reads and installs, the metrics server.
      [Djinn]: main.rs from the command to the exit, boot and shutdown composed.
    - [TxnSpaces]: the transaction manager and the Spaces it coordinates as one
      system, with the two ways a Space enlists itself ([LocalTxnEnlister] of
      coordin8-txn, [RemoteTxnEnlister] of coordin8-bootstrap) behind one class.
    - The tests of the repository, run on the model.  [TestKit]: tests as programs
      that may panic.  [TestSpace], [TestTxn], [TestEvent], [TestRegistry],
      [TestLease], [TestAuth] and [TestNode]: the tests of the crates, under their
      own names.  [TestDynamoLease], [TestDynamoTxn], [TestDynamoEvent] and
      [TestDynamoSpace]: those of the DynamoDB provider, on an in-memory database.
      A scenario written for any store runs on every provider.

    Definitions keep the names of the source.  A store operation is a function
    from a state to a state and a [result]; an operation that fails keeps what it
    had already written.  [Arc<dyn Trait>] is a type with a class instance; a
    manager is proved against the laws of the class, the implementation
    discharges them.  A broadcast channel is the list of what was sent on it, and
    a receiver is a list of messages and lags.

    ** What the theorems show

    - Leases: a lease leaves the store only by cancel or once its current version
      expired, in every interleaving with the reaper; a tick reclaims exactly the
      expired; renewal and negotiation on every branch.
    - Registry: template matching against its documented reading, lookup sound
      and complete, only the lease holder changes an entry (handlers one after
      another).  With handlers interleaved every change is announced, and the
      events of a capability on which calls do not overlap replay to its entry; a
      modification overtaken by a reclaim announces an entry that is gone.
    - Transactions: no split outcome, outcome equals votes (a lost reply to
      PrepareAndCommit excludes Aborted), the state machine, and only allowed
      endpoints dialed, for every interleaving of requests, expiries and answers;
      [commit] and [abort] on every branch.  The allowlist accepts what the
      documented grammar of its texts allows.
    - Transactions across Spaces: in every reachable state a commit comes to one
      decision, no Space is settled the other way whatever calls are lost, and
      when none is lost every Space is settled and holds nothing of the
      transaction; an abort or the end of its lease undoes it at every Space its
      calls reach.  A take
      still waiting when its transaction ends takes for it all the same, and the
      tuple is stranded.
    - Space: the store refines the abstract space; takers, inside transactions or
      not, share a tuple only through an abort in between; an abort leaves what the
      other calls alone give; an expired tuple never returns; a blocked reader is
      woken.
    - Events: durable delivery is at least once and can always drain; emission
      reaches exactly the matching subscriptions.
    - Reclaim: entries live as long as their leases; two sweeps remove exactly
      the orphans, for registry, events and space; an orphan is gone within two
      periods of the sweep, and what a slow pass does to the two strikes.
    - Proxy, with its calls and tasks interleaved: listeners and entries belong
      together, no two sockets share a port, ports are in range when the counter
      cannot wrap, leases name their proxy.  Where it falls short: the 16-bit port
      counter wraps at 65535, and a task or a lease that ends before its entry is
      written leaves an entry behind.
    - DynamoDB, healthy: the lease, registry, transaction and event stores and the
      watches answer as the in-memory ones, the tuple store refines the same
      abstract space, rows round-trip, page loops end, boot leaves the tables in
      place.
    - DynamoDB, failing and lagging: the lease store keeps the contract of the
      reaper ([LeaseStoreSafe]), so that it still never drops a live lease; a
      transaction's transition is won once ([TxnStoreSafe]); sequence numbers
      increase and an enqueued event stays until it is acknowledged or its
      registration removed; takes cut at every call hand a tuple out at most once
      per write.  What is lost is shown on concrete runs:
      reclaims behind a failed removal, writes a lagging commit does not see, a
      tuple whose tracking write fails.  DynamoDB's own deletion of rows never takes
      a lease that has not been expired for nearly an hour; what it leaves behind
      is found by the sweep.
    - Calls between services: which requests the interceptor accepts; a service
      that registers itself is registered again after one undisturbed tick,
      whatever was lost before; a remote resolver answers as an in-process one;
      a traced call brings its context and its token to the other side.
    - Boot: a node that comes up is wired as leasing needs, announces only what it
      offers and only when complete, shares no lease table, keeps every table it
      finds; a boot on the local provider fails for the listed reasons only.
    - Shutdown: always within the grace period and in its order; a server told to
      stop is one whose services the Registry no longer holds.  Where it falls
      short is shown too: a deregistration without answer, a registration not yet
      stored, a Proxy that reports SERVING while it drains.
    - The whole process: how it exits for every course of its life, and that a node
      which came up and was stopped leaves the Registry with the other entries, if
      its registrations were in place and its cancel calls were served.
    - Metrics: what each counter counts; failed calls are among the [Ok] ones; the
      metrics server shows its snapshot to [GET /metrics] only.
    - Tracing: the sampling ratio is in range or NaN; propagation does not depend on
      whether spans are exported.
    - Conformance: the assertions of the repository's own tests hold of the model.
      The theorems of the test files are evaluations; they tie the definitions to
      behaviour the authors of the code wrote down.

    ** Modelling choices

    - Time: a clock reading is an argument of the operation that makes it
      ([Env]); instants are nanoseconds.  UUIDs are arguments too; theorems that
      need them new say so.
    - A DashMap operation is atomic; a store call is atomic except where its
      internal steps matter and are interleaved explicitly (the loop of
      [take_match], the reaper, the port counter, the calls of a DynamoDB take).
      Handlers are interleaved in [TxnProtocol], [RegistryRace], [ProxyRace],
      [LeaseManager] and the delivery loop of [EventService]; elsewhere, and in the
      executions of [RegistryService], one runs after another.  The order in which a map is
      iterated is an arbitrary permutation ([MapIter]).
    - Integers are [Z]; [u64] and [u16] arithmetic wraps where the source can
      overflow ([wrap64], [wrap16]), as in a release build.
    - Strings are byte strings; trimming and case conversion are ASCII.
    - [take_loop] has fuel for one iteration more than there are committed tuples;
      run alone one iteration decides ([take_loop_once]), and the iterations that
      lose a race are steps of their own in [SpaceSpec].  [bind_loop] runs once
      per port of the range, as the source's loop does.  A loop over pages has
      fuel for two pages more than there are rows ([scan_fuel], [query_fuel]):
      [page_loop_complete], [drain_loop_ok] and [peek_loop_ok] show that it is
      enough, since a page that is not the last evaluates at least one row.
    - A call on DynamoDB is atomic and may fail, with or without effect; reads and
      index queries are answered from snapshots that may be old ([DynamoLaws]).
      A healthy database ([DynamoHealthy]) serves every valid call from its
      current state.  Keys may not be empty; theorems on a healthy database ask
      callers for non-empty ids.  DynamoDB's own deletion of rows past their [ttl]
      is a step of its own, one row at a time and at any moment, in [DynamoTtl].
    - The network answers each participant call as it likes: the address does not
      parse, the connection or the call fails (deadlines included), or the
      participant answers any number.  In [TxnSpaces] a call to a Space reaches
      its participant service, loses its request or loses its reply; the calls of
      a batch are made in order, and a handler of the transaction manager runs
      without others in between (their interleavings are the subject of
      [TxnProtocol]).
    - In a test the tasks a service spawned run when the test waits, as on the
      single-threaded runtime of the repository's tests; a sleep moves the clock.
      They have fuel for 500 steps each, more than any scenario takes.
    - An [f64] is a binary64 number of [SpecFloat], parsed with rounding to nearest.
    - A boot stage is atomic; what runs concurrently with it are the tasks it has
      spawned, which are recorded and not run.  A shutdown is a sequence of awaits
      under one deadline: how long each takes, if it ends, is an argument, and the
      health status may be written by another task in between.
    - The layer that fires the metric hooks and the trace propagator are
      parameters ([TraceLayerLaws], [PropagatorLaws]).

    ** Not modelled

    The configuration of the DynamoDB client (client.rs), the gRPC transport and
    the installation of signal handlers, the text format of metrics and the
    formatting and export of spans, generated protobuf code, and the clients
    written in other languages.  Of the repository's tests, those that start
    several processes (coordin8-djinn/tests) are not transcribed; what they
    exercise is the subject of [TxnSpaces], [Drain], [Bootstrap] and [Djinn]. *)

From stdpp Require Export base gmap strings list fin_maps sorting pretty.
From Stdlib Require Export Lia.

(** ** Results *)

(** Rust's [Result<A, E>]. *)
Inductive result (A E : Type) : Type :=
| Ok (a : A)
| Err (e : E).
Arguments Ok {A E} a.
Arguments Err {A E} e.

Declare Scope djinn_scope.
Delimit Scope djinn_scope with djinn.

(** The [?] operator: bind on the success value, return the error early. *)
Definition rbind {A B E} (r : result A E) (k : A → result B E) : result B E :=
  match r with Ok a => k a | Err e => Err e end.

Definition map_err {A E F} (f : E → F) (r : result A E) : result A F :=
  match r with Ok a => Ok a | Err e => Err (f e) end.

Definition rmap {A B E} (f : A → B) (r : result A E) : result B E :=
  match r with Ok a => Ok (f a) | Err e => Err e end.

(** [Option::ok_or_else]. *)
Definition ok_or {A E} (e : E) (o : option A) : result A E :=
  match o with Some a => Ok a | None => Err e end.

Definition is_ok {A E} (r : result A E) : bool :=
  match r with Ok _ => true | Err _ => false end.

Notation "'let?' x ':=' r 'in' k" :=
  (rbind r (λ x, k))
  (at level 10, x pattern, r at level 100, k at level 200) : djinn_scope.

Open Scope djinn_scope.

(** ** Machine integers *)

Definition u64_max : Z := 18446744073709551615.
Definition i64_max : Z := 9223372036854775807.
Definition u16_max : Z := 65535.

(** Wrap-around of [u64] and [u16] arithmetic. *)
Definition wrap64 (z : Z) : Z := z mod 2 ^ 64.
Definition wrap16 (z : Z) : Z := z mod 2 ^ 16.

Definition is_u64 (z : Z) : Prop := (0 ≤ z ≤ u64_max)%Z.

Lemma wrap64_small (z : Z) : (0 ≤ z ≤ u64_max)%Z → wrap64 z = z.
Proof. intros ?. unfold wrap64, u64_max in *. apply Z.mod_small. lia. Qed.

Lemma wrap16_small (z : Z) : (0 ≤ z ≤ u16_max)%Z → wrap16 z = z.
Proof. intros ?. unfold wrap16, u16_max in *. apply Z.mod_small. lia. Qed.

(** ** Iteration over concurrent maps

    [DashMap]/[HashMap] iteration visits every entry once, in an order the
    program does not control.  The order is a parameter: any function listing
    the entries of a map, of which only that it is a permutation of them is
    known.  The instance at the end of the file shows that one exists. *)
Class MapIter := {
  miter : ∀ {V : Type}, gmap string V → list (string * V);
  miter_perm : ∀ {V : Type} (m : gmap string V), miter m ≡ₚ map_to_list m
}.

(** [DashMap::iter().find(..)] on the values. *)
Definition map_find {I : MapIter} {V} (f : V → bool) (m : gmap string V)
  : option (string * V) :=
  List.find (λ kv, f kv.2) (miter m).

(** All values, in iteration order. *)
Definition map_values {I : MapIter} {V} (m : gmap string V) : list V :=
  (miter m).*2.

Section map_iter.
Context {I : MapIter} {V : Type}.
Implicit Types (m : gmap string V) (f : V → bool).

Lemma elem_of_miter m k v : (k, v) ∈ miter m ↔ m !! k = Some v.
Proof. by rewrite miter_perm, elem_of_map_to_list. Qed.

Lemma elem_of_map_values m v : v ∈ map_values m ↔ ∃ k, m !! k = Some v.
Proof.
  unfold map_values. rewrite list_elem_of_fmap. split.
  - intros ([k w] & -> & Hin). exists k. by apply elem_of_miter.
  - intros (k & Hk). exists (k, v). by rewrite elem_of_miter.
Qed.

Lemma map_find_Some m f k v : map_find f m = Some (k, v) → m !! k = Some v ∧ f v = true.
Proof.
  unfold map_find. intros [Hin Hf]%List.find_some.
  by rewrite <- list_elem_of_In, elem_of_miter in Hin.
Qed.

Lemma map_find_None m f : map_find f m = None ↔ ∀ k v, m !! k = Some v → f v = false.
Proof.
  unfold map_find. split.
  - intros Hn k v Hk. apply (List.find_none _ _ Hn (k, v)).
    by rewrite <- list_elem_of_In, elem_of_miter.
  - intros Hall. destruct (List.find _ _) as [[k v]|] eqn:E; [|done].
    apply (map_find_Some m f) in E as [Hk Hf]. by rewrite (Hall _ _ Hk) in Hf.
Qed.

Lemma map_find_is_Some m f :
  is_Some (map_find f m) ↔ ∃ k v, m !! k = Some v ∧ f v = true.
Proof.
  split.
  - intros [[k v] Hk]. exists k, v. by apply map_find_Some.
  - intros (k & v & Hk & Hf). destruct (map_find f m) eqn:E; [eauto|].
    rewrite map_find_None in E. by rewrite (E _ _ Hk) in Hf.
Qed.

Lemma map_values_perm m : map_values m ≡ₚ (map_to_list m).*2.
Proof. unfold map_values. by rewrite miter_perm. Qed.
End map_iter.

(** ** Strings

    Rust strings are byte strings here ([String.string]); the operations below
    are the [str] methods the source uses, on bytes. *)

(** [str::strip_prefix]. *)
Fixpoint strip_prefix (p s : string) : option string :=
  match p, s with
  | EmptyString, _ => Some s
  | String a p', String b s' => if Ascii.eqb a b then strip_prefix p' s' else None
  | String _ _, EmptyString => None
  end.

(** [str::starts_with]. *)
Definition starts_with (p s : string) : bool :=
  match strip_prefix p s with Some _ => true | None => false end.

(** [str::contains]. *)
Fixpoint contains (sub s : string) : bool :=
  starts_with sub s ||
  match s with
  | EmptyString => false
  | String _ s' => contains sub s'
  end.

Definition is_empty (s : string) : bool :=
  match s with EmptyString => true | String _ _ => false end.

Lemma strip_prefix_Some p s r : strip_prefix p s = Some r ↔ s = p +:+ r.
Proof.
  revert s. induction p as [|a p IH]; intros s; simpl.
  { change ("" +:+ r) with r. split; congruence. }
  change (String a p +:+ r) with (String a (p +:+ r)).
  destruct s as [|b s]; [split; discriminate|].
  destruct (Ascii.eqb_spec a b) as [->|Hne].
  - rewrite IH. split; congruence.
  - split; congruence.
Qed.

Lemma starts_with_true p s : starts_with p s = true ↔ ∃ r, s = p +:+ r.
Proof.
  unfold starts_with. destruct (strip_prefix p s) as [r|] eqn:E.
  - apply strip_prefix_Some in E. naive_solver.
  - split; [done|]. intros [r Hr]. apply strip_prefix_Some in Hr. congruence.
Qed.

Lemma contains_true sub s : contains sub s = true ↔ ∃ a b, s = a +:+ sub +:+ b.
Proof.
  induction s as [|c s IH]; simpl; rewrite orb_true_iff, starts_with_true.
  - split.
    + intros [[r Hr]|]; [|done]. by exists "", r.
    + intros ([|? ?] & b & Hb); [|done]. left. by exists b.
  - rewrite IH. split.
    + intros [[r ->]|(a & b & ->)]; [by exists "", r|by exists (String c a), b].
    + intros ([|c' a] & b & Hb); simpl in Hb; [left; eauto|].
      right. injection Hb as -> ->. eauto.
Qed.

Lemma is_empty_true s : is_empty s = true ↔ s = "".
Proof. by destruct s. Qed.

Lemma strip_prefix_app p r : strip_prefix p (p +:+ r) = Some r.
Proof. by apply strip_prefix_Some. Qed.

(** Decimal digits and [str::parse] for unsigned integers: an optional leading
    [+], then one or more digits, with overflow reported as an error. *)
Definition digit_of (c : Ascii.ascii) : option Z :=
  let n := Z.of_nat (Ascii.nat_of_ascii c) in
  if (48 <=? n)%Z && (n <=? 57)%Z then Some (n - 48)%Z else None.

Fixpoint parse_digits (max acc : Z) (s : string) : option Z :=
  match s with
  | EmptyString => Some acc
  | String c s' =>
      match digit_of c with
      | Some d =>
          let acc' := (acc * 10 + d)%Z in
          if (acc' <=? max)%Z then parse_digits max acc' s' else None
      | None => None
      end
  end.

Definition parse_uint (max : Z) (s : string) : option Z :=
  match strip_prefix "+" s with
  | Some s' => if is_empty s' then None else parse_digits max 0 s'
  | None => if is_empty s then None else parse_digits max 0 s
  end.

Definition parse_u64 : string → option Z := parse_uint u64_max.
Definition parse_u16 : string → option Z := parse_uint u16_max.

Lemma digit_of_bound c d : digit_of c = Some d → (0 ≤ d ≤ 9)%Z.
Proof.
  unfold digit_of. destruct (_ && _) eqn:E; [|done].
  intros [= <-]. rewrite andb_true_iff, !Z.leb_le in E. lia.
Qed.

Lemma parse_digits_bound max acc s z :
  (0 ≤ acc ≤ max)%Z → parse_digits max acc s = Some z → (0 ≤ z ≤ max)%Z.
Proof.
  revert acc. induction s as [|c s IH]; intros acc Ha; simpl; [naive_solver|].
  destruct (digit_of c) as [d|] eqn:Hd; [|done]. apply digit_of_bound in Hd.
  destruct (Z.leb_spec (acc * 10 + d) max); [|done]. apply IH. lia.
Qed.

Lemma parse_uint_bound max s z :
  (0 ≤ max)%Z → parse_uint max s = Some z → (0 ≤ z ≤ max)%Z.
Proof.
  intros Hm. unfold parse_uint.
  assert (∀ t, parse_digits max 0 t = Some z → (0 ≤ z ≤ max)%Z)
    by (intros t; apply parse_digits_bound; lia).
  repeat case_match; intros ?; simplify_eq; eauto.
Qed.

(** ** ASCII case *)

Definition ascii_map (f : nat → nat) (c : Ascii.ascii) : Ascii.ascii :=
  Ascii.ascii_of_nat (f (Ascii.nat_of_ascii c)).

Definition to_lower (c : Ascii.ascii) : Ascii.ascii :=
  ascii_map (λ n, if (65 <=? n)%nat && (n <=? 90)%nat then n + 32 else n) c.
Definition to_upper (c : Ascii.ascii) : Ascii.ascii :=
  ascii_map (λ n, if (97 <=? n)%nat && (n <=? 122)%nat then n - 32 else n) c.

Fixpoint string_map (f : Ascii.ascii → Ascii.ascii) (s : string) : string :=
  match s with
  | EmptyString => EmptyString
  | String c s' => String (f c) (string_map f s')
  end.

Definition to_ascii_lowercase : string → string := string_map to_lower.
Definition to_ascii_uppercase : string → string := string_map to_upper.
Definition eq_ignore_ascii_case (a b : string) : bool :=
  String.eqb (to_ascii_lowercase a) (to_ascii_lowercase b).

(** ** Automation *)

Create HintDb djinn.

(** Case analysis on the matches of the goal, with the equations kept, then
    clean up; the workhorse for branch-by-branch theorems on handlers. *)
Ltac branches :=
  repeat (case_match; simplify_eq/=; try done).

(** Close a closed arithmetic or boolean goal by evaluation. *)
Ltac by_compute :=
  vm_compute; repeat split; first [reflexivity | discriminate | intros ?; discriminate].

(** Open every existential and conjunction among the hypotheses. *)
Ltac unpack :=
  repeat match goal with
  | H : ∃ _, _ |- _ => destruct H
  | H : _ ∧ _ |- _ => destruct H
  end.

(** ** Lists *)

Lemma filter_bool_elem {A} (f : A → bool) (l : list A) x :
  x ∈ List.filter f l ↔ x ∈ l ∧ f x = true.
Proof. by rewrite !list_elem_of_In, List.filter_In. Qed.

#[global] Instance bool_filter_Permutation {A} (f : A → bool) :
  Proper ((≡ₚ) ==> (≡ₚ)) (List.filter f).
Proof.
  induction 1 as [|x l1 l2 _ IH|x y l|l1 l2 l3 _ IH1 _ IH2]; simpl; [done|..].
  - destruct (f x); by rewrite IH.
  - destruct (f x), (f y); try done. apply Permutation_swap.
  - by rewrite IH1.
Qed.

(** [iter().position(f)] followed by [Vec::remove(pos)]. *)
Fixpoint remove_first {A} (f : A → bool) (l : list A) : option (A * list A) :=
  match l with
  | [] => None
  | x :: l =>
      if f x then Some (x, l)
      else match remove_first f l with
           | Some (y, l') => Some (y, x :: l')
           | None => None
           end
  end.

Lemma remove_first_Some {A} (f : A → bool) l x l' :
  remove_first f l = Some (x, l') → f x = true ∧ l ≡ₚ x :: l'.
Proof.
  revert l'. induction l as [|y l IH]; intros l'; simpl; [done|].
  destruct (f y) eqn:Hy; [by intros [= <- <-]|].
  destruct (remove_first f l) as [[z l1]|]; [|done]. intros [= <- <-].
  destruct (IH l1) as [? ->]; [done|]. split; [done|]. apply Permutation_swap.
Qed.

Lemma remove_first_None {A} (f : A → bool) l :
  remove_first f l = None ↔ ∀ x, x ∈ l → f x = false.
Proof.
  induction l as [|y l IH]; simpl.
  { split; [|done]. by intros _ x ?%not_elem_of_nil. }
  destruct (f y) eqn:Hy.
  - split; [done|]. intros H. rewrite H in Hy; [done|]. by left.
  - destruct (remove_first f l) as [[z l1]|].
    + split; [done|]. intros H. destruct IH as [_ IH]. discriminate IH.
      intros x Hx. apply H. by right.
    + split; [|done]. intros _ x [->|Hx]%elem_of_cons; [done|]. by apply IH.
Qed.

#[export] Hint Resolve strip_prefix_app wrap64_small wrap16_small : djinn.
#[export] Hint Resolve NoDup_fst_map_to_list list_elem_of_fmap_2 : djinn.

(** *** Loops that insert into or delete from a map *)

Section map_loops.
Context {A V : Type} (key : A → string).

Lemma foldl_insert_lookup (val : A → V) (l : list A) (m : gmap string V) x y :
  NoDup (key <$> l) →
  foldl (λ m a, <[key a := val a]> m) m l !! x = Some y ↔
    (∃ a, a ∈ l ∧ key a = x ∧ val a = y) ∨ (m !! x = Some y ∧ x ∉ key <$> l).
Proof.
  revert m. induction l as [|a l IH]; intros m; simpl.
  { intros _. setoid_rewrite elem_of_nil. naive_solver. }
  rewrite NoDup_cons. intros [Hn Hnd]. rewrite IH, lookup_insert_Some by done. split.
  - intros [(b & ? & ?)|[[[<- <-]|[? ?]] ?]].
    + left. exists b. by rewrite elem_of_cons; auto.
    + left. exists a. by rewrite elem_of_cons; auto.
    + right. rewrite elem_of_cons. split; [done|]. by intros [->|].
  - intros [(b & [->|Hb]%elem_of_cons & ? & ?)|[? Hx]].
    + right. subst. by auto.
    + left. eauto.
    + rewrite not_elem_of_cons in Hx. right. destruct Hx. auto.
Qed.

Lemma foldl_delete_lookup (l : list A) (m : gmap string V) x :
  foldl (λ m a, delete (key a) m) m l !! x =
    if decide (x ∈ key <$> l) then None else m !! x.
Proof.
  revert m. induction l as [|a l IH]; intros m; [done|].
  cbn [foldl]. rewrite IH, fmap_cons.
  destruct (decide (x ∈ key <$> l)) as [Hin|Hn].
  { by rewrite decide_True by (by right). }
  destruct (decide (key a = x)) as [<-|Hne].
  - rewrite lookup_delete_eq, decide_True; [done|]. left.
  - rewrite lookup_delete_ne by done. rewrite decide_False; [done|].
    rewrite elem_of_cons. naive_solver.
Qed.
End map_loops.

(** A canonical iteration order. *)
Definition canonical_iter : MapIter :=
  {| miter := λ V m, map_to_list m; miter_perm := λ V m, reflexivity _ |}.

(** ** Sequences of calls *)
Section calls.
Context {S Op Res : Type} (apply : S → Op → S * Res).

Fixpoint run_calls (s : S) (ops : list Op) : S * list Res :=
  match ops with
  | [] => (s, [])
  | op :: ops =>
      let '(s1, r) := apply s op in
      let '(s2, rs) := run_calls s1 ops in (s2, r :: rs)
  end.

(** Each call is valid in the state it is made in. *)
Fixpoint calls_valid (valid : S → Op → Prop) (s : S) (ops : list Op) : Prop :=
  match ops with
  | [] => True
  | op :: ops => valid s op ∧ calls_valid valid (apply s op).1 ops
  end.

Lemma calls_valid_forall (valid : Op → Prop) s ops :
  Forall valid ops → calls_valid (λ _, valid) s ops.
Proof. intros Hv. revert s. induction Hv; intros s; cbn; auto. Qed.
End calls.

(** Calls that preserve a relation between two implementations and agree on their
    answers do so in sequence. *)
Lemma run_calls_agree {S1 S2 Op Res} (ap1 : S1 → Op → S1 * Res) (ap2 : S2 → Op → S2 * Res)
    (valid : S2 → Op → Prop) (sim : S1 → S2 → Prop) (same : Res → Res → Prop) :
  (∀ s1 s2 op, sim s1 s2 → valid s2 op →
    sim (ap1 s1 op).1 (ap2 s2 op).1 ∧ same (ap1 s1 op).2 (ap2 s2 op).2) →
  ∀ ops s1 s2, sim s1 s2 → calls_valid ap2 valid s2 ops →
  sim (run_calls ap1 s1 ops).1 (run_calls ap2 s2 ops).1 ∧
  Forall2 same (run_calls ap1 s1 ops).2 (run_calls ap2 s2 ops).2.
Proof.
  intros Hstep ops. induction ops as [|op ops IH]; intros s1 s2 Hs Hv; cbn; [by split|].
  destruct Hv as [Hv Hvs]. destruct (Hstep s1 s2 op Hs Hv) as [Hs' Hr].
  destruct (ap1 s1 op) as [t1 r1], (ap2 s2 op) as [t2 r2]. cbn in *.
  destruct (IH t1 t2 Hs' Hvs) as [Hend Hall].
  destruct (run_calls ap1 t1 ops), (run_calls ap2 t2 ops). cbn in *. split; [done|]. by constructor.
Qed.
