(* ===== verification/CoreTypes.v ===== *)
(** * Shared types of the Djinn

    The error type of [coordin8-core] with its [Display] strings, the gRPC
    status codes the services answer with, the part of [chrono] the sources
    rely on (a parameter with its documented laws), and the readings an
    operation takes from its environment. *)

From S2P Require Import Prelude.

(** ** [coordin8_core::Error] *)
Inductive Error :=
| LeaseNotFound (s : string)
| LeaseExpired (s : string)
| ResourceNotFound (s : string)
| NoMatch
| Storage (s : string)
| SubscriptionNotFound (s : string)
| SubscriptionExpired (s : string)
| TransactionNotFound (s : string)
| TransactionTerminal (s : string)
| TransactionAborted (s : string)
| TransactionCommitInProgress (s : string)
| TransactionOutcomeUnknown (s : string)
| TupleNotFound (s : string)
| WatchNotFound (s : string)
| Internal (s : string)
| InvalidArgument (s : string)
| PermissionDenied (s : string)
| Unavailable (s : string).

#[global] Instance Error_eq_dec : EqDecision Error.
Proof. solve_decision. Defined.

(** The [thiserror] format strings. *)
Definition error_to_string (e : Error) : string :=
  match e with
  | LeaseNotFound s => "lease not found: " +:+ s
  | LeaseExpired s => "lease expired: " +:+ s
  | ResourceNotFound s => "resource not found: " +:+ s
  | NoMatch => "no match found for template"
  | Storage s => "storage error: " +:+ s
  | SubscriptionNotFound s => "subscription not found: " +:+ s
  | SubscriptionExpired s => "subscription expired: " +:+ s
  | TransactionNotFound s => "transaction not found: " +:+ s
  | TransactionTerminal s => "transaction in terminal state: " +:+ s
  | TransactionAborted s => "transaction aborted: " +:+ s
  | TransactionCommitInProgress s => "transaction commit already in progress: " +:+ s
  | TransactionOutcomeUnknown s => "transaction commit outcome unknown: " +:+ s
  | TupleNotFound s => "tuple not found: " +:+ s
  | WatchNotFound s => "watch not found: " +:+ s
  | Internal s => "internal error: " +:+ s
  | InvalidArgument s => "invalid argument: " +:+ s
  | PermissionDenied s => "permission denied: " +:+ s
  | Unavailable s => "unavailable: " +:+ s
  end.

(** ** gRPC statuses *)
Inductive Code :=
| COk | CCancelled | CUnknown | CInvalidArgument | CDeadlineExceeded | CNotFound
| CAlreadyExists | CPermissionDenied | CResourceExhausted | CFailedPrecondition
| CAborted | COutOfRange | CUnimplemented | CInternal | CUnavailable | CDataLoss
| CUnauthenticated.

#[global] Instance Code_eq_dec : EqDecision Code.
Proof. solve_decision. Defined.

Record Status := mkStatus { st_code : Code; st_message : string }.

#[global] Instance Status_eq_dec : EqDecision Status.
Proof. solve_decision. Defined.

(** ** Time

    A [DateTime<Utc>] is a count of nanoseconds since the epoch and a
    [TimeDelta] a count of nanoseconds.  The operations of [chrono] are
    parameters; [ChronoLaws] is what its documentation promises of them. *)
Class Chrono := {
  MIN_UTC : Z;
  MAX_UTC : Z;
  try_seconds : Z → option Z;
  checked_add_signed : Z → Z → option Z;
  timestamp : Z → Z;
  timestamp_subsec_nanos : Z → Z
}.

Definition nanos_per_sec : Z := 1000000000.

(** The largest whole number of seconds in a [TimeDelta], [i64::MAX / 1000]. *)
Definition max_delta_secs : Z := 9223372036854775.

Class ChronoLaws (C : Chrono) := {
  utc_range : (MIN_UTC ≤ 0 < MAX_UTC)%Z;
  try_seconds_law : ∀ s : Z,
    try_seconds s =
      (if bool_decide (- (max_delta_secs) ≤ s ≤ max_delta_secs)%Z
       then Some (s * nanos_per_sec)%Z else None);
  checked_add_law : ∀ t d : Z,
    checked_add_signed t d =
      (if bool_decide (MIN_UTC ≤ t + d ≤ MAX_UTC)%Z then Some (t + d)%Z else None);
  timestamp_law : ∀ t : Z, timestamp t = (t / nanos_per_sec)%Z;
  (* dates lie within 262143 years of the epoch *)
  timestamp_range : ∀ t : Z, (MIN_UTC ≤ t ≤ MAX_UTC)%Z →
    (- (10 ^ 13) ≤ timestamp t < 10 ^ 13)%Z;
  subsec_law : ∀ t : Z, timestamp_subsec_nanos t = (t mod nanos_per_sec)%Z
}.

(** A concrete calendar range (years -262143 to +262142), for witnesses. *)
Definition chrono_sample : Chrono := {|
  MIN_UTC := (-8334601228800 * 10 ^ 9)%Z;
  MAX_UTC := (8210266876799 * 10 ^ 9 + 999999999)%Z;
  try_seconds := λ s,
    if bool_decide (- (max_delta_secs) ≤ s ≤ max_delta_secs)%Z
    then Some (s * nanos_per_sec)%Z else None;
  checked_add_signed := λ t d,
    if bool_decide ((-8334601228800 * 10 ^ 9) ≤ t + d
                     ≤ (8210266876799 * 10 ^ 9 + 999999999))%Z
    then Some (t + d)%Z else None;
  timestamp := λ t, (t / nanos_per_sec)%Z;
  timestamp_subsec_nanos := λ t, (t mod nanos_per_sec)%Z
|}.

Lemma chrono_sample_laws : ChronoLaws chrono_sample.
Proof.
  split; [cbn; lia|done|done|done| |done]. cbn. unfold nanos_per_sec. intros t Ht. split.
  - apply Z.div_le_lower_bound; lia.
  - apply Z.div_lt_upper_bound; lia.
Qed.

(** A protobuf timestamp. *)
Record Timestamp := { ts_seconds : Z; ts_nanos : Z }.

Definition to_timestamp `{Chrono} (dt : Z) : Timestamp :=
  {| ts_seconds := timestamp dt; ts_nanos := timestamp_subsec_nanos dt |}.

(** ** The environment of one operation

    What a call reads from the outside: its first and second reading of
    [Utc::now()] and the identifier [Uuid::new_v4()] gave it. *)
Record Env := { now : Z; now2 : Z; uuid : string }.

(** What a tokio broadcast receiver yields. *)
Inductive Recv (A : Type) :=
| RecvMsg (a : A)
| RecvLagged (n : Z).
Arguments RecvMsg {A} a.
Arguments RecvLagged {A} n.

(** ** Fallible calls

    A call and its effect on the state: done when it is answered, and done or not
    when it fails. *)
Definition effect {A} (res : result A Error) (same done : Prop) : Prop :=
  match res with Ok _ => done | Err _ => same ∨ done end.

Lemma effect_either {A} (res : result A Error) (P Q : Prop) : effect res P Q → P ∨ Q.
Proof. destruct res; cbn; auto. Qed.
