(* ===== verification/LeaseCore.v ===== *)
(** * Lease policy and lease records ([coordin8-core/src/lease.rs])

    Constants and sentinels, expiry arithmetic, the server-side lease policy
    with its environment parsing and TTL negotiation, and the two interfaces
    the rest of the Djinn is written against: the [LeaseStore] trait of the
    providers and the [Leasing] trait of the services. *)

From S2P Require Import Prelude CoreTypes.

(** ** Constants *)
Definition LEASE_ANY : Z := 0.
Definition LEASE_FOREVER : Z := u64_max.
Definition MAX_REPRESENTABLE_TTL_SECS : Z := 100 * 365 * 24 * 60 * 60.

(** ** Expiry arithmetic *)

(** [i64::try_from(ttl).ok()]. *)
Definition i64_try_from (z : Z) : option Z :=
  if (z <=? i64_max)%Z then Some z else None.

Definition checked_expiry `{Chrono} (from ttl_secs : Z) : option Z :=
  match i64_try_from ttl_secs with
  | None => None
  | Some secs =>
      match try_seconds secs with
      | None => None
      | Some delta => checked_add_signed from delta
      end
  end.

(** Expiry of a grant or renewal: FOREVER is the far-future sentinel. *)
Definition expiry_for `{Chrono} (from ttl_secs : Z) : result Z Error :=
  if (ttl_secs =? LEASE_FOREVER)%Z then Ok MAX_UTC
  else ok_or (Storage ("lease ttl out of range: " +:+ pretty ttl_secs +:+ "s"))
             (checked_expiry from ttl_secs).

(** ** Records *)
Record LeaseRecord := mkLease {
  lr_lease_id : string;
  lr_resource_id : string;
  lr_granted_at : Z;
  lr_expires_at : Z;
  lr_ttl_seconds : Z
}.

#[global] Instance LeaseRecord_eq_dec : EqDecision LeaseRecord.
Proof. solve_decision. Defined.

(** [LeaseRecord::is_expired], at the reading [t] of the clock. *)
Definition is_expired (t : Z) (r : LeaseRecord) : bool :=
  if (lr_ttl_seconds r =? LEASE_FOREVER)%Z then false
  else (lr_expires_at r <=? t)%Z.

Inductive ReclaimReason := Expired | Cancelled.

#[global] Instance ReclaimReason_eq_dec : EqDecision ReclaimReason.
Proof. solve_decision. Defined.

Record LeaseReclaimed := { rc_record : LeaseRecord; rc_reason : ReclaimReason }.

(** ** Policy *)
Record LeaseConfig := { max_ttl : option Z; preferred_ttl : Z }.

Definition LeaseConfig_default : LeaseConfig :=
  {| max_ttl := Some 3600%Z; preferred_ttl := 300 |}.

(** [Option::or_else]. *)
Definition opt_or {A} (o1 o2 : option A) : option A :=
  match o1 with Some a => Some a | None => o2 end.

(** [LeaseConfig::from_env_for]; [var] is [std::env::var(..).ok()]. *)
Definition from_env_for (var : string → option string) (namespace : option string)
  : LeaseConfig :=
  let namespaced suffix :=
    match namespace with
    | None => None
    | Some ns => var (to_ascii_uppercase ns +:+ "_" +:+ suffix)
    end in
  let max_ttl_raw := opt_or (namespaced "MAX_LEASE_TTL") (var "MAX_LEASE_TTL") in
  {| max_ttl :=
       match max_ttl_raw with
       | Some v =>
           if eq_ignore_ascii_case v "forever" then None
           else Some (default 3600%Z (parse_u64 v))
       | None => Some 3600%Z
       end;
     preferred_ttl :=
       default 300%Z
         (opt_or (namespaced "PREFERRED_LEASE_TTL") (var "PREFERRED_LEASE_TTL")
            ≫= parse_u64) |}.

Definition from_env (var : string → option string) : LeaseConfig :=
  from_env_for var None.

(** [LeaseConfig::negotiate]. *)
Definition negotiate (c : LeaseConfig) (requested : Z) : Z :=
  if (requested =? LEASE_ANY)%Z then preferred_ttl c
  else if (requested =? LEASE_FOREVER)%Z then
    match max_ttl c with
    | None => LEASE_FOREVER
    | Some m => m
    end
  else
    match max_ttl c with
    | None => if (requested >? MAX_REPRESENTABLE_TTL_SECS)%Z then LEASE_FOREVER
              else requested
    | Some m => Z.min requested m
    end.

(** ** The [LeaseStore] trait

    One method per trait method; the state is passed explicitly and the clock
    readings and the generated id are arguments.  [list_expired] reads the clock
    once per visited record: [clk id] is the reading made for lease [id]. *)
Class LeaseStore (S : Type) := {
  ls_create : S → Z → string → string → Z → S * result LeaseRecord Error;
  ls_renew : S → Z → string → Z → S * result LeaseRecord Error;
  ls_cancel : S → string → S * result unit Error;
  ls_get : S → string → result (option LeaseRecord) Error;
  ls_get_by_resource : S → string → result (option LeaseRecord) Error;
  ls_list_expired : S → (string → Z) → result (list LeaseRecord) Error;
  ls_remove_if_unchanged : S → LeaseRecord → S * result bool Error
}.

Abbreviation lease_map := (gmap string LeaseRecord).

(** Leases are stored under their own id. *)
Definition leases_wf (m : lease_map) : Prop :=
  ∀ id r, m !! id = Some r → lr_lease_id r = id.

Definition with_expiry (r : LeaseRecord) (expires ttl : Z) : LeaseRecord :=
  {| lr_lease_id := lr_lease_id r; lr_resource_id := lr_resource_id r;
     lr_granted_at := lr_granted_at r; lr_expires_at := expires;
     lr_ttl_seconds := ttl |}.

(** The map of leases a store holds. *)
Class LeaseStoreView (S : Type) := ls_view : S → lease_map.

(** What a lease store promises, in terms of that map. *)
Class LeaseStoreLaws `{Chrono} (S : Type) `{LeaseStore S, LeaseStoreView S} : Prop := {
  ls_create_law : ∀ s t id rid ttl,
    let '(s', res) := ls_create s t id rid ttl in
    match expiry_for t ttl with
    | Ok e =>
        res = Ok (mkLease id rid t e ttl) ∧
        ls_view s' = <[id := mkLease id rid t e ttl]> (ls_view s)
    | Err err => res = Err err ∧ ls_view s' = ls_view s
    end;
  ls_renew_law : ∀ s t id ttl,
    let '(s', res) := ls_renew s t id ttl in
    match ls_view s !! id, expiry_for t ttl with
    | Some r, Ok e =>
        res = Ok (with_expiry r e ttl) ∧
        ls_view s' = <[id := with_expiry r e ttl]> (ls_view s)
    | None, Ok _ => res = Err (LeaseNotFound id) ∧ ls_view s' = ls_view s
    | _, Err _ => is_ok res = false ∧ ls_view s' = ls_view s
    end;
  ls_cancel_law : ∀ s id,
    let '(s', res) := ls_cancel s id in
    res = Ok () ∧ ls_view s' = delete id (ls_view s);
  ls_get_law : ∀ s id, ls_get s id = Ok (ls_view s !! id);
  ls_get_by_resource_law : ∀ s rid,
    ∃ o, ls_get_by_resource s rid = Ok o ∧
      match o with
      | Some r => ∃ id, ls_view s !! id = Some r ∧ lr_resource_id r = rid
      | None => ∀ id r, ls_view s !! id = Some r → lr_resource_id r ≠ rid
      end;
  ls_list_expired_law : ∀ s clk,
    ∃ l, ls_list_expired s clk = Ok l ∧
      l ≡ₚ List.filter (λ r, is_expired (clk (lr_lease_id r)) r)
             (map_to_list (ls_view s)).*2;
  ls_remove_if_unchanged_law : ∀ s rec,
    let '(s', res) := ls_remove_if_unchanged s rec in
    match ls_view s !! lr_lease_id rec with
    | Some cur =>
        if decide (lr_expires_at cur = lr_expires_at rec)
        then res = Ok true ∧ ls_view s' = delete (lr_lease_id rec) (ls_view s)
        else res = Ok false ∧ ls_view s' = ls_view s
    | None => res = Ok false ∧ ls_view s' = ls_view s
    end
}.

(** What a store promises whatever fails beneath it, in the states [ok]: a call
    that is answered did what it says, one that fails may or may not have, and
    neither did anything else; a lease is renewed or removed as it is at that
    moment, however old the reading that led to it; and whatever is listed as
    expired is. *)
Class LeaseStoreSafe `{Chrono} (S : Type) `{LeaseStore S, LeaseStoreView S} (ok : S → Prop) : Prop := {
  safe_create : ∀ s t id rid ttl, ok s → is_u64 ttl →
    let '(s', res) := ls_create s t id rid ttl in
    ok s' ∧ effect res (ls_view s' = ls_view s)
      (∃ e, expiry_for t ttl = Ok e ∧ ls_view s' = <[id := mkLease id rid t e ttl]> (ls_view s));
  safe_renew : ∀ s t id ttl, ok s → is_u64 ttl →
    let '(s', res) := ls_renew s t id ttl in
    ok s' ∧ effect res (ls_view s' = ls_view s)
      (∃ r e, ls_view s !! id = Some r ∧ expiry_for t ttl = Ok e ∧
         ls_view s' = <[id := with_expiry r e ttl]> (ls_view s));
  safe_cancel : ∀ s id, ok s →
    let '(s', res) := ls_cancel s id in
    ok s' ∧ effect res (ls_view s' = ls_view s) (ls_view s' = delete id (ls_view s));
  safe_list_expired : ∀ s clk l r, ok s →
    ls_list_expired s clk = Ok l → r ∈ l → is_expired (clk (lr_lease_id r)) r = true;
  safe_remove_if_unchanged : ∀ s rec, ok s →
    let '(s', res) := ls_remove_if_unchanged s rec in
    let removed := ∃ cur, ls_view s !! lr_lease_id rec = Some cur ∧
      lr_expires_at cur = lr_expires_at rec ∧ ls_view s' = delete (lr_lease_id rec) (ls_view s) in
    ok s' ∧ match res with
            | Ok true => removed
            | Ok false => ls_view s' = ls_view s
            | Err _ => ls_view s' = ls_view s ∨ removed
            end
}.

#[global] Instance LeaseStoreLaws_safe (S : Type) `{LeaseStoreLaws S} :
  LeaseStoreSafe S (λ _, True).
Proof.
  split.
  - intros s t id rid ttl _ _. pose proof (ls_create_law s t id rid ttl) as Hl.
    destruct (ls_create _ _ _ _ _) as [s' res]. destruct (expiry_for t ttl); destruct Hl as [-> Hl];
      cbn; eauto 8.
  - intros s t id ttl _ _. pose proof (ls_renew_law s t id ttl) as Hl.
    destruct (ls_renew _ _ _ _) as [s' res].
    destruct (ls_view s !! id), (expiry_for t ttl); destruct Hl as [Hr Hl];
      (split; [done|]); destruct res; cbn in *; simplify_eq; eauto 6.
  - intros s id _. pose proof (ls_cancel_law s id) as Hl.
    destruct (ls_cancel _ _) as [s' res]. by destruct Hl as [-> Hl].
  - intros s clk l r _ Hl Hr. destruct (ls_list_expired_law s clk) as (l' & Hl' & Hp).
    rewrite Hl' in Hl. injection Hl as ->. rewrite Hp in Hr. by apply filter_bool_elem in Hr as [_ Hr].
  - intros s rec _. pose proof (ls_remove_if_unchanged_law s rec) as Hl.
    destruct (ls_remove_if_unchanged _ _) as [s' res].
    destruct (ls_view s !! _) as [cur|]; [case_decide|]; destruct Hl as [-> Hl];
      cbn zeta; eauto 8.
Qed.

(** ** The [Leasing] trait

    What Registry, Space, EventMgr, TransactionMgr and Proxy use of their
    embedded grantor. *)
Class Leasing (L : Type) := {
  lg_grant : L → Env → string → Z → L * result LeaseRecord Error;
  lg_renew : L → Env → string → Z → L * result LeaseRecord Error;
  lg_cancel : L → string → L * result unit Error
}.

Class LeasingView (L : Type) := lg_leases : L → lease_map.

Class LeasingLaws (L : Type) `{Leasing L, LeasingView L} : Prop := {
  lg_grant_law : ∀ l env rid ttl,
    let '(l', res) := lg_grant l env rid ttl in
    match res with
    | Ok r =>
        lr_lease_id r = uuid env ∧ lr_resource_id r = rid ∧
        lg_leases l' = <[uuid env := r]> (lg_leases l)
    | Err _ => lg_leases l' = lg_leases l
    end;
  lg_renew_law : ∀ l env id ttl,
    let '(l', res) := lg_renew l env id ttl in
    match res with
    | Ok r =>
        lg_leases l' = <[id := r]> (lg_leases l) ∧
        ∃ old, lg_leases l !! id = Some old ∧ is_expired (now env) old = false ∧
          lr_lease_id r = lr_lease_id old ∧ lr_resource_id r = lr_resource_id old
    | Err _ => lg_leases l' = lg_leases l
    end;
  lg_cancel_law : ∀ l id,
    let '(l', res) := lg_cancel l id in
    res = Ok () ∧ lg_leases l' = delete id (lg_leases l)
}.

(** ** Theorems *)

Definition wf_config (c : LeaseConfig) : Prop :=
  is_u64 (preferred_ttl c) ∧ ∀ m, max_ttl c = Some m → is_u64 m.

Section expiry.
Context {C : Chrono} {CL : ChronoLaws C}.

Lemma checked_expiry_spec from ttl :
  (0 ≤ ttl)%Z →
  checked_expiry from ttl =
    (if bool_decide (ttl ≤ max_delta_secs ∧
                     MIN_UTC ≤ from + ttl * nanos_per_sec ≤ MAX_UTC)%Z
     then Some (from + ttl * nanos_per_sec)%Z else None).
Proof.
  intros Hp. unfold checked_expiry, i64_try_from.
  destruct (Z.leb_spec ttl i64_max) as [Hle|Hgt].
  - rewrite try_seconds_law. case_bool_decide as Hr.
    + rewrite checked_add_law.
      do 2 case_bool_decide; try done; exfalso; naive_solver.
    + rewrite bool_decide_eq_false_2; [done|].
      intros [? _]. apply Hr. unfold i64_max, max_delta_secs in *. lia.
  - rewrite bool_decide_eq_false_2; [done|].
    intros [Hs _]. unfold i64_max, max_delta_secs in *. lia.
Qed.

(** [checked_expiry] never wraps and never overshoots: on any [u64]
    TTL it returns exactly [from + ttl] seconds when the TTL fits in a
    [TimeDelta] and the sum is a representable date, and [None] otherwise. *)
Theorem checked_expiry_exact from ttl e :
  is_u64 ttl →
  checked_expiry from ttl = Some e ↔
    (ttl ≤ max_delta_secs)%Z ∧ (MIN_UTC ≤ e ≤ MAX_UTC)%Z ∧
    e = (from + ttl * nanos_per_sec)%Z.
Proof.
  intros [Hp _]. rewrite checked_expiry_spec by done.
  case_bool_decide as Hc; naive_solver.
Qed.

Lemma expiry_for_finite from ttl e :
  (0 ≤ ttl)%Z → ttl ≠ LEASE_FOREVER → expiry_for from ttl = Ok e →
  e = (from + ttl * nanos_per_sec)%Z.
Proof.
  intros Hp Hne. unfold expiry_for.
  destruct (Z.eqb_spec ttl LEASE_FOREVER); [done|].
  rewrite checked_expiry_spec by done. case_bool_decide; simpl; naive_solver.
Qed.

Lemma expiry_for_forever from : expiry_for from LEASE_FOREVER = Ok MAX_UTC.
Proof. done. Qed.
End expiry.

Lemma negotiate_cap c m requested :
  max_ttl c = Some m → requested ≠ LEASE_ANY → (requested ≤ LEASE_FOREVER)%Z →
  negotiate c requested =
    (if (requested =? LEASE_FOREVER)%Z then m else Z.min requested m).
Proof.
  intros Hm Hne Hle. unfold negotiate. rewrite Hm.
  destruct (Z.eqb_spec requested LEASE_ANY); [done|].
  by destruct (Z.eqb_spec requested LEASE_FOREVER).
Qed.

(** Under a configured cap, every request but [LEASE_ANY] is
    granted at most the cap, never more than was asked for, and exactly what was
    asked for when that is within the cap; the granted TTL is a [u64]. *)
Theorem negotiate_respects_cap c m requested :
  wf_config c → is_u64 requested → max_ttl c = Some m → requested ≠ LEASE_ANY →
  is_u64 (negotiate c requested) ∧
  (negotiate c requested ≤ m)%Z ∧ (negotiate c requested ≤ requested)%Z ∧
  ((requested ≤ m)%Z → requested ≠ LEASE_FOREVER → negotiate c requested = requested).
Proof.
  intros [_ Hwf] Hu Hm Hne. specialize (Hwf _ Hm).
  rewrite (negotiate_cap c m) by (try done; unfold is_u64, LEASE_FOREVER in *; lia).
  unfold is_u64, LEASE_FOREVER in *.
  destruct (Z.eqb_spec requested u64_max); lia.
Qed.

Theorem negotiate_respects_cap_witness :
  is_u64 (negotiate LeaseConfig_default 7200) ∧
  (negotiate LeaseConfig_default 7200 ≤ 3600)%Z ∧
  (negotiate LeaseConfig_default 7200 ≤ 7200)%Z ∧
  ((7200 ≤ 3600)%Z → 7200%Z ≠ LEASE_FOREVER → negotiate LeaseConfig_default 7200 = 7200%Z).
Proof.
  apply (negotiate_respects_cap LeaseConfig_default 3600 7200); [|..|done|done].
  - split; [by_compute|]. intros m [= <-]. by_compute.
  - by_compute.
Defined.

(** With no cap configured and a preferred TTL within a century,
    every requested TTL negotiates to one whose expiry can be computed: the
    grant cannot fail on date arithmetic, whatever the client asked for. *)
Theorem uncapped_negotiation_representable {C : Chrono} {CL : ChronoLaws C} c requested from :
  max_ttl c = None → is_u64 requested →
  (0 ≤ preferred_ttl c ≤ MAX_REPRESENTABLE_TTL_SECS)%Z →
  (MIN_UTC ≤ from)%Z →
  (from + MAX_REPRESENTABLE_TTL_SECS * nanos_per_sec ≤ MAX_UTC)%Z →
  ∃ e, expiry_for from (negotiate c requested) = Ok e ∧ (from ≤ e ≤ MAX_UTC)%Z.
Proof.
  intros Hm [Hu0 Hu1] Hpref Hmin Hmax.
  assert (Hfin : ∀ ttl, (0 ≤ ttl ≤ MAX_REPRESENTABLE_TTL_SECS)%Z →
    ∃ e, expiry_for from ttl = Ok e ∧ (from ≤ e ≤ MAX_UTC)%Z).
  { intros ttl Ht. unfold expiry_for.
    destruct (Z.eqb_spec ttl LEASE_FOREVER) as [->|].
    { unfold LEASE_FOREVER, u64_max, MAX_REPRESENTABLE_TTL_SECS in Ht. lia. }
    rewrite checked_expiry_spec by lia.
    unfold MAX_REPRESENTABLE_TTL_SECS, nanos_per_sec in *.
    rewrite bool_decide_eq_true_2.
    - eexists; split; [done|]. lia.
    - split; [|lia]. unfold max_delta_secs. lia. }
  assert (Hfor : ∃ e, expiry_for from LEASE_FOREVER = Ok e ∧ (from ≤ e ≤ MAX_UTC)%Z).
  { rewrite expiry_for_forever. eexists; split; [done|].
    unfold MAX_REPRESENTABLE_TTL_SECS, nanos_per_sec in *. lia. }
  unfold negotiate. rewrite Hm. unfold LEASE_ANY.
  destruct (requested =? 0)%Z; [by apply Hfin|].
  destruct (requested =? LEASE_FOREVER)%Z; [done|].
  destruct (requested >? MAX_REPRESENTABLE_TTL_SECS)%Z eqn:Hgt; [done|].
  apply Hfin. rewrite Z.gtb_ltb in Hgt. apply Z.ltb_ge in Hgt. lia.
Qed.

Theorem uncapped_negotiation_representable_witness :
  ∃ e, @expiry_for chrono_sample 0
         (negotiate {| max_ttl := None; preferred_ttl := 300 |} (u64_max - 1)) = Ok e ∧
       (0 ≤ e ≤ @MAX_UTC chrono_sample)%Z.
Proof.
  apply (uncapped_negotiation_representable (CL := chrono_sample_laws));
    by_compute.
Defined.

(** The cap is not applied to [LEASE_ANY]: with [MAX_LEASE_TTL=60] and the
    preferred TTL left at its default, a client that leaves its TTL unset is
    granted 300 seconds, five times the configured maximum. *)
Theorem any_exceeds_configured_max :
  let c := from_env (λ v, if String.eqb v "MAX_LEASE_TTL" then Some "60" else None) in
  max_ttl c = Some 60%Z ∧ negotiate c LEASE_ANY = 300%Z.
Proof. by vm_compute. Qed.

(** Whatever the environment holds, the policy read from it is made of
    [u64] values, a namespaced variable takes precedence over the global one,
    and [forever] (in any case) removes the cap. *)
Theorem from_env_for_policy var ns v :
  var (to_ascii_uppercase ns +:+ "_MAX_LEASE_TTL") = Some v →
  wf_config (from_env_for var (Some ns)) ∧
  max_ttl (from_env_for var (Some ns)) =
    (if eq_ignore_ascii_case v "forever" then None
     else Some (default 3600%Z (parse_u64 v))).
Proof.
  intros Hv.
  assert (Hp : ∀ w d, is_u64 d → is_u64 (default d (parse_u64 w))).
  { intros w d Hd. destruct (parse_u64 w) as [z|] eqn:E; [|done].
    by apply parse_uint_bound in E. }
  assert (Hmax : max_ttl (from_env_for var (Some ns)) =
    (if eq_ignore_ascii_case v "forever" then None
     else Some (default 3600%Z (parse_u64 v)))).
  { unfold from_env_for. cbn -[eq_ignore_ascii_case]. change ("_" +:+ "MAX_LEASE_TTL") with "_MAX_LEASE_TTL".
    by rewrite Hv. }
  split; [split|done].
  - unfold from_env_for; cbn. destruct (opt_or _ _) as [w|]; cbn; [apply Hp|];
      unfold is_u64; by vm_compute.
  - intros m. rewrite Hmax. destruct (eq_ignore_ascii_case v "forever"); [done|].
    intros [= <-]. apply Hp. unfold is_u64. by vm_compute.
Qed.

Theorem from_env_for_policy_witness :
  let var := λ x, if String.eqb x "SPACE_MAX_LEASE_TTL" then Some "Forever" else None in
  wf_config (from_env_for var (Some "space")) ∧
  max_ttl (from_env_for var (Some "space")) = None.
Proof. apply (from_env_for_policy _ "space" "Forever"). reflexivity. Defined.
