(* ===== verification/LeaseStore.v ===== *)
(** * The in-memory lease store ([providers/local/src/lease_store.rs])

    A [DashMap] from lease id to record.  Each operation takes one shard lock
    of the map, hence is one atomic step.  The file ends with the proof that the
    store keeps the [LeaseStore] contract. *)

From S2P Require Import Prelude CoreTypes LeaseCore.

Record InMemoryLeaseStore := { leases : gmap string LeaseRecord }.

Definition new : InMemoryLeaseStore := {| leases := ∅ |}.

Section ops.
Context `{Chrono} {I : MapIter}.

Definition create (s : InMemoryLeaseStore) (t : Z) (id resource_id : string) (ttl_secs : Z)
  : InMemoryLeaseStore * result LeaseRecord Error :=
  match expiry_for t ttl_secs with
  | Err e => (s, Err e)
  | Ok expires_at =>
      let record := mkLease id resource_id t expires_at ttl_secs in
      ({| leases := <[lr_lease_id record := record]> (leases s) |}, Ok record)
  end.

Definition renew (s : InMemoryLeaseStore) (t : Z) (lease_id : string) (ttl_secs : Z)
  : InMemoryLeaseStore * result LeaseRecord Error :=
  match expiry_for t ttl_secs with
  | Err e => (s, Err e)
  | Ok new_expiry =>
      match leases s !! lease_id with
      | None => (s, Err (LeaseNotFound lease_id))
      | Some entry =>
          let entry' := with_expiry entry new_expiry ttl_secs in
          ({| leases := <[lease_id := entry']> (leases s) |}, Ok entry')
      end
  end.

Definition cancel (s : InMemoryLeaseStore) (lease_id : string)
  : InMemoryLeaseStore * result unit Error :=
  ({| leases := delete lease_id (leases s) |}, Ok ()).

Definition get (s : InMemoryLeaseStore) (lease_id : string)
  : result (option LeaseRecord) Error :=
  Ok (leases s !! lease_id).

Definition get_by_resource (s : InMemoryLeaseStore) (resource_id : string)
  : result (option LeaseRecord) Error :=
  Ok (snd <$> map_find (λ r, String.eqb (lr_resource_id r) resource_id) (leases s)).

Definition list_expired (s : InMemoryLeaseStore) (clk : string → Z)
  : result (list LeaseRecord) Error :=
  Ok (List.filter (λ r, is_expired (clk (lr_lease_id r)) r) (map_values (leases s))).

Definition remove_if_unchanged (s : InMemoryLeaseStore) (record : LeaseRecord)
  : InMemoryLeaseStore * result bool Error :=
  match leases s !! lr_lease_id record with
  | Some cur =>
      if (lr_expires_at cur =? lr_expires_at record)%Z
      then ({| leases := delete (lr_lease_id record) (leases s) |}, Ok true)
      else (s, Ok false)
  | None => (s, Ok false)
  end.

#[global] Instance InMemoryLeaseStore_store : LeaseStore InMemoryLeaseStore := {|
  ls_create := create;
  ls_renew := renew;
  ls_cancel := cancel;
  ls_get := get;
  ls_get_by_resource := get_by_resource;
  ls_list_expired := list_expired;
  ls_remove_if_unchanged := remove_if_unchanged
|}.

#[global] Instance InMemoryLeaseStore_view : LeaseStoreView InMemoryLeaseStore := leases.

#[global] Instance InMemoryLeaseStore_laws : LeaseStoreLaws InMemoryLeaseStore.
Proof.
  split; intros; simpl; unfold ls_view, InMemoryLeaseStore_view.
  - unfold create. by destruct (expiry_for _ _).
  - unfold renew. destruct (expiry_for _ _); by destruct (leases s !! id).
  - done.
  - done.
  - eexists; split; [done|]. destruct (map_find _ _) as [[k r]|] eqn:E; simpl.
    + apply map_find_Some in E as [? ?%String.eqb_eq]. eauto.
    + intros id r Hr. apply map_find_None with (k := id) (v := r) in E; [|done].
      by apply String.eqb_neq.
  - eexists; split; [done|]. by rewrite map_values_perm.
  - unfold remove_if_unchanged. destruct (leases s !! _) as [cur|]; [|done].
    case_decide as Hd.
    + by rewrite Hd, Z.eqb_refl.
    + by apply Z.eqb_neq in Hd as ->.
Qed.
End ops.

(** The in-memory store implements the [LeaseStore] contract over the
    map of leases it holds: creation, renewal, cancellation, lookup by id and by
    resource, the expired listing and the conditional removal all behave as the
    trait documents, for every iteration order of the map. *)
Theorem in_memory_lease_store_refines {C : Chrono} {I : MapIter} :
  LeaseStoreLaws InMemoryLeaseStore.
Proof. exact InMemoryLeaseStore_laws. Qed.
