(* ===== verification/LeaseManager.v ===== *)
(** * The lease manager and its reaper
    ([coordin8-lease/src/manager.rs], [coordin8-lease/src/reaper.rs])

    The manager is generic in its store, as the source is ([Arc<dyn
    LeaseStore>]); its theorems are proved against [LeaseStoreLaws], and it in
    turn discharges the [Leasing] interface the services are written against.
    The broadcast channel is the list of what was sent on it, oldest first.  The
    last section is the interleaving of the reaper with concurrent clients at
    the granularity of store calls. *)

From S2P Require Import Prelude CoreTypes LeaseCore LeaseStore.

Record LeaseManager (S : Type) := {
  lm_store : S;
  lm_config : LeaseConfig;
  lm_expiry_tx : list LeaseReclaimed
}.
Arguments lm_store {S} _.
Arguments lm_config {S} _.
Arguments lm_expiry_tx {S} _.

Section manager.
Context {S : Type} `{LeaseStore S}.
Implicit Types (m : LeaseManager S).

Definition set_store m (s : S) : LeaseManager S :=
  {| lm_store := s; lm_config := lm_config m; lm_expiry_tx := lm_expiry_tx m |}.

(** [expiry_tx.send(..)]. *)
Definition send_reclaimed m (e : LeaseReclaimed) : LeaseManager S :=
  {| lm_store := lm_store m; lm_config := lm_config m;
     lm_expiry_tx := lm_expiry_tx m ++ [e] |}.

Definition get m (lease_id : string) : result (option LeaseRecord) Error :=
  ls_get (lm_store m) lease_id.

(** The loop of [drain_expired]: an error of the store returns early. *)
Fixpoint drain_loop (s : S) (expired removed : list LeaseRecord)
  : S * result (list LeaseRecord) Error :=
  match expired with
  | [] => (s, Ok removed)
  | record :: rest =>
      match ls_remove_if_unchanged s record with
      | (s', Err e) => (s', Err e)
      | (s', Ok true) => drain_loop s' rest (removed ++ [record])
      | (s', Ok false) => drain_loop s' rest removed
      end
  end.

Definition drain_expired m (clk : string → Z)
  : LeaseManager S * result (list LeaseRecord) Error :=
  match ls_list_expired (lm_store m) clk with
  | Err e => (m, Err e)
  | Ok expired =>
      let '(s', res) := drain_loop (lm_store m) expired [] in (set_store m s', res)
  end.

Definition grant m (env : Env) (resource_id : string) (ttl_secs : Z)
  : LeaseManager S * result LeaseRecord Error :=
  let granted_ttl := negotiate (lm_config m) ttl_secs in
  let '(s', res) := ls_create (lm_store m) (now env) (uuid env) resource_id granted_ttl in
  (set_store m s', res).

Definition renew m (env : Env) (lease_id : string) (ttl_secs : Z)
  : LeaseManager S * result LeaseRecord Error :=
  match ls_get (lm_store m) lease_id with
  | Err e => (m, Err e)
  | Ok None => (m, Err (LeaseNotFound lease_id))
  | Ok (Some record) =>
      if is_expired (now env) record then (m, Err (LeaseExpired lease_id))
      else
        let granted_ttl := negotiate (lm_config m) ttl_secs in
        let '(s', res) := ls_renew (lm_store m) (now2 env) lease_id granted_ttl in
        (set_store m s', res)
  end.

Definition cancel m (lease_id : string) : LeaseManager S * result unit Error :=
  match ls_get (lm_store m) lease_id with
  | Err e => (m, Err e)
  | Ok record =>
      let '(s', res) := ls_cancel (lm_store m) lease_id in
      let m' := set_store m s' in
      match res with
      | Err e => (m', Err e)
      | Ok _ =>
          match record with
          | Some r => (send_reclaimed m' {| rc_record := r; rc_reason := Cancelled |}, Ok ())
          | None => (m', Ok ())
          end
      end
  end.

(** One tick of [run_reaper]. *)
Definition reaper_tick m (clk : string → Z) : LeaseManager S :=
  match drain_expired m clk with
  | (m', Ok expired) =>
      foldl (λ acc r, send_reclaimed acc {| rc_record := r; rc_reason := Expired |})
            m' expired
  | (m', Err _) => m'
  end.

(** The reaper runs for the life of the process: one tick per clock reading. *)
Definition run_reaper m (ticks : list (string → Z)) : LeaseManager S :=
  foldl reaper_tick m ticks.

#[global] Instance LeaseManager_leasing : Leasing (LeaseManager S) := {|
  lg_grant := grant;
  lg_renew := renew;
  lg_cancel := cancel
|}.

#[global] Instance LeaseManager_view `{LeaseStoreView S} : LeasingView (LeaseManager S) :=
  λ m, ls_view (lm_store m).
End manager.

(** ** Theorems against the store contract *)
Section theorems.
Context {C : Chrono} {S : Type} {LS : LeaseStore S} {LV : LeaseStoreView S}.
Context {LL : LeaseStoreLaws S}.
Implicit Types (m : LeaseManager S).

Abbreviation view m := (ls_view (lm_store m)).

Lemma get_view m id : get m id = Ok (view m !! id).
Proof. apply ls_get_law. Qed.

#[global] Instance LeaseManager_laws : LeasingLaws (LeaseManager S).
Proof.
  split; intros; unfold lg_leases, LeaseManager_view; simpl.
  - unfold grant. pose proof (ls_create_law (lm_store l) (now env) (uuid env) rid
      (negotiate (lm_config l) ttl)) as Hc.
    destruct (ls_create _ _ _ _ _) as [s' res]; simpl.
    destruct (expiry_for _ _); destruct Hc as [-> ->]; done.
  - unfold renew. rewrite ls_get_law.
    destruct (ls_view _ !! id) as [r|] eqn:Hr; [|done].
    destruct (is_expired _ r) eqn:He; [done|].
    pose proof (ls_renew_law (lm_store l) (now2 env) id (negotiate (lm_config l) ttl)) as Hn.
    rewrite Hr in Hn. destruct (ls_renew _ _ _ _) as [s' res]; simpl.
    destruct (expiry_for _ _).
    + destruct Hn as [-> ->]. split; [done|]. exists r. done.
    + destruct res; [by destruct Hn|]. by destruct Hn as [_ ->].
  - unfold cancel. rewrite ls_get_law.
    pose proof (ls_cancel_law (lm_store l) id) as Hc.
    destruct (ls_cancel _ _) as [s' res]. destruct Hc as [-> Hv].
    by destruct (ls_view _ !! id).
Qed.

(** *** Draining *)

Lemma remove_if_unchanged_hit s rec :
  ls_view s !! lr_lease_id rec = Some rec →
  ∃ s', ls_remove_if_unchanged s rec = (s', Ok true) ∧
        ls_view s' = delete (lr_lease_id rec) (ls_view s).
Proof.
  intros Hr. pose proof (ls_remove_if_unchanged_law s rec) as Hl.
  destruct (ls_remove_if_unchanged s rec) as [s' res].
  rewrite Hr, decide_True in Hl by done. destruct Hl as [-> ?]. eauto.
Qed.

Lemma drain_loop_spec s l acc :
  NoDup (lr_lease_id <$> l) →
  (∀ r, r ∈ l → ls_view s !! lr_lease_id r = Some r) →
  ∃ s', drain_loop s l acc = (s', Ok (acc ++ l)) ∧
        ls_view s' = filter (λ kv, kv.1 ∉ (lr_lease_id <$> l)) (ls_view s).
Proof.
  revert s acc. induction l as [|r l IH]; intros s acc Hnd Hin; simpl.
  { exists s. rewrite app_nil_r. split; [done|]. symmetry. apply map_filter_id.
    intros. apply not_elem_of_nil. }
  rewrite fmap_cons, NoDup_cons in Hnd. destruct Hnd as [Hnot Hnd].
  destruct (remove_if_unchanged_hit s r) as (s1 & -> & Hv1).
  { apply Hin. left. }
  destruct (IH s1 (acc ++ [r])) as (s2 & -> & Hv2); [done|..].
  { intros r' Hr'. rewrite Hv1, lookup_delete_ne; [apply Hin; by right|].
    intros Heq. apply Hnot. rewrite Heq. by apply list_elem_of_fmap_2. }
  exists s2. rewrite <- app_assoc. split; [done|].
  rewrite Hv2, Hv1. apply map_eq. intros k. apply option_eq. intros v.
  rewrite !map_lookup_filter_Some, lookup_delete_Some, not_elem_of_cons. naive_solver.
Qed.

Lemma expired_list_facts m clk l :
  leases_wf (view m) →
  l ≡ₚ List.filter (λ r, is_expired (clk (lr_lease_id r)) r) (map_to_list (view m)).*2 →
  NoDup (lr_lease_id <$> l) ∧
  (∀ r, r ∈ l ↔ view m !! lr_lease_id r = Some r ∧ is_expired (clk (lr_lease_id r)) r = true).
Proof.
  intros Hwf Hp.
  assert (Hids : lr_lease_id <$> (map_to_list (view m)).*2 = (map_to_list (view m)).*1).
  { rewrite <- list_fmap_compose. apply list_fmap_ext. intros i [k r] Hi. simpl.
    apply Hwf, elem_of_map_to_list. by eapply list_elem_of_lookup_2. }
  split.
  - rewrite Hp. pose proof (NoDup_fst_map_to_list (view m)) as Hnd. rewrite <- Hids in Hnd.
    clear -Hnd. induction (map_to_list (view m)).*2 as [|r l IH]; simpl; [constructor|].
    rewrite fmap_cons, NoDup_cons in Hnd. destruct Hnd as [Hn Hnd].
    destruct (is_expired _ r); [|by apply IH].
    rewrite fmap_cons. constructor; [|by apply IH].
    intros Hin. apply Hn. apply list_elem_of_fmap in Hin as (r' & -> & Hr').
    apply filter_bool_elem in Hr' as [Hr' _]. by apply list_elem_of_fmap_2.
  - intros r. rewrite Hp, filter_bool_elem, list_elem_of_fmap. split.
    + intros [([k r'] & -> & Hin) He]. apply elem_of_map_to_list in Hin.
      simpl in *. pose proof (Hwf _ _ Hin) as <-. done. 
    + intros [Hr He]. split; [|done]. exists (lr_lease_id r, r).
      by rewrite elem_of_map_to_list.
Qed.

Lemma drain_expired_spec m clk :
  leases_wf (view m) →
  ∃ m' l, drain_expired m clk = (m', Ok l) ∧
    NoDup (lr_lease_id <$> l) ∧
    (∀ r, r ∈ l ↔
       view m !! lr_lease_id r = Some r ∧ is_expired (clk (lr_lease_id r)) r = true) ∧
    view m' = filter (λ kv, is_expired (clk kv.1) kv.2 = false) (view m) ∧
    lm_config m' = lm_config m ∧ lm_expiry_tx m' = lm_expiry_tx m.
Proof.
  intros Hwf. unfold drain_expired.
  destruct (ls_list_expired_law (lm_store m) clk) as (l & -> & Hp).
  destruct (expired_list_facts m clk l) as [Hnd Hl]; [done|done|].
  destruct (drain_loop_spec (lm_store m) l []) as (s' & -> & Hv); [done|..].
  { intros r Hr. by apply Hl. }
  exists (set_store m s'), l. repeat (split; [done|]). split; [|done]. simpl.
  rewrite Hv. apply map_eq. intros k. apply option_eq. intros v.
  rewrite !map_lookup_filter_Some. simpl.
  split; intros [Hk Hx]; (split; [done|]).
  - destruct (is_expired (clk k) v) eqn:He; [|done]. exfalso. apply Hx.
    assert (lr_lease_id v = k) as <- by (by apply Hwf).
    apply list_elem_of_fmap_2, Hl. done.
  - intros (r & -> & Hr)%list_elem_of_fmap. apply Hl in Hr as [Hr ?].
    simplify_eq. congruence.
Qed.

Lemma reaper_log m l :
  lm_expiry_tx (foldl (λ acc r, send_reclaimed acc {| rc_record := r; rc_reason := Expired |}) m l)
    = lm_expiry_tx m ++ ((λ r, {| rc_record := r; rc_reason := Expired |}) <$> l) ∧
  lm_store (foldl (λ acc r, send_reclaimed acc {| rc_record := r; rc_reason := Expired |}) m l)
    = lm_store m.
Proof.
  revert m. induction l as [|r l IH]; intros m; simpl; [by rewrite app_nil_r|].
  destruct (IH (send_reclaimed m {| rc_record := r; rc_reason := Expired |})) as [-> ->].
  simpl. by rewrite <- app_assoc.
Qed.

(** One undisturbed tick of the reaper reclaims exactly the leases that
    are expired at the reading made for them: each is removed and broadcast once
    with reason [Expired], every other lease is kept, and nothing else is sent. *)
Theorem reaper_tick_exact m clk :
  leases_wf (view m) →
  ∃ l, lm_expiry_tx (reaper_tick m clk) =
         lm_expiry_tx m ++ ((λ r, {| rc_record := r; rc_reason := Expired |}) <$> l) ∧
    NoDup (lr_lease_id <$> l) ∧
    (∀ r, r ∈ l ↔
       view m !! lr_lease_id r = Some r ∧ is_expired (clk (lr_lease_id r)) r = true) ∧
    view (reaper_tick m clk) = filter (λ kv, is_expired (clk kv.1) kv.2 = false) (view m).
Proof.
  intros Hwf. destruct (drain_expired_spec m clk Hwf) as (m' & l & Hd & Hnd & Hl & Hv & Hc & Htx).
  unfold reaper_tick. rewrite Hd. destruct (reaper_log m' l) as [-> ->].
  exists l. by rewrite Htx, Hv.
Qed.

(** [LeaseManager::renew] on every branch: an unknown lease is
    [LeaseNotFound]; an expired lease is refused with [LeaseExpired] and left
    untouched (it is never resurrected); a live lease is extended to the second
    clock reading plus the negotiated TTL, its identity and resource kept. *)
Theorem renew_outcome m env id ttl :
  match view m !! id with
  | None => renew m env id ttl = (m, Err (LeaseNotFound id))
  | Some r =>
      if is_expired (now env) r then renew m env id ttl = (m, Err (LeaseExpired id))
      else
        let granted := negotiate (lm_config m) ttl in
        match expiry_for (now2 env) granted with
        | Ok e =>
            (renew m env id ttl).2 = Ok (with_expiry r e granted) ∧
            view (renew m env id ttl).1 = <[id := with_expiry r e granted]> (view m) ∧
            lm_expiry_tx (renew m env id ttl).1 = lm_expiry_tx m
        | Err _ =>
            is_ok (renew m env id ttl).2 = false ∧ view (renew m env id ttl).1 = view m
        end
  end.
Proof.
  unfold renew. rewrite ls_get_law. destruct (view m !! id) as [r|] eqn:Hr; [|done].
  destruct (is_expired _ r); [done|].
  pose proof (ls_renew_law (lm_store m) (now2 env) id (negotiate (lm_config m) ttl)) as Hn.
  rewrite Hr in Hn. destruct (ls_renew _ _ _ _) as [s' res]. simpl.
  destruct (expiry_for _ _); simpl; naive_solver.
Qed.

(** [LeaseManager::cancel] always succeeds, removes the lease and only
    it, and broadcasts the removed record with reason [Cancelled] exactly when
    the lease existed; a second cancel changes nothing and is silent. *)
Theorem cancel_outcome m id :
  let m1 := (cancel m id).1 in
  (cancel m id).2 = Ok () ∧
  view m1 = delete id (view m) ∧
  lm_expiry_tx m1 = lm_expiry_tx m ++
    match view m !! id with
    | Some r => [{| rc_record := r; rc_reason := Cancelled |}]
    | None => []
    end ∧
  lm_expiry_tx (cancel m1 id).1 = lm_expiry_tx m1 ∧ view (cancel m1 id).1 = view m1.
Proof.
  assert (Hgen : ∀ m0, (cancel m0 id).2 = Ok () ∧ view (cancel m0 id).1 = delete id (view m0) ∧
    lm_expiry_tx (cancel m0 id).1 = lm_expiry_tx m0 ++
      match view m0 !! id with
      | Some r => [{| rc_record := r; rc_reason := Cancelled |}]
      | None => []
      end).
  { intros m0. unfold cancel. rewrite ls_get_law.
    pose proof (ls_cancel_law (lm_store m0) id) as Hc.
    destruct (ls_cancel _ _) as [s' res]. destruct Hc as [-> Hv].
    destruct (view m0 !! id); simpl; rewrite ?app_nil_r; done. }
  intros m1. destruct (Hgen m) as (Hr & Hv & Htx). fold m1 in Hv, Htx.
  repeat (split; [done|]). destruct (Hgen m1) as (_ & Hv' & Htx').
  rewrite Htx', Hv', Hv, lookup_delete_eq, app_nil_r. by rewrite delete_delete_eq.
Qed.
End theorems.

(** ** The reaper among concurrent clients

    Every await of the source is a point where another task may run.  The steps
    below are the store calls themselves: clients create, renew and cancel
    leases while the reaper is anywhere between listing expired leases and
    broadcasting the ones it removed. *)
Section interleaving.
Context {C : Chrono} {S : Type} {LS : LeaseStore S} {LV : LeaseStoreView S}.
Context {ok : S → Prop} {LL : LeaseStoreSafe S ok}.

Record RState := {
  rs_store : S;
  rs_clock : Z;
  rs_pending : list LeaseRecord;   (** listed as expired, not yet visited *)
  rs_removed : list LeaseRecord;   (** removed, not yet broadcast *)
  rs_log : list LeaseReclaimed     (** the broadcast channel *)
}.

Inductive RLabel :=
| LTick | LCreate (id : string) | LRenew (id : string) | LCancel (id : string)
| LList | LRemove | LBroadcast.

Inductive rstep : RState → RLabel → RState → Prop :=
| R_tick s t t' p rm lg :
    (t ≤ t')%Z → (t' < MAX_UTC)%Z →
    rstep (Build_RState s t p rm lg) LTick (Build_RState s t' p rm lg)
| R_create s t p rm lg id rid ttl s' res :
    is_u64 ttl → ls_create s t id rid ttl = (s', res) →
    rstep (Build_RState s t p rm lg) (LCreate id) (Build_RState s' t p rm lg)
| R_renew s t p rm lg id ttl s' res :
    is_u64 ttl → ls_renew s t id ttl = (s', res) →
    rstep (Build_RState s t p rm lg) (LRenew id) (Build_RState s' t p rm lg)
| R_cancel s t p rm lg id o s' res :
    ls_get s id = Ok o → ls_cancel s id = (s', res) →
    rstep (Build_RState s t p rm lg) (LCancel id)
      (Build_RState s' t p rm
         (lg ++ match res, o with
                | Ok _, Some r => [{| rc_record := r; rc_reason := Cancelled |}]
                | _, _ => []
                end))
| R_list s t lg clk l :
    (∀ id, (clk id ≤ t)%Z) → ls_list_expired s clk = Ok l →
    rstep (Build_RState s t [] [] lg) LList (Build_RState s t l [] lg)
| R_remove s t r p rm lg s' b :
    ls_remove_if_unchanged s r = (s', Ok b) →
    rstep (Build_RState s t (r :: p) rm lg) LRemove
      (Build_RState s' t p (if b then rm ++ [r] else rm) lg)
| R_remove_fails s t r p rm lg s' e :
    ls_remove_if_unchanged s r = (s', Err e) →
    rstep (Build_RState s t (r :: p) rm lg) LRemove (Build_RState s' t [] [] lg)
| R_broadcast s t r rm lg :
    rstep (Build_RState s t [] (r :: rm) lg) LBroadcast
      (Build_RState s t [] rm (lg ++ [{| rc_record := r; rc_reason := Expired |}])).

Inductive rreach : RState → Prop :=
| reach_init s t : ok s → ls_view s = ∅ → (t < MAX_UTC)%Z → rreach (Build_RState s t [] [] [])
| reach_step st l st' : rreach st → rstep st l st' → rreach st'.

(** A FOREVER lease carries the far-future sentinel. *)
Definition lease_ok (id : string) (r : LeaseRecord) : Prop :=
  lr_lease_id r = id ∧ (lr_ttl_seconds r = LEASE_FOREVER → lr_expires_at r = MAX_UTC).

Definition past (t : Z) (r : LeaseRecord) : Prop := is_expired t r = true.

Record RInv (st : RState) : Prop := {
  ri_ok : ok (rs_store st);
  ri_leases : map_Forall lease_ok (ls_view (rs_store st));
  ri_clock : (rs_clock st < MAX_UTC)%Z;
  ri_pending : Forall (past (rs_clock st)) (rs_pending st);
  ri_removed : Forall (past (rs_clock st)) (rs_removed st);
  ri_log : Forall (λ e, rc_reason e = Expired → past (rs_clock st) (rc_record e)) (rs_log st)
}.

Lemma past_mono t t' r : (t ≤ t')%Z → past t r → past t' r.
Proof.
  unfold past, is_expired. destruct (_ =? _)%Z; [done|].
  rewrite !Z.leb_le. lia.
Qed.

Lemma lease_ok_create id rid t e ttl :
  expiry_for t ttl = Ok e → lease_ok id (mkLease id rid t e ttl).
Proof. intros He. split; [done|]. simpl. intros ->. by injection He as <-. Qed.

Lemma lease_ok_renew id r t e ttl :
  lease_ok id r → expiry_for t ttl = Ok e → lease_ok id (with_expiry r e ttl).
Proof. intros [Hid _] He. split; [done|]. simpl. intros ->. by injection He as <-. Qed.

(** What one step does to the leases in the store. *)
Definition leases_step (st : RState) (l : RLabel) (v' : lease_map) : Prop :=
  let v := ls_view (rs_store st) in
  v' = v ∨
  (∃ id r, lease_ok id r ∧ v' = <[id := r]> v) ∨
  (∃ id, l = LCancel id ∧ v' = delete id v) ∨
  (∃ rec p cur, l = LRemove ∧ rs_pending st = rec :: p ∧ v !! lr_lease_id rec = Some cur ∧
     lr_expires_at cur = lr_expires_at rec ∧ v' = delete (lr_lease_id rec) v).

Lemma rstep_leases st l st' :
  RInv st → rstep st l st' → ok (rs_store st') ∧ leases_step st l (ls_view (rs_store st')).
Proof.
  intros [Hok Hl _ _ _ _] Hs. unfold leases_step.
  destruct Hs as [|s t p rm lg id rid ttl s' res Hu Hc|s t p rm lg id ttl s' res Hu Hc
    |s t p rm lg id o s' res _ Hc|s t lg clk l Hclk Hc|s t r p rm lg s' b Hc|s t r p rm lg s' e Hc|];
    cbn in *; try (by split; [|left]).
  - pose proof (safe_create s t id rid ttl Hok Hu) as Hlaw. rewrite Hc in Hlaw.
    destruct Hlaw as [Hok' [Hv|(e & He & Hv)]%effect_either]; [auto|]. split; [done|]. right. left.
    exists id, (mkLease id rid t e ttl). split; [by eapply lease_ok_create|done].
  - pose proof (safe_renew s t id ttl Hok Hu) as Hlaw. rewrite Hc in Hlaw.
    destruct Hlaw as [Hok' [Hv|(r & e & Hr & He & Hv)]%effect_either]; [auto|]. split; [done|].
    right. left. exists id, (with_expiry r e ttl). split; [|done].
    eapply lease_ok_renew; [by apply Hl|done].
  - pose proof (safe_cancel s id Hok) as Hlaw. rewrite Hc in Hlaw.
    destruct Hlaw as [Hok' [Hv|Hv]%effect_either]; [auto|]. split; [done|]. right. right. left. eauto.
  - pose proof (safe_remove_if_unchanged s r Hok) as Hlaw. rewrite Hc in Hlaw.
    destruct Hlaw as [Hok' Hlaw]. split; [done|]. destruct b; [|by left].
    destruct Hlaw as (cur & ? & ? & ?). do 3 right. by exists r, p, cur.
  - pose proof (safe_remove_if_unchanged s r Hok) as Hlaw. rewrite Hc in Hlaw.
    destruct Hlaw as [Hok' [Hv|(cur & ? & ? & ?)]]; [by split; [|left]|]. split; [done|].
    do 3 right. by exists r, p, cur.
Qed.

Lemma RInv_step st l st' : RInv st → rstep st l st' → RInv st'.
Proof.
  intros Hinv Hs. destruct (rstep_leases _ _ _ Hinv Hs) as [Hok' Hv].
  assert (Hl' : map_Forall lease_ok (ls_view (rs_store st'))).
  { destruct Hinv as [_ Hl _ _ _ _].
    destruct Hv as [->|[(id & r & Hr & ->)|[(id & _ & ->)|(rec & p & cur & _ & _ & _ & _ & ->)]]];
      [done|by apply map_Forall_insert_2|by apply map_Forall_delete..]. }
  destruct Hinv as [Hok Hl Hc Hp Hr Hg]. clear Hv.
  destruct Hs; simpl in *; split; simpl; try done.
  - eapply Forall_impl; [done|]. intros r. by apply past_mono.
  - eapply Forall_impl; [done|]. intros r. by apply past_mono.
  - eapply Forall_impl; [done|]. intros ev Hev Hx. by eapply past_mono, Hev.
  - apply Forall_app. split; [done|]. destruct res, o; constructor; [done|constructor].
  - apply Forall_forall. intros r Hin. by eapply past_mono, safe_list_expired.
  - by inversion Hp.
  - destruct b; [|done]. apply Forall_app. split; [done|]. inversion Hp; by constructor.
  - by inversion Hr.
  - apply Forall_app. split; [done|]. inversion Hr. by constructor.
Qed.

Lemma RInv_reach st : rreach st → RInv st.
Proof.
  induction 1 as [s t Hok Hs Ht|st l st' _ IH Hstep].
  - split; simpl; [done|rewrite Hs; apply map_Forall_empty|done|constructor..].
  - by eapply RInv_step.
Qed.

(** A lease that leaves the store was cancelled or had expired as it stood. *)
Lemma lease_leaves st l st' id r :
  RInv st → rstep st l st' →
  ls_view (rs_store st) !! id = Some r → ls_view (rs_store st') !! id = None →
  l = LCancel id ∨ (l = LRemove ∧ is_expired (rs_clock st) r = true).
Proof.
  intros Hinv Hs Hin Hout. destruct (rstep_leases _ _ _ Hinv Hs) as [_ Hv].
  destruct Hinv as [_ Hl Hc Hp _ _].
  destruct Hv as [Hv|[(i & x & _ & Hv)|[(i & -> & Hv)|(rec & p & cur & -> & Hpe & Hcur & Hex & Hv)]]];
    rewrite Hv in Hout.
  - congruence.
  - apply lookup_insert_None in Hout as [? _]. congruence.
  - apply lookup_delete_None in Hout as [->|?]; [by left|congruence].
  - apply lookup_delete_None in Hout as [<-|?]; [|congruence]. right. split; [done|].
    rewrite Hpe in Hp. apply Forall_cons in Hp as [Hpast _]. rewrite Hin in Hcur. injection Hcur as <-.
    destruct (Hl _ _ Hin) as [_ Hfor]. unfold past, is_expired in *.
    destruct (lr_ttl_seconds rec =? LEASE_FOREVER)%Z; [done|]. rewrite Z.leb_le in Hpast.
    destruct (Z.eqb_spec (lr_ttl_seconds r) LEASE_FOREVER) as [Hf|]; [specialize (Hfor Hf)|apply Z.leb_le]; lia.
Qed.

(** C5: In every interleaving of clients with the reaper, whatever store calls
    fail and however old its listing is, a lease leaves the store only because
    its holder cancelled it or because the version in the store at that moment,
    renewals included, was expired; and whatever has been broadcast as [Expired]
    is expired. *)
Theorem reaper_never_drops_live_lease st l st' id r :
  rreach st → rstep st l st' →
  ls_view (rs_store st) !! id = Some r → ls_view (rs_store st') !! id = None →
  (l = LCancel id ∨ (l = LRemove ∧ is_expired (rs_clock st) r = true)) ∧
  Forall (λ e, rc_reason e = Expired → is_expired (rs_clock st) (rc_record e) = true)
    (rs_log st).
Proof.
  intros Hreach Hs Hin Hout. pose proof (RInv_reach _ Hreach) as Hinv.
  split; [by eapply lease_leaves|apply Hinv].
Qed.
End interleaving.

(** ** Concrete instances *)
Section samples.
#[local] Existing Instance chrono_sample.
#[local] Existing Instance canonical_iter.

(** Lease [a] expires at 5 s, lease [b] at 100 s. *)
Definition sample_store : InMemoryLeaseStore := {|
  leases := <["a" := mkLease "a" "registry:x" 0 5000000000 5]>
             (<["b" := mkLease "b" "registry:y" 0 100000000000 100]> ∅) |}.

Definition sample_manager : LeaseManager InMemoryLeaseStore := {|
  lm_store := sample_store; lm_config := LeaseConfig_default; lm_expiry_tx := [] |}.

Lemma sample_wf : leases_wf (ls_view (lm_store sample_manager)).
Proof.
  intros id r. cbn. rewrite !lookup_insert_Some, lookup_empty. naive_solver.
Qed.

Theorem reaper_tick_exact_witness :
  let m := sample_manager in let clk := λ _ : string, 10000000000%Z in
  ∃ l, lm_expiry_tx (reaper_tick m clk) =
         [] ++ ((λ r, {| rc_record := r; rc_reason := Expired |}) <$> l) ∧
    NoDup (lr_lease_id <$> l) ∧
    (∀ r, r ∈ l ↔ ls_view (lm_store m) !! lr_lease_id r = Some r ∧
                  is_expired (clk (lr_lease_id r)) r = true) ∧
    ls_view (lm_store (reaper_tick m clk)) =
      filter (λ kv, is_expired (clk kv.1) kv.2 = false) (ls_view (lm_store m)).
Proof. exact (reaper_tick_exact sample_manager (λ _, 10000000000%Z) sample_wf). Defined.

(** Lease [b] is live at 10 s and renewed for 60 s from 11 s. *)
Theorem renew_outcome_witness :
  (renew sample_manager {| now := 10000000000; now2 := 11000000000; uuid := "" |} "b" 60).2 =
    Ok (mkLease "b" "registry:y" 0 71000000000 60).
Proof.
  pose proof (renew_outcome sample_manager
    {| now := 10000000000; now2 := 11000000000; uuid := "" |} "b" 60) as (Hr & _).
  rewrite Hr. reflexivity.
Defined.

(** Lease [a] is granted for 5 s, the clock passes it, the reaper lists and
    removes it. *)
Definition race_record : LeaseRecord := mkLease "a" "registry:x" 0 5000000000 5.
Definition race_store : InMemoryLeaseStore := {| leases := {["a" := race_record]} |}.

Lemma race_reach :
  rreach (ok := λ _, True) (Build_RState race_store 10000000000 [race_record] [] []).
Proof.
  eapply reach_step; [eapply reach_step; [eapply reach_step|]|].
  - apply (reach_init new 0); [done|done|by_compute].
  - eapply (R_create _ _ _ _ _ "a" "registry:x" 5); [by_compute|reflexivity].
  - apply (R_tick _ _ 10000000000); by_compute.
  - eapply (R_list _ _ _ (λ _, 10000000000%Z)); [done|]. vm_compute. reflexivity.
Qed.

Theorem reaper_never_drops_live_lease_witness :
  (LRemove = LCancel "a" ∨
   (LRemove = LRemove ∧ is_expired 10000000000 race_record = true)) ∧
  Forall (λ e, rc_reason e = Expired → is_expired 10000000000 (rc_record e) = true) [].
Proof.
  eapply (reaper_never_drops_live_lease
           (Build_RState race_store 10000000000 [race_record] [] []) LRemove
           (Build_RState new 10000000000 [] [race_record] []) "a" race_record race_reach).
  - apply (R_remove race_store _ race_record [] [] [] new true). reflexivity.
  - reflexivity.
  - reflexivity.
Defined.
End samples.
