(* ===== verification/LeaseService.v ===== *)
(** * The [LeaseService] gRPC endpoint ([coordin8-lease/src/service.rs])

    Each handler calls the lease manager and maps its errors to statuses; the
    grantor's address is stamped on every lease returned.  Requests are the
    arguments of the handlers, responses their results. *)

From S2P Require Import Prelude CoreTypes LeaseCore LeaseManager.

(** The protobuf [Lease]. *)
Record Lease := {
  pl_lease_id : string;
  pl_resource_id : string;
  pl_granted_at : Timestamp;
  pl_expires_at : Timestamp;
  pl_ttl_seconds : Z;
  pl_grantor_host : string;
  pl_grantor_port : Z
}.

(** The address a service grants leases from. *)
Record Grantor := { grantor_host : string; grantor_port : Z }.

Definition record_to_proto `{Chrono} (g : Grantor) (r : LeaseRecord) : Lease := {|
  pl_lease_id := lr_lease_id r;
  pl_resource_id := lr_resource_id r;
  pl_granted_at := to_timestamp (lr_granted_at r);
  pl_expires_at := to_timestamp (lr_expires_at r);
  pl_ttl_seconds := lr_ttl_seconds r;
  pl_grantor_host := grantor_host g;
  pl_grantor_port := grantor_port g
|}.

Definition RENEW_ALL_MAX_ITEMS : nat := 1000.

Definition renew_status (e : Error) : Status :=
  match e with
  | LeaseNotFound _ => mkStatus CNotFound (error_to_string e)
  | LeaseExpired _ => mkStatus CFailedPrecondition (error_to_string e)
  | _ => mkStatus CInternal (error_to_string e)
  end.

Definition internal_status (e : Error) : Status :=
  mkStatus CInternal (error_to_string e).

(** [renew_all_response::Result]. *)
Record RenewResult := {
  rr_lease_id : string;
  rr_lease : option Lease;
  rr_error_message : string
}.

Record ExpiryEvent := {
  ee_lease_id : string;
  ee_resource_id : string;
  ee_expired_at : Timestamp;
  ee_reason : ReclaimReason
}.

Section service.
Context `{Chrono} {S : Type} `{LeaseStore S}.
Implicit Types (m : LeaseManager S) (g : Grantor).

Definition grant_rpc g m (env : Env) (resource_id : string) (ttl_seconds : Z)
  : LeaseManager S * result Lease Status :=
  let '(m', res) := grant m env resource_id ttl_seconds in
  (m', map_err internal_status (rmap (record_to_proto g) res)).

Definition renew_rpc g m (env : Env) (lease_id : string) (ttl_seconds : Z)
  : LeaseManager S * result Lease Status :=
  let '(m', res) := renew m env lease_id ttl_seconds in
  (m', map_err renew_status (rmap (record_to_proto g) res)).

(** One item of [RenewAll], and the sequential loop over them. *)
Definition renew_item g m (env : Env) (lease_id : string) (ttl : Z)
  : LeaseManager S * RenewResult :=
  match renew m env lease_id ttl with
  | (m', Ok record) =>
      (m', {| rr_lease_id := lease_id; rr_lease := Some (record_to_proto g record);
              rr_error_message := "" |})
  | (m', Err e) =>
      (m', {| rr_lease_id := lease_id; rr_lease := None;
              rr_error_message := error_to_string e |})
  end.

Fixpoint renew_loop g m (items : list (Env * (string * Z)))
  : LeaseManager S * list RenewResult :=
  match items with
  | [] => (m, [])
  | (env, (id, ttl)) :: rest =>
      let '(m1, r) := renew_item g m env id ttl in
      let '(m2, rs) := renew_loop g m1 rest in
      (m2, r :: rs)
  end.

Definition renew_all_rpc g m (items : list (Env * (string * Z)))
  : LeaseManager S * result (list RenewResult) Status :=
  if (RENEW_ALL_MAX_ITEMS <? length items)%nat then
    (m, Err (mkStatus CInvalidArgument
      ("RenewAll accepts at most " +:+ pretty RENEW_ALL_MAX_ITEMS +:+
       " items per call, got " +:+ pretty (length items) +:+
       " — split into multiple calls")))
  else
    let '(m', rs) := renew_loop g m items in (m', Ok rs).

Definition cancel_rpc m (lease_id : string) : LeaseManager S * result unit Status :=
  let '(m', res) := cancel m lease_id in (m', map_err internal_status res).

(** The [filter_map] of [watch_expiry]: what one broadcast item becomes on the
    stream of a watcher of resource [filter] (empty = every resource). *)
Definition watch_expiry_item (filter : string) (item : Recv LeaseReclaimed)
  : option (result ExpiryEvent Status) :=
  match item with
  | RecvMsg ev =>
      let record := rc_record ev in
      if is_empty filter || String.eqb filter (lr_resource_id record) then
        Some (Ok {| ee_lease_id := lr_lease_id record;
                    ee_resource_id := lr_resource_id record;
                    ee_expired_at := to_timestamp (lr_expires_at record);
                    ee_reason := rc_reason ev |})
      else None
  | RecvLagged _ =>
      Some (Err (mkStatus CDataLoss "watcher lagged; resubscribe and re-snapshot"))
  end.

Definition watch_expiry (filter : string) (items : list (Recv LeaseReclaimed))
  : list (result ExpiryEvent Status) :=
  omap (watch_expiry_item filter) items.
End service.

(** ** Theorems *)
Section theorems.
Context {C : Chrono} {S : Type} {LS : LeaseStore S} {LV : LeaseStoreView S}.
Context {LL : LeaseStoreLaws S}.
Implicit Types (m : LeaseManager S) (g : Grantor).

Abbreviation view m := (ls_view (lm_store m)).

(** Whether a renewal of [id] succeeds, as a function of the lease alone. *)
Definition renewable (c : LeaseConfig) (v : option LeaseRecord) (env : Env) (ttl : Z) : bool :=
  match v with
  | Some r => negb (is_expired (now env) r) && is_ok (expiry_for (now2 env) (negotiate c ttl))
  | None => false
  end.

Lemma renew_frame m env id ttl :
  let '(m', res) := renew m env id ttl in
  is_ok res = renewable (lm_config m) (view m !! id) env ttl ∧
  lm_config m' = lm_config m ∧
  (∀ k, k ≠ id → view m' !! k = view m !! k).
Proof.
  unfold renew. rewrite ls_get_law. unfold renewable.
  destruct (view m !! id) as [r|] eqn:Hr; [|done].
  destruct (is_expired _ r); [done|]. simpl.
  pose proof (ls_renew_law (lm_store m) (now2 env) id (negotiate (lm_config m) ttl)) as Hn.
  rewrite Hr in Hn. destruct (ls_renew _ _ _ _) as [s' res]. simpl.
  destruct (expiry_for _ _); destruct Hn as [? ->]; simplify_eq; simpl.
  - split; [done|]. split; [done|]. intros. by rewrite lookup_insert_ne.
  - done.
Qed.

Lemma renew_loop_frame g m items :
  NoDup (items.*2).*1 →
  let '(m', rs) := renew_loop g m items in
  Forall2 (λ it r, rr_lease_id r = it.2.1 ∧
      (is_Some (rr_lease r) ↔
        renewable (lm_config m) (view m !! it.2.1) it.1 it.2.2 = true)) items rs ∧
  (∀ k, k ∉ (items.*2).*1 → view m' !! k = view m !! k).
Proof.
  revert m. induction items as [|[env [id ttl]] items IH]; intros m Hnd; simpl.
  { split; [constructor|done]. }
  rewrite !fmap_cons, NoDup_cons in Hnd. destruct Hnd as [Hnot Hnd]. cbn in Hnot.
  unfold renew_item. pose proof (renew_frame m env id ttl) as Hf.
  destruct (renew m env id ttl) as [m1 res]. destruct Hf as (Hok & Hcfg & Hframe).
  specialize (IH m1 Hnd).
  assert (Hrest : let '(m', rs) := renew_loop g m1 items in
    Forall2 (λ it r, rr_lease_id r = it.2.1 ∧
      (is_Some (rr_lease r) ↔
        renewable (lm_config m) (view m !! it.2.1) it.1 it.2.2 = true)) items rs ∧
    (∀ k, k ∉ id :: (items.*2).*1 → view m' !! k = view m !! k)).
  { destruct (renew_loop g m1 items) as [m2 rs]. destruct IH as [Hall Hk]. split.
    - apply Forall2_same_length_lookup in Hall as [Hlen Hall].
      apply Forall2_same_length_lookup. split; [done|]. intros j [e [i t]] r Hj Hr.
      destruct (Hall j _ _ Hj Hr) as [Hi Hs]. apply list_elem_of_lookup_2 in Hj. simpl in *.
      rewrite Hcfg in Hs. rewrite Hframe in Hs; [done|]. intros ->. apply Hnot.
      apply list_elem_of_fmap. exists (id, t). split; [done|].
      apply list_elem_of_fmap. by exists (e, (id, t)).
    - intros k [Hne Hk']%not_elem_of_cons. by rewrite Hk, Hframe. }
  destruct res; destruct (renew_loop g m1 items) as [m2 rs]; destruct Hrest as [Hall Hk];
    (split; [constructor; [|done]|done]); simpl; (split; [done|]); simpl in Hok;
    rewrite <- Hok; split; try done; intros [? ?]; done.
Qed.

(** A [RenewAll] batch of at most 1000 distinct leases answers every
    item, in order; each item succeeds exactly when its own lease exists, is not
    expired and can be extended, whatever happens to the other items; leases
    outside the batch keep their state.  A larger batch is refused whole, with
    nothing renewed. *)
Theorem renew_all_isolated g m items :
  NoDup (items.*2).*1 →
  if (length items <=? RENEW_ALL_MAX_ITEMS)%nat then
    ∃ rs, (renew_all_rpc g m items).2 = Ok rs ∧
      Forall2 (λ it r, rr_lease_id r = it.2.1 ∧
        (is_Some (rr_lease r) ↔
          renewable (lm_config m) (view m !! it.2.1) it.1 it.2.2 = true)) items rs ∧
      (∀ k, k ∉ (items.*2).*1 → view (renew_all_rpc g m items).1 !! k = view m !! k)
  else
    ∃ msg, renew_all_rpc g m items = (m, Err (mkStatus CInvalidArgument msg)).
Proof.
  intros Hnd. unfold renew_all_rpc.
  destruct (Nat.leb_spec (length items) RENEW_ALL_MAX_ITEMS) as [Hle|Hgt].
  - rewrite (proj2 (Nat.ltb_ge _ _)) by done.
    pose proof (renew_loop_frame g m items Hnd) as Hl.
    destruct (renew_loop g m items) as [m' rs]. destruct Hl. eauto.
  - rewrite (proj2 (Nat.ltb_lt _ _)) by done. eauto.
Qed.

(** A [WatchExpiry] stream delivers, in order, exactly the reclaims of
    the resource asked for (all of them when none is named), each with its
    reason, and turns a lag of the channel into a [DATA_LOSS] error. *)
Theorem watch_expiry_delivers filter evs :
  watch_expiry filter (RecvMsg <$> evs) =
    (λ ev, Ok {| ee_lease_id := lr_lease_id (rc_record ev);
                 ee_resource_id := lr_resource_id (rc_record ev);
                 ee_expired_at := to_timestamp (lr_expires_at (rc_record ev));
                 ee_reason := rc_reason ev |}) <$>
      List.filter (λ ev, is_empty filter || String.eqb filter (lr_resource_id (rc_record ev)))
        evs ∧
  ∀ n items, ∃ st, watch_expiry filter (RecvLagged n :: items) =
      Err st :: watch_expiry filter items ∧ st_code st = CDataLoss.
Proof.
  split; [|eauto]. unfold watch_expiry. induction evs as [|ev evs IH]; [done|].
  cbn. cbn in IH. destruct (is_empty filter || _); cbn; by rewrite IH.
Qed.
End theorems.

Section samples.
#[local] Existing Instance chrono_sample.
#[local] Existing Instance canonical_iter.

Theorem renew_all_isolated_witness :
  let g := {| grantor_host := "h"; grantor_port := 9002 |} in
  let e := {| now := 10000000000; now2 := 10000000000; uuid := "" |} in
  let items := [(e, ("a", 30%Z)); (e, ("b", 30%Z)); (e, ("zz", 30%Z))] in
  ∃ rs, (renew_all_rpc g sample_manager items).2 = Ok rs ∧
    Forall2 (λ it r, rr_lease_id r = it.2.1 ∧
      (is_Some (rr_lease r) ↔
        renewable LeaseConfig_default (ls_view (lm_store sample_manager) !! it.2.1)
          it.1 it.2.2 = true)) items rs ∧
    (∀ k, k ∉ (items.*2).*1 →
       ls_view (lm_store (renew_all_rpc g sample_manager items).1) !! k =
       ls_view (lm_store sample_manager) !! k).
Proof.
  intros g e items. apply (renew_all_isolated g sample_manager items).
  apply (bool_decide_unpack _). vm_compute. exact I.
Defined.
End samples.
