(* ===== verification/Matcher.v ===== *)
(** * Template matching ([coordin8-registry/src/matcher.rs])

    The associative lookup every service shares: Registry lookups, Space reads
    and takes, EventMgr subscriptions. *)

From S2P Require Import Prelude.

Abbreviation attrs_map := (gmap string string).

Inductive MatchOp :=
| Eq (expected : string)
| Contains (sub : string)
| StartsWith (prefix : string)
| Any.

#[global] Instance MatchOp_eq_dec : EqDecision MatchOp.
Proof. solve_decision. Defined.

(** [MatchOp::matches]. *)
Definition op_matches (op : MatchOp) (value : string) : bool :=
  match op with
  | Eq expected => String.eqb value expected
  | Contains sub => contains sub value
  | StartsWith prefix => starts_with prefix value
  | Any => true
  end.

(** The operator a template value denotes. *)
Definition parse_op (v : string) : MatchOp :=
  if is_empty v || String.eqb v "*" then Any
  else match strip_prefix "contains:" v with
       | Some rest => Contains rest
       | None =>
           match strip_prefix "starts_with:" v with
           | Some rest => StartsWith rest
           | None => Eq v
           end
       end.

Definition parse_template (template : attrs_map) : gmap string MatchOp :=
  parse_op <$> template.

Definition is_any (op : MatchOp) : bool :=
  match op with Any => true | _ => false end.

Section matches.
Context {I : MapIter}.

Definition matches (template : gmap string MatchOp) (attrs : attrs_map) : bool :=
  forallb (λ '(key, op),
    match attrs !! key with
    | Some val => op_matches op val
    | None => is_any op
    end) (miter template).

(** [HashMap::is_empty]. *)
Definition ops_is_empty (template : gmap string MatchOp) : bool :=
  bool_decide (template = ∅).

(** ** Theorems *)

Lemma matches_true t a :
  matches t a = true ↔
    ∀ k op, t !! k = Some op →
      match a !! k with Some v => op_matches op v = true | None => op = Any end.
Proof.
  unfold matches. rewrite forallb_forall. split.
  - intros Hall k op Hk.
    assert (Hin : List.In (k, op) (miter t)) by (by rewrite <- list_elem_of_In, elem_of_miter).
    specialize (Hall _ Hin). simpl in Hall. destruct (a !! k); [done|]. by destruct op.
  - intros Hall [k op] Hin. rewrite <- list_elem_of_In, elem_of_miter in Hin.
    specialize (Hall _ _ Hin). destruct (a !! k); [done|]. by subst.
Qed.

Lemma matches_empty a : matches ∅ a = true.
Proof. apply matches_true. intros k op. by rewrite lookup_empty. Qed.

(** What a template value requires of the field, stated on the texts. *)
Definition field_spec (pat : string) (field : option string) : Prop :=
  if decide (pat = "" ∨ pat = "*") then True
  else
    (∃ sub, pat = "contains:" +:+ sub ∧ ∃ a b, field = Some (a +:+ sub +:+ b)) ∨
    (∃ pre, pat = "starts_with:" +:+ pre ∧ ∃ r, field = Some (pre +:+ r)) ∨
    ((∀ x, pat ≠ "contains:" +:+ x) ∧ (∀ x, pat ≠ "starts_with:" +:+ x) ∧
     field = Some pat).

Lemma no_prefix p s : strip_prefix p s = None → ∀ x, s ≠ p +:+ x.
Proof. intros Hn x Hx. apply strip_prefix_Some in Hx. congruence. Qed.

Lemma prefix_disjoint x y : "contains:" +:+ x ≠ "starts_with:" +:+ y.
Proof. discriminate. Qed.

Lemma parse_op_spec pat field :
  match field with
  | Some v => op_matches (parse_op pat) v = true
  | None => parse_op pat = Any
  end ↔ field_spec pat field.
Proof.
  unfold field_spec, parse_op. case_decide as Hd.
  { assert (is_empty pat || String.eqb pat "*" = true) as ->.
    { rewrite orb_true_iff, is_empty_true, String.eqb_eq. done. }
    by destruct field. }
  assert (is_empty pat || String.eqb pat "*" = false) as ->.
  { rewrite orb_false_iff, String.eqb_neq, <- not_true_iff_false, is_empty_true. tauto. }
  destruct (strip_prefix "contains:" pat) as [sub|] eqn:Hc.
  { apply strip_prefix_Some in Hc as ->. destruct field as [v|]; simpl.
    - rewrite contains_true. split.
      + intros (a & b & ->). left. eauto.
      + intros [(s & Hs & a & b & [= ->])|[(s & Hs & _)|(Hn & _)]].
        * apply (inj _) in Hs as ->. eauto.
        * by apply prefix_disjoint in Hs.
        * by destruct (Hn sub).
    - split; [done|]. intros [(s & Hs & a & b & [=])|[(s & Hs & r & [=])|(_ & _ & [=])]]. }
  pose proof (no_prefix _ _ Hc) as Hnc.
  destruct (strip_prefix "starts_with:" pat) as [pre|] eqn:Hs.
  { apply strip_prefix_Some in Hs as ->. destruct field as [v|]; simpl.
    - rewrite starts_with_true. split.
      + intros (r & ->). right; left. eauto.
      + intros [(s & Hs & _)|[(s & Hs & r & [= ->])|(_ & Hn & _)]].
        * by destruct (Hnc s).
        * apply (inj _) in Hs as ->. eauto.
        * by destruct (Hn pre).
    - split; [done|]. intros [(s & Hs & a & b & [=])|[(s & Hs & r & [=])|(_ & _ & [=])]]. }
  pose proof (no_prefix _ _ Hs) as Hns. destruct field as [v|]; simpl.
  - rewrite String.eqb_eq. split; [intros ->; eauto|].
    intros [(s & Hx & _)|[(s & Hx & _)|(_ & _ & [= ->])]]; [|..|done].
    + by destruct (Hnc s).
    + by destruct (Hns s).
  - split; [done|]. intros [(s & Hx & a & b & [=])|[(s & Hx & r & [=])|(_ & _ & [=])]].
Qed.

(** C34: A parsed template matches a set of attributes exactly when every
    field it names satisfies the operator written in it: empty and [*] accept
    anything, also an absent field; [contains:] and [starts_with:] require a
    present value holding the text; any other pattern requires that very value. *)
Theorem template_semantics tmpl attrs :
  matches (parse_template tmpl) attrs = true ↔
    ∀ k pat, tmpl !! k = Some pat → field_spec pat (attrs !! k).
Proof.
  rewrite matches_true. unfold parse_template. split.
  - intros Hall k pat Hk. apply parse_op_spec, (Hall k).
    by rewrite lookup_fmap, Hk.
  - intros Hall k op Hk. rewrite lookup_fmap in Hk.
    destruct (tmpl !! k) as [pat|] eqn:Hp; [|done]. injection Hk as <-.
    apply parse_op_spec. eauto.
Qed.

(** Matching is monotone: dropping template fields or adding attributes
    never turns a match into a non-match. *)
Theorem matches_monotone (t t' : gmap string MatchOp) (a a' : attrs_map) :
  t' ⊆ t → a ⊆ a' → matches t a = true → matches t' a' = true.
Proof.
  rewrite !matches_true. intros Ht Ha Hm k op Hk.
  specialize (Hm k op (lookup_weaken _ _ _ _ Hk Ht)).
  destruct (a !! k) as [v|] eqn:Hv.
  - by rewrite (lookup_weaken _ _ _ _ Hv Ha).
  - subst op. by destruct (a' !! k).
Qed.
End matches.

Theorem matches_monotone_witness :
  @matches canonical_iter (parse_template {["region" := "contains:east"]})
    {["region" := "tampa-east"; "interface" := "Weather"]} = true.
Proof.
  apply (@matches_monotone canonical_iter
           (parse_template {["region" := "contains:east"; "x" := "*"]}) _
           {["region" := "tampa-east"]} _).
  - apply map_subseteq_spec. intros k op. unfold parse_template.
    rewrite !lookup_fmap, !fmap_Some. setoid_rewrite lookup_singleton_Some.
    intros (pat & [<- <-] & ->). exists "contains:east". split; reflexivity.
  - apply map_singleton_subseteq_l. reflexivity.
  - reflexivity.
Defined.
