(* ===== verification/RegistryStore.v ===== *)
(** * Registry entries and the in-memory registry store
    ([coordin8-core/src/registry.rs], [providers/local/src/registry_store.rs])

    The store keeps the entries by capability id and an index from lease id to
    capability id; the index is what makes reclaiming an expired entry a lookup.
    The invariant is that the two maps describe the same set of entries. *)

From S2P Require Import Prelude CoreTypes Matcher.

Record TransportConfig := {
  tc_type : string;
  tc_config : gmap string string
}.

#[global] Instance TransportConfig_eq_dec : EqDecision TransportConfig.
Proof. solve_decision. Defined.

Record RegistryEntry := mkEntry {
  re_capability_id : string;
  re_lease_id : string;
  re_interface : string;
  re_attrs : attrs_map;
  re_transport : option TransportConfig
}.

#[global] Instance RegistryEntry_eq_dec : EqDecision RegistryEntry.
Proof. solve_decision. Defined.

(** ** The [RegistryStore] trait *)
Class RegistryStore (S : Type) := {
  rg_insert : S → RegistryEntry → S * result unit Error;
  rg_update : S → RegistryEntry → S * result (option RegistryEntry) Error;
  rg_remove_by_lease : S → string → S * result (option RegistryEntry) Error;
  rg_get : S → string → result (option RegistryEntry) Error;
  rg_get_by_lease : S → string → result (option RegistryEntry) Error;
  rg_list_all : S → result (list RegistryEntry) Error
}.

Abbreviation entry_map := (gmap string RegistryEntry).

(** No two entries hold the same lease, and entries are stored under their id. *)
Definition entries_wf (m : entry_map) : Prop :=
  (∀ cap e, m !! cap = Some e → re_capability_id e = cap) ∧
  (∀ c1 c2 e1 e2, m !! c1 = Some e1 → m !! c2 = Some e2 →
     re_lease_id e1 = re_lease_id e2 → c1 = c2).

Definition lease_unused (m : entry_map) (lease : string) : Prop :=
  ∀ cap e, m !! cap = Some e → re_lease_id e ≠ lease.

(** The entries a store holds, and its internal consistency. *)
Class RegistryStoreView (S : Type) := {
  rg_entries : S → entry_map;
  rg_inv : S → Prop
}.

Class RegistryStoreLaws (S : Type) `{RegistryStore S, RegistryStoreView S} : Prop := {
  rg_inv_wf : ∀ s, rg_inv s → entries_wf (rg_entries s);
  rg_insert_law : ∀ s e,
    rg_inv s → rg_entries s !! re_capability_id e = None →
    lease_unused (rg_entries s) (re_lease_id e) →
    let '(s', res) := rg_insert s e in
    res = Ok () ∧ rg_inv s' ∧ rg_entries s' = <[re_capability_id e := e]> (rg_entries s);
  rg_update_law : ∀ s e,
    rg_inv s →
    lease_unused (delete (re_capability_id e) (rg_entries s)) (re_lease_id e) →
    let '(s', res) := rg_update s e in
    rg_inv s' ∧
    match rg_entries s !! re_capability_id e with
    | Some _ => res = Ok (Some e) ∧ rg_entries s' = <[re_capability_id e := e]> (rg_entries s)
    | None => res = Ok None ∧ rg_entries s' = rg_entries s
    end;
  rg_remove_by_lease_law : ∀ s lease,
    rg_inv s →
    let '(s', res) := rg_remove_by_lease s lease in
    rg_inv s' ∧
    ((∃ cap e, rg_entries s !! cap = Some e ∧ re_lease_id e = lease ∧
        res = Ok (Some e) ∧ rg_entries s' = delete cap (rg_entries s)) ∨
     (lease_unused (rg_entries s) lease ∧ res = Ok None ∧ rg_entries s' = rg_entries s));
  rg_get_law : ∀ s cap, rg_get s cap = Ok (rg_entries s !! cap);
  rg_get_by_lease_law : ∀ s lease,
    rg_inv s →
    (∃ cap e, rg_entries s !! cap = Some e ∧ re_lease_id e = lease ∧
       rg_get_by_lease s lease = Ok (Some e)) ∨
    (lease_unused (rg_entries s) lease ∧ rg_get_by_lease s lease = Ok None);
  rg_list_all_law : ∀ s,
    ∃ l, rg_list_all s = Ok l ∧ l ≡ₚ (map_to_list (rg_entries s)).*2
}.

(** ** [InMemoryRegistryStore] *)
Record InMemoryRegistryStore := {
  entries : gmap string RegistryEntry;
  lease_index : gmap string string
}.

Definition new : InMemoryRegistryStore := {| entries := ∅; lease_index := ∅ |}.

Section ops.
Context {I : MapIter}.

Definition insert (s : InMemoryRegistryStore) (entry : RegistryEntry)
  : InMemoryRegistryStore * result unit Error :=
  ({| lease_index := <[re_lease_id entry := re_capability_id entry]> (lease_index s);
      entries := <[re_capability_id entry := entry]> (entries s) |}, Ok ()).

Definition update (s : InMemoryRegistryStore) (entry : RegistryEntry)
  : InMemoryRegistryStore * result (option RegistryEntry) Error :=
  match entries s !! re_capability_id entry with
  | Some _ =>
      let index' := filter (λ kv, kv.2 ≠ re_capability_id entry) (lease_index s) in
      ({| lease_index := <[re_lease_id entry := re_capability_id entry]> index';
          entries := <[re_capability_id entry := entry]> (entries s) |}, Ok (Some entry))
  | None => (s, Ok None)
  end.

Definition remove_by_lease (s : InMemoryRegistryStore) (lease_id : string)
  : InMemoryRegistryStore * result (option RegistryEntry) Error :=
  match lease_index s !! lease_id with
  | Some capability_id =>
      ({| lease_index := delete lease_id (lease_index s);
          entries := delete capability_id (entries s) |},
       Ok (entries s !! capability_id))
  | None => (s, Ok None)
  end.

Definition get (s : InMemoryRegistryStore) (capability_id : string)
  : result (option RegistryEntry) Error :=
  Ok (entries s !! capability_id).

Definition get_by_lease (s : InMemoryRegistryStore) (lease_id : string)
  : result (option RegistryEntry) Error :=
  match lease_index s !! lease_id with
  | Some capability_id => get s capability_id
  | None => Ok None
  end.

Definition list_all (s : InMemoryRegistryStore) : result (list RegistryEntry) Error :=
  Ok (map_values (entries s)).

#[global] Instance InMemoryRegistryStore_store : RegistryStore InMemoryRegistryStore := {|
  rg_insert := insert;
  rg_update := update;
  rg_remove_by_lease := remove_by_lease;
  rg_get := get;
  rg_get_by_lease := get_by_lease;
  rg_list_all := list_all
|}.

(** Every entry is indexed by its lease, and every index entry names an entry
    holding that lease. *)
Record store_inv (s : InMemoryRegistryStore) : Prop := {
  si_key : ∀ cap e, entries s !! cap = Some e → re_capability_id e = cap;
  si_indexed : ∀ cap e, entries s !! cap = Some e → lease_index s !! re_lease_id e = Some cap;
  si_index : ∀ l cap, lease_index s !! l = Some cap →
    ∃ e, entries s !! cap = Some e ∧ re_lease_id e = l
}.

#[global] Instance InMemoryRegistryStore_view : RegistryStoreView InMemoryRegistryStore :=
  {| rg_entries := entries; rg_inv := store_inv |}.

Lemma store_inv_new : store_inv new.
Proof. split; simpl; intros *; by rewrite lookup_empty. Qed.

Lemma store_inv_put s e (index' : gmap string string) :
  store_inv s →
  lease_unused (delete (re_capability_id e) (entries s)) (re_lease_id e) →
  (∀ l, index' !! l =
     match lease_index s !! l with
     | Some c => if decide (c = re_capability_id e) then None else Some c
     | None => None
     end) →
  store_inv {| entries := <[re_capability_id e := e]> (entries s);
               lease_index := <[re_lease_id e := re_capability_id e]> index' |}.
Proof.
  intros [Hk Hi Hx] Hun Hidx.
  assert (Hne : ∀ cap e', entries s !! cap = Some e' → cap ≠ re_capability_id e →
    re_lease_id e' ≠ re_lease_id e).
  { intros cap e' He' Hc. apply (Hun cap). by rewrite lookup_delete_ne. }
  split; simpl.
  - intros cap e'. rewrite lookup_insert_Some. naive_solver.
  - intros cap e'. rewrite lookup_insert_Some. intros [[<- <-]|[Hc He']].
    + by rewrite lookup_insert_eq.
    + rewrite lookup_insert_ne by (intros Heq; by apply (Hne cap e')).
      rewrite Hidx, (Hi _ _ He'). by rewrite decide_False.
  - intros l cap. rewrite lookup_insert_Some. intros [[<- <-]|[Hl Hcap]].
    + exists e. by rewrite lookup_insert_eq.
    + rewrite Hidx in Hcap. destruct (lease_index s !! l) as [c|] eqn:Hc; [|done].
      case_decide; [done|]. injection Hcap as ->.
      destruct (Hx _ _ Hc) as (e' & He' & Hl'). exists e'.
      by rewrite lookup_insert_ne by congruence.
Qed.

Lemma remove_by_lease_spec s lease :
  store_inv s →
  let '(s', res) := remove_by_lease s lease in
  store_inv s' ∧
  ((∃ cap e, entries s !! cap = Some e ∧ re_lease_id e = lease ∧
      res = Ok (Some e) ∧ entries s' = delete cap (entries s)) ∨
   (lease_unused (entries s) lease ∧ res = Ok None ∧ entries s' = entries s)).
Proof.
  intros Hinv. unfold remove_by_lease. destruct (lease_index s !! lease) as [cap|] eqn:Hl.
  - destruct Hinv as [Hk Hi Hx]. destruct (Hx _ _ Hl) as (e & He & <-).
    split; [|left; exists cap, e; by rewrite He]. split; simpl.
    + intros c e'. rewrite lookup_delete_Some. naive_solver.
    + intros c e'. rewrite !lookup_delete_Some. intros [Hc He']. split; [|by apply Hi].
      intros Heq. apply Hi in He'. rewrite <- Heq in He'. congruence.
    + intros l c. rewrite !lookup_delete_Some. intros [Hne Hc].
      destruct (Hx _ _ Hc) as (e' & He' & <-). exists e'.
      rewrite lookup_delete_ne; [done|]. intros ->. by simplify_eq.
  - split; [done|]. right. split; [|done]. intros c e He Heq.
    apply (si_indexed _ Hinv) in He. congruence.
Qed.

#[global] Instance InMemoryRegistryStore_laws : RegistryStoreLaws InMemoryRegistryStore.
Proof.
  split; simpl.
  - intros s [Hk Hi Hx]. split; [done|]. intros c1 c2 e1 e2 H1 H2 Heq.
    apply Hi in H1, H2. congruence.
  - intros s e Hinv Hnone Hun. split; [done|]. split; [|done].
    apply store_inv_put; [done|by rewrite delete_id|].
    intros l. destruct (lease_index s !! l) as [c|] eqn:Hc; [|done].
    rewrite decide_False; [done|]. intros ->.
    destruct Hinv as [_ _ Hx]. destruct (Hx _ _ Hc) as (? & ? & _). congruence.
  - intros s e Hinv Hun. unfold update.
    destruct (entries s !! re_capability_id e) eqn:He; [|done].
    split; [|done]. apply store_inv_put; [done..|]. intros l.
    destruct (lease_index s !! l) as [c|] eqn:Hc.
    + case_decide as Hd; [|by apply map_lookup_filter_Some].
      apply map_lookup_filter_None. right. naive_solver.
    + apply map_lookup_filter_None. by left.
  - apply remove_by_lease_spec.
  - done.
  - intros s lease [Hk Hi Hx]. unfold get_by_lease.
    destruct (lease_index s !! lease) as [cap|] eqn:Hl.
    + left. destruct (Hx _ _ Hl) as (e & He & Hle). exists cap, e.
      unfold get. by rewrite He.
    + right. split; [|done]. intros c e He Heq. apply Hi in He. congruence.
  - intros s. eexists; split; [done|]. apply map_values_perm.
Qed.
End ops.

(** The in-memory registry store implements the [RegistryStore]
    contract: its lease index and its entries stay consistent under every
    operation, an insert or update is visible by id and by lease, and removal by
    lease removes exactly the entry holding that lease, whatever the iteration
    order. *)
Theorem in_memory_registry_store_refines {I : MapIter} :
  RegistryStoreLaws InMemoryRegistryStore ∧ rg_inv new ∧ rg_entries new = ∅.
Proof.
  split; [exact InMemoryRegistryStore_laws|]. split; [exact store_inv_new|done].
Qed.
