(* ===== verification/RegistryIndex.v ===== *)
(** * The registry index ([coordin8-registry/src/store.rs]) and the in-process
    capability resolver ([coordin8-proxy/src/local_resolver.rs])

    Business logic over a registry store: lookups match a template against the
    attributes of an entry with its interface added under the key
    ["interface"]. *)

From S2P Require Import Prelude CoreTypes Matcher RegistryStore.

Section index.
Context {I : MapIter} {S : Type} `{RegistryStore S}.

Definition register (s : S) (entry : RegistryEntry) : S * result unit Error :=
  rg_insert s entry.

Definition update (s : S) (entry : RegistryEntry)
  : S * result (option RegistryEntry) Error :=
  rg_update s entry.

Definition get (s : S) (capability_id : string) : result (option RegistryEntry) Error :=
  rg_get s capability_id.

Definition get_by_lease (s : S) (lease_id : string) : result (option RegistryEntry) Error :=
  rg_get_by_lease s lease_id.

Definition unregister_by_lease (s : S) (lease_id : string)
  : S * result (option RegistryEntry) Error :=
  rg_remove_by_lease s lease_id.

(** The attributes an entry is matched on. *)
Definition combined_attrs (e : RegistryEntry) : attrs_map :=
  <["interface" := re_interface e]> (re_attrs e).

Definition lookup (s : S) (template : attrs_map) : result (option RegistryEntry) Error :=
  let ops := parse_template template in
  match rg_list_all s with
  | Err e => Err e
  | Ok all => Ok (List.find (λ e, matches ops (combined_attrs e)) all)
  end.

Definition lookup_all (s : S) (template : attrs_map) : result (list RegistryEntry) Error :=
  let ops := parse_template template in
  match rg_list_all s with
  | Err e => Err e
  | Ok all => Ok (List.filter (λ e, matches ops (combined_attrs e)) all)
  end.

(** [LocalCapabilityResolver::resolve]. *)
Definition resolve (s : S) (template : attrs_map) : result (option RegistryEntry) Error :=
  let ops := parse_template template in
  match rg_list_all s with
  | Err e => Err e
  | Ok entries =>
      Ok (List.find (λ e,
        let all_attrs := <["interface" := re_interface e]> (re_attrs e) in
        matches ops all_attrs) entries)
  end.
End index.

(** ** Theorems *)
Section theorems.
Context {I : MapIter} {S : Type} {RS : RegistryStore S} {RV : RegistryStoreView S}.
Context {RL : RegistryStoreLaws S}.

(** An entry satisfies a template: stated on the texts, see [field_spec]. *)
Definition entry_matches (template : attrs_map) (e : RegistryEntry) : Prop :=
  ∀ k pat, template !! k = Some pat → field_spec pat (combined_attrs e !! k).

Lemma entry_matches_true template e :
  matches (parse_template template) (combined_attrs e) = true ↔ entry_matches template e.
Proof.
  unfold entry_matches. rewrite matches_true. unfold parse_template. split.
  - intros Hall k pat Hk. apply parse_op_spec, (Hall k). by rewrite lookup_fmap, Hk.
  - intros Hall k op Hk. rewrite lookup_fmap in Hk.
    destruct (template !! k) as [pat|] eqn:Hp; [|done]. injection Hk as <-.
    apply parse_op_spec. eauto.
Qed.

Lemma list_all_elem s l :
  rg_list_all s = Ok l → ∀ e, e ∈ l ↔ ∃ cap, rg_entries s !! cap = Some e.
Proof.
  intros Hl e. destruct (rg_list_all_law s) as (l' & Hl' & Hp).
  assert (l = l') as -> by congruence. rewrite Hp, list_elem_of_fmap. split.
  - intros ([k v] & -> & Hin). exists k. by apply elem_of_map_to_list.
  - intros (k & Hk). exists (k, e). by rewrite elem_of_map_to_list.
Qed.

Lemma find_entry_spec s template :
  ∃ o, lookup s template = Ok o ∧
    match o with
    | Some e => (∃ cap, rg_entries s !! cap = Some e) ∧ entry_matches template e
    | None => ∀ cap e, rg_entries s !! cap = Some e → ¬ entry_matches template e
    end.
Proof.
  unfold lookup. destruct (rg_list_all s) as [l|] eqn:Hl;
    [|destruct (rg_list_all_law s) as (? & ? & _); congruence].
  eexists; split; [done|]. destruct (List.find _ l) as [e|] eqn:Hf.
  - apply List.find_some in Hf as [Hin Hm].
    rewrite <- list_elem_of_In, (list_all_elem _ _ Hl) in Hin.
    by rewrite entry_matches_true in Hm.
  - intros cap e He Hm. apply entry_matches_true in Hm.
    assert (Hin : List.In e l)
      by (apply list_elem_of_In, (list_all_elem _ _ Hl); eauto).
    pose proof (List.find_none _ _ Hf e Hin). simpl in *. congruence.
Qed.

(** [lookup] never fails, returns a registered entry that satisfies
    the template when there is one, and returns nothing only when no registered
    entry satisfies it; [lookup_all] returns every such entry exactly once. *)
Theorem lookup_sound_complete s template :
  (∃ o, lookup s template = Ok o ∧
    match o with
    | Some e => (∃ cap, rg_entries s !! cap = Some e) ∧ entry_matches template e
    | None => ∀ cap e, rg_entries s !! cap = Some e → ¬ entry_matches template e
    end) ∧
  (∃ l, lookup_all s template = Ok l ∧
    (∀ e, e ∈ l ↔ (∃ cap, rg_entries s !! cap = Some e) ∧ entry_matches template e) ∧
    (entries_wf (rg_entries s) → NoDup l)).
Proof.
  split; [apply find_entry_spec|]. unfold lookup_all.
  destruct (rg_list_all_law s) as (l & Hl & Hp). rewrite Hl.
  eexists; split; [done|]. split.
  - intros e. by rewrite filter_bool_elem, (list_all_elem _ _ Hl), entry_matches_true.
  - intros [Hkey _].
    assert (Hnd : NoDup l).
    { rewrite Hp. apply (NoDup_fmap_1 re_capability_id).
      rewrite <- list_fmap_compose.
      rewrite (list_fmap_ext _ fst); [apply NoDup_fst_map_to_list|].
      intros i [k e] Hi. simpl. apply Hkey, elem_of_map_to_list.
      by eapply list_elem_of_lookup_2. }
    rewrite NoDup_ListNoDup in *. by apply List.NoDup_filter.
Qed.

(** The proxy's in-process resolver answers as the Registry's own lookup. *)
Lemma resolve_lookup s template : resolve s template = lookup s template.
Proof. done. Qed.
End theorems.

(** ** A concrete registry *)
Section samples.
#[local] Existing Instance canonical_iter.

Definition greeter : RegistryEntry := mkEntry "c1" "l1" "Greeter" {["zone" := "a"]} None.

Theorem lookup_sound_complete_witness :
  ∃ l, lookup_all (RegistryStore.insert RegistryStore.new greeter).1 {["interface" := "Greeter"]} = Ok l ∧
    ∀ e, e ∈ l ↔ (∃ cap, rg_entries (RegistryStore.insert RegistryStore.new greeter).1 !! cap = Some e) ∧
      entry_matches {["interface" := "Greeter"]} e.
Proof.
  destruct (lookup_sound_complete (RegistryStore.insert RegistryStore.new greeter).1
    {["interface" := "Greeter"]}) as [_ (l & Hl & Hin & _)].
  exists l. split; [exact Hl|exact Hin].
Defined.
End samples.
