(* ===== verification/RegistryService.v ===== *)
(** * The [RegistryService] handlers ([coordin8-registry/src/service.rs])
    and the reclaim of registry entries ([coordin8-djinn/src/services.rs])

    The service is generic in its store and in its lease grantor, as the source
    is; the change broadcast is the list of events sent on it.  [reclaim_entry]
    is the handler the lease cascade and the orphan sweep both run.  Each handler
    is a function here, one step of the histories below; [RegistryRace] suspends
    it at its awaits and interleaves it with the others. *)

From S2P Require Import Prelude CoreTypes LeaseCore LeaseStore LeaseManager LeaseService Matcher RegistryStore RegistryIndex.

Record RegistryChangedEvent := { ev_type : Z; ev_entry : RegistryEntry }.

(** Protobuf shapes. *)
Record TransportDescriptor := { td_type : string; td_config : gmap string string }.

Record Capability := {
  cp_capability_id : string;
  cp_interface : string;
  cp_attrs : attrs_map;
  cp_transport : option TransportDescriptor
}.

Record RegisterRequest := {
  rq_interface : string;
  rq_attrs : attrs_map;
  rq_ttl_seconds : Z;
  rq_transport : option TransportDescriptor;
  rq_capability_id : string;
  rq_lease_id : string
}.

Record ModifyAttrsRequest := {
  mq_capability_id : string;
  mq_add_attrs : attrs_map;
  mq_remove_attrs : list string;
  mq_lease_id : string
}.

Record RegisterResponse := { rp_capability_id : string; rp_lease : Lease }.

Record RegistryEvent := { pe_type : Z; pe_capability : Capability }.

Definition entry_to_capability (e : RegistryEntry) : Capability := {|
  cp_capability_id := re_capability_id e;
  cp_interface := re_interface e;
  cp_attrs := re_attrs e;
  cp_transport :=
    (λ t, {| td_type := tc_type t; td_config := tc_config t |}) <$> re_transport e
|}.

Definition transport_config (t : TransportDescriptor) : TransportConfig :=
  {| tc_type := td_type t; tc_config := td_config t |}.

Definition check_owner (existing : RegistryEntry) (presented : string)
  : result unit Status :=
  if is_empty presented || negb (String.eqb presented (re_lease_id existing)) then
    Err (mkStatus CPermissionDenied "lease_id does not match the entry's current lease")
  else Ok ().

Definition transport_eq (a b : option TransportConfig) : bool :=
  match a, b with
  | None, None => true
  | Some a, Some b =>
      String.eqb (tc_type a) (tc_type b) && bool_decide (tc_config a = tc_config b)
  | _, _ => false
  end.

Record RegistryService (S L : Type) := {
  rv_store : S;
  rv_leases : L;
  rv_event_tx : list RegistryChangedEvent;
  rv_grantor : Grantor
}.
Arguments rv_store {S L} _.
Arguments rv_leases {S L} _.
Arguments rv_event_tx {S L} _.
Arguments rv_grantor {S L} _.

Section service.
Context `{Chrono} {I : MapIter} {S L : Type} `{RegistryStore S} `{Leasing L}.
Implicit Types (v : RegistryService S L).

Definition with_store v (s : S) : RegistryService S L :=
  {| rv_store := s; rv_leases := rv_leases v; rv_event_tx := rv_event_tx v;
     rv_grantor := rv_grantor v |}.
Definition with_leases v (l : L) : RegistryService S L :=
  {| rv_store := rv_store v; rv_leases := l; rv_event_tx := rv_event_tx v;
     rv_grantor := rv_grantor v |}.
Definition send_event v (ty : Z) (e : RegistryEntry) : RegistryService S L :=
  {| rv_store := rv_store v; rv_leases := rv_leases v;
     rv_event_tx := rv_event_tx v ++ [{| ev_type := ty; ev_entry := e |}];
     rv_grantor := rv_grantor v |}.

Definition capability_not_found (cap : string) : Status :=
  mkStatus CNotFound ("capability not found: " +:+ cap).

(** The re-registration branch of [register]. *)
Definition reregister v (env : Env) (r : RegisterRequest)
  : RegistryService S L * result RegisterResponse Status :=
  match get (rv_store v) (rq_capability_id r) with
  | Err e => (v, Err (internal_status e))
  | Ok None => (v, Err (capability_not_found (rq_capability_id r)))
  | Ok (Some existing) =>
      match check_owner existing (rq_lease_id r) with
      | Err st => (v, Err st)
      | Ok _ =>
          let '(l', renewed) :=
            lg_renew (rv_leases v) env (re_lease_id existing) (rq_ttl_seconds r) in
          let v1 := with_leases v l' in
          match renewed with
          | Err e => (v1, Err (mkStatus CFailedPrecondition (error_to_string e)))
          | Ok lease =>
              let entry := {|
                re_capability_id := rq_capability_id r;
                re_lease_id := re_lease_id existing;
                re_interface := rq_interface r;
                re_attrs := rq_attrs r;
                re_transport := transport_config <$> rq_transport r |} in
              let changed :=
                negb (String.eqb (re_interface existing) (re_interface entry))
                || negb (bool_decide (re_attrs existing = re_attrs entry))
                || negb (transport_eq (re_transport existing) (re_transport entry)) in
              let response := {| rp_capability_id := rq_capability_id r;
                                 rp_lease := record_to_proto (rv_grantor v) lease |} in
              if changed then
                let '(s', upd) := update (rv_store v1) entry in
                let v2 := with_store v1 s' in
                match upd with
                | Err e => (v2, Err (internal_status e))
                | Ok _ => (send_event v2 2 entry, Ok response)
                end
              else (v1, Ok response)
          end
      end
  end.

(** The new-registration branch; [cap] is the generated capability id. *)
Definition register_new v (cap : string) (env : Env) (r : RegisterRequest)
  : RegistryService S L * result RegisterResponse Status :=
  let '(l', granted) :=
    lg_grant (rv_leases v) env ("registry:" +:+ cap) (rq_ttl_seconds r) in
  let v1 := with_leases v l' in
  match granted with
  | Err e => (v1, Err (internal_status e))
  | Ok lease =>
      let entry := {|
        re_capability_id := cap;
        re_lease_id := lr_lease_id lease;
        re_interface := rq_interface r;
        re_attrs := rq_attrs r;
        re_transport := transport_config <$> rq_transport r |} in
      let '(s', ins) := register (rv_store v1) entry in
      let v2 := with_store v1 s' in
      match ins with
      | Err e => (v2, Err (internal_status e))
      | Ok _ =>
          (send_event v2 0 entry,
           Ok {| rp_capability_id := cap; rp_lease := record_to_proto (rv_grantor v) lease |})
      end
  end.

Definition register_rpc v (cap : string) (env : Env) (r : RegisterRequest)
  : RegistryService S L * result RegisterResponse Status :=
  if negb (is_empty (rq_capability_id r)) then reregister v env r
  else register_new v cap env r.

(** Removes first, then adds. *)
Definition modified_attrs (attrs : attrs_map) (r : ModifyAttrsRequest) : attrs_map :=
  foldl (λ m kv, <[kv.1 := kv.2]> m)
    (foldl (λ m k, delete k m) attrs (mq_remove_attrs r))
    (miter (mq_add_attrs r)).

Definition modify_attrs v (r : ModifyAttrsRequest)
  : RegistryService S L * result Capability Status :=
  match get (rv_store v) (mq_capability_id r) with
  | Err e => (v, Err (internal_status e))
  | Ok None => (v, Err (capability_not_found (mq_capability_id r)))
  | Ok (Some existing) =>
      match check_owner existing (mq_lease_id r) with
      | Err st => (v, Err st)
      | Ok _ =>
          let entry := {|
            re_capability_id := re_capability_id existing;
            re_lease_id := re_lease_id existing;
            re_interface := re_interface existing;
            re_attrs := modified_attrs (re_attrs existing) r;
            re_transport := re_transport existing |} in
          let '(s', upd) := update (rv_store v) entry in
          let v1 := with_store v s' in
          match upd with
          | Err e => (v1, Err (internal_status e))
          | Ok _ => (send_event v1 2 entry, Ok (entry_to_capability entry))
          end
      end
  end.

Definition lookup_rpc v (template : attrs_map) : result Capability Status :=
  match lookup (rv_store v) template with
  | Err e => Err (internal_status e)
  | Ok (Some entry) => Ok (entry_to_capability entry)
  | Ok None => Err (mkStatus CNotFound "no matching capability")
  end.

Definition lookup_all_rpc v (template : attrs_map) : result (list Capability) Status :=
  match lookup_all (rv_store v) template with
  | Err e => Err (internal_status e)
  | Ok es => Ok (entry_to_capability <$> es)
  end.

(** The [filter_map] of [watch]. *)
Definition watch_item (template : attrs_map) (item : Recv RegistryChangedEvent)
  : option (result RegistryEvent Status) :=
  match item with
  | RecvMsg evt =>
      let combined := <["interface" := re_interface (ev_entry evt)]> (re_attrs (ev_entry evt)) in
      if matches (parse_template template) combined then
        Some (Ok {| pe_type := ev_type evt;
                    pe_capability := entry_to_capability (ev_entry evt) |})
      else None
  | RecvLagged _ =>
      Some (Err (mkStatus CDataLoss "watcher lagged; resubscribe and re-snapshot"))
  end.

(** Reclaim of the entry behind a lease: the cascade's and the sweep's handler. *)
Definition reclaim_entry v (lease_id : string) : RegistryService S L :=
  match unregister_by_lease (rv_store v) lease_id with
  | (s', Ok (Some entry)) => send_event (with_store v s') 1 entry
  | (s', _) => with_store v s'
  end.
End service.

(** ** Theorems *)
Section theorems.
Context {C : Chrono} {I : MapIter} {S L : Type}.
Context {RS : RegistryStore S} {RV : RegistryStoreView S} {RL : RegistryStoreLaws S}.
Context {LG : Leasing L} {LGV : LeasingView L} {LGL : LeasingLaws L}.
Implicit Types (v : RegistryService S L).

Abbreviation ents v := (rg_entries (rv_store v)).

Lemma check_owner_ok e presented :
  check_owner e presented = Ok () ↔ presented ≠ "" ∧ presented = re_lease_id e.
Proof.
  unfold check_owner.
  destruct (is_empty presented) eqn:He.
  - apply is_empty_true in He as ->. simpl. naive_solver.
  - rewrite <- not_true_iff_false, is_empty_true in He. simpl.
    destruct (String.eqb_spec presented (re_lease_id e)); simpl; naive_solver.
Qed.

Lemma modified_attrs_lookup attrs r k :
  modified_attrs attrs r !! k =
    match mq_add_attrs r !! k with
    | Some x => Some x
    | None => if decide (k ∈ mq_remove_attrs r) then None else attrs !! k
    end.
Proof.
  unfold modified_attrs.
  assert (Hrm : ∀ l m, foldl (λ m k, delete k m) m l !! k =
    (if decide (k ∈ l) then None else (m : attrs_map) !! k)).
  { intros l. induction l as [|x l IH]; intros m; cbn [foldl].
    - by rewrite decide_False by apply not_elem_of_nil.
    - rewrite IH. destruct (decide (k = x)) as [->|Hne].
      + rewrite lookup_delete_eq, (decide_True (P := x ∈ x :: l)) by left. by case_decide.
      + rewrite lookup_delete_ne by done.
        by rewrite (decide_ext (k ∈ x :: l) (k ∈ l)) by (rewrite elem_of_cons; tauto). }
  assert (Hadd : ∀ l m, NoDup l.*1 →
    foldl (λ m kv, <[kv.1 := kv.2]> m) (m : attrs_map) l !! k =
    match (list_to_map l : attrs_map) !! k with Some x => Some x | None => m !! k end).
  { intros l. induction l as [|[x y] l IH]; intros m Hnd; simpl; [by rewrite lookup_empty|].
    rewrite fmap_cons, NoDup_cons in Hnd. destruct Hnd as [Hx Hnd]. simpl in Hx.
    rewrite IH by done. destruct (decide (k = x)) as [->|Hne].
    - rewrite !lookup_insert_eq. by rewrite (not_elem_of_list_to_map_1 l x).
    - by rewrite !lookup_insert_ne. }
  rewrite Hadd, Hrm.
  - rewrite (list_to_map_proper _ (map_to_list (mq_add_attrs r))).
    + by rewrite list_to_map_to_list.
    + rewrite miter_perm. apply NoDup_fst_map_to_list.
    + apply miter_perm.
  - rewrite miter_perm. apply NoDup_fst_map_to_list.
Qed.

(** What a handler did to the registry: nothing, or one write announced as
    REGISTERED or MODIFIED, or one removal announced as UNREGISTERED.  [who] is
    the lease id the caller presented. *)
Definition registry_effect v v' (who : string) : Prop :=
  rg_inv (rv_store v') ∧
  ((ents v' = ents v ∧ rv_event_tx v' = rv_event_tx v) ∨
   (∃ ty e, ty ≠ 1%Z ∧ ents v' = <[re_capability_id e := e]> (ents v) ∧
      rv_event_tx v' = rv_event_tx v ++ [{| ev_type := ty; ev_entry := e |}] ∧
      match ents v !! re_capability_id e with
      | Some old => re_lease_id old = who ∧ re_lease_id e = who
      | None => True
      end) ∨
   (∃ e, ents v !! re_capability_id e = Some e ∧ re_lease_id e = who ∧
      ents v' = delete (re_capability_id e) (ents v) ∧
      rv_event_tx v' = rv_event_tx v ++ [{| ev_type := 1; ev_entry := e |}])).

(** Replacing an owned entry keeps leases unique. *)
Lemma replace_lease_unused v cap existing :
  rg_inv (rv_store v) → ents v !! cap = Some existing →
  lease_unused (delete cap (ents v)) (re_lease_id existing).
Proof.
  intros Hinv He c e [Hne Hc]%lookup_delete_Some Heq.
  destruct (rg_inv_wf _ Hinv) as [_ Huniq]. by specialize (Huniq _ _ _ _ Hc He Heq).
Qed.

(** A write-back of an owned entry through [update]. *)
Lemma update_effect v l' entry existing :
  rg_inv (rv_store v) → ents v !! re_capability_id entry = Some existing →
  re_lease_id entry = re_lease_id existing →
  ∃ s', update (rv_store v) entry = (s', Ok (Some entry)) ∧
    registry_effect v (send_event (with_store (with_leases v l') s') 2 entry)
      (re_lease_id existing).
Proof.
  intros Hinv He Hl. pose proof (rg_update_law (rv_store v) entry Hinv) as Hlaw.
  rewrite Hl in Hlaw. specialize (Hlaw (replace_lease_unused _ _ _ Hinv He)).
  unfold update. destruct (rg_update _ _) as [s' res]. rewrite He in Hlaw.
  destruct Hlaw as (Hinv' & -> & Hv). exists s'. split; [done|]. split; [done|].
  right; left. exists 2%Z, entry. rewrite He. done.
Qed.

Lemma reregister_effect v env r :
  rg_inv (rv_store v) →
  registry_effect v (reregister v env r).1 (rq_lease_id r).
Proof.
  intros Hinv. unfold reregister, get. rewrite rg_get_law.
  assert (Hno : ∀ l, registry_effect v (with_leases v l) (rq_lease_id r))
    by (intros l; split; [done|by left]).
  assert (Hno' : registry_effect v v (rq_lease_id r)) by (split; [done|by left]).
  destruct (ents v !! rq_capability_id r) as [existing|] eqn:He; [|done].
  destruct (check_owner existing (rq_lease_id r)) as [[]|] eqn:Ho; [|done].
  apply check_owner_ok in Ho as [_ Ho].
  destruct (lg_renew _ _ _ _) as [l' renewed]. destruct renewed as [lease|]; [|apply Hno].
  destruct (_ || _); [|apply Hno].
  match goal with |- context [update ?s ?e] => set (entry := e) end.
  destruct (update_effect v l' entry existing) as (s' & Hu & Heff); [done..|].
  simpl in *. rewrite Hu. by rewrite Ho.
Qed.

Lemma register_new_effect v cap env r :
  rg_inv (rv_store v) → ents v !! cap = None → lease_unused (ents v) (uuid env) →
  ∀ who, registry_effect v (register_new v cap env r).1 who.
Proof.
  intros Hinv Hcap Hun who. unfold register_new.
  pose proof (lg_grant_law (rv_leases v) env ("registry:" +:+ cap) (rq_ttl_seconds r)) as Hg.
  destruct (lg_grant _ _ _ _) as [l' granted].
  destruct granted as [lease|]; [|split; [done|by left]].
  destruct Hg as (Hid & _ & _).
  match goal with |- context [register ?s ?e] => set (entry := e) end.
  pose proof (rg_insert_law (rv_store v) entry Hinv) as Hlaw.
  unfold register. simpl in *. rewrite Hid in Hlaw. specialize (Hlaw Hcap Hun).
  destruct (rg_insert _ _) as [s' ins]. destruct Hlaw as (-> & Hinv' & Hv). simpl.
  split; [done|]. right; left. exists 0%Z, entry. simpl. rewrite Hcap. done.
Qed.

(** A new registration: one entry under the new lease, or the grantor's refusal. *)
Lemma register_new_spec v cap env r :
  rg_inv (rv_store v) → ents v !! cap = None → lease_unused (ents v) (uuid env) →
  let v' := (register_new v cap env r).1 in
  match (register_new v cap env r).2 with
  | Ok resp =>
      rp_capability_id resp = cap ∧ pl_lease_id (rp_lease resp) = uuid env ∧
      ents v' = <[cap := mkEntry cap (uuid env) (rq_interface r) (rq_attrs r)
                           (transport_config <$> rq_transport r)]> (ents v) ∧
      ∃ rec, lr_lease_id rec = uuid env ∧
        lg_leases (rv_leases v') = <[uuid env := rec]> (lg_leases (rv_leases v))
  | Err st =>
      st_code st = CInternal ∧ ents v' = ents v ∧
      lg_leases (rv_leases v') = lg_leases (rv_leases v) ∧
      ∃ e, (lg_grant (rv_leases v) env ("registry:" +:+ cap) (rq_ttl_seconds r)).2 = Err e
  end.
Proof.
  intros Hinv Hcap Hun v'. subst v'. unfold register_new.
  pose proof (lg_grant_law (rv_leases v) env ("registry:" +:+ cap) (rq_ttl_seconds r)) as Hg.
  destruct (lg_grant _ _ _ _) as [l' [lease|e]]; [|split_and!; [done..|by eexists]].
  destruct Hg as (Hid & _ & Hl).
  match goal with |- context [register ?s ?e] => set (entry := e) end.
  pose proof (rg_insert_law (rv_store v) entry Hinv) as Hlaw.
  unfold register. simpl in *. rewrite Hid in Hlaw. specialize (Hlaw Hcap Hun).
  destruct (rg_insert _ _) as [s' ins]. destruct Hlaw as (-> & _ & Hv). simpl.
  split_and!; [done|done|by rewrite Hv; unfold entry; rewrite Hid|eauto].
Qed.

Lemma modify_attrs_effect v r :
  rg_inv (rv_store v) → registry_effect v (modify_attrs v r).1 (mq_lease_id r).
Proof.
  intros Hinv. unfold modify_attrs, get. rewrite rg_get_law.
  assert (Hno' : registry_effect v v (mq_lease_id r)) by (split; [done|by left]).
  destruct (ents v !! mq_capability_id r) as [existing|] eqn:He; [|done].
  destruct (check_owner existing (mq_lease_id r)) as [[]|] eqn:Ho; [|done].
  apply check_owner_ok in Ho as [_ Ho].
  destruct (rg_inv_wf _ Hinv) as [Hkey _].
  match goal with |- context [update ?s ?e] => set (entry := e) end.
  destruct (update_effect v (rv_leases v) entry existing) as (s' & Hu & Heff); [done|..].
  { simpl. by rewrite (Hkey _ _ He). }
  { done. }
  rewrite Hu. rewrite Ho. exact Heff.
Qed.

Lemma reclaim_entry_effect v lease :
  rg_inv (rv_store v) → registry_effect v (reclaim_entry v lease) lease.
Proof.
  intros Hinv. unfold reclaim_entry, unregister_by_lease.
  pose proof (rg_remove_by_lease_law (rv_store v) lease Hinv) as Hlaw.
  destruct (rg_inv_wf _ Hinv) as [Hkey _].
  destruct (rg_remove_by_lease _ _) as [s' res].
  destruct Hlaw as (Hinv' & [(cap & e & He & Hl & -> & Hv)|(Hun & -> & Hv)]).
  - split; [done|]. right; right. exists e. rewrite (Hkey _ _ He). done.
  - split; [done|]. by left.
Qed.

(** A reclaim removes the entries of its lease and touches nothing else. *)
Lemma reclaim_entry_filter v lease :
  rg_inv (rv_store v) →
  rg_inv (rv_store (reclaim_entry v lease)) ∧
  rv_leases (reclaim_entry v lease) = rv_leases v ∧
  ents (reclaim_entry v lease) = filter (λ kv, re_lease_id kv.2 ≠ lease) (ents v).
Proof.
  intros Hi. destruct (rg_inv_wf _ Hi) as [_ Huniq]. unfold reclaim_entry, unregister_by_lease.
  pose proof (rg_remove_by_lease_law (rv_store v) lease Hi) as Hlaw.
  destruct (rg_remove_by_lease _ _) as [s' res].
  destruct Hlaw as (Hi' & [(c & e & He & Hl & -> & Hv)|(Hun & -> & Hv)]);
    (split; [done|]); (split; [done|]); cbn; rewrite Hv.
  - apply map_eq. intros k. apply option_eq. intros e'.
    rewrite lookup_delete_Some, map_lookup_filter_Some. cbn. split.
    + intros [Hne He']. split; [done|]. intros Hl'. apply Hne. eapply Huniq; eauto. congruence.
    + intros [He' Hne]. split; [|done]. intros <-. simplify_eq.
  - symmetry. apply map_filter_id. intros k e He. by eapply Hun.
Qed.

(** *** Histories of the service *)

(** A handler call, a reclaim, or any activity of the lease grantor, each run
    without another in between. *)
Inductive reg_step : RegistryService S L → string → RegistryService S L → Prop :=
| step_register v cap env r :
    (rq_capability_id r = "" → ents v !! cap = None ∧ lease_unused (ents v) (uuid env)) →
    reg_step v (rq_lease_id r) (register_rpc v cap env r).1
| step_modify v r : reg_step v (mq_lease_id r) (modify_attrs v r).1
| step_reclaim v lease : reg_step v lease (reclaim_entry v lease)
| step_leasing v who l' : reg_step v who (with_leases v l').

Inductive reg_reach : RegistryService S L → Prop :=
| reach_init v : rg_inv (rv_store v) → ents v = ∅ → rv_event_tx v = [] → reg_reach v
| reach_step v who v' : reg_reach v → reg_step v who v' → reg_reach v'.

Lemma reg_step_effect v who v' :
  rg_inv (rv_store v) → reg_step v who v' → registry_effect v v' who.
Proof.
  intros Hinv. destruct 1 as [v cap env r Hfresh|v r|v lease|v who l'].
  - unfold register_rpc. destruct (is_empty (rq_capability_id r)) eqn:He; simpl.
    + apply is_empty_true in He. destruct (Hfresh He). by apply register_new_effect.
    + by apply reregister_effect.
  - by apply modify_attrs_effect.
  - by apply reclaim_entry_effect.
  - split; [done|]. by left.
Qed.

(** What a watcher of every event rebuilds: REGISTERED and MODIFIED write the
    entry, UNREGISTERED deletes it. *)
Definition apply_event (m : entry_map) (ev : RegistryChangedEvent) : entry_map :=
  if decide (ev_type ev = 1%Z) then delete (re_capability_id (ev_entry ev)) m
  else <[re_capability_id (ev_entry ev) := ev_entry ev]> m.

Definition replay (evs : list RegistryChangedEvent) : entry_map :=
  foldl apply_event ∅ evs.

Lemma replay_snoc evs ev : replay (evs ++ [ev]) = apply_event (replay evs) ev.
Proof. unfold replay. by rewrite foldl_app. Qed.

Lemma reach_replay v :
  reg_reach v → rg_inv (rv_store v) ∧ replay (rv_event_tx v) = ents v.
Proof.
  induction 1 as [v Hinv He Htx|v who v' _ [Hinv IH] Hstep].
  - by rewrite He, Htx.
  - destruct (reg_step_effect v who v' Hinv Hstep)
      as [Hinv' [[-> ->]|[(ty & e & Hty & -> & -> & _)|(e & He & _ & -> & ->)]]];
      (split; [done|]).
    + done.
    + rewrite replay_snoc, IH. unfold apply_event. by rewrite decide_False.
    + by rewrite replay_snoc, IH.
Qed.

(** C16: In every reachable state, an entry changes or disappears only in a
    call that presented that entry's own lease id, or in the reclaim of that
    lease: no other client can hijack or remove it. *)
Theorem entry_changes_only_by_lease_holder v who v' cap e :
  reg_reach v → reg_step v who v' →
  ents v !! cap = Some e → ents v' !! cap ≠ Some e → re_lease_id e = who.
Proof.
  intros [Hinv _]%reach_replay Hstep He Hne.
  destruct (reg_step_effect v who v' Hinv Hstep)
    as [_ [[Hv _]|[(ty & e' & _ & Hv & _ & Hold)|(e' & He' & Hw & Hv & _)]]]; rewrite Hv in Hne.
  - done.
  - destruct (decide (re_capability_id e' = cap)) as [<-|Hc].
    + rewrite He in Hold. by destruct Hold.
    + by rewrite lookup_insert_ne in Hne.
  - destruct (decide (re_capability_id e' = cap)) as [<-|Hc].
    + congruence.
    + by rewrite lookup_delete_ne in Hne.
Qed.

Lemma transport_eq_true a b : transport_eq a b = true ↔ a = b.
Proof.
  destruct a as [[ta ca]|], b as [[tb cb]|]; simpl; try naive_solver.
  rewrite andb_true_iff, String.eqb_eq, bool_decide_eq_true. naive_solver.
Qed.

(** The entry a re-registration asks for. *)
Definition requested_entry (existing : RegistryEntry) (r : RegisterRequest) : RegistryEntry :=
  mkEntry (rq_capability_id r) (re_lease_id existing) (rq_interface r) (rq_attrs r)
    (transport_config <$> rq_transport r).

Lemma reregister_spec v env r existing :
  rg_inv (rv_store v) →
  ents v !! rq_capability_id r = Some existing →
  rq_lease_id r = re_lease_id existing → rq_lease_id r ≠ "" →
  let v' := (reregister v env r).1 in
  let entry := requested_entry existing r in
  match (lg_renew (rv_leases v) env (re_lease_id existing) (rq_ttl_seconds r)).2 with
  | Err e =>
      (reregister v env r).2 = Err (mkStatus CFailedPrecondition (error_to_string e)) ∧
      ents v' = ents v ∧ rv_event_tx v' = rv_event_tx v
  | Ok lease =>
      (reregister v env r).2 =
        Ok {| rp_capability_id := rq_capability_id r;
              rp_lease := record_to_proto (rv_grantor v) lease |} ∧
      ents v' = <[rq_capability_id r := entry]> (ents v) ∧
      rv_event_tx v' = rv_event_tx v ++
        (if decide (existing = entry) then [] else [{| ev_type := 2; ev_entry := entry |}])
  end.
Proof.
  intros Hinv He Hown Hne v' entry. subst v'. unfold reregister, get. rewrite rg_get_law, He.
  rewrite (proj2 (check_owner_ok existing (rq_lease_id r))) by done.
  destruct (lg_renew _ _ _ _) as [l' [lease|e]]; [|done]. simpl.
  destruct (rg_inv_wf _ Hinv) as [Hkey _]. pose proof (Hkey _ _ He) as Hcap.
  destruct (_ || _) eqn:Hch.
  - destruct (update_effect v l' entry existing) as (s' & Hu & Heff); [done..|].
    change (mkEntry _ _ _ _ _) with entry. rewrite Hu. simpl.
    pose proof (rg_update_law (rv_store v) entry Hinv) as Hlaw.
    specialize (Hlaw (replace_lease_unused _ _ _ Hinv He)).
    unfold update in Hu. rewrite Hu in Hlaw. simpl in Hlaw. rewrite He in Hlaw.
    destruct Hlaw as (_ & _ & Hv). split; [done|]. split; [done|].
    rewrite decide_False; [done|]. intros Heq. rewrite Heq in Hch. simpl in Hch.
    rewrite String.eqb_refl, bool_decide_eq_true_2 in Hch by done.
    rewrite (proj2 (transport_eq_true _ _)) in Hch by done. done.
  - rewrite !orb_false_iff, !negb_false_iff, String.eqb_eq, bool_decide_eq_true,
      transport_eq_true in Hch.
    assert (existing = entry) as Heq.
    { destruct existing; unfold entry, requested_entry; simpl in *. naive_solver. }
    split; [done|]. rewrite decide_True, app_nil_r by done.
    split; [|done]. by rewrite <- Heq, insert_id.
Qed.

(** Re-registration by the owner, on every branch.  If the lease cannot
    be renewed the answer is FAILED_PRECONDITION and the registry is untouched;
    otherwise the entry becomes the requested one, and a MODIFIED event is sent
    exactly when something but the lease changed (a pure renewal is silent). *)
Theorem reregister_outcome v env r existing :
  rg_inv (rv_store v) →
  ents v !! rq_capability_id r = Some existing →
  rq_lease_id r = re_lease_id existing → rq_lease_id r ≠ "" →
  let v' := (reregister v env r).1 in
  let entry := requested_entry existing r in
  match (lg_renew (rv_leases v) env (re_lease_id existing) (rq_ttl_seconds r)).2 with
  | Err e =>
      (reregister v env r).2 = Err (mkStatus CFailedPrecondition (error_to_string e)) ∧
      ents v' = ents v ∧ rv_event_tx v' = rv_event_tx v
  | Ok lease =>
      (reregister v env r).2 =
        Ok {| rp_capability_id := rq_capability_id r;
              rp_lease := record_to_proto (rv_grantor v) lease |} ∧
      ents v' = <[rq_capability_id r := entry]> (ents v) ∧
      rv_event_tx v' = rv_event_tx v ++
        (if decide (existing = entry) then [] else [{| ev_type := 2; ev_entry := entry |}])
  end.
Proof. apply reregister_spec. Qed.

(** An owner's attribute change gives each key the added value if it
    is added, else nothing if it is removed, else its old value; the answer is
    the new entry, which is announced as MODIFIED. *)
Theorem modify_attrs_outcome v r existing :
  rg_inv (rv_store v) →
  ents v !! mq_capability_id r = Some existing →
  mq_lease_id r = re_lease_id existing → mq_lease_id r ≠ "" →
  ∃ e, ents (modify_attrs v r).1 = <[mq_capability_id r := e]> (ents v) ∧
    (modify_attrs v r).2 = Ok (entry_to_capability e) ∧
    rv_event_tx (modify_attrs v r).1 =
      rv_event_tx v ++ [{| ev_type := 2; ev_entry := e |}] ∧
    re_lease_id e = re_lease_id existing ∧
    ∀ k, re_attrs e !! k =
      match mq_add_attrs r !! k with
      | Some x => Some x
      | None => if decide (k ∈ mq_remove_attrs r) then None else re_attrs existing !! k
      end.
Proof.
  intros Hinv He Hown Hne. unfold modify_attrs, get. rewrite rg_get_law, He.
  rewrite (proj2 (check_owner_ok existing (mq_lease_id r))) by done.
  destruct (rg_inv_wf _ Hinv) as [Hkey _]. pose proof (Hkey _ _ He) as Hcap.
  match goal with |- context [update ?s ?e] => set (entry := e) end.
  pose proof (rg_update_law (rv_store v) entry Hinv) as Hlaw. simpl in Hlaw.
  rewrite Hcap in Hlaw. specialize (Hlaw (replace_lease_unused _ _ _ Hinv He)).
  unfold update. destruct (rg_update _ _) as [s' res]. rewrite He in Hlaw.
  destruct Hlaw as (_ & -> & Hv). simpl. exists entry. repeat (split; [done|]).
  intros k. apply modified_attrs_lookup.
Qed.

(** When the lease behind an entry is reclaimed the entry is gone, no
    lookup returns it any more, and its removal is announced; reclaiming a lease
    no entry holds changes nothing. *)
Theorem reclaim_entry_outcome v lease :
  rg_inv (rv_store v) →
  (∀ cap e, ents v !! cap = Some e → re_lease_id e = lease →
     ents (reclaim_entry v lease) = delete cap (ents v) ∧
     rv_event_tx (reclaim_entry v lease) =
       rv_event_tx v ++ [{| ev_type := 1; ev_entry := e |}] ∧
     ∀ template, lookup (rv_store (reclaim_entry v lease)) template ≠ Ok (Some e)) ∧
  (lease_unused (ents v) lease →
     ents (reclaim_entry v lease) = ents v ∧
     rv_event_tx (reclaim_entry v lease) = rv_event_tx v).
Proof.
  intros Hinv. destruct (rg_inv_wf _ Hinv) as [Hkey Huniq].
  unfold reclaim_entry, unregister_by_lease.
  pose proof (rg_remove_by_lease_law (rv_store v) lease Hinv) as Hlaw.
  destruct (rg_remove_by_lease _ _) as [s' res].
  destruct Hlaw as (Hinv' & [(c & e' & He' & Hl & -> & Hv)|(Hun & -> & Hv)]); split.
  - intros cap e He Hle. assert (c = cap) as -> by (eapply Huniq; eauto; congruence).
    simplify_eq. split; [done|]. split; [done|]. intros template Hlk.
    destruct (find_entry_spec s' template) as (o & Ho & Hspec). simpl in Hlk.
    rewrite Hlk in Ho. simplify_eq. destruct Hspec as [(c' & Hc') _].
    rewrite Hv in Hc'. apply lookup_delete_Some in Hc' as [Hne Hc'].
    apply Hkey in Hc' as Hk. apply Hkey in He' as Hk'. congruence.
  - intros Hun. by apply Hun in He'.
  - intros cap e He Hle. by apply Hun in He.
  - done.
Qed.
End theorems.

(** ** Concrete instances *)
Section samples.
#[local] Existing Instance chrono_sample.
#[local] Existing Instance canonical_iter.

Abbreviation LocalRegistry :=
  (RegistryService InMemoryRegistryStore (LeaseManager InMemoryLeaseStore)).

(** An empty local registry, and the same after one registration. *)
Definition sample_empty : LocalRegistry := {|
  rv_store := RegistryStore.new;
  rv_leases := {| lm_store := LeaseStore.new; lm_config := LeaseConfig_default;
                  lm_expiry_tx := [] |};
  rv_event_tx := [];
  rv_grantor := {| grantor_host := "127.0.0.1"; grantor_port := 9002 |}
|}.

Definition sample_env : Env := {| now := 0; now2 := 1; uuid := "lease-1" |}.

Definition sample_request : RegisterRequest := {|
  rq_interface := "Greeter"; rq_attrs := {["lang" := "en"; "zone" := "a"]};
  rq_ttl_seconds := 30;
  rq_transport := Some {| td_type := "grpc"; td_config := {["host" := "h"]} |};
  rq_capability_id := ""; rq_lease_id := ""
|}.

Definition sample_registered : LocalRegistry :=
  (register_rpc sample_empty "cap-1" sample_env sample_request).1.

Definition sample_entry : RegistryEntry :=
  mkEntry "cap-1" "lease-1" "Greeter" {["lang" := "en"; "zone" := "a"]}
    (Some {| tc_type := "grpc"; tc_config := {["host" := "h"]} |}).

Lemma registered_reach : reg_reach sample_registered.
Proof.
  eapply reach_step.
  - apply (reach_init sample_empty); [apply store_inv_new|done..].
  - apply step_register. intros _. split; [done|]. intros cap e. simpl.
    by rewrite lookup_empty.
Qed.

Lemma sample_inv : rg_inv (rv_store sample_registered).
Proof. by apply reach_replay, registered_reach. Qed.

Definition sample_modify : ModifyAttrsRequest := {|
  mq_capability_id := "cap-1"; mq_add_attrs := {["lang" := "fr"]};
  mq_remove_attrs := ["zone"; "lang"]; mq_lease_id := "lease-1" |}.

Theorem entry_changes_only_by_lease_holder_witness : re_lease_id sample_entry = "lease-1".
Proof.
  apply (entry_changes_only_by_lease_holder sample_registered "lease-1"
           (modify_attrs sample_registered sample_modify).1 "cap-1" sample_entry).
  - exact registered_reach.
  - exact (step_modify sample_registered sample_modify).
  - reflexivity.
  - vm_compute. discriminate.
Defined.

Definition sample_rerequest : RegisterRequest := {|
  rq_interface := "Greeter"; rq_attrs := {["lang" := "en"; "zone" := "a"]};
  rq_ttl_seconds := 60;
  rq_transport := Some {| td_type := "grpc"; td_config := {["host" := "h"]} |};
  rq_capability_id := "cap-1"; rq_lease_id := "lease-1"
|}.

(** A pure renewal: the lease is extended, nothing is announced. *)
Theorem reregister_outcome_witness :
  rv_event_tx (reregister sample_registered sample_env sample_rerequest).1 =
    rv_event_tx sample_registered ++
      (if decide (sample_entry = requested_entry sample_entry sample_rerequest) then []
       else [{| ev_type := 2; ev_entry := requested_entry sample_entry sample_rerequest |}]).
Proof.
  assert (Hne : "lease-1" ≠ "") by discriminate.
  destruct (reregister_outcome sample_registered sample_env sample_rerequest sample_entry
              sample_inv eq_refl eq_refl Hne) as (_ & _ & Hx).
  exact Hx.
Defined.

Theorem modify_attrs_outcome_witness :
  ∃ e, rg_entries (rv_store (modify_attrs sample_registered sample_modify).1) =
         <["cap-1" := e]> (rg_entries (rv_store sample_registered)) ∧
    (modify_attrs sample_registered sample_modify).2 = Ok (entry_to_capability e) ∧
    rv_event_tx (modify_attrs sample_registered sample_modify).1 =
      rv_event_tx sample_registered ++ [{| ev_type := 2; ev_entry := e |}] ∧
    re_lease_id e = "lease-1" ∧
    ∀ k, re_attrs e !! k =
      match mq_add_attrs sample_modify !! k with
      | Some x => Some x
      | None => if decide (k ∈ mq_remove_attrs sample_modify) then None
                else re_attrs sample_entry !! k
      end.
Proof.
  apply (modify_attrs_outcome sample_registered sample_modify sample_entry).
  - exact sample_inv.
  - reflexivity.
  - reflexivity.
  - discriminate.
Defined.

Theorem reclaim_entry_outcome_witness :
  rg_entries (rv_store (reclaim_entry sample_registered "lease-1")) =
    delete "cap-1" (rg_entries (rv_store sample_registered)).
Proof.
  apply (proj1 (reclaim_entry_outcome sample_registered "lease-1" sample_inv)
           "cap-1" sample_entry); reflexivity.
Defined.
End samples.
