(* ===== verification/RegistryRace.v ===== *)
(** * Registry handlers among concurrent calls ([coordin8-registry/src/service.rs])

    [RegistryService] gives each handler as one function; the source suspends it
    at every store and lease call.  Here a handler is the frame it is suspended
    in, a step resumes one frame up to its next await, any number of frames are
    in flight, and a call may be dropped wherever it awaits.  A frame stepped
    without interruption is the handler ([register_alone], [modify_alone],
    [reclaim_alone]).

    Sending a change event follows the store write without an await, but other
    threads run in between, so it is a step of its own; it is the one step a
    dropped call cannot skip. *)

From S2P Require Import Prelude CoreTypes LeaseCore LeaseStore LeaseManager LeaseService.
From S2P Require Import Matcher RegistryStore RegistryIndex RegistryService.

Inductive Answer :=
| ARegistered (res : result RegisterResponse Status)
| AModified (res : result Capability Status)
| AReclaimed.

(** The same call answering with an error. *)
Definition answer_err (a : Answer) (st : Status) : Answer :=
  match a with
  | ARegistered _ => ARegistered (Err st)
  | AModified _ => AModified (Err st)
  | AReclaimed => AReclaimed
  end.

(** Where a call is suspended: before the call it is named after. *)
Inductive Frame :=
| FGet (r : RegisterRequest) (env : Env)
| FRenew (r : RegisterRequest) (env : Env) (existing : RegistryEntry)
| FUpdate (entry : RegistryEntry) (answer : Answer)
| FGrant (cap : string) (env : Env) (r : RegisterRequest)
| FInsert (entry : RegistryEntry) (answer : Answer)
| FModGet (r : ModifyAttrsRequest)
| FReclaim (lease_id : string)
| FSend (ty : Z) (entry : RegistryEntry) (answer : Answer)
| FDone (answer : Answer).

(** The capability a suspended call works on. *)
Definition cap_of (f : Frame) : option string :=
  match f with
  | FGet r _ | FRenew r _ _ => Some (rq_capability_id r)
  | FModGet r => Some (mq_capability_id r)
  | FGrant cap _ _ => Some cap
  | FUpdate e _ | FInsert e _ | FSend _ e _ => Some (re_capability_id e)
  | FReclaim _ | FDone _ => None
  end.

Section race.
Context {C : Chrono} {I : MapIter} {S L : Type}.
Context {RS : RegistryStore S} {RV : RegistryStoreView S} {RL : RegistryStoreLaws S}.
Context {LG : Leasing L} {LGV : LeasingView L} {LGL : LeasingLaws L}.
Implicit Types (v : RegistryService S L).

Abbreviation ents v := (rg_entries (rv_store v)).

(** A [Register] call as it comes in; [cap] is the id it would draw. *)
Definition start_register (cap : string) (env : Env) (r : RegisterRequest) : Frame :=
  if negb (is_empty (rq_capability_id r)) then FGet r env else FGrant cap env r.

(** A frame resumed up to its next await. *)
Definition fstep v (f : Frame) : RegistryService S L * Frame :=
  match f with
  | FGet r env =>
      match get (rv_store v) (rq_capability_id r) with
      | Err e => (v, FDone (ARegistered (Err (internal_status e))))
      | Ok None => (v, FDone (ARegistered (Err (capability_not_found (rq_capability_id r)))))
      | Ok (Some existing) =>
          match check_owner existing (rq_lease_id r) with
          | Err st => (v, FDone (ARegistered (Err st)))
          | Ok _ => (v, FRenew r env existing)
          end
      end
  | FRenew r env existing =>
      let '(l', renewed) :=
        lg_renew (rv_leases v) env (re_lease_id existing) (rq_ttl_seconds r) in
      let v1 := with_leases v l' in
      match renewed with
      | Err e => (v1, FDone (ARegistered (Err (mkStatus CFailedPrecondition (error_to_string e)))))
      | Ok lease =>
          let entry := requested_entry existing r in
          let changed :=
            negb (String.eqb (re_interface existing) (re_interface entry))
            || negb (bool_decide (re_attrs existing = re_attrs entry))
            || negb (transport_eq (re_transport existing) (re_transport entry)) in
          let response := ARegistered (Ok {| rp_capability_id := rq_capability_id r;
                                             rp_lease := record_to_proto (rv_grantor v) lease |}) in
          (v1, if changed then FUpdate entry response else FDone response)
      end
  | FUpdate entry answer =>
      let '(s', upd) := update (rv_store v) entry in
      (with_store v s',
       match upd with
       | Err e => FDone (answer_err answer (internal_status e))
       | Ok _ => FSend 2 entry answer
       end)
  | FGrant cap env r =>
      let '(l', granted) :=
        lg_grant (rv_leases v) env ("registry:" +:+ cap) (rq_ttl_seconds r) in
      (with_leases v l',
       match granted with
       | Err e => FDone (ARegistered (Err (internal_status e)))
       | Ok lease =>
           FInsert (mkEntry cap (lr_lease_id lease) (rq_interface r) (rq_attrs r)
                      (transport_config <$> rq_transport r))
             (ARegistered (Ok {| rp_capability_id := cap;
                                 rp_lease := record_to_proto (rv_grantor v) lease |}))
       end)
  | FInsert entry answer =>
      let '(s', ins) := register (rv_store v) entry in
      (with_store v s',
       match ins with
       | Err e => FDone (answer_err answer (internal_status e))
       | Ok _ => FSend 0 entry answer
       end)
  | FModGet r =>
      match get (rv_store v) (mq_capability_id r) with
      | Err e => (v, FDone (AModified (Err (internal_status e))))
      | Ok None => (v, FDone (AModified (Err (capability_not_found (mq_capability_id r)))))
      | Ok (Some existing) =>
          match check_owner existing (mq_lease_id r) with
          | Err st => (v, FDone (AModified (Err st)))
          | Ok _ =>
              let entry := mkEntry (re_capability_id existing) (re_lease_id existing)
                             (re_interface existing) (modified_attrs (re_attrs existing) r)
                             (re_transport existing) in
              (v, FUpdate entry (AModified (Ok (entry_to_capability entry))))
          end
      end
  | FReclaim lease_id =>
      match unregister_by_lease (rv_store v) lease_id with
      | (s', Ok (Some entry)) => (with_store v s', FSend 1 entry AReclaimed)
      | (s', _) => (with_store v s', FDone AReclaimed)
      end
  | FSend ty entry answer => (send_event v ty entry, FDone answer)
  | FDone answer => (v, FDone answer)
  end.

Fixpoint frun (n : nat) v (f : Frame) : RegistryService S L * Frame :=
  match n with
  | O => (v, f)
  | Datatypes.S n => let '(v', f') := fstep v f in frun n v' f'
  end.

(** *** A call nobody interferes with is the handler *)

Lemma register_alone v cap env r :
  frun 4 v (start_register cap env r) =
    ((register_rpc v cap env r).1, FDone (ARegistered (register_rpc v cap env r).2)).
Proof.
  unfold start_register, register_rpc. destruct (is_empty (rq_capability_id r)); simpl.
  - unfold register_new. destruct (lg_grant _ _ _ _) as [l' [lease|e]]; [|done]. simpl.
    by destruct (register _ _) as [s' [|]].
  - unfold reregister. destruct (get _ _) as [[existing|]|]; [|done..].
    destruct (check_owner _ _) as [[]|]; [|done]. simpl.
    destruct (lg_renew _ _ _ _) as [l' [lease|e]]; [|done]. simpl.
    unfold requested_entry. destruct (_ || _); [|done]. simpl.
    by destruct (update _ _) as [s' [|]].
Qed.

Lemma modify_alone v r :
  frun 3 v (FModGet r) = ((modify_attrs v r).1, FDone (AModified (modify_attrs v r).2)).
Proof.
  simpl. unfold modify_attrs. destruct (get _ _) as [[existing|]|]; [|done..].
  destruct (check_owner _ _) as [[]|]; [|done]. simpl. by destruct (update _ _) as [s' [|]].
Qed.

Lemma reclaim_alone v lease : frun 2 v (FReclaim lease) = (reclaim_entry v lease, FDone AReclaimed).
Proof. simpl. unfold reclaim_entry. by destruct (unregister_by_lease _ _) as [s' [[|]|]]. Qed.

(** ** The pool *)

Record Pool := mkPool {
  pl_service : RegistryService S L;
  pl_caps : gset string;          (** every capability id drawn so far *)
  pl_leases : gset string;        (** every lease id drawn so far *)
  pl_tasks : list Frame
}.

(** The calls that start: ids come from [Uuid::new_v4]. *)
Inductive arrives : gset string → gset string → Frame → gset string → gset string → Prop :=
| ArRegister caps ls cap env r :
    cap ∉ caps → uuid env ∉ ls →
    arrives caps ls (start_register cap env r) ({[cap]} ∪ caps) ({[uuid env]} ∪ ls)
| ArModify caps ls r : arrives caps ls (FModGet r) caps ls
| ArReclaim caps ls lease : arrives caps ls (FReclaim lease) caps ls.

Definition can_drop (f : Frame) : bool := match f with FSend _ _ _ => false | _ => true end.

Inductive step : Pool → Pool → Prop :=
| SArrive v caps ls caps' ls' ts f :
    arrives caps ls f caps' ls' → step (mkPool v caps ls ts) (mkPool v caps' ls' (f :: ts))
| SRun v caps ls ts1 f ts2 :
    step (mkPool v caps ls (ts1 ++ f :: ts2))
         (mkPool (fstep v f).1 caps ls (ts1 ++ (fstep v f).2 :: ts2))
| SDrop v caps ls ts1 f ts2 :
    can_drop f = true → step (mkPool v caps ls (ts1 ++ f :: ts2)) (mkPool v caps ls (ts1 ++ ts2))
| SLease v caps ls ts l' : step (mkPool v caps ls ts) (mkPool (with_leases v l') caps ls ts).

(** At most one call in flight works on each capability of [ser]. *)
Definition alone (ser : string → Prop) (ts : list Frame) : Prop :=
  ∀ c ts1 f ts2, ser c → ts = ts1 ++ f :: ts2 → cap_of f = Some c →
    Forall (λ g, cap_of g ≠ Some c) (ts1 ++ ts2).

(** The executions in which calls on a capability of [ser] do not overlap; the
    others interleave freely.  With [ser] empty these are all executions. *)
Inductive reach (ser : string → Prop) : Pool → Prop :=
| ReachInit v :
    rg_inv (rv_store v) → ents v = ∅ → rv_event_tx v = [] → reach ser (mkPool v ∅ ∅ [])
| ReachStep P P' : reach ser P → step P P' → alone ser (pl_tasks P') → reach ser P'.

(** ** The invariant *)

(** The capability each lease was drawn for. *)
Abbreviation owners := (gmap string string).
Implicit Types (own : owners).

Definition frame_ok (own : owners) (f : Frame) : Prop :=
  match f with
  | FRenew r _ existing => own !! re_lease_id existing = Some (rq_capability_id r)
  | FUpdate e _ | FInsert e _ | FSend _ e _ => own !! re_lease_id e = Some (re_capability_id e)
  | FGrant cap env _ => own !! uuid env = Some cap
  | _ => True
  end.

(** A registration whose entry is not stored yet. *)
Definition pending (f : Frame) : option string :=
  match f with
  | FGrant cap _ _ => Some cap
  | FInsert e _ => Some (re_capability_id e)
  | _ => None
  end.

Record pool_ok (own : owners) (P : Pool) : Prop := {
  po_inv : rg_inv (rv_store (pl_service P));
  po_own : ∀ c e, ents (pl_service P) !! c = Some e → own !! re_lease_id e = Some c;
  po_drawn : ∀ l c, own !! l = Some c → l ∈ pl_leases P ∧ c ∈ pl_caps P;
  po_frames : Forall (frame_ok own) (pl_tasks P);
  po_nodup : NoDup (omap pending (pl_tasks P));
  po_absent : ∀ c, c ∈ omap pending (pl_tasks P) → ents (pl_service P) !! c = None
}.

Lemma frame_pending_ok own f c : frame_ok own f → pending f = Some c → ∃ l, own !! l = Some c.
Proof. destruct f; simpl; intros Hf Hp; simplify_eq; eauto. Qed.

(** What the store answers to the frames that write, under the invariant. *)
Lemma update_ok own v e :
  rg_inv (rv_store v) → (∀ c e, ents v !! c = Some e → own !! re_lease_id e = Some c) →
  own !! re_lease_id e = Some (re_capability_id e) →
  ∃ s' o, update (rv_store v) e = (s', Ok o) ∧ rg_inv s' ∧
    rg_entries s' = match ents v !! re_capability_id e with
                    | Some _ => <[re_capability_id e := e]> (ents v)
                    | None => ents v
                    end.
Proof.
  intros Hinv Hown He. pose proof (rg_update_law (rv_store v) e Hinv) as Hlaw.
  assert (Hun : lease_unused (delete (re_capability_id e) (ents v)) (re_lease_id e)).
  { intros c e' [Hne Hc]%lookup_delete_Some Heq. apply Hown in Hc. congruence. }
  specialize (Hlaw Hun). unfold update. destruct (rg_update _ _) as [s' res].
  destruct Hlaw as [Hi Hr]. destruct (ents v !! _); destruct Hr as [-> Hv]; eauto 10.
Qed.

Lemma reg_insert_ok own v e :
  rg_inv (rv_store v) → (∀ c e, ents v !! c = Some e → own !! re_lease_id e = Some c) →
  own !! re_lease_id e = Some (re_capability_id e) → ents v !! re_capability_id e = None →
  ∃ s', register (rv_store v) e = (s', Ok ()) ∧ rg_inv s' ∧
    rg_entries s' = <[re_capability_id e := e]> (ents v).
Proof.
  intros Hinv Hown He Hn. pose proof (rg_insert_law (rv_store v) e Hinv Hn) as Hlaw.
  assert (Hun : lease_unused (ents v) (re_lease_id e)).
  { intros c e' Hc Heq. pose proof (Hown _ _ Hc). congruence. }
  specialize (Hlaw Hun). unfold register. destruct (rg_insert _ _) as [s' res].
  destruct Hlaw as (-> & ? & ?). eauto.
Qed.

(** What one step does to the entries and to the log: an entry is written or
    removed only on the way to the frame that announces it, and only [FSend]
    sends. *)
Definition effect v (f : Frame) v' (f' : Frame) : Prop :=
  match f with
  | FSend ty e _ =>
      ents v' = ents v ∧ rv_event_tx v' = rv_event_tx v ++ [{| ev_type := ty; ev_entry := e |}]
  | _ =>
      rv_event_tx v' = rv_event_tx v ∧
      match f' with
      | FSend ty e _ =>
          (ty = 1%Z ∧ ents v !! re_capability_id e = Some e ∧
             ents v' = delete (re_capability_id e) (ents v)) ∨
          (ty = 0%Z ∧ pending f = Some (re_capability_id e) ∧
             ents v' = <[re_capability_id e := e]> (ents v)) ∨
          (ty = 2%Z ∧ cap_of f = Some (re_capability_id e) ∧
             ents v' = match ents v !! re_capability_id e with
                       | Some _ => <[re_capability_id e := e]> (ents v)
                       | None => ents v
                       end)
      | _ => ents v' = ents v
      end
  end.

Lemma fstep_effect own v f :
  rg_inv (rv_store v) → (∀ c e, ents v !! c = Some e → own !! re_lease_id e = Some c) →
  frame_ok own f → (∀ c, pending f = Some c → ents v !! c = None) →
  effect v f (fstep v f).1 (fstep v f).2 ∧ rg_inv (rv_store (fstep v f).1) ∧
  frame_ok own (fstep v f).2 ∧
  (pending (fstep v f).2 = None ∨ pending (fstep v f).2 = pending f).
Proof.
  intros Hinv Hown Hf Hp. destruct (rg_inv_wf _ Hinv) as [Hkey _].
  destruct f as [r env|r env ex|e an|cap env r|e an|r|l|ty e an|an]; simpl in *.
  - unfold get. rewrite rg_get_law. destruct (ents v !! rq_capability_id r) as [ex|] eqn:E; [|by simpl; auto 10].
    destruct (check_owner _ _) as [[]|]; simpl; auto 10.
  - destruct (lg_renew _ _ _ _) as [l' [lease|er]]; simpl; [|by simpl; auto 10].
    destruct (_ || _); simpl; split_and!; auto.
  - destruct (update_ok own v e Hinv Hown Hf) as (s' & o & -> & Hi & Hv). simpl. split_and!; auto.
  - pose proof (lg_grant_law (rv_leases v) env ("registry:" +:+ cap) (rq_ttl_seconds r)) as Hg.
    destruct (lg_grant _ _ _ _) as [l' [lease|er]]; simpl; [|by simpl; auto 10].
    destruct Hg as (Hid & _). rewrite Hid. split_and!; auto.
  - destruct (reg_insert_ok own v e Hinv Hown Hf (Hp _ eq_refl)) as (s' & -> & Hi & Hv). simpl.
    split_and!; auto 10.
  - unfold get. rewrite rg_get_law. destruct (ents v !! mq_capability_id r) as [ex|] eqn:E; [|by simpl; auto 10].
    destruct (check_owner _ _) as [[]|]; simpl; auto 10. split_and!; auto.
    rewrite (Hkey _ _ E). by apply Hown.
  - pose proof (rg_remove_by_lease_law (rv_store v) l Hinv) as Hlaw. unfold unregister_by_lease.
    destruct (rg_remove_by_lease _ _) as [s' res].
    destruct Hlaw as (Hi & [(c & e & He & _ & -> & Hv)|(_ & -> & Hv)]); simpl.
    + pose proof (Hkey _ _ He) as <-. split_and!; auto 10.
    + split_and!; auto.
  - split_and!; auto.
  - split_and!; auto.
Qed.

(** Entries only come from a registration or from an update of a present one. *)
Lemma effect_entry v f v' f' c e :
  effect v f v' f' → ents v' !! c = Some e →
  ents v !! c = Some e ∨
  ∃ ty an, f' = FSend ty e an ∧ re_capability_id e = c ∧
    ((ty = 0%Z ∧ pending f = Some c) ∨ (ty = 2%Z ∧ is_Some (ents v !! c))).
Proof.
  intros He Hc. destruct f; simpl in He; destruct He as [He1 He];
    try (rewrite He1 in Hc; by left);
    destruct f' as [?|?|?|?|?|?|?|ty e' an|?]; try (rewrite He in Hc; by left);
    destruct He as [(_ & _ & E)|[(-> & ? & E)|(-> & _ & E)]]; rewrite E in Hc; try done.
  all: try (apply lookup_delete_Some in Hc as [_ ?]; by left).
  all: try (destruct (ents v !! re_capability_id e') eqn:?; [|by left]).
  all: apply lookup_insert_Some in Hc as [[<- <-]|[_ ?]]; [right|by left].
  all: eexists _, an; split_and!; [done|done|]; eauto.
Qed.

Lemma po_step_run own v caps ls ts1 f ts2 :
  pool_ok own (mkPool v caps ls (ts1 ++ f :: ts2)) →
  effect v f (fstep v f).1 (fstep v f).2 ∧
  pool_ok own (mkPool (fstep v f).1 caps ls (ts1 ++ (fstep v f).2 :: ts2)).
Proof.
  intros [Hinv Hown Hdr Hfr Hnd Habs]. simpl in *.
  apply Forall_app in Hfr as [Hf1 [Hf Hf2]%Forall_cons].
  assert (Hp : ∀ c, pending f = Some c → ents v !! c = None).
  { intros c Hc. apply Habs. rewrite omap_app. simpl. rewrite Hc. set_solver. }
  destruct (fstep_effect own v f Hinv Hown Hf Hp) as (Heff & Hi & Hf' & Hpd).
  split; [done|]. destruct (fstep v f) as [v' f']. simpl in *.
  assert (Hsub : sublist (omap pending (ts1 ++ f' :: ts2)) (omap pending (ts1 ++ f :: ts2))).
  { rewrite !omap_app. apply sublist_app; [done|]. simpl.
    destruct Hpd as [-> | ->]; [|done]. destruct (pending f); [by constructor|done]. }
  split; simpl; [done| |done| | |].
  - intros c e Hc. destruct (effect_entry _ _ _ _ _ _ Heff Hc) as [?|(ty & an & -> & <- & Hk)];
      [by apply Hown|done].
  - apply Forall_app. split; [done|]. by constructor.
  - by eapply sublist_NoDup.
  - intros c Hc. destruct (ents v' !! c) as [e|] eqn:E; [|done]. exfalso.
    assert (Hc0 : ents v !! c = None).
    { apply Habs. by eapply sublist_subseteq. }
    destruct (effect_entry _ _ _ _ _ _ Heff E) as [?|(ty & an & -> & <- & [[_ Hk]|[_ [? ?]]])];
      [congruence| |congruence].
    rewrite omap_app in Hc, Hnd. simpl in Hc, Hnd. rewrite Hk in Hnd.
    rewrite <- Permutation_middle in Hnd. apply NoDup_cons in Hnd as [Hn _]. set_solver.
Qed.

(** Drawing ids for a call that arrives. *)
Lemma po_step_arrive own v caps ls caps' ls' ts f :
  pool_ok own (mkPool v caps ls ts) → arrives caps ls f caps' ls' →
  ∃ own', pool_ok own' (mkPool v caps' ls' (f :: ts)).
Proof.
  intros [Hinv Hown Hdr Hfr Hnd Habs] Har. simpl in *.
  destruct Har as [caps ls cap env r Hc Hl|caps ls r|caps ls lease]; [|exists own; split; simpl; try done; by constructor..].
  assert (Hn : own !! uuid env = None).
  { destruct (own !! uuid env) as [c|] eqn:E; [|done]. by apply Hdr in E as [? _]. }
  assert (Hmono : ∀ l c, own !! l = Some c → <[uuid env := cap]> own !! l = Some c).
  { intros l c E. by rewrite lookup_insert_ne by congruence. }
  exists (<[uuid env := cap]> own). split; simpl; auto.
  - intros l c [[<- <-]|[_ [? ?]%Hdr]]%lookup_insert_Some; set_solver.
  - constructor.
    + unfold start_register. destruct (negb _); [done|]. simpl. by rewrite lookup_insert_eq.
    + eapply Forall_impl; [done|]. intros [] ?; simpl in *; auto.
  - unfold start_register. destruct (negb _); [done|]. simpl. constructor; [|done].
    intros (g & Hg & Hp)%list_elem_of_omap.
    eapply Forall_forall in Hfr; [|done]. destruct (frame_pending_ok _ _ _ Hfr Hp) as [l E].
    by apply Hdr in E as [_ ?].
  - unfold start_register. destruct (negb _); [done|]. simpl.
    intros c [->|?]%elem_of_cons; [|auto].
    destruct (ents v !! cap) as [e|] eqn:E; [|done]. apply Hown, Hdr in E as [_ ?]. done.
Qed.

Lemma po_step own P P' : pool_ok own P → step P P' → ∃ own', pool_ok own' P'.
Proof.
  intros Hok Hs. destruct Hs as [v caps ls caps' ls' ts f Har|v caps ls ts1 f ts2
    |v caps ls ts1 f ts2 Hd|v caps ls ts l'].
  - by eapply po_step_arrive.
  - exists own. by apply po_step_run.
  - exists own. destruct Hok as [Hinv Hown Hdr Hfr Hnd Habs]. simpl in *.
    assert (Hsub : sublist (omap pending (ts1 ++ ts2)) (omap pending (ts1 ++ f :: ts2))).
    { rewrite !omap_app. apply sublist_app; [done|]. simpl.
      destruct (pending f); [by constructor|done]. }
    apply Forall_app in Hfr as [? [? ?]%Forall_cons].
    split; simpl; [done|done|done|by apply Forall_app|by eapply sublist_NoDup|].
    intros c Hc. apply Habs. by eapply sublist_subseteq.
  - exists own. destruct Hok. by split.
Qed.

(** ** No change goes unannounced *)

(** Sent, or about to be by the call that made the change. *)
Definition announced (P : Pool) (ev : RegistryChangedEvent) : Prop :=
  ev ∈ rv_event_tx (pl_service P) ∨
  ∃ an, FSend (ev_type ev) (ev_entry ev) an ∈ pl_tasks P.

Lemma announced_mono own P P' ev :
  pool_ok own P → step P P' → announced P ev → announced P' ev.
Proof.
  intros Hok Hs Ha. destruct Hs as [v caps ls caps' ls' ts f Har|v caps ls ts1 f ts2
    |v caps ls ts1 f ts2 Hd|v caps ls ts l']; unfold announced in *; simpl in *.
  - destruct Ha as [?|[an ?]]; [by left|right]. exists an. by right.
  - destruct (po_step_run _ _ _ _ _ _ _ Hok) as [Heff _]. destruct (fstep v f) as [v' f']. simpl in *.
    assert (Hlog : ∀ x, x ∈ rv_event_tx v → x ∈ rv_event_tx v').
    { intros x Hx. destruct f; simpl in Heff; destruct Heff as [E1 E2];
        first [by rewrite E1|by rewrite E2; apply elem_of_app; left]. }
    destruct Ha as [?|[an Hin]]; [by left; apply Hlog|].
    apply elem_of_app in Hin as [?|[<-|?]%elem_of_cons]; [right; exists an; set_solver| |right; exists an; set_solver].
    left. simpl in Heff. destruct Heff as [_ ->]. apply elem_of_app. right.
    destruct ev. set_solver.
  - destruct Ha as [?|[an Hin]]; [by left|]. right. exists an.
    apply elem_of_app in Hin as [?|[<-|?]%elem_of_cons]; [set_solver|done|set_solver].
  - done.
Qed.

Record told (P : Pool) : Prop := {
  td_entries : ∀ c e, ents (pl_service P) !! c = Some e →
    ∃ ev, announced P ev ∧ ev_type ev ≠ 1%Z ∧ ev_entry ev = e;
  td_removed : ∀ ev, announced P ev → ev_type ev = 0%Z →
    ents (pl_service P) !! re_capability_id (ev_entry ev) = None →
    ∃ ev', announced P ev' ∧ ev_type ev' = 1%Z ∧
           re_capability_id (ev_entry ev') = re_capability_id (ev_entry ev)
}.

(** What a step announces that was not announced before. *)
Lemma announced_new own v caps ls ts1 f ts2 ev :
  pool_ok own (mkPool v caps ls (ts1 ++ f :: ts2)) →
  announced (mkPool (fstep v f).1 caps ls (ts1 ++ (fstep v f).2 :: ts2)) ev →
  announced (mkPool v caps ls (ts1 ++ f :: ts2)) ev ∨
  ∃ an, (fstep v f).2 = FSend (ev_type ev) (ev_entry ev) an.
Proof.
  intros Hok Ha. destruct (po_step_run _ _ _ _ _ _ _ Hok) as [Heff _].
  unfold announced in *. destruct (fstep v f) as [v' f']. simpl in *. destruct Ha as [Hin|[an Hin]].
  - left. destruct f as [?|?|?|?|?|?|?|ty e an|?]; simpl in Heff; destruct Heff as [E1 E2];
      try (rewrite E1 in Hin; by left).
    rewrite E2 in Hin. apply elem_of_app in Hin as [?| ->%list_elem_of_singleton]; [by left|].
    right. exists an. simpl. set_solver.
  - apply elem_of_app in Hin as [?|[E|?]%elem_of_cons]; [left; right; exists an; set_solver
      |right; by exists an|left; right; exists an; set_solver].
Qed.

(** A step removes an entry only to announce it. *)
Lemma effect_removed v f v' f' c :
  effect v f v' f' → is_Some (ents v !! c) → ents v' !! c = None →
  ∃ e an, f' = FSend 1 e an ∧ re_capability_id e = c.
Proof.
  intros He [e0 H0] Hn.
  assert (Hup : ∀ e, match ents v !! re_capability_id e with
                     | Some _ => <[re_capability_id e := e]> (ents v)
                     | None => ents v end !! c ≠ None).
  { intros e. destruct (ents v !! re_capability_id e); [|congruence].
    rewrite lookup_insert_None. naive_solver. }
  destruct f; simpl in He; destruct He as [He1 He]; try congruence;
    destruct f' as [?|?|?|?|?|?|?|ty e' an|?]; try congruence;
    destruct He as [(-> & _ & E)|[(-> & ? & E)|(-> & _ & E)]]; rewrite E in Hn;
    try (by apply Hup in Hn); try (apply lookup_insert_None in Hn as [? _]; congruence).
  all: apply lookup_delete_None in Hn as [?|?]; [eauto|congruence].
Qed.

Lemma told_step own P P' : pool_ok own P → told P → step P P' → told P'.
Proof.
  intros Hok [Hen Hrm] Hs. pose proof (announced_mono own P P') as Hmono.
  destruct Hs as [v caps ls caps' ls' ts f Har|v caps ls ts1 f ts2
    |v caps ls ts1 f ts2 Hd|v caps ls ts l']; simpl in *.
  - specialize (λ ev, Hmono ev Hok (SArrive _ _ _ _ _ _ _ Har)). split; simpl.
    + intros c e Hc. destruct (Hen c e Hc) as (ev & ? & ?). eauto.
    + intros ev [?|[an [E|?]%elem_of_cons]] Hty Hn.
      * destruct (Hrm ev) as (ev' & ? & ?); [by left|done|done|eauto].
      * exfalso. destruct Har; simplify_eq/=. revert E. unfold start_register. by destruct (negb _).
      * destruct (Hrm ev) as (ev' & ? & ?); [right; by exists an|done|done|eauto].
  - specialize (λ ev, Hmono ev Hok (SRun _ _ _ _ _ _)).
    pose proof (λ ev, announced_new _ _ _ _ _ _ _ ev Hok) as Hnew.
    destruct (po_step_run _ _ _ _ _ _ _ Hok) as [Heff _].
    destruct (fstep v f) as [v' f'] eqn:Ef. simpl in *. split; simpl.
    + intros c e Hc. destruct (effect_entry _ _ _ _ _ _ Heff Hc) as [H0|(ty & an & -> & _ & Hk)].
      * destruct (Hen c e H0) as (ev & ? & ?). eauto.
      * exists {| ev_type := ty; ev_entry := e |}. split_and!; [right; exists an; set_solver| |done].
        simpl. naive_solver lia.
    + intros ev Ha Hty Hn.
      destruct (ents v !! re_capability_id (ev_entry ev)) as [e0|] eqn:E0.
      * destruct (effect_removed _ _ _ _ _ Heff ltac:(eauto) Hn) as (e & an & -> & Hc).
        exists {| ev_type := 1; ev_entry := e |}. split_and!; [right; exists an; set_solver|done|done].
      * destruct (Hnew ev Ha) as [Hold|[an ->]].
        { destruct (Hrm ev Hold Hty E0) as (ev' & ? & ?). eauto. }
        exfalso. rewrite Hty in Heff.
        destruct f; simpl in Heff; destruct Heff as [E1 E]; try (simpl in Ef; congruence);
          (destruct E as [[? _]|[(_ & _ & E)|[? _]]]; [done| |done]);
          rewrite E, lookup_insert_eq in Hn; done.
  - specialize (λ ev, Hmono ev Hok (SDrop _ _ _ _ _ _ Hd)). split; simpl.
    + intros c e Hc. destruct (Hen c e Hc) as (ev & ? & ?). eauto.
    + intros ev Ha Hty Hn. destruct (Hrm ev) as (ev' & ? & ?); [|done|done|eauto].
      destruct Ha as [?|[an ?]]; [by left|right]. exists an. simpl in *. set_solver.
  - split; [exact Hen|exact Hrm].
Qed.

(** ** Replay, where the calls on a capability do not overlap *)

Definition event_of (f : Frame) : list RegistryChangedEvent :=
  match f with FSend ty e _ => [{| ev_type := ty; ev_entry := e |}] | _ => [] end.

(** What the log and the event in hand of [f] say of [c] is what the registry
    holds, and an update in flight finds its entry. *)
Definition in_step (c : string) v (f : Frame) : Prop :=
  foldl apply_event (replay (rv_event_tx v)) (event_of f) !! c = ents v !! c ∧
  match f with
  | FRenew r _ _ => rq_capability_id r = c → is_Some (ents v !! c)
  | FUpdate e _ => re_capability_id e = c → is_Some (ents v !! c)
  | _ => True
  end.

Lemma in_step_away c v f : cap_of f ≠ Some c → in_step c v f ↔ in_step c v (FDone AReclaimed).
Proof.
  intros Hc. unfold in_step. destruct f as [?|?|?|?|?|?|?|ty e an|?]; simpl in *; try naive_solver.
  assert (re_capability_id e ≠ c) by congruence. unfold apply_event at 1. simpl.
  case_decide; rewrite ?lookup_delete_ne, ?lookup_insert_ne by done; done.
Qed.

Lemma apply_event_at ty e m c :
  apply_event m {| ev_type := ty; ev_entry := e |} !! c =
    if decide (re_capability_id e = c) then (if decide (ty = 1%Z) then None else Some e)
    else m !! c.
Proof.
  unfold apply_event. simpl. destruct (decide (re_capability_id e = c)) as [<-|];
    case_decide; rewrite ?lookup_delete_eq, ?lookup_insert_eq, ?lookup_delete_ne,
      ?lookup_insert_ne by done; done.
Qed.

(** The step of a call keeps its own account. *)
Lemma in_step_run own v caps ls ts1 f ts2 c :
  pool_ok own (mkPool v caps ls (ts1 ++ f :: ts2)) → in_step c v f →
  in_step c (fstep v f).1 (fstep v f).2.
Proof.
  intros Hok [Hrep Hlive]. destruct (po_step_run _ _ _ _ _ _ _ Hok) as [Heff _].
  destruct (rg_inv_wf _ (po_inv _ _ Hok)) as [Hkey _]. simpl in Hkey.
  destruct f as [r env|r env ex|e an|cap env r|e an|r|l|ty e an|an]; unfold in_step; simpl in *.
  - unfold get in *. rewrite rg_get_law in *.
    destruct (ents v !! rq_capability_id r) as [ex|] eqn:E; [|done].
    destruct (check_owner _ _) as [[]|]; [|done]. simpl. split; [done|]. intros <-. eauto.
  - destruct (lg_renew _ _ _ _) as [l' [lease|er]]; [|done]. destruct (_ || _); done.
  - destruct (update _ _) as [s' [o|er]]; simpl in *; destruct Heff as [Htx Heff]; [|by rewrite Heff].
    split; [|done]. destruct Heff as [[? _]|[[? _]|(_ & _ & ->)]]; [done..|].
    rewrite apply_event_at. case_decide as Hc; simpl.
    + subst c. destruct (Hlive eq_refl) as [e0 ->]. by rewrite lookup_insert_eq.
    + rewrite Hrep. destruct (ents v !! re_capability_id e); [|done]. by rewrite lookup_insert_ne.
  - destruct (lg_grant _ _ _ _) as [l' [lease|er]]; done.
  - destruct (register _ _) as [s' [o|er]]; simpl in *; destruct Heff as [Htx Heff]; [|by rewrite Heff].
    split; [|done]. destruct Heff as [[? _]|[(_ & _ & ->)|[? _]]]; [done| |done].
    rewrite apply_event_at. case_decide as Hc; simpl.
    + subst c. by rewrite lookup_insert_eq.
    + by rewrite Hrep, lookup_insert_ne.
  - unfold get in *. rewrite rg_get_law in *.
    destruct (ents v !! mq_capability_id r) as [ex|] eqn:E; [|done].
    destruct (check_owner _ _) as [[]|]; [|done]. simpl. split; [done|].
    rewrite (Hkey _ _ E). intros <-. eauto.
  - destruct (unregister_by_lease _ _) as [s' [[e|]|er]]; simpl in *; destruct Heff as [Htx Heff];
      [|by rewrite Heff..].
    split; [|done]. destruct Heff as [(_ & _ & ->)|[[? _]|[? _]]]; [|done..].
    rewrite apply_event_at. case_decide as Hc; simpl.
    + subst c. by rewrite lookup_delete_eq.
    + by rewrite Hrep, lookup_delete_ne.
  - split; [|done]. by rewrite replay_snoc.
  - done.
Qed.

(** A step that neither comes from nor leads to [c] does not touch it. *)
Lemma effect_away c v f v' f' :
  effect v f v' f' → cap_of f ≠ Some c → cap_of f' ≠ Some c →
  ents v' !! c = ents v !! c ∧ replay (rv_event_tx v') !! c = replay (rv_event_tx v) !! c.
Proof.
  intros He Hf Hf'. destruct f as [?|?|?|?|?|?|?|ty e an|?]; simpl in He; destruct He as [E1 E];
    try (rewrite E1; split; [|done];
      destruct f' as [?|?|?|?|?|?|?|ty' e' an'|?]; try (by rewrite E);
      simpl in Hf'; assert (re_capability_id e' ≠ c) by congruence;
      destruct E as [(_ & _ & ->)|[(_ & _ & ->)|(_ & _ & ->)]];
      try destruct (ents v !! re_capability_id e');
      rewrite ?lookup_delete_ne, ?lookup_insert_ne by done; done).
  rewrite E1, E, replay_snoc. split; [done|]. simpl in Hf.
  rewrite apply_event_at, decide_False by congruence. done.
Qed.

Definition followed (c : string) (P : Pool) : Prop :=
  (∀ f, f ∈ pl_tasks P → cap_of f = Some c → in_step c (pl_service P) f) ∧
  (Forall (λ f, cap_of f ≠ Some c) (pl_tasks P) →
     replay (rv_event_tx (pl_service P)) !! c = ents (pl_service P) !! c).

Lemma followed_run (ser : string → Prop) own v caps ls ts1 f ts2 c :
  ser c → pool_ok own (mkPool v caps ls (ts1 ++ f :: ts2)) →
  alone ser (ts1 ++ f :: ts2) → alone ser (ts1 ++ (fstep v f).2 :: ts2) →
  followed c (mkPool v caps ls (ts1 ++ f :: ts2)) →
  followed c (mkPool (fstep v f).1 caps ls (ts1 ++ (fstep v f).2 :: ts2)).
Proof.
  intros Hc Hok Hal Hal' [Hon Hoff]. simpl in *.
  destruct (po_step_run _ _ _ _ _ _ _ Hok) as [Heff _].
  assert (Hj : Forall (λ g, cap_of g ≠ Some c) (ts1 ++ ts2) → in_step c v f).
  { intros Hrest. destruct (decide (cap_of f = Some c)) as [Hf|Hf]; [apply Hon; [set_solver|done]|].
    apply in_step_away; [done|]. split; [|done]. simpl. apply Hoff.
    apply Forall_app in Hrest as [? ?]. apply Forall_app. by split; [|constructor]. }
  assert (Hj' : Forall (λ g, cap_of g ≠ Some c) (ts1 ++ ts2) → in_step c (fstep v f).1 (fstep v f).2)
    by (intros; eapply in_step_run; eauto).
  split; simpl.
  - intros g Hg Hgc. destruct (decide (cap_of (fstep v f).2 = Some c)) as [Hf'|Hf'].
    { pose proof (Hal' c ts1 _ ts2 Hc eq_refl Hf') as Hrest.
      apply elem_of_app in Hg as [Hg|[->|Hg]%elem_of_cons]; [| |].
      - by eapply Forall_forall in Hrest; [|apply elem_of_app; left; exact Hg].
      - by apply Hj'.
      - by eapply Forall_forall in Hrest; [|apply elem_of_app; right; exact Hg]. }
    assert (Hg0 : g ∈ ts1 ∨ g ∈ ts2).
    { apply elem_of_app in Hg as [?|[->|?]%elem_of_cons]; [by left|done|by right]. }
    assert (Hf : cap_of f ≠ Some c).
    { intros Hf. pose proof (Hal c ts1 _ ts2 Hc eq_refl Hf) as Hrest.
      by eapply Forall_forall in Hrest; [|apply elem_of_app; exact Hg0]. }
    destruct (effect_away c _ _ _ _ Heff Hf Hf') as [E1 E2].
    destruct (Hon g) as [Hr Hl]; [set_solver|done|]. split.
    + rewrite E1, <- Hr. destruct g as [?|?|?|?|?|?|?|ty e an|?]; simpl; try done.
      rewrite !apply_event_at. by case_decide.
    + rewrite E1. done.
  - intros [Ha [Hf' Hb]%Forall_cons]%Forall_app.
    assert (Hrest : Forall (λ g, cap_of g ≠ Some c) (ts1 ++ ts2)) by (by apply Forall_app).
    apply Hj' in Hrest. by apply in_step_away in Hrest as [Hx _].
Qed.

Lemma followed_step (ser : string → Prop) own P P' c :
  ser c → pool_ok own P → alone ser (pl_tasks P) → alone ser (pl_tasks P') → step P P' →
  followed c P → followed c P'.
Proof.
  intros Hc Hok Hal Hal' Hs Hf. destruct Hs as [v caps ls caps' ls' ts f Har|v caps ls ts1 f ts2
    |v caps ls ts1 f ts2 Hd|v caps ls ts l']; simpl in *.
  - destruct Hf as [Hon Hoff]. split; simpl in *.
    + intros g [->|Hg]%elem_of_cons Hgc; [|auto].
      pose proof (Hal' c [] f ts Hc eq_refl Hgc) as Hrest. simpl in Hrest. split.
      * rewrite <- (Hoff Hrest). destruct Har; simpl; try done.
        unfold start_register. by destruct (negb _).
      * destruct Har; simpl; try done. unfold start_register. by destruct (negb _).
    + intros [_ ?]%Forall_cons. auto.
  - by eapply followed_run.
  - destruct Hf as [Hon Hoff]. simpl in *. split; simpl.
    + intros g Hg. apply Hon. set_solver.
    + intros Hrest. destruct (decide (cap_of f = Some c)) as [Hfc|Hfc].
      * destruct (Hon f) as [Hr _]; [set_solver|done|]. by destruct f.
      * apply Hoff. apply Forall_app in Hrest as [? ?]. apply Forall_app. by split; [|constructor].
  - done.
Qed.

Lemma reach_alone ser P : reach ser P → alone ser (pl_tasks P).
Proof. destruct 1; [|done]. intros c [|g ts1] f ts2 _ E; done. Qed.

Lemma pool_reach_ok ser P :
  reach ser P → (∃ own, pool_ok own P) ∧ told P ∧ ∀ c, ser c → followed c P.
Proof.
  induction 1 as [v Hinv He Htx|P P' Hr ([own Hok] & Htd & Hfl) Hs Hal].
  - split_and!.
    + exists ∅. split; simpl; try done; try constructor; rewrite ?He; intros *; rewrite ?lookup_empty; done.
    + split; simpl; [intros c e; by rewrite He, lookup_empty|].
      intros ev [Hin|[an Hin]]; simpl in Hin; [rewrite Htx in Hin|]; by apply not_elem_of_nil in Hin.
    + intros c _. split; simpl; [by intros f ?%not_elem_of_nil|]. by rewrite He, Htx.
  - split_and!; [by eapply po_step|by eapply told_step|].
    intros c Hc. eapply followed_step; eauto. by apply reach_alone.
Qed.

(** C15: The change events tell the registry, with the handlers interleaved at
    every await and dropped at any.  In every execution each entry of the registry
    was announced as it stands and each registration that is gone was announced as
    gone, by an event that was sent or that the call that made the change is about
    to send; and for every capability on which calls did not overlap, whatever the
    calls on other capabilities did, replaying the events gives exactly its entry
    once no call on it is in flight. *)
Theorem change_log_replays_registry ser P :
  reach ser P →
  (∀ c e, ents (pl_service P) !! c = Some e →
     ∃ ev, announced P ev ∧ ev_type ev ≠ 1%Z ∧ ev_entry ev = e) ∧
  (∀ ev, announced P ev → ev_type ev = 0%Z →
     ents (pl_service P) !! re_capability_id (ev_entry ev) = None →
     ∃ ev', announced P ev' ∧ ev_type ev' = 1%Z ∧
            re_capability_id (ev_entry ev') = re_capability_id (ev_entry ev)) ∧
  (∀ c, ser c → Forall (λ f, cap_of f ≠ Some c) (pl_tasks P) →
     replay (rv_event_tx (pl_service P)) !! c = ents (pl_service P) !! c).
Proof.
  intros (_ & [Hen Hrm] & Hfl)%pool_reach_ok. split_and!; [done|done|].
  intros c Hc Hidle. by apply (Hfl c Hc).
Qed.

(** ** Running a pool *)

(** The call at position [i] resumes. *)
Definition turn (P : Pool) (i : nat) : Pool :=
  match pl_tasks P !! i with
  | Some f => mkPool (fstep (pl_service P) f).1 (pl_caps P) (pl_leases P)
                (<[i := (fstep (pl_service P) f).2]> (pl_tasks P))
  | None => P
  end.

Lemma turn_step P i : P = turn P i ∨ step P (turn P i).
Proof.
  unfold turn. destruct (pl_tasks P !! i) as [f|] eqn:E; [right|by left].
  destruct P as [v caps ls ts]. simpl in *.
  rewrite (insert_take_drop _ _ _ (lookup_lt_Some _ _ _ E)).
  rewrite <- (take_drop_middle _ _ _ E) at 1. apply SRun.
Qed.

Lemma distinct_alone ser ts : NoDup (omap cap_of ts) → alone ser ts.
Proof.
  intros Hnd c ts1 f ts2 _ -> Hf. rewrite omap_app in Hnd. simpl in Hnd. rewrite Hf in Hnd.
  rewrite <- Permutation_middle in Hnd. apply NoDup_cons in Hnd as [Hn _].
  rewrite <- omap_app in Hn. apply Forall_forall. intros g Hg E. apply Hn, list_elem_of_omap. eauto.
Qed.

(** No two calls on one capability along the way. *)
Fixpoint serial_turns (P : Pool) (ns : list nat) : bool :=
  match ns with
  | [] => true
  | i :: ns => bool_decide (NoDup (omap cap_of (pl_tasks (turn P i)))) && serial_turns (turn P i) ns
  end.

Lemma reach_turns ser P ns :
  reach ser P → serial_turns P ns = true → reach ser (foldl turn P ns).
Proof.
  revert P. induction ns as [|i ns IH]; intros P Hr Hs; [done|].
  simpl in Hs. apply andb_true_iff in Hs as [Hd Hs]. apply bool_decide_eq_true in Hd.
  simpl. apply IH; [|done]. destruct (turn_step P i) as [<-|Hst]; [done|].
  eapply ReachStep; [done|done|by apply distinct_alone].
Qed.

(** Overlap allowed. *)
Lemma reach_turns_free P ns :
  reach (λ _, False) P → reach (λ _, False) (foldl turn P ns).
Proof.
  revert P. induction ns as [|i ns IH]; intros P Hr; [done|]. simpl. apply IH.
  destruct (turn_step P i) as [<-|Hst]; [done|]. eapply ReachStep; [done|done|]. by intros c.
Qed.
End race.
Arguments Pool : clear implicits.
Arguments mkPool {S L} _ _ _ _.
Arguments pl_service {S L} _.
Arguments pl_caps {S L} _.
Arguments pl_leases {S L} _.
Arguments pl_tasks {S L} _.

(** ** Two registrations that overlap, and a reclaim that overtakes a change *)
Section samples.
#[local] Existing Instance chrono_sample.
#[local] Existing Instance canonical_iter.

Abbreviation LocalPool := (Pool InMemoryRegistryStore (LeaseManager InMemoryLeaseStore)).

Definition env_of (u : string) : Env := {| now := 0; now2 := 1; uuid := u |}.

Definition two_arrived : LocalPool :=
  mkPool sample_empty ({["cap-2"]} ∪ ({["cap-1"]} ∪ ∅)) ({["lease-2"]} ∪ ({["lease-1"]} ∪ ∅))
    [start_register "cap-2" (env_of "lease-2") sample_request;
     start_register "cap-1" (env_of "lease-1") sample_request].

Lemma two_arrived_reach ser : reach ser two_arrived.
Proof.
  eapply ReachStep; [eapply ReachStep; [apply (ReachInit ser sample_empty)| |]| |].
  - apply store_inv_new.
  - reflexivity.
  - reflexivity.
  - apply SArrive, (ArRegister _ _ "cap-1" (env_of "lease-1") sample_request); set_solver.
  - apply distinct_alone. vm_compute. apply NoDup_singleton.
  - apply SArrive, (ArRegister _ _ "cap-2" (env_of "lease-2") sample_request); set_solver.
  - apply distinct_alone. apply (bool_decide_unpack _). vm_compute. exact Logic.I.
Qed.

(** The grants, writes and events of the two registrations alternate. *)
Definition two_registered : LocalPool := foldl turn two_arrived [0; 1; 1; 0; 0; 1].

Theorem change_log_replays_registry_witness :
  replay (rv_event_tx (pl_service two_registered)) !! "cap-1" =
    Some (mkEntry "cap-1" "lease-1" "Greeter" {["lang" := "en"; "zone" := "a"]}
            (Some {| tc_type := "grpc"; tc_config := {["host" := "h"]} |})).
Proof.
  assert (Hr : reach (λ _, True) two_registered).
  { apply reach_turns; [apply two_arrived_reach|]. vm_compute. reflexivity. }
  destruct (change_log_replays_registry (λ _, True) two_registered Hr) as (_ & _ & Hrep).
  rewrite (Hrep "cap-1" Logic.I); [vm_compute; reflexivity|].
  vm_compute. repeat constructor; discriminate.
Defined.

(** One entry registered; then an attribute change and the reclaim of the entry's
    lease are in flight together, the reclaim between the read and the write-back
    of the change. *)
Definition one_registered : LocalPool :=
  foldl turn (mkPool sample_empty ({["cap-1"]} ∪ ∅) ({["lease-1"]} ∪ ∅)
                [start_register "cap-1" (env_of "lease-1") sample_request]) [0; 0; 0].

Definition overtaken : LocalPool :=
  foldl turn
    (mkPool (pl_service one_registered) (pl_caps one_registered) (pl_leases one_registered)
       (FReclaim "lease-1" :: FModGet sample_modify :: pl_tasks one_registered))
    [1; 0; 0; 1; 1].

Lemma overtaken_reach : reach (λ _, False) overtaken.
Proof.
  assert (H1 : reach (λ _, False) one_registered).
  { apply reach_turns_free. eapply ReachStep; [apply (ReachInit _ sample_empty)| |by intros c].
    - apply store_inv_new.
    - reflexivity.
    - reflexivity.
    - apply SArrive, (ArRegister _ _ "cap-1" (env_of "lease-1") sample_request); set_solver. }
  apply reach_turns_free. destruct one_registered as [v caps ls ts].
  eapply ReachStep; [eapply ReachStep; [exact H1| |by intros c]| |by intros c];
    apply SArrive; constructor.
Qed.

(** The handlers ignore that [update] found nothing: a reclaim between the read
    of an entry and its write-back leaves watchers with a MODIFIED event after the
    UNREGISTERED one, so that what they rebuild has an entry the registry no
    longer has, and the caller is answered as if the change had been made. *)
Theorem phantom_modified :
  reach (λ _, False) overtaken ∧
  rg_entries (rv_store (pl_service overtaken)) !! "cap-1" = None ∧
  (ev_type <$> rv_event_tx (pl_service overtaken)) = [0; 1; 2]%Z ∧
  is_Some (replay (rv_event_tx (pl_service overtaken)) !! "cap-1") ∧
  ∃ cp res, pl_tasks overtaken =
    [FDone AReclaimed; FDone (AModified (Ok cp)); FDone (ARegistered (Ok res))].
Proof.
  split_and!; [exact overtaken_reach|vm_compute; reflexivity|vm_compute; reflexivity|vm_compute; eauto|].
  eexists _, _. vm_compute. reflexivity.
Qed.
End samples.
