(* ===== verification/TxnStore.v ===== *)
(** * Transactions and the in-memory transaction store
    ([coordin8-core/src/txn.rs], [providers/local/src/txn_store.rs])

    Each operation holds the [DashMap] entry of the transaction while it reads
    and writes it, so the compare-and-set and the guarded append are atomic. *)

From S2P Require Import Prelude CoreTypes.

Inductive TransactionState := Active | Voting | Prepared | Committed | Aborted.

#[global] Instance TransactionState_eq_dec : EqDecision TransactionState.
Proof. solve_decision. Defined.

Inductive PrepareVote := VPrepared | VNotChanged | VAborted.

#[global] Instance PrepareVote_eq_dec : EqDecision PrepareVote.
Proof. solve_decision. Defined.

Record ParticipantRecord := { pt_endpoint : string; pt_crash_count : Z }.

#[global] Instance ParticipantRecord_eq_dec : EqDecision ParticipantRecord.
Proof. solve_decision. Defined.

Record TransactionRecord := mkTxn {
  tx_txn_id : string;
  tx_lease_id : string;
  tx_state : TransactionState;
  tx_participants : list ParticipantRecord;
  tx_begun_at : Z
}.

#[global] Instance TransactionRecord_eq_dec : EqDecision TransactionRecord.
Proof. solve_decision. Defined.

Definition with_state (r : TransactionRecord) (st : TransactionState) : TransactionRecord :=
  mkTxn (tx_txn_id r) (tx_lease_id r) st (tx_participants r) (tx_begun_at r).

Definition push_participant (r : TransactionRecord) (p : ParticipantRecord)
  : TransactionRecord :=
  mkTxn (tx_txn_id r) (tx_lease_id r) (tx_state r) (tx_participants r ++ [p]) (tx_begun_at r).

(** ** The [TxnStore] trait *)
Class TxnStore (S : Type) := {
  ts_create : S → TransactionRecord → S * result unit Error;
  ts_get : S → string → result (option TransactionRecord) Error;
  ts_update_state : S → string → TransactionState → S * result unit Error;
  ts_update_state_if :
    S → string → TransactionState → TransactionState → S * result bool Error;
  ts_add_participant : S → string → ParticipantRecord → S * result unit Error;
  ts_remove : S → string → S * result unit Error;
  ts_list_all : S → result (list TransactionRecord) Error
}.

Abbreviation txn_map := (gmap string TransactionRecord).

Class TxnStoreView (S : Type) := ts_view : S → txn_map.

Class TxnStoreLaws (S : Type) `{TxnStore S, TxnStoreView S} : Prop := {
  ts_create_law : ∀ s r,
    let '(s', res) := ts_create s r in
    res = Ok () ∧ ts_view s' = <[tx_txn_id r := r]> (ts_view s);
  ts_get_law : ∀ s id, ts_get s id = Ok (ts_view s !! id);
  ts_update_state_law : ∀ s id st,
    let '(s', res) := ts_update_state s id st in
    match ts_view s !! id with
    | Some r => res = Ok () ∧ ts_view s' = <[id := with_state r st]> (ts_view s)
    | None => res = Err (TransactionNotFound id) ∧ ts_view s' = ts_view s
    end;
  ts_cas_law : ∀ s id expected new_state,
    let '(s', res) := ts_update_state_if s id expected new_state in
    match ts_view s !! id with
    | Some r =>
        if decide (tx_state r = expected)
        then res = Ok true ∧ ts_view s' = <[id := with_state r new_state]> (ts_view s)
        else res = Ok false ∧ ts_view s' = ts_view s
    | None => res = Err (TransactionNotFound id) ∧ ts_view s' = ts_view s
    end;
  ts_add_law : ∀ s id p,
    let '(s', res) := ts_add_participant s id p in
    match ts_view s !! id with
    | Some r =>
        if decide (tx_state r = Active)
        then res = Ok () ∧ ts_view s' = <[id := push_participant r p]> (ts_view s)
        else res = Err (TransactionTerminal id) ∧ ts_view s' = ts_view s
    | None => res = Err (TransactionNotFound id) ∧ ts_view s' = ts_view s
    end;
  ts_remove_law : ∀ s id,
    let '(s', res) := ts_remove s id in
    res = Ok () ∧ ts_view s' = delete id (ts_view s);
  ts_list_all_law : ∀ s,
    ∃ l, ts_list_all s = Ok l ∧ l ≡ₚ (map_to_list (ts_view s)).*2
}.

(** Crash counts are [u64]. *)
Definition participants_u64 (r : TransactionRecord) : Prop :=
  Forall (λ p, is_u64 (pt_crash_count p)) (tx_participants r).

(** What a store promises whatever fails beneath it, in the states [ok]. *)
Class TxnStoreSafe (S : Type) `{TxnStore S, TxnStoreView S} (ok : S → Prop) : Prop := {
  tsafe_create : ∀ s r, ok s → participants_u64 r →
    let '(s', res) := ts_create s r in
    ok s' ∧ effect res (ts_view s' = ts_view s) (ts_view s' = <[tx_txn_id r := r]> (ts_view s));
  tsafe_update_state : ∀ s id st, ok s →
    let '(s', res) := ts_update_state s id st in
    ok s' ∧ effect res (ts_view s' = ts_view s)
      (∃ r, ts_view s !! id = Some r ∧ ts_view s' = <[id := with_state r st]> (ts_view s));
  tsafe_cas : ∀ s id expected new_state, ok s →
    let '(s', res) := ts_update_state_if s id expected new_state in
    let made := ∃ r, ts_view s !! id = Some r ∧ tx_state r = expected ∧
      ts_view s' = <[id := with_state r new_state]> (ts_view s) in
    ok s' ∧ match res with
            | Ok true => made
            | Ok false => ts_view s' = ts_view s
            | Err _ => ts_view s' = ts_view s ∨ made
            end;
  tsafe_add : ∀ s id p, ok s → is_u64 (pt_crash_count p) →
    let '(s', res) := ts_add_participant s id p in
    ok s' ∧ effect res (ts_view s' = ts_view s)
      (∃ r, ts_view s !! id = Some r ∧ tx_state r = Active ∧
         ts_view s' = <[id := push_participant r p]> (ts_view s));
  tsafe_remove : ∀ s id, ok s →
    let '(s', res) := ts_remove s id in
    ok s' ∧ effect res (ts_view s' = ts_view s) (ts_view s' = delete id (ts_view s))
}.

#[global] Instance TxnStoreLaws_safe (S : Type) `{TxnStoreLaws S} : TxnStoreSafe S (λ _, True).
Proof.
  split.
  - intros s r _ _. pose proof (ts_create_law s r) as Hl. destruct (ts_create s r).
    by destruct Hl as [-> Hl].
  - intros s id st _. pose proof (ts_update_state_law s id st) as Hl. destruct (ts_update_state s id st).
    destruct (ts_view s !! id); destruct Hl as [-> Hl]; cbn; eauto 8.
  - intros s id e n _. pose proof (ts_cas_law s id e n) as Hl. destruct (ts_update_state_if s id e n).
    destruct (ts_view s !! id); [case_decide|]; destruct Hl as [-> Hl]; cbn; eauto 8.
  - intros s id p _ _. pose proof (ts_add_law s id p) as Hl. destruct (ts_add_participant s id p).
    destruct (ts_view s !! id); [case_decide|]; destruct Hl as [-> Hl]; cbn; eauto 8.
  - intros s id _. pose proof (ts_remove_law s id) as Hl. destruct (ts_remove s id).
    by destruct Hl as [-> Hl].
Qed.

(** ** [InMemoryTxnStore] *)
Record InMemoryTxnStore := { records : gmap string TransactionRecord }.

Definition new : InMemoryTxnStore := {| records := ∅ |}.

Definition create (s : InMemoryTxnStore) (record : TransactionRecord)
  : InMemoryTxnStore * result unit Error :=
  ({| records := <[tx_txn_id record := record]> (records s) |}, Ok ()).

Definition get (s : InMemoryTxnStore) (txn_id : string)
  : result (option TransactionRecord) Error :=
  Ok (records s !! txn_id).

Definition update_state (s : InMemoryTxnStore) (txn_id : string) (state : TransactionState)
  : InMemoryTxnStore * result unit Error :=
  match records s !! txn_id with
  | Some r => ({| records := <[txn_id := with_state r state]> (records s) |}, Ok ())
  | None => (s, Err (TransactionNotFound txn_id))
  end.

Definition update_state_if (s : InMemoryTxnStore) (txn_id : string)
    (expected new_state : TransactionState) : InMemoryTxnStore * result bool Error :=
  match records s !! txn_id with
  | Some r =>
      if bool_decide (tx_state r = expected) then
        ({| records := <[txn_id := with_state r new_state]> (records s) |}, Ok true)
      else (s, Ok false)
  | None => (s, Err (TransactionNotFound txn_id))
  end.

Definition add_participant (s : InMemoryTxnStore) (txn_id : string)
    (participant : ParticipantRecord) : InMemoryTxnStore * result unit Error :=
  match records s !! txn_id with
  | Some r =>
      if negb (bool_decide (tx_state r = Active)) then (s, Err (TransactionTerminal txn_id))
      else ({| records := <[txn_id := push_participant r participant]> (records s) |}, Ok ())
  | None => (s, Err (TransactionNotFound txn_id))
  end.

Definition remove (s : InMemoryTxnStore) (txn_id : string)
  : InMemoryTxnStore * result unit Error :=
  ({| records := delete txn_id (records s) |}, Ok ()).

Section list_all.
Context {I : MapIter}.

Definition list_all (s : InMemoryTxnStore) : result (list TransactionRecord) Error :=
  Ok (map_values (records s)).

#[global] Instance InMemoryTxnStore_store : TxnStore InMemoryTxnStore := {|
  ts_create := create;
  ts_get := get;
  ts_update_state := update_state;
  ts_update_state_if := update_state_if;
  ts_add_participant := add_participant;
  ts_remove := remove;
  ts_list_all := list_all
|}.

#[global] Instance InMemoryTxnStore_view : TxnStoreView InMemoryTxnStore := records.

#[global] Instance InMemoryTxnStore_laws : TxnStoreLaws InMemoryTxnStore.
Proof.
  split; intros; simpl; unfold ts_view, InMemoryTxnStore_view; try done.
  - unfold update_state. by destruct (records s !! id).
  - unfold update_state_if. destruct (records s !! id); [|done].
    case_bool_decide; by case_decide.
  - unfold add_participant. destruct (records s !! id); [|done].
    case_bool_decide; by case_decide.
  - eexists; split; [done|]. apply map_values_perm.
Qed.
End list_all.

(** The in-memory transaction store implements the [TxnStore]
    contract: compare-and-set changes the state exactly when it is the expected
    one, participants are appended exactly while the transaction is Active, and
    a missing transaction is reported without any change. *)
Theorem in_memory_txn_store_refines {I : MapIter} : TxnStoreLaws InMemoryTxnStore.
Proof. exact InMemoryTxnStore_laws. Qed.
