(* ===== verification/TxnManager.v ===== *)
(** * The transaction manager ([coordin8-txn/src/manager.rs])

    Every handler is a program over the atomic actions the source awaits: store
    calls, lease calls and participant RPCs.  One definition of [commit], [abort],
    [abort_expired], [enlist] and [begin_txn] serves both readings: [run] executes
    a handler alone, and [TxnProtocol] interleaves any number of them.  A batch
    of RPCs joined with [join_all] is one action that yields the outcomes in
    order. *)

From S2P Require Import Prelude CoreTypes LeaseCore TxnStore.

(** ** Participant RPCs *)

(** What the network did with a call: the address did not parse, the connection
    or the call failed, or the participant answered. *)
Inductive RpcOutcome :=
| BadEndpoint (why : string)
| ConnectFailed (why : string)
| RpcFailed (why : string)
| Answer (vote : Z).

Inductive RpcKind := KPrepare | KCommit | KAbort | KPrepareAndCommit.

#[global] Instance RpcKind_eq_dec : EqDecision RpcKind.
Proof. solve_decision. Defined.

#[global] Instance RpcOutcome_eq_dec : EqDecision RpcOutcome.
Proof. solve_decision. Defined.

Definition rpc_name (k : RpcKind) : string :=
  match k with
  | KPrepare => "prepare"
  | KCommit => "commit"
  | KAbort => "abort"
  | KPrepareAndCommit => "prepare_and_commit"
  end.

(** Fail safe: only recognised values are committable votes. *)
Definition vote_from_i32 (v : Z) : PrepareVote :=
  if (v =? 0)%Z then VPrepared else if (v =? 1)%Z then VNotChanged else VAborted.

(** The error handling the four [call_*] helpers share. *)
Definition call_rpc (k : RpcKind) (endpoint : string) (o : RpcOutcome) : result Z Error :=
  match o with
  | BadEndpoint e => Err (Internal ("invalid endpoint '" +:+ endpoint +:+ "': " +:+ e))
  | ConnectFailed e => Err (Internal ("connect to " +:+ endpoint +:+ " failed: " +:+ e))
  | RpcFailed e =>
      Err (Internal (rpc_name k +:+ " rpc to " +:+ endpoint +:+ " failed: " +:+ e))
  | Answer v => Ok v
  end.

Definition call_prepare (endpoint : string) (o : RpcOutcome) : result PrepareVote Error :=
  rmap vote_from_i32 (call_rpc KPrepare endpoint o).
Definition call_commit (endpoint : string) (o : RpcOutcome) : result unit Error :=
  rmap (λ _, ()) (call_rpc KCommit endpoint o).
Definition call_abort (endpoint : string) (o : RpcOutcome) : result unit Error :=
  rmap (λ _, ()) (call_rpc KAbort endpoint o).
Definition call_prepare_and_commit (endpoint : string) (o : RpcOutcome)
  : result PrepareVote Error :=
  rmap vote_from_i32 (call_rpc KPrepareAndCommit endpoint o).

(** ** Atomic actions and programs *)
Inductive Act : Type → Type :=
| ACreate (r : TransactionRecord) : Act (result unit Error)
| AGet (txn_id : string) : Act (result (option TransactionRecord) Error)
| ACas (txn_id : string) (expected new_state : TransactionState) : Act (result bool Error)
| AAdd (txn_id : string) (p : ParticipantRecord) : Act (result unit Error)
| AGrant (env : Env) (resource_id : string) (ttl : Z) : Act (result LeaseRecord Error)
| ACancel (lease_id : string) : Act (result unit Error)
| ACalls (k : RpcKind) (txn_id : string) (endpoints : list string) : Act (list RpcOutcome).

Inductive prog (A : Type) : Type :=
| Ret (a : A)
| Do {X : Type} (a : Act X) (k : X → prog A).
Arguments Ret {A} a.
Arguments Do {A X} a k.

Notation "'await' x ':=' a 'in' k" := (Do a (λ x, k))
  (at level 10, x pattern, a at level 100, k at level 200) : djinn_scope.

Section handlers.
(** [ParticipantAllowlist::check]. *)
Context (allow : string → result unit Error).

Definition begin_txn (txn_id : string) (env : Env) (ttl_secs : Z)
  : prog (result (string * LeaseRecord) Error) :=
  await granted := AGrant env ("txn:" +:+ txn_id) ttl_secs in
  match granted with
  | Err e => Ret (Err e)
  | Ok lease =>
      let record := mkTxn txn_id (lr_lease_id lease) Active [] (now2 env) in
      await created := ACreate record in
      match created with
      | Err e => Ret (Err e)
      | Ok _ => Ret (Ok (txn_id, lease))
      end
  end.

Definition enlist (txn_id endpoint : string) (crash_count : Z) : prog (result unit Error) :=
  match allow endpoint with
  | Err e => Ret (Err e)
  | Ok _ =>
      await added := AAdd txn_id {| pt_endpoint := endpoint; pt_crash_count := crash_count |} in
      Ret added
  end.

(** [fetch], followed by the continuation on the record. *)
Definition fetch {A} (txn_id : string) (k : TransactionRecord → prog (result A Error))
  : prog (result A Error) :=
  await got := AGet txn_id in
  match got with
  | Err e => Ret (Err e)
  | Ok None => Ret (Err (TransactionNotFound txn_id))
  | Ok (Some r) => k r
  end.

Definition get_state (txn_id : string) : prog (result TransactionState Error) :=
  fetch txn_id (λ r, Ret (Ok (tx_state r))).

(** [do_abort_participants]: failures are only logged. *)
Definition do_abort_participants {A} (txn_id : string) (ps : list ParticipantRecord)
    (k : prog A) : prog A :=
  await _ := ACalls KAbort txn_id (pt_endpoint <$> ps) in k.

Definition abort_expired (txn_id : string) : prog (result unit Error) :=
  await cas := ACas txn_id Active Aborted in
  match cas with
  | Ok true =>
      await got := AGet txn_id in
      match got with
      | Err e => Ret (Err e)
      | Ok None => Ret (Ok ())
      | Ok (Some txn) => do_abort_participants txn_id (tx_participants txn) (Ret (Ok ()))
      end
  | Ok false => Ret (Ok ())
  | Err (TransactionNotFound _) => Ret (Ok ())
  | Err e => Ret (Err e)
  end.

Definition abort (txn_id : string) : prog (result unit Error) :=
  await cas := ACas txn_id Active Aborted in
  match cas with
  | Err e => Ret (Err e)
  | Ok false =>
      fetch txn_id (λ txn,
        match tx_state txn with
        | Committed => Ret (Err (TransactionTerminal txn_id))
        | Aborted => Ret (Ok ())
        | _ => Ret (Err (TransactionCommitInProgress txn_id))
        end)
  | Ok true =>
      fetch txn_id (λ txn,
        do_abort_participants txn_id (tx_participants txn)
          (await _ := ACancel (tx_lease_id txn) in Ret (Ok ())))
  end.

(** [transition]: a compare-and-set owned by the in-flight commit. *)
Definition state_name (st : TransactionState) : string :=
  match st with
  | Active => "Active" | Voting => "Voting" | Prepared => "Prepared"
  | Committed => "Committed" | Aborted => "Aborted"
  end.

Definition transition (txn_id : string) (from to : TransactionState)
    (k : prog (result unit Error)) : prog (result unit Error) :=
  await cas := ACas txn_id from to in
  match cas with
  | Err e => Ret (Err e)
  | Ok true => k
  | Ok false =>
      Ret (Err (Internal ("transaction " +:+ txn_id +:+ ": expected state " +:+
                          state_name from +:+ " during commit")))
  end.

(** The scan of the prepare results: the endpoints that voted PREPARED so far,
    and whether some participant refused or failed (the scan then stops). *)
Fixpoint scan_votes (results : list (string * result PrepareVote Error))
    (prepared_eps : list string) : list string * bool :=
  match results with
  | [] => (prepared_eps, false)
  | (ep, Ok VPrepared) :: rest => scan_votes rest (prepared_eps ++ [ep])
  | (ep, Ok VNotChanged) :: rest => scan_votes rest prepared_eps
  | (ep, Ok VAborted) :: _ => (prepared_eps, true)
  | (ep, Err _) :: _ => (prepared_eps, true)
  end.

(** Single participant: PrepareAndCommit. *)
Definition commit_single (txn_id ep lease_id : string) : prog (result unit Error) :=
  await outs := ACalls KPrepareAndCommit txn_id [ep] in
  match outs with
  | o :: _ =>
      match call_prepare_and_commit ep o with
      | Ok VPrepared | Ok VNotChanged =>
          transition txn_id Voting Committed
            (await _ := ACancel lease_id in Ret (Ok ()))
      | Ok VAborted =>
          transition txn_id Voting Aborted
            (await _ := ACancel lease_id in Ret (Err (TransactionAborted txn_id)))
      | Err _ => Ret (Err (TransactionOutcomeUnknown txn_id))
      end
  | [] => Ret (Err (TransactionOutcomeUnknown txn_id))
  end.

(** Two or more participants: prepare all, then commit the PREPARED voters. *)
Definition commit_many (txn_id lease_id : string) (participants : list ParticipantRecord)
  : prog (result unit Error) :=
  let eps := pt_endpoint <$> participants in
  await outs := ACalls KPrepare txn_id eps in
  let results := zip_with (λ ep o, (ep, call_prepare ep o)) eps outs in
  let '(prepared_eps, refused) := scan_votes results [] in
  if refused then
    transition txn_id Voting Aborted
      (do_abort_participants txn_id participants
         (await _ := ACancel lease_id in Ret (Err (TransactionAborted txn_id))))
  else
    transition txn_id Voting Prepared
      (await _ := ACalls KCommit txn_id prepared_eps in
       transition txn_id Prepared Committed
         (await _ := ACancel lease_id in Ret (Ok ()))).

Definition commit (txn_id : string) : prog (result unit Error) :=
  await cas := ACas txn_id Active Voting in
  match cas with
  | Err e => Ret (Err e)
  | Ok false =>
      fetch txn_id (λ txn,
        match tx_state txn with
        | Committed => Ret (Ok ())
        | Aborted => Ret (Err (TransactionAborted txn_id))
        | _ => Ret (Err (TransactionCommitInProgress txn_id))
        end)
  | Ok true =>
      fetch txn_id (λ txn,
        match tx_participants txn with
        | [] =>
            transition txn_id Voting Committed
              (await _ := ACancel (tx_lease_id txn) in Ret (Ok ()))
        | [p] => commit_single txn_id (pt_endpoint p) (tx_lease_id txn)
        | ps => commit_many txn_id (tx_lease_id txn) ps
        end)
  end.

(** [LocalTxnEnlister::enlist]. *)
Definition local_enlist (txn_id endpoint : string) : prog (result unit Error) :=
  enlist txn_id endpoint 0.
End handlers.

(** The answers the network gives, by kind, transaction and endpoint. *)
Abbreviation Network := (RpcKind → string → string → RpcOutcome).
Implicit Types (net : Network).

(** ** Executing an action on the shared state *)

(** A call made: its kind, transaction and endpoint, and what came back. *)
Record Call := mkCall {
  cl_kind : RpcKind;
  cl_txn : string;
  cl_endpoint : string;
  cl_outcome : RpcOutcome
}.

Record World (S L : Type) := {
  w_store : S;
  w_leases : L;
  w_calls : list Call
}.
Arguments w_store {S L} _.
Arguments w_leases {S L} _.
Arguments w_calls {S L} _.

Section exec.
Context {S L : Type} `{TxnStore S} `{Leasing L}.
Implicit Types (w : World S L).

Definition set_wstore w (s : S) : World S L :=
  {| w_store := s; w_leases := w_leases w; w_calls := w_calls w |}.
Definition set_wleases w (l : L) : World S L :=
  {| w_store := w_store w; w_leases := l; w_calls := w_calls w |}.
Definition add_calls w (cs : list Call) : World S L :=
  {| w_store := w_store w; w_leases := w_leases w; w_calls := w_calls w ++ cs |}.

(** [net] answers the RPCs. *)
Definition exec (net : Network) w {X : Type} (a : Act X)
  : World S L * X :=
  match a in Act X return World S L * X with
  | ACreate r => let '(s', res) := ts_create (w_store w) r in (set_wstore w s', res)
  | AGet id => (w, ts_get (w_store w) id)
  | ACas id e n =>
      let '(s', res) := ts_update_state_if (w_store w) id e n in (set_wstore w s', res)
  | AAdd id p => let '(s', res) := ts_add_participant (w_store w) id p in (set_wstore w s', res)
  | AGrant env rid ttl =>
      let '(l', res) := lg_grant (w_leases w) env rid ttl in (set_wleases w l', res)
  | ACancel lease =>
      let '(l', res) := lg_cancel (w_leases w) lease in (set_wleases w l', res)
  | ACalls k id eps =>
      let outs := (λ ep, net k id ep) <$> eps in
      (add_calls w (zip_with (λ ep o, mkCall k id ep o) eps outs), outs)
  end.

(** A handler run without interference. *)
Fixpoint run (net : Network) {A} w (p : prog A)
  : World S L * A :=
  match p with
  | Ret a => (w, a)
  | Do a k => let '(w', x) := exec net w a in run net w' (k x)
  end.
End exec.

(** ** What a handler run alone does *)

(** A vote that lets the transaction commit. *)
Definition yes (o : RpcOutcome) : bool :=
  match o with Answer v => (v =? 0)%Z || (v =? 1)%Z | _ => false end.

Definition voted_prepared (o : RpcOutcome) : bool :=
  match o with Answer v => (v =? 0)%Z | _ => false end.

(** The decision two-phase commit prescribes for the answers the network gives:
    [TCommit targets] sends the second phase to [targets], [TAbort targets]
    rolls [targets] back, [TUnknown] leaves the transaction undecided. *)
Inductive Verdict :=
| TCommit (targets : list string)
| TAbort (targets : list string)
| TUnknown.

Definition verdict (net : Network) (txn_id : string)
    (eps : list string) : Verdict :=
  match eps with
  | [] => TCommit []
  | [ep] =>
      match net KPrepareAndCommit txn_id ep with
      | Answer v => if yes (Answer v) then TCommit [] else TAbort []
      | _ => TUnknown
      end
  | _ =>
      if forallb (λ ep, yes (net KPrepare txn_id ep)) eps
      then TCommit (List.filter (λ ep, voted_prepared (net KPrepare txn_id ep)) eps)
      else TAbort eps
  end.

(** The calls of one batch. *)
Definition batch (net : Network) (k : RpcKind)
    (txn_id : string) (eps : list string) : list Call :=
  (λ ep, mkCall k txn_id ep (net k txn_id ep)) <$> eps.

(** The first phase: one combined call to a lone participant, otherwise one
    [Prepare] each. *)
Definition first_phase (net : Network) (txn_id : string)
    (eps : list string) : list Call :=
  match eps with
  | [ep] => batch net KPrepareAndCommit txn_id [ep]
  | _ => batch net KPrepare txn_id eps
  end.

Lemma vote_yes v : vote_from_i32 v ≠ VAborted ↔ yes (Answer v) = true.
Proof. unfold vote_from_i32, yes. branches; naive_solver. Qed.

Lemma zip_batch net k id eps :
  zip_with (λ ep o, mkCall k id ep o) eps ((λ ep, net k id ep) <$> eps) = batch net k id eps.
Proof. unfold batch. induction eps; simpl; [done|]. by f_equal. Qed.

Lemma scan_votes_spec net id eps acc :
  let results :=
    zip_with (λ ep o, (ep, call_prepare ep o)) eps ((λ ep, net KPrepare id ep) <$> eps) in
  if forallb (λ ep, yes (net KPrepare id ep)) eps
  then scan_votes results acc =
         (acc ++ List.filter (λ ep, voted_prepared (net KPrepare id ep)) eps, false)
  else (scan_votes results acc).2 = true.
Proof.
  revert acc. induction eps as [|ep eps IH]; intros acc; simpl; [by rewrite app_nil_r|].
  pose proof (IH (acc ++ [ep])) as IH1. specialize (IH acc). simpl in IH, IH1.
  set (rs := zip_with _ _ _) in *. unfold call_prepare, call_rpc, vote_from_i32.
  destruct (net KPrepare id ep) as [| | |v]; simpl; [done..|].
  destruct (v =? 0)%Z; simpl.
  - by rewrite <- app_assoc in IH1.
  - by destruct (v =? 1)%Z.
Qed.

Section outcomes.
Context {S L : Type} {TS : TxnStore S} {TV : TxnStoreView S} {TL : TxnStoreLaws S}.
Context {LG : Leasing L}.
Implicit Types (w : World S L).

Abbreviation wview w := (ts_view (w_store w)).

(** [w'] differs from [w] by the state of one transaction, the calls made and
    the leases. *)
Definition moved w w' (m : txn_map) (cs : list Call) (l : L) : Prop :=
  wview w' = m ∧ w_calls w' = w_calls w ++ cs ∧ w_leases w' = l.

(** [runs net w p Q]: run alone from [w], [p] ends in a world and with a value
    satisfying [Q].  The rules below are its weakest preconditions. *)
Definition runs {A} net w (p : prog A) (Q : World S L → A → Prop) : Prop :=
  Q (run net w p).1 (run net w p).2.

Lemma runs_ret {A} net w (a : A) (Q : World S L → A → Prop) : Q w a → runs net w (Ret a) Q.
Proof. done. Qed.

Lemma runs_get {A} net w id (k : _ → prog A) Q :
  runs net w (k (Ok (wview w !! id))) Q → runs net w (Do (AGet id) k) Q.
Proof. unfold runs. simpl. by rewrite ts_get_law. Qed.

Lemma runs_fetch {A} net w id r (k : TransactionRecord → prog (result A Error)) Q :
  wview w !! id = Some r → runs net w (k r) Q → runs net w (fetch id k) Q.
Proof. intros Hr ?. apply runs_get. by rewrite Hr. Qed.

Lemma runs_cas_hit {A} net w id r e n (k : _ → prog A) Q :
  wview w !! id = Some r → tx_state r = e →
  (∀ w', moved w w' (<[id := with_state r n]> (wview w)) [] (w_leases w) →
         runs net w' (k (Ok true)) Q) →
  runs net w (Do (ACas id e n) k) Q.
Proof.
  intros Hr He Hk. unfold runs. simpl. pose proof (ts_cas_law (w_store w) id e n) as Hc.
  destruct (ts_update_state_if _ _ _ _) as [s' res].
  rewrite Hr, decide_True in Hc by done. destruct Hc as [-> Hv].
  apply Hk. unfold moved. simpl. by rewrite app_nil_r.
Qed.

Lemma runs_cas_miss {A} net w id e n (k : _ → prog A) Q :
  (∀ r, wview w !! id = Some r → tx_state r ≠ e) →
  (∀ w', moved w w' (wview w) [] (w_leases w) →
     runs net w' (k match wview w !! id with
                    | Some _ => Ok false
                    | None => Err (TransactionNotFound id)
                    end) Q) →
  runs net w (Do (ACas id e n) k) Q.
Proof.
  intros Hr Hk. unfold runs. simpl. pose proof (ts_cas_law (w_store w) id e n) as Hc.
  destruct (ts_update_state_if _ _ _ _) as [s' res].
  specialize (Hk (set_wstore w s')). unfold moved in Hk. simpl in Hk.
  rewrite app_nil_r in Hk. destruct (wview w !! id) as [r|].
  - rewrite decide_False in Hc by naive_solver. destruct Hc as [-> ?]. by apply Hk.
  - destruct Hc as [-> ?]. by apply Hk.
Qed.

Lemma runs_cancel {A} net w lease (k : prog A) Q :
  (∀ w', moved w w' (wview w) [] (lg_cancel (w_leases w) lease).1 → runs net w' k Q) →
  runs net w (Do (ACancel lease) (λ _, k)) Q.
Proof.
  intros Hk. unfold runs. simpl. destruct (lg_cancel _ _) as [l' res].
  apply Hk. unfold moved. simpl. by rewrite app_nil_r.
Qed.

Lemma runs_calls {A} net w kd id eps (k : _ → prog A) Q :
  (∀ w', moved w w' (wview w) (batch net kd id eps) (w_leases w) →
         runs net w' (k ((λ ep, net kd id ep) <$> eps)) Q) →
  runs net w (Do (ACalls kd id eps) k) Q.
Proof. intros Hk. unfold runs. simpl. rewrite zip_batch. by apply Hk. Qed.

Lemma runs_transition net w id r from to k Q :
  wview w !! id = Some r → tx_state r = from →
  (∀ w', moved w w' (<[id := with_state r to]> (wview w)) [] (w_leases w) →
         runs net w' k Q) →
  runs net w (transition id from to k) Q.
Proof. intros ???. by eapply runs_cas_hit. Qed.

(** Collapse a chain of moves. *)
Lemma moved_trans w w1 w2 m1 m2 cs1 cs2 l1 l2 :
  moved w w1 m1 cs1 l1 → moved w1 w2 m2 cs2 l2 → moved w w2 m2 (cs1 ++ cs2) l2.
Proof.
  intros (? & Hc & ?) (? & Hc' & ?). split_and!; [done| |done].
  by rewrite Hc', Hc, <- app_assoc.
Qed.

Lemma moved_view w w' m cs l : moved w w' m cs l → wview w' = m.
Proof. by intros [? _]. Qed.

Lemma moved_leases w w' m cs l : moved w w' m cs l → w_leases w' = l.
Proof. by intros (_ & _ & ?). Qed.

(** The two ways a decided handler ends. *)
Lemma runs_decide net w id r to lease (res : result unit Error) Q :
  wview w !! id = Some r → tx_state r = Voting →
  (∀ w', moved w w' (<[id := with_state r to]> (wview w)) []
           (lg_cancel (w_leases w) lease).1 → Q w' res) →
  runs net w (transition id Voting to (await _ := ACancel lease in Ret res)) Q.
Proof.
  intros Hr Hs HQ. eapply runs_transition; [done..|]. intros w1 M1.
  apply runs_cancel. intros w2 M2. apply runs_ret, HQ.
  rewrite (moved_view _ _ _ _ _ M1), (moved_leases _ _ _ _ _ M1) in M2.
  exact (moved_trans _ _ _ _ _ _ _ _ _ M1 M2).
Qed.

(** What [commit] owes on an Active transaction. *)
Definition commit_post net w id (r : TransactionRecord) w' (res : result unit Error) : Prop :=
  let eps := pt_endpoint <$> tx_participants r in
  let released := (lg_cancel (w_leases w) (tx_lease_id r)).1 in
  match verdict net id eps with
  | TCommit targets =>
      res = Ok () ∧
      moved w w' (<[id := with_state r Committed]> (wview w))
        (first_phase net id eps ++ batch net KCommit id targets) released
  | TAbort targets =>
      res = Err (TransactionAborted id) ∧
      moved w w' (<[id := with_state r Aborted]> (wview w))
        (first_phase net id eps ++ batch net KAbort id targets) released
  | TUnknown =>
      res = Err (TransactionOutcomeUnknown id) ∧
      moved w w' (<[id := with_state r Voting]> (wview w))
        (first_phase net id eps) (w_leases w)
  end.

(** Compose the move [M'] after [M]. *)
Ltac follow M M' :=
  rewrite ?(moved_view _ _ _ _ _ M), ?(moved_leases _ _ _ _ _ M) in M';
  pose proof (moved_trans _ _ _ _ _ _ _ _ _ M M') as M'';
  clear M'; rename M'' into M'; rewrite ?insert_insert_eq in M'; simpl in M'.

Ltac at_voting M :=
  rewrite (moved_view _ _ _ _ _ M), ?lookup_insert_eq; reflexivity.

Lemma commit_single_runs net w0 w r id ep :
  moved w0 w (<[id := with_state r Voting]> (wview w0)) [] (w_leases w0) →
  pt_endpoint <$> tx_participants r = [ep] →
  runs net w (commit_single id ep (tx_lease_id r)) (commit_post net w0 id r).
Proof.
  intros M0 Hps. unfold commit_single. apply runs_calls. intros w1 M1. follow M0 M1.
  unfold commit_post. rewrite Hps. simpl. simpl in M1.
  unfold call_prepare_and_commit, call_rpc, rmap, vote_from_i32.
  destruct (net KPrepareAndCommit id ep) as [| | |v] eqn:E; simpl; try rewrite E in M1.
  1-3: by apply runs_ret.
  destruct (v =? 0)%Z eqn:E0, (v =? 1)%Z eqn:E1; simpl.
  all: eapply runs_decide; [at_voting M1|done|intros w2 M2; follow M1 M2; done].
Qed.

Lemma commit_many_runs net w0 w r id p1 p2 ps :
  moved w0 w (<[id := with_state r Voting]> (wview w0)) [] (w_leases w0) →
  tx_participants r = p1 :: p2 :: ps →
  runs net w (commit_many id (tx_lease_id r) (tx_participants r)) (commit_post net w0 id r).
Proof.
  intros M0 Hps. unfold commit_many. apply runs_calls. intros w1 M1. follow M0 M1.
  unfold commit_post. set (eps := pt_endpoint <$> tx_participants r) in *.
  assert (Hv : verdict net id eps =
    if forallb (λ ep, yes (net KPrepare id ep)) eps
    then TCommit (List.filter (λ ep, voted_prepared (net KPrepare id ep)) eps)
    else TAbort eps) by (subst eps; by rewrite Hps).
  assert (Hf : first_phase net id eps = batch net KPrepare id eps)
    by (subst eps; by rewrite Hps).
  rewrite Hv, Hf. clear Hv Hf.
  pose proof (scan_votes_spec net id eps []) as Hs. cbv zeta in Hs.
  destruct (forallb _ eps).
  - rewrite Hs. simpl. eapply runs_transition; [at_voting M1|done|].
    intros w2 M2. follow M1 M2. apply runs_calls. intros w3 M3. follow M2 M3.
    eapply runs_transition; [at_voting M3|done|]. intros w4 M4. follow M3 M4.
    apply runs_cancel. intros w5 M5. follow M4 M5. apply runs_ret.
    by rewrite !app_nil_r in M5.
  - destruct (scan_votes _ _) as [prepared b]. simpl in Hs. rewrite Hs.
    eapply runs_transition; [at_voting M1|done|].
    intros w2 M2. follow M1 M2. apply runs_calls. intros w3 M3. follow M2 M3.
    apply runs_cancel. intros w4 M4. follow M3 M4. apply runs_ret.
    by rewrite !app_nil_r in M4.
Qed.

(** A handler that changed nothing. *)
Definition untouched w w' : Prop := moved w w' (wview w) [] (w_leases w).

Definition commit_spec net w id w' (res : result unit Error) : Prop :=
  match wview w !! id with
  | None => res = Err (TransactionNotFound id) ∧ untouched w w'
  | Some r =>
      match tx_state r with
      | Active => commit_post net w id r w' res
      | Committed => res = Ok () ∧ untouched w w'
      | Aborted => res = Err (TransactionAborted id) ∧ untouched w w'
      | Voting | Prepared => res = Err (TransactionCommitInProgress id) ∧ untouched w w'
      end
  end.

Lemma commit_runs net w id : runs net w (commit id) (commit_spec net w id).
Proof.
  unfold commit, commit_spec. destruct (wview w !! id) as [r|] eqn:Hr.
  2: { apply runs_cas_miss; [naive_solver|]. intros w' M. rewrite Hr. by apply runs_ret. }
  destruct (decide (tx_state r = Active)) as [Ha|Ha].
  2: { apply runs_cas_miss; [naive_solver|]. intros w' M. rewrite Hr. simpl.
       eapply runs_fetch; [by rewrite (moved_view _ _ _ _ _ M)|].
       by destruct (tx_state r); try apply runs_ret. }
  rewrite Ha. eapply runs_cas_hit; [done..|]. intros w1 M1. simpl.
  eapply runs_fetch; [at_voting M1|]. simpl.
  destruct (tx_participants r) as [|p1 [|p2 ps]] eqn:Hps.
  - eapply runs_decide; [at_voting M1|done|]. intros w2 M2. follow M1 M2.
    unfold commit_post. rewrite Hps. done.
  - apply commit_single_runs; [done|]. by rewrite Hps.
  - rewrite <- Hps. by eapply commit_many_runs.
Qed.

(** C23: [commit] on every branch, for any participants and any behaviour of
    the network.  An unknown transaction is [TransactionNotFound]; a repeated
    commit answers from the recorded outcome and makes no call.  On an Active
    transaction, with the participants frozen by the claim, the first phase goes
    to all of them (one [PrepareAndCommit] when there is only one), and the
    transaction commits exactly when everyone voted PREPARED or NOTCHANGED: the
    second phase then goes to the PREPARED voters only.  Otherwise every
    participant is rolled back; an unanswered [PrepareAndCommit] leaves the
    transaction in Voting with its lease, and reports the outcome unknown.  The
    lease is released exactly when there is an outcome. *)
Theorem commit_outcome net w id :
  runs net w (commit id) (λ w' res,
    match wview w !! id with
    | None => res = Err (TransactionNotFound id) ∧ untouched w w'
    | Some r =>
        match tx_state r with
        | Active => commit_post net w id r w' res
        | Committed => res = Ok () ∧ untouched w w'
        | Aborted => res = Err (TransactionAborted id) ∧ untouched w w'
        | Voting | Prepared => res = Err (TransactionCommitInProgress id) ∧ untouched w w'
        end
    end).
Proof. exact (commit_runs net w id). Qed.

(** [abort] on every branch: an Active transaction becomes Aborted,
    every participant is told once and the lease is released; aborting an aborted
    transaction succeeds silently, a committed one is [TransactionTerminal], one
    being committed is [TransactionCommitInProgress], and none of these makes a
    call or changes anything. *)
Theorem abort_outcome net w id :
  runs net w (abort id) (λ w' res,
    match wview w !! id with
    | None => res = Err (TransactionNotFound id) ∧ untouched w w'
    | Some r =>
        match tx_state r with
        | Active =>
            res = Ok () ∧
            moved w w' (<[id := with_state r Aborted]> (wview w))
              (batch net KAbort id (pt_endpoint <$> tx_participants r))
              (lg_cancel (w_leases w) (tx_lease_id r)).1
        | Aborted => res = Ok () ∧ untouched w w'
        | Committed => res = Err (TransactionTerminal id) ∧ untouched w w'
        | Voting | Prepared => res = Err (TransactionCommitInProgress id) ∧ untouched w w'
        end
    end).
Proof.
  unfold abort. destruct (wview w !! id) as [r|] eqn:Hr.
  2: { apply runs_cas_miss; [naive_solver|]. intros w' M. rewrite Hr. by apply runs_ret. }
  destruct (decide (tx_state r = Active)) as [Ha|Ha].
  2: { apply runs_cas_miss; [naive_solver|]. intros w' M. rewrite Hr. simpl.
       eapply runs_fetch; [by rewrite (moved_view _ _ _ _ _ M)|].
       by destruct (tx_state r); try apply runs_ret. }
  rewrite Ha. eapply runs_cas_hit; [done..|]. intros w1 M1. simpl.
  eapply runs_fetch; [at_voting M1|]. simpl. apply runs_calls. intros w2 M2. follow M1 M2.
  apply runs_cancel. intros w3 M3. follow M2 M3. apply runs_ret.
  by rewrite app_nil_r in M3.
Qed.
End outcomes.
