(* ===== verification/TxnProtocol.v ===== *)
(** * Two-phase commit among concurrent requests

    Any number of handlers of [TxnManager] run at once: each is suspended at the
    actions it awaits, the calls of a [join_all] batch are answered one by one in
    any order, and a handler may be dropped at any await (the server cancels the
    future of a disconnected client).  The safety of the protocol is proved for
    every such execution, over any store satisfying [TxnStoreLaws], by giving
    each handler a ghost description of what it knows and owns. *)

From S2P Require Import Prelude CoreTypes LeaseCore LeaseStore LeaseManager.
From S2P Require Import TxnStore TxnManager.

(** ** The pool *)

(** A task: between two actions, or waiting for the calls of a batch. *)
Inductive Task : Type :=
| TRun {A : Type} (p : prog A)
| TJoin {A : Type} (k : RpcKind) (txn_id : string) (eps : list string)
    (outs : list (option RpcOutcome)) (cont : list RpcOutcome → prog A).

Section pool.
Context (allow : string → result unit Error).
Context {S L : Type} {TS : TxnStore S} {LG : Leasing L}.

Record Pool := mkPool {
  p_world : World S L;
  p_ids : gset string;          (** every transaction id drawn so far *)
  p_tasks : list Task
}.

(** The requests that start a handler. *)
Inductive request : gset string → Task → gset string → Prop :=
| RqBegin ids id env ttl :
    id ∉ ids → request ids (TRun (begin_txn id env ttl)) ({[id]} ∪ ids)
| RqEnlist ids id ep crash :
    request ids (TRun (enlist allow id ep crash)) ids
| RqGetState ids id : request ids (TRun (get_state id)) ids
| RqCommit ids id : request ids (TRun (commit id)) ids
| RqAbort ids id : request ids (TRun (abort id)) ids
| RqExpired ids id : request ids (TRun (abort_expired id)) ids.

(** An action that is not a batch of calls takes effect at once. *)
Definition is_local {X} (a : Act X) : bool :=
  match a with ACalls _ _ _ => false | _ => true end.

Inductive step : Pool → Pool → Prop :=
| SSpawn w ids ids' ts t :
    request ids t ids' → step (mkPool w ids ts) (mkPool w ids' (t :: ts))
| SDrop w ids ts1 t ts2 :
    step (mkPool w ids (ts1 ++ t :: ts2)) (mkPool w ids (ts1 ++ ts2))
| SAct w ids ts1 ts2 A X (a : Act X) (k : X → prog A) net :
    is_local a = true →
    step (mkPool w ids (ts1 ++ TRun (Do a k) :: ts2))
         (mkPool (exec net w a).1 ids (ts1 ++ TRun (k (exec net w a).2) :: ts2))
| SFork w ids ts1 ts2 A kd id eps (k : _ → prog A) :
    step (mkPool w ids (ts1 ++ TRun (Do (ACalls kd id eps) k) :: ts2))
         (mkPool w ids (ts1 ++ TJoin kd id eps (replicate (length eps) None) k :: ts2))
| SAnswer w ids ts1 ts2 A kd id eps outs i ep o (k : _ → prog A) :
    eps !! i = Some ep → outs !! i = Some None →
    step (mkPool w ids (ts1 ++ TJoin kd id eps outs k :: ts2))
         (mkPool (add_calls w [mkCall kd id ep o]) ids
            (ts1 ++ TJoin kd id eps (<[i := Some o]> outs) k :: ts2))
| SJoin w ids ts1 ts2 A kd id eps outs (k : _ → prog A) :
    step (mkPool w ids (ts1 ++ TJoin kd id eps (Some <$> outs) k :: ts2))
         (mkPool w ids (ts1 ++ TRun (k outs) :: ts2)).

(** Reachable from an empty store. *)
Inductive reach (w0 : World S L) : Pool → Prop :=
| ReachInit : reach w0 (mkPool w0 ∅ [])
| ReachStep P P' : reach w0 P → step P P' → reach w0 P'.
End pool.
Arguments Pool : clear implicits.
Arguments mkPool {S L} _ _ _.
Arguments p_world {S L} _.
Arguments p_ids {S L} _.
Arguments p_tasks {S L} _.

(** ** Ghost knowledge of a task *)

(** What a task owns or knows: nothing; an id it drew and has not stored yet; the
    commit of a transaction in Voting, with its frozen participants and every
    call made for it; the second phase; or that a transaction is Aborted. *)
Inductive Ghost :=
| GNone
| GFresh (id : string)
| GVote (id : string) (ps : list ParticipantRecord) (cs : list Call)
| GPrep (id : string) (ps : list ParticipantRecord)
| GAborted (id : string) (ps : list ParticipantRecord).

(** A vote to commit, recorded for an endpoint. *)
Definition yes_call (id ep : string) (c : Call) : Prop :=
  (cl_kind c = KPrepare ∨ cl_kind c = KPrepareAndCommit) ∧
  cl_txn c = id ∧ cl_endpoint c = ep ∧ yes (cl_outcome c) = true.

Definition unanimous (id : string) (ps : list ParticipantRecord) (cs : list Call) : Prop :=
  ∀ p, p ∈ ps → ∃ c, c ∈ cs ∧ yes_call id (pt_endpoint p) c.

(** The participant answered, and with something other than a vote to commit. *)
Definition refused (o : RpcOutcome) : bool :=
  match o with Answer _ => negb (yes o) | _ => false end.

(** A participant that committed by its [PrepareAndCommit], or may have: it was
    called and did not refuse.  A call whose reply was lost, or that failed in
    any other way than by a refusal, counts. *)
Definition sealed (c : Call) : Prop :=
  cl_kind c = KPrepareAndCommit ∧ refused (cl_outcome c) = false.

Definition endpoints_in (eps : list string) (ps : list ParticipantRecord) : Prop :=
  ∀ ep, ep ∈ eps → ep ∈ pt_endpoint <$> ps.

Definition batch_calls (k : RpcKind) (id : string) (eps : list string)
    (outs : list RpcOutcome) : list Call :=
  zip_with (λ ep o, mkCall k id ep o) eps outs.

(** The calls of a batch answered so far. *)
Fixpoint delivered (k : RpcKind) (id : string) (eps : list string)
    (outs : list (option RpcOutcome)) : list Call :=
  match eps, outs with
  | ep :: eps, Some o :: outs => mkCall k id ep o :: delivered k id eps outs
  | _ :: eps, None :: outs => delivered k id eps outs
  | _, _ => []
  end.

Section safety.
Context (allow : string → result unit Error).

(** What an action may do under a ghost, and the ghost afterwards. *)
Definition wp {X} (g : Ghost) (a : Act X) : (X → Ghost → Prop) → Prop :=
  match a in Act X return (X → Ghost → Prop) → Prop with
  | ACreate r => λ Q,
      g = GFresh (tx_txn_id r) ∧ tx_state r = Active ∧ tx_participants r = [] ∧
      ∀ x, Q x GNone
  | AGet id => λ Q,
      match g with
      | GNone => ∀ x, Q x GNone
      | GVote id' ps cs =>
          id = id' ∧ ∀ r, tx_state r = Voting → tx_participants r = ps → Q (Ok (Some r)) g
      | GAborted id' ps =>
          id = id' ∧ ∀ r, tx_state r = Aborted → tx_participants r = ps → Q (Ok (Some r)) g
      | _ => False
      end
  | ACas id from to => λ Q,
      match g, from, to with
      | GNone, Active, Voting =>
          (∀ ps, Q (Ok true) (GVote id ps [])) ∧ ∀ x, x ≠ Ok true → Q x GNone
      | GNone, Active, Aborted =>
          (∀ ps, Q (Ok true) (GAborted id ps)) ∧ ∀ x, x ≠ Ok true → Q x GNone
      | GVote id' ps cs, Voting, Committed => id = id' ∧ unanimous id ps cs ∧ Q (Ok true) GNone
      | GVote id' ps cs, Voting, Prepared =>
          id = id' ∧ unanimous id ps cs ∧ Q (Ok true) (GPrep id ps)
      | GVote id' ps cs, Voting, Aborted =>
          id = id' ∧ (∀ c, c ∈ cs → ¬ sealed c) ∧ Q (Ok true) (GAborted id ps)
      | GPrep id' ps, Prepared, Committed => id = id' ∧ Q (Ok true) GNone
      | _, _, _ => False
      end
  | AAdd id p => λ Q, g = GNone ∧ allow (pt_endpoint p) = Ok () ∧ ∀ x, Q x GNone
  | AGrant _ _ _ => λ Q, ∀ x, Q x g
  | ACancel _ => λ Q, ∀ x, Q x g
  | ACalls k id eps => λ Q,
      match g, k with
      | GVote id' ps [], (KPrepare | KPrepareAndCommit) =>
          id = id' ∧ endpoints_in eps ps ∧
          ∀ outs cs, length outs = length eps → cs ≡ₚ batch_calls k id eps outs →
                     Q outs (GVote id ps cs)
      | GPrep id' ps, KCommit | GAborted id' ps, KAbort =>
          id = id' ∧ endpoints_in eps ps ∧ ∀ outs, length outs = length eps → Q outs g
      | _, _ => False
      end
  end.

Fixpoint safe {A} (g : Ghost) (p : prog A) : Prop :=
  match p with
  | Ret _ => True
  | Do a k => wp g a (λ x g', safe g' (k x))
  end.

(** *** Every handler is safe from the ghost it starts with *)

Lemma safe_cancel_ret {A} g lease (a : A) : safe g (await _ := ACancel lease in Ret a).
Proof. simpl. done. Qed.

Lemma safe_begin id env ttl : safe (GFresh id) (begin_txn id env ttl).
Proof. simpl. intros [lease|e]; simpl; [|done]. split_and!; [done..|]. by intros [[]|]. Qed.

Lemma safe_enlist id ep crash : safe GNone (enlist allow id ep crash).
Proof. unfold enlist. destruct (allow ep) as [[]|] eqn:E; simpl; done. Qed.

Lemma safe_get_state id : safe GNone (get_state id).
Proof. simpl. by intros [[r|]|]. Qed.

Lemma endpoints_in_refl ps : endpoints_in (pt_endpoint <$> ps) ps.
Proof. by intros ep. Qed.

Lemma safe_abort_expired id : safe GNone (abort_expired id).
Proof.
  simpl. split.
  - intros ps. split; [done|]. intros r _ <-. split_and!; [done|apply endpoints_in_refl|done].
  - intros [[]|[]] ?; simpl; done.
Qed.

Lemma safe_abort id : safe GNone (abort id).
Proof.
  simpl. split.
  - intros ps. split; [done|]. intros r _ <-. split_and!; [done|apply endpoints_in_refl|done].
  - intros [[]|] ?; simpl; [done| |done]. intros [[r|]|]; simpl; [|done..].
    by destruct (tx_state r).
Qed.

(** A scan that does not refuse saw only votes to commit, and collects
    endpoints it was given. *)
Lemma scan_votes_ok eps outs acc prepared :
  length outs = length eps →
  scan_votes (zip_with (λ ep o, (ep, call_prepare ep o)) eps outs) acc = (prepared, false) →
  Forall (λ o, yes o = true) outs ∧ ∀ ep, ep ∈ prepared → ep ∈ acc ∨ ep ∈ eps.
Proof.
  revert outs acc. induction eps as [|ep eps IH]; intros [|o outs] acc Hl; try done; simpl.
  { intros [= <-]. split; [constructor|]. by left. }
  unfold call_prepare, call_rpc, vote_from_i32.
  destruct o as [| | |v]; simpl; [done..|].
  assert (Hv : (v =? 0)%Z || (v =? 1)%Z = true →
    ∀ acc', (∀ e, e ∈ acc' → e ∈ acc ∨ e = ep) →
    scan_votes (zip_with (λ ep o, (ep, call_prepare ep o)) eps outs) acc' = (prepared, false) →
    Forall (λ o, yes o = true) (Answer v :: outs) ∧
    ∀ e, e ∈ prepared → e ∈ acc ∨ e ∈ ep :: eps).
  { intros Hv acc' Hacc [Hf Hp]%IH; [|by simplify_eq/=]. split; [by constructor|].
    intros e [[?| ->]%Hacc|?]%Hp; [by left|right; left|right; by right]. }
  destruct (v =? 0)%Z; simpl in *.
  - apply Hv; [done|]. intros e [?| ?%list_elem_of_singleton]%elem_of_app; tauto.
  - destruct (v =? 1)%Z; [|done]. apply Hv; [done|]. tauto.
Qed.

Lemma unanimous_batch k id ps outs cs :
  k = KPrepare ∨ k = KPrepareAndCommit →
  length outs = length (pt_endpoint <$> ps) → Forall (λ o, yes o = true) outs →
  cs ≡ₚ batch_calls k id (pt_endpoint <$> ps) outs → unanimous id ps cs.
Proof.
  intros Hk Hl Hy Hcs p Hp. apply list_elem_of_lookup in Hp as [i Hi].
  assert (Hep : (pt_endpoint <$> ps) !! i = Some (pt_endpoint p))
    by (by rewrite list_lookup_fmap, Hi).
  destruct (lookup_lt_is_Some_2 outs i) as [o Ho].
  { rewrite Hl. by eapply lookup_lt_Some. }
  exists (mkCall k id (pt_endpoint p) o). split.
  - rewrite Hcs. apply list_elem_of_lookup. exists i. unfold batch_calls.
    rewrite lookup_zip_with, Hep. simpl. by rewrite Ho.
  - split_and!; try done. by eapply Forall_lookup_1 in Hy.
Qed.

Lemma safe_commit_single id p lease :
  safe (GVote id [p] []) (commit_single id (pt_endpoint p) lease).
Proof.
  simpl. split_and!; [done|by apply (endpoints_in_refl [p])|].
  intros [|o [|]] cs; [done| |done]. intros _ Hcs. apply Permutation_singleton_r in Hcs as ->.
  unfold call_prepare_and_commit, call_rpc, rmap, vote_from_i32.
  destruct o as [| | |v]; simpl; [done..|].
  assert (Hun : yes (Answer v) = true →
    unanimous id [p] [mkCall KPrepareAndCommit id (pt_endpoint p) (Answer v)]).
  { intros Hy. apply (unanimous_batch KPrepareAndCommit id [p] [Answer v]); [by right|done| |done].
    by constructor. }
  assert (Hns : yes (Answer v) = false →
    ∀ c, c ∈ [mkCall KPrepareAndCommit id (pt_endpoint p) (Answer v)] → ¬ sealed c).
  { intros Hy c ->%list_elem_of_singleton [_ Hs]. simpl in Hy, Hs. by rewrite Hy in Hs. }
  simpl in Hun, Hns. destruct (v =? 0)%Z, (v =? 1)%Z; simpl; auto.
Qed.

Lemma safe_commit_many id ps lease :
  safe (GVote id ps []) (commit_many id lease ps).
Proof.
  simpl. split_and!; [done|apply endpoints_in_refl|]. intros outs cs Hl Hcs.
  destruct (scan_votes _ []) as [prepared refused] eqn:Hs.
  destruct refused; simpl.
  - split_and!; [done| |done|apply endpoints_in_refl|done].
    intros c Hc [Hk _]. rewrite Hcs in Hc. unfold batch_calls in Hc.
    apply list_elem_of_lookup in Hc as [i Hi].
    by apply lookup_zip_with_Some in Hi as (ep & o & -> & _).
  - apply scan_votes_ok in Hs as [Hy Hp]; [|done].
    split_and!; [done|eapply unanimous_batch; [by left|done..]|done| |done].
    intros ep [?%not_elem_of_nil|?]%Hp; done.
Qed.

Lemma safe_commit id : safe GNone (commit id).
Proof.
  simpl. split.
  - intros ps. split; [done|]. intros r _ <-.
    destruct (tx_participants r) as [|p [|p2 ps]] eqn:E.
    + simpl. split_and!; [done| |done]. by intros p ?%not_elem_of_nil.
    + apply safe_commit_single.
    + apply safe_commit_many.
  - intros [[]|] ?; simpl; [done| |done]. intros [[r|]|]; simpl; [|done..].
    by destruct (tx_state r).
Qed.

(** *** The invariant *)

Definition calls_of (id : string) (cs : list Call) : list Call :=
  filter (λ c, cl_txn c = id) cs.

(** The transaction a ghost speaks of, and whether it owns it. *)
Definition about (g : Ghost) : option string :=
  match g with
  | GNone => None
  | GFresh id | GVote id _ _ | GPrep id _ | GAborted id _ => Some id
  end.

Definition own (g : Ghost) : option string :=
  match g with
  | GFresh id | GVote id _ _ | GPrep id _ => Some id
  | GNone | GAborted _ _ => None
  end.

Definition in_state (m : txn_map) (id : string) (st : TransactionState)
    (ps : list ParticipantRecord) : Prop :=
  ∃ r, m !! id = Some r ∧ tx_state r = st ∧ tx_participants r = ps.

Definition ghost_ok (m : txn_map) (cs : list Call) (ids : gset string) (g : Ghost) : Prop :=
  match g with
  | GNone => True
  | GFresh id => m !! id = None ∧ id ∈ ids
  | GVote id ps vs => in_state m id Voting ps ∧ calls_of id cs ≡ₚ vs
  | GPrep id ps => in_state m id Prepared ps
  | GAborted id ps => in_state m id Aborted ps
  end.

Definition task_ok (g : Ghost) (t : Task) : Prop :=
  match t with
  | TRun p => safe g p
  | TJoin k id eps outs cont =>
      length outs = length eps ∧
      match g, k with
      | GVote id' ps cs, (KPrepare | KPrepareAndCommit) =>
          id = id' ∧ endpoints_in eps ps ∧ cs ≡ₚ delivered k id eps outs ∧
          ∀ outs' cs', length outs' = length eps → cs' ≡ₚ batch_calls k id eps outs' →
                       safe (GVote id ps cs') (cont outs')
      | GPrep id' ps, KCommit | GAborted id' ps, KAbort =>
          id = id' ∧ endpoints_in eps ps ∧
          ∀ outs', length outs' = length eps → safe g (cont outs')
      | _, _ => False
      end
  end.

(** What a call made tells of the state it was made in. *)
Definition call_state_ok (c : Call) (st : TransactionState) : Prop :=
  match cl_kind c with
  | KAbort => st = Aborted
  | KCommit => st = Prepared ∨ st = Committed
  | KPrepare => st ≠ Active
  | KPrepareAndCommit => st ≠ Active ∧ (sealed c → st ≠ Aborted)
  end.

Definition call_ok (m : txn_map) (c : Call) : Prop :=
  ∃ r, m !! cl_txn c = Some r ∧ cl_endpoint c ∈ pt_endpoint <$> tx_participants r ∧
       call_state_ok c (tx_state r).

Definition record_ok (cs : list Call) (id : string) (r : TransactionRecord) : Prop :=
  (tx_state r = Prepared ∨ tx_state r = Committed → unanimous id (tx_participants r) cs) ∧
  Forall (λ p, allow (pt_endpoint p) = Ok ()) (tx_participants r).

Record global_ok (m : txn_map) (cs : list Call) (ids : gset string) : Prop := {
  go_calls : ∀ c, c ∈ cs → call_ok m c;
  go_records : ∀ id r, m !! id = Some r → record_ok cs id r;
  go_ids : ∀ id r, m !! id = Some r → id ∈ ids
}.

(** *** Updating one record *)

Lemma global_update m cs ids id r r' :
  global_ok m cs ids → m !! id = Some r →
  (∀ p, p ∈ tx_participants r → p ∈ tx_participants r') →
  (∀ c, c ∈ cs → cl_txn c = id → call_state_ok c (tx_state r) →
        call_state_ok c (tx_state r')) →
  record_ok cs id r' →
  global_ok (<[id := r']> m) cs ids.
Proof.
  intros [Hc Hr Hi] Hm Hps Hst Hok. split.
  - intros c Hin. destruct (Hc c Hin) as (r0 & Hr0 & Hep & Hs).
    destruct (decide (cl_txn c = id)) as [<-|Hne].
    + simplify_eq. exists r'. rewrite lookup_insert_eq. split_and!; [done| |by apply Hst].
      apply list_elem_of_fmap in Hep as (p & -> & Hp). by apply list_elem_of_fmap_2, Hps.
    + exists r0. by rewrite lookup_insert_ne.
  - intros id0 r0. rewrite lookup_insert_Some. intros [[<- <-]|[_ ?]]; [done|by apply Hr].
  - intros id0 r0. rewrite lookup_insert_Some. intros [[<- _]|[_ ?]]; by eapply Hi.
Qed.

Lemma ghost_update m cs ids id r' g :
  about g ≠ Some id → ghost_ok m cs ids g → ghost_ok (<[id := r']> m) cs ids g.
Proof.
  destruct g; simpl; intros Hne; unfold in_state; try done;
    rewrite lookup_insert_ne by congruence; done.
Qed.

(** No ghost speaks of an Active transaction. *)
Lemma about_active m cs ids id r g :
  ghost_ok m cs ids g → m !! id = Some r → tx_state r = Active → about g ≠ Some id.
Proof.
  destruct g; simpl; intros Hg Hm Ha; try done; intros [= ->]; unfold in_state in Hg;
    unpack; congruence.
Qed.

(** A transaction owned by one task is not spoken of by another. *)
Lemma about_owned m cs ids id g g' :
  ghost_ok m cs ids g → own g = Some id → ghost_ok m cs ids g' → own g' ≠ Some id →
  about g' ≠ Some id.
Proof.
  destruct g, g'; simpl; intros Hg [= ->] Hg' Hne; try congruence;
    intros [= ->]; unfold in_state in *; unpack; congruence.
Qed.

(** *** Actions preserve the invariant *)

Definition others_ok (m m' : txn_map) (cs cs' : list Call) (ids : gset string)
    (g g' : Ghost) : Prop :=
  ∀ g2, ghost_ok m cs ids g2 → (∀ id, own g = Some id → own g2 ≠ Some id) →
    ghost_ok m' cs' ids g2 ∧ (∀ id, own g' = Some id → own g2 ≠ Some id).

(** A task moves from ghost [g] to [g'] while the store moves from [m] to [m']. *)
Definition advances (m m' : txn_map) (cs cs' : list Call) (ids : gset string)
    (g g' : Ghost) : Prop :=
  global_ok m' cs' ids ∧ ghost_ok m' cs' ids g' ∧ others_ok m m' cs cs' ids g g'.

Lemma advances_same m cs ids g g' :
  global_ok m cs ids → ghost_ok m cs ids g' → (∀ id, own g' = Some id → own g = Some id) →
  advances m m cs cs ids g g'.
Proof. intros ?? Hown. split_and!; [done..|]. intros g2 ??. split; [done|]. naive_solver. Qed.

Lemma advances_update m cs ids g g' id r r' :
  global_ok m cs ids → ghost_ok m cs ids g → m !! id = Some r →
  tx_state r = Active ∨ own g = Some id →
  (∀ p, p ∈ tx_participants r → p ∈ tx_participants r') →
  (∀ c, c ∈ cs → cl_txn c = id → call_state_ok c (tx_state r) →
        call_state_ok c (tx_state r')) →
  record_ok cs id r' →
  ghost_ok (<[id := r']> m) cs ids g' → own g' = None ∨ own g' = Some id →
  advances m (<[id := r']> m) cs cs ids g g'.
Proof.
  intros Hgo Hg Hm Hwho Hps Hst Hrec Hg' Hown. split_and!; [by eapply global_update|done|].
  intros g2 Hg2 Hne. assert (Hab : about g2 ≠ Some id).
  { destruct Hwho as [Ha|Ho]; [by eapply about_active|].
    eapply (about_owned m cs ids id g g2); eauto. }
  split; [by apply ghost_update|]. intros id' Ho Ho2. apply Hab.
  assert (id' = id) as -> by naive_solver. by destruct g2; simpl in *.
Qed.

Lemma in_state_insert m id r st :
  in_state (<[id := with_state r st]> m) id st (tx_participants r).
Proof. exists (with_state r st). by rewrite lookup_insert_eq. Qed.

Lemma global_calls_of m cs ids id r c :
  global_ok m cs ids → m !! id = Some r → c ∈ cs → cl_txn c = id →
  call_state_ok c (tx_state r).
Proof.
  intros Hgo Hm Hc <-. destruct (go_calls _ _ _ Hgo c Hc) as (r0 & ? & _ & ?). by simplify_eq.
Qed.

Lemma elem_of_calls_of id cs c : c ∈ calls_of id cs ↔ c ∈ cs ∧ cl_txn c = id.
Proof. unfold calls_of. rewrite list_elem_of_filter. tauto. Qed.

Lemma active_no_calls m cs ids id r :
  global_ok m cs ids → m !! id = Some r → tx_state r = Active → calls_of id cs = [].
Proof.
  intros Hgo Hm Ha. destruct (calls_of id cs) as [|c l] eqn:E; [done|].
  assert (Hc : c ∈ calls_of id cs) by (rewrite E; left).
  apply elem_of_calls_of in Hc as [Hc Hid].
  pose proof (global_calls_of _ _ _ _ _ _ Hgo Hm Hc Hid) as Hs. rewrite Ha in Hs.
  unfold call_state_ok in Hs. destruct (cl_kind c); naive_solver.
Qed.

(** A claim takes the transaction from Active; an owner moves it on. *)
Lemma advances_claim m cs ids g g' id r to :
  global_ok m cs ids → ghost_ok m cs ids g → m !! id = Some r → tx_state r = Active →
  to = Voting ∨ to = Aborted →
  ghost_ok (<[id := with_state r to]> m) cs ids g' → own g' = None ∨ own g' = Some id →
  advances m (<[id := with_state r to]> m) cs cs ids g g'.
Proof.
  intros Hgo Hg Hm Ha Hto Hg' Hown. eapply advances_update; eauto.
  - intros c Hc Hid _. exfalso. apply (not_elem_of_nil c).
    rewrite <- (active_no_calls m cs ids id r) by done. by apply elem_of_calls_of.
  - destruct (go_records _ _ _ Hgo _ _ Hm) as [_ Hal]. split; [|done]. simpl. naive_solver.
Qed.

Lemma advances_owner m cs ids g g' id r to :
  global_ok m cs ids → ghost_ok m cs ids g → m !! id = Some r → own g = Some id →
  (∀ c, c ∈ cs → cl_txn c = id → call_state_ok c (tx_state r) → call_state_ok c to) →
  (to = Prepared ∨ to = Committed → unanimous id (tx_participants r) cs) →
  ghost_ok (<[id := with_state r to]> m) cs ids g' → own g' = None ∨ own g' = Some id →
  advances m (<[id := with_state r to]> m) cs cs ids g g'.
Proof.
  intros Hgo Hg Hm Ho Hst Hun Hg' Hown. eapply advances_update; eauto.
  destruct (go_records _ _ _ Hgo _ _ Hm) as [_ Hal]. split; [|done]. done.
Qed.

Lemma unanimous_calls_of id ps cs vs :
  unanimous id ps vs → calls_of id cs ≡ₚ vs → unanimous id ps cs.
Proof.
  intros Hu Hp p Hin. destruct (Hu p Hin) as (c & Hc & Hy). exists c. split; [|done].
  rewrite <- Hp, elem_of_calls_of in Hc. by destruct Hc.
Qed.

(** The compare-and-sets the ghosts allow. *)
Lemma cas_advances {m cs ids g id from to} {Q : result bool Error → Ghost → Prop} {r} :
  global_ok m cs ids → ghost_ok m cs ids g → wp g (ACas id from to) Q →
  m !! id = Some r → tx_state r = from →
  ∃ g', Q (Ok true) g' ∧ advances m (<[id := with_state r to]> m) cs cs ids g g'.
Proof.
  intros Hgo Hg Hwp Hm Hs. pose proof (in_state_insert m id r to) as Hin.
  pose proof Hg as Hg0.
  destruct g as [|?|id' ps vs|id' ps|?]; [|done| | |done];
    destruct from; try done; destruct to; try done; simpl in Hwp.
  - destruct Hwp as [Hq _]. exists (GVote id (tx_participants r) []). split; [done|].
    eapply advances_claim; eauto. split; [done|]. by rewrite (active_no_calls m cs ids id r).
  - destruct Hwp as [Hq _]. exists (GAborted id (tx_participants r)). split; [done|].
    eapply advances_claim; eauto.
  - destruct Hwp as (<- & Hun & Hq), Hg as [(r0 & Hr0 & _ & <-) Hcs].
    rewrite Hm in Hr0; injection Hr0 as <-.
    exists (GPrep id (tx_participants r)). split; [done|]. eapply advances_owner; eauto.
    + rewrite Hs. intros c _ _. unfold call_state_ok. destruct (cl_kind c); naive_solver.
    + intros _. by eapply unanimous_calls_of.
  - destruct Hwp as (<- & Hun & Hq), Hg as [(r0 & Hr0 & _ & <-) Hcs].
    rewrite Hm in Hr0; injection Hr0 as <-.
    exists GNone. split; [done|]. eapply advances_owner; eauto.
    + rewrite Hs. intros c _ _. unfold call_state_ok. destruct (cl_kind c); naive_solver.
    + intros _. by eapply unanimous_calls_of.
    + done.
  - destruct Hwp as (<- & Hns & Hq), Hg as [(r0 & Hr0 & _ & <-) Hcs].
    rewrite Hm in Hr0; injection Hr0 as <-.
    exists (GAborted id (tx_participants r)). split; [done|]. eapply advances_owner; eauto.
    + rewrite Hs. intros c Hc Hid. specialize (Hns c). rewrite <- Hcs, elem_of_calls_of in Hns.
      unfold call_state_ok. destruct (cl_kind c); naive_solver.
    + naive_solver.
  - destruct Hwp as (<- & Hq), Hg as (r0 & Hr0 & _ & <-).
    rewrite Hm in Hr0; injection Hr0 as <-.
    exists GNone. split; [done|]. eapply advances_owner; eauto.
    + rewrite Hs. intros c _ _. unfold call_state_ok. destruct (cl_kind c); naive_solver.
    + intros _. eapply (go_records _ _ _ Hgo _ _ Hm). by left.
    + done.
Qed.

(** A compare-and-set misses only when the task owns nothing. *)
Lemma cas_misses {m cs ids g id from to} {Q : result bool Error → Ghost → Prop} x :
  global_ok m cs ids → ghost_ok m cs ids g → wp g (ACas id from to) Q →
  (∀ r, m !! id = Some r → tx_state r ≠ from) → x ≠ Ok true →
  ∃ g', Q x g' ∧ advances m m cs cs ids g g'.
Proof.
  intros Hgo Hg Hwp Hm Hx. exists GNone. split; [|by apply advances_same].
  destruct g as [|?|id' ps vs|id' ps|?]; [|done| | |done];
    destruct from; try done; destruct to; try done; simpl in Hwp.
  1-2: by apply Hwp.
  all: destruct Hwp as [<- _]; unfold ghost_ok, in_state in Hg; exfalso; naive_solver.
Qed.

Lemma create_advances m cs ids r :
  global_ok m cs ids → ghost_ok m cs ids (GFresh (tx_txn_id r)) →
  tx_state r = Active → tx_participants r = [] →
  advances m (<[tx_txn_id r := r]> m) cs cs ids (GFresh (tx_txn_id r)) GNone.
Proof.
  intros Hgo [Hnone Hids] Ha Hps. split_and!; [|done|].
  - destruct Hgo as [Hc Hr Hi]. split.
    + intros c Hin. destruct (Hc c Hin) as (r0 & Hr0 & ?). exists r0.
      by rewrite lookup_insert_ne by congruence.
    + intros id r0. rewrite lookup_insert_Some. intros [[<- <-]|[_ ?]]; [|by apply Hr].
      split; [intros []; congruence|]. rewrite Hps. constructor.
    + intros id r0. rewrite lookup_insert_Some. intros [[<- _]|[_ ?]]; [done|by eapply Hi].
  - intros g2 Hg2 Hne. split; [|done]. apply ghost_update; [|done].
    destruct g2; simpl in *; [done|by apply Hne|..]; intros [= ->];
      unfold in_state in *; unpack; congruence.
Qed.

Lemma add_advances m cs ids id r p :
  global_ok m cs ids → m !! id = Some r → tx_state r = Active →
  allow (pt_endpoint p) = Ok () →
  advances m (<[id := push_participant r p]> m) cs cs ids GNone GNone.
Proof.
  intros Hgo Hm Ha Hal. eapply advances_update; eauto; try done.
  - intros q Hq. simpl. apply elem_of_app. by left.
  - destruct (go_records _ _ _ Hgo _ _ Hm) as [_ Hf]. split; simpl; [intros []; congruence|].
    apply Forall_app. split; [done|]. by constructor.
Qed.

(** One more answered call of a batch. *)
Lemma answer_advances m cs ids g g' c ps st :
  global_ok m cs ids → ghost_ok m cs ids g →
  in_state m (cl_txn c) st ps → cl_endpoint c ∈ pt_endpoint <$> ps → call_state_ok c st →
  own g = Some (cl_txn c) ∨ st = Aborted →
  ghost_ok m (cs ++ [c]) ids g' → own g' = own g →
  advances m m cs (cs ++ [c]) ids g g'.
Proof.
  intros Hgo Hg (r & Hm & <- & <-) Hep Hst Hown Hg' Ho. split_and!; [|done|].
  - destruct Hgo as [Hc Hr Hi]. split; [| |done].
    + intros c0 [?| ->%list_elem_of_singleton]%elem_of_app; [by apply Hc|]. by exists r.
    + intros id r0 Hm0. destruct (Hr id r0 Hm0) as [Hu Hal]. split; [|done].
      intros Hs p Hp. destruct (Hu Hs p Hp) as (c0 & Hc0 & ?). exists c0.
      split; [|done]. apply elem_of_app. by left.
  - intros g2 Hg2 Hne. rewrite Ho. split; [|done].
    destruct g2 as [| |id ps vs| |]; try done. destruct Hg2 as [Hin Hp]. split; [done|].
    unfold calls_of. rewrite filter_app, filter_cons_False, filter_nil, app_nil_r; [done|].
    intros <-. destruct Hown as [Hw| Hw]; [by eapply Hne|].
    destruct Hin as (r0 & ? & ? & _). simplify_eq. congruence.
Qed.

Lemma delivered_insert k id eps outs i ep o :
  eps !! i = Some ep → outs !! i = Some None →
  delivered k id eps (<[i := Some o]> outs) ≡ₚ mkCall k id ep o :: delivered k id eps outs.
Proof.
  revert eps i. induction outs as [|x outs IH]; intros [|e eps] [|i]; try done; simpl.
  - by intros [= ->] [= ->].
  - intros Hep Ho. pose proof (IH eps i Hep Ho) as IHi. destruct x; [|done].
    rewrite IHi. by constructor.
Qed.

Lemma delivered_all k id eps outs :
  delivered k id eps (Some <$> outs) = batch_calls k id eps outs.
Proof.
  unfold batch_calls. revert outs. induction eps as [|e eps IH]; intros [|o outs]; try done.
  simpl. by f_equal.
Qed.

Lemma delivered_none k id eps n : delivered k id eps (replicate n None) = [].
Proof. revert eps. induction n; intros [|]; simpl; auto. Qed.
End safety.

Section invariant.
Context (allow : string → result unit Error).
Context {S L : Type} {TS : TxnStore S} {TV : TxnStoreView S} {TL : TxnStoreLaws S}.
Context {LG : Leasing L}.
Implicit Types (w : World S L) (P : Pool S L).

Abbreviation wview w := (ts_view (w_store w)).

Definition pool_inv P : Prop :=
  ∃ gs, Forall2 (task_ok allow) gs (p_tasks P) ∧
    global_ok allow (wview (p_world P)) (w_calls (p_world P)) (p_ids P) ∧
    Forall (ghost_ok (wview (p_world P)) (w_calls (p_world P)) (p_ids P)) gs ∧
    NoDup (omap own gs).

(** *** Local actions *)

Lemma local_advances {X} net w ids g (a : Act X) Q :
  is_local a = true → wp allow g a Q →
  global_ok allow (wview w) (w_calls w) ids → ghost_ok (wview w) (w_calls w) ids g →
  w_calls (exec net w a).1 = w_calls w ∧
  ∃ g', Q (exec net w a).2 g' ∧
    advances allow (wview w) (wview (exec net w a).1) (w_calls w) (w_calls w) ids g g'.
Proof.
  intros Hl Hwp Hgo Hg. destruct a as [r|id|id from to|id p|env rid ttl|lease|]; [..|done]; simpl.
  - pose proof (ts_create_law (w_store w) r) as Hc. destruct (ts_create _ _) as [s' res].
    destruct Hc as [_ Hv]. split; [done|]. destruct Hwp as (-> & Ha & Hps & Hq).
    exists GNone. split; [done|]. simpl. rewrite Hv. by apply create_advances.
  - split; [done|]. rewrite ts_get_law. destruct g as [|?|id' ps vs|?|id' ps]; try done.
    + exists GNone. split; [apply Hwp|]. by apply advances_same.
    + destruct Hwp as [<- Hq]. destruct Hg as [(r & Hr & Hs & Hps) Hcs].
      exists (GVote id ps vs). rewrite Hr. split; [by apply Hq|]. apply advances_same; try done.
      split; [|done]. by exists r.
    + destruct Hwp as [<- Hq]. destruct Hg as (r & Hr & Hs & Hps).
      exists (GAborted id ps). rewrite Hr. split; [by apply Hq|]. apply advances_same; try done.
      by exists r.
  - pose proof (ts_cas_law (w_store w) id from to) as Hc.
    destruct (ts_update_state_if _ _ _ _) as [s' res]. split; [done|]. simpl.
    destruct (wview w !! id) as [r|] eqn:Hr; [case_decide as Hs|].
    + destruct Hc as [-> ->]. eapply cas_advances; eauto.
    + destruct Hc as [-> ->]. eapply cas_misses; eauto; congruence.
    + destruct Hc as [-> ->]. eapply cas_misses; eauto; congruence.
  - pose proof (ts_add_law (w_store w) id p) as Hc. destruct (ts_add_participant _ _ _) as [s' res].
    split; [done|]. destruct Hwp as (-> & Hal & Hq). exists GNone. split; [done|]. simpl.
    destruct (wview w !! id) as [r|] eqn:Hr; [case_decide as Ha|]; destruct Hc as [_ ->].
    + by apply add_advances.
    + by apply advances_same.
    + by apply advances_same.
  - destruct (lg_grant _ _ _ _) as [l' res]. split; [done|]. exists g.
    split; [apply Hwp|]. by apply advances_same.
  - destruct (lg_cancel _ _) as [l' res]. split; [done|]. exists g.
    split; [apply Hwp|]. by apply advances_same.
Qed.

(** *** Steps of the pool *)

(** Replace one task of the pool, its ghost advancing. *)
Lemma pool_advance w w' ids gs1 g g' gs2 ts1 t' ts2 :
  length gs1 = length ts1 → Forall2 (task_ok allow) gs1 ts1 →
  Forall2 (task_ok allow) gs2 ts2 → task_ok allow g' t' →
  Forall (ghost_ok (wview w) (w_calls w) ids) (gs1 ++ g :: gs2) →
  NoDup (omap own (gs1 ++ g :: gs2)) →
  advances allow (wview w) (wview w') (w_calls w) (w_calls w') ids g g' →
  pool_inv (mkPool w' ids (ts1 ++ t' :: ts2)).
Proof.
  intros Hlen Ht1 Ht2 Ht Hgs Hnd (Hgo & Hg' & Hoth).
  exists (gs1 ++ g' :: gs2). simpl. split; [by apply Forall2_app, Forall2_cons|].
  split; [done|].
  assert (Hrest : ∀ g2, g2 ∈ gs1 ∨ g2 ∈ gs2 →
    ghost_ok (wview w') (w_calls w') ids g2 ∧ ∀ id, own g' = Some id → own g2 ≠ Some id).
  { intros g2 Hg2. apply Hoth.
    - rewrite Forall_forall in Hgs. apply Hgs. rewrite elem_of_app, elem_of_cons. tauto.
    - intros id Ho Ho2. rewrite omap_app in Hnd. simpl in Hnd. rewrite Ho in Hnd.
      apply NoDup_app in Hnd as (_ & Hd & Hn%NoDup_cons).
      destruct Hg2 as [Hin|Hin].
      + apply (Hd id); [|left]. apply list_elem_of_omap. eauto.
      + apply Hn. apply list_elem_of_omap. eauto. }
  split.
  - rewrite Forall_app, Forall_cons, !Forall_forall.
    split_and!; [|done|]; intros g2 ?; apply Hrest; tauto.
  - rewrite omap_app in *. simpl in *.
    assert (Hnd' : NoDup (omap own gs1 ++ omap own gs2)).
    { destruct (own g); [|done]. rewrite NoDup_app, NoDup_cons in *.
      destruct Hnd as (? & Hd & _ & ?). split_and!; [done| |done].
      intros x Hx Hx2. apply (Hd x Hx). by right. }
    destruct (own g') as [id|] eqn:Ho; [|done].
    rewrite <- Permutation_middle. apply NoDup_cons. split; [|done].
    rewrite elem_of_app, !list_elem_of_omap. intros [(g2 & Hin & Ho2)|(g2 & Hin & Ho2)].
    + destruct (Hrest g2) as [_ Hne]; [by left|]. by apply (Hne id).
    + destruct (Hrest g2) as [_ Hne]; [by right|]. by apply (Hne id).
Qed.

Lemma own_in_ids m cs ids g id :
  global_ok allow m cs ids → ghost_ok m cs ids g → own g = Some id → id ∈ ids.
Proof.
  intros Hgo Hg Ho. destruct g; simpl in *; simplify_eq; unfold in_state in *; unpack;
    try done; by eapply go_ids.
Qed.

Lemma ghost_ids m cs ids ids' g : ids ⊆ ids' → ghost_ok m cs ids g → ghost_ok m cs ids' g.
Proof. destruct g; simpl; set_solver. Qed.

Lemma spawn_inv w ids ids' ts t :
  pool_inv (mkPool w ids ts) → request allow ids t ids' → pool_inv (mkPool w ids' (t :: ts)).
Proof.
  intros (gs & Hts & Hgo & Hgs & Hnd) Hrq. simpl in *.
  assert (Hnone : ids' = ids → task_ok allow GNone t → pool_inv (mkPool w ids' (t :: ts))).
  { intros -> Ht. exists (GNone :: gs). simpl. split_and!; [by constructor|done| |done].
    by constructor. }
  destruct Hrq as [ids id env ttl Hfresh|ids id ep cr|ids id|ids id|ids id|ids id].
  2-6: apply Hnone; [done|]; simpl.
  2: apply safe_enlist. 2: apply safe_get_state. 2: apply safe_commit.
  2: apply safe_abort. 2: apply safe_abort_expired.
  exists (GFresh id :: gs). simpl. split_and!.
  - constructor; [|done]. apply safe_begin.
  - destruct Hgo as [Hc Hr Hi]. split; [done..|]. intros id0 r ?%Hi. set_solver.
  - constructor.
    + split; [|set_solver]. destruct (wview w !! id) eqn:E; [|done].
      by apply (go_ids _ _ _ _ Hgo) in E.
    + eapply Forall_impl; [done|]. intros g. apply ghost_ids. set_solver.
  - apply NoDup_cons. split; [|done]. rewrite list_elem_of_omap. intros (g & Hin & Ho).
    apply Hfresh. eapply own_in_ids; [done| |done]. by eapply Forall_forall in Hgs.
Qed.

(** Open the ghosts of the task a step works on. *)
Ltac open_pool H :=
  destruct H as (gs & Hts & Hgo & Hgs & Hnd); simpl in *;
  apply Forall2_app_inv_r in Hts as (gs1 & gs2' & Hts1 & Hts2 & ->);
  apply Forall2_cons_inv_r in Hts2 as (g & gs2 & Ht & Hts2 & ->);
  pose proof (Forall2_length _ _ _ Hts1) as Hlen;
  assert (Hg : ghost_ok _ _ _ g) by
    (by apply (proj1 (Forall_forall _ _) Hgs), elem_of_app; right; left).

Lemma answer_vote w ids id ps vs kd ep o :
  kd = KPrepare ∨ kd = KPrepareAndCommit →
  global_ok allow (wview w) (w_calls w) ids →
  ghost_ok (wview w) (w_calls w) ids (GVote id ps vs) → ep ∈ pt_endpoint <$> ps →
  advances allow (wview w) (wview w) (w_calls w) (w_calls w ++ [mkCall kd id ep o]) ids
    (GVote id ps vs) (GVote id ps (vs ++ [mkCall kd id ep o])).
Proof.
  intros Hk Hgo Hg Hep. pose proof Hg as [Hst Hcs].
  eapply (answer_advances _ _ _ _ _ _ _ ps Voting); eauto; simpl.
  - unfold call_state_ok. by destruct Hk as [-> | ->].
  - split; [done|]. unfold calls_of in *. by rewrite filter_app, Hcs, filter_cons_True.
Qed.

Lemma answer_step {A} w ids g kd id eps outs i ep o (k : list RpcOutcome → prog A) :
  task_ok allow g (TJoin kd id eps outs k) →
  eps !! i = Some ep → outs !! i = Some None →
  global_ok allow (wview w) (w_calls w) ids → ghost_ok (wview w) (w_calls w) ids g →
  ∃ g', task_ok allow g' (TJoin kd id eps (<[i := Some o]> outs) k) ∧
    advances allow (wview w) (wview w) (w_calls w) (w_calls w ++ [mkCall kd id ep o]) ids g g'.
Proof.
  intros [Hl Ht] Hep Ho Hgo Hg. pose proof Hg as Hg0.
  assert (Hin : ep ∈ eps) by (by eapply list_elem_of_lookup_2).
  destruct g as [|?|id' ps vs|id' ps|id' ps]; try done; destruct kd; try done;
    destruct Ht as (<- & Hsub & Ht); try destruct Ht as [Hd Ht].
  1-2: eexists (GVote id ps (vs ++ [mkCall _ id ep o])); split;
    [split; [by rewrite length_insert|]; split_and!;
       [done|done|by rewrite delivered_insert, <- Permutation_cons_append, Hd|done]
    |by eapply answer_vote; [by auto|..|by eapply Hsub]].
  - exists (GPrep id ps). split; [split; [by rewrite length_insert|done]|].
    eapply (answer_advances _ _ _ _ _ _ _ ps Prepared); eauto; simpl. by left.
  - exists (GAborted id ps). split; [split; [by rewrite length_insert|done]|].
    eapply (answer_advances _ _ _ _ _ _ _ ps Aborted); eauto; done.
Qed.

Lemma step_inv P P' : pool_inv P → step allow P P' → pool_inv P'.
Proof.
  intros Hinv Hstep.
  destruct Hstep as [w ids ids' ts t Hrq|w ids ts1 t ts2|w ids ts1 ts2 A X a k net Hl
    |w ids ts1 ts2 A kd id eps k|w ids ts1 ts2 A kd id eps outs i ep o k Hep Ho
    |w ids ts1 ts2 A kd id eps outs k].
  - by eapply spawn_inv.
  - open_pool Hinv. exists (gs1 ++ gs2). simpl. split_and!; [by apply Forall2_app|done|..].
    + rewrite Forall_app, Forall_cons in Hgs. rewrite Forall_app. tauto.
    + rewrite omap_app in *. simpl in Hnd. destruct (own g); [|done].
      rewrite NoDup_app, NoDup_cons in *. destruct Hnd as (? & Hd & _ & ?).
      split_and!; [done| |done]. intros x Hx Hx2. apply (Hd x Hx). by right.
  - open_pool Hinv.
    destruct (local_advances net w ids g a _ Hl Ht Hgo Hg) as (Hcs & g' & Hq & Hadv).
    eapply pool_advance; eauto. by rewrite Hcs.
  - open_pool Hinv. eapply (pool_advance w w ids gs1 g g gs2); eauto; [|by apply advances_same].
    split; [by rewrite length_replicate|]. simpl in Ht.
    destruct g as [|?|id' ps [|? ?]|id' ps|id' ps]; try done; destruct kd; try done;
      unpack; subst; split_and!; rewrite ?delivered_none; done.
  - open_pool Hinv.
    destruct (answer_step w ids g kd id eps outs i ep o k Ht Hep Ho Hgo Hg) as (g' & Ht' & Hadv).
    eapply pool_advance; eauto.
  - open_pool Hinv. eapply (pool_advance w w ids gs1 g g gs2); eauto; [|by apply advances_same].
    destruct Ht as [Hlo Ht]. rewrite length_fmap in Hlo. simpl.
    destruct g as [|?|id' ps vs|id' ps|id' ps]; try done; destruct kd; try done;
      unpack; subst; rewrite ?delivered_all in *; eauto.
Qed.

Lemma reach_inv w0 P : wview w0 = ∅ → w_calls w0 = [] → reach allow w0 P → pool_inv P.
Proof.
  intros Hm Hcs. induction 1 as [|P P' _ IH Hstep]; [|by eapply step_inv].
  exists []. simpl. rewrite Hm, Hcs. split_and!; [constructor| |constructor|constructor].
  split; [by intros c ?%not_elem_of_nil| |]; intros id r; by rewrite lookup_empty.
Qed.

(** The edges of the transaction state machine. *)
Definition edge (a b : TransactionState) : bool :=
  match a, b with
  | Active, (Voting | Aborted) => true
  | Voting, (Prepared | Committed | Aborted) => true
  | Prepared, Committed => true
  | _, _ => bool_decide (a = b)
  end.

(** How a record may evolve: along an edge, its participants only appended to,
    and only while Active. *)
Definition evolves (r r' : TransactionRecord) : Prop :=
  edge (tx_state r) (tx_state r') = true ∧
  (∃ ps, tx_participants r' = tx_participants r ++ ps) ∧
  (tx_state r ≠ Active → tx_participants r' = tx_participants r) ∧
  tx_lease_id r' = tx_lease_id r.

Lemma evolves_refl r : evolves r r.
Proof.
  unfold evolves. split_and!; [by destruct (tx_state r)| |done|done].
  exists []. by rewrite app_nil_r.
Qed.

Lemma evolves_state r st : edge (tx_state r) st = true → evolves r (with_state r st).
Proof. intros He. split_and!; [done| |done|done]. exists []. by rewrite app_nil_r. Qed.

Lemma wp_cas_edge g id from to Q : wp allow g (ACas id from to) Q → edge from to = true.
Proof. by destruct g, from, to. Qed.

Lemma local_evolves {X} net w ids g (a : Act X) Q id r :
  wp allow g a Q → ghost_ok (wview w) (w_calls w) ids g →
  wview w !! id = Some r →
  ∃ r', wview (exec net w a).1 !! id = Some r' ∧ evolves r r'.
Proof.
  intros Hwp Hg Hr. pose proof (evolves_refl r) as Hrefl.
  destruct a as [r0|id0|id0 from to|id0 p|env rid ttl|lease|]; simpl.
  - pose proof (ts_create_law (w_store w) r0) as Hc. destruct (ts_create _ _) as [s' res].
    destruct Hc as [_ Hv], Hwp as [-> _], Hg as [Hn _]. exists r. simpl.
    by rewrite Hv, lookup_insert_ne by congruence.
  - eauto.
  - pose proof (ts_cas_law (w_store w) id0 from to) as Hc. apply wp_cas_edge in Hwp.
    destruct (ts_update_state_if _ _ _ _) as [s' res]. simpl.
    destruct (wview w !! id0) as [r1|] eqn:Hr1; [case_decide|]; destruct Hc as [_ ->]; eauto.
    destruct (decide (id0 = id)) as [->|]; [|rewrite lookup_insert_ne by done; eauto].
    exists (with_state r to). rewrite lookup_insert_eq. simplify_eq.
    split; [done|]. by apply evolves_state.
  - pose proof (ts_add_law (w_store w) id0 p) as Hc. destruct (ts_add_participant _ _ _) as [s' res].
    simpl. destruct (wview w !! id0) as [r1|] eqn:Hr1; [case_decide as Ha|];
      destruct Hc as [_ ->]; eauto.
    destruct (decide (id0 = id)) as [->|]; [|rewrite lookup_insert_ne by done; eauto].
    exists (push_participant r p). rewrite lookup_insert_eq. simplify_eq. split; [done|].
    split_and!; simpl; [by destruct (tx_state r)|eauto|done|done].
  - destruct (lg_grant _ _ _ _). eauto.
  - destruct (lg_cancel _ _). eauto.
  - eauto.
Qed.

(** *** The theorems *)

Context (w0 : World S L) (Hempty : wview w0 = ∅) (Hnocalls : w_calls w0 = []).

Abbreviation reachable := (reach allow w0).
Abbreviation calls P := (w_calls (p_world P)).
Abbreviation txns P := (wview (p_world P)).

Lemma reach_global P : reachable P → global_ok allow (txns P) (calls P) (p_ids P).
Proof. intros (gs & _ & Hgo & _)%reach_inv; done. Qed.

(** C1: The outcome is never split.  However requests, lease expiries and
    answers interleave, once some participant of a transaction was told to abort
    no participant of it is told to commit, nor did one commit by
    [PrepareAndCommit], not even by a call whose reply was lost, and
    conversely. *)
Theorem two_phase_atomicity P a c :
  reachable P → a ∈ calls P → c ∈ calls P → cl_txn a = cl_txn c →
  cl_kind a = KAbort → cl_kind c ≠ KCommit ∧ ¬ sealed c.
Proof.
  intros Hgo%reach_global Ha Hc Heq Hk.
  destruct (go_calls _ _ _ _ Hgo a Ha) as (r & Hr & _ & Hsa).
  destruct (go_calls _ _ _ _ Hgo c Hc) as (r' & Hr' & _ & Hsc).
  rewrite Heq in Hr. simplify_eq. unfold call_state_ok in *. rewrite Hk in Hsa.
  rewrite Hsa in Hsc. split.
  - intros Hk'. rewrite Hk' in Hsc. by destruct Hsc.
  - intros Hs. pose proof Hs as [Hk' _]. rewrite Hk' in Hsc. by destruct Hsc as [_ []].
Qed.

(** C6: A transaction is Prepared or Committed only when every one of
    its participants answered [Prepare] or [PrepareAndCommit] with a recognised
    vote to commit; and a transaction is Aborted only when no participant of it
    was told to commit and every [PrepareAndCommit] made for it was answered with
    a refusal.  A [PrepareAndCommit] that failed or whose reply was lost may have
    committed the participant, and excludes Aborted. *)
Theorem outcome_matches_votes P id r :
  reachable P → txns P !! id = Some r →
  (tx_state r = Prepared ∨ tx_state r = Committed →
     unanimous id (tx_participants r) (calls P)) ∧
  (tx_state r = Aborted →
     ∀ c, c ∈ calls P → cl_txn c = id → cl_kind c ≠ KCommit ∧ ¬ sealed c).
Proof.
  intros Hgo%reach_global Hr. split.
  - intros Hs. by apply (go_records _ _ _ _ Hgo _ _ Hr).
  - intros Ha c Hc Hid. pose proof (global_calls_of _ _ _ _ _ _ _ Hgo Hr Hc Hid) as Hs.
    rewrite Ha in Hs. unfold call_state_ok, sealed in *.
    destruct (cl_kind c); naive_solver.
Qed.

(** Every call goes to an enlisted endpoint that passed the allowlist. *)
Lemma dialed_allowed P c :
  reachable P → c ∈ calls P →
  allow (cl_endpoint c) = Ok () ∧
  ∃ r, txns P !! cl_txn c = Some r ∧ cl_endpoint c ∈ pt_endpoint <$> tx_participants r.
Proof.
  intros Hgo%reach_global Hc. destruct (go_calls _ _ _ _ Hgo c Hc) as (r & Hr & Hep & _).
  split; [|eauto]. destruct (go_records _ _ _ _ Hgo _ _ Hr) as [_ Hal].
  apply list_elem_of_fmap in Hep as (p & -> & Hp). by eapply Forall_forall in Hal.
Qed.

(** Along every step of every execution a transaction is never forgotten,
    its state follows the edges of the state machine (a terminal state is final),
    its lease never changes, and its participants are frozen once it leaves
    Active. *)
Theorem txn_state_machine P P' id r :
  reachable P → step allow P P' → txns P !! id = Some r →
  ∃ r', txns P' !! id = Some r' ∧ evolves r r'.
Proof.
  intros Hinv%reach_inv Hstep Hr; [|done..]. pose proof (evolves_refl r) as Hrefl.
  destruct Hstep as [w ids ids' ts t Hrq|w ids ts1 t ts2|w ids ts1 ts2 A X a k net Hl
    |w ids ts1 ts2 A kd id' eps k|w ids ts1 ts2 A kd id' eps outs i ep o k Hep Ho
    |w ids ts1 ts2 A kd id' eps outs k]; eauto.
  open_pool Hinv. by eapply local_evolves.
Qed.
End invariant.

(** ** A handler run alone is one of the executions *)
Section adequacy.
Context (allow : string → result unit Error).
Context {S L : Type} {TS : TxnStore S} {LG : Leasing L}.
Implicit Types (w : World S L).

Lemma add_calls_app w cs1 cs2 : add_calls (add_calls w cs1) cs2 = add_calls w (cs1 ++ cs2).
Proof. unfold add_calls. simpl. by rewrite app_assoc. Qed.

Lemma add_calls_nil w : add_calls w [] = w.
Proof. destruct w. unfold add_calls. simpl. by rewrite app_nil_r. Qed.

Lemma answer_all {A} net w ids ts1 ts2 kd id pre outs eps (k : _ → prog A) :
  length outs = length pre →
  rtc (step allow)
    (mkPool w ids (ts1 ++ TJoin kd id (pre ++ eps)
                     ((Some <$> outs) ++ replicate (length eps) None) k :: ts2))
    (mkPool (add_calls w (batch net kd id eps)) ids
       (ts1 ++ TJoin kd id (pre ++ eps)
                 (Some <$> (outs ++ ((λ ep, net kd id ep) <$> eps))) k :: ts2)).
Proof.
  revert w pre outs. induction eps as [|ep eps IH]; intros w pre outs Hl; simpl.
  { rewrite add_calls_nil, !app_nil_r. constructor. }
  eapply rtc_l.
  { apply (SAnswer _ _ _ _ _ _ _ _ _ _ (length pre) ep (net kd id ep)).
    - by rewrite list_lookup_middle.
    - by rewrite list_lookup_middle by (by rewrite length_fmap). }
  specialize (IH (add_calls w [mkCall kd id ep (net kd id ep)]) (pre ++ [ep])
                (outs ++ [net kd id ep])).
  rewrite add_calls_app in IH. rewrite !fmap_app in IH |- *. simpl in IH |- *.
  rewrite <- !app_assoc, fmap_app in IH. simpl in IH.
  rewrite insert_app_r_alt by (rewrite length_fmap; lia).
  rewrite length_fmap, Hl, Nat.sub_diag. simpl. apply IH.
  rewrite !length_app. simpl. lia.
Qed.

Lemma run_steps {A} net w ids ts1 ts2 (p : prog A) :
  rtc (step allow) (mkPool w ids (ts1 ++ TRun p :: ts2))
    (mkPool (run net w p).1 ids (ts1 ++ TRun (Ret (run net w p).2) :: ts2)).
Proof.
  revert w. induction p as [a|X a k IH]; intros w; simpl; [constructor|].
  destruct (is_local a) eqn:Hl.
  { eapply rtc_l; [by apply (SAct allow w ids ts1 ts2 A X a k net)|].
    destruct (exec net w a) as [w' x]. apply IH. }
  destruct a as [| | | | | |kd id eps]; try done. simpl. rewrite zip_batch.
  eapply rtc_l; [apply SFork|]. etrans.
  { exact (answer_all net w ids ts1 ts2 kd id [] [] eps k eq_refl). }
  eapply rtc_l; [apply SJoin|]. apply IH.
Qed.

Lemma reach_steps w0 P P' : reach allow w0 P → rtc (step allow) P P' → reach allow w0 P'.
Proof. intros Hr Hs. induction Hs; [done|]. apply IHHs. by econstructor. Qed.

Lemma reach_handler {A} net w0 w ids ids' ts (p : prog A) :
  reach allow w0 (mkPool w ids ts) → request allow ids (TRun p) ids' →
  reach allow w0 (mkPool (run net w p).1 ids' (TRun (Ret (run net w p).2) :: ts)).
Proof.
  intros Hr Hq. eapply reach_steps; [|apply (run_steps net w ids' [] ts p)].
  eapply ReachStep; [done|]. by apply SSpawn.
Qed.
End adequacy.

(** ** A concrete execution: two participants, one of which votes NOTCHANGED *)
Section samples.
#[local] Existing Instance canonical_iter.
#[local] Existing Instance chrono_sample.

Definition sample_allow (ep : string) : result unit Error :=
  if String.eqb ep "evil:1" then Err (PermissionDenied ep) else Ok ().

(** [a] and [b] vote PREPARED and NOTCHANGED on [t1]; [b] refuses [t2]. *)
Definition sample_net : Network := λ k id ep,
  if String.eqb ep "a:1" then Answer 0
  else if String.eqb id "t1" then Answer 1 else Answer 2.

Definition sample_world : World InMemoryTxnStore (LeaseManager InMemoryLeaseStore) :=
  {| w_store := TxnStore.new; w_leases := sample_manager; w_calls := [] |}.

Definition sample_env (u : string) : Env := {| now := 0; now2 := 1; uuid := u |}.

(** Begin, enlist twice, commit. *)
Definition sample_run (id : string) (w : World InMemoryTxnStore (LeaseManager InMemoryLeaseStore)) :=
  let w := (run sample_net w (begin_txn id (sample_env id) 30)).1 in
  let w := (run sample_net w (enlist sample_allow id "a:1" 0)).1 in
  let w := (run sample_net w (enlist sample_allow id "b:1" 0)).1 in
  (run sample_net w (commit id)).1.

Definition sample_end := sample_run "t2" (sample_run "t1" sample_world).

Lemma sample_run_reach id w ids ts :
  id ∉ ids → reach sample_allow sample_world (mkPool w ids ts) →
  ∃ ts', reach sample_allow sample_world (mkPool (sample_run id w) ({[id]} ∪ ids) ts').
Proof.
  intros Hn Hr. unfold sample_run.
  eapply (reach_handler _ sample_net) in Hr; [|by apply (RqBegin _ _ id (sample_env id) 30)].
  eapply (reach_handler _ sample_net) in Hr; [|apply (RqEnlist _ _ id "a:1" 0)].
  eapply (reach_handler _ sample_net) in Hr; [|apply (RqEnlist _ _ id "b:1" 0)].
  eapply (reach_handler _ sample_net) in Hr; [|apply (RqCommit _ _ id)].
  eauto.
Qed.

Lemma sample_reach : ∃ P, reach sample_allow sample_world P ∧ p_world P = sample_end.
Proof.
  destruct (sample_run_reach "t1" sample_world ∅ []) as [ts1 H1]; [set_solver|constructor|].
  destruct (sample_run_reach "t2" (sample_run "t1" sample_world) ({["t1"]} ∪ ∅) ts1)
    as [ts2 H2]; [set_solver|done|].
  eexists. split; [exact H2|]. unfold sample_end. reflexivity.
Qed.

(** Two calls of the sample: the rollback of [t2] at [a], and its [Prepare]. *)
Definition sample_abort : Call := mkCall KAbort "t2" "a:1" (Answer 0).
Definition sample_prepare : Call := mkCall KPrepare "t2" "a:1" (Answer 0).

Definition sample_record : TransactionRecord :=
  mkTxn "t1" "t1" Committed
    [ {| pt_endpoint := "a:1"; pt_crash_count := 0 |};
      {| pt_endpoint := "b:1"; pt_crash_count := 0 |} ] 1.

Lemma sample_abort_in : sample_abort ∈ w_calls sample_end.
Proof. apply (list_elem_of_lookup_2 _ 5). vm_compute. reflexivity. Qed.
Lemma sample_prepare_in : sample_prepare ∈ w_calls sample_end.
Proof. apply (list_elem_of_lookup_2 _ 3). vm_compute. reflexivity. Qed.
Lemma sample_record_in : ts_view (w_store sample_end) !! "t1" = Some sample_record.
Proof. vm_compute. reflexivity. Qed.

Theorem two_phase_atomicity_witness :
  cl_kind sample_prepare ≠ KCommit ∧ ¬ sealed sample_prepare.
Proof.
  destruct sample_reach as (P & Hr & HP).
  apply (two_phase_atomicity sample_allow sample_world eq_refl eq_refl P
           sample_abort sample_prepare Hr); [rewrite HP..|done|done].
  - exact sample_abort_in.
  - exact sample_prepare_in.
Defined.

Theorem outcome_matches_votes_witness :
  unanimous "t1" (tx_participants sample_record) (w_calls sample_end).
Proof.
  destruct sample_reach as (P & Hr & HP). rewrite <- HP.
  apply (outcome_matches_votes sample_allow sample_world eq_refl eq_refl P
           "t1" sample_record Hr); [|by right].
  rewrite HP. exact sample_record_in.
Defined.

(** A late abort request reaches the committed transaction. *)
Theorem txn_state_machine_witness :
  ∃ r', ts_view (w_store sample_end) !! "t1" = Some r' ∧ evolves sample_record r'.
Proof.
  destruct sample_reach as ([w ids ts] & Hr & HP). simpl in HP. rewrite <- HP.
  apply (txn_state_machine sample_allow sample_world eq_refl eq_refl (mkPool w ids ts)
           (mkPool w ids (TRun (abort "t1") :: ts)) "t1" sample_record Hr
           (SSpawn sample_allow _ _ _ _ _ (RqAbort _ _ _))).
  simpl. rewrite HP. exact sample_record_in.
Defined.

(** [commit] on [t1] just before it ran, and an abort of it afterwards. *)
Definition sample_active :=
  let w := (run sample_net sample_world (begin_txn "t1" (sample_env "t1") 30)).1 in
  let w := (run sample_net w (enlist sample_allow "t1" "a:1" 0)).1 in
  (run sample_net w (enlist sample_allow "t1" "b:1" 0)).1.

Lemma sample_active_in :
  ts_view (w_store sample_active) !! "t1" = Some (with_state sample_record Active).
Proof. vm_compute. reflexivity. Qed.

Theorem commit_outcome_witness :
  runs sample_net sample_active (commit "t1")
    (commit_post sample_net sample_active "t1" (with_state sample_record Active)).
Proof.
  pose proof (commit_outcome sample_net sample_active "t1") as H.
  rewrite sample_active_in in H. exact H.
Defined.

Theorem abort_outcome_witness :
  runs sample_net sample_end (abort "t1")
    (λ w' res, res = Err (TransactionTerminal "t1") ∧ untouched sample_end w').
Proof.
  pose proof (abort_outcome sample_net sample_end "t1") as H.
  rewrite sample_record_in in H. exact H.
Defined.
End samples.
