(* ===== verification/TxnService.v ===== *)
(** * The TransactionService RPCs ([coordin8-txn/src/service.rs])

    Each RPC is its manager handler with the result mapped to a message or a
    gRPC status. *)

From S2P Require Import Prelude CoreTypes LeaseCore LeaseStore LeaseManager LeaseService.
From S2P Require Import TxnStore TxnManager TxnProtocol.

(** [map_err] of the service. *)
Definition txn_map_err (e : Error) : Status :=
  match e with
  | Unavailable _ => mkStatus CUnavailable (error_to_string e)
  | InvalidArgument _ => mkStatus CInvalidArgument (error_to_string e)
  | PermissionDenied _ => mkStatus CPermissionDenied (error_to_string e)
  | TransactionCommitInProgress _ => mkStatus CFailedPrecondition (error_to_string e)
  | TransactionOutcomeUnknown _ => mkStatus CUnknown (error_to_string e)
  | _ => mkStatus CInternal (error_to_string e)
  end.

Definition state_to_proto (s : TransactionState) : Z :=
  match s with
  | Active => 0 | Voting => 1 | Prepared => 2 | Committed => 3 | Aborted => 4
  end.

Record TransactionCreated := { tcr_txn_id : string; tcr_lease : option Lease }.

(** The handler's result, mapped. *)
Fixpoint prog_map {A B} (f : A → B) (p : prog A) : prog B :=
  match p with
  | Ret a => Ret (f a)
  | Do a k => Do a (λ x, prog_map f (k x))
  end.

Definition begin_rpc `{Chrono} (g : Grantor) (txn_id : string) (env : Env) (ttl_seconds : Z)
  : prog (result TransactionCreated Status) :=
  prog_map (λ res, map_err txn_map_err
    (rmap (λ '(id, lease),
             {| tcr_txn_id := id; tcr_lease := Some (record_to_proto g lease) |}) res))
    (begin_txn txn_id env ttl_seconds).

Definition enlist_rpc (allow : string → result unit Error) (txn_id endpoint : string)
    (crash_count : Z) : prog (result unit Status) :=
  prog_map (map_err txn_map_err) (enlist allow txn_id endpoint crash_count).

Definition get_state_rpc (txn_id : string) : prog (result Z Status) :=
  prog_map (λ res, map_err (λ e, mkStatus CNotFound (error_to_string e))
                     (rmap state_to_proto res))
    (get_state txn_id).

Definition commit_status (e : Error) : Status :=
  match e with
  | TransactionAborted _ => mkStatus CAborted (error_to_string e)
  | TransactionNotFound _ => mkStatus CNotFound (error_to_string e)
  | other => txn_map_err other
  end.

Definition commit_rpc (txn_id : string) : prog (result unit Status) :=
  prog_map (map_err commit_status) (commit txn_id).

Definition abort_rpc (txn_id : string) : prog (result unit Status) :=
  prog_map (map_err txn_map_err) (abort txn_id).

(** ** Theorems *)
Section theorems.
Context {S L : Type} {TS : TxnStore S} {TV : TxnStoreView S} {TL : TxnStoreLaws S}.
Context {LG : Leasing L}.
Implicit Types (w : World S L).

Lemma runs_map {A B} net w (f : A → B) (p : prog A) Q :
  runs net w p (λ w' a, Q w' (f a)) → runs net w (prog_map f p) Q.
Proof.
  unfold runs. revert w. induction p as [a|X a k IH]; intros w; simpl; [done|].
  destruct (exec net w a) as [w' x]. apply IH.
Qed.

(** The answer a client must see for the state its transaction is left in. *)
Definition answer_for (o : option TransactionRecord) (res : result unit Status) : Prop :=
  match o, res with
  | None, Err s => st_code s = CNotFound
  | Some r, Ok _ => tx_state r = Committed
  | Some r, Err s =>
      match tx_state r with
      | Aborted => st_code s = CAborted
      | Voting => st_code s = CUnknown ∨ st_code s = CFailedPrecondition
      | Prepared => st_code s = CFailedPrecondition
      | Committed | Active => False
      end
  | None, Ok _ => False
  end.

Lemma commit_spec_answer net w id w' res :
  commit_spec net w id w' res →
  answer_for (ts_view (w_store w') !! id) (map_err commit_status res).
Proof.
  unfold commit_spec, commit_post.
  destruct (ts_view (w_store w) !! id) as [r|] eqn:Hr.
  2: { intros [-> [-> _]]. by rewrite Hr. }
  destruct (tx_state r) eqn:Hs.
  2-5: intros [-> [-> _]]; rewrite Hr; simpl; rewrite Hs; auto.
  destruct (verdict _ _ _); intros [-> [-> _]]; rewrite lookup_insert_eq; simpl; auto.
Qed.

(** The status of a [Commit] RPC tells the truth about the outcome: OK
    exactly when the transaction is left Committed, ABORTED when it is Aborted,
    NOT_FOUND when there is none, and FAILED_PRECONDITION or UNKNOWN only while it
    is undecided. *)
Theorem commit_rpc_answer net w id :
  runs net w (commit_rpc id) (λ w' res, answer_for (ts_view (w_store w') !! id) res).
Proof. apply runs_map, commit_spec_answer with (net := net) (w := w), commit_runs. Qed.
End theorems.

Section samples.
#[local] Existing Instance canonical_iter.
#[local] Existing Instance chrono_sample.

Theorem commit_rpc_answer_witness :
  runs sample_net sample_active (commit_rpc "t1")
    (λ w' res, answer_for (ts_view (w_store w') !! "t1") res).
Proof. exact (commit_rpc_answer sample_net sample_active "t1"). Defined.
End samples.
