(* ===== verification/SpaceStore.v ===== *)
(** * The tuple space store
    ([coordin8-core/src/space.rs], [providers/local/src/space_store.rs])

    The in-memory store keeps committed tuples, three buffers per transaction
    and two lease indexes.  Its abstract specification is one finite map from
    tuple ids to a tuple and the one place it is in; the refinement theorem says
    that every operation moves tuples between places exactly as specified, and
    keeps all indexes exact. *)

From S2P Require Import Prelude CoreTypes Matcher.
From Stdlib Require Import Strings.Byte.

#[global] Instance byte_eq_decision : EqDecision byte := byte_eq_dec.

Record TupleRecord := mkTuple {
  tp_tuple_id : string;
  tp_attrs : attrs_map;
  tp_payload : list byte;
  tp_lease_id : string;
  tp_written_by : string;
  tp_written_at : Z;
  tp_input_tuple_id : option string
}.

#[global] Instance TupleRecord_eq_dec : EqDecision TupleRecord.
Proof. solve_decision. Defined.

Inductive SpaceEventKind := Appearance | Expiration.

#[global] Instance SpaceEventKind_eq_dec : EqDecision SpaceEventKind.
Proof. solve_decision. Defined.

Record SpaceWatchRecord := mkWatch {
  wt_watch_id : string;
  wt_template : attrs_map;
  wt_on : SpaceEventKind;
  wt_lease_id : string;
  wt_handback : list byte
}.

(** ** [InMemorySpaceStore] *)

Abbreviation buffers := (gmap string (list TupleRecord)).

Record InMemorySpaceStore := mkSpace {
  tuples : gmap string TupleRecord;
  lease_index : gmap string string;
  watches : gmap string SpaceWatchRecord;
  watch_lease_index : gmap string string;
  uncommitted : buffers;
  txn_taken : buffers;
  txn_self_taken : buffers;
  txn_lease_index : gmap string (string * string)
}.

Definition new : InMemorySpaceStore := mkSpace ∅ ∅ ∅ ∅ ∅ ∅ ∅ ∅.

(** The three buffers by name, as the loop of [remove_by_lease] visits them. *)
Inductive Buffer := BUncommitted | BTaken | BSelfTaken.

#[global] Instance Buffer_eq_dec : EqDecision Buffer.
Proof. solve_decision. Defined.

Definition get_buffer (s : InMemorySpaceStore) (b : Buffer) : buffers :=
  match b with
  | BUncommitted => uncommitted s
  | BTaken => txn_taken s
  | BSelfTaken => txn_self_taken s
  end.

Definition set_buffer (s : InMemorySpaceStore) (b : Buffer) (m : buffers) : InMemorySpaceStore :=
  match b with
  | BUncommitted => mkSpace (tuples s) (lease_index s) (watches s) (watch_lease_index s)
                      m (txn_taken s) (txn_self_taken s) (txn_lease_index s)
  | BTaken => mkSpace (tuples s) (lease_index s) (watches s) (watch_lease_index s)
                (uncommitted s) m (txn_self_taken s) (txn_lease_index s)
  | BSelfTaken => mkSpace (tuples s) (lease_index s) (watches s) (watch_lease_index s)
                    (uncommitted s) (txn_taken s) m (txn_lease_index s)
  end.

Definition set_committed (s : InMemorySpaceStore) (ts : gmap string TupleRecord)
    (li : gmap string string) : InMemorySpaceStore :=
  mkSpace ts li (watches s) (watch_lease_index s)
    (uncommitted s) (txn_taken s) (txn_self_taken s) (txn_lease_index s).

Definition set_txn_lease_index (s : InMemorySpaceStore) (m : gmap string (string * string))
  : InMemorySpaceStore :=
  mkSpace (tuples s) (lease_index s) (watches s) (watch_lease_index s)
    (uncommitted s) (txn_taken s) (txn_self_taken s) m.

Definition set_watches (s : InMemorySpaceStore) (ws : gmap string SpaceWatchRecord)
    (wi : gmap string string) : InMemorySpaceStore :=
  mkSpace (tuples s) (lease_index s) ws wi
    (uncommitted s) (txn_taken s) (txn_self_taken s) (txn_lease_index s).

(** The buffer of a transaction ([entry(..).or_default()], [unwrap_or_default]). *)
Definition buf (s : InMemorySpaceStore) (b : Buffer) (txn_id : string) : list TupleRecord :=
  default [] (get_buffer s b !! txn_id).

Definition push_buffer (s : InMemorySpaceStore) (b : Buffer) (txn_id : string)
    (record : TupleRecord) : InMemorySpaceStore :=
  set_buffer s b (<[txn_id := buf s b txn_id ++ [record]]> (get_buffer s b)).

(** [DashMap::remove] of a transaction's buffer. *)
Definition drop_buffer (s : InMemorySpaceStore) (b : Buffer) (txn_id : string)
  : InMemorySpaceStore :=
  set_buffer s b (delete txn_id (get_buffer s b)).

Definition insert (s : InMemorySpaceStore) (record : TupleRecord)
  : InMemorySpaceStore * result unit Error :=
  (set_committed s (<[tp_tuple_id record := record]> (tuples s))
     (<[tp_lease_id record := tp_tuple_id record]> (lease_index s)), Ok ()).

Definition insert_uncommitted (s : InMemorySpaceStore) (txn_id : string) (record : TupleRecord)
  : InMemorySpaceStore * result unit Error :=
  let s := set_txn_lease_index s
             (<[tp_lease_id record := (txn_id, tp_tuple_id record)]> (txn_lease_index s)) in
  (push_buffer s BUncommitted txn_id record, Ok ()).

Definition get (s : InMemorySpaceStore) (tuple_id : string)
  : result (option TupleRecord) Error := Ok (tuples s !! tuple_id).

Definition remove (s : InMemorySpaceStore) (tuple_id : string)
  : InMemorySpaceStore * result (option TupleRecord) Error :=
  match tuples s !! tuple_id with
  | Some record =>
      (set_committed s (delete tuple_id (tuples s))
         (delete (tp_lease_id record) (lease_index s)), Ok (Some record))
  | None => (s, Ok None)
  end.

(** The loop over the three buffers: the first one holding the tuple loses it. *)
Fixpoint remove_buffered (s : InMemorySpaceStore) (bs : list Buffer)
    (txn_id tuple_id : string) : InMemorySpaceStore * option TupleRecord :=
  match bs with
  | [] => (s, None)
  | b :: bs =>
      match get_buffer s b !! txn_id with
      | Some l =>
          match remove_first (λ r, String.eqb (tp_tuple_id r) tuple_id) l with
          | Some (r, l') => (set_buffer s b (<[txn_id := l']> (get_buffer s b)), Some r)
          | None => remove_buffered s bs txn_id tuple_id
          end
      | None => remove_buffered s bs txn_id tuple_id
      end
  end.

Definition remove_by_lease_buffered (s : InMemorySpaceStore) (lease_id : string)
  : InMemorySpaceStore * result (option TupleRecord) Error :=
  match txn_lease_index s !! lease_id with
  | Some (txn_id, tuple_id) =>
      let s := set_txn_lease_index s (delete lease_id (txn_lease_index s)) in
      let '(s, r) := remove_buffered s [BUncommitted; BTaken; BSelfTaken] txn_id tuple_id in
      (s, Ok r)
  | None => (s, Ok None)
  end.

Definition remove_by_lease (s : InMemorySpaceStore) (lease_id : string)
  : InMemorySpaceStore * result (option TupleRecord) Error :=
  match lease_index s !! lease_id with
  | Some tuple_id =>
      let s := set_committed s (tuples s) (delete lease_id (lease_index s)) in
      match tuples s !! tuple_id with
      | Some record =>
          (set_committed s (delete tuple_id (tuples s)) (lease_index s), Ok (Some record))
      | None => remove_by_lease_buffered s lease_id
      end
  | None => remove_by_lease_buffered s lease_id
  end.

Section queries.
Context {I : MapIter}.

Definition find_match (s : InMemorySpaceStore) (template : attrs_map) (txn_id : option string)
  : result (option TupleRecord) Error :=
  let ops := parse_template template in
  match map_find (λ r, matches ops (tp_attrs r)) (tuples s) with
  | Some (_, r) => Ok (Some r)
  | None =>
      match txn_id with
      | Some tid =>
          match uncommitted s !! tid with
          | Some b => Ok (List.find (λ r, matches ops (tp_attrs r)) b)
          | None => Ok None
          end
      | None => Ok None
      end
  end.

(** The removal half of one iteration of [take_match]'s loop: [None] when another
    taker got there first. *)
Definition claim (s : InMemorySpaceStore) (tuple_id : string) (txn_id : option string)
  : option (InMemorySpaceStore * TupleRecord) :=
  match tuples s !! tuple_id with
  | Some record =>
      let s := set_committed s (delete tuple_id (tuples s))
                 (delete (tp_lease_id record) (lease_index s)) in
      match txn_id with
      | Some tid =>
          let s := set_txn_lease_index s
                     (<[tp_lease_id record := (tid, tp_tuple_id record)]> (txn_lease_index s)) in
          Some (push_buffer s BTaken tid record, record)
      | None => Some (s, record)
      end
  | None => None
  end.

(** The loop on committed tuples.  Run alone an iteration never has to be
    repeated ([take_loop_once]); the races between
    takers are in [SpaceSpec]. *)
Fixpoint take_loop (fuel : nat) (s : InMemorySpaceStore) (ops : gmap string MatchOp)
    (txn_id : option string) : InMemorySpaceStore * result (option TupleRecord) Error :=
  match fuel with
  | O => (s, Ok None)
  | S fuel =>
      match map_find (λ r, matches ops (tp_attrs r)) (tuples s) with
      | Some (tuple_id, _) =>
          match claim s tuple_id txn_id with
          | Some (s', record) => (s', Ok (Some record))
          | None => take_loop fuel s ops txn_id
          end
      | None => (s, Ok None)
      end
  end.

Definition take_committed (s : InMemorySpaceStore) (ops : gmap string MatchOp)
    (txn_id : option string) : InMemorySpaceStore * result (option TupleRecord) Error :=
  take_loop (S (size (tuples s))) s ops txn_id.

Definition take_match (s : InMemorySpaceStore) (template : attrs_map) (txn_id : option string)
  : InMemorySpaceStore * result (option TupleRecord) Error :=
  let ops := parse_template template in
  match txn_id with
  | Some tid =>
      match uncommitted s !! tid with
      | Some b =>
          match remove_first (λ r, matches ops (tp_attrs r)) b with
          | Some (record, b') =>
              let s := set_buffer s BUncommitted (<[tid := b']> (uncommitted s)) in
              (push_buffer s BSelfTaken tid record, Ok (Some record))
          | None => take_committed s ops txn_id
          end
      | None => take_committed s ops txn_id
      end
  | None => take_committed s ops txn_id
  end.

Definition find_all_matches (s : InMemorySpaceStore) (template : attrs_map)
    (txn_id : option string) : result (list TupleRecord) Error :=
  let ops := parse_template template in
  let keep r := ops_is_empty ops || matches ops (tp_attrs r) in
  Ok (List.filter keep (map_values (tuples s)) ++
      match txn_id with
      | Some tid =>
          match uncommitted s !! tid with
          | Some b => List.filter keep b
          | None => []
          end
      | None => []
      end).

Definition list_all (s : InMemorySpaceStore) : result (list TupleRecord) Error :=
  Ok (map_values (tuples s)).

Definition list_watches (s : InMemorySpaceStore) : result (list SpaceWatchRecord) Error :=
  Ok (map_values (watches s)).
End queries.

(** The loop of [commit_txn] and [abort_txn] that makes buffered tuples visible. *)
Definition publish_one (s : InMemorySpaceStore) (record : TupleRecord) : InMemorySpaceStore :=
  let s := set_txn_lease_index s (delete (tp_lease_id record) (txn_lease_index s)) in
  set_committed s (<[tp_tuple_id record := record]> (tuples s))
    (<[tp_lease_id record := tp_tuple_id record]> (lease_index s)).

Definition publish (s : InMemorySpaceStore) (l : list TupleRecord) : InMemorySpaceStore :=
  foldl publish_one s l.

(** The loop that forgets the leases of dropped tuples. *)
Definition unindex (s : InMemorySpaceStore) (l : list TupleRecord) : InMemorySpaceStore :=
  foldl (λ s r, set_txn_lease_index s (delete (tp_lease_id r) (txn_lease_index s))) s l.

Definition commit_txn (s : InMemorySpaceStore) (txn_id : string)
  : InMemorySpaceStore * result (list TupleRecord * list TupleRecord) Error :=
  let flushed := buf s BUncommitted txn_id in
  let s := publish (drop_buffer s BUncommitted txn_id) flushed in
  let taken := buf s BTaken txn_id ++ buf s BSelfTaken txn_id in
  let s := drop_buffer (drop_buffer s BTaken txn_id) BSelfTaken txn_id in
  (unindex s taken, Ok (flushed, taken)).

Definition abort_txn (s : InMemorySpaceStore) (txn_id : string)
  : InMemorySpaceStore * result (list TupleRecord * list TupleRecord) Error :=
  let discarded := buf s BUncommitted txn_id ++ buf s BSelfTaken txn_id in
  let s := drop_buffer (drop_buffer s BUncommitted txn_id) BSelfTaken txn_id in
  let s := unindex s discarded in
  let restored := buf s BTaken txn_id in
  (publish (drop_buffer s BTaken txn_id) restored, Ok (discarded, restored)).

Definition non_empty (o : option (list TupleRecord)) : bool :=
  match o with Some (_ :: _) => true | _ => false end.

Definition has_txn (s : InMemorySpaceStore) (txn_id : string) : result bool Error :=
  let has_writes := non_empty (uncommitted s !! txn_id) in
  let has_takes := non_empty (txn_taken s !! txn_id) || non_empty (txn_self_taken s !! txn_id) in
  Ok (has_writes || has_takes).

Definition create_watch (s : InMemorySpaceStore) (w : SpaceWatchRecord)
  : InMemorySpaceStore * result unit Error :=
  (set_watches s (<[wt_watch_id w := w]> (watches s))
     (<[wt_lease_id w := wt_watch_id w]> (watch_lease_index s)), Ok ()).

Definition remove_watch (s : InMemorySpaceStore) (watch_id : string)
  : InMemorySpaceStore * result unit Error :=
  match watches s !! watch_id with
  | Some w =>
      (set_watches s (delete watch_id (watches s))
         (delete (wt_lease_id w) (watch_lease_index s)), Ok ())
  | None => (s, Ok ())
  end.

Definition remove_watch_by_lease (s : InMemorySpaceStore) (lease_id : string)
  : InMemorySpaceStore * result (option SpaceWatchRecord) Error :=
  match watch_lease_index s !! lease_id with
  | Some watch_id =>
      let s := set_watches s (watches s) (delete lease_id (watch_lease_index s)) in
      match watches s !! watch_id with
      | Some w => (set_watches s (delete watch_id (watches s)) (watch_lease_index s), Ok (Some w))
      | None => (s, Ok None)
      end
  | None => (s, Ok None)
  end.

(** ** The abstract space *)

(** Where a tuple is: visible to all, or in a buffer of one transaction. *)
Inductive Place := Visible | Held (b : Buffer) (txn_id : string).

#[global] Instance Place_eq_dec : EqDecision Place.
Proof. solve_decision. Defined.

Abbreviation space := (gmap string (TupleRecord * Place)).

(** Commit: own writes become visible, what was taken is gone. *)
Definition commit_place (txn_id : string) (p : Place) : option Place :=
  match p with
  | Held b t =>
      if String.eqb t txn_id then
        match b with BUncommitted => Some Visible | BTaken | BSelfTaken => None end
      else Some p
  | Visible => Some Visible
  end.

(** Abort: what was taken becomes visible again, own writes are gone. *)
Definition abort_place (txn_id : string) (p : Place) : option Place :=
  match p with
  | Held b t =>
      if String.eqb t txn_id then
        match b with BTaken => Some Visible | BUncommitted | BSelfTaken => None end
      else Some p
  | Visible => Some Visible
  end.

Definition move_all (f : Place → option Place) (a : space) : space :=
  omap (λ rp, (λ p, (rp.1, p)) <$> f rp.2) a.

Definition drop_lease (lease_id : string) (a : space) : space :=
  filter (λ kv, tp_lease_id kv.2.1 ≠ lease_id) a.

(** A tuple whose id and lease are new to the space. *)
Definition fresh_tuple (a : space) (r : TupleRecord) : Prop :=
  a !! tp_tuple_id r = None ∧ ∀ id r' p, a !! id = Some (r', p) → tp_lease_id r' ≠ tp_lease_id r.

(** The store represents the abstract space: every tuple is in the one place it
    says, in no other, and both lease indexes are exact. *)
Record represents (s : InMemorySpaceStore) (a : space) : Prop := {
  rp_key : ∀ id r p, a !! id = Some (r, p) → tp_tuple_id r = id;
  rp_lease : ∀ id1 id2 r1 r2 p1 p2, a !! id1 = Some (r1, p1) → a !! id2 = Some (r2, p2) →
    tp_lease_id r1 = tp_lease_id r2 → id1 = id2;
  rp_tuples : ∀ id r, tuples s !! id = Some r ↔ a !! id = Some (r, Visible);
  rp_buf : ∀ b t r, r ∈ buf s b t ↔ a !! tp_tuple_id r = Some (r, Held b t);
  rp_nodup : ∀ b t, NoDup (tp_tuple_id <$> buf s b t);
  rp_lease_index : ∀ l id, lease_index s !! l = Some id ↔
    ∃ r, a !! id = Some (r, Visible) ∧ tp_lease_id r = l;
  rp_txn_index : ∀ l t id, txn_lease_index s !! l = Some (t, id) ↔
    ∃ r b, a !! id = Some (r, Held b t) ∧ tp_lease_id r = l
}.

(** *** Building blocks: one tuple enters or leaves one place *)

Lemma buf_set s b m b' t :
  buf (set_buffer s b m) b' t = if decide (b = b') then default [] (m !! t) else buf s b' t.
Proof. unfold buf. by destruct b, b'. Qed.

Lemma buf_push s b t r b' t' :
  buf (push_buffer s b t r) b' t' =
    if decide (b = b' ∧ t = t') then buf s b t ++ [r] else buf s b' t'.
Proof.
  unfold push_buffer. rewrite buf_set. destruct (decide (b = b')) as [<-|Hb].
  - destruct (decide (t = t')) as [<-|Ht].
    + by rewrite decide_True, lookup_insert_eq.
    + by rewrite decide_False, lookup_insert_ne by naive_solver.
  - by rewrite decide_False by naive_solver.
Qed.

Lemma buf_drop s b t b' t' :
  buf (drop_buffer s b t) b' t' = if decide (b = b' ∧ t = t') then [] else buf s b' t'.
Proof.
  unfold drop_buffer. rewrite buf_set. destruct (decide (b = b')) as [<-|Hb].
  - destruct (decide (t = t')) as [<-|Ht].
    + by rewrite decide_True, lookup_delete_eq.
    + by rewrite decide_False, lookup_delete_ne by naive_solver.
  - by rewrite decide_False by naive_solver.
Qed.

Lemma add_visible s a r :
  represents s a → fresh_tuple a r →
  represents (insert s r).1 (<[tp_tuple_id r := (r, Visible)]> a).
Proof.
  intros [Hk Hl Ht Hb Hnd Hli Hti] [Hn Hfl]. split; simpl.
  - intros id r' p. rewrite lookup_insert_Some. naive_solver.
  - intros id1 id2 r1 r2 p1 p2. rewrite !lookup_insert_Some. naive_solver.
  - intros id r'. rewrite !lookup_insert_Some, Ht. naive_solver.
  - intros b t r'. change (buf _ b t) with (buf s b t). rewrite Hb, lookup_insert_Some.
    destruct (decide (tp_tuple_id r = tp_tuple_id r')) as [E|E]; naive_solver congruence.
  - done.
  - intros l id. rewrite lookup_insert_Some, Hli. setoid_rewrite lookup_insert_Some.
    destruct (decide (tp_lease_id r = l)); naive_solver.
  - intros l t id. rewrite Hti. setoid_rewrite lookup_insert_Some. naive_solver congruence.
Qed.

Lemma drop_visible s a id r :
  represents s a → a !! id = Some (r, Visible) →
  represents (set_committed s (delete id (tuples s)) (delete (tp_lease_id r) (lease_index s)))
    (delete id a).
Proof.
  intros [Hk Hl Ht Hb Hnd Hli Hti] Hr. split; simpl.
  - intros id' r' p. rewrite lookup_delete_Some. naive_solver.
  - intros id1 id2 r1 r2 p1 p2. rewrite !lookup_delete_Some. naive_solver.
  - intros id' r'. rewrite !lookup_delete_Some, Ht. naive_solver.
  - intros b t r'. change (buf _ b t) with (buf s b t). rewrite Hb, lookup_delete_Some.
    split; [|tauto]. intros Hr'. split; [|done]. intros ->. congruence.
  - done.
  - intros l id'. rewrite lookup_delete_Some, Hli. setoid_rewrite lookup_delete_Some.
    split.
    + intros [Hne (r' & Hr' & <-)]. exists r'. split; [|done]. split; [|done].
      intros ->. congruence.
    + intros (r' & [Hne Hr'] & <-). split; [|eauto]. intros E. apply Hne. by eapply Hl.
  - intros l t id'. rewrite Hti. setoid_rewrite lookup_delete_Some. split.
    + intros (r' & b & Hr' & <-). exists r', b. split; [|done]. split; [|done].
      intros ->. congruence.
    + intros (r' & b & [_ Hr'] & <-). eauto.
Qed.

Lemma add_held s a b t r :
  represents s a → fresh_tuple a r →
  represents
    (push_buffer (set_txn_lease_index s
       (<[tp_lease_id r := (t, tp_tuple_id r)]> (txn_lease_index s))) b t r)
    (<[tp_tuple_id r := (r, Held b t)]> a).
Proof.
  intros [Hk Hl Ht Hb Hnd Hli Hti] [Hn Hfl].
  assert (Htup : ∀ s', tuples (push_buffer s' b t r) = tuples s' ∧
    lease_index (push_buffer s' b t r) = lease_index s' ∧
    txn_lease_index (push_buffer s' b t r) = txn_lease_index s') by (intros s'; by destruct b).
  edestruct Htup as (E1 & E2 & E3). split; rewrite ?E1, ?E2, ?E3; clear Htup E1 E2 E3; simpl.
  - intros id r' p. rewrite lookup_insert_Some. naive_solver.
  - intros id1 id2 r1 r2 p1 p2. rewrite !lookup_insert_Some. naive_solver.
  - intros id r'. rewrite Ht, lookup_insert_Some. naive_solver congruence.
  - intros b' t' r'. rewrite buf_push. change (buf (set_txn_lease_index _ _)) with (buf s).
    rewrite lookup_insert_Some. case_decide as E.
    + destruct E as [<- <-]. rewrite elem_of_app, list_elem_of_singleton, Hb. split.
      * intros [Hr'|Hr']; [right; split; [congruence|done]|subst; by left].
      * intros [[_ [= ->]]|[_ ?]]; [by right|by left].
    + rewrite Hb. split.
      * intros Hr'. right. split; [congruence|done].
      * intros [[_ [= _ -> ->]]|[_ ?]]; [by destruct E|done].
  - intros b' t'. rewrite buf_push. change (buf (set_txn_lease_index _ _)) with (buf s).
    case_decide as E; [|done]. rewrite fmap_app. apply NoDup_app. split_and!; [done| |].
    + intros id (r' & -> & Hr')%list_elem_of_fmap Hid%list_elem_of_singleton.
      rewrite Hb in Hr'. congruence.
    + apply NoDup_singleton.
  - intros l id. rewrite Hli. setoid_rewrite lookup_insert_Some. naive_solver congruence.
  - intros l t' id. rewrite lookup_insert_Some, Hti. setoid_rewrite lookup_insert_Some.
    destruct (decide (tp_lease_id r = l)); naive_solver.
Qed.

Lemma drop_held s a b t l' r :
  represents s a → buf s b t ≡ₚ r :: l' →
  represents
    (set_buffer (set_txn_lease_index s (delete (tp_lease_id r) (txn_lease_index s))) b
       (<[t := l']> (get_buffer s b)))
    (delete (tp_tuple_id r) a).
Proof.
  intros [Hk Hl Ht Hb Hnd Hli Hti] Hp.
  assert (Hr : a !! tp_tuple_id r = Some (r, Held b t)) by (apply Hb; rewrite Hp; left).
  assert (Hnd' := Hnd b t). rewrite Hp, fmap_cons, NoDup_cons in Hnd'.
  destruct Hnd' as [Hnot Hnd'].
  set (s1 := set_txn_lease_index _ _).
  assert (Htup : ∀ m, tuples (set_buffer s1 b m) = tuples s ∧
    lease_index (set_buffer s1 b m) = lease_index s ∧
    txn_lease_index (set_buffer s1 b m) = delete (tp_lease_id r) (txn_lease_index s))
    by (intros m; by destruct b).
  edestruct Htup as (E1 & E2 & E3). split; rewrite ?E1, ?E2, ?E3; clear Htup E1 E2 E3.
  - intros id' r' p. rewrite lookup_delete_Some. naive_solver.
  - intros id1 id2 r1 r2 p1 p2. rewrite !lookup_delete_Some. naive_solver.
  - intros id' r'. rewrite lookup_delete_Some, Ht. split; [|tauto]. intros ?. split; [|done].
    intros <-. congruence.
  - intros b' t' r'. rewrite buf_set. change (buf s1) with (buf s). rewrite lookup_delete_Some.
    assert (Hold : r' ∈ buf s b' t' ↔ a !! tp_tuple_id r' = Some (r', Held b' t')) by done.
    destruct (decide (b = b')) as [<-|Hne]; [destruct (decide (t = t')) as [<-|Hne]|].
    + rewrite lookup_insert_eq. simpl. rewrite Hp, elem_of_cons in Hold. rewrite <- Hold.
      split.
      * intros Hin. split; [|by right]. intros E. apply Hnot. rewrite E.
        by apply list_elem_of_fmap_2.
      * intros [E [->|?]]; done.
    + rewrite lookup_insert_ne by done. fold (buf s b t'). rewrite Hold.
      split; [|tauto]. intros Hr'. split; [|done]. intros E. rewrite E in Hr. congruence.
    + rewrite Hold. split; [|tauto]. intros Hr'. split; [|done].
      intros E. rewrite E in Hr. congruence.
  - intros b' t'. rewrite buf_set. change (buf s1) with (buf s).
    destruct (decide (b = b')) as [<-|Hne]; [|done].
    destruct (decide (t = t')) as [<-|Hne]; [by rewrite lookup_insert_eq|].
    by rewrite lookup_insert_ne by done; apply (Hnd b t').
  - intros l id'. rewrite Hli. setoid_rewrite lookup_delete_Some. split.
    + intros (r' & Hr' & <-). exists r'. split; [|done]. split; [|done]. intros <-. congruence.
    + intros (r' & [_ Hr'] & <-). eauto.
  - intros l t' id'. rewrite lookup_delete_Some, Hti. setoid_rewrite lookup_delete_Some. split.
    + intros [Hne (r' & b' & Hr' & <-)]. exists r', b'. split; [|done]. split; [|done].
      intros <-. congruence.
    + intros (r' & b' & [Hne Hr'] & <-). split; [|eauto]. intros E. apply Hne. by eapply Hl.
Qed.

(** *** A transaction ends *)

(** Both endings publish one buffer and forget the other two. *)
Definition settle_place (bp : Buffer) (txn_id : string) (p : Place) : option Place :=
  match p with
  | Held b t =>
      if String.eqb t txn_id then if decide (b = bp) then Some Visible else None else Some p
  | Visible => Some Visible
  end.

Lemma commit_settle t p : commit_place t p = settle_place BUncommitted t p.
Proof. destruct p as [|[] ?]; simpl; try done; by destruct (String.eqb _ _). Qed.

Lemma abort_settle t p : abort_place t p = settle_place BTaken t p.
Proof. destruct p as [|[] ?]; simpl; try done; by destruct (String.eqb _ _). Qed.

Lemma settle_visible bp t p :
  settle_place bp t p = Some Visible ↔ p = Visible ∨ p = Held bp t.
Proof.
  destruct p as [|b t']; simpl; [naive_solver|].
  destruct (String.eqb_spec t' t); [|naive_solver]. case_decide; naive_solver.
Qed.

Lemma settle_held bp t p b t' :
  settle_place bp t p = Some (Held b t') ↔ p = Held b t' ∧ t' ≠ t.
Proof.
  destruct p as [|b0 t0]; simpl; [naive_solver|].
  destruct (String.eqb_spec t0 t); [|naive_solver]. case_decide; naive_solver.
Qed.

Lemma lookup_move f (a : space) id r p :
  move_all f a !! id = Some (r, p) ↔ ∃ p0, a !! id = Some (r, p0) ∧ f p0 = Some p.
Proof.
  unfold move_all. rewrite lookup_omap. destruct (a !! id) as [[r0 p0]|]; simpl.
  - destruct (f p0) eqn:E; simpl; naive_solver.
  - naive_solver.
Qed.

Lemma nodup_leases s a b t : represents s a → NoDup (tp_lease_id <$> buf s b t).
Proof.
  intros HR. pose proof (rp_nodup _ _ HR b t) as Hnd.
  assert (Hin : ∀ r, r ∈ buf s b t → a !! tp_tuple_id r = Some (r, Held b t))
    by (intros r; by rewrite (rp_buf _ _ HR)).
  induction (buf s b t) as [|r l IH]; [constructor|].
  rewrite fmap_cons, NoDup_cons in Hnd |- *. destruct Hnd as [Hn Hnd].
  split; [|apply IH; [done|]; intros; apply Hin; by right].
  intros (r' & E & Hr')%list_elem_of_fmap. apply Hn.
  assert (tp_tuple_id r = tp_tuple_id r') as ->.
  { eapply (rp_lease _ _ HR); [apply Hin; left|apply Hin; by right|done]. }
  by apply list_elem_of_fmap_2.
Qed.

Lemma settle_represents s s' a t bp :
  represents s a →
  tuples s' = foldl (λ m r, <[tp_tuple_id r := r]> m) (tuples s) (buf s bp t) →
  lease_index s' =
    foldl (λ m r, <[tp_lease_id r := tp_tuple_id r]> m) (lease_index s) (buf s bp t) →
  (∀ l x, txn_lease_index s' !! l = Some x ↔
     txn_lease_index s !! l = Some x ∧ ∀ b r, r ∈ buf s b t → tp_lease_id r ≠ l) →
  (∀ b t', buf s' b t' = if decide (t = t') then [] else buf s b t') →
  represents s' (move_all (settle_place bp t) a).
Proof.
  intros HR Ht' Hli' Hti' Hb'. pose proof (nodup_leases s a bp t HR) as Hndl.
  destruct HR as [Hk Hl Ht Hb Hnd Hli Hti]. split.
  - intros id r p. rewrite lookup_move. naive_solver.
  - intros id1 id2 r1 r2 p1 p2. rewrite !lookup_move. naive_solver.
  - intros id r. rewrite lookup_move, Ht', foldl_insert_lookup by done.
    setoid_rewrite settle_visible. rewrite Ht. split.
    + intros [(r0 & Hin & <- & ->)|[? _]]; [|eauto]. apply Hb in Hin. eauto.
    + intros (p0 & Hr & [-> | ->]).
      * right. split; [done|]. intros (r0 & -> & Hin)%list_elem_of_fmap. apply Hb in Hin.
        congruence.
      * left. exists r. rewrite Hb. rewrite (Hk _ _ _ Hr). eauto.
  - intros b t' r. rewrite Hb', lookup_move. setoid_rewrite settle_held.
    case_decide as E; [|rewrite Hb; naive_solver]. subst. split; [by intros ?%not_elem_of_nil|].
    naive_solver.
  - intros b t'. rewrite Hb'. case_decide; [constructor|done].
  - intros l id. rewrite Hli', foldl_insert_lookup by done. setoid_rewrite lookup_move.
    setoid_rewrite settle_visible. rewrite Hli. split.
    + intros [(r0 & Hin & <- & <-)|[(r & ? & ?) _]]; [|naive_solver].
      apply Hb in Hin. naive_solver.
    + intros (r & (p0 & Hr & [-> | ->]) & <-).
      * right. split; [eauto|]. intros (r0 & E & Hin)%list_elem_of_fmap. apply Hb in Hin.
        assert (id = tp_tuple_id r0) as -> by (by eapply Hl). congruence.
      * left. exists r. rewrite Hb, (Hk _ _ _ Hr). eauto.
  - intros l t' id. rewrite Hti', Hti. setoid_rewrite lookup_move.
    setoid_rewrite settle_held. split.
    + intros [(r & b & Hr & <-) Hno]. exists r, b. split; [|done]. eexists. split_and!; [done..|].
      intros ->. apply (Hno b r); [|done]. by rewrite Hb, (Hk _ _ _ Hr).
    + intros (r & b & (p0 & Hr & -> & Hne) & <-). split; [eauto|].
      intros b0 r0 Hin E. apply Hb in Hin.
      assert (tp_tuple_id r0 = id) as E' by (by eapply Hl). rewrite E' in Hin. congruence.
Qed.

(** What the two loops leave untouched. *)
Lemma publish_spec s l :
  tuples (publish s l) = foldl (λ m r, <[tp_tuple_id r := r]> m) (tuples s) l ∧
  lease_index (publish s l) =
    foldl (λ m r, <[tp_lease_id r := tp_tuple_id r]> m) (lease_index s) l ∧
  txn_lease_index (publish s l) =
    foldl (λ m r, delete (tp_lease_id r) m) (txn_lease_index s) l ∧
  (∀ b, get_buffer (publish s l) b = get_buffer s b) ∧
  watches (publish s l) = watches s ∧ watch_lease_index (publish s l) = watch_lease_index s.
Proof.
  revert s. induction l as [|r l IH]; intros s; [done|].
  change (publish s (r :: l)) with (publish (publish_one s r) l). cbn [foldl].
  destruct (IH (publish_one s r)) as (-> & -> & -> & Hb & -> & ->).
  split_and!; try done.
Qed.

Lemma unindex_spec s l :
  unindex s l =
    set_txn_lease_index s (foldl (λ m r, delete (tp_lease_id r) m) (txn_lease_index s) l).
Proof.
  revert s. induction l as [|r l IH]; intros s; [by destruct s|]. cbn [unindex foldl].
  unfold unindex in IH. by rewrite IH.
Qed.

Lemma commit_represents s a t :
  represents s a → represents (commit_txn s t).1 (move_all (commit_place t) a).
Proof.
  intros HR. assert (Ext : move_all (commit_place t) a = move_all (settle_place BUncommitted t) a).
  { apply map_eq. intros id. apply option_eq. intros [r p]. rewrite !lookup_move.
    by setoid_rewrite commit_settle. }
  rewrite Ext. unfold commit_txn. cbv zeta. cbn [fst]. rewrite unindex_spec.
  set (s1 := drop_buffer s BUncommitted t).
  destruct (publish_spec s1 (buf s BUncommitted t)) as (E1 & E2 & E3 & Eb & _).
  assert (Hbuf : ∀ b t', buf (publish s1 (buf s BUncommitted t)) b t' =
    if decide (b = BUncommitted ∧ t = t') then [] else buf s b t').
  { intros b t'. unfold buf at 1. rewrite Eb. fold (buf s1 b t'). unfold s1. rewrite buf_drop.
    do 2 case_decide; try done; naive_solver. }
  pose proof (Hbuf BTaken t) as Hbt. pose proof (Hbuf BSelfTaken t) as Hbs.
  rewrite decide_False in Hbt by (by intros [? _]).
  rewrite decide_False in Hbs by (by intros [? _]).
  apply settle_represents with (s := s); [done|exact E1|exact E2|..].
  - intros l x. change (txn_lease_index (set_txn_lease_index ?x ?m)) with m.
    change (txn_lease_index (drop_buffer (drop_buffer ?x BTaken t) BSelfTaken t))
      with (txn_lease_index x).
    rewrite E3, !foldl_delete_lookup, Hbt, Hbs, fmap_app. change (txn_lease_index s1) with (txn_lease_index s).
    case_decide as H1; [|case_decide as H2].
    + split; [done|]. intros [_ Hno]. exfalso.
      apply elem_of_app in H1 as [H1|H1]; apply list_elem_of_fmap in H1 as (r & -> & Hr);
        by eapply Hno.
    + split; [done|]. intros [_ Hno]. apply list_elem_of_fmap in H2 as (r & -> & Hr).
      exfalso. by eapply Hno.
    + split; [|tauto]. intros ?. split; [done|]. intros b r Hin <-.
      destruct b; [apply H2|apply H1, elem_of_app; left|apply H1, elem_of_app; right];
        by apply list_elem_of_fmap_2.
  - intros b t'. change (buf (set_txn_lease_index ?x _)) with (buf x).
    rewrite !buf_drop, Hbuf. destruct b; repeat case_decide; intuition congruence.
Qed.

Lemma abort_represents s a t :
  represents s a → represents (abort_txn s t).1 (move_all (abort_place t) a).
Proof.
  intros HR. assert (Ext : move_all (abort_place t) a = move_all (settle_place BTaken t) a).
  { apply map_eq. intros id. apply option_eq. intros [r p]. rewrite !lookup_move.
    by setoid_rewrite abort_settle. }
  rewrite Ext. unfold abort_txn. cbv zeta. cbn [fst]. rewrite unindex_spec.
  set (gone := buf s BUncommitted t ++ buf s BSelfTaken t).
  set (s1 := set_txn_lease_index _ _).
  assert (Hbuf : ∀ b t', buf s1 b t' =
    if decide (b ≠ BTaken ∧ t = t') then [] else buf s b t').
  { intros b t'. unfold s1. change (buf (set_txn_lease_index ?x _)) with (buf x).
    rewrite !buf_drop. destruct b; repeat case_decide; intuition congruence. }
  assert (Hbt : buf s1 BTaken t = buf s BTaken t) by (rewrite Hbuf, decide_False by tauto; done).
  rewrite Hbt.
  destruct (publish_spec (drop_buffer s1 BTaken t) (buf s BTaken t)) as (E1 & E2 & E3 & Eb & _).
  apply settle_represents with (s := s); [done|exact E1|exact E2|..].
  - intros l x. rewrite E3, foldl_delete_lookup.
    change (txn_lease_index (drop_buffer s1 BTaken t)) with
      (foldl (λ m r, delete (tp_lease_id r) m) (txn_lease_index s) gone).
    rewrite foldl_delete_lookup. unfold gone. rewrite fmap_app.
    case_decide as H1; [|case_decide as H2].
    + split; [done|]. intros [_ Hno]. apply list_elem_of_fmap in H1 as (r & -> & Hr).
      exfalso. by eapply Hno.
    + split; [done|]. intros [_ Hno]. exfalso.
      apply elem_of_app in H2 as [H2|H2]; apply list_elem_of_fmap in H2 as (r & -> & Hr);
        by eapply Hno.
    + split; [|tauto]. intros ?. split; [done|]. intros b r Hin <-.
      destruct b; [apply H2, elem_of_app; left|apply H1|apply H2, elem_of_app; right];
        by apply list_elem_of_fmap_2.
  - intros b t'. unfold buf at 1. rewrite Eb. fold (buf (drop_buffer s1 BTaken t) b t').
    rewrite buf_drop, Hbuf. destruct b; repeat case_decide; intuition congruence.
Qed.

(** *** Expiry *)

Lemma drop_lease_hit s a id r p :
  represents s a → a !! id = Some (r, p) → drop_lease (tp_lease_id r) a = delete id a.
Proof.
  intros HR Hr. apply map_eq. intros id'. apply option_eq. intros [r' p'].
  unfold drop_lease. rewrite map_lookup_filter_Some, lookup_delete_Some. simpl. split.
  - intros [Hr' Hne]. split; [|done]. intros ->. congruence.
  - intros [Hne Hr']. split; [done|]. intros E. apply Hne. by eapply (rp_lease _ _ HR).
Qed.

Lemma drop_lease_miss (a : space) l :
  (∀ id r p, a !! id = Some (r, p) → tp_lease_id r ≠ l) → drop_lease l a = a.
Proof. intros H. apply map_filter_id. intros id [r p] Hr. by eapply H. Qed.

Lemma remove_first_tuple s a b t r :
  represents s a → r ∈ buf s b t →
  ∃ l', remove_first (λ r', String.eqb (tp_tuple_id r') (tp_tuple_id r)) (buf s b t) = Some (r, l') ∧
        buf s b t ≡ₚ r :: l'.
Proof.
  intros HR Hin. destruct (remove_first _ (buf s b t)) as [[r0 l']|] eqn:E.
  - apply remove_first_Some in E as [Heq Hp]. apply String.eqb_eq in Heq.
    assert (Hin0 : r0 ∈ buf s b t) by (rewrite Hp; left).
    rewrite (rp_buf _ _ HR) in Hin, Hin0. rewrite Heq in Hin0. simplify_eq. eauto.
  - rewrite remove_first_None in E. specialize (E r Hin). by rewrite String.eqb_refl in E.
Qed.

(** The buffer loop finds the tuple where it is, and nothing elsewhere. *)
Lemma remove_buffered_hit s a b t r bs m :
  represents s a → r ∈ buf s b t → b ∈ bs →
  ∃ l', buf s b t ≡ₚ r :: l' ∧
    remove_buffered (set_txn_lease_index s m) bs t (tp_tuple_id r) =
      (set_buffer (set_txn_lease_index s m) b (<[t := l']> (get_buffer s b)), Some r).
Proof.
  intros HR Hin Hb. induction bs as [|b0 bs IH]; [by apply not_elem_of_nil in Hb|].
  cbn [remove_buffered].
  assert (Hgb : get_buffer (set_txn_lease_index s m) b0 = get_buffer s b0) by (by destruct b0).
  rewrite Hgb. destruct (decide (b = b0)) as [<-|Hne].
  - destruct (remove_first_tuple s a b t r HR Hin) as (l' & E & Hp). exists l'. split; [done|].
    unfold buf in *. destruct (get_buffer s b !! t) as [l|] eqn:Hl.
    + simpl in E. by rewrite E.
    + by apply not_elem_of_nil in Hin.
  - destruct IH as (l' & Hp & IH); [set_solver|]. exists l'. split; [done|].
    destruct (get_buffer s b0 !! t) as [l|] eqn:Hl; [|done].
    destruct (remove_first _ l) as [[r0 l0]|] eqn:E; [|done]. exfalso.
    apply remove_first_Some in E as [Heq Hp0]. apply String.eqb_eq in Heq.
    assert (Hin0 : r0 ∈ buf s b0 t) by (unfold buf; rewrite Hl; simpl; rewrite Hp0; left).
    rewrite (rp_buf _ _ HR) in Hin, Hin0. rewrite Heq in Hin0. simplify_eq.
Qed.

Lemma remove_by_lease_represents s a l :
  represents s a →
  represents (remove_by_lease s l).1 (drop_lease l a) ∧
  match (remove_by_lease s l).2 with
  | Ok (Some r) => tp_lease_id r = l ∧ ∃ p, a !! tp_tuple_id r = Some (r, p)
  | Ok None => ∀ id r p, a !! id = Some (r, p) → tp_lease_id r ≠ l
  | Err _ => False
  end.
Proof.
  intros HR. unfold remove_by_lease. destruct (lease_index s !! l) as [id|] eqn:Hl.
  - apply (rp_lease_index _ _ HR) in Hl as (r & Hr & <-).
    assert (Ht : tuples s !! id = Some r) by (by apply (rp_tuples _ _ HR)).
    cbn [tuples set_committed]. rewrite Ht. cbn [fst snd].
    rewrite (drop_lease_hit s a id r Visible) by done. split.
    + exact (drop_visible s a id r HR Hr).
    + split; [done|]. exists Visible. by rewrite (rp_key _ _ HR _ _ _ Hr).
  - unfold remove_by_lease_buffered.
    destruct (txn_lease_index s !! l) as [[t id]|] eqn:Hti.
    + apply (rp_txn_index _ _ HR) in Hti as (r & b & Hr & <-).
      pose proof (rp_key _ _ HR _ _ _ Hr) as <-.
      assert (Hin : r ∈ buf s b t) by (by apply (rp_buf _ _ HR)).
      destruct (remove_buffered_hit s a b t r [BUncommitted; BTaken; BSelfTaken]
                  (delete (tp_lease_id r) (txn_lease_index s)) HR Hin)
        as (l' & Hp & E); [destruct b; set_solver|].
      rewrite E. cbn [fst snd]. rewrite (drop_lease_hit s a (tp_tuple_id r) r (Held b t)) by done.
      split; [by apply drop_held|]. eauto.
    + assert (Hno : ∀ id r p, a !! id = Some (r, p) → tp_lease_id r ≠ l).
      { intros id r [|b t] Hr E.
        - assert (lease_index s !! l = Some id) by (apply (rp_lease_index _ _ HR); eauto).
          congruence.
        - assert (txn_lease_index s !! l = Some (t, id)) by (apply (rp_txn_index _ _ HR); eauto).
          congruence. }
      cbn [fst snd]. by rewrite drop_lease_miss.
Qed.

(** *** Taking *)
Section taking.
Context {I : MapIter}.

Lemma take_loop_once n s ops txn_id :
  take_loop (S n) s ops txn_id =
    match map_find (λ r, matches ops (tp_attrs r)) (tuples s) with
    | Some (id, _) =>
        match claim s id txn_id with
        | Some (s', r) => (s', Ok (Some r))
        | None => (s, Ok None)
        end
    | None => (s, Ok None)
    end.
Proof.
  simpl. destruct (map_find _ _) as [[id r]|] eqn:E; [|done].
  apply map_find_Some in E as [Hr _]. unfold claim. rewrite Hr. by destruct txn_id.
Qed.

(** The place a tuple taken from [p] goes to. *)
Definition taken_to (txn_id : option string) (p : Place) : option Place :=
  match txn_id with
  | None => None
  | Some t => Some (Held (if decide (p = Visible) then BTaken else BSelfTaken) t)
  end.

Definition take_tuple (txn_id : option string) (r : TupleRecord) (p : Place) (a : space) : space :=
  match taken_to txn_id p with
  | Some p' => <[tp_tuple_id r := (r, p')]> a
  | None => delete (tp_tuple_id r) a
  end.

(** What a client may see: visible tuples, and its own transaction's writes. *)
Definition available (txn_id : option string) (p : Place) : Prop :=
  p = Visible ∨ ∃ t, txn_id = Some t ∧ p = Held BUncommitted t.

Lemma claim_represents s a id r txn_id :
  represents s a → a !! id = Some (r, Visible) →
  ∃ s', claim s id txn_id = Some (s', r) ∧ represents s' (take_tuple txn_id r Visible a).
Proof.
  intros HR Hr. unfold claim. rewrite (proj2 (rp_tuples _ _ HR id r) Hr).
  pose proof (drop_visible s a id r HR Hr) as HR'. pose proof (rp_key _ _ HR _ _ _ Hr) as <-.
  destruct txn_id as [t|]; unfold take_tuple, taken_to; [|eauto].
  rewrite decide_True by done. eexists. split; [done|]. rewrite <- (insert_delete_eq a).
  apply (add_held _ _ BTaken t r HR'). split.
  - by rewrite lookup_delete_eq.
  - intros id' r' p. rewrite lookup_delete_Some. intros [Hne Hr'] E. apply Hne.
    symmetry. by eapply (rp_lease _ _ HR).
Qed.

Lemma self_take_represents s a t r b' :
  represents s a → buf s BUncommitted t ≡ₚ r :: b' →
  represents
    (push_buffer (set_buffer s BUncommitted (<[t := b']> (uncommitted s))) BSelfTaken t r)
    (take_tuple (Some t) r (Held BUncommitted t) a).
Proof.
  intros HR Hp.
  assert (Hr : a !! tp_tuple_id r = Some (r, Held BUncommitted t))
    by (apply (rp_buf _ _ HR); rewrite Hp; left).
  pose proof (drop_held s a BUncommitted t b' r HR Hp) as HR'.
  apply (add_held _ _ BSelfTaken t r) in HR'.
  - unfold take_tuple. simpl. rewrite insert_delete_eq in HR'. simpl in HR'.
    assert (Hidx : <[tp_lease_id r := (t, tp_tuple_id r)]>
              (delete (tp_lease_id r) (txn_lease_index s)) = txn_lease_index s).
    { rewrite insert_delete_id; [done|]. apply (rp_txn_index _ _ HR). eauto. }
    rewrite Hidx in HR'. unfold push_buffer, set_txn_lease_index, set_buffer in *. simpl in *.
    exact HR'.
  - split; [by rewrite lookup_delete_eq|].
    intros id' r' p. rewrite lookup_delete_Some. intros [Hne Hr'] E. apply Hne.
    symmetry. by eapply (rp_lease _ _ HR).
Qed.
End taking.
