(* ===== verification/SpaceSpec.v ===== *)
(** * What the tuple space promises

    The abstract space of [SpaceStore] as a specification of every store call,
    the refinement of the in-memory store to it, and what follows: a transaction
    that aborts leaves the space as it found it, an expired tuple never comes
    back, and concurrent takers never share a tuple. *)

From S2P Require Import Prelude CoreTypes Matcher SpaceStore.

(** ** Store calls *)
Inductive SpaceOp :=
| OInsert (r : TupleRecord)
| OInsertUncommitted (txn_id : string) (r : TupleRecord)
| OGet (tuple_id : string)
| ORemove (tuple_id : string)
| ORemoveByLease (lease_id : string)
| OFindMatch (template : attrs_map) (txn_id : option string)
| OTakeMatch (template : attrs_map) (txn_id : option string)
| OFindAll (template : attrs_map) (txn_id : option string)
| OCommit (txn_id : string)
| OAbort (txn_id : string)
| OHasTxn (txn_id : string).

Inductive SpaceRes :=
| RUnit (r : result unit Error)
| RTuple (r : result (option TupleRecord) Error)
| RTuples (r : result (list TupleRecord) Error)
| RPair (r : result (list TupleRecord * list TupleRecord) Error)
| RBool (r : result bool Error).

Definition map_snd {A B C} (f : B → C) (p : A * B) : A * C := (p.1, f p.2).

Section spec.
Context {I : MapIter}.

Definition apply_op (s : InMemorySpaceStore) (op : SpaceOp) : InMemorySpaceStore * SpaceRes :=
  match op with
  | OInsert r => map_snd RUnit (insert s r)
  | OInsertUncommitted t r => map_snd RUnit (insert_uncommitted s t r)
  | OGet id => (s, RTuple (get s id))
  | ORemove id => map_snd RTuple (remove s id)
  | ORemoveByLease l => map_snd RTuple (remove_by_lease s l)
  | OFindMatch tm t => (s, RTuple (find_match s tm t))
  | OTakeMatch tm t => map_snd RTuple (take_match s tm t)
  | OFindAll tm t => (s, RTuples (find_all_matches s tm t))
  | OCommit t => map_snd RPair (commit_txn s t)
  | OAbort t => map_snd RPair (abort_txn s t)
  | OHasTxn t => (s, RBool (has_txn s t))
  end.

(** Ids and leases come from [Uuid::new_v4]. *)
Definition op_fresh (a : space) (op : SpaceOp) : Prop :=
  match op with
  | OInsert r | OInsertUncommitted _ r => fresh_tuple a r
  | _ => True
  end.

(** The template accepts the tuple. *)
Definition accepts (template : attrs_map) (r : TupleRecord) : bool :=
  matches (parse_template template) (tp_attrs r).

(** The tuples a transaction holds in a buffer. *)
Definition holds (a : space) (b : Buffer) (t : string) (r : TupleRecord) : Prop :=
  a !! tp_tuple_id r = Some (r, Held b t).

(** The candidates of a query. *)
Definition candidate (a : space) (template : attrs_map) (txn_id : option string)
    (r : TupleRecord) (p : Place) : Prop :=
  a !! tp_tuple_id r = Some (r, p) ∧ available txn_id p ∧ accepts template r = true.

(** The specification: which answer and next space a call allows. *)
Definition allowed (a : space) (op : SpaceOp) (res : SpaceRes) (a' : space) : Prop :=
  match op, res with
  | OInsert r, RUnit (Ok _) => a' = <[tp_tuple_id r := (r, Visible)]> a
  | OInsertUncommitted t r, RUnit (Ok _) =>
      a' = <[tp_tuple_id r := (r, Held BUncommitted t)]> a
  | OGet id, RTuple (Ok o) => a' = a ∧ ∀ r, o = Some r ↔ a !! id = Some (r, Visible)
  | ORemove id, RTuple (Ok (Some r)) => a !! id = Some (r, Visible) ∧ a' = delete id a
  | ORemove id, RTuple (Ok None) => a' = a ∧ ∀ r, a !! id ≠ Some (r, Visible)
  | ORemoveByLease l, RTuple (Ok (Some r)) =>
      tp_lease_id r = l ∧ (∃ p, a !! tp_tuple_id r = Some (r, p)) ∧ a' = drop_lease l a
  | ORemoveByLease l, RTuple (Ok None) =>
      a' = a ∧ ∀ id r p, a !! id = Some (r, p) → tp_lease_id r ≠ l
  | OFindMatch tm t, RTuple (Ok (Some r)) => a' = a ∧ ∃ p, candidate a tm t r p
  | OTakeMatch tm t, RTuple (Ok (Some r)) =>
      ∃ p, candidate a tm t r p ∧ a' = take_tuple t r p a
  | OFindMatch tm t, RTuple (Ok None) | OTakeMatch tm t, RTuple (Ok None) =>
      a' = a ∧ ∀ r p, ¬ candidate a tm t r p
  | OFindAll tm t, RTuples (Ok l) =>
      a' = a ∧ NoDup (tp_tuple_id <$> l) ∧ ∀ r, r ∈ l ↔ ∃ p, candidate a tm t r p
  | OCommit t, RPair (Ok (flushed, taken)) =>
      a' = move_all (commit_place t) a ∧
      (∀ r, r ∈ flushed ↔ holds a BUncommitted t r) ∧
      (∀ r, r ∈ taken ↔ holds a BTaken t r ∨ holds a BSelfTaken t r)
  | OAbort t, RPair (Ok (discarded, restored)) =>
      a' = move_all (abort_place t) a ∧
      (∀ r, r ∈ discarded ↔ holds a BUncommitted t r ∨ holds a BSelfTaken t r) ∧
      (∀ r, r ∈ restored ↔ holds a BTaken t r)
  | OHasTxn t, RBool (Ok b) => a' = a ∧ (b = true ↔ ∃ k r, holds a k t r)
  | _, _ => False
  end.

(** ** Each call refines its specification *)

Lemma available_buf s a t r :
  represents s a →
  (∃ p, a !! tp_tuple_id r = Some (r, p) ∧ available (Some t) p) ↔
    tuples s !! tp_tuple_id r = Some r ∨ r ∈ buf s BUncommitted t.
Proof.
  intros HR. rewrite (rp_tuples _ _ HR), (rp_buf _ _ HR). unfold available. split.
  - intros (p & Hr & [-> |(t' & [= <-] & ->)]); auto.
  - intros [?|?]; eauto 10.
Qed.

Lemma available_none s a r :
  represents s a →
  (∃ p, a !! tp_tuple_id r = Some (r, p) ∧ available None p) ↔ tuples s !! tp_tuple_id r = Some r.
Proof.
  intros HR. rewrite (rp_tuples _ _ HR). unfold available. split.
  - by intros (p & Hr & [-> |(t' & ? & ?)]).
  - eauto 10.
Qed.

(** Where the source looks for candidates. *)
Definition pool_of (s : InMemorySpaceStore) (txn_id : option string) : list TupleRecord :=
  match txn_id with Some t => buf s BUncommitted t | None => [] end.

Lemma candidate_iff s a tm txn_id r :
  represents s a →
  (∃ p, candidate a tm txn_id r p) ↔
    (tuples s !! tp_tuple_id r = Some r ∨ r ∈ pool_of s txn_id) ∧ accepts tm r = true.
Proof.
  intros HR. unfold candidate. destruct txn_id as [t|]; simpl.
  - rewrite <- (available_buf s a t r HR). naive_solver.
  - pose proof (available_none s a r HR) as H. rewrite elem_of_nil. naive_solver.
Qed.

Lemma find_visible s a tm :
  represents s a →
  match map_find (λ r, matches (parse_template tm) (tp_attrs r)) (tuples s) with
  | Some (id, r) => tp_tuple_id r = id ∧ a !! id = Some (r, Visible) ∧ accepts tm r = true
  | None => ∀ r, tuples s !! tp_tuple_id r = Some r → accepts tm r = false
  end.
Proof.
  intros HR. destruct (map_find _ _) as [[id r]|] eqn:E.
  - apply map_find_Some in E as [Hr Hm]. apply (rp_tuples _ _ HR) in Hr.
    split_and!; [by eapply rp_key|done|done].
  - rewrite map_find_None in E. intros r Hr. by eapply E.
Qed.

Lemma find_match_refines s a tm txn_id :
  represents s a → allowed a (OFindMatch tm txn_id) (RTuple (find_match s tm txn_id)) a.
Proof.
  intros HR. pose proof (find_visible s a tm HR) as Hv. unfold find_match.
  destruct (map_find _ _) as [[id r]|].
  { destruct Hv as (<- & Hr & Hm). simpl. split; [done|]. exists Visible.
    split_and!; [done|by left|done]. }
  assert (Hres : match txn_id with
      | Some tid => match uncommitted s !! tid with
                    | Some b => Ok (List.find (λ r, matches (parse_template tm) (tp_attrs r)) b)
                    | None => Ok None end
      | None => Ok None end =
      (Ok (List.find (λ r, matches (parse_template tm) (tp_attrs r)) (pool_of s txn_id))
        : result (option TupleRecord) Error)).
  { destruct txn_id as [t|]; [|done]. simpl. unfold buf. simpl. by destruct (uncommitted s !! t). }
  rewrite Hres. clear Hres. destruct (List.find _ _) as [r|] eqn:E; simpl.
  - split; [done|]. apply List.find_some in E as [Hin Hm]. apply (candidate_iff s a tm txn_id r HR).
    rewrite list_elem_of_In. auto.
  - split; [done|]. intros r p Hc.
    assert (∃ p, candidate a tm txn_id r p) as [[Hr|Hin] Hm]%(candidate_iff s a tm txn_id r HR)
      by eauto.
    + by rewrite (Hv r Hr) in Hm.
    + apply list_elem_of_In in Hin. apply (List.find_none _ _ E) in Hin. unfold accepts in Hm.
      congruence.
Qed.

Lemma take_committed_refines s a tm txn_id :
  represents s a → (∀ r, r ∈ pool_of s txn_id → accepts tm r = false) →
  ∃ a', allowed a (OTakeMatch tm txn_id)
          (RTuple (take_committed s (parse_template tm) txn_id).2) a' ∧
        represents (take_committed s (parse_template tm) txn_id).1 a'.
Proof.
  intros HR Hpool. pose proof (find_visible s a tm HR) as Hv.
  unfold take_committed. rewrite take_loop_once. destruct (map_find _ _) as [[id r]|].
  - destruct Hv as (<- & Hr & Hm).
    destruct (claim_represents s a _ r txn_id HR Hr) as (s' & -> & HR').
    exists (take_tuple txn_id r Visible a). split; [|done]. simpl. exists Visible.
    split; [|done]. split_and!; [done|by left|done].
  - exists a. split; [|done]. simpl. split; [done|]. intros r p Hc.
    assert (∃ p, candidate a tm txn_id r p) as [[Hr|Hin] Hm]%(candidate_iff s a tm txn_id r HR)
      by eauto.
    + by rewrite (Hv r Hr) in Hm.
    + by rewrite (Hpool r Hin) in Hm.
Qed.

Lemma take_match_refines s a tm txn_id :
  represents s a →
  ∃ a', allowed a (OTakeMatch tm txn_id) (RTuple (take_match s tm txn_id).2) a' ∧
        represents (take_match s tm txn_id).1 a'.
Proof.
  intros HR. unfold take_match. destruct txn_id as [t|].
  2: { apply take_committed_refines; [done|]. by intros r ?%not_elem_of_nil. }
  destruct (uncommitted s !! t) as [b|] eqn:Hb.
  2: { apply take_committed_refines; [done|]. simpl. unfold buf. simpl. rewrite Hb.
       by intros r ?%not_elem_of_nil. }
  assert (Hbuf : buf s BUncommitted t = b) by (unfold buf; simpl; by rewrite Hb).
  destruct (remove_first _ b) as [[r b']|] eqn:E.
  - apply remove_first_Some in E as [Hm Hp]. rewrite <- Hbuf in Hp.
    exists (take_tuple (Some t) r (Held BUncommitted t) a). split.
    + simpl. exists (Held BUncommitted t). split; [|done]. split_and!; [|by right; eauto|done].
      apply (rp_buf _ _ HR). rewrite Hp. left.
    + by apply self_take_represents.
  - apply take_committed_refines; [done|]. simpl. rewrite Hbuf.
    by rewrite remove_first_None in E.
Qed.

Lemma accepts_or tm r :
  ops_is_empty (parse_template tm) || matches (parse_template tm) (tp_attrs r) = accepts tm r.
Proof.
  unfold ops_is_empty, accepts. case_bool_decide as E; [|done]. rewrite E.
  by rewrite matches_empty.
Qed.

Lemma values_nodup s a : represents s a → NoDup (tp_tuple_id <$> map_values (tuples s)).
Proof.
  intros HR. rewrite map_values_perm.
  assert (tp_tuple_id <$> (map_to_list (tuples s)).*2 = (map_to_list (tuples s)).*1) as ->.
  { rewrite <- list_fmap_compose. apply list_fmap_ext. intros i [k r] Hi. simpl.
    apply list_elem_of_lookup_2, elem_of_map_to_list, (rp_tuples _ _ HR) in Hi.
    by eapply rp_key. }
  apply NoDup_fst_map_to_list.
Qed.

Lemma filter_nodup_fmap {A B} (g : A → B) (f : A → bool) l :
  NoDup (g <$> l) → NoDup (g <$> List.filter f l).
Proof.
  induction l as [|x l IH]; simpl; [done|]. rewrite NoDup_cons. intros [Hn Hnd].
  destruct (f x); [|by apply IH]. rewrite fmap_cons, NoDup_cons. split; [|by apply IH].
  rewrite list_elem_of_fmap in Hn |- *. intros (y & E & Hy). apply Hn. exists y.
  by apply filter_bool_elem in Hy as [? _].
Qed.

Lemma find_all_eq s tm txn_id :
  find_all_matches s tm txn_id =
    Ok (List.filter (accepts tm) (map_values (tuples s)) ++
        List.filter (accepts tm) (pool_of s txn_id)).
Proof.
  unfold find_all_matches.
  assert (Hf : ∀ l, List.filter (λ r, ops_is_empty (parse_template tm) ||
                 matches (parse_template tm) (tp_attrs r)) l = List.filter (accepts tm) l)
    by (intros l; apply List.filter_ext; intros; apply accepts_or).
  rewrite Hf. f_equal. f_equal. destruct txn_id as [t|]; [|done]. unfold pool_of, buf. simpl.
  destruct (uncommitted s !! t); [apply Hf|done].
Qed.

Lemma elem_of_visible s a r :
  represents s a → r ∈ map_values (tuples s) ↔ tuples s !! tp_tuple_id r = Some r.
Proof.
  intros HR. rewrite elem_of_map_values. split; [|eauto]. intros (k & Hk).
  pose proof Hk as Hk'. apply (rp_tuples _ _ HR) in Hk'.
  by rewrite (rp_key _ _ HR _ _ _ Hk').
Qed.

Lemma find_all_refines s a tm txn_id :
  represents s a → allowed a (OFindAll tm txn_id) (RTuples (find_all_matches s tm txn_id)) a.
Proof.
  intros HR. rewrite find_all_eq. simpl. split; [done|]. split.
  - rewrite fmap_app. apply NoDup_app. split_and!.
    + by apply filter_nodup_fmap, (values_nodup s a).
    + intros id (r & -> & [Hr _]%filter_bool_elem)%list_elem_of_fmap.
      rewrite (elem_of_visible s a), (rp_tuples _ _ HR) in Hr by done.
      intros (r' & E & [Hin _]%filter_bool_elem)%list_elem_of_fmap.
      destruct txn_id as [t|]; simpl in Hin; [|by apply not_elem_of_nil in Hin].
      rewrite (rp_buf _ _ HR) in Hin. rewrite <- E in Hin. congruence.
    + apply filter_nodup_fmap. destruct txn_id as [t|]; simpl; [|constructor].
      apply (rp_nodup _ _ HR).
  - intros r. rewrite (candidate_iff s a tm txn_id r HR), elem_of_app, !filter_bool_elem.
    rewrite (elem_of_visible s a) by done. tauto.
Qed.

Lemma non_empty_true s b t :
  non_empty (get_buffer s b !! t) = true ↔ ∃ r, r ∈ buf s b t.
Proof.
  unfold buf, non_empty. destruct (get_buffer s b !! t) as [[|r l]|]; simpl.
  1,3: split; [done|by intros [r ?%not_elem_of_nil]].
  split; [|done]. intros _. exists r. left.
Qed.

Lemma has_txn_refines s a t :
  represents s a → allowed a (OHasTxn t) (RBool (has_txn s t)) a.
Proof.
  intros HR. simpl. split; [done|]. rewrite !orb_true_iff.
  change (uncommitted s) with (get_buffer s BUncommitted).
  change (txn_taken s) with (get_buffer s BTaken).
  change (txn_self_taken s) with (get_buffer s BSelfTaken).
  rewrite !non_empty_true. unfold holds. setoid_rewrite <- (rp_buf _ _ HR). split.
  - intros [[r ?]|[[r ?]|[r ?]]]; eauto.
  - intros ([] & r & ?); eauto.
Qed.

Lemma store_refines s a op :
  represents s a → op_fresh a op →
  ∃ a', allowed a op (apply_op s op).2 a' ∧ represents (apply_op s op).1 a'.
Proof.
  intros HR Hf. destruct op as [r|t r|id|id|l|tm t|tm t|tm t|t|t|t]; simpl in Hf.
  - eexists. split; [done|]. by apply add_visible.
  - eexists. split; [done|]. by apply (add_held s a BUncommitted t r).
  - exists a. split; [|done]. simpl. split; [done|]. intros r. apply (rp_tuples _ _ HR).
  - unfold apply_op, remove. destruct (tuples s !! id) as [r|] eqn:Hr; simpl.
    + apply (rp_tuples _ _ HR) in Hr. exists (delete id a). split; [done|]. by apply drop_visible.
    + exists a. split; [|done]. split; [done|]. intros r. rewrite <- (rp_tuples _ _ HR). congruence.
  - destruct (remove_by_lease_represents s a l HR) as [HR' Hres].
    exists (drop_lease l a). split; [|done]. simpl.
    destruct (remove_by_lease s l).2 as [[r|]|]; [| |done].
    + destruct Hres. auto.
    + split; [|done]. by apply drop_lease_miss.
  - exists a. split; [|done]. by apply find_match_refines.
  - by apply take_match_refines.
  - exists a. split; [|done]. by apply find_all_refines.
  - exists (move_all (commit_place t) a). split; [|by apply commit_represents]. simpl.
    destruct (publish_spec (drop_buffer s BUncommitted t) (buf s BUncommitted t))
      as (_ & _ & _ & Eb & _).
    split_and!; [done|intros r; apply (rp_buf _ _ HR)|]. intros r. unfold holds.
    rewrite <- !(rp_buf _ _ HR), elem_of_app. unfold buf at 1 3. rewrite !Eb. done.
  - exists (move_all (abort_place t) a). split; [|by apply abort_represents]. simpl.
    rewrite unindex_spec. split_and!; [done| |].
    + intros r. unfold holds. by rewrite <- !(rp_buf _ _ HR), elem_of_app.
    + intros r. unfold holds. rewrite <- (rp_buf _ _ HR). done.
  - exists a. split; [|done]. by apply has_txn_refines.
Qed.

(** C3: The in-memory store refines the abstract space: from any store
    representing a space, every call answers and moves tuples exactly as specified
    and the store represents the next space, so a tuple is always in one place
    (visible, or in one buffer of one transaction) and both lease indexes are
    exact.  In particular a query or take without the transaction never returns
    a tuple buffered in it. *)
Theorem space_store_refines s a op :
  represents s a → op_fresh a op →
  ∃ a', allowed a op (apply_op s op).2 a' ∧ represents (apply_op s op).1 a'.
Proof. exact (store_refines s a op). Qed.

(** ** Sequences of calls *)

Definition run_ops (s : InMemorySpaceStore) (ops : list SpaceOp) : InMemorySpaceStore :=
  foldl (λ s op, (apply_op s op).1) s ops.

Definition wf_store (s : InMemorySpaceStore) : Prop := ∃ a, represents s a.

(** The tuple is somewhere in the store. *)
Definition stored (s : InMemorySpaceStore) (r : TupleRecord) : Prop :=
  (∃ id, tuples s !! id = Some r) ∨ ∃ b t, r ∈ buf s b t.

Definition fresh_in (s : InMemorySpaceStore) (r : TupleRecord) : Prop :=
  ∀ r', stored s r' → tp_tuple_id r' ≠ tp_tuple_id r ∧ tp_lease_id r' ≠ tp_lease_id r.

Definition inserted (op : SpaceOp) : option TupleRecord :=
  match op with
  | OInsert r | OInsertUncommitted _ r => Some r
  | _ => None
  end.

(** Every insert of the sequence is of a tuple with a new id and lease. *)
Fixpoint ops_fresh (s : InMemorySpaceStore) (ops : list SpaceOp) : Prop :=
  match ops with
  | [] => True
  | op :: ops =>
      match inserted op with Some r => fresh_in s r | None => True end ∧
      ops_fresh (apply_op s op).1 ops
  end.

Lemma stored_iff s a r :
  represents s a → stored s r ↔ ∃ p, a !! tp_tuple_id r = Some (r, p).
Proof.
  intros HR. unfold stored. setoid_rewrite (rp_buf _ _ HR). setoid_rewrite (rp_tuples _ _ HR).
  split.
  - intros [[id Hid]|(b & t & Hr)]; [|eauto]. rewrite (rp_key _ _ HR _ _ _ Hid). eauto.
  - intros ([|b t] & Hr); eauto.
Qed.

(** A store represents one space. *)
Lemma represents_fun s a1 a2 : represents s a1 → represents s a2 → a1 = a2.
Proof.
  intros H1 H2. assert (Hle : ∀ a b id r p, represents s a → represents s b →
    a !! id = Some (r, p) → b !! id = Some (r, p)).
  { intros a b id r [|bf t] Ha Hb Hr.
    - by apply (rp_tuples _ _ Hb), (rp_tuples _ _ Ha).
    - pose proof (rp_key _ _ Ha _ _ _ Hr) as <-. by apply (rp_buf _ _ Hb), (rp_buf _ _ Ha). }
  apply map_eq. intros id. apply option_eq. intros [r p]. split; eauto.
Qed.

Lemma fresh_in_op s a op :
  represents s a → match inserted op with Some r => fresh_in s r | None => True end →
  op_fresh a op.
Proof.
  intros HR. assert (Hf : ∀ r, fresh_in s r → fresh_tuple a r).
  { intros r Hf. split.
    - destruct (a !! tp_tuple_id r) as [[r' p]|] eqn:E; [|done].
      pose proof (rp_key _ _ HR _ _ _ E) as Hk. rewrite <- Hk in E.
      destruct (Hf r') as [? _]; [|done]. apply (stored_iff s a r' HR). eauto.
    - intros id r' p Hr'. apply Hf, (stored_iff s a r' HR).
      rewrite (rp_key _ _ HR _ _ _ Hr'). eauto. }
  destruct op; simpl; auto.
Qed.

Lemma wf_step s op :
  wf_store s → match inserted op with Some r => fresh_in s r | None => True end →
  wf_store (apply_op s op).1.
Proof.
  intros [a HR] Hf. destruct (store_refines s a op HR) as (a' & _ & HR').
  - by eapply fresh_in_op.
  - by exists a'.
Qed.

(** How a call may move a tuple. *)
Definition moved (op : SpaceOp) (p0 p : Place) : Prop :=
  match op with
  | OTakeMatch _ t => p = p0 ∨ (available t p0 ∧ taken_to t p0 = Some p)
  | OCommit t => commit_place t p0 = Some p
  | OAbort t => abort_place t p0 = Some p
  | _ => p = p0
  end.

(** A call only moves or drops tuples, unless it inserts them. *)
Lemma allowed_moves a op res a' id r p :
  allowed a op res a' → (∀ id r p, a !! id = Some (r, p) → tp_tuple_id r = id) →
  a' !! id = Some (r, p) → (∃ p0, a !! id = Some (r, p0) ∧ moved op p0 p) ∨ inserted op = Some r.
Proof.
  intros Hal Hk Hr. destruct op, res; try done; simpl in Hal; repeat case_match; try done;
    unpack; subst; simpl; try (left; exists p; by auto).
  - rewrite lookup_insert_Some in Hr. naive_solver.
  - rewrite lookup_insert_Some in Hr. naive_solver.
  - rewrite lookup_delete_Some in Hr. naive_solver.
  - unfold drop_lease in Hr. rewrite map_lookup_filter_Some in Hr. naive_solver.
  - left. unfold take_tuple in Hr. destruct (taken_to _ _) eqn:E.
    + rewrite lookup_insert_Some in Hr. unfold candidate in *. naive_solver.
    + rewrite lookup_delete_Some in Hr. naive_solver.
  - rewrite lookup_move in Hr. naive_solver.
  - rewrite lookup_move in Hr. naive_solver.
Qed.

Lemma allowed_origin a op res a' id r p :
  allowed a op res a' → (∀ id r p, a !! id = Some (r, p) → tp_tuple_id r = id) →
  a' !! id = Some (r, p) → (∃ p0, a !! id = Some (r, p0)) ∨ inserted op = Some r.
Proof. intros Ha Hk Hr. destruct (allowed_moves _ _ _ _ _ _ _ Ha Hk Hr); naive_solver. Qed.

(** *** Expiry is final *)

Lemma stored_origin s op r :
  wf_store s → match inserted op with Some r => fresh_in s r | None => True end →
  stored (apply_op s op).1 r → stored s r ∨ inserted op = Some r.
Proof.
  intros [a HR] Hf Hst. destruct (store_refines s a op HR) as (a' & Hal & HR').
  { by eapply fresh_in_op. }
  destruct (proj1 (stored_iff _ a' r HR') Hst) as [p Hp].
  destruct (allowed_origin a op _ a' _ r p Hal (rp_key _ _ HR) Hp) as [?|?]; [left|by right].
  by apply (stored_iff s a r HR).
Qed.

(** C25: Once a tuple's lease expired, the tuple is gone for good: whatever
    transactions were holding it, no later sequence of calls (commits and aborts
    included) makes a tuple with that lease visible, readable, or held again. *)
Theorem expired_tuple_never_returns s lease ops :
  wf_store s → ops_fresh (remove_by_lease s lease).1 ops →
  (∀ op r, op ∈ ops → inserted op = Some r → tp_lease_id r ≠ lease) →
  ∀ r, stored (run_ops (remove_by_lease s lease).1 ops) r → tp_lease_id r ≠ lease.
Proof.
  intros Hwf. assert (Hno : ∀ r, stored (remove_by_lease s lease).1 r → tp_lease_id r ≠ lease).
  { destruct Hwf as [a HR]. destruct (remove_by_lease_represents s a lease HR) as [HR' _].
    intros r [p Hp]%(stored_iff _ _ r HR'). unfold drop_lease in Hp.
    by apply map_lookup_filter_Some in Hp as [_ ?]. }
  apply (wf_step s (ORemoveByLease lease)) in Hwf; [|done]. simpl in Hwf.
  generalize dependent (remove_by_lease s lease).1. clear s.
  induction ops as [|op ops IH]; intros s Hwf Hno Hf Hins; [done|].
  destruct Hf as [Hf1 Hf2]. cbn [run_ops foldl]. apply IH; [by apply wf_step| |done|].
  - intros r [?|?]%stored_origin; [by apply Hno| |done|done]. eapply Hins; [left|done].
  - intros op' r' Hin. apply Hins. by right.
Qed.

(** *** Abort undoes everything a transaction did, and nothing else *)

(** The calls that write or take under transaction [t]. *)
Definition under (t : string) (op : SpaceOp) : bool :=
  match op with
  | OInsertUncommitted t' _ => String.eqb t' t
  | OTakeMatch _ (Some t') => String.eqb t' t
  | _ => false
  end.

(** The calls made while [t] is open: by anybody, but no commit or abort of [t]. *)
Definition keeps_open (t : string) (op : SpaceOp) : bool :=
  match op with OCommit t' | OAbort t' => negb (String.eqb t' t) | _ => true end.

(** What a call with its answer does to a space. *)
Definition effect (op : SpaceOp) (res : SpaceRes) (a : space) : space :=
  match op, res with
  | OInsert r, _ => <[tp_tuple_id r := (r, Visible)]> a
  | OInsertUncommitted t r, _ => <[tp_tuple_id r := (r, Held BUncommitted t)]> a
  | ORemove id, RTuple (Ok (Some _)) => delete id a
  | ORemoveByLease l, _ => drop_lease l a
  | OTakeMatch _ t, RTuple (Ok (Some r)) =>
      match a !! tp_tuple_id r with Some (_, p) => take_tuple t r p a | None => a end
  | OCommit t, _ => move_all (commit_place t) a
  | OAbort t, _ => move_all (abort_place t) a
  | _, _ => a
  end.

Fixpoint answers (s : InMemorySpaceStore) (ops : list SpaceOp) : list SpaceRes :=
  match ops with
  | [] => []
  | op :: ops => (apply_op s op).2 :: answers (apply_op s op).1 ops
  end.

(** What the calls that are not under [t] did. *)
Definition without (t : string) (h : list (SpaceOp * SpaceRes)) (a : space) : space :=
  foldl (λ a e, if under t e.1 then a else effect e.1 e.2 a) a h.

Lemma undo_take a t r p :
  a !! tp_tuple_id r = Some (r, p) → available (Some t) p →
  move_all (abort_place t) (take_tuple (Some t) r p a) = move_all (abort_place t) a.
Proof.
  intros Hr Hav. apply map_eq. intros id. apply option_eq. intros [r' q]. rewrite !lookup_move.
  unfold take_tuple. cbn [taken_to]. setoid_rewrite lookup_insert_Some.
  assert (Hpl : abort_place t (Held (if decide (p = Visible) then BTaken else BSelfTaken) t)
                = abort_place t p).
  { destruct Hav as [-> |(t' & [= <-] & ->)]; simpl; by rewrite String.eqb_refl. }
  split.
  - intros (p0 & [[<- [= <- <-]]|[_ ?]] & Hp); [|eauto]. rewrite Hpl in Hp. eauto.
  - intros (p0 & Hr' & Hp). destruct (decide (tp_tuple_id r = id)) as [<-|Hne]; [|eauto].
    rewrite Hr in Hr'. injection Hr' as <- <-. eexists. split; [by left|]. by rewrite Hpl.
Qed.

Lemma drop_lease_absent l a :
  (∀ id r p, a !! id = Some (r, p) → tp_lease_id r ≠ l) → drop_lease l a = a.
Proof.
  intros H. apply map_eq. intros id. apply option_eq. intros [r p]. unfold drop_lease.
  rewrite map_lookup_filter_Some. simpl. naive_solver.
Qed.

(** Erasing [t] commutes with what the others do. *)
Lemma undo_insert t id r p a :
  abort_place t p = Some p →
  move_all (abort_place t) (<[id := (r, p)]> a) = <[id := (r, p)]> (move_all (abort_place t) a).
Proof. intros Hp. unfold move_all. apply omap_insert_Some. simpl. by rewrite Hp. Qed.

Lemma undo_delete t id a :
  move_all (abort_place t) (delete id a) = delete id (move_all (abort_place t) a).
Proof. apply omap_delete. Qed.

Lemma undo_drop_lease t l a :
  move_all (abort_place t) (drop_lease l a) = drop_lease l (move_all (abort_place t) a).
Proof.
  apply map_eq. intros id. apply option_eq. intros [r p]. unfold drop_lease.
  rewrite lookup_move, map_lookup_filter_Some, lookup_move.
  setoid_rewrite map_lookup_filter_Some. simpl. naive_solver.
Qed.

Lemma undo_move t f a :
  (∀ p, (abort_place t p ≫= f) = (f p ≫= abort_place t)) →
  move_all (abort_place t) (move_all f a) = move_all f (move_all (abort_place t) a).
Proof.
  intros Hc. apply map_eq. intros id. apply option_eq. intros [r p]. rewrite !lookup_move.
  setoid_rewrite lookup_move. split.
  - intros (q & (q0 & Hr & Hq) & Hp). specialize (Hc q0). rewrite Hq in Hc. simpl in Hc.
    rewrite Hp in Hc. destruct (abort_place t q0) eqn:E; [|done]. eauto.
  - intros (q & (q0 & Hr & Hq) & Hp). specialize (Hc q0). rewrite Hq in Hc. simpl in Hc.
    rewrite Hp in Hc. destruct (f q0) eqn:E; [|done]. eauto.
Qed.

Lemma undo_commit t t' a :
  t' ≠ t → move_all (abort_place t) (move_all (commit_place t') a) =
           move_all (commit_place t') (move_all (abort_place t) a).
Proof.
  intros Hne. apply undo_move. intros [|b t0]; [done|]. simpl.
  destruct (String.eqb_spec t0 t), (String.eqb_spec t0 t'); subst; simpl; try done;
    by destruct b; simpl; rewrite ?String.eqb_refl, ?(proj2 (String.eqb_neq _ _)) by done.
Qed.

Lemma undo_abort t t' a :
  t' ≠ t → move_all (abort_place t) (move_all (abort_place t') a) =
           move_all (abort_place t') (move_all (abort_place t) a).
Proof.
  intros Hne. apply undo_move. intros [|b t0]; [done|]. simpl.
  destruct (String.eqb_spec t0 t), (String.eqb_spec t0 t'); subst; simpl; try done;
    by destruct b; simpl; rewrite ?String.eqb_refl, ?(proj2 (String.eqb_neq _ _)) by done.
Qed.

(** The take of a tuple by somebody else. *)
Lemma undo_other_take t o r p a :
  o ≠ Some t → a !! tp_tuple_id r = Some (r, p) → available o p →
  move_all (abort_place t) (take_tuple o r p a) =
  effect (OTakeMatch ∅ o) (RTuple (Ok (Some r))) (move_all (abort_place t) a).
Proof.
  intros Ho Hr Hav. assert (Hp : abort_place t p = Some p).
  { destruct Hav as [->|(t' & -> & ->)]; [done|]. simpl.
    by rewrite (proj2 (String.eqb_neq _ _)) by congruence. }
  simpl. rewrite (proj2 (lookup_move _ a (tp_tuple_id r) r p)) by eauto.
  unfold take_tuple, taken_to. destruct o as [t'|]; [|apply undo_delete].
  apply undo_insert. simpl. by rewrite (proj2 (String.eqb_neq _ _)) by congruence.
Qed.

Lemma undo_step a op res a' t :
  keeps_open t op = true → allowed a op res a' → op_fresh a op →
  move_all (abort_place t) a' =
    if under t op then move_all (abort_place t) a
    else effect op res (move_all (abort_place t) a).
Proof.
  intros Ht Hal Hf. destruct op as [r|t' r|id|id|l|tm o|tm o|tm o|t'|t'|t'], res as [u|x|x|x|x];
    try done; simpl in Ht, Hal, Hf |- *.
  - destruct u; [|done]. subst. by apply undo_insert.
  - destruct u; [|done]. subst. destruct (String.eqb_spec t' t) as [->|Hne].
    + apply map_eq. intros id. apply option_eq. intros [r' p]. rewrite !lookup_move.
      setoid_rewrite lookup_insert_Some. destruct Hf as [Hn _]. split.
      * intros (p0 & [[_ [= _ <-]]|[_ ?]] & Hp); [|eauto]. simpl in Hp.
        by rewrite String.eqb_refl in Hp.
      * intros (p0 & Hr & Hp). exists p0. split; [|done]. right. split; [congruence|done].
    + apply undo_insert. simpl. by rewrite (proj2 (String.eqb_neq _ _)).
  - destruct x; [|done]. by destruct Hal as [-> _].
  - destruct x as [[r|]|]; [| |done].
    + destruct Hal as [_ ->]. apply undo_delete.
    + by destruct Hal as [-> _].
  - destruct x as [[r|]|]; [| |done].
    + destruct Hal as (_ & _ & ->). apply undo_drop_lease.
    + destruct Hal as [-> Hno]. rewrite <- undo_drop_lease. by rewrite drop_lease_absent.
  - destruct x as [[r|]|]; [| |done]; by destruct Hal as [-> _].
  - destruct x as [[r|]|]; [| |done].
    + destruct Hal as (p & (Hr & Hav & _) & ->). destruct o as [t'|].
      * destruct (String.eqb_spec t' t) as [->|Hne]; [by apply undo_take|].
        by apply (undo_other_take t (Some t')); [congruence|..].
      * by apply (undo_other_take t None).
    + destruct Hal as [-> _]. by destruct o as [t'|]; [destruct (String.eqb t' t)|].
  - destruct x; [|done]. by destruct Hal as [-> _].
  - destruct x as [[? ?]|]; [|done]. destruct Hal as [-> _]. apply undo_commit.
    by apply String.eqb_neq, negb_true_iff.
  - destruct x as [[? ?]|]; [|done]. destruct Hal as [-> _]. apply undo_abort.
    by apply String.eqb_neq, negb_true_iff.
  - destruct x; [|done]. by destruct Hal as [-> _].
Qed.

Lemma undo_id s a t :
  represents s a → has_txn s t = Ok false → move_all (abort_place t) a = a.
Proof.
  intros HR Hn. destruct (has_txn_refines s a t HR) as [_ Hh]. injection Hn as Hn.
  rewrite Hn in Hh.
  apply map_eq. intros id. apply option_eq. intros [r p]. rewrite lookup_move. split.
  - intros (p0 & Hr & Hp). destruct p0 as [|b t']; simpl in Hp; [by simplify_eq|].
    destruct (String.eqb_spec t' t) as [->|]; [|by simplify_eq].
    exfalso. assert (false = true) by (apply Hh; exists b, r; unfold holds;
      by rewrite (rp_key _ _ HR _ _ _ Hr)). done.
  - intros Hr. exists p. split; [done|]. destruct p as [|b t']; [done|]. simpl.
    destruct (String.eqb_spec t' t) as [->|]; [|done].
    exfalso. assert (false = true) by (apply Hh; exists b, r; unfold holds;
      by rewrite (rp_key _ _ HR _ _ _ Hr)). done.
Qed.

Lemma undo_run s a t ops :
  represents s a → ops_fresh s ops → forallb (keeps_open t) ops = true →
  ∃ a', represents (run_ops s ops) a' ∧
        move_all (abort_place t) a' =
          without t (zip ops (answers s ops)) (move_all (abort_place t) a).
Proof.
  revert s a. induction ops as [|op ops IH]; intros s a HR Hf Ht; [by exists a|].
  destruct Hf as [Hf1 Hf2]. simpl in Ht. apply andb_true_iff in Ht as [Ht1 Ht2].
  pose proof (fresh_in_op s a op HR Hf1) as Hof.
  destruct (store_refines s a op HR Hof) as (a1 & Hal & HR1).
  destruct (IH _ a1 HR1 Hf2 Ht2) as (a2 & HR2 & E). exists a2. split; [done|].
  rewrite E. unfold without at 2. simpl. by rewrite <- (undo_step a op _ a1 t).
Qed.

(** C24: Whatever a transaction wrote, took and read, and whatever other clients,
    other transactions and expiring leases did meanwhile, aborting it leaves the
    store with exactly the space the other calls alone give: nothing it wrote, and
    everything it took and whose lease did not expire visible again, with both
    lease indexes exact and no trace of it in any buffer. *)
Theorem abort_restores_space s a t ops :
  represents s a → has_txn s t = Ok false → ops_fresh s ops →
  forallb (keeps_open t) ops = true →
  let s' := (abort_txn (run_ops s ops) t).1 in
  represents s' (without t (zip ops (answers s ops)) a) ∧ ∀ b, buf s' b t = [].
Proof.
  intros HR Hn Hf Ht. destruct (undo_run s a t ops HR Hf Ht) as (a' & HR' & E).
  pose proof (abort_represents _ _ t HR') as HR''.
  rewrite (undo_id s a t HR Hn) in E. cbv zeta. split; [by rewrite <- E|].
  intros b. destruct (buf _ b t) as [|r l] eqn:Eb; [done|].
  assert (Hin : r ∈ buf (abort_txn (run_ops s ops) t).1 b t) by (rewrite Eb; left).
  apply (rp_buf _ _ HR'') in Hin. apply lookup_move in Hin as (p0 & _ & Hp).
  destruct p0 as [|b0 t0]; simpl in Hp; [done|].
  destruct (String.eqb_spec t0 t); [by destruct b0|congruence].
Qed.
End spec.

(** ** Concurrent takers

    [take_match] takes from the transaction's own buffer under the buffer's lock,
    in one step; on committed tuples it scans the map and removes what it found in
    two separate steps.  Any number of takers, inside and outside transactions,
    and any other store calls run in between. *)
Section races.
Context {I : MapIter}.

Inductive TakerState := Scanning | Chosen (tuple_id : string) | Done (r : option TupleRecord).

Record Taker := mkTaker { tk_template : attrs_map; tk_txn : option string; tk_state : TakerState }.

Definition taker_to (k : Taker) (st : TakerState) : Taker :=
  mkTaker (tk_template k) (tk_txn k) st.

Record Race := mkRace {
  rc_store : InMemorySpaceStore;
  rc_used : gset string;          (** every tuple id drawn so far *)
  rc_aborted : gset string;       (** every transaction an abort was run for *)
  rc_takers : list Taker
}.

(** The ids and the aborts a call adds to the history. *)
Definition used_by (op : SpaceOp) (u : gset string) : gset string :=
  match inserted op with Some r => {[tp_tuple_id r]} ∪ u | None => u end.

Definition aborted_by (op : SpaceOp) (ab : gset string) : gset string :=
  match op with OAbort t => {[t]} ∪ ab | _ => ab end.

Inductive rstep : Race → Race → Prop :=
| RSpawn s u ab ks tm t :
    rstep (mkRace s u ab ks) (mkRace s u ab (mkTaker tm t Scanning :: ks))
| RCall s u ab ks op :
    (match inserted op with
     | Some r => fresh_in s r ∧ tp_tuple_id r ∉ u
     | None => True
     end) →
    rstep (mkRace s u ab ks) (mkRace (apply_op s op).1 (used_by op u) (aborted_by op ab) ks)
| RWhole s u ab ks1 k ks2 s' o :   (** from the own buffer, or nobody in between *)
    tk_state k = Scanning → take_match s (tk_template k) (tk_txn k) = (s', Ok o) →
    rstep (mkRace s u ab (ks1 ++ k :: ks2))
          (mkRace s' u ab (ks1 ++ taker_to k (Done o) :: ks2))
| RChoose s u ab ks1 k ks2 id r :
    tk_state k = Scanning → tuples s !! id = Some r → accepts (tk_template k) r = true →
    rstep (mkRace s u ab (ks1 ++ k :: ks2)) (mkRace s u ab (ks1 ++ taker_to k (Chosen id) :: ks2))
| RNothing s u ab ks1 k ks2 :
    tk_state k = Scanning →
    rstep (mkRace s u ab (ks1 ++ k :: ks2)) (mkRace s u ab (ks1 ++ taker_to k (Done None) :: ks2))
| RClaim s u ab ks1 k ks2 id s' r :
    tk_state k = Chosen id → claim s id (tk_txn k) = Some (s', r) →
    rstep (mkRace s u ab (ks1 ++ k :: ks2))
          (mkRace s' u ab (ks1 ++ taker_to k (Done (Some r)) :: ks2))
| RLost s u ab ks1 k ks2 id :
    tk_state k = Chosen id → claim s id (tk_txn k) = None →
    rstep (mkRace s u ab (ks1 ++ k :: ks2)) (mkRace s u ab (ks1 ++ taker_to k Scanning :: ks2)).

Inductive rreach : Race → Prop :=
| RInit : rreach (mkRace new ∅ ∅ [])
| RStep c c' : rreach c → rstep c c' → rreach c'.

(** The taker was under a transaction that was aborted. *)
Definition undone (ab : gset string) (k : Taker) : bool :=
  match tk_txn k with Some t => bool_decide (t ∈ ab) | None => false end.

(** What a taker received and did not give back by an abort. *)
Definition received (ab : gset string) (k : Taker) : option string :=
  match tk_state k with
  | Done (Some r) => if undone ab k then None else Some (tp_tuple_id r)
  | _ => None
  end.

(** The tuple is nowhere any more, or among what the transaction took. *)
Definition spent (t : option string) (a : space) (id : string) : Prop :=
  ∀ r p, a !! id = Some (r, p) → ∃ b t', p = Held b t' ∧ t = Some t' ∧ b ≠ BUncommitted.

Record race_ok (c : Race) (a : space) : Prop := {
  ro_rep : represents (rc_store c) a;
  ro_used : ∀ id, is_Some (a !! id) → id ∈ rc_used c;
  ro_nodup : NoDup (omap (received (rc_aborted c)) (rc_takers c));
  ro_spent : ∀ k id, k ∈ rc_takers c → received (rc_aborted c) k = Some id →
    spent (tk_txn k) a id ∧ id ∈ rc_used c
}.

Lemma represents_new : represents new ∅.
Proof.
  assert (Hb : ∀ b t, buf new b t = []) by (by intros [] t).
  split; simpl; intros *; rewrite ?Hb, ?lookup_empty; try done.
  - split; [by intros ?%not_elem_of_nil|done].
  - constructor.
  - split; [done|]. by intros (? & ? & _).
  - split; [done|]. by intros (? & ? & ? & _).
Qed.

(** Replacing a taker by one that received nothing. *)
Lemma received_replace ab ks1 k k' ks2 :
  received ab k = None → received ab k' = None →
  omap (received ab) (ks1 ++ k' :: ks2) = omap (received ab) (ks1 ++ k :: ks2).
Proof. intros E E'. rewrite !omap_app. simpl. by rewrite E, E'. Qed.

Lemma received_pending ab k : (∀ r, tk_state k ≠ Done (Some r)) → received ab k = None.
Proof.
  intros H. unfold received. destruct (tk_state k) as [| |[r|]] eqn:E; try done. by destruct (H r).
Qed.

(** More aborts only take takers out of account. *)
Lemma received_mono ab ab' k id : ab ⊆ ab' → received ab' k = Some id → received ab k = Some id.
Proof.
  intros Hab. unfold received, undone. destruct (tk_state k) as [| |[r|]]; try done.
  destruct (tk_txn k) as [t|]; [|done]. repeat case_bool_decide; naive_solver.
Qed.

Lemma omap_received_mono ab ab' ks :
  ab ⊆ ab' → sublist (omap (received ab') ks) (omap (received ab) ks).
Proof.
  intros Hab. induction ks as [|k ks IH]; simpl; [constructor|].
  destruct (received ab' k) as [id|] eqn:E.
  - rewrite (received_mono _ _ _ _ Hab E). by constructor.
  - destruct (received ab k); [by constructor|done].
Qed.

Lemma claim_lookup s id txn_id s' r : claim s id txn_id = Some (s', r) → tuples s !! id = Some r.
Proof.
  unfold claim. destruct (tuples s !! id) as [r0|]; [|done].
  destruct txn_id; intros [= _ <-]; done.
Qed.

(** A spent tuple stays spent, except that the abort of its transaction gives it
    back; ids are drawn once. *)
Lemma spent_step a op res a' t id :
  allowed a op res a' → (∀ id r p, a !! id = Some (r, p) → tp_tuple_id r = id) →
  (∀ r p, a' !! id = Some (r, p) → inserted op ≠ Some r) →
  (∀ t', t = Some t' → op ≠ OAbort t') → spent t a id → spent t a' id.
Proof.
  intros Hal Hk Hins Hab Hsp r p Hr.
  destruct (allowed_moves _ _ _ _ _ _ _ Hal Hk Hr) as [(p0 & Hr0 & Hm)|Hi];
    [|by destruct (Hins r p)].
  destruct (Hsp r p0 Hr0) as (b & t' & -> & -> & Hb).
  assert (Hkeep : p = Held b t' → ∃ b0 t0, p = Held b0 t0 ∧ Some t' = Some t0 ∧ b0 ≠ BUncommitted)
    by eauto.
  destruct op as [?|?|?|?|?|?|? o|?|t2|t2|?]; simpl in Hm; auto.
  - destruct Hm as [?|[[?|(? & _ & [= -> _])] _]]; [auto|done|done].
  - destruct (String.eqb t' t2); [by destruct b|]. apply Hkeep. congruence.
  - destruct (String.eqb_spec t' t2) as [->|]; [by destruct (Hab t2)|]. apply Hkeep. congruence.
Qed.

(** What the call of an available tuple takes was received by nobody before. *)
Lemma available_not_spent a t r p t' :
  a !! tp_tuple_id r = Some (r, p) → available t' p → ¬ spent t a (tp_tuple_id r).
Proof.
  intros Hr Hav Hsp. destruct (Hsp r p Hr) as (b & ? & -> & _ & Hb).
  destruct Hav as [?|(? & _ & [= -> _])]; done.
Qed.

(** A taker is handed an available tuple: nobody else has it, and it is spent. *)
Lemma handed_ok s u ab ks1 k ks2 s' r p a :
  race_ok (mkRace s u ab (ks1 ++ k :: ks2)) a →
  (∀ r, tk_state k ≠ Done (Some r)) →
  a !! tp_tuple_id r = Some (r, p) → available (tk_txn k) p →
  represents s' (take_tuple (tk_txn k) r p a) →
  race_ok (mkRace s' u ab (ks1 ++ taker_to k (Done (Some r)) :: ks2))
    (take_tuple (tk_txn k) r p a).
Proof.
  intros [HR Hu Hnd Hg] Hk Hr Hav HR'. simpl in *.
  pose proof (received_pending ab k Hk) as Hpend.
  assert (Hlk : ∀ id r' q, take_tuple (tk_txn k) r p a !! id = Some (r', q) →
            (id = tp_tuple_id r ∧ taken_to (tk_txn k) p = Some q) ∨
            (id ≠ tp_tuple_id r ∧ a !! id = Some (r', q))).
  { intros id r' q. unfold take_tuple. destruct (taken_to _ _).
    - rewrite lookup_insert_Some. naive_solver.
    - rewrite lookup_delete_Some. naive_solver. }
  assert (Hself : spent (tk_txn k) (take_tuple (tk_txn k) r p a) (tp_tuple_id r)).
  { intros r' q [[_ Hq]|[? _]]%Hlk; [|done]. unfold taken_to in Hq.
    destruct (tk_txn k) as [t|]; [|done]. injection Hq as <-.
    eexists _, t. split_and!; [done..|]. by case_decide. }
  assert (Hold : ∀ k' id, k' ∈ ks1 ++ k :: ks2 → received ab k' = Some id →
            id ≠ tp_tuple_id r ∧ spent (tk_txn k') (take_tuple (tk_txn k) r p a) id ∧ id ∈ u).
  { intros k' id Hin Hrc. destruct (Hg k' id Hin Hrc) as [Hsp Hid].
    assert (id ≠ tp_tuple_id r) by (intros ->; by eapply available_not_spent).
    split_and!; [done| |done]. intros r' q [[? _]|[_ ?]]%Hlk; [done|]. by eapply Hsp. }
  split; simpl; [done| | |].
  - intros id [[r' q] [[-> _]|[_ ?]]%Hlk]; apply Hu; eauto.
  - destruct (received ab (taker_to k (Done (Some r)))) as [id|] eqn:E.
    + assert (id = tp_tuple_id r) as -> by (revert E; unfold received; simpl; case_match; congruence).
      rewrite omap_app. simpl. rewrite E.
      rewrite omap_app in Hnd. simpl in Hnd. rewrite Hpend in Hnd.
      rewrite <- Permutation_middle. constructor; [|done].
      rewrite <- omap_app. intros (k' & Hin & Hrc)%list_elem_of_omap.
      eapply Hold; [|exact Hrc|done]. set_solver.
    + by rewrite (received_replace ab ks1 k).
  - intros k' id [?|[->|?]%elem_of_cons]%elem_of_app Hrc.
    + eapply Hold; [|done]. set_solver.
    + assert (id = tp_tuple_id r) as ->
        by (revert Hrc; unfold received; simpl; case_match; congruence).
      split; [done|]. apply Hu. eauto.
    + eapply Hold; [|done]. set_solver.
Qed.

(** A taker moves on without a tuple. *)
Lemma pending_ok s u ab ks1 k ks2 st a :
  race_ok (mkRace s u ab (ks1 ++ k :: ks2)) a → (∀ r, tk_state k ≠ Done (Some r)) →
  (∀ r, st ≠ Done (Some r)) → race_ok (mkRace s u ab (ks1 ++ taker_to k st :: ks2)) a.
Proof.
  intros [HR Hu Hnd Hg] Hk Hst. split; simpl in *; [done|done| |].
  - by rewrite (received_replace ab ks1 k) by (by apply received_pending).
  - intros k' id [?|[->|?]%elem_of_cons]%elem_of_app Hrc; [apply Hg; set_solver| |apply Hg; set_solver].
    by rewrite received_pending in Hrc.
Qed.

(** A call of the store, by a client that is none of the takers. *)
Lemma call_ok s u ab ks op a :
  race_ok (mkRace s u ab ks) a →
  match inserted op with Some r => fresh_in s r ∧ tp_tuple_id r ∉ u | None => True end →
  ∃ a', race_ok (mkRace (apply_op s op).1 (used_by op u) (aborted_by op ab) ks) a'.
Proof.
  intros [HR Hu Hnd Hg] Hf. simpl in *.
  assert (Hfi : match inserted op with Some r => fresh_in s r | None => True end)
    by (by destruct (inserted op); [destruct Hf|]).
  destruct (store_refines s a op HR (fresh_in_op s a op HR Hfi)) as (a' & Hal & HR').
  assert (Hab : ab ⊆ aborted_by op ab) by (destruct op; set_solver).
  assert (Huu : u ⊆ used_by op u) by (unfold used_by; destruct (inserted op); set_solver).
  exists a'. split; simpl; [done| | |].
  - intros id [[r p] Hr]. pose proof (rp_key _ _ HR' _ _ _ Hr) as <-.
    destruct (allowed_origin a op _ a' _ r p Hal (rp_key _ _ HR) Hr) as [[p0 ?]|Hi].
    + apply Huu, Hu. eauto.
    + unfold used_by. rewrite Hi. set_solver.
  - eapply sublist_NoDup; [exact Hnd|by apply omap_received_mono].
  - intros k id Hin Hrc. destruct (Hg k id Hin (received_mono _ _ _ _ Hab Hrc)) as [Hsp Hid].
    split; [|by apply Huu]. eapply spent_step; eauto using rp_key.
    + intros r p Hr Hi. rewrite Hi in Hf. destruct Hf as [_ Hf]. apply Hf.
      by rewrite (rp_key _ _ HR' _ _ _ Hr).
    + intros t' Ht ->. revert Hrc. unfold received, undone. rewrite Ht. simpl.
      rewrite bool_decide_true by set_solver. by destruct (tk_state k) as [| |[]].
Qed.

Lemma race_step_ok c c' a : race_ok c a → rstep c c' → ∃ a', race_ok c' a'.
Proof.
  intros Hok Hs.
  destruct Hs as [s u ab ks tm t|s u ab ks op Hf|s u ab ks1 k ks2 s' o Hk Ht
    |s u ab ks1 k ks2 id r Hk Hr Hm|s u ab ks1 k ks2 Hk
    |s u ab ks1 k ks2 id s' r Hk Hc|s u ab ks1 k ks2 id Hk Hc].
  - exists a. destruct Hok as [HR Hu Hnd Hg]. split; simpl in *; auto.
    intros k id [->|?]%elem_of_cons; auto. done.
  - by eapply call_ok.
  - destruct (take_match_refines s a (tk_template k) (tk_txn k) (ro_rep _ _ Hok)) as (a' & Hal & HR').
    rewrite Ht in Hal, HR'. destruct o as [r|]; simpl in *.
    + destruct Hal as (p & (Hr & Hav & _) & ->). eexists. eapply handed_ok; eauto; congruence.
    + destruct Hal as [-> _]. exists a. destruct Hok as [HR Hu Hnd Hg].
      apply (pending_ok s'); [by split|congruence|done].
  - exists a. by apply pending_ok; [|congruence|].
  - exists a. by apply pending_ok; [|congruence|].
  - pose proof (ro_rep _ _ Hok) as HR. simpl in HR.
    pose proof (claim_lookup _ _ _ _ _ Hc) as Hr. apply (rp_tuples _ _ HR) in Hr.
    pose proof (rp_key _ _ HR _ _ _ Hr) as <-.
    destruct (claim_represents s a _ r (tk_txn k) HR Hr) as (s1 & E & HR').
    rewrite Hc in E. injection E as <-.
    eexists. eapply handed_ok; eauto; [congruence|by left].
  - exists a. by apply pending_ok; [|congruence|].
Qed.

Lemma rreach_ok c : rreach c → ∃ a, race_ok c a.
Proof.
  induction 1 as [|c c' _ [a IH] Hs]; [|by eapply race_step_ok].
  exists ∅. split; simpl; [apply represents_new| |constructor|].
  - intros id [? Hx]. by rewrite lookup_empty in Hx.
  - by intros k id ?%not_elem_of_nil.
Qed.

(** Two takers at different positions with the same tuple contradict the
    absence of duplicates. *)
Lemma received_distinct ab ks i j k1 k2 id :
  NoDup (omap (received ab) ks) → ks !! i = Some k1 → ks !! j = Some k2 → i ≠ j →
  received ab k1 = Some id → received ab k2 = Some id → False.
Proof.
  intros Hnd H1 H2 Hij C1 C2. revert i j H1 H2 Hij Hnd.
  induction ks as [|k ks IH]; [done|]. intros [|i] [|j] H1 H2 Hij Hnd; simpl in *; simplify_eq.
  - rewrite C1 in Hnd. apply NoDup_cons in Hnd as [Hn _]. apply Hn, list_elem_of_omap.
    exists k2. split; [by eapply list_elem_of_lookup_2|done].
  - rewrite C2 in Hnd. apply NoDup_cons in Hnd as [Hn _]. apply Hn, list_elem_of_omap.
    exists k1. split; [by eapply list_elem_of_lookup_2|done].
  - eapply (IH i j); auto. by destruct (received ab k); [apply NoDup_cons in Hnd as [_ ?]|].
Qed.

(** C7: In every interleaving of scans, removals, writes, commits, aborts and
    expiries, two takers, inside transactions or not, never receive the same tuple
    unless one of them took it under a transaction that was then aborted; and what
    a taker received that was not undone by such an abort is nowhere in the store
    any more, or is among what that taker's own transaction holds as taken. *)
Theorem concurrent_takes_disjoint c i k1 r1 :
  rreach c → rc_takers c !! i = Some k1 → tk_state k1 = Done (Some r1) →
  undone (rc_aborted c) k1 = false →
  (∀ j k2 r2, rc_takers c !! j = Some k2 → tk_state k2 = Done (Some r2) → i ≠ j →
     undone (rc_aborted c) k2 = false → tp_tuple_id r1 ≠ tp_tuple_id r2) ∧
  (∀ r, stored (rc_store c) r → tp_tuple_id r = tp_tuple_id r1 →
     ∃ t, tk_txn k1 = Some t ∧
          (r ∈ buf (rc_store c) BTaken t ∨ r ∈ buf (rc_store c) BSelfTaken t)).
Proof.
  intros [a [HR _ Hnd Hg]]%rreach_ok H1 S1 U1.
  assert (C1 : received (rc_aborted c) k1 = Some (tp_tuple_id r1))
    by (unfold received; by rewrite S1, U1).
  split.
  - intros j k2 r2 H2 S2 Hij U2 E.
    eapply (received_distinct _ _ i j k1 k2 (tp_tuple_id r1)); eauto.
    unfold received. by rewrite S2, U2, E.
  - intros r [p Hp]%(stored_iff _ a _ HR) E.
    destruct (Hg k1 _ (list_elem_of_lookup_2 _ _ _ H1) C1) as [Hsp _]. rewrite E in Hp.
    destruct (Hsp r p Hp) as (b & t & -> & Ht & Hb). exists t. split; [done|].
    rewrite !(rp_buf _ _ HR), E. destruct b; [done|by left|by right].
Qed.
End races.

(** ** A concrete space: two visible tuples *)
Section samples.
#[local] Existing Instance canonical_iter.

Definition tuple_a : TupleRecord :=
  mkTuple "tup-a" {["kind" := "job"]} [] "lease-a" "w" 0 None.
Definition tuple_b : TupleRecord :=
  mkTuple "tup-b" {["kind" := "job"; "size" := "big"]} [] "lease-b" "w" 0 None.
Definition tuple_c : TupleRecord :=
  mkTuple "tup-c" {["kind" := "result"]} [] "lease-c" "w" 0 (Some "tup-a").

Definition store_a : InMemorySpaceStore := (insert new tuple_a).1.
Definition store_ab : InMemorySpaceStore := (insert store_a tuple_b).1.
Definition space_ab : space :=
  <["tup-b" := (tuple_b, Visible)]> (<["tup-a" := (tuple_a, Visible)]> ∅).

Lemma fresh_tuple_in s a r : represents s a → fresh_tuple a r → fresh_in s r.
Proof.
  intros HR [Hn Hl] r' [p Hp]%(stored_iff s a r' HR). split; [congruence|by eapply Hl].
Qed.

Lemma rep_a : represents store_a (<["tup-a" := (tuple_a, Visible)]> ∅).
Proof.
  apply (add_visible new ∅ tuple_a represents_new). split; [apply lookup_empty|].
  intros id r p. by rewrite lookup_empty.
Qed.

Lemma fresh_b : fresh_tuple (<["tup-a" := (tuple_a, Visible)]> ∅) tuple_b.
Proof.
  split; [reflexivity|]. intros id r p. rewrite lookup_insert_Some, lookup_empty. naive_solver.
Qed.

Lemma rep_ab : represents store_ab space_ab.
Proof. apply (add_visible store_a _ tuple_b rep_a fresh_b). Qed.

Lemma fresh_c : fresh_tuple space_ab tuple_c.
Proof.
  split; [reflexivity|]. intros id r p. unfold space_ab.
  rewrite !lookup_insert_Some, lookup_empty. naive_solver.
Qed.

(** A take outside any transaction. *)
Theorem space_store_refines_witness :
  ∃ a', allowed space_ab (OTakeMatch {["size" := "*"]} None)
          (apply_op store_ab (OTakeMatch {["size" := "*"]} None)).2 a' ∧
        represents (apply_op store_ab (OTakeMatch {["size" := "*"]} None)).1 a'.
Proof. apply (space_store_refines store_ab space_ab _ rep_ab). exact I. Defined.

(** Transaction [t] takes a job, writes its result and takes that back. *)
Definition txn_script : list SpaceOp :=
  [OTakeMatch {["kind" := "job"]} (Some "t"); OInsertUncommitted "t" tuple_c;
   OTakeMatch {["kind" := "result"]} (Some "t")].

(** Meanwhile the job's lease expires and another transaction takes the other job. *)
Definition busy_script : list SpaceOp :=
  txn_script ++ [ORemoveByLease "lease-a"; OTakeMatch {["size" := "*"]} (Some "u")].

Lemma script_fresh ops :
  omap inserted ops = [] → ops_fresh store_ab (txn_script ++ ops).
Proof.
  assert (Hw : wf_store store_ab) by (eexists; apply rep_ab). intros Ho.
  assert (Hrest : ∀ s, ops_fresh s ops).
  { induction ops as [|op ops IH]; [done|]. intros s. simpl in Ho |- *.
    destruct (inserted op); [done|]. split; [done|by apply IH]. }
  split; [done|]. split; [|by split]. intros r Hr.
  destruct (stored_origin store_ab (OTakeMatch {["kind" := "job"]} (Some "t")) r Hw) as [Hs|?];
    [done|exact Hr| |done].
  apply (fresh_tuple_in store_ab space_ab tuple_c rep_ab fresh_c r Hs).
Qed.

(** The expired job is gone, the other one is with [u], nothing is left of [t]. *)
Theorem abort_restores_space_witness :
  let s' := (abort_txn (run_ops store_ab busy_script) "t").1 in
  represents s' {["tup-b" := (tuple_b, Held BTaken "u")]} ∧ ∀ b, buf s' b "t" = [].
Proof.
  assert (E : without "t" (zip busy_script (answers store_ab busy_script)) space_ab =
              {["tup-b" := (tuple_b, Held BTaken "u")]}) by (vm_compute; reflexivity).
  rewrite <- E. apply (abort_restores_space store_ab space_ab "t" busy_script).
  - apply rep_ab.
  - vm_compute. reflexivity.
  - by apply script_fresh.
  - reflexivity.
Defined.

Theorem expired_tuple_never_returns_witness :
  tp_lease_id tuple_a = "lease-a" ∧
  ∀ r, stored (run_ops (remove_by_lease (run_ops store_ab txn_script) "lease-a").1 [OAbort "t"]) r →
       tp_lease_id r ≠ "lease-a".
Proof.
  split; [reflexivity|]. apply expired_tuple_never_returns.
  - destruct (undo_run store_ab space_ab "t" txn_script rep_ab (script_fresh [] eq_refl) eq_refl)
      as (a & Ha & _). by exists a.
  - by split.
  - intros op r ->%list_elem_of_singleton. discriminate.
Defined.

(** A taker outside transactions and one under [t] race for the same tuple; the
    loser finds the other one. *)
Definition taker (st : TakerState) : Taker := mkTaker {["kind" := "job"]} None st.
Definition txn_taker (st : TakerState) : Taker := mkTaker {["kind" := "job"]} (Some "t") st.

Definition claimed (s : InMemorySpaceStore) (id : string) (t : option string)
  : InMemorySpaceStore := match claim s id t with Some (s', _) => s' | None => s end.

Definition race_mid : InMemorySpaceStore := claimed store_ab "tup-a" (Some "t").

Definition race_end : Race :=
  mkRace (claimed race_mid "tup-b" None) ({["tup-b"]} ∪ ({["tup-a"]} ∪ ∅)) ∅
    [taker (Done (Some tuple_b)); txn_taker (Done (Some tuple_a))].

Lemma race_start :
  rreach (mkRace store_ab ({["tup-b"]} ∪ ({["tup-a"]} ∪ ∅)) ∅ [taker Scanning; txn_taker Scanning]).
Proof.
  eapply RStep; [eapply RStep; [eapply RStep; [eapply RStep; [apply RInit|]|]|]|].
  - apply (RCall new ∅ ∅ [] (OInsert tuple_a)). split; [|set_solver].
    apply (fresh_tuple_in new ∅ tuple_a represents_new). split; [apply lookup_empty|].
    intros id r p. by rewrite lookup_empty.
  - apply (RCall store_a ({["tup-a"]} ∪ ∅) ∅ [] (OInsert tuple_b)). split; [|set_solver].
    apply (fresh_tuple_in store_a _ tuple_b rep_a fresh_b).
  - apply RSpawn.
  - apply RSpawn.
Qed.

Lemma race_end_reach : rreach race_end.
Proof.
  set (u := {["tup-b"]} ∪ ({["tup-a"]} ∪ ∅) : gset string).
  eapply RStep; [eapply RStep; [eapply RStep; [eapply RStep; [eapply RStep; [eapply RStep;
    [apply race_start|]|]|]|]|]|].
  - apply (RChoose store_ab u ∅ [] (taker Scanning) [txn_taker Scanning] "tup-a" tuple_a);
      vm_compute; reflexivity.
  - apply (RChoose store_ab u ∅ [taker (Chosen "tup-a")] (txn_taker Scanning) [] "tup-a" tuple_a);
      vm_compute; reflexivity.
  - apply (RClaim store_ab u ∅ [taker (Chosen "tup-a")] (txn_taker (Chosen "tup-a")) [] "tup-a"
             race_mid tuple_a); vm_compute; reflexivity.
  - apply (RLost race_mid u ∅ [] (taker (Chosen "tup-a")) [txn_taker (Done (Some tuple_a))] "tup-a");
      vm_compute; reflexivity.
  - apply (RChoose race_mid u ∅ [] (taker Scanning) [txn_taker (Done (Some tuple_a))] "tup-b" tuple_b);
      vm_compute; reflexivity.
  - apply (RClaim race_mid u ∅ [] (taker (Chosen "tup-b")) [txn_taker (Done (Some tuple_a))] "tup-b"
             (claimed race_mid "tup-b" None) tuple_b); vm_compute; reflexivity.
Qed.

Theorem concurrent_takes_disjoint_witness :
  tp_tuple_id tuple_a ≠ tp_tuple_id tuple_b ∧
  ∀ r, stored (rc_store race_end) r → tp_tuple_id r = "tup-a" →
    ∃ t, Some "t" = Some t ∧
         (r ∈ buf (rc_store race_end) BTaken t ∨ r ∈ buf (rc_store race_end) BSelfTaken t).
Proof.
  destruct (concurrent_takes_disjoint race_end 1 (txn_taker (Done (Some tuple_a))) tuple_a
              race_end_reach eq_refl eq_refl eq_refl) as [Hd Hs].
  split; [|exact Hs].
  apply (Hd 0 (taker (Done (Some tuple_b))) tuple_b eq_refl eq_refl); [discriminate|reflexivity].
Defined.
End samples.
