(* ===== verification/SpaceManager.v ===== *)
(** * The space manager and its 2PC participant
    ([coordin8-space/src/manager.rs], [coordin8-space/src/participant.rs])

    The manager is generic in its store, its lease grantor and the enlister of
    its transaction manager, as the source is.  The two broadcast channels are
    the lists of what was sent on them, oldest first; a subscription is a
    position in such a list.  A blocking [read] or [take] is its immediate
    attempt followed by a reaction to each thing it receives, the rest of the
    system running in between. *)

From S2P Require Import Prelude CoreTypes LeaseCore LeaseStore LeaseManager.
From S2P Require Import Matcher SpaceStore SpaceSpec.
From Stdlib Require Import Strings.Byte.

(** ** The store as a trait *)
Class SpaceStore (S : Type) := {
  ss_insert : S → TupleRecord → S * result unit Error;
  ss_insert_uncommitted : S → string → TupleRecord → S * result unit Error;
  ss_get : S → string → result (option TupleRecord) Error;
  ss_remove : S → string → S * result (option TupleRecord) Error;
  ss_remove_by_lease : S → string → S * result (option TupleRecord) Error;
  ss_find_match : S → attrs_map → option string → result (option TupleRecord) Error;
  ss_take_match : S → attrs_map → option string → S * result (option TupleRecord) Error;
  ss_find_all_matches : S → attrs_map → option string → result (list TupleRecord) Error;
  ss_commit_txn : S → string → S * result (list TupleRecord * list TupleRecord) Error;
  ss_abort_txn : S → string → S * result (list TupleRecord * list TupleRecord) Error;
  ss_has_txn : S → string → result bool Error;
  ss_list_all : S → result (list TupleRecord) Error;
  ss_create_watch : S → SpaceWatchRecord → S * result unit Error;
  ss_remove_watch : S → string → S * result unit Error;
  ss_remove_watch_by_lease : S → string → S * result (option SpaceWatchRecord) Error;
  ss_list_watches : S → result (list SpaceWatchRecord) Error
}.

Definition ss_apply {S} `{SpaceStore S} (s : S) (op : SpaceOp) : S * SpaceRes :=
  match op with
  | OInsert r => map_snd RUnit (ss_insert s r)
  | OInsertUncommitted t r => map_snd RUnit (ss_insert_uncommitted s t r)
  | OGet id => (s, RTuple (ss_get s id))
  | ORemove id => map_snd RTuple (ss_remove s id)
  | ORemoveByLease l => map_snd RTuple (ss_remove_by_lease s l)
  | OFindMatch tm t => (s, RTuple (ss_find_match s tm t))
  | OTakeMatch tm t => map_snd RTuple (ss_take_match s tm t)
  | OFindAll tm t => (s, RTuples (ss_find_all_matches s tm t))
  | OCommit t => map_snd RPair (ss_commit_txn s t)
  | OAbort t => map_snd RPair (ss_abort_txn s t)
  | OHasTxn t => (s, RBool (ss_has_txn s t))
  end.

(** What the manager relies on: the store refines the abstract space in the calls
    it is made for ([ss_valid]), and its watch calls do not touch tuples. *)
Class SpaceStoreLaws {I : MapIter} (S : Type) `{SpaceStore S} := {
  ss_rep : S → space → Prop;
  ss_valid : SpaceOp → Prop;
  ss_key : ∀ s a, ss_rep s a → ∀ id r p, a !! id = Some (r, p) → tp_tuple_id r = id;
  ss_refines : ∀ s a op, ss_rep s a → op_fresh a op → ss_valid op →
    ∃ a', allowed a op (ss_apply s op).2 a' ∧ ss_rep (ss_apply s op).1 a';
  ss_create_watch_law : ∀ s a w, ss_rep s a → ss_rep (ss_create_watch s w).1 a;
  ss_remove_watch_law : ∀ s a l, ss_rep s a → ss_rep (ss_remove_watch_by_lease s l).1 a
}.

#[global] Instance InMemorySpaceStore_store {I : MapIter} : SpaceStore InMemorySpaceStore := {|
  ss_insert := insert;
  ss_insert_uncommitted := insert_uncommitted;
  ss_get := get;
  ss_remove := remove;
  ss_remove_by_lease := remove_by_lease;
  ss_find_match := find_match;
  ss_take_match := take_match;
  ss_find_all_matches := find_all_matches;
  ss_commit_txn := commit_txn;
  ss_abort_txn := abort_txn;
  ss_has_txn := has_txn;
  ss_list_all := list_all;
  ss_create_watch := create_watch;
  ss_remove_watch := remove_watch;
  ss_remove_watch_by_lease := remove_watch_by_lease;
  ss_list_watches := list_watches
|}.

Lemma represents_watches s a ws wi : represents s a → represents (set_watches s ws wi) a.
Proof. intros [? ? ? ? ? ? ?]. by split. Qed.

#[global] Instance InMemorySpaceStore_laws {I : MapIter} : SpaceStoreLaws InMemorySpaceStore.
Proof.
  refine {| ss_rep := represents; ss_valid := λ _, True |}.
  - intros s a HR. apply (rp_key _ _ HR).
  - intros s a op HR Hf _. by apply store_refines.
  - intros s a w HR. by apply represents_watches.
  - intros s a l HR. simpl. unfold remove_watch_by_lease.
    destruct (watch_lease_index s !! l); [|done].
    destruct (watches _ !! _); by repeat apply represents_watches.
Defined.

(** [TxnEnlister]. *)
Class TxnEnlister (T : Type) := {
  te_enlist : T → string → string → T * result unit Error
}.

(** ** [SpaceManager] *)
Record SpaceManager (S L T : Type) := mkManager {
  sm_store : S;
  sm_leases : L;
  sm_tuple_tx : list TupleRecord;
  sm_expiry_tx : list TupleRecord;
  sm_enlister : option T;
  sm_participant_endpoint : option string;
  sm_enlisted : gset string
}.
Arguments mkManager {S L T}.
Arguments sm_store {S L T} _.
Arguments sm_leases {S L T} _.
Arguments sm_tuple_tx {S L T} _.
Arguments sm_expiry_tx {S L T} _.
Arguments sm_enlister {S L T} _.
Arguments sm_participant_endpoint {S L T} _.
Arguments sm_enlisted {S L T} _.

Section manager.
Context {I : MapIter} {S L T : Type} `{SpaceStore S} `{Leasing L} `{TxnEnlister T}.
Implicit Types (m : SpaceManager S L T).

Definition new_manager (store : S) (leases : L) : SpaceManager S L T :=
  mkManager store leases [] [] None None ∅.
Definition with_enlister (store : S) (leases : L) (enlister : T) (endpoint : string)
  : SpaceManager S L T :=
  mkManager store leases [] [] (Some enlister) (Some endpoint) ∅.

Definition put_store m (s : S) : SpaceManager S L T :=
  mkManager s (sm_leases m) (sm_tuple_tx m) (sm_expiry_tx m) (sm_enlister m)
    (sm_participant_endpoint m) (sm_enlisted m).
Definition put_leases m (l : L) : SpaceManager S L T :=
  mkManager (sm_store m) l (sm_tuple_tx m) (sm_expiry_tx m) (sm_enlister m)
    (sm_participant_endpoint m) (sm_enlisted m).
Definition send_tuple m (r : TupleRecord) : SpaceManager S L T :=
  mkManager (sm_store m) (sm_leases m) (sm_tuple_tx m ++ [r]) (sm_expiry_tx m) (sm_enlister m)
    (sm_participant_endpoint m) (sm_enlisted m).
Definition send_expiry m (r : TupleRecord) : SpaceManager S L T :=
  mkManager (sm_store m) (sm_leases m) (sm_tuple_tx m) (sm_expiry_tx m ++ [r]) (sm_enlister m)
    (sm_participant_endpoint m) (sm_enlisted m).
Definition put_enlister m (e : T) (set : gset string) : SpaceManager S L T :=
  mkManager (sm_store m) (sm_leases m) (sm_tuple_tx m) (sm_expiry_tx m) (Some e)
    (sm_participant_endpoint m) set.
Definition forget_enlisted m (txn_id : string) : SpaceManager S L T :=
  mkManager (sm_store m) (sm_leases m) (sm_tuple_tx m) (sm_expiry_tx m) (sm_enlister m)
    (sm_participant_endpoint m) (sm_enlisted m ∖ {[txn_id]}).

Definition ensure_enlisted m (txn_id : string) : SpaceManager S L T * result unit Error :=
  match sm_enlister m with
  | None => (m, Ok ())
  | Some enlister =>
      if bool_decide (txn_id ∈ sm_enlisted m) then (m, Ok ())
      else match sm_participant_endpoint m with
           | None => (m, Err (Internal "space participant_endpoint not configured"))
           | Some endpoint =>
               match te_enlist enlister txn_id endpoint with
               | (e', Err err) => (put_enlister m e' (sm_enlisted m), Err err)
               | (e', Ok _) => (put_enlister m e' ({[txn_id]} ∪ sm_enlisted m), Ok ())
               end
           end
  end.

Definition write m (tuple_id : string) (env : Env) (attrs : attrs_map) (payload : list byte)
    (ttl_secs : Z) (written_by : string) (input_tuple_id txn_id : option string)
  : SpaceManager S L T * result (TupleRecord * LeaseRecord) Error :=
  match lg_grant (sm_leases m) env ("space:" +:+ tuple_id) ttl_secs with
  | (l', Err e) => (put_leases m l', Err e)
  | (l', Ok lease) =>
      let m := put_leases m l' in
      let record := mkTuple tuple_id attrs payload (lr_lease_id lease) written_by (now2 env)
                      input_tuple_id in
      match txn_id with
      | Some tid =>
          match ensure_enlisted m tid with
          | (m, Err e) => (m, Err e)
          | (m, Ok _) =>
              let '(s', res) := ss_insert_uncommitted (sm_store m) tid record in
              (put_store m s', rmap (λ _, (record, lease)) res)
          end
      | None =>
          match ss_insert (sm_store m) record with
          | (s', Err e) => (put_store m s', Err e)
          | (s', Ok _) => (send_tuple (put_store m s') record, Ok (record, lease))
          end
      end
  end.

(** *** Blocking operations *)

(** What wakes a waiting task: a broadcast, a lag, the channel closing, or its
    timeout ([timeout_ms = 0] never times out). *)
Inductive Wake := WRecv (t : TupleRecord) | WLagged | WClosed | WTimeout.

(** The immediate attempt of [read]: [None] means it goes on to wait. *)
Definition read_now m (template : attrs_map) (wait : bool) (txn_id : option string)
  : option (result (option TupleRecord) Error) :=
  match ss_find_match (sm_store m) template txn_id with
  | Err e => Some (Err e)
  | Ok (Some r) => Some (Ok (Some r))
  | Ok None => if wait then None else Some (Ok None)
  end.

(** One turn of its wait loop. *)
Definition read_wake m (template : attrs_map) (txn_id : option string) (w : Wake)
  : option (option TupleRecord) :=
  match w with
  | WRecv tuple =>
      if matches (parse_template template) (tp_attrs tuple) then Some (Some tuple) else None
  | WClosed | WTimeout => Some None
  | WLagged =>
      match ss_find_match (sm_store m) template txn_id with
      | Ok (Some r) => Some (Some r)
      | _ => None
      end
  end.

(** The wait loop, on the manager as it is at each wake-up; [None]: still waiting. *)
Fixpoint read_loop (template : attrs_map) (txn_id : option string)
    (wakes : list (SpaceManager S L T * Wake)) : option (option TupleRecord) :=
  match wakes with
  | [] => None
  | (m, w) :: wakes =>
      match read_wake m template txn_id w with
      | Some r => Some r
      | None => read_loop template txn_id wakes
      end
  end.

(** A store take, releasing the lease of a tuple taken outside any transaction. *)
Definition take_once m (template : attrs_map) (txn_id : option string)
  : SpaceManager S L T * result (option TupleRecord) Error :=
  match ss_take_match (sm_store m) template txn_id with
  | (s', Ok (Some r)) =>
      let m := put_store m s' in
      match txn_id with
      | None => (put_leases m (lg_cancel (sm_leases m) (tp_lease_id r)).1, Ok (Some r))
      | Some _ => (m, Ok (Some r))
      end
  | (s', res) => (put_store m s', res)
  end.

Definition take_now m (template : attrs_map) (wait : bool) (txn_id : option string)
  : SpaceManager S L T * option (result (option TupleRecord) Error) :=
  let '(m, enlisted) :=
    match txn_id with Some tid => ensure_enlisted m tid | None => (m, Ok ()) end in
  match enlisted with
  | Err e => (m, Some (Err e))
  | Ok _ =>
      match take_once m template txn_id with
      | (m, Ok None) => (m, if wait then None else Some (Ok None))
      | (m, res) => (m, Some res)
      end
  end.

Definition take_wake m (template : attrs_map) (txn_id : option string) (w : Wake)
  : SpaceManager S L T * option (option TupleRecord) :=
  let retry :=
    match take_once m template txn_id with
    | (m, Ok (Some r)) => (m, Some (Some r))
    | (m, _) => (m, None)
    end in
  match w with
  | WRecv tuple =>
      if matches (parse_template template) (tp_attrs tuple) then retry else (m, None)
  | WClosed | WTimeout => (m, Some None)
  | WLagged => retry
  end.

Definition contents m (template : attrs_map) (txn_id : option string)
  : result (list TupleRecord) Error :=
  ss_find_all_matches (sm_store m) template txn_id.

(** *** Transactions *)

(** Best-effort cancellation of the leases of a list of tuples. *)
Definition cancel_leases m (l : list TupleRecord) : SpaceManager S L T :=
  foldl (λ m r, put_leases m (lg_cancel (sm_leases m) (tp_lease_id r)).1) m l.

Definition broadcast m (l : list TupleRecord) : SpaceManager S L T := foldl send_tuple m l.

Definition commit_space_txn m (txn_id : string) : SpaceManager S L T * result unit Error :=
  match ss_commit_txn (sm_store m) txn_id with
  | (s', Err e) => (put_store m s', Err e)
  | (s', Ok (flushed, taken)) =>
      let m := forget_enlisted (put_store m s') txn_id in
      (broadcast (cancel_leases m taken) flushed, Ok ())
  end.

Definition abort_space_txn m (txn_id : string) : SpaceManager S L T * result unit Error :=
  match ss_abort_txn (sm_store m) txn_id with
  | (s', Err e) => (put_store m s', Err e)
  | (s', Ok (discarded, restored)) =>
      let m := forget_enlisted (put_store m s') txn_id in
      (broadcast (cancel_leases m discarded) restored, Ok ())
  end.

Definition has_txn m (txn_id : string) : result bool Error := ss_has_txn (sm_store m) txn_id.

(** *** Watches, expiry, cancel and renew *)

Definition notify m (watch_id : string) (env : Env) (template : attrs_map) (on : SpaceEventKind)
    (ttl_secs : Z) (handback : list byte)
  : SpaceManager S L T * result (string * string) Error :=
  match lg_grant (sm_leases m) env ("space-watch:" +:+ watch_id) ttl_secs with
  | (l', Err e) => (put_leases m l', Err e)
  | (l', Ok lease) =>
      let m := put_leases m l' in
      let '(s', res) := ss_create_watch (sm_store m)
                          (mkWatch watch_id template on (lr_lease_id lease) handback) in
      (put_store m s', rmap (λ _, (watch_id, lr_lease_id lease)) res)
  end.

Definition on_tuple_expired m (lease_id : string) : SpaceManager S L T :=
  match ss_remove_by_lease (sm_store m) lease_id with
  | (s', Ok (Some record)) => send_expiry (put_store m s') record
  | (s', _) => put_store m s'
  end.

Definition on_watch_expired m (lease_id : string) : SpaceManager S L T :=
  put_store m (ss_remove_watch_by_lease (sm_store m) lease_id).1.

Definition cancel m (tuple_id : string) : SpaceManager S L T * result unit Error :=
  match ss_remove (sm_store m) tuple_id with
  | (s', Err e) => (put_store m s', Err e)
  | (s', Ok None) => (put_store m s', Err (TupleNotFound tuple_id))
  | (s', Ok (Some record)) =>
      let m := put_store m s' in
      let '(l', res) := lg_cancel (sm_leases m) (tp_lease_id record) in
      (put_leases m l', res)
  end.

Definition renew m (env : Env) (tuple_id : string) (ttl_secs : Z)
  : SpaceManager S L T * result LeaseRecord Error :=
  match ss_get (sm_store m) tuple_id with
  | Err e => (m, Err e)
  | Ok None => (m, Err (TupleNotFound tuple_id))
  | Ok (Some record) =>
      let '(l', res) := lg_renew (sm_leases m) env (tp_lease_id record) ttl_secs in
      (put_leases m l', res)
  end.

(** ** The 2PC participant of the Space *)

Definition participant_err (e : Error) : Status :=
  match e with
  | Unavailable _ => mkStatus CUnavailable (error_to_string e)
  | _ => mkStatus CInternal (error_to_string e)
  end.

Definition prepare_rpc m (txn_id : string) : result Z Status :=
  rmap (λ b : bool, if b then 0%Z else 1%Z) (map_err participant_err (has_txn m txn_id)).

Definition commit_rpc m (txn_id : string) : SpaceManager S L T * result unit Status :=
  let '(m, res) := commit_space_txn m txn_id in (m, map_err participant_err res).

Definition abort_rpc m (txn_id : string) : SpaceManager S L T * result unit Status :=
  let '(m, res) := abort_space_txn m txn_id in (m, map_err participant_err res).

Definition prepare_and_commit_rpc m (txn_id : string) : SpaceManager S L T * result Z Status :=
  match has_txn m txn_id with
  | Err e => (m, Err (participant_err e))
  | Ok true =>
      match commit_space_txn m txn_id with
      | (m, Err e) => (m, Err (participant_err e))
      | (m, Ok _) => (m, Ok 0%Z)
      end
  | Ok false => (m, Ok 1%Z)
  end.
End manager.

(** ** Theorems *)
Section theorems.
Context {I : MapIter} {S L T : Type}.
Context {SS : SpaceStore S} {SL : SpaceStoreLaws S}.
Context {LG : Leasing L} {LV : LeasingView L} {LL : LeasingLaws L} {TE : TxnEnlister T}.
Implicit Types (m : SpaceManager S L T) (a : space).

Abbreviation rep m a := (ss_rep (sm_store m) a).
Abbreviation leases m := (lg_leases (sm_leases m)).

(** *** Store calls through the contract *)

Lemma call_op {s : S} {a} op :
  ss_rep s a → op_fresh a op → ss_valid op →
  ∃ a', allowed a op (ss_apply s op).2 a' ∧ ss_rep (ss_apply s op).1 a'.
Proof. apply ss_refines. Qed.

Lemma commit_call s a t :
  ss_rep s a → ss_valid (OCommit t) →
  ∃ s' flushed taken, ss_commit_txn s t = (s', Ok (flushed, taken)) ∧
    ss_rep s' (move_all (commit_place t) a) ∧
    (∀ r, r ∈ flushed ↔ holds a BUncommitted t r) ∧
    (∀ r, r ∈ taken ↔ holds a BTaken t r ∨ holds a BSelfTaken t r).
Proof.
  intros HR Hv. destruct (call_op (OCommit t) HR) as (a' & Hal & HR'); [done..|].
  simpl in *. destruct (ss_commit_txn s t) as [s' [[fl tk]|]]; [|done].
  destruct Hal as (-> & ? & ?). simpl in HR'. eauto 10.
Qed.

Lemma abort_call s a t :
  ss_rep s a → ss_valid (OAbort t) →
  ∃ s' discarded restored, ss_abort_txn s t = (s', Ok (discarded, restored)) ∧
    ss_rep s' (move_all (abort_place t) a) ∧
    (∀ r, r ∈ discarded ↔ holds a BUncommitted t r ∨ holds a BSelfTaken t r) ∧
    (∀ r, r ∈ restored ↔ holds a BTaken t r).
Proof.
  intros HR Hv. destruct (call_op (OAbort t) HR) as (a' & Hal & HR'); [done..|].
  simpl in *. destruct (ss_abort_txn s t) as [s' [[fl tk]|]]; [|done].
  destruct Hal as (-> & ? & ?). simpl in HR'. eauto 10.
Qed.

Lemma has_txn_call s a t :
  ss_rep s a → ss_valid (OHasTxn t) →
  ∃ b, ss_has_txn s t = Ok b ∧ (b = true ↔ ∃ k r, holds a k t r).
Proof.
  intros HR Hv. destruct (call_op (OHasTxn t) HR) as (a' & Hal & HR'); [done..|].
  simpl in *. destruct (ss_has_txn s t) as [b|]; [|done]. destruct Hal. eauto.
Qed.

Lemma take_call s a tm t :
  ss_rep s a → ss_valid (OTakeMatch tm t) →
  ∃ s' o a', ss_take_match s tm t = (s', Ok o) ∧ ss_rep s' a' ∧
    match o with
    | Some r => ∃ p, candidate a tm t r p ∧ a' = take_tuple t r p a
    | None => a' = a ∧ ∀ r p, ¬ candidate a tm t r p
    end.
Proof.
  intros HR Hv. destruct (call_op (OTakeMatch tm t) HR) as (a' & Hal & HR'); [done..|].
  simpl in *. destruct (ss_take_match s tm t) as [s' [[r|]|]]; [| |done]; simpl in *.
  - exists s', (Some r), a'. done.
  - exists s', None, a'. done.
Qed.

(** *** The loops of commit and abort *)

Lemma cancel_leases_spec m l :
  let m' := cancel_leases m l in
  sm_store m' = sm_store m ∧ sm_tuple_tx m' = sm_tuple_tx m ∧ sm_enlisted m' = sm_enlisted m ∧
  leases m' = filter (λ kv, kv.1 ∉ tp_lease_id <$> l) (leases m).
Proof.
  cbv zeta. revert m. induction l as [|r l IH]; intros m.
  { split_and!; try done. symmetry. apply map_filter_id. intros. apply not_elem_of_nil. }
  set (m1 := put_leases m (lg_cancel (sm_leases m) (tp_lease_id r)).1).
  change (cancel_leases m (r :: l)) with (cancel_leases m1 l). destruct (IH m1) as (-> & -> & -> & ->). split_and!; try done.
  unfold m1. simpl. pose proof (lg_cancel_law (sm_leases m) (tp_lease_id r)) as Hc.
  destruct (lg_cancel _ _) as [l' res]. destruct Hc as [_ Hc]. simpl. rewrite Hc.
  apply map_eq. intros k. apply option_eq. intros v.
  rewrite !map_lookup_filter_Some, lookup_delete_Some. simpl. rewrite not_elem_of_cons.
  naive_solver.
Qed.

Lemma broadcast_spec m l :
  let m' := broadcast m l in
  sm_store m' = sm_store m ∧ sm_tuple_tx m' = sm_tuple_tx m ++ l ∧
  sm_enlisted m' = sm_enlisted m ∧ sm_leases m' = sm_leases m.
Proof.
  cbv zeta. revert m. induction l as [|r l IH]; intros m.
  { simpl. by rewrite app_nil_r. }
  change (broadcast m (r :: l)) with (broadcast (send_tuple m r) l).
  destruct (IH (send_tuple m r)) as (-> & -> & -> & ->). simpl. by rewrite <- app_assoc.
Qed.

(** Committing a transaction's Space operations publishes exactly
    its remaining writes and broadcasts each, forgets its takes, releases exactly
    the leases of what was taken, and ends the enlistment. *)
Theorem commit_space_outcome m a t :
  rep m a → ss_valid (OCommit t) →
  ∃ flushed taken : list TupleRecord,
    let m' := (commit_space_txn m t).1 in
    (commit_space_txn m t).2 = Ok () ∧ rep m' (move_all (commit_place t) a) ∧
    sm_tuple_tx m' = sm_tuple_tx m ++ flushed ∧
    (∀ r, r ∈ flushed ↔ holds a BUncommitted t r) ∧
    (∀ r, r ∈ taken ↔ holds a BTaken t r ∨ holds a BSelfTaken t r) ∧
    leases m' = filter (λ kv, kv.1 ∉ tp_lease_id <$> taken) (leases m) ∧
    t ∉ sm_enlisted m'.
Proof.
  intros HR Hv. destruct (commit_call _ a t HR Hv) as (s' & flushed & taken & E & HR' & Hf & Ht).
  exists flushed, taken. cbv zeta. unfold commit_space_txn. rewrite E. cbn [fst snd].
  set (m1 := forget_enlisted (put_store m s') t).
  destruct (cancel_leases_spec m1 taken) as (E1 & E2 & E3 & E4).
  destruct (broadcast_spec (cancel_leases m1 taken) flushed) as (-> & -> & -> & ->).
  rewrite E1, E2, E3, E4. split_and!; try done. simpl. set_solver.
Qed.

(** Aborting a transaction's Space operations restores exactly what
    it took from the visible space and broadcasts each, discards its writes,
    releases exactly their leases (restored tuples keep theirs), and ends the
    enlistment. *)
Theorem abort_space_outcome m a t :
  rep m a → ss_valid (OAbort t) →
  ∃ discarded restored : list TupleRecord,
    let m' := (abort_space_txn m t).1 in
    (abort_space_txn m t).2 = Ok () ∧ rep m' (move_all (abort_place t) a) ∧
    sm_tuple_tx m' = sm_tuple_tx m ++ restored ∧
    (∀ r, r ∈ restored ↔ holds a BTaken t r) ∧
    (∀ r, r ∈ discarded ↔ holds a BUncommitted t r ∨ holds a BSelfTaken t r) ∧
    leases m' = filter (λ kv, kv.1 ∉ tp_lease_id <$> discarded) (leases m) ∧
    t ∉ sm_enlisted m'.
Proof.
  intros HR Hv. destruct (abort_call _ a t HR Hv) as (s' & disc & rest & E & HR' & Hd & Hr).
  exists disc, rest. cbv zeta. unfold abort_space_txn. rewrite E. cbn [fst snd].
  set (m1 := forget_enlisted (put_store m s') t).
  destruct (cancel_leases_spec m1 disc) as (E1 & E2 & E3 & E4).
  destruct (broadcast_spec (cancel_leases m1 disc) rest) as (-> & -> & -> & ->).
  rewrite E1, E2, E3, E4. split_and!; try done. simpl. set_solver.
Qed.

(** The participant votes PREPARED exactly when it holds something of the
    transaction; [PrepareAndCommit] commits in that case and leaves nothing held,
    and otherwise votes NOTCHANGED and changes nothing. *)
Theorem participant_votes m a t :
  rep m a → ss_valid (OHasTxn t) → ss_valid (OCommit t) →
  let held := ∃ k r, holds a k t r in
  (prepare_rpc m t = Ok 0%Z ↔ held) ∧ (prepare_rpc m t = Ok 1%Z ↔ ¬ held) ∧
  (held → (prepare_and_commit_rpc m t).2 = Ok 0%Z ∧
          rep (prepare_and_commit_rpc m t).1 (move_all (commit_place t) a)) ∧
  (¬ held → prepare_and_commit_rpc m t = (m, Ok 1%Z)).
Proof.
  intros HR Hv1 Hv2. cbv zeta. destruct (has_txn_call _ a t HR Hv1) as (b & E & Hb).
  destruct (commit_call _ a t HR Hv2) as (s' & flushed & taken & Ec & HR' & _ & _).
  unfold prepare_rpc, prepare_and_commit_rpc, has_txn. rewrite E. simpl.
  assert (Hc : ∀ m', m' = (commit_space_txn m t).1 → rep m' (move_all (commit_place t) a)).
  { intros m' ->. unfold commit_space_txn. rewrite Ec. cbn [fst].
    destruct (broadcast_spec (cancel_leases (forget_enlisted (put_store m s') t) taken) flushed)
      as (-> & _). by destruct (cancel_leases_spec (forget_enlisted (put_store m s') t) taken)
      as (-> & _). }
  assert (Hok : (commit_space_txn m t).2 = Ok ()) by (unfold commit_space_txn; by rewrite Ec).
  destruct b.
  - assert (Hh : ∃ k r, holds a k t r) by (by apply Hb). split_and!; [done|done| |done].
    intros _. specialize (Hc _ eq_refl). destruct (commit_space_txn m t) as [m' res]. simpl in *.
    by rewrite Hok.
  - assert (Hh : ¬ ∃ k r, holds a k t r) by (intros H; by apply Hb in H).
    split_and!; try done.
Qed.

(** *** Whatever becomes visible is broadcast *)

(** What the system may do to the manager. *)
Inductive MOp :=
| MWrite (tuple_id : string) (env : Env) (attrs : attrs_map) (payload : list byte) (ttl : Z)
    (by_ : string) (input txn_id : option string)
| MTakeNow (template : attrs_map) (wait : bool) (txn_id : option string)
| MTakeWake (template : attrs_map) (txn_id : option string) (w : Wake)
| MCommit (txn_id : string)
| MAbort (txn_id : string)
| MNotify (watch_id : string) (env : Env) (template : attrs_map) (on : SpaceEventKind) (ttl : Z)
    (handback : list byte)
| MTupleExpired (lease_id : string)
| MWatchExpired (lease_id : string)
| MCancel (tuple_id : string)
| MRenew (env : Env) (tuple_id : string) (ttl : Z).

Definition mrun m (op : MOp) : SpaceManager S L T :=
  match op with
  | MWrite id env at_ pl ttl by_ inp t => (write m id env at_ pl ttl by_ inp t).1
  | MTakeNow tm w t => (take_now m tm w t).1
  | MTakeWake tm t w => (take_wake m tm t w).1
  | MCommit t => (commit_space_txn m t).1
  | MAbort t => (abort_space_txn m t).1
  | MNotify id env tm on ttl hb => (notify m id env tm on ttl hb).1
  | MTupleExpired l => on_tuple_expired m l
  | MWatchExpired l => on_watch_expired m l
  | MCancel id => (cancel m id).1
  | MRenew env id ttl => (renew m env id ttl).1
  end.

(** Ids drawn for a write are new. *)
Definition mop_fresh a (op : MOp) : Prop :=
  match op with
  | MWrite id env _ _ _ _ _ _ =>
      a !! id = None ∧ ∀ id' r p, a !! id' = Some (r, p) → tp_lease_id r ≠ uuid env
  | _ => True
  end.

(** The store is made for the calls of the operation. *)
Definition mop_valid (op : MOp) : Prop :=
  match op with
  | MWrite id env _ _ _ _ _ t =>
      ∀ r, tp_tuple_id r = id → tp_lease_id r = uuid env →
        ss_valid (match t with Some t => OInsertUncommitted t r | None => OInsert r end)
  | MTakeNow tm _ t | MTakeWake tm t _ => ss_valid (OTakeMatch tm t)
  | MCommit t => ss_valid (OCommit t)
  | MAbort t => ss_valid (OAbort t)
  | MTupleExpired l => ss_valid (ORemoveByLease l)
  | MCancel id => ss_valid (ORemove id)
  | MNotify _ _ _ _ _ _ | MWatchExpired _ | MRenew _ _ _ => True
  end.

(** [m'] extends the broadcast log of [m] and announces what it made visible. *)
Definition announces m a m' a' : Prop :=
  ∃ sent, sm_tuple_tx m' = sm_tuple_tx m ++ sent ∧
    ∀ id r, a' !! id = Some (r, Visible) → a !! id ≠ Some (r, Visible) → r ∈ sent.

Lemma announces_quiet m a m' a' :
  sm_tuple_tx m' = sm_tuple_tx m →
  (∀ id r, a' !! id = Some (r, Visible) → a !! id = Some (r, Visible)) →
  announces m a m' a'.
Proof. intros E Hv. exists []. rewrite app_nil_r. split; [done|]. intros id r Ha Hn. by apply Hv in Ha. Qed.

Lemma ensure_enlisted_quiet m t :
  sm_store (ensure_enlisted m t).1 = sm_store m ∧
  sm_tuple_tx (ensure_enlisted m t).1 = sm_tuple_tx m.
Proof.
  unfold ensure_enlisted. destruct (sm_enlister m); [|done]. case_bool_decide; [done|].
  destruct (sm_participant_endpoint m); [|done]. by destruct (te_enlist _ _ _) as [? [|]].
Qed.

Lemma take_once_quiet m a tm t :
  rep m a → ss_valid (OTakeMatch tm t) →
  ∃ a', rep (take_once m tm t).1 a' ∧ announces m a (take_once m tm t).1 a'.
Proof.
  intros HR Hv. destruct (take_call _ a tm t HR Hv) as (s' & o & a' & E & HR' & Ho).
  exists a'. unfold take_once. rewrite E. destruct o as [r|].
  - destruct Ho as (p & Hc & ->). destruct t as [t|]; (split; [done|]); apply announces_quiet;
      try done; intros id r0; unfold take_tuple; simpl.
    + rewrite lookup_insert_Some. naive_solver.
    + rewrite lookup_delete_Some. naive_solver.
  - destruct Ho as [-> _]. split; [done|]. by apply announces_quiet.
Qed.

Lemma settle_announces m a s' bp t gone shown :
  ss_rep s' (move_all (settle_place bp t) a) →
  (∀ r, r ∈ shown ↔ holds a bp t r) → (∀ id r p, a !! id = Some (r, p) → tp_tuple_id r = id) →
  let m' := broadcast (cancel_leases (forget_enlisted (put_store m s') t) gone) shown in
  rep m' (move_all (settle_place bp t) a) ∧ announces m a m' (move_all (settle_place bp t) a).
Proof.
  intros HR Hs Hk. cbv zeta. set (m1 := forget_enlisted (put_store m s') t).
  destruct (cancel_leases_spec m1 gone) as (E1 & E2 & _).
  destruct (broadcast_spec (cancel_leases m1 gone) shown) as (E3 & E4 & _).
  rewrite E3, E1. split; [done|]. exists shown. rewrite E4, E2. split; [done|].
  intros id r. rewrite lookup_move. setoid_rewrite settle_visible.
  intros (p & Hr & [-> | ->]) Hn; [done|]. apply Hs. unfold holds. by rewrite (Hk _ _ _ Hr).
Qed.

Lemma commit_place_settle a t : move_all (commit_place t) a = move_all (settle_place BUncommitted t) a.
Proof.
  apply map_eq. intros id. apply option_eq. intros [r p]. rewrite !lookup_move.
  by setoid_rewrite commit_settle.
Qed.

Lemma abort_place_settle a t : move_all (abort_place t) a = move_all (settle_place BTaken t) a.
Proof.
  apply map_eq. intros id. apply option_eq. intros [r p]. rewrite !lookup_move.
  by setoid_rewrite abort_settle.
Qed.

Lemma write_announces m a id env at_ pl ttl by_ inp t :
  rep m a → mop_fresh a (MWrite id env at_ pl ttl by_ inp t) →
  mop_valid (MWrite id env at_ pl ttl by_ inp t) →
  ∃ a', rep (mrun m (MWrite id env at_ pl ttl by_ inp t)) a' ∧
        announces m a (mrun m (MWrite id env at_ pl ttl by_ inp t)) a'.
Proof.
  intros HR [Hn Hfl] Hv. simpl. unfold write.
  pose proof (lg_grant_law (sm_leases m) env ("space:" +:+ id) ttl) as Hg.
  destruct (lg_grant _ _ _ _) as [l' [lease|e]].
  2: { exists a. split; [done|]. by apply announces_quiet. }
  destruct Hg as (Hid & _ & _). set (r := mkTuple _ _ _ _ _ _ _).
  assert (Hf : fresh_tuple a r) by (split; [done|simpl; by rewrite Hid]).
  specialize (Hv r eq_refl Hid). destruct t as [t|].
  - destruct (ensure_enlisted_quiet (put_leases m l') t) as [Es Et].
    destruct (ensure_enlisted (put_leases m l') t) as [m1 [|]]; simpl in Es, Et.
    2: { exists a. split; [by rewrite <- Es in HR|]. by apply announces_quiet. }
    rewrite <- Es in HR. destruct (call_op (OInsertUncommitted t r) HR Hf Hv) as (a' & Hal & HR').
    simpl in Hal, HR'. destruct (ss_insert_uncommitted _ _ _) as [s' [|]]; [|done].
    simpl in *. subst a'. eexists. split; [done|]. apply announces_quiet; [done|].
    intros id' r'. rewrite lookup_insert_Some. naive_solver.
  - destruct (call_op (OInsert r) HR Hf Hv) as (a' & Hal & HR').
    simpl in Hal, HR'. cbn [sm_store put_leases]. destruct (ss_insert _ _) as [s' [|]]; [|done].
    simpl in *. subst a'. eexists. split; [done|]. exists [r]. split; [done|].
    intros id' r'. rewrite lookup_insert_Some. intros [[_ [= <-]]|[_ ?]] ?; [left|done].
Qed.

Lemma mrun_announces m a op :
  rep m a → mop_fresh a op → mop_valid op → ∃ a', rep (mrun m op) a' ∧ announces m a (mrun m op) a'.
Proof.
  intros HR Hf Hv. destruct op as [id env at_ pl ttl by_ inp t|tm w t|tm t w|t|t|id env tm on ttl hb
    |l|l|id|env id ttl]; simpl in Hf, Hv.
  - by apply write_announces.
  - simpl. unfold take_now.
    assert (Hen : ∃ m1 res, (match t with Some tid => ensure_enlisted m tid | None => (m, Ok ()) end)
      = (m1, res) ∧ sm_store m1 = sm_store m ∧ sm_tuple_tx m1 = sm_tuple_tx m).
    { destruct t as [t|]; [|eauto]. destruct (ensure_enlisted_quiet m t) as [? ?].
      destruct (ensure_enlisted m t). eauto. }
    destruct Hen as (m1 & res & -> & Es & Et). destruct res as [|e].
    2: { exists a. rewrite <- Es in HR. split; [done|]. by apply announces_quiet. }
    rewrite <- Es in HR. destruct (take_once_quiet m1 a tm t HR Hv) as (a' & HR' & sent & Hs & Hvis).
    exists a'. rewrite Et in Hs.
    destruct (take_once m1 tm t) as [m2 [[r|]|]]; simpl in *; (split; [done|]); by exists sent.
  - simpl. unfold take_wake.
    destruct (take_once_quiet m a tm t HR Hv) as (a' & HR' & Hann).
    assert (Hquiet : rep m a ∧ announces m a m a) by (split; [done|]; by apply announces_quiet).
    destruct (take_once m tm t) as [m2 [[r|]|]]; destruct w; simpl in *; try case_match; eauto.
  - simpl. destruct (commit_call _ a t HR Hv) as (s' & flushed & taken & E & HR' & Hfl & _).
    rewrite commit_place_settle in HR'. unfold commit_space_txn. rewrite E. cbn [fst].
    eexists. by apply settle_announces; [|apply Hfl|apply (ss_key _ a HR)].
  - simpl. destruct (abort_call _ a t HR Hv) as (s' & disc & rest & E & HR' & _ & Hr).
    rewrite abort_place_settle in HR'. unfold abort_space_txn. rewrite E. cbn [fst].
    eexists. by apply settle_announces; [|apply Hr|apply (ss_key _ a HR)].
  - exists a. simpl. unfold notify. destruct (lg_grant _ _ _ _) as [l' [lease|]].
    + cbn [sm_store put_leases].
      pose proof (ss_create_watch_law (sm_store m) a (mkWatch id tm on (lr_lease_id lease) hb) HR).
      destruct (ss_create_watch _ _) as [s' res]. split; [done|]. by apply announces_quiet.
    + split; [done|]. by apply announces_quiet.
  - destruct (call_op (ORemoveByLease l) HR) as (a' & Hal & HR'); [done..|]. exists a'. simpl in *.
    unfold on_tuple_expired. destruct (ss_remove_by_lease _ _) as [s' [[r|]|]]; [| |done];
      (split; [done|]); apply announces_quiet; try done; simpl in Hal; unpack; subst; try done.
    intros id r0. unfold drop_lease. rewrite map_lookup_filter_Some. tauto.
  - exists a. simpl. unfold on_watch_expired.
    pose proof (ss_remove_watch_law (sm_store m) a l HR). split; [done|].
    by apply announces_quiet.
  - destruct (call_op (ORemove id) HR) as (a' & Hal & HR'); [done..|]. exists a'. simpl in *.
    unfold cancel. destruct (ss_remove _ _) as [s' [[r|]|]]; [| |done]; simpl in *.
    + destruct (lg_cancel _ _). split; [done|]. apply announces_quiet; [done|].
      destruct Hal as [_ ->]. intros id' r'. rewrite lookup_delete_Some. tauto.
    + split; [done|]. apply announces_quiet; [done|]. by destruct Hal as [-> _].
  - exists a. simpl. unfold renew. destruct (ss_get _ _) as [[r|]|].
    + destruct (lg_renew _ _ _ _). split; [done|]. by apply announces_quiet.
    + split; [done|]. by apply announces_quiet.
    + split; [done|]. by apply announces_quiet.
Qed.

(** A stretch of the manager's life: any operations, the ids they draw being new
    to the space. *)
Inductive mhist : SpaceManager S L T → SpaceManager S L T → Prop :=
| HNil m : mhist m m
| HSnoc m m1 op :
    mhist m m1 → (∀ a, rep m1 a → mop_fresh a op) → mop_valid op → mhist m (mrun m1 op).

(** Whatever became visible in a history was broadcast in it. *)
Lemma mhist_announces m a m' : rep m a → mhist m m' → ∃ a', rep m' a' ∧ announces m a m' a'.
Proof.
  intros HR Hh. revert HR. induction Hh as [m|m m1 op _ IH Hf Hv]; intros HR.
  { exists a. split; [done|]. by apply announces_quiet. }
  destruct (IH HR) as (a1 & HR1 & s1 & E1 & H1).
  destruct (mrun_announces m1 a1 op HR1 (Hf a1 HR1) Hv) as (a2 & HR2 & s2 & E2 & H2).
  exists a2. split; [done|]. exists (s1 ++ s2). rewrite E2, E1, app_assoc. split; [done|].
  intros id r Hr Hn. apply elem_of_app.
  destruct (decide (a1 !! id = Some (r, Visible))) as [Hy|Hy]; [left; eauto|right; eauto].
Qed.

Lemma read_loop_recv tm t (m : SpaceManager S L T) (rx : list TupleRecord) r :
  r ∈ rx → accepts tm r = true →
  ∃ r', read_loop tm t ((λ x, (m, WRecv x)) <$> rx) = Some (Some r') ∧ accepts tm r' = true.
Proof.
  induction rx as [|x rx IH]; [by intros ?%not_elem_of_nil|]. intros Hin Hr.
  cbn [fmap list_fmap read_loop read_wake]. fold (accepts tm x).
  destruct (accepts tm x) eqn:Hx; [eauto|].
  apply IH; [|done]. apply elem_of_cons in Hin as [->|?]; [congruence|done].
Qed.

Lemma read_now_waits m a tm t :
  rep m a → ss_valid (OFindMatch tm t) → read_now m tm true t = None → ∀ r p, ¬ candidate a tm t r p.
Proof.
  intros HR Hv. destruct (call_op (OFindMatch tm t) HR) as (a' & Hal & _); [done..|].
  unfold read_now. simpl in Hal. destruct (ss_find_match _ _ _) as [[r|]|]; try done.
  by destruct Hal.
Qed.

(** C33: A blocked reader or taker never misses a tuple.  Subscribe to the
    broadcast, then (other clients working in between) query and find nothing; if
    after any further completed operations the space holds a matching tuple,
    however it got there (a write, a commit, an abort that restored it), then the
    messages received since the subscription wake the reader with a matching
    tuple, and a taker woken by that message while a candidate is there takes
    one. *)
Theorem blocked_reader_wakes m0 a0 m1 m2 tm t id r :
  ss_valid (OFindMatch tm t) → ss_valid (OTakeMatch tm t) → ss_valid (OGet id) →
  rep m0 a0 → mhist m0 m1 → read_now m1 tm true t = None → mhist m1 m2 →
  ss_get (sm_store m2) id = Ok (Some r) → accepts tm r = true →
  ∃ r', read_loop tm t
          ((λ x, (m2, WRecv x)) <$> drop (length (sm_tuple_tx m0)) (sm_tuple_tx m2))
        = Some (Some r') ∧ accepts tm r' = true ∧
        ∃ r'', (take_wake m2 tm t (WRecv r')).2 = Some (Some r'').
Proof.
  intros Hv1 Hv2 Hv3 HR0 Hh1 Hwait Hh2 Hget Hm.
  destruct (mhist_announces m0 a0 m1 HR0 Hh1) as (a1 & HR1 & s1 & E1 & _).
  destruct (mhist_announces m1 a1 m2 HR1 Hh2) as (a2 & HR2 & s2 & E2 & H2).
  destruct (call_op (OGet id) HR2) as (a3 & Hal & _); [done..|]. simpl in Hal.
  rewrite Hget in Hal. destruct Hal as [_ Hal]. assert (Hr := proj1 (Hal r) eq_refl).
  pose proof (ss_key _ a2 HR2 _ _ _ Hr) as Hk.
  assert (Hnew : r ∈ s2).
  { apply (H2 id r Hr). intros Hold. eapply (read_now_waits m1 a1 tm t HR1 Hv1 Hwait r Visible).
    rewrite <- Hk in Hold. split_and!; [done|by left|done]. }
  assert (Hrx : r ∈ drop (length (sm_tuple_tx m0)) (sm_tuple_tx m2)).
  { rewrite E2, E1, <- app_assoc, drop_app_length. apply elem_of_app. by right. }
  destruct (read_loop_recv tm t m2 _ r Hrx Hm) as (r' & Hl & Hr'). exists r'.
  split_and!; [done..|]. unfold take_wake. fold (accepts tm r'). rewrite Hr'.
  destruct (take_call _ a2 tm t HR2 Hv2) as (s' & o & a' & E & _ & Ho). unfold take_once. rewrite E.
  destruct o as [r0|].
  - exists r0. by destruct t.
  - destruct Ho as [_ Hno]. exfalso. apply (Hno r Visible). rewrite <- Hk in Hr.
    split_and!; [done|by left|done].
Qed.

(** A transaction the Space voted NOTCHANGED on stays in the set of
    enlisted transactions after the coordinator committed it; a later write under
    it is accepted without asking the transaction manager, and the tuple sits in
    the buffer of a transaction that nobody will commit or abort. *)
Theorem notchanged_vote_leaves_stale_enlistment m a t id env at_ pl ttl by_ inp :
  rep m a → (¬ ∃ k r, holds a k t r) → t ∈ sm_enlisted m →
  mop_fresh a (MWrite id env at_ pl ttl by_ inp (Some t)) → ss_valid (OHasTxn t) →
  mop_valid (MWrite id env at_ pl ttl by_ inp (Some t)) →
  is_ok (lg_grant (sm_leases m) env ("space:" +:+ id) ttl).2 = true →
  let m1 := (prepare_and_commit_rpc m t).1 in
  let '(m2, res) := write m1 id env at_ pl ttl by_ inp (Some t) in
  (prepare_and_commit_rpc m t).2 = Ok 1%Z ∧ t ∈ sm_enlisted m1 ∧
  sm_enlister m2 = sm_enlister m1 ∧
  ∃ r lease, res = Ok (r, lease) ∧ rep m2 (<[id := (r, Held BUncommitted t)]> a).
Proof.
  intros HR Hno Hin [Hn Hfl] Hv1 Hv2 Hgrant. cbv zeta.
  destruct (has_txn_call _ a t HR Hv1) as (b & E & Hb).
  assert (Hpc : prepare_and_commit_rpc m t = (m, Ok 1%Z)).
  { unfold prepare_and_commit_rpc, has_txn. rewrite E. destruct b; [|done].
    exfalso. by apply Hno, Hb. }
  rewrite Hpc. cbn [fst snd]. unfold write.
  pose proof (lg_grant_law (sm_leases m) env ("space:" +:+ id) ttl) as Hg.
  destruct (lg_grant _ _ _ _) as [l' [lease|e]]; [|done]. destruct Hg as (Hid & _ & _).
  set (r := mkTuple _ _ _ _ _ _ _).
  assert (Hf : fresh_tuple a r) by (split; [done|simpl; by rewrite Hid]).
  assert (Hen : ensure_enlisted (put_leases m l') t = (put_leases m l', Ok ())).
  { unfold ensure_enlisted. simpl. destruct (sm_enlister m); [|done].
    by rewrite bool_decide_eq_true_2. }
  rewrite Hen. destruct (call_op (OInsertUncommitted t r) HR Hf (Hv2 r eq_refl Hid)) as (a' & Hal & HR').
  simpl in Hal, HR'. cbn [sm_store put_leases].
  destruct (ss_insert_uncommitted _ _ _) as [s' [|]]; [|done]. simpl in *. subst a'.
  split_and!; [done..|]. eauto.
Qed.
End theorems.

(** ** A local space *)
Section samples.
#[local] Existing Instance chrono_sample.
#[local] Existing Instance canonical_iter.

(** An enlister that accepts everyone. *)
#[local] Instance accept_enlister : TxnEnlister () := {| te_enlist := λ e _ _, (e, Ok ()) |}.

Abbreviation LocalSpace := (SpaceManager InMemorySpaceStore (LeaseManager InMemoryLeaseStore) ()).

Definition space_leases : LeaseManager InMemoryLeaseStore := {|
  lm_store := LeaseStore.new; lm_config := LeaseConfig_default; lm_expiry_tx := [] |}.

(** Enlisted in [t], which has taken a job and written a result. *)
Definition busy_space : LocalSpace :=
  mkManager (run_ops store_ab txn_script) space_leases [] [] (Some ()) (Some "space:1") {["t"]}.

Lemma busy_rep : ∃ a, ss_rep (sm_store busy_space) a.
Proof.
  destruct (undo_run store_ab space_ab "t" txn_script rep_ab (script_fresh [] eq_refl) eq_refl) as (a & Ha & _).
  by exists a.
Qed.

Theorem commit_space_outcome_witness : (commit_space_txn busy_space "t").2 = Ok ().
Proof.
  destruct busy_rep as [a Ha].
  destruct (commit_space_outcome busy_space a "t" Ha Logic.I) as (flushed & taken & Hok & _). exact Hok.
Defined.

Theorem abort_space_outcome_witness : (abort_space_txn busy_space "t").2 = Ok ().
Proof.
  destruct busy_rep as [a Ha].
  destruct (abort_space_outcome busy_space a "t" Ha Logic.I) as (discarded & restored & Hok & _). exact Hok.
Defined.

(** The space before anything happened under [t]. *)
Definition idle_space : LocalSpace :=
  mkManager store_ab space_leases [] [] (Some ()) (Some "space:1") {["t"]}.

Lemma idle_rep : ss_rep (sm_store idle_space) space_ab.
Proof. exact rep_ab. Qed.

Lemma idle_holds k r : ¬ holds space_ab k "t" r.
Proof. unfold holds, space_ab. rewrite !lookup_insert_Some, lookup_empty. naive_solver. Qed.

Theorem participant_votes_witness : prepare_and_commit_rpc idle_space "t" = (idle_space, Ok 1%Z).
Proof.
  apply (participant_votes idle_space space_ab "t" idle_rep Logic.I Logic.I).
  intros (k & r & Hh). by apply idle_holds in Hh.
Defined.

Definition write_env : Env := {| now := 0; now2 := 1; uuid := "lease-new" |}.

Lemma idle_fresh t :
  mop_fresh space_ab (MWrite "tup-new" write_env {["kind" := "alert"]} [] 30 "w" None t).
Proof.
  split; [reflexivity|]. intros id r p. unfold space_ab.
  rewrite !lookup_insert_Some, lookup_empty. naive_solver.
Qed.

Theorem notchanged_vote_leaves_stale_enlistment_witness :
  "t" ∈ sm_enlisted (prepare_and_commit_rpc idle_space "t").1.
Proof.
  pose proof (notchanged_vote_leaves_stale_enlistment idle_space space_ab "t" "tup-new" write_env
    {["kind" := "alert"]} [] 30 "w" None idle_rep) as H. cbv zeta in H.
  destruct (write _ _ _ _ _ _ _ _ _) as [m2 res]. apply H.
  - intros (k & r & Hh). by apply idle_holds in Hh.
  - set_solver.
  - apply idle_fresh.
  - exact Logic.I.
  - intros r _ _. exact Logic.I.
  - vm_compute. reflexivity.
Defined.

(** A reader waits for an alert; one is written. *)
Definition alert_template : attrs_map := {["kind" := "alert"]}.

Theorem blocked_reader_wakes_witness :
  ∃ m2, ∃ r', read_loop alert_template None
          ((λ x, (m2, WRecv x)) <$> drop 0 (sm_tuple_tx m2)) = Some (Some r') ∧
        accepts alert_template r' = true ∧
        ∃ r'', (take_wake (S := InMemorySpaceStore) (L := LeaseManager InMemoryLeaseStore) (T := ())
                  m2 alert_template None (WRecv r')).2 = Some (Some r'').
Proof.
  pose (op := MWrite "tup-new" write_env alert_template [] 30 "w" None None).
  exists (mrun idle_space op).
  apply (blocked_reader_wakes idle_space space_ab idle_space (mrun idle_space op)
           alert_template None "tup-new"
           (mkTuple "tup-new" alert_template [] "lease-new" "w" 1 None)).
  - exact Logic.I.
  - exact Logic.I.
  - exact Logic.I.
  - exact idle_rep.
  - apply HNil.
  - vm_compute. reflexivity.
  - apply HSnoc; [apply HNil| |intros r _ _; exact Logic.I].
    intros a Ha. rewrite (represents_fun _ _ _ Ha idle_rep). apply (idle_fresh None).
  - vm_compute. reflexivity.
  - vm_compute. reflexivity.
Defined.
End samples.
