(* ===== verification/SpaceService.v ===== *)
(** * The SpaceService RPCs ([coordin8-space/src/service.rs]) *)

From S2P Require Import Prelude CoreTypes LeaseCore LeaseService.
From S2P Require Import Matcher SpaceStore SpaceSpec SpaceManager.
From Stdlib Require Import Strings.Byte.

Definition space_map_err (e : Error) : Status :=
  match e with
  | Unavailable _ => mkStatus CUnavailable (error_to_string e)
  | TupleNotFound _ | WatchNotFound _ | LeaseNotFound _ => mkStatus CNotFound (error_to_string e)
  | LeaseExpired _ => mkStatus CFailedPrecondition (error_to_string e)
  | InvalidArgument _ => mkStatus CInvalidArgument (error_to_string e)
  | PermissionDenied _ => mkStatus CPermissionDenied (error_to_string e)
  | _ => mkStatus CInternal (error_to_string e)
  end.

Record Provenance := {
  pv_written_by : string;
  pv_written_at : Timestamp;
  pv_input_tuple_id : string
}.

Record Tuple := {
  tu_tuple_id : string;
  tu_attrs : attrs_map;
  tu_payload : list byte;
  tu_provenance : Provenance;
  tu_lease : option Lease
}.

Record SpaceEvent := {
  se_type : Z;
  se_tuple : Tuple;
  se_occurred_at : Timestamp;
  se_handback : list byte
}.

(** Parse txn_id from proto: empty string means none. *)
Definition parse_txn_id (txn_id : string) : option string :=
  if is_empty txn_id then None else Some txn_id.

Section service.
Context `{Chrono} {I : MapIter} {S L T : Type} `{SpaceStore S} `{Leasing L} `{TxnEnlister T}.
Implicit Types (m : SpaceManager S L T).

Definition tuple_record_to_proto (r : TupleRecord) (lease : option Lease) : Tuple := {|
  tu_tuple_id := tp_tuple_id r;
  tu_attrs := tp_attrs r;
  tu_payload := tp_payload r;
  tu_provenance := {| pv_written_by := tp_written_by r;
                      pv_written_at := to_timestamp (tp_written_at r);
                      pv_input_tuple_id := default "" (tp_input_tuple_id r) |};
  tu_lease := lease
|}.

Definition write_rpc (g : Grantor) m (tuple_id : string) (env : Env) (attrs : attrs_map)
    (payload : list byte) (ttl_seconds : Z) (written_by input_tuple_id txn_id : string)
  : SpaceManager S L T * result Tuple Status :=
  let input := if is_empty input_tuple_id then None else Some input_tuple_id in
  let '(m, res) := write m tuple_id env attrs payload ttl_seconds written_by input
                     (parse_txn_id txn_id) in
  (m, rmap (λ '(r, lease), tuple_record_to_proto r (Some (record_to_proto g lease)))
        (map_err space_map_err res)).

(** [read] and [take]: the response to what the manager returned. *)
Definition tuple_response (res : result (option TupleRecord) Error)
  : result (option Tuple) Status :=
  rmap (λ o : option TupleRecord, (λ r, tuple_record_to_proto r None) <$> o)
    (map_err space_map_err res).

Definition read_rpc m (template : attrs_map) (wait : bool) (txn_id : string)
  : option (result (option Tuple) Status) :=
  tuple_response <$> read_now m template wait (parse_txn_id txn_id).

Definition take_rpc m (template : attrs_map) (wait : bool) (txn_id : string)
  : SpaceManager S L T * option (result (option Tuple) Status) :=
  let '(m, res) := take_now m template wait (parse_txn_id txn_id) in
  (m, tuple_response <$> res).

(** The kind asked for: anything but EXPIRATION (1) is APPEARANCE (0). *)
Definition notify_kind (on : Z) : SpaceEventKind :=
  if (on =? 1)%Z then Expiration else Appearance.

Definition event_type (k : SpaceEventKind) : Z :=
  match k with Appearance => 0 | Expiration => 1 end.

(** The forwarding task of [notify], on what its receiver yields, each item with
    the clock reading made for it: a lag ends the stream with DATA_LOSS. *)
Fixpoint notify_stream (template : attrs_map) (kind : SpaceEventKind) (handback : list byte)
    (items : list (Z * Recv TupleRecord)) : list (result SpaceEvent Status) :=
  let ops := parse_template template in
  match items with
  | [] => []
  | (_, RecvLagged _) :: _ =>
      [Err (mkStatus CDataLoss "watcher lagged; resubscribe and re-snapshot")]
  | (clk, RecvMsg t) :: items =>
      if negb (ops_is_empty ops) && negb (matches ops (tp_attrs t))
      then notify_stream template kind handback items
      else Ok {| se_type := event_type kind;
                 se_tuple := tuple_record_to_proto t None;
                 se_occurred_at := to_timestamp clk;
                 se_handback := handback |} ::
           notify_stream template kind handback items
  end.

Definition notify_rpc m (watch_id : string) (env : Env) (template : attrs_map) (on ttl_seconds : Z)
    (handback : list byte) (items : list (Z * Recv TupleRecord))
  : SpaceManager S L T * result (list (result SpaceEvent Status)) Status :=
  let kind := notify_kind on in
  let '(m, res) := notify m watch_id env template kind ttl_seconds handback in
  (m, rmap (λ _, notify_stream template kind handback items) (map_err space_map_err res)).

Definition contents_rpc m (template : attrs_map) (txn_id : string)
  : result (list Tuple) Status :=
  rmap (λ l : list TupleRecord, (λ r, tuple_record_to_proto r None) <$> l)
    (map_err space_map_err (contents m template (parse_txn_id txn_id))).

Definition renew_rpc (g : Grantor) m (env : Env) (tuple_id : string) (ttl_seconds : Z)
  : SpaceManager S L T * result Lease Status :=
  let '(m, res) := renew m env tuple_id ttl_seconds in
  (m, rmap (record_to_proto g) (map_err space_map_err res)).

Definition cancel_rpc m (tuple_id : string) : SpaceManager S L T * result unit Status :=
  let '(m, res) := cancel m tuple_id in (m, map_err space_map_err res).

(** ** Theorems *)

Lemma notify_skip tm t :
  negb (ops_is_empty (parse_template tm)) && negb (matches (parse_template tm) (tp_attrs t))
    = negb (accepts tm t).
Proof. rewrite <- negb_orb. f_equal. apply accepts_or. Qed.

(** A [Notify] stream shows, in order and exactly once, every broadcast
    tuple its template accepts, with the handback of the watch; a gap in the
    broadcast is never hidden: the stream then shows DATA_LOSS and ends. *)
Theorem notify_stream_exact tm kind hb (evs : list (Z * TupleRecord)) n clk rest :
  let shown := (λ e, Ok {| se_type := event_type kind;
                           se_tuple := tuple_record_to_proto e.2 None;
                           se_occurred_at := to_timestamp e.1;
                           se_handback := hb |}) <$>
               List.filter (λ e, accepts tm e.2) evs in
  let sent := (λ e, (e.1, RecvMsg e.2)) <$> evs in
  notify_stream tm kind hb sent = shown ∧
  ∃ st, st_code st = CDataLoss ∧
    notify_stream tm kind hb (sent ++ (clk, RecvLagged n) :: rest) = shown ++ [Err st].
Proof.
  cbv zeta. induction evs as [|[c t] evs [IH1 (st & Hst & IH2)]].
  { split; [done|]. eexists (mkStatus CDataLoss _). split; [done|]. simpl. reflexivity. }
  split.
  - cbn [fmap list_fmap notify_stream fst snd]. rewrite notify_skip. simpl.
    destruct (accepts tm t); simpl; [f_equal; exact IH1|exact IH1].
  - exists st. split; [done|]. cbn [fmap list_fmap app notify_stream fst snd]. rewrite notify_skip.
    simpl. destruct (accepts tm t); simpl; [f_equal; exact IH2|exact IH2].
Qed.
End service.
