(* ===== verification/Shutdown.v ===== *)
(** * Ending server streams on shutdown ([coordin8-core/src/shutdown.rs])

    A stream is polled; what the inner stream and the signal do at each poll is
    given by a script, one entry per poll. *)

From S2P Require Import Prelude CoreTypes.

(** [Poll<Option<Item>>]. *)
Inductive Poll (A : Type) := PollPending | PollReady (item : option A).
Arguments PollPending {A}.
Arguments PollReady {A} item.

(** The watch channel: triggered, not yet, or its sender dropped untriggered
    ([ShutdownSignal::never]), in which case [wait] pends for ever. *)
Inductive Signal := NotFired | Fired | SenderDropped.

Definition signal_ready (s : Signal) : bool :=
  match s with Fired => true | NotFired | SenderDropped => false end.

Record EndOnShutdown (A : Type) := mkEnd { eo_final : option A; eo_done : bool }.
Arguments mkEnd {A}.
Arguments eo_final {A} _.
Arguments eo_done {A} _.

Definition end_stream {A} (final_item : A) : EndOnShutdown A := mkEnd (Some final_item) false.

(** [poll_next], on the signal and on what the inner stream would answer. *)
Definition poll_next {A} (this : EndOnShutdown A) (signal : Signal) (inner : Poll A)
  : EndOnShutdown A * Poll A :=
  if eo_done this then (this, PollReady None)
  else if signal_ready signal then (mkEnd None true, PollReady (eo_final this))
  else (this, inner).

(** The items a consumer sees over a sequence of polls; it stops at the end. *)
Fixpoint consume {A} (this : EndOnShutdown A) (script : list (Signal * Poll A)) : list A :=
  match script with
  | [] => []
  | (sig, inner) :: script =>
      match poll_next this sig inner with
      | (this, PollReady (Some x)) => x :: consume this script
      | (_, PollReady None) => []
      | (this, PollPending) => consume this script
      end
  end.

(** What the inner stream alone would have shown. *)
Fixpoint inner_items {A} (script : list (Signal * Poll A)) : list A :=
  match script with
  | [] => []
  | (_, PollReady (Some x)) :: script => x :: inner_items script
  | (_, PollReady None) :: _ => []
  | (_, PollPending) :: script => inner_items script
  end.

Definition quiet {A} (script : list (Signal * Poll A)) : Prop :=
  Forall (λ e, signal_ready e.1 = false) script.

(** The inner stream has not ended. *)
Definition live {A} (script : list (Signal * Poll A)) : Prop :=
  Forall (λ e, e.2 ≠ PollReady None) script.

(** Before shutdown a wrapped stream shows exactly the inner items;
    at the first poll after shutdown began it shows the final item, once, and
    then ends, whatever the inner stream still holds.  A signal whose trigger was
    dropped never ends a stream. *)
Theorem end_stream_exact {A} (final : A) before sig inner after :
  quiet before →
  consume (end_stream final) before = inner_items before ∧
  (live before → signal_ready sig = true →
   consume (end_stream final) (before ++ (sig, inner) :: after) =
     inner_items before ++ [final]).
Proof.
  intros Hq. induction before as [|[s p] before IH].
  - split; [done|]. intros _ Hs. simpl. unfold poll_next. simpl. rewrite Hs. f_equal.
    destruct after as [|[s' p'] after]; done.
  - apply Forall_cons in Hq as [Hs Hq]. simpl in Hs. destruct (IH Hq) as [IH1 IH2]. clear IH.
    split.
    + simpl. unfold poll_next. simpl. rewrite Hs. destruct p as [|[x|]]; [done| |done].
      by rewrite IH1.
    + intros [Hp Hl]%Forall_cons Hsig. simpl. unfold poll_next. simpl. rewrite Hs.
      specialize (IH2 Hl Hsig). destruct p as [|[x|]]; [done| |done]. simpl. by rewrite IH2.
Qed.

Theorem end_stream_exact_witness :
  consume (end_stream 9%Z)
    ([(NotFired, PollReady (Some 1%Z)); (NotFired, PollPending)] ++
     (Fired, PollReady (Some 2%Z)) :: [(Fired, PollReady (Some 3%Z))]) = [1%Z] ++ [9%Z].
Proof.
  apply (end_stream_exact 9%Z [(NotFired, PollReady (Some 1%Z)); (NotFired, PollPending)]
           Fired (PollReady (Some 2%Z)) [(Fired, PollReady (Some 3%Z))]).
  - repeat constructor.
  - repeat constructor; discriminate.
  - reflexivity.
Defined.
