(* ===== verification/EventStore.v ===== *)
(** * Event subscriptions and durable mailboxes
    ([coordin8-core/src/event.rs], [providers/local/src/event_store.rs])

    A mailbox is a [BTreeMap] from sequence numbers to events, modelled as its
    ascending list of entries, beside the last sequence number handed out. *)

From S2P Require Import Prelude CoreTypes Matcher.
From Stdlib Require Import Strings.Byte.

Inductive DeliveryMode := Durable | BestEffort.

#[global] Instance DeliveryMode_eq_dec : EqDecision DeliveryMode.
Proof. solve_decision. Defined.

Record EventRecord := mkEvent {
  er_event_id : string;
  er_source : string;
  er_event_type : string;
  er_seq_num : Z;
  er_attrs : attrs_map;
  er_payload : list byte;
  er_emitted_at : Z
}.

Record SubscriptionRecord := mkSub {
  sb_registration_id : string;
  sb_source : string;
  sb_template : attrs_map;
  sb_delivery : DeliveryMode;
  sb_lease_id : string;
  sb_handback : list byte;
  sb_initial_seq_num : Z
}.

Definition with_seq (e : EventRecord) (seq : Z) : EventRecord :=
  mkEvent (er_event_id e) (er_source e) (er_event_type e) seq (er_attrs e) (er_payload e)
    (er_emitted_at e).

(** ** [BTreeMap<u64, V>] *)
Section btree.
Context {V : Type}.

Fixpoint bt_insert (k : Z) (v : V) (l : list (Z * V)) : list (Z * V) :=
  match l with
  | [] => [(k, v)]
  | (k', v') :: l' =>
      if (k <? k')%Z then (k, v) :: (k', v') :: l'
      else if (k =? k')%Z then (k, v) :: l'
      else (k', v') :: bt_insert k v l'
  end.

Definition bt_remove (k : Z) (l : list (Z * V)) : list (Z * V) :=
  List.filter (λ e, negb (e.1 =? k)%Z) l.

(** [range((Excluded(after), Unbounded))]. *)
Definition bt_range (after : Z) (l : list (Z * V)) : list (Z * V) :=
  List.filter (λ e, (after <? e.1)%Z) l.
End btree.

(** ** [InMemoryEventStore] *)
Record Mailbox := mkBox { last_seq : Z; entries : list (Z * EventRecord) }.

Definition empty_box : Mailbox := mkBox 0 [].

Record InMemoryEventStore := mkEvents {
  subscriptions : gmap string SubscriptionRecord;
  mailboxes : gmap string Mailbox
}.

Definition new : InMemoryEventStore := mkEvents ∅ ∅.

Definition create_subscription (s : InMemoryEventStore) (sub : SubscriptionRecord)
  : InMemoryEventStore * result unit Error :=
  (mkEvents (<[sb_registration_id sub := sub]> (subscriptions s))
     (<[sb_registration_id sub := empty_box]> (mailboxes s)), Ok ()).

Definition get_subscription (s : InMemoryEventStore) (registration_id : string)
  : result (option SubscriptionRecord) Error := Ok (subscriptions s !! registration_id).

Definition remove_subscription (s : InMemoryEventStore) (registration_id : string)
  : InMemoryEventStore * result unit Error :=
  (mkEvents (delete registration_id (subscriptions s)) (delete registration_id (mailboxes s)),
   Ok ()).

(** The mailbox after one [enqueue], and the sequence number it assigned. *)
Definition box_push (b : Mailbox) (event : EventRecord) : Mailbox * Z :=
  let seq := wrap64 (last_seq b + 1) in
  (mkBox seq (bt_insert seq (with_seq event seq) (entries b)), seq).

Definition enqueue (s : InMemoryEventStore) (registration_id : string) (event : EventRecord)
  : InMemoryEventStore * result Z Error :=
  match mailboxes s !! registration_id with
  | Some b =>
      let '(b', seq) := box_push b event in
      (mkEvents (subscriptions s) (<[registration_id := b']> (mailboxes s)), Ok seq)
  | None => (s, Err (SubscriptionNotFound registration_id))
  end.

Definition box_peek (b : Mailbox) (after_seq : Z) (limit : nat) : list EventRecord :=
  (take limit (bt_range after_seq (entries b))).*2.

Definition peek (s : InMemoryEventStore) (registration_id : string) (after_seq : Z) (limit : nat)
  : result (list EventRecord) Error :=
  Ok match mailboxes s !! registration_id with
     | Some b => box_peek b after_seq limit
     | None => []
     end.

Definition box_ack (b : Mailbox) (seq_nums : list Z) : Mailbox :=
  mkBox (last_seq b) (foldl (λ l seq, bt_remove seq l) (entries b) seq_nums).

Definition ack (s : InMemoryEventStore) (registration_id : string) (seq_nums : list Z)
  : InMemoryEventStore * result unit Error :=
  (match mailboxes s !! registration_id with
   | Some b => mkEvents (subscriptions s) (<[registration_id := box_ack b seq_nums]> (mailboxes s))
   | None => s
   end, Ok ()).

Section iteration.
Context {I : MapIter}.

Definition remove_by_lease (s : InMemoryEventStore) (lease_id : string)
  : InMemoryEventStore * result (option SubscriptionRecord) Error :=
  match map_find (λ r, String.eqb (sb_lease_id r) lease_id) (subscriptions s) with
  | Some (reg_id, _) =>
      (mkEvents (delete reg_id (subscriptions s)) (delete reg_id (mailboxes s)),
       Ok (subscriptions s !! reg_id))
  | None => (s, Ok None)
  end.

Definition list_subscriptions (s : InMemoryEventStore) : result (list SubscriptionRecord) Error :=
  Ok (map_values (subscriptions s)).
End iteration.

(** ** The mailbox invariant *)

(** Entries are in ascending order of distinct sequence numbers, none above the
    last one handed out, and each event carries its own number. *)
Record box_ok (b : Mailbox) : Prop := {
  bo_sorted : StronglySorted Z.lt (entries b).*1;
  bo_bound : Forall (λ e, (0 < e.1 ≤ last_seq b)%Z ∧ er_seq_num e.2 = e.1) (entries b);
  bo_last : (0 ≤ last_seq b ≤ u64_max)%Z
}.

Lemma sorted_filter {V} (f : Z * V → bool) l :
  StronglySorted Z.lt l.*1 → StronglySorted Z.lt (List.filter f l).*1.
Proof.
  induction l as [|e l IH]; simpl; [done|]. intros [Hs Hf]%StronglySorted_inv.
  destruct (f e); [|by apply IH]. constructor; [by apply IH|].
  rewrite Forall_forall in Hf |- *. intros k (e' & -> & Hin)%list_elem_of_fmap.
  apply Hf, list_elem_of_fmap_2. by apply filter_bool_elem in Hin as [? _].
Qed.

Lemma bt_insert_last {V} k (v : V) l :
  Forall (λ e, (e.1 < k)%Z) l → bt_insert k v l = l ++ [(k, v)].
Proof.
  induction l as [|[k' v'] l IH]; [done|]. intros [Hk Hl]%Forall_cons. simpl in *.
  rewrite (proj2 (Z.ltb_ge _ _)) by lia. rewrite (proj2 (Z.eqb_neq _ _)) by lia.
  by rewrite IH.
Qed.

Lemma sorted_snoc {V} (l : list (Z * V)) k v :
  StronglySorted Z.lt l.*1 → Forall (λ e, (e.1 < k)%Z) l → StronglySorted Z.lt (l ++ [(k, v)]).*1.
Proof.
  induction l as [|e l IH]; simpl.
  { intros _ _. repeat constructor. }
  intros [Hs Hf]%StronglySorted_inv [Hk Hl]%Forall_cons. constructor; [by apply IH|].
  rewrite fmap_app. apply Forall_app. split; [done|]. by constructor.
Qed.

(** A push goes to the end, under the next number. *)
Lemma box_push_ok b e :
  box_ok b → (last_seq b < u64_max)%Z →
  box_push b e = (mkBox (last_seq b + 1) (entries b ++ [((last_seq b + 1)%Z, with_seq e (last_seq b + 1))]),
                  (last_seq b + 1)%Z) ∧
  box_ok (box_push b e).1.
Proof.
  intros [Hs Hb Hl] Hlt.
  assert (Hpush : box_push b e = (mkBox (last_seq b + 1)
    (entries b ++ [((last_seq b + 1)%Z, with_seq e (last_seq b + 1))]), (last_seq b + 1)%Z)).
  { unfold box_push. rewrite wrap64_small by lia. rewrite bt_insert_last; [done|].
    eapply Forall_impl; [done|]. intros [k ev] [? _]. simpl in *. lia. }
  split; [done|]. rewrite Hpush. split; simpl.
  - apply sorted_snoc; [done|]. eapply Forall_impl; [done|]. intros [k ev] [? _]. simpl in *. lia.
  - apply Forall_app. split.
    + eapply Forall_impl; [done|]. intros [k ev] [? ?]. simpl in *. split; [lia|done].
    + repeat constructor; simpl; lia.
  - lia.
Qed.

Lemma foldl_remove {V} (l : list (Z * V)) seqs :
  foldl (λ l seq, bt_remove seq l) l seqs =
    List.filter (λ e, negb (bool_decide (e.1 ∈ seqs))) l.
Proof.
  revert l. induction seqs as [|q seqs IH]; intros l; cbn [foldl].
  - symmetry. induction l as [|x l IHl]; [done|]. cbn [List.filter].
    rewrite bool_decide_eq_false_2 by apply not_elem_of_nil. cbn [negb]. by f_equal.
  - rewrite IH. unfold bt_remove. induction l as [|x l IHl]; [done|]. cbn [List.filter].
    destruct (Z.eqb_spec x.1 q) as [->|Hne]; cbn [negb List.filter].
    + rewrite bool_decide_eq_true_2 by left. cbn [negb]. exact IHl.
    + assert (bool_decide (x.1 ∈ q :: seqs) = bool_decide (x.1 ∈ seqs)) as ->.
      { apply bool_decide_ext. rewrite elem_of_cons. naive_solver. }
      destruct (bool_decide _); cbn [negb]; [exact IHl|f_equal; exact IHl].
Qed.

Lemma box_ack_ok b seqs : box_ok b → box_ok (box_ack b seqs).
Proof.
  intros [Hs Hb Hl]. split; simpl; [| |done]; rewrite foldl_remove.
  - by apply sorted_filter.
  - rewrite Forall_forall in Hb |- *. intros e [He _]%filter_bool_elem. by apply Hb.
Qed.

(** [peek] reads without removing: it returns, in ascending order of their
    per-registration numbers, the first [limit] entries above [after_seq], and
    every entry above it when there are at most [limit] of them. *)
Theorem box_peek_exact b after limit :
  box_ok b →
  StronglySorted Z.lt (er_seq_num <$> box_peek b after limit) ∧
  (length (box_peek b after limit) ≤ limit)%nat ∧
  (∀ e, e ∈ box_peek b after limit →
     (er_seq_num e, e) ∈ entries b ∧ (after < er_seq_num e)%Z) ∧
  (∀ k e, (k, e) ∈ entries b → (after < k)%Z →
     e ∈ box_peek b after limit ∨
     (length (box_peek b after limit) = limit ∧
      ∀ e', e' ∈ box_peek b after limit → (er_seq_num e' < k)%Z)).
Proof.
  intros [Hs Hb Hl]. unfold box_peek. set (r := bt_range after (entries b)).
  assert (Hr : StronglySorted Z.lt r.*1) by (by apply sorted_filter).
  assert (Hin : ∀ k e, (k, e) ∈ r ↔ (k, e) ∈ entries b ∧ (after < k)%Z).
  { intros k e. unfold r, bt_range. rewrite filter_bool_elem. simpl. by rewrite Z.ltb_lt. }
  assert (Hseq : ∀ k e, (k, e) ∈ entries b → er_seq_num e = k).
  { intros k e Hke. rewrite Forall_forall in Hb. by apply Hb in Hke as [_ ?]. }
  assert (Hmap : ∀ l, (∀ e, e ∈ l → e ∈ r) → er_seq_num <$> l.*2 = l.*1).
  { intros l Hl'. rewrite <- list_fmap_compose. apply list_fmap_ext. intros i [k e] Hi. simpl.
    apply list_elem_of_lookup_2, Hl', Hin in Hi as [? _]. by apply Hseq. }
  pose proof (take_drop limit r) as Htd.
  assert (Htk : ∀ e, e ∈ take limit r → e ∈ r)
    by (intros e He; rewrite <- Htd; apply elem_of_app; by left).
  split_and!.
  - rewrite Hmap by done. rewrite <- Htd, fmap_app in Hr. by eapply StronglySorted_app_1_l.
  - rewrite length_fmap, length_take. lia.
  - intros e ([k e'] & -> & He)%list_elem_of_fmap. simpl. apply Htk, Hin in He as [He Hk].
    by rewrite (Hseq _ _ He).
  - intros k e Hke Hk. assert (Hr' : (k, e) ∈ r) by (by apply Hin).
    rewrite <- Htd in Hr'. apply elem_of_app in Hr' as [Ht|Hd].
    + left. apply list_elem_of_fmap. by exists (k, e).
    + right. split.
      * rewrite length_fmap, length_take. apply list_elem_of_lookup_1 in Hd as [i Hi].
        apply lookup_lt_Some in Hi. rewrite length_drop in Hi. lia.
      * intros e' ([k' e''] & -> & He)%list_elem_of_fmap. simpl.
        pose proof (Htk _ He) as [He' _]%Hin. rewrite (Hseq _ _ He').
        rewrite <- Htd, fmap_app in Hr.
        eapply (StronglySorted_app_1_elem_of _ _ _ k' k Hr).
        -- by apply (list_elem_of_fmap_2 fst) in He.
        -- by apply (list_elem_of_fmap_2 fst) in Hd.
Qed.

Theorem box_peek_exact_witness :
  let e := mkEvent "e" "s" "t" 0 ∅ [] 0 in
  let b := (box_push (box_push empty_box e).1 e).1 in
  StronglySorted Z.lt (er_seq_num <$> box_peek b 0 10).
Proof.
  intros e b. apply (box_peek_exact b 0 10).
  split; vm_compute; repeat constructor; discriminate.
Defined.

(** ** The [EventStore] trait *)
Class EventStore (S : Type) := {
  es_create_subscription : S → SubscriptionRecord → S * result unit Error;
  es_get_subscription : S → string → result (option SubscriptionRecord) Error;
  es_remove_subscription : S → string → S * result unit Error;
  es_remove_by_lease : S → string → S * result (option SubscriptionRecord) Error;
  es_list_subscriptions : S → result (list SubscriptionRecord) Error;
  es_enqueue : S → string → EventRecord → S * result Z Error;
  es_peek : S → string → Z → nat → result (list EventRecord) Error;
  es_ack : S → string → list Z → S * result unit Error
}.

Class EventStoreView (S : Type) := {
  es_subs : S → gmap string SubscriptionRecord;
  es_boxes : S → gmap string Mailbox
}.

Class EventStoreLaws (S : Type) `{EventStore S, EventStoreView S} : Prop := {
  es_create_law : ∀ s sub,
    let '(s', res) := es_create_subscription s sub in
    res = Ok () ∧ es_subs s' = <[sb_registration_id sub := sub]> (es_subs s) ∧
    es_boxes s' = <[sb_registration_id sub := empty_box]> (es_boxes s);
  es_get_law : ∀ s id, es_get_subscription s id = Ok (es_subs s !! id);
  es_remove_law : ∀ s id,
    let '(s', res) := es_remove_subscription s id in
    res = Ok () ∧ es_subs s' = delete id (es_subs s) ∧ es_boxes s' = delete id (es_boxes s);
  es_remove_by_lease_law : ∀ s l,
    let '(s', res) := es_remove_by_lease s l in
    match res with
    | Ok (Some sub) =>
        ∃ id, es_subs s !! id = Some sub ∧ sb_lease_id sub = l ∧
          es_subs s' = delete id (es_subs s) ∧ es_boxes s' = delete id (es_boxes s)
    | Ok None =>
        (∀ id sub, es_subs s !! id = Some sub → sb_lease_id sub ≠ l) ∧
        es_subs s' = es_subs s ∧ es_boxes s' = es_boxes s
    | Err _ => False
    end;
  es_list_law : ∀ s,
    ∃ l, es_list_subscriptions s = Ok l ∧ l ≡ₚ (map_to_list (es_subs s)).*2;
  es_enqueue_law : ∀ s id e,
    let '(s', res) := es_enqueue s id e in
    es_subs s' = es_subs s ∧
    match es_boxes s !! id with
    | Some b => res = Ok (box_push b e).2 ∧ es_boxes s' = <[id := (box_push b e).1]> (es_boxes s)
    | None => res = Err (SubscriptionNotFound id) ∧ es_boxes s' = es_boxes s
    end;
  es_peek_law : ∀ s id after limit,
    es_peek s id after limit =
      Ok match es_boxes s !! id with Some b => box_peek b after limit | None => [] end;
  es_ack_law : ∀ s id seqs,
    let '(s', res) := es_ack s id seqs in
    res = Ok () ∧ es_subs s' = es_subs s ∧
    es_boxes s' = match es_boxes s !! id with
                  | Some b => <[id := box_ack b seqs]> (es_boxes s)
                  | None => es_boxes s
                  end
}.

Section instances.
Context {I : MapIter}.

#[global] Instance InMemoryEventStore_store : EventStore InMemoryEventStore := {|
  es_create_subscription := create_subscription;
  es_get_subscription := get_subscription;
  es_remove_subscription := remove_subscription;
  es_remove_by_lease := remove_by_lease;
  es_list_subscriptions := list_subscriptions;
  es_enqueue := enqueue;
  es_peek := peek;
  es_ack := ack
|}.

#[global] Instance InMemoryEventStore_view : EventStoreView InMemoryEventStore :=
  {| es_subs := subscriptions; es_boxes := mailboxes |}.

#[global] Instance InMemoryEventStore_laws : EventStoreLaws InMemoryEventStore.
Proof.
  split; intros; simpl; try done.
  - unfold remove_by_lease. destruct (map_find _ _) as [[id r]|] eqn:E.
    + apply map_find_Some in E as [Hr Hl]. rewrite Hr. apply String.eqb_eq in Hl. eauto.
    + rewrite map_find_None in E. split; [|done]. intros id sub Hs Hl.
      apply E in Hs. apply String.eqb_neq in Hs. done.
  - eexists. split; [done|]. apply map_values_perm.
  - unfold enqueue. destruct (mailboxes s !! id) as [b|]; [|done].
    done.
  - unfold ack. by destruct (mailboxes s !! id).
Qed.
End instances.

(** The in-memory event store implements the [EventStore] contract:
    sequence numbers are handed out per registration by the mailbox alone,
    reading never removes, acknowledging removes exactly the numbers given, and
    a subscription disappears together with its mailbox. *)
Theorem in_memory_event_store_refines {I : MapIter} : EventStoreLaws InMemoryEventStore.
Proof. exact InMemoryEventStore_laws. Qed.
