(* ===== verification/EventManager.v ===== *)
(** * The event manager ([coordin8-event/src/manager.rs]) *)

From S2P Require Import Prelude CoreTypes LeaseCore LeaseStore LeaseManager Matcher EventStore.
From Stdlib Require Import Strings.Byte.

Record EventManager (S L : Type) := mkEM {
  em_store : S;
  em_leases : L;
  em_event_tx : list EventRecord;
  em_seq_counters : gmap string Z
}.
Arguments mkEM {S L}.
Arguments em_store {S L} _.
Arguments em_leases {S L} _.
Arguments em_event_tx {S L} _.
Arguments em_seq_counters {S L} _.

(** [failures.join("; ")]. *)
Fixpoint join_failures (l : list string) : string :=
  match l with
  | [] => ""
  | [x] => x
  | x :: l => x +:+ "; " +:+ join_failures l
  end.

Section manager.
Context {I : MapIter} {S L : Type} `{EventStore S} `{Leasing L}.
Implicit Types (m : EventManager S L).

Definition put_store m (s : S) : EventManager S L :=
  mkEM s (em_leases m) (em_event_tx m) (em_seq_counters m).
Definition put_leases m (l : L) : EventManager S L :=
  mkEM (em_store m) l (em_event_tx m) (em_seq_counters m).

(** BestEffort baseline: the largest counter of the source. *)
Definition source_counter m (source : string) : Z :=
  foldr Z.max 0%Z (List.filter (λ kv, starts_with (source +:+ "::") kv.1)
                    (miter (em_seq_counters m))).*2.

Definition subscribe m (registration_id : string) (env : Env) (source : string)
    (template : attrs_map) (delivery : DeliveryMode) (ttl_secs : Z) (handback : list byte)
  : EventManager S L * result (string * LeaseRecord * Z) Error :=
  match lg_grant (em_leases m) env ("event:" +:+ registration_id) ttl_secs with
  | (l', Err e) => (put_leases m l', Err e)
  | (l', Ok lease) =>
      let m := put_leases m l' in
      let initial_seq_num :=
        if bool_decide (delivery = Durable) then 0%Z else source_counter m source in
      let sub := mkSub registration_id source template delivery (lr_lease_id lease) handback
                   initial_seq_num in
      let '(s', res) := es_create_subscription (em_store m) sub in
      (put_store m s', rmap (λ _, (registration_id, lease, initial_seq_num)) res)
  end.

(** The attributes a template is checked against. *)
Definition check_attrs (attrs : attrs_map) (event_type : string) : attrs_map :=
  <["event_type" := event_type]> attrs.

(** Whether [emit] enqueues the event for a subscription. *)
Definition wants (sub : SubscriptionRecord) (source event_type : string) (attrs : attrs_map)
  : bool :=
  let ops := parse_template (sb_template sub) in
  negb (negb (String.eqb (sb_source sub) source) || negb (bool_decide (sb_delivery sub = Durable)))
  && (ops_is_empty ops || matches ops (check_attrs attrs event_type)).

(** The loop of [emit] over the subscriptions listed. *)
Fixpoint enqueue_loop (s : S) (event : EventRecord) (subs : list SubscriptionRecord)
    (failures : list string) : S * list string :=
  match subs with
  | [] => (s, failures)
  | sub :: subs =>
      if wants sub (er_source event) (er_event_type event) (er_attrs event) then
        match es_enqueue s (sb_registration_id sub) event with
        | (s', Ok _) => enqueue_loop s' event subs failures
        | (s', Err (SubscriptionNotFound _)) => enqueue_loop s' event subs failures
        | (s', Err e) =>
            enqueue_loop s' event subs
              (failures ++ [sb_registration_id sub +:+ ": " +:+ error_to_string e])
        end
      else enqueue_loop s event subs failures
  end.

Definition counter_key (source event_type : string) : string := source +:+ "::" +:+ event_type.

Definition emit m (event_id : string) (clk : Z) (source event_type : string) (attrs : attrs_map)
    (payload : list byte) : EventManager S L * result EventRecord Error :=
  let key := counter_key source event_type in
  let seq_num := wrap64 (default 0%Z (em_seq_counters m !! key) + 1) in
  let m := mkEM (em_store m) (em_leases m) (em_event_tx m)
             (<[key := seq_num]> (em_seq_counters m)) in
  let event := mkEvent event_id source event_type seq_num attrs payload clk in
  match es_list_subscriptions (em_store m) with
  | Err e => (m, Err e)
  | Ok subs =>
      let '(s', failures) := enqueue_loop (em_store m) event subs [] in
      let m := mkEM s' (em_leases m) (em_event_tx m ++ [event]) (em_seq_counters m) in
      if bool_decide (failures = []) then (m, Ok event)
      else (m, Err (Storage ("durable enqueue failed for " +:+ pretty (length failures) +:+
                             " subscription(s): " +:+ join_failures failures)))
  end.

Definition unsubscribe_by_lease m (lease_id : string)
  : EventManager S L * result (option string) Error :=
  let '(s', res) := es_remove_by_lease (em_store m) lease_id in
  (put_store m s', rmap (λ o : option SubscriptionRecord, sb_registration_id <$> o) res).

Definition cancel_subscription m (registration_id : string) : EventManager S L * result unit Error :=
  match es_get_subscription (em_store m) registration_id with
  | Err e => (m, Err e)
  | Ok None => (m, Err (SubscriptionNotFound registration_id))
  | Ok (Some sub) =>
      match es_remove_subscription (em_store m) registration_id with
      | (s', Err e) => (put_store m s', Err e)
      | (s', Ok _) =>
          let m := put_store m s' in
          let '(l', res) := lg_cancel (em_leases m) (sb_lease_id sub) in
          (put_leases m l', res)
      end
  end.

Definition renew_subscription m (env : Env) (registration_id : string) (ttl_secs : Z)
  : EventManager S L * result LeaseRecord Error :=
  match es_get_subscription (em_store m) registration_id with
  | Err e => (m, Err e)
  | Ok None => (m, Err (SubscriptionNotFound registration_id))
  | Ok (Some sub) =>
      let '(l', res) := lg_renew (em_leases m) env (sb_lease_id sub) ttl_secs in
      (put_leases m l', res)
  end.

Definition peek_mailbox m (registration_id : string) (after_seq : Z) (limit : nat)
  : result (list EventRecord) Error := es_peek (em_store m) registration_id after_seq limit.

Definition ack_mailbox m (registration_id : string) (seq_nums : list Z)
  : EventManager S L * result unit Error :=
  let '(s', res) := es_ack (em_store m) registration_id seq_nums in (put_store m s', res).
End manager.

(** ** Theorems *)
Section theorems.
Context {I : MapIter} {S L : Type}.
Context {ES : EventStore S} {EV : EventStoreView S} {EL : EventStoreLaws S}.
Context {LG : Leasing L} {LV : LeasingView L} {LL : LeasingLaws L}.
Implicit Types (m : EventManager S L).

Abbreviation subs m := (es_subs (em_store m)).
Abbreviation boxes m := (es_boxes (em_store m)).

(** Every subscription is filed under its own id and has a mailbox, every mailbox
    belongs to a subscription and is well formed. *)
Record events_ok m : Prop := {
  eo_key : ∀ id sub, subs m !! id = Some sub → sb_registration_id sub = id;
  eo_dom : ∀ id, is_Some (subs m !! id) ↔ is_Some (boxes m !! id);
  eo_box : ∀ id b, boxes m !! id = Some b → box_ok b
}.

(** No mailbox is about to exhaust its sequence numbers. *)
Definition room m : Prop := ∀ id b, boxes m !! id = Some b → (last_seq b < u64_max)%Z.

Lemma enqueue_loop_spec (s : S) e l fs :
  NoDup (sb_registration_id <$> l) →
  (∀ sub, sub ∈ l → is_Some (es_boxes s !! sb_registration_id sub)) →
  ∃ s', enqueue_loop s e l fs = (s', fs) ∧ es_subs s' = es_subs s ∧
    ∀ id, es_boxes s' !! id =
      if existsb (λ sub, String.eqb (sb_registration_id sub) id &&
                         wants sub (er_source e) (er_event_type e) (er_attrs e)) l
      then (λ b, (box_push b e).1) <$> es_boxes s !! id
      else es_boxes s !! id.
Proof.
  revert s. induction l as [|sub l IH]; intros s Hnd Hin; [by exists s|].
  cbn [enqueue_loop existsb]. rewrite fmap_cons, NoDup_cons in Hnd. destruct Hnd as [Hnot Hnd].
  assert (Hrest : ∀ id, existsb (λ sub0, String.eqb (sb_registration_id sub0) id &&
     wants sub0 (er_source e) (er_event_type e) (er_attrs e)) l = true → id ≠ sb_registration_id sub).
  { intros id (sub' & Hs & [Heq _]%andb_true_iff)%existsb_exists ->. apply Hnot.
    apply String.eqb_eq in Heq. rewrite <- Heq. apply list_elem_of_fmap_2.
    by apply list_elem_of_In. }
  destruct (wants sub _ _ _).
  - pose proof (es_enqueue_law s (sb_registration_id sub) e) as Hq.
    destruct (Hin sub) as [b Hb]; [left|].
    destruct (es_enqueue s _ e) as [s1 res]. rewrite Hb in Hq. destruct Hq as (Hsub & -> & Hbox).
    destruct (IH s1 Hnd) as (s' & -> & Hs' & Hall).
    { intros sub' Hs. rewrite Hbox, lookup_insert_is_Some'. right. apply Hin. by right. }
    exists s'. split; [done|]. split; [congruence|]. intros id. rewrite Hall, Hbox, andb_true_r.
    destruct (String.eqb_spec (sb_registration_id sub) id) as [<-|Hne]; simpl.
    + rewrite lookup_insert_eq, Hb.
      destruct (existsb _ l) eqn:E; [|done]. by destruct (Hrest _ E).
    + by rewrite lookup_insert_ne.
  - destruct (IH s Hnd) as (s' & -> & Hs' & Hall); [intros; apply Hin; by right|].
    exists s'. split_and!; [done..|]. intros id. rewrite Hall, andb_false_r. done.
Qed.

Lemma listed_subs m l :
  events_ok m → l ≡ₚ (map_to_list (subs m)).*2 →
  NoDup (sb_registration_id <$> l) ∧ ∀ sub, sub ∈ l ↔ subs m !! sb_registration_id sub = Some sub.
Proof.
  intros Hok Hp. split.
  - rewrite Hp. assert (sb_registration_id <$> (map_to_list (subs m)).*2 =
      (map_to_list (subs m)).*1) as ->; [|apply NoDup_fst_map_to_list].
    rewrite <- list_fmap_compose. apply list_fmap_ext. intros i [k sub] Hi. simpl.
    apply list_elem_of_lookup_2, elem_of_map_to_list in Hi. by eapply eo_key.
  - intros sub. rewrite Hp, list_elem_of_fmap. split.
    + intros ([k sub'] & -> & Hin%elem_of_map_to_list). simpl. by rewrite (eo_key _ Hok _ _ Hin).
    + intros Hs. exists (sb_registration_id sub, sub). by rewrite elem_of_map_to_list.
Qed.

(** What [emit] does to the mailboxes, and that it does it before the broadcast
    is part of its result. *)
Lemma emit_spec m eid clk source ty attrs pl :
  events_ok m →
  ∃ e, (emit m eid clk source ty attrs pl).2 = Ok e ∧
    e = mkEvent eid source ty
          (wrap64 (default 0%Z (em_seq_counters m !! counter_key source ty) + 1)) attrs pl clk ∧
    let m' := (emit m eid clk source ty attrs pl).1 in
    em_event_tx m' = em_event_tx m ++ [e] ∧ em_leases m' = em_leases m ∧
    em_seq_counters m' = <[counter_key source ty := er_seq_num e]> (em_seq_counters m) ∧
    subs m' = subs m ∧
    ∀ id, boxes m' !! id =
      match subs m !! id with
      | Some sub => if wants sub source ty attrs then (λ b, (box_push b e).1) <$> boxes m !! id
                    else boxes m !! id
      | None => boxes m !! id
      end.
Proof.
  intros Hok. unfold emit. cbn [em_store].
  destruct (es_list_law (em_store m)) as (l & -> & Hp).
  destruct (listed_subs m l Hok Hp) as [Hnd Hl].
  set (e := mkEvent _ _ _ _ _ _ _).
  destruct (enqueue_loop_spec (em_store m) e l [] Hnd) as (s' & -> & Hs & Hb).
  { intros sub Hsub%Hl. apply (eo_dom _ Hok). eauto. }
  rewrite bool_decide_eq_true_2 by done. exists e. split_and!; try done. cbn [fst em_store].
  intros id. rewrite Hb. destruct (existsb _ l) eqn:E.
  - apply existsb_exists in E as (sub & Hin%list_elem_of_In%Hl & [Heq Hw]%andb_true_iff).
    apply String.eqb_eq in Heq. rewrite Heq in Hin. rewrite Hin. simpl in Hw. by rewrite Hw.
  - destruct (subs m !! id) as [sub|] eqn:Hsub; [|done].
    destruct (wants sub source ty attrs) eqn:Hw; [|done]. exfalso.
    pose proof (eo_key _ Hok _ _ Hsub) as Hk.
    assert (Ht : existsb (λ sub, String.eqb (sb_registration_id sub) id &&
      wants sub (er_source e) (er_event_type e) (er_attrs e)) l = true); [|congruence].
    apply existsb_exists. exists sub. split.
    + apply list_elem_of_In, Hl. by rewrite Hk.
    + simpl. by rewrite Hk, String.eqb_refl, Hw.
Qed.

Lemma emit_ok m eid clk source ty attrs pl :
  events_ok m → room m → events_ok (emit m eid clk source ty attrs pl).1.
Proof.
  intros Hok Hroom.
  destruct (emit_spec m eid clk source ty attrs pl Hok) as (e & _ & _ & _ & _ & _ & Hsub & Hbox).
  split; rewrite ?Hsub.
  - apply (eo_key _ Hok).
  - intros id. rewrite (eo_dom _ Hok id), Hbox. destruct (subs m !! id) as [sub|]; [|done].
    destruct (wants _ _ _ _); [|done]. by rewrite fmap_is_Some.
  - intros id b. rewrite Hbox. destruct (subs m !! id) as [sub|]; [|apply (eo_box _ Hok)].
    destruct (wants _ _ _ _); [|apply (eo_box _ Hok)].
    intros (b0 & Hb0 & ->)%fmap_Some. apply box_push_ok; [by eapply eo_box|by eapply Hroom].
Qed.

(** An emitted event is broadcast once and put in the mailbox of exactly
    the durable subscriptions of its source whose template accepts it (an empty
    template accepts everything), under that registration's next number; every
    other mailbox is unchanged, and the producer gets the event back. *)
Theorem emit_delivers m eid clk source ty attrs pl :
  events_ok m → room m →
  ∃ e, (emit m eid clk source ty attrs pl).2 = Ok e ∧
    let m' := (emit m eid clk source ty attrs pl).1 in
    em_event_tx m' = em_event_tx m ++ [e] ∧ subs m' = subs m ∧ events_ok m' ∧
    ∀ id sub b, subs m !! id = Some sub → boxes m !! id = Some b →
      boxes m' !! id = Some
        (if wants sub source ty attrs
         then mkBox (last_seq b + 1)
                (entries b ++ [((last_seq b + 1)%Z, with_seq e (last_seq b + 1))])
         else b).
Proof.
  intros Hok Hroom.
  destruct (emit_spec m eid clk source ty attrs pl Hok) as (e & Hres & _ & Htx & _ & _ & Hsub & Hbox).
  exists e. cbv zeta. split_and!; try done.
  - by apply emit_ok.
  - intros id sub b Hs Hb. rewrite Hbox, Hs, Hb. destruct (wants _ _ _ _); [|done].
    change ((λ b, (box_push b e).1) <$> Some b) with (Some (box_push b e).1).
    destruct (box_push_ok b e) as [-> _]; [by eapply eo_box|by eapply Hroom|done].
Qed.

(** Subscribing under a fresh id, cancelling and the lease cascade
    keep the store well formed, and a subscription never outlives its mailbox
    nor a mailbox its subscription. *)
Theorem subscriptions_preserve_invariant m :
  events_ok m →
  (∀ id env src tm d ttl hb, events_ok (subscribe m id env src tm d ttl hb).1) ∧
  (∀ id, events_ok (cancel_subscription m id).1) ∧
  (∀ l, events_ok (unsubscribe_by_lease m l).1) ∧
  (∀ id seqs, events_ok (ack_mailbox m id seqs).1).
Proof.
  intros Hok.
  assert (Hdel : ∀ s id, es_subs s = delete id (subs m) → es_boxes s = delete id (boxes m) →
    events_ok (put_store m s)).
  { intros s id Es Eb. split; simpl; rewrite ?Es, ?Eb.
    - intros id' sub. rewrite lookup_delete_Some. intros [_ ?]. by apply (eo_key _ Hok).
    - intros id'. rewrite !lookup_delete_is_Some, (eo_dom _ Hok). done.
    - intros id' b. rewrite lookup_delete_Some. intros [_ ?]. by eapply (eo_box _ Hok). }
  split_and!.
  - intros id env src tm d ttl hb. unfold subscribe.
    destruct (lg_grant _ _ _ _) as [l' [lease|]]; [|destruct Hok; by split].
    cbn [em_store put_leases].
    match goal with |- context [es_create_subscription ?s ?sub] =>
      pose proof (es_create_law s sub) as Hc; destruct (es_create_subscription s sub) as [s' res] end.
    destruct Hc as (_ & Es & Eb). split; simpl; rewrite ?Es, ?Eb; simpl.
    + intros id' sub. rewrite lookup_insert_Some. intros [[<- <-]|[_ ?]]; [done|].
      by apply (eo_key _ Hok).
    + intros id'. rewrite !lookup_insert_is_Some, (eo_dom _ Hok). done.
    + intros id' b. rewrite lookup_insert_Some. intros [[_ <-]|[_ ?]]; [|by eapply (eo_box _ Hok)].
      split; simpl; [constructor|constructor|]. unfold u64_max. lia.
  - intros id. unfold cancel_subscription. rewrite es_get_law. destruct (subs m !! id); [|done].
    pose proof (es_remove_law (em_store m) id) as Hc.
    destruct (es_remove_subscription _ _) as [s' res]. destruct Hc as (-> & Es & Eb).
    destruct (lg_cancel _ _). specialize (Hdel s' id Es Eb). destruct Hdel. by split.
  - intros l. unfold unsubscribe_by_lease. pose proof (es_remove_by_lease_law (em_store m) l) as Hc.
    destruct (es_remove_by_lease _ _) as [s' [[sub|]|]]; [| |done].
    + destruct Hc as (id & _ & _ & Es & Eb). by apply (Hdel s' id).
    + destruct Hc as (_ & Es & Eb). destruct Hok. split; simpl; by rewrite ?Es, ?Eb.
  - intros id seqs. unfold ack_mailbox. pose proof (es_ack_law (em_store m) id seqs) as Hc.
    destruct (es_ack _ _ _) as [s' res]. destruct Hc as (_ & Es & Eb).
    split; simpl; rewrite ?Es, ?Eb.
    + apply (eo_key _ Hok).
    + intros id'. rewrite (eo_dom _ Hok). destruct (boxes m !! id) eqn:Hb; [|done].
      rewrite lookup_insert_is_Some'. split; [by right|]. intros [<-|?]; eauto.
    + intros id' b'. destruct (boxes m !! id) as [b|] eqn:Hb; [|apply (eo_box _ Hok)].
      rewrite lookup_insert_Some. intros [[_ <-]|[_ ?]]; [|by eapply (eo_box _ Hok)].
      by apply box_ack_ok, (eo_box _ Hok id).
Qed.

(** The broadcast counter is not per source and event type: events of
    different sources whose joined keys coincide advance the same counter, so the
    second of them starts at 2. *)
Theorem seq_counter_collision m eid eid' clk clk' attrs attrs' pl pl' :
  events_ok m → em_seq_counters m = ∅ →
  let m1 := (emit m eid clk "orders" "eu::created" attrs pl).1 in
  events_ok m1 →
  ∃ e1 e2, (emit m eid clk "orders" "eu::created" attrs pl).2 = Ok e1 ∧
    (emit m1 eid' clk' "orders::eu" "created" attrs' pl').2 = Ok e2 ∧
    er_source e1 ≠ er_source e2 ∧ er_event_type e1 ≠ er_event_type e2 ∧
    er_seq_num e1 = 1%Z ∧ er_seq_num e2 = 2%Z.
Proof.
  intros Hok Hc m1 Hok1.
  destruct (emit_spec m eid clk "orders" "eu::created" attrs pl Hok)
    as (e1 & H1 & E1 & _ & _ & Hcnt & _).
  destruct (emit_spec m1 eid' clk' "orders::eu" "created" attrs' pl' Hok1) as (e2 & H2 & E2 & _).
  exists e1, e2. split_and!; try done.
  - by rewrite E1, E2.
  - by rewrite E1, E2.
  - rewrite E1. cbn [er_seq_num]. rewrite Hc, lookup_empty. vm_compute. reflexivity.
  - rewrite E2. cbn [er_seq_num]. fold m1 in Hcnt. rewrite Hcnt.
    change (counter_key "orders::eu" "created") with (counter_key "orders" "eu::created").
    rewrite lookup_insert_eq, E1. cbn [er_seq_num]. rewrite Hc, lookup_empty.
    vm_compute. reflexivity.
Qed.
End theorems.

(** ** One durable subscriber *)
Section samples.
#[local] Existing Instance chrono_sample.
#[local] Existing Instance canonical_iter.

Abbreviation LocalEvents := (EventManager InMemoryEventStore (LeaseManager InMemoryLeaseStore)).

Definition no_events : LocalEvents :=
  mkEM EventStore.new
    {| lm_store := LeaseStore.new; lm_config := LeaseConfig_default; lm_expiry_tx := [] |} [] ∅.

Definition sub_env : Env := {| now := 0; now2 := 1; uuid := "lease-s" |}.

Definition one_sub : LocalEvents :=
  (subscribe no_events "reg-1" sub_env "orders" {["event_type" := "starts_with:cr"]} Durable 60 []).1.

Lemma no_events_ok : events_ok no_events.
Proof. split; simpl; intros id *; rewrite ?lookup_empty; done. Qed.

Lemma no_events_room : room no_events.
Proof. intros id b. simpl. by rewrite lookup_empty. Qed.

Definition the_sub : SubscriptionRecord :=
  mkSub "reg-1" "orders" {["event_type" := "starts_with:cr"]} Durable "lease-s" [] 0.

Lemma one_sub_store :
  em_store one_sub = mkEvents {["reg-1" := the_sub]} {["reg-1" := empty_box]}.
Proof. vm_compute. reflexivity. Qed.

Lemma one_sub_ok : events_ok one_sub ∧ room one_sub.
Proof.
  split; [split|].
  - intros id sub. rewrite one_sub_store. simpl. intros [<- <-]%lookup_singleton_Some. done.
  - intros id. rewrite one_sub_store. simpl.
    split; intros [? [<- _]%lookup_singleton_Some]; rewrite lookup_singleton_eq; eauto.
  - intros id b. rewrite one_sub_store. simpl. intros [_ <-]%lookup_singleton_Some.
    split; vm_compute; repeat constructor; discriminate.
  - intros id b. rewrite one_sub_store. simpl. intros [_ <-]%lookup_singleton_Some.
    vm_compute. done.
Qed.

Theorem emit_delivers_witness :
  ∃ e, (emit one_sub "e1" 5 "orders" "created" ∅ []).2 = Ok e.
Proof.
  destruct (emit_delivers one_sub "e1" 5 "orders" "created" ∅ [] (proj1 one_sub_ok)
              (proj2 one_sub_ok)) as (e & He & _).
  exists e. exact He.
Defined.

Theorem subscriptions_preserve_invariant_witness :
  events_ok (cancel_subscription one_sub "reg-1").1.
Proof. apply (subscriptions_preserve_invariant one_sub (proj1 one_sub_ok)). Defined.

Theorem seq_counter_collision_witness :
  ∃ e2, (emit (emit no_events "e1" 0 "orders" "eu::created" ∅ []).1 "e2" 0 "orders::eu" "created" ∅ []).2
          = Ok e2 ∧ er_seq_num e2 = 2%Z.
Proof.
  destruct (seq_counter_collision no_events "e1" "e2" 0 0 ∅ ∅ [] [] no_events_ok eq_refl)
    as (e1 & e2 & _ & H2 & _ & _ & _ & Hs).
  - apply emit_ok; [exact no_events_ok|exact no_events_room].
  - exists e2. split; [exact H2|exact Hs].
Defined.
End samples.
