(* ===== verification/EventService.v ===== *)
(** * The EventService RPCs and durable delivery ([coordin8-event/src/service.rs])

    [durable_loop] is given as the state machine its awaits cut it into:
    [dstep] resumes it with what the await returned.  [system] couples it with
    its mailbox, concurrent emitters, the one-slot channel to the transport and
    a client that may disconnect at any moment; the at-least-once contract is
    proved for every execution. *)

From S2P Require Import Prelude CoreTypes LeaseCore LeaseService Matcher EventStore EventManager Shutdown.
From Stdlib Require Import Strings.Byte.

Definition event_map_err (e : Error) : Status :=
  match e with
  | Unavailable _ => mkStatus CUnavailable (error_to_string e)
  | SubscriptionNotFound _ | LeaseNotFound _ => mkStatus CNotFound (error_to_string e)
  | SubscriptionExpired _ | LeaseExpired _ => mkStatus CFailedPrecondition (error_to_string e)
  | InvalidArgument _ => mkStatus CInvalidArgument (error_to_string e)
  | PermissionDenied _ => mkStatus CPermissionDenied (error_to_string e)
  | _ => mkStatus CInternal (error_to_string e)
  end.

Record Event := {
  ev_event_id : string;
  ev_source : string;
  ev_event_type : string;
  ev_seq_num : Z;
  ev_attrs : attrs_map;
  ev_payload : list byte;
  ev_handback : list byte;
  ev_emitted_at : Timestamp
}.

Definition event_record_to_proto `{Chrono} (e : EventRecord) (handback : list byte) : Event := {|
  ev_event_id := er_event_id e;
  ev_source := er_source e;
  ev_event_type := er_event_type e;
  ev_seq_num := er_seq_num e;
  ev_attrs := er_attrs e;
  ev_payload := er_payload e;
  ev_handback := handback;
  ev_emitted_at := to_timestamp (er_emitted_at e)
|}.

Definition MAILBOX_BATCH : nat := 64.

(** ** Best effort *)
Section best_effort.
Context `{Chrono} {I : MapIter}.

(** [best_effort_loop] on what its receiver yields. *)
Fixpoint best_effort_loop (source : string) (template : attrs_map) (handback : list byte)
    (items : list (Recv EventRecord)) : list (result Event Status) :=
  let ops := parse_template template in
  match items with
  | [] => []
  | RecvLagged _ :: _ => [Err (mkStatus CDataLoss "subscriber lagged; resubscribe")]
  | RecvMsg e :: items =>
      if negb (String.eqb (er_source e) source) then best_effort_loop source template handback items
      else if negb (ops_is_empty ops) &&
              negb (matches ops (check_attrs (er_attrs e) (er_event_type e)))
      then best_effort_loop source template handback items
      else Ok (event_record_to_proto e handback) ::
           best_effort_loop source template handback items
  end.
(** Whether a broadcast event is for a best-effort subscription. *)
Definition hears (source : string) (template : attrs_map) (e : EventRecord) : bool :=
  String.eqb (er_source e) source &&
  (ops_is_empty (parse_template template) ||
   matches (parse_template template) (check_attrs (er_attrs e) (er_event_type e))).

Lemma best_effort_cons source template hb e items :
  best_effort_loop source template hb (RecvMsg e :: items) =
    (if hears source template e then [Ok (event_record_to_proto e hb)] else []) ++
    best_effort_loop source template hb items.
Proof.
  cbn [best_effort_loop]. unfold hears. destruct (String.eqb _ _); [|done].
  rewrite <- negb_orb. cbn [negb andb].
  by destruct (ops_is_empty _ || matches _ _).
Qed.

(** A best-effort stream shows, in order and exactly once, the
    broadcast events of its source that its template accepts (the event type
    counting as an attribute); a gap in the broadcast is shown as DATA_LOSS and
    ends the stream. *)
Theorem best_effort_exact source template hb (evs : list EventRecord) n rest :
  let shown := (λ e, Ok (event_record_to_proto e hb)) <$>
               List.filter (hears source template) evs in
  best_effort_loop source template hb (RecvMsg <$> evs) = shown ∧
  ∃ st, st_code st = CDataLoss ∧
    best_effort_loop source template hb ((RecvMsg <$> evs) ++ RecvLagged n :: rest) =
      shown ++ [Err st].
Proof.
  cbv zeta. induction evs as [|e evs [IH1 (st & Hst & IH2)]].
  { split; [done|]. by eexists (mkStatus CDataLoss _). }
  split; [|exists st; split; [done|]];
    cbn [fmap list_fmap app]; rewrite best_effort_cons, ?IH1, ?IH2; cbn [List.filter];
    by destruct (hears source template e).
Qed.
End best_effort.

(** ** The durable loop *)

(** Where [durable_loop] is suspended: sending the head of its batch, waiting for
    room in the channel after sending an event, acknowledging it, reading the
    mailbox, waiting for a wake-up, or returned. *)
Inductive DCtl :=
| CSend (e : EventRecord) (rest : list EventRecord)
| CReserve (e : EventRecord) (rest : list EventRecord)
| CAck (e : EventRecord) (rest : list EventRecord)
| CPeek
| CWait
| CReturned.

Record DLoop := mkLoop { d_cursor : Z; d_ctl : DCtl }.

(** What an await returned. *)
Inductive DResp :=
| RSent (ok : bool)
| RReserved (ok : bool)
| RAcked (r : result unit Error)
| RPeeked (r : result (list EventRecord) Error)
| RWoken (w : option (Recv EventRecord))
| RClosed.

(** The [while] loop: the next event of the batch, or the mailbox again. *)
Definition next_in (batch : list EventRecord) : DCtl :=
  match batch with e :: rest => CSend e rest | [] => CPeek end.

(** A batch just read: an empty one means wait. *)
Definition after_peek (batch : list EventRecord) : DCtl :=
  match batch with e :: rest => CSend e rest | [] => CWait end.

Definition dstep (source : string) (d : DLoop) (r : DResp) : DLoop :=
  match d_ctl d, r with
  | CSend e rest, RSent true => mkLoop (d_cursor d) (CReserve e rest)
  | CSend _ _, RSent false => mkLoop (d_cursor d) CReturned
  | CReserve e rest, RReserved true => mkLoop (d_cursor d) (CAck e rest)
  | CReserve _ _, RReserved false => mkLoop (d_cursor d) CReturned
  | CAck e rest, RAcked (Ok _) => mkLoop (er_seq_num e) (next_in rest)
  | CAck _ _, RAcked (Err _) => mkLoop (d_cursor d) CReturned
  | CPeek, RPeeked (Ok b) => mkLoop (d_cursor d) (after_peek b)
  | CPeek, RPeeked (Err _) => mkLoop (d_cursor d) CReturned
  | CWait, RWoken None => mkLoop (d_cursor d) CReturned
  | CWait, RWoken (Some (RecvMsg e)) =>
      if String.eqb (er_source e) source then mkLoop (d_cursor d) CPeek else d
  | CWait, RWoken (Some (RecvLagged _)) => mkLoop (d_cursor d) CPeek
  | CWait, RClosed => mkLoop (d_cursor d) CReturned
  | _, _ => d
  end.

(** [durable_loop] starts with the batch [receive] read from 0. *)
Definition durable_start : DLoop := mkLoop 0 CPeek.

(** ** The RPCs *)
Record EventRegistration := {
  rg_registration_id : string;
  rg_source : string;
  rg_lease : option Lease;
  rg_seq_num : Z
}.

(** What the task behind a [Receive] stream was started with. *)
Inductive Receiving :=
| RxBestEffort (source : string) (template : attrs_map) (handback : list byte)
| RxDurable (registration_id source : string) (handback : list byte) (start : DLoop).

Definition shutting_down : Status := mkStatus CUnavailable "server shutting down".

Section rpcs.
Context `{Chrono} {I : MapIter} {S L : Type} `{EventStore S} `{Leasing L}.
Implicit Types (m : EventManager S L).

Definition delivery_of (delivery : Z) : DeliveryMode :=
  if (delivery =? 1)%Z then BestEffort else Durable.

Definition subscribe_rpc (g : Grantor) m (registration_id : string) (env : Env) (source : string)
    (template : attrs_map) (delivery ttl_seconds : Z) (handback : list byte)
  : EventManager S L * result EventRegistration Status :=
  let '(m, res) := subscribe m registration_id env source template (delivery_of delivery)
                     ttl_seconds handback in
  (m, rmap (λ '(registration_id, lease, seq_num),
             {| rg_registration_id := registration_id;
                rg_source := source;
                rg_lease := Some (record_to_proto g lease);
                rg_seq_num := seq_num |})
        (map_err event_map_err res)).

(** [receive]: the subscription is read, then, for a durable one, the first page
    of its mailbox; either stream ends with UNAVAILABLE on shutdown. *)
Definition receive_rpc m (registration_id : string)
  : result (Receiving * EndOnShutdown (result Event Status)) Status :=
  match es_get_subscription (em_store m) registration_id with
  | Err e => Err (event_map_err e)
  | Ok None => Err (mkStatus CNotFound "subscription not found")
  | Ok (Some sub) =>
      if negb (bool_decide (sb_delivery sub = Durable))
      then Ok (RxBestEffort (sb_source sub) (sb_template sub) (sb_handback sub),
               end_stream (Err shutting_down))
      else match peek_mailbox m registration_id 0 MAILBOX_BATCH with
           | Err e => Err (event_map_err e)
           | Ok first_batch =>
               Ok (RxDurable registration_id (sb_source sub) (sb_handback sub)
                     (dstep (sb_source sub) durable_start (RPeeked (Ok first_batch))),
                   end_stream (Err shutting_down))
           end
  end.

Definition emit_rpc m (event_id : string) (clk : Z) (source event_type : string)
    (attrs : attrs_map) (payload : list byte) : EventManager S L * result unit Status :=
  let '(m, res) := emit m event_id clk source event_type attrs payload in
  (m, rmap (λ _, ()) (map_err event_map_err res)).

Definition renew_subscription_rpc (g : Grantor) m (env : Env) (registration_id : string)
    (ttl_seconds : Z) : EventManager S L * result Lease Status :=
  let '(m, res) := renew_subscription m env registration_id ttl_seconds in
  (m, rmap (record_to_proto g) (map_err event_map_err res)).

Definition cancel_subscription_rpc m (registration_id : string)
  : EventManager S L * result unit Status :=
  let '(m, res) := cancel_subscription m registration_id in (m, map_err event_map_err res).
End rpcs.

(** ** The system around it *)
Record System := mkSys {
  sy_box : Mailbox;
  sy_loop : DLoop;
  sy_flight : option EventRecord;      (** in the channel, not yet pulled *)
  sy_closed : bool;                    (** the client is gone *)
  sy_pulled : list EventRecord;        (** handed to the transport *)
  sy_wake : nat;                       (** unread broadcasts of the source *)
  sy_emitting : nat;                   (** emitters past enqueue, before broadcast *)
  sy_log : list (Z * EventRecord)      (** everything ever enqueued *)
}.

Section system.
Context (source : string).

Definition resume (s : System) (r : DResp) : DLoop := dstep source (sy_loop s) r.

Inductive sys_step : System → System → Prop :=
| YEnqueue s e :
    (last_seq (sy_box s) < u64_max)%Z →
    sys_step s (mkSys (box_push (sy_box s) e).1 (sy_loop s) (sy_flight s) (sy_closed s)
                  (sy_pulled s) (sy_wake s) (Datatypes.S (sy_emitting s))
                  (sy_log s ++ [((box_push (sy_box s) e).2,
                                 with_seq e (box_push (sy_box s) e).2)]))
| YBroadcast s n :
    sy_emitting s = Datatypes.S n →
    sys_step s (mkSys (sy_box s) (sy_loop s) (sy_flight s) (sy_closed s) (sy_pulled s)
                  (Datatypes.S (sy_wake s)) n (sy_log s))
| YSend s e rest :
    d_ctl (sy_loop s) = CSend e rest → sy_closed s = false → sy_flight s = None →
    sys_step s (mkSys (sy_box s) (resume s (RSent true)) (Some e) false
                  (sy_pulled s) (sy_wake s) (sy_emitting s) (sy_log s))
| YPull s e :
    sy_flight s = Some e → sy_closed s = false →
    sys_step s (mkSys (sy_box s) (sy_loop s) None false (sy_pulled s ++ [e])
                  (sy_wake s) (sy_emitting s) (sy_log s))
| YReserve s e rest :
    d_ctl (sy_loop s) = CReserve e rest → sy_closed s = false → sy_flight s = None →
    sys_step s (mkSys (sy_box s) (resume s (RReserved true)) None false
                  (sy_pulled s) (sy_wake s) (sy_emitting s) (sy_log s))
| YAck s e rest :
    d_ctl (sy_loop s) = CAck e rest →
    sys_step s (mkSys (box_ack (sy_box s) [er_seq_num e]) (resume s (RAcked (Ok ())))
                  (sy_flight s) (sy_closed s) (sy_pulled s) (sy_wake s) (sy_emitting s) (sy_log s))
| YPeek s :
    d_ctl (sy_loop s) = CPeek →
    sys_step s (mkSys (sy_box s)
                  (resume s (RPeeked (Ok (box_peek (sy_box s) (d_cursor (sy_loop s)) MAILBOX_BATCH))))
                  (sy_flight s) (sy_closed s) (sy_pulled s) (sy_wake s) (sy_emitting s) (sy_log s))
| YWake s e n :
    d_ctl (sy_loop s) = CWait → er_source e = source → sy_wake s = Datatypes.S n →
    sys_step s (mkSys (sy_box s) (resume s (RWoken (Some (RecvMsg e))))
                  (sy_flight s) (sy_closed s) (sy_pulled s) n (sy_emitting s) (sy_log s))
| YLagged s k n :
    d_ctl (sy_loop s) = CWait → (n < sy_wake s)%nat →
    sys_step s (mkSys (sy_box s) (resume s (RWoken (Some (RecvLagged k))))
                  (sy_flight s) (sy_closed s) (sy_pulled s) n (sy_emitting s) (sy_log s))
| YOther s e :
    d_ctl (sy_loop s) = CWait → er_source e ≠ source →
    sys_step s (mkSys (sy_box s) (resume s (RWoken (Some (RecvMsg e))))
                  (sy_flight s) (sy_closed s) (sy_pulled s) (sy_wake s) (sy_emitting s) (sy_log s))
(** Failed calls: the loop gives up. *)
| YFail s r :
    r = RAcked (Err (Storage "")) ∨ r = RPeeked (Err (Storage "")) →
    sys_step s (mkSys (sy_box s) (resume s r) (sy_flight s) (sy_closed s) (sy_pulled s)
                  (sy_wake s) (sy_emitting s) (sy_log s))
(** The client disconnects: what is in the channel is lost, and the loop finds
    out at its next send, reservation or wait. *)
| YDisconnect s :
    sys_step s (mkSys (sy_box s) (sy_loop s) None true (sy_pulled s)
                  (sy_wake s) (sy_emitting s) (sy_log s))
| YNotice s r :
    sy_closed s = true → r = RSent false ∨ r = RReserved false ∨ r = RClosed →
    sys_step s (mkSys (sy_box s) (resume s r) (sy_flight s) (sy_closed s) (sy_pulled s)
                  (sy_wake s) (sy_emitting s) (sy_log s))
(** A new [Receive] on the registration, once the previous loop returned. *)
| YReceive s :
    d_ctl (sy_loop s) = CReturned →
    sys_step s (mkSys (sy_box s) durable_start None false (sy_pulled s) 0
                  (sy_emitting s) (sy_log s)).

Inductive sys_reach : System → Prop :=
| YInit : sys_reach (mkSys empty_box (mkLoop 0 CReturned) None false [] 0 0 [])
| YStep s s' : sys_reach s → sys_step s s' → sys_reach s'.

(** ** The invariant *)

Definition keyed (e : EventRecord) : Z * EventRecord := (er_seq_num e, e).

(** The batch in hand is the front of the mailbox. *)
Definition in_hand (s : System) (l : list EventRecord) : Prop :=
  ∃ tail, entries (sy_box s) = (keyed <$> l) ++ tail.

Definition loop_ok (s : System) : Prop :=
  match d_ctl (sy_loop s) with
  | CReturned => True
  | ctl =>
      (0 ≤ d_cursor (sy_loop s) ≤ last_seq (sy_box s))%Z ∧
      Forall (λ e, (d_cursor (sy_loop s) < e.1)%Z) (entries (sy_box s)) ∧
      match ctl with
      | CSend e rest => in_hand s (e :: rest) ∧ sy_flight s = None
      | CReserve e rest =>
          in_hand s (e :: rest) ∧
          (sy_closed s = true ∨ sy_flight s = Some e ∨ (sy_flight s = None ∧ e ∈ sy_pulled s))
      | CAck e rest => in_hand s (e :: rest) ∧ e ∈ sy_pulled s ∧ sy_flight s = None
      | CPeek => sy_flight s = None
      | CWait =>
          sy_flight s = None ∧
          (entries (sy_box s) = [] ∨ sy_closed s = true ∨ (0 < sy_wake s + sy_emitting s)%nat)
      | CReturned => True
      end
  end.

Record sys_ok (s : System) : Prop := {
  so_box : box_ok (sy_box s);
  so_log_keys : NoDup (sy_log s).*1;
  so_log_bound : Forall (λ e, (0 < e.1 ≤ last_seq (sy_box s))%Z ∧ er_seq_num e.2 = e.1) (sy_log s);
  so_sub : ∀ e, e ∈ entries (sy_box s) → e ∈ sy_log s;
  so_covered : ∀ k e, (k, e) ∈ sy_log s → (k, e) ∈ entries (sy_box s) ∨ e ∈ sy_pulled s;
  so_pulled : ∀ e, e ∈ sy_pulled s ∨ sy_flight s = Some e → keyed e ∈ sy_log s;
  so_loop : loop_ok s
}.

(** Steps that leave the mailbox and the log alone. *)
Lemma sys_ok_frame s s' :
  sys_ok s → sy_box s' = sy_box s → sy_log s' = sy_log s →
  (∀ e, e ∈ sy_pulled s → e ∈ sy_pulled s') →
  (∀ e, e ∈ sy_pulled s' ∨ sy_flight s' = Some e → keyed e ∈ sy_log s) →
  loop_ok s' → sys_ok s'.
Proof.
  intros [Hb Hk Hlb Hsub Hcov Hp Hl] Eb El Hpull Hp' Hl'. split; rewrite ?Eb, ?El; try done.
  intros k e Hin. destruct (Hcov k e Hin); auto.
Qed.

Lemma in_hand_log s l e :
  sys_ok s → in_hand s l → e ∈ l → keyed e ∈ sy_log s.
Proof.
  intros Hok [tail Ht] He. apply (so_sub _ Hok). rewrite Ht. apply elem_of_app. left.
  by apply list_elem_of_fmap_2.
Qed.

Lemma enqueue_ok s e :
  sys_ok s → (last_seq (sy_box s) < u64_max)%Z →
  sys_ok (mkSys (box_push (sy_box s) e).1 (sy_loop s) (sy_flight s) (sy_closed s)
            (sy_pulled s) (sy_wake s) (Datatypes.S (sy_emitting s))
            (sy_log s ++ [((box_push (sy_box s) e).2, with_seq e (box_push (sy_box s) e).2)])).
Proof.
  intros [Hb Hk Hlb Hsub Hcov Hp Hl] Hlt.
  destruct (box_push_ok (sy_box s) e Hb Hlt) as [Hpush Hb']. rewrite Hpush in *.
  set (n := (last_seq (sy_box s) + 1)%Z) in *.
  assert (Hn : n ∉ (sy_log s).*1).
  { intros ([k ev] & Heq & Hin)%list_elem_of_fmap. rewrite Forall_forall in Hlb.
    apply Hlb in Hin as [Hin _]. simpl in Heq, Hin. unfold n in Heq. lia. }
  split; simpl.
  - done.
  - rewrite fmap_app. apply NoDup_app. split_and!; [done| |apply NoDup_singleton].
    intros k Hin ->%list_elem_of_singleton. done.
  - apply Forall_app. split.
    + eapply Forall_impl; [done|]. intros [k ev] [? ?]. simpl in *. split; [lia|done].
    + destruct (bo_last _ Hb). constructor; [|constructor]. simpl. split; [lia|done].
  - intros x. rewrite !elem_of_app. intros [?|?]; auto.
  - intros k ev. rewrite !elem_of_app. intros [Hin|Hin]; [|auto].
    destruct (Hcov k ev Hin); auto.
  - intros ev He. apply elem_of_app. left. by apply Hp.
  - unfold loop_ok in *. simpl. destruct (d_ctl (sy_loop s)); try done.
    all: destruct Hl as (Hc & Hf & Hl); split; [simpl; lia|]; split;
      [apply Forall_app; split; [done|]; constructor; [simpl; lia|done]|].
    1-3: unpack; split_and?; try done.
    1-3: match goal with H : in_hand _ _ |- _ => destruct H as [tail Ht] end;
      eexists; simpl; rewrite Ht, <- app_assoc; done.
    + done.
    + destruct Hl as [? Hl]. split; [done|]. right. right. lia.
Qed.

(** The first entry is acknowledged. *)
Lemma ack_front b e tail :
  box_ok b → entries b = keyed e :: tail →
  box_ack b [er_seq_num e] = mkBox (last_seq b) tail ∧
  Forall (λ x, (er_seq_num e < x.1)%Z) tail.
Proof.
  intros [Hs _ _] He. rewrite He, fmap_cons in Hs. apply StronglySorted_inv in Hs as [_ Hlt].
  assert (Hf : Forall (λ x : Z * EventRecord, (er_seq_num e < x.1)%Z) tail).
  { by apply (Forall_fmap fst (Z.lt (er_seq_num e)) tail). }
  split; [|done]. unfold box_ack. f_equal. cbn [foldl]. rewrite He. unfold bt_remove.
  cbn [List.filter keyed fst]. rewrite Z.eqb_refl. cbn [negb]. clear -Hf.
  induction tail as [|x tail IH]; [done|]. apply Forall_cons in Hf as [Hx Hf]. cbn [List.filter].
  rewrite (proj2 (Z.eqb_neq _ _)) by lia. cbn [negb]. by rewrite IH.
Qed.

(** Reading from below every entry gives the front of the mailbox. *)
Lemma peek_front b cursor limit :
  box_ok b → Forall (λ x, (cursor < x.1)%Z) (entries b) →
  keyed <$> box_peek b cursor limit = take limit (entries b).
Proof.
  intros Hb Hc. unfold box_peek, bt_range.
  assert (Hall : List.filter (λ e, (cursor <? e.1)%Z) (entries b) = entries b).
  { clear -Hc. induction (entries b) as [|x l IH]; [done|]. apply Forall_cons in Hc as [Hx Hc].
    cbn [List.filter]. rewrite (proj2 (Z.ltb_lt _ _)) by done. by rewrite IH. }
  rewrite Hall. rewrite <- list_fmap_compose.
  rewrite <- (list_fmap_id (take limit (entries b))) at 2. apply list_fmap_ext.
  intros i [k e] Hi. simpl. unfold keyed. apply list_elem_of_lookup_2 in Hi.
  assert (Hin : (k, e) ∈ entries b).
  { rewrite <- (take_drop limit (entries b)). apply elem_of_app. by left. }
  pose proof (bo_bound _ Hb) as Hbd. rewrite Forall_forall in Hbd.
  apply Hbd in Hin as [_ Hin]. simpl in Hin. by rewrite Hin.
Qed.

Lemma ack_ok s e rest :
  sys_ok s → d_ctl (sy_loop s) = CAck e rest →
  sys_ok (mkSys (box_ack (sy_box s) [er_seq_num e]) (resume s (RAcked (Ok ())))
            (sy_flight s) (sy_closed s) (sy_pulled s) (sy_wake s) (sy_emitting s) (sy_log s)).
Proof.
  intros Hok Hctl. pose proof (so_loop _ Hok) as Hl. unfold loop_ok in Hl. rewrite Hctl in Hl.
  destruct Hl as (Hc & Hf & [tail Ht] & Hpull & Hfl). simpl in Ht.
  destruct (ack_front (sy_box s) e _ (so_box _ Hok) Ht) as [Hack Hgt].
  pose proof (box_ack_ok (sy_box s) [er_seq_num e] (so_box _ Hok)) as Hb'.
  rewrite Hack in *. destruct Hok as [Hb Hk Hlb Hsub Hcov Hp Hl].
  split; simpl; try done.
  - intros x Hx. apply Hsub. rewrite Ht. by right.
  - intros k ev Hin. destruct (Hcov k ev Hin) as [Hent|]; [|auto]. rewrite Ht in Hent.
    apply elem_of_cons in Hent as [Heq|Hent]; [|auto]. injection Heq as -> ->. auto.
  - unfold loop_ok, resume, dstep. simpl. rewrite Hctl. simpl.
    assert (He : (0 < er_seq_num e ≤ last_seq (sy_box s))%Z).
    { pose proof (bo_bound _ Hb) as Hbd. rewrite Ht, Forall_cons in Hbd.
      destruct Hbd as [[? _] _]. done. }
    destruct rest as [|e' rest]; simpl; split_and!; try done; try lia.
    exists tail. done.
Qed.

Lemma peek_ok s :
  sys_ok s → d_ctl (sy_loop s) = CPeek →
  sys_ok (mkSys (sy_box s)
            (resume s (RPeeked (Ok (box_peek (sy_box s) (d_cursor (sy_loop s)) MAILBOX_BATCH))))
            (sy_flight s) (sy_closed s) (sy_pulled s) (sy_wake s) (sy_emitting s) (sy_log s)).
Proof.
  intros Hok Hctl. pose proof (so_loop _ Hok) as Hl. unfold loop_ok in Hl. rewrite Hctl in Hl.
  destruct Hl as (Hc & Hf & Hfl). apply (sys_ok_frame s); try done.
  { apply (so_pulled _ Hok). }
  pose proof (peek_front _ _ MAILBOX_BATCH (so_box _ Hok) Hf) as Hpf.
  unfold loop_ok, resume, dstep. simpl. rewrite Hctl. simpl.
  destruct (box_peek _ _ _) as [|e rest]; cbn [after_peek d_ctl d_cursor].
  - split_and!; try done; try lia. left. simpl in Hpf. simpl.
    by destruct (entries (sy_box s)).
  - split_and!; try done; try lia. exists (drop MAILBOX_BATCH (entries (sy_box s))).
    cbn [sy_box]. by rewrite Hpf, take_drop.
Qed.

(** Every other step keeps the mailbox and only moves the loop. *)
Lemma step_ok s s' : sys_ok s → sys_step s s' → sys_ok s'.
Proof.
  intros Hok Hs. pose proof (so_loop _ Hok) as Hl. pose proof (so_pulled _ Hok) as Hp.
  unfold loop_ok in Hl.
  destruct Hs as [s e Hlt|s n Hn|s e rest Hctl Hcl Hfl|s e Hfl Hcl|s e rest Hctl Hcl Hfl
    |s e rest Hctl|s Hctl|s e n Hctl Hsrc Hw|s k n Hctl Hn|s e Hctl Hsrc|s r Hr|s|s r Hcl Hr|s Hctl].
  - by apply enqueue_ok.
  - apply (sys_ok_frame s); try done. unfold loop_ok. simpl.
    destruct (d_ctl (sy_loop s)); try exact Hl. destruct Hl as (? & ? & ? & Hl).
    split_and!; try done; lia.
  - rewrite Hctl in Hl. destruct Hl as (? & ? & Hh & _). apply (sys_ok_frame s); try done.
    + intros e0 [?|[= <-]]; [auto|]. eapply in_hand_log; [done|exact Hh|left].
    + unfold loop_ok, resume, dstep. simpl. rewrite Hctl. simpl. split_and!; try done; try lia. auto.
  - apply (sys_ok_frame s); try done; simpl.
    + intros e0 ?. apply elem_of_app. by left.
    + intros e0 [[?| ->%list_elem_of_singleton]%elem_of_app|?]; [auto|auto|done].
    + unfold loop_ok. simpl. destruct (d_ctl (sy_loop s)); unpack; try congruence; try done.
      split_and!; try done. right. right. split; [done|]. apply elem_of_app. right.
      apply list_elem_of_singleton.
      match goal with H : _ ∨ _ ∨ _ |- _ => destruct H as [?|[?|[? ?]]]; congruence end.
  - rewrite Hctl in Hl. destruct Hl as (? & ? & Hh & Hx). apply (sys_ok_frame s); try done.
    + intros e0 [?|?]; [auto|done].
    + unfold loop_ok, resume, dstep. simpl. rewrite Hctl. simpl.
      split_and!; try done; try lia. destruct Hx as [?|[?|[_ ?]]]; [congruence|congruence|done].
  - by eapply ack_ok.
  - by apply peek_ok.
  - rewrite Hctl in Hl. destruct Hl as (? & ? & ? & _). apply (sys_ok_frame s); try done.
    unfold loop_ok, resume, dstep. simpl. rewrite Hctl, Hsrc, String.eqb_refl. done.
  - rewrite Hctl in Hl. destruct Hl as (? & ? & ? & _). apply (sys_ok_frame s); try done.
    unfold loop_ok, resume, dstep. simpl. by rewrite Hctl.
  - rewrite Hctl in Hl. apply (sys_ok_frame s); try done.
    unfold loop_ok, resume, dstep. simpl. rewrite Hctl.
    rewrite (proj2 (String.eqb_neq _ _)) by done. by rewrite Hctl.
  - apply (sys_ok_frame s); try done. unfold loop_ok, resume, dstep. simpl.
    destruct Hr as [-> | ->]; destruct (d_ctl (sy_loop s)) eqn:E; simpl; rewrite ?E; done.
  - apply (sys_ok_frame s); try done; simpl; [intros e0 [?|?]; [auto|done]|].
    unfold loop_ok. simpl. destruct (d_ctl (sy_loop s)); unpack; split_and?; auto.
  - apply (sys_ok_frame s); try done. unfold loop_ok, resume, dstep. simpl.
    destruct Hr as [-> |[-> | ->]]; destruct (d_ctl (sy_loop s)) eqn:E; simpl; rewrite ?E; done.
  - apply (sys_ok_frame s); try done; simpl; [intros e0 [?|?]; [auto|done]|].
    unfold loop_ok, durable_start. simpl. pose proof (so_box _ Hok) as Hb.
    split_and!; [done|apply (bo_last _ Hb)| |done].
    eapply Forall_impl; [apply (bo_bound _ Hb)|]. intros x [? _]. lia.
Qed.

Lemma reach_ok s : sys_reach s → sys_ok s.
Proof.
  induction 1 as [|s s' _ IH Hs]; [|by eapply step_ok].
  split; simpl; try done.
  - split; simpl; [constructor|constructor|]. unfold u64_max. lia.
  - constructor.
  - intros k e ?%not_elem_of_nil. done.
  - intros e [?%not_elem_of_nil|?]; done.
Qed.

(** C4: Durable delivery is at least once.  Whatever the interleaving of
    emitters, reads, acknowledgements, lags, store failures, disconnects and new
    [Receive] calls, every event ever enqueued is still in the mailbox or was
    handed to the transport; nothing is handed over that was not enqueued; and
    no two events carry the same sequence number, so a client can recognise a
    redelivery. *)
Theorem durable_at_least_once s :
  sys_reach s →
  (∀ k e, (k, e) ∈ sy_log s → (k, e) ∈ entries (sy_box s) ∨ e ∈ sy_pulled s) ∧
  (∀ e, e ∈ sy_pulled s → (er_seq_num e, e) ∈ sy_log s) ∧
  (∀ e1 e2, e1 ∈ sy_pulled s → e2 ∈ sy_pulled s → er_seq_num e1 = er_seq_num e2 → e1 = e2).
Proof.
  intros Hok%reach_ok. split_and!; [apply (so_covered _ Hok)|intros e He; apply (so_pulled _ Hok); auto|].
  intros e1 e2 H1 H2 E.
  assert (L1 : keyed e1 ∈ sy_log s) by (apply (so_pulled _ Hok); auto).
  assert (L2 : keyed e2 ∈ sy_log s) by (apply (so_pulled _ Hok); auto).
  apply list_elem_of_lookup in L1 as [i1 L1]. apply list_elem_of_lookup in L2 as [i2 L2].
  pose proof (so_log_keys _ Hok) as Hnd. rewrite NoDup_alt in Hnd.
  assert (i1 = i2) as ->.
  { apply (Hnd i1 i2 (er_seq_num e1)); rewrite list_lookup_fmap; [by rewrite L1|].
    rewrite L2. simpl. by rewrite E. }
  rewrite L1 in L2. by injection L2.
Qed.

(** *** Liveness: a session drains *)

Definition live_session (s : System) : Prop :=
  sy_closed s = false ∧ d_ctl (sy_loop s) ≠ CReturned.

(** Once sent, an event is pulled, acknowledged and out of the mailbox. *)
Lemma deliver_one s e rest :
  sys_ok s → sy_closed s = false → d_ctl (sy_loop s) = CSend e rest →
  ∃ s', rtc sys_step s s' ∧ sy_closed s' = false ∧ d_ctl (sy_loop s') = next_in rest ∧
    sy_log s' = sy_log s ∧ length (entries (sy_box s)) = Datatypes.S (length (entries (sy_box s'))).
Proof.
  intros Hok Hcl Hctl. pose proof (so_loop _ Hok) as Hl. unfold loop_ok in Hl. rewrite Hctl in Hl.
  destruct Hl as (_ & _ & [tail Ht] & Hfl). simpl in Ht.
  destruct (ack_front (sy_box s) e _ (so_box _ Hok) Ht) as [Hack _].
  eexists. split.
  { eapply rtc_l; [by apply (YSend s e rest)|].
    unfold resume, dstep. rewrite Hctl.
    eapply rtc_l; [by apply (YPull _ e)|]. simpl.
    eapply rtc_l; [by apply (YReserve _ e rest)|]. unfold resume, dstep. simpl.
    eapply rtc_l; [by apply (YAck _ e rest)|]. unfold resume, dstep. simpl. constructor. }
  cbn [sy_closed sy_loop sy_log sy_box d_ctl]. split_and!; try done. by rewrite Hack, Ht.
Qed.

Lemma drain n s :
  sys_ok s → sy_closed s = false → length (entries (sy_box s)) = n →
  d_ctl (sy_loop s) = CPeek ∨ (∃ e rest, d_ctl (sy_loop s) = CSend e rest) →
  ∃ s', rtc sys_step s s' ∧ d_ctl (sy_loop s') = CWait ∧ entries (sy_box s') = [] ∧
    sy_log s' = sy_log s.
Proof.
  revert s. induction n as [|n IH]; intros s Hok Hcl Hn Hctl.
  - destruct Hctl as [Hctl|(e & rest & Hctl)].
    + eexists. split; [eapply rtc_l; [by apply YPeek|constructor]|].
      unfold resume, dstep. rewrite Hctl. simpl. apply nil_length_inv in Hn.
      unfold box_peek, bt_range. rewrite Hn. done.
    + pose proof (so_loop _ Hok) as Hl. unfold loop_ok in Hl. rewrite Hctl in Hl.
      destruct Hl as (_ & _ & [tail Ht] & _). by rewrite Ht in Hn.
  - assert (Hsend : ∀ s e rest, sys_ok s → sy_closed s = false →
      length (entries (sy_box s)) = Datatypes.S n → d_ctl (sy_loop s) = CSend e rest →
      ∃ s', rtc sys_step s s' ∧ d_ctl (sy_loop s') = CWait ∧ entries (sy_box s') = [] ∧
        sy_log s' = sy_log s).
    { clear s Hok Hcl Hn Hctl. intros s e rest Hok Hcl Hn Hctl.
      destruct (deliver_one s e rest Hok Hcl Hctl) as (s1 & R1 & Hcl1 & Hctl1 & Hlog1 & Hlen).
      assert (Hok1 : sys_ok s1) by (clear -Hok R1; induction R1; eauto using step_ok).
      destruct (IH s1 Hok1 Hcl1) as (s2 & R2 & Hw & He & Hlog2); [lia| |].
      - destruct rest; simpl in Hctl1; eauto.
      - exists s2. split_and!; [by etrans|done|done|congruence]. }
    destruct Hctl as [Hctl|(e & rest & Hctl)]; [|by eapply Hsend].
    pose proof (peek_ok s Hok Hctl) as Hok1. pose proof (YPeek s Hctl) as Hstep.
    pose proof (so_loop _ Hok) as Hl. unfold loop_ok in Hl. rewrite Hctl in Hl.
    destruct Hl as (_ & Hf & _).
    pose proof (peek_front _ _ MAILBOX_BATCH (so_box _ Hok) Hf) as Hpf.
    unfold resume, dstep in Hok1, Hstep. rewrite Hctl in Hok1, Hstep.
    destruct (box_peek _ _ _) as [|e rest] eqn:Hpk.
    { destruct (entries (sy_box s)); [done|]. simpl in Hpf. discriminate. }
    edestruct (Hsend _ e rest Hok1) as (s2 & R2 & Hw & He & Hlog2); [done|done|done|].
    exists s2. split_and!; [by eapply rtc_l|done|done|done].
Qed.

(** Some execution from [s] delivers everything enqueued so far and leaves an
    empty mailbox to a loop that waits for more. *)
Definition drains (s : System) : Prop :=
  ∃ s', rtc sys_step s s' ∧ sy_log s' = sy_log s ∧ d_ctl (sy_loop s') = CWait ∧
    entries (sy_box s') = [] ∧ ∀ k e, (k, e) ∈ sy_log s → e ∈ sy_pulled s'.

Lemma empty_delivered s :
  sys_ok s → entries (sy_box s) = [] → ∀ k e, (k, e) ∈ sy_log s → e ∈ sy_pulled s.
Proof.
  intros Hok He k e Hin. destruct (so_covered _ Hok k e Hin) as [Hx|]; [|done].
  rewrite He in Hx. by apply not_elem_of_nil in Hx.
Qed.

Lemma drains_step s s1 : sys_step s s1 → sy_log s1 = sy_log s → drains s1 → drains s.
Proof.
  intros Hs Hlog (s' & R & Hl & Hw & He & Hp). exists s'. rewrite Hlog in Hl, Hp.
  split_and!; [by eapply rtc_l|done..].
Qed.

Lemma drains_sending s :
  sys_ok s → sy_closed s = false →
  d_ctl (sy_loop s) = CPeek ∨ (∃ e rest, d_ctl (sy_loop s) = CSend e rest) → drains s.
Proof.
  intros Hok Hcl Hctl. destruct (drain _ s Hok Hcl eq_refl Hctl) as (s' & R & Hw & He & Hlog).
  exists s'. split_and!; [done..|]. rewrite <- Hlog. apply empty_delivered; [|done].
  clear -Hok R. induction R; eauto using step_ok.
Qed.

Lemma drains_acking s e rest :
  sys_ok s → sy_closed s = false → d_ctl (sy_loop s) = CAck e rest → drains s.
Proof.
  intros Hok Hcl Hctl. eapply drains_step; [by apply (YAck s e rest)|done|].
  apply drains_sending; [by eapply ack_ok|done|].
  unfold resume, dstep. simpl. rewrite Hctl. destruct rest; simpl; eauto.
Qed.

Lemma drains_reserving s e rest :
  sys_ok s → sy_closed s = false → d_ctl (sy_loop s) = CReserve e rest → drains s.
Proof.
  assert (Hfree : ∀ s, sys_ok s → sy_closed s = false → d_ctl (sy_loop s) = CReserve e rest →
    sy_flight s = None → drains s).
  { intros s1 Hok Hcl Hctl Hfl. pose proof (YReserve s1 e rest Hctl Hcl Hfl) as Hs.
    eapply drains_step; [exact Hs|done|]. apply (drains_acking _ e rest); [by eapply step_ok|done|].
    unfold resume, dstep. simpl. by rewrite Hctl. }
  intros Hok Hcl Hctl. pose proof (so_loop _ Hok) as Hl. unfold loop_ok in Hl. rewrite Hctl in Hl.
  destruct Hl as (_ & _ & _ & [?|[Hfl|[Hfl _]]]); [congruence| |by apply Hfree].
  pose proof (YPull s e Hfl Hcl) as Hs.
  eapply drains_step; [exact Hs|done|]. apply Hfree; [by eapply step_ok|done..].
Qed.

Lemma drains_waiting s :
  sys_ok s → sy_closed s = false → d_ctl (sy_loop s) = CWait → drains s.
Proof.
  assert (Hwake : ∀ s n, sys_ok s → sy_closed s = false → d_ctl (sy_loop s) = CWait →
    sy_wake s = Datatypes.S n → drains s).
  { intros s1 n Hok Hcl Hctl Hw. assert (Hs := YLagged s1 0 n Hctl ltac:(lia)).
    eapply drains_step; [exact Hs|done|]. apply drains_sending; [by eapply step_ok|done|].
    unfold resume, dstep. simpl. rewrite Hctl. by left. }
  intros Hok Hcl Hctl. pose proof (so_loop _ Hok) as Hl. unfold loop_ok in Hl. rewrite Hctl in Hl.
  destruct Hl as (_ & _ & _ & Hw). destruct (sy_wake s) as [|n] eqn:Ew; [|by eapply Hwake].
  destruct (sy_emitting s) as [|n] eqn:Ee.
  - destruct Hw as [He|[?|?]]; [|congruence|lia]. exists s.
    split_and!; [constructor|done|done|done|by apply empty_delivered].
  - pose proof (YBroadcast s n Ee) as Hs. eapply drains_step; [exact Hs|done|].
    eapply Hwake; [by eapply step_ok|done..].
Qed.

(** C14: Delivery is live.  From every reachable state with a connected
    receiver, the loop, its client pulling and the emitters in progress
    broadcasting, has an execution after which the mailbox is empty, the loop
    waits for more and everything enqueued so far was delivered.  And when a
    receiver is idle with no broadcast pending, its mailbox is empty and it has
    received everything. *)
Theorem durable_delivery_drains s :
  sys_reach s → live_session s →
  (∃ s', rtc sys_step s s' ∧ sy_log s' = sy_log s ∧ d_ctl (sy_loop s') = CWait ∧
         entries (sy_box s') = [] ∧ ∀ k e, (k, e) ∈ sy_log s → e ∈ sy_pulled s') ∧
  (d_ctl (sy_loop s) = CWait → sy_wake s = 0%nat → sy_emitting s = 0%nat →
   entries (sy_box s) = [] ∧ ∀ k e, (k, e) ∈ sy_log s → e ∈ sy_pulled s).
Proof.
  intros Hok%reach_ok [Hcl Hne]. pose proof (so_loop _ Hok) as Hl. unfold loop_ok in Hl. split.
  - destruct (d_ctl (sy_loop s)) as [e rest|e rest|e rest| | |] eqn:Hctl; [| | | | |done].
    + apply drains_sending; eauto.
    + by eapply drains_reserving.
    + by eapply drains_acking.
    + apply drains_sending; auto.
    + by apply drains_waiting.
  - intros Hctl Hw Hem. rewrite Hctl in Hl. destruct Hl as (_ & _ & _ & [He|[?|?]]);
      [split; [done|by apply empty_delivered]|congruence|lia].
Qed.
End system.

(** ** A session: one event delivered, one emitted while the client is gone *)
Section samples.
Definition ev (id : string) : EventRecord := mkEvent id "orders" "created" 0 ∅ [] 0.

Definition one_queued : System :=
  mkSys (box_push empty_box (ev "e1")).1 durable_start None false [] 0 1
    [(1%Z, with_seq (ev "e1") 1)].

Lemma one_queued_reach : sys_reach "orders" one_queued.
Proof.
  eapply YStep; [eapply YStep; [apply YInit|]|].
  - apply (YEnqueue "orders" _ (ev "e1")). by_compute.
  - apply (YReceive "orders"). reflexivity.
Qed.

Theorem durable_at_least_once_witness :
  (1%Z, with_seq (ev "e1") 1) ∈ entries (sy_box one_queued) ∨
  with_seq (ev "e1") 1 ∈ sy_pulled one_queued.
Proof. apply (durable_at_least_once "orders" one_queued one_queued_reach). left. Defined.

Theorem durable_delivery_drains_witness :
  ∃ s', rtc (sys_step "orders") one_queued s' ∧ sy_log s' = sy_log one_queued ∧
        d_ctl (sy_loop s') = CWait ∧ entries (sy_box s') = [] ∧
        ∀ k e, (k, e) ∈ sy_log one_queued → e ∈ sy_pulled s'.
Proof.
  apply (durable_delivery_drains "orders" one_queued one_queued_reach).
  split; [reflexivity|discriminate].
Defined.
End samples.
