(* ===== verification/Sweep.v ===== *)
(** * Lease reclaims: the cascades and the orphan sweep
    ([coordin8-djinn/src/sweep.rs], [coordin8-djinn/src/services.rs])

    A service learns of a reclaimed lease from its manager's broadcast (the
    cascade), which may drop events, and from the orphan sweep, which compares
    the resources it lists with the leases that exist.  A sweep pass runs beside
    the service, so it is a function of what its calls were answered: the
    resources listed, each with the answer of its own [leases.get]. *)

From S2P Require Import Prelude CoreTypes LeaseCore LeaseStore LeaseManager.
From S2P Require Import RegistryStore RegistryIndex LeaseService Matcher RegistryService.
From S2P Require Import TxnStore TxnManager SpaceStore SpaceSpec SpaceManager.
From S2P Require Import EventStore EventManager.

(** ** [Held] and the tracker *)
Record Held := mkHeld { hd_lease_id : string; hd_id : string; hd_kind : string }.

#[global] Instance Held_eq_dec : EqDecision Held.
Proof. solve_decision. Defined.
#[global] Program Instance Held_countable : Countable Held :=
  inj_countable' (λ h, (hd_lease_id h, hd_id h, hd_kind h)) (λ '(l, i, k), mkHeld l i k) _.
Next Obligation. by intros []. Qed.

(** [Held::new]. *)
Definition held_new (kind id lease_id : string) : Held := mkHeld lease_id id kind.

(** The order in which a [HashSet] is iterated. *)
Class SetIter := {
  siter : gset Held → list Held;
  siter_perm : ∀ X, siter X ≡ₚ elements X
}.

Record OrphanTracker := { suspects : gset Held }.

Definition tracker_default : OrphanTracker := {| suspects := ∅ |}.

(** What one [leases.get] answered for a listed resource. *)
Abbreviation observation := (Held * result (option LeaseRecord) Error)%type.

(** The loop of [sweep_once]: only [Ok None] counts as leaseless. *)
Definition note_leaseless (acc : gset Held) (o : observation) : gset Held :=
  match o.2 with Ok None => {[o.1]} ∪ acc | _ => acc end.

Definition leaseless_of (obs : list observation) : gset Held := foldl note_leaseless ∅ obs.

Section sweep.
Context {SI : SetIter}.

Definition pass (t : OrphanTracker) (leaseless : gset Held) : OrphanTracker * list Held :=
  let confirmed := List.filter (λ h, bool_decide (h ∈ suspects t)) (siter leaseless) in
  let fresh := List.filter (λ h, negb (bool_decide (h ∈ suspects t))) (siter leaseless) in
  ({| suspects := list_to_set fresh |}, confirmed).

Definition sweep_once {X : Type} (reclaim : X → Held → X) (t : OrphanTracker) (x : X)
    (listed : result (list observation) Error) : OrphanTracker * X * result nat Error :=
  match listed with
  | Err e => (t, x, Err e)
  | Ok obs =>
      let '(t, confirmed) := pass t (leaseless_of obs) in
      (t, foldl reclaim x confirmed, Ok (length confirmed))
  end.

(** *** One pass *)

Lemma elem_of_leaseless obs h : h ∈ leaseless_of obs ↔ (h, Ok None) ∈ obs.
Proof.
  assert (Hgen : ∀ acc, h ∈ foldl note_leaseless acc obs ↔ h ∈ acc ∨ (h, Ok None) ∈ obs).
  { induction obs as [|[h' r] obs IH]; intros acc; cbn [foldl].
    { rewrite elem_of_nil. tauto. }
    rewrite IH, elem_of_cons. unfold note_leaseless; simpl.
    destruct r as [[lr|]|e]; rewrite ?elem_of_union, ?elem_of_singleton;
      intuition (simplify_eq/=; auto). }
  unfold leaseless_of. rewrite Hgen, elem_of_empty. tauto.
Qed.

Lemma elem_of_siter X h : h ∈ siter X ↔ h ∈ X.
Proof. by rewrite siter_perm, elem_of_elements. Qed.

Lemma elem_of_confirmed t X h : h ∈ (pass t X).2 ↔ h ∈ X ∧ h ∈ suspects t.
Proof. cbn. by rewrite filter_bool_elem, elem_of_siter, bool_decide_eq_true. Qed.

Lemma elem_of_suspects t X h : h ∈ suspects (pass t X).1 ↔ h ∈ X ∧ h ∉ suspects t.
Proof.
  cbn. by rewrite elem_of_list_to_set, filter_bool_elem, elem_of_siter, negb_true_iff,
    bool_decide_eq_false.
Qed.

Lemma confirmed_NoDup t X : NoDup (pass t X).2.
Proof.
  cbn. apply NoDup_ListNoDup, List.NoDup_filter, NoDup_ListNoDup.
  rewrite siter_perm. apply NoDup_elements.
Qed.

(** *** Consecutive passes *)

(** The tracker after a sweep, and what the sweep reclaimed. *)
Definition after_sweep (t : OrphanTracker) (listed : result (list observation) Error)
  : OrphanTracker := (sweep_once (λ acc h, acc ++ [h]) t [] listed).1.1.
Definition reclaimed (t : OrphanTracker) (listed : result (list observation) Error)
  : list Held := (sweep_once (λ acc h, acc ++ [h]) t [] listed).1.2.

Lemma foldl_snoc {A} (l acc : list A) : foldl (λ acc h, acc ++ [h]) acc l = acc ++ l.
Proof.
  revert acc. induction l as [|x l IH]; intros acc; simpl; [by rewrite app_nil_r|].
  by rewrite IH, <- app_assoc.
Qed.

Lemma reclaimed_ok t obs : reclaimed t (Ok obs) = (pass t (leaseless_of obs)).2.
Proof.
  unfold reclaimed, sweep_once. destruct (pass _ _) as [t' l]. simpl. apply foldl_snoc.
Qed.

Lemma after_sweep_ok t obs : after_sweep t (Ok obs) = (pass t (leaseless_of obs)).1.
Proof. unfold after_sweep, sweep_once. by destruct (pass _ _) as [t' l]. Qed.

Lemma after_failed_sweeps t l :
  Forall (λ r : result (list observation) Error, is_ok r = false) l → foldl after_sweep t l = t.
Proof. induction 1 as [|[] l Hx Hl IH]; simpl; done. Qed.

(** Of two successive sweeps that could list the resources (with any
    number of failed listings in between), the second reclaims exactly the
    resources that both found without a lease and that the first did not reclaim
    already, each once; so a resource whose lease was found, or whose lease
    lookup failed, in either sweep is left alone, one without a lease in both is
    gone after the second, and the first sweep after boot reclaims nothing. *)
Theorem sweep_two_strikes t obs1 failed obs2 :
  Forall (λ r : result (list observation) Error, is_ok r = false) failed →
  let first := reclaimed t (Ok obs1) in
  let second := reclaimed (foldl after_sweep t (Ok obs1 :: failed)) (Ok obs2) in
  NoDup second ∧
  (∀ h, h ∈ second ↔ (h, Ok None) ∈ obs1 ∧ (h, Ok None) ∈ obs2 ∧ h ∉ first) ∧
  reclaimed (foldl after_sweep tracker_default failed) (Ok obs1) = [].
Proof.
  intros Hf. cbn [foldl]. cbv zeta. rewrite !after_failed_sweeps, !reclaimed_ok, after_sweep_ok
    by done.
  split; [apply confirmed_NoDup|]. split.
  - intros h. rewrite !elem_of_confirmed, elem_of_suspects, !elem_of_leaseless. tauto.
  - apply elem_of_nil_inv. intros h. rewrite elem_of_confirmed. cbn. set_solver.
Qed.
End sweep.

(** An iteration order. *)
Definition canonical_siter : SetIter :=
  {| siter := elements; siter_perm := λ X, reflexivity _ |}.

(** ** What each service lists and how it reclaims *)
Section services.
Context {I : MapIter}.

(** The resources of a service, each looked up in its own lease manager. *)
Definition observe {S} `{LeaseStore S} (leases : LeaseManager S) (l : list Held)
  : list observation := (λ h, (h, LeaseManager.get leases (hd_lease_id h))) <$> l.

Definition registry_held {S} `{RegistryStore S} (s : S) : result (list Held) Error :=
  rmap (fmap (λ e, held_new "entry" (re_capability_id e) (re_lease_id e))) (rg_list_all s).

Definition event_held {S} `{EventStore S} (s : S) : result (list Held) Error :=
  rmap (fmap (λ r, held_new "subscription" (sb_registration_id r) (sb_lease_id r)))
    (es_list_subscriptions s).

Definition space_held {S} `{SpaceStore S} (s : S) : result (list Held) Error :=
  rbind (ss_list_all s) (λ tuples,
  rmap (λ watches,
    ((λ t, held_new "tuple" (tp_tuple_id t) (tp_lease_id t)) <$> tuples) ++
    ((λ w, held_new "watch" (wt_watch_id w) (wt_lease_id w)) <$> watches))
    (ss_list_watches s)).

Definition txn_held {S} `{TxnStore S} (s : S) : result (list Held) Error :=
  rmap (λ l, (λ t, held_new "txn" (tx_txn_id t) (tx_lease_id t)) <$>
             List.filter (λ t, bool_decide (tx_state t = Active)) l) (ts_list_all s).

Definition registry_reclaim {S L} `{RegistryStore S} (v : RegistryService S L) (h : Held)
  : RegistryService S L := reclaim_entry v (hd_lease_id h).

Definition event_reclaim {S L} `{EventStore S} (m : EventManager S L) (h : Held)
  : EventManager S L := (unsubscribe_by_lease m (hd_lease_id h)).1.

Definition space_reclaim {S L T} `{SpaceStore S} (m : SpaceManager S L T) (h : Held)
  : SpaceManager S L T :=
  if String.eqb (hd_kind h) "watch" then on_watch_expired m (hd_lease_id h)
  else on_tuple_expired m (hd_lease_id h).

Definition txn_reclaim (h : Held) : prog (result unit Error) := abort_expired (hd_id h).

(** ** The cascades *)

(** [spawn_cascade]: the receiver yields reclaims and lags; a lag is skipped. *)
Fixpoint cascade {X} (handler : X → LeaseReclaimed → X) (x : X) (items : list (Recv LeaseReclaimed))
  : X :=
  match items with
  | [] => x
  | RecvMsg ev :: items => cascade handler (handler x ev) items
  | RecvLagged _ :: items => cascade handler x items
  end.

Definition registry_handler {S L} `{RegistryStore S} (v : RegistryService S L)
    (ev : LeaseReclaimed) : RegistryService S L :=
  reclaim_entry v (lr_lease_id (rc_record ev)).

Definition event_handler {S L} `{EventStore S} (m : EventManager S L) (ev : LeaseReclaimed)
  : EventManager S L := (unsubscribe_by_lease m (lr_lease_id (rc_record ev))).1.

Definition space_handler {S L T} `{SpaceStore S} (m : SpaceManager S L T) (ev : LeaseReclaimed)
  : SpaceManager S L T :=
  let record := rc_record ev in
  if starts_with "space:" (lr_resource_id record) then on_tuple_expired m (lr_lease_id record)
  else if starts_with "space-watch:" (lr_resource_id record)
       then on_watch_expired m (lr_lease_id record)
       else m.

(** The transaction aborted for a reclaim, if any. *)
Definition txn_handler (ev : LeaseReclaimed) : option (prog (result unit Error)) :=
  abort_expired <$> strip_prefix "txn:" (lr_resource_id (rc_record ev)).
End services.

(** ** What a sweep of a quiet service achieves *)

(** A service the sweep can clean: it lists what it holds, and reclaiming one
    held resource removes that one and nothing else. *)
Class Swept (X : Type) := {
  sw_list : X → result (list Held) Error;
  sw_reclaim : X → Held → X
}.

Class SweptLaws (X : Type) `{Swept X} := {
  sw_inv : X → Prop;
  sw_held : X → gset Held;
  sw_list_law : ∀ x, sw_inv x → ∃ l, sw_list x = Ok l ∧ ∀ h, h ∈ l ↔ h ∈ sw_held x;
  sw_reclaim_law : ∀ x h, sw_inv x → h ∈ sw_held x →
    sw_inv (sw_reclaim x h) ∧ sw_held (sw_reclaim x h) = sw_held x ∖ {[h]}
}.

Section quiet.
Context {SI : SetIter} {S : Type} `{LeaseStore S} {X : Type} `{SweptLaws X}.
Implicit Types (x : X) (leases : LeaseManager S).

(** A pass during which nothing else runs. *)
Definition sweep_quietly (t : OrphanTracker) x leases : OrphanTracker * X * result nat Error :=
  sweep_once sw_reclaim t x (rmap (observe leases) (sw_list x)).

(** The lease of a resource is known to be gone. *)
Definition orphaned leases (h : Held) : Prop := LeaseManager.get leases (hd_lease_id h) = Ok None.

#[global] Instance orphaned_dec leases h : Decision (orphaned leases h).
Proof.
  unfold orphaned. destruct (LeaseManager.get _ _) as [[r|]|e]; [by right|by left|by right].
Defined.

Lemma reclaim_all x l :
  sw_inv x → NoDup l → (∀ h, h ∈ l → h ∈ sw_held x) →
  sw_inv (foldl sw_reclaim x l) ∧ sw_held (foldl sw_reclaim x l) = sw_held x ∖ list_to_set l.
Proof.
  intros Hi Hnd. revert x Hi. induction Hnd as [|h l Hn Hnd IH]; intros x Hi Hin; cbn [foldl].
  { split; [done|]. set_solver. }
  destruct (sw_reclaim_law x h Hi) as [Hi' Hh']; [apply Hin; left|].
  destruct (IH (sw_reclaim x h) Hi') as [Hi2 Hh2].
  { intros h' Hh. rewrite Hh'. assert (h' ≠ h) by (intros ->; done).
    specialize (Hin h'). set_solver. }
  split; [done|]. rewrite Hh2, Hh'. set_solver.
Qed.

Lemma observed_leaseless leases l (X' : gset Held) :
  (∀ h, h ∈ l ↔ h ∈ X') → ∀ h, h ∈ leaseless_of (observe leases l) ↔ h ∈ X' ∧ orphaned leases h.
Proof.
  intros Hl h. rewrite elem_of_leaseless. unfold observe. rewrite list_elem_of_fmap, <- Hl.
  unfold orphaned. split.
  - intros (h' & [= <- ->] & Hh). done.
  - intros [Hh Ho]. exists h. by rewrite Ho.
Qed.

Lemma sweep_quietly_spec t x leases :
  sw_inv x →
  ∃ t' x' l, sweep_quietly t x leases = (t', x', Ok (length l)) ∧
    sw_inv x' ∧ NoDup l ∧ sw_held x' = sw_held x ∖ list_to_set l ∧
    (∀ h, h ∈ l ↔ h ∈ sw_held x ∧ orphaned leases h ∧ h ∈ suspects t) ∧
    (∀ h, h ∈ suspects t' ↔ h ∈ sw_held x ∧ orphaned leases h ∧ h ∉ suspects t).
Proof.
  intros Hi. destruct (sw_list_law x Hi) as (l & Hl & Hin).
  pose proof (observed_leaseless leases l _ Hin) as Hobs.
  unfold sweep_quietly, sweep_once. rewrite Hl. cbn [rmap].
  destruct (pass t _) as [t' c] eqn:E.
  assert (Hc : ∀ h, h ∈ c ↔ h ∈ sw_held x ∧ orphaned leases h ∧ h ∈ suspects t).
  { intros h. pose proof (elem_of_confirmed t (leaseless_of (observe leases l)) h) as He.
    rewrite E in He. cbn in He. rewrite He, Hobs. tauto. }
  assert (Hnd : NoDup c).
  { pose proof (confirmed_NoDup t (leaseless_of (observe leases l))) as Hn. by rewrite E in Hn. }
  destruct (reclaim_all x c Hi Hnd) as [Hi' Hh']; [intros h; rewrite Hc; tauto|].
  exists t', (foldl sw_reclaim x c), c. split_and!; try done.
  intros h. pose proof (elem_of_suspects t (leaseless_of (observe leases l)) h) as He.
  rewrite E in He. cbn in He. rewrite He, Hobs. tauto.
Qed.

(** C26: Two undisturbed sweeps remove every resource whose lease is gone
    and no other, whatever reclaim events were lost before and whatever the
    tracker remembered; the two counts they report add up to the orphans. *)
Theorem sweeps_clear_orphans t x leases :
  sw_inv x →
  ∃ t1 x1 n1 t2 x2 n2,
    sweep_quietly t x leases = (t1, x1, Ok n1) ∧
    sweep_quietly t1 x1 leases = (t2, x2, Ok n2) ∧
    sw_inv x2 ∧
    sw_held x2 = filter (λ h, ¬ orphaned leases h) (sw_held x) ∧
    (n1 + n2)%nat = size (filter (orphaned leases) (sw_held x)).
Proof.
  intros Hi.
  destruct (sweep_quietly_spec t x leases Hi) as (t1 & x1 & l1 & E1 & Hi1 & Hn1 & Hh1 & Hl1 & Hs1).
  destruct (sweep_quietly_spec t1 x1 leases Hi1)
    as (t2 & x2 & l2 & E2 & Hi2 & Hn2 & Hh2 & Hl2 & Hs2).
  exists t1, x1, (length l1), t2, x2, (length l2). split_and!; try done.
  - rewrite Hh2, Hh1. apply set_eq. intros h.
    rewrite !elem_of_difference, !elem_of_list_to_set, elem_of_filter, Hl2, Hs1, Hh1,
      elem_of_difference, elem_of_list_to_set, Hl1.
    destruct (decide (orphaned leases h)), (decide (h ∈ suspects t)); tauto.
  - assert (Hnd : NoDup (l1 ++ l2)).
    { apply NoDup_app. split_and!; [done| |done]. intros h. rewrite Hl1, Hl2, Hs1. tauto. }
    rewrite <- length_app, <- (size_list_to_set (C := gset Held)) by done.
    f_equal. apply set_eq. intros h.
    rewrite elem_of_list_to_set, elem_of_app, elem_of_filter, Hl2, Hs1, Hh1, elem_of_difference,
      elem_of_list_to_set, Hl1.
    destruct (decide (orphaned leases h)), (decide (h ∈ suspects t)); tauto.
Qed.
End quiet.

(** ** The services *)

Lemma elem_of_values {V} (m : gmap string V) l v :
  l ≡ₚ (map_to_list m).*2 → v ∈ l ↔ ∃ k, m !! k = Some v.
Proof.
  intros ->. rewrite list_elem_of_fmap. split.
  - intros ([k w] & -> & Hkw%elem_of_map_to_list). by exists k.
  - intros [k Hk]. exists (k, v). by rewrite elem_of_map_to_list.
Qed.

(** The resources of a map of records. *)
Definition map_held {V} (f : V → Held) (m : gmap string V) : gset Held :=
  list_to_set (f <$> (map_to_list m).*2).

Lemma elem_of_map_held {V} (f : V → Held) (m : gmap string V) h :
  h ∈ map_held f m ↔ ∃ k v, m !! k = Some v ∧ h = f v.
Proof.
  unfold map_held. rewrite elem_of_list_to_set, list_elem_of_fmap.
  setoid_rewrite (elem_of_values m _ _ (reflexivity _)). naive_solver.
Qed.

(** Deleting the one record of a held resource. *)
Lemma map_held_delete {V} (f : V → Held) (m : gmap string V) k v :
  m !! k = Some v → (∀ k' v', m !! k' = Some v' → f v' = f v → k' = k) →
  map_held f (delete k m) = map_held f m ∖ {[f v]}.
Proof.
  intros Hk Hinj. apply set_eq. intros h.
  rewrite elem_of_difference, elem_of_singleton, !elem_of_map_held. split.
  - intros (k' & v' & [Hne Hk']%lookup_delete_Some & ->). split; [eauto|]. intros He.
    by apply Hne; symmetry; eapply Hinj.
  - intros [(k' & v' & Hk' & ->) Hne]. exists k', v'. split; [|done].
    apply lookup_delete_Some. split; [|done]. intros <-. simplify_eq.
Qed.

Section registry.
Context {S L : Type} {RS : RegistryStore S} {RV : RegistryStoreView S} {RL : RegistryStoreLaws S}.

Definition entry_held (e : RegistryEntry) : Held :=
  held_new "entry" (re_capability_id e) (re_lease_id e).

#[global] Instance registry_swept : Swept (RegistryService S L) := {|
  sw_list := λ v, registry_held (rv_store v);
  sw_reclaim := registry_reclaim
|}.

#[global] Instance registry_swept_laws : SweptLaws (RegistryService S L).
Proof.
  refine {| sw_inv := λ v, rg_inv (rv_store v);
            sw_held := λ v, map_held entry_held (rg_entries (rv_store v)) |}.
  - intros v Hi. simpl. unfold registry_held. destruct (rg_list_all_law (rv_store v)) as (l & -> & Hl).
    eexists. split; [done|]. intros h. rewrite elem_of_map_held, list_elem_of_fmap.
    setoid_rewrite (elem_of_values _ _ _ Hl). naive_solver.
  - intros v h Hi (cap & e & He & ->)%elem_of_map_held. simpl.
    destruct (rg_inv_wf _ Hi) as [_ Huniq].
    unfold registry_reclaim, reclaim_entry, unregister_by_lease.
    pose proof (rg_remove_by_lease_law (rv_store v) (re_lease_id e) Hi) as Hlaw. simpl.
    destruct (rg_remove_by_lease _ _) as [s' res].
    destruct Hlaw as (Hi' & [(c & e' & He' & Hl & -> & Hv)|(Hun & -> & Hv)]).
    + split; [done|]. simpl. rewrite Hv. assert (c = cap) as -> by (by eapply Huniq).
      simplify_eq. apply map_held_delete; [done|]. intros c' e2 Hc' [= Hl' _].
      by eapply Huniq.
    + by apply Hun in He.
Defined.
End registry.

Section events.
Context {S L : Type} {ES : EventStore S} {EV : EventStoreView S} {EL : EventStoreLaws S}.

Definition sub_held (r : SubscriptionRecord) : Held :=
  held_new "subscription" (sb_registration_id r) (sb_lease_id r).

(** No two subscriptions hold the same lease. *)
Definition sub_leases_unique (m : EventManager S L) : Prop :=
  ∀ k1 k2 r1 r2, es_subs (em_store m) !! k1 = Some r1 → es_subs (em_store m) !! k2 = Some r2 →
    sb_lease_id r1 = sb_lease_id r2 → k1 = k2.

#[global] Instance event_swept : Swept (EventManager S L) := {|
  sw_list := λ m, event_held (em_store m);
  sw_reclaim := event_reclaim
|}.

#[global] Instance event_swept_laws : SweptLaws (EventManager S L).
Proof.
  refine {| sw_inv := sub_leases_unique;
            sw_held := λ m, map_held sub_held (es_subs (em_store m)) |}.
  - intros m Hi. simpl. unfold event_held. destruct (es_list_law (em_store m)) as (l & -> & Hl).
    eexists. split; [done|]. intros h. rewrite elem_of_map_held, list_elem_of_fmap.
    setoid_rewrite (elem_of_values _ _ _ Hl). naive_solver.
  - intros m h Hi (id & r & Hr & ->)%elem_of_map_held. simpl.
    unfold event_reclaim, unsubscribe_by_lease.
    pose proof (es_remove_by_lease_law (em_store m) (sb_lease_id r)) as Hlaw. simpl.
    destruct (es_remove_by_lease _ _) as [s' [[r'|]|e]]; simpl.
    + destruct Hlaw as (id' & Hr' & Hl & Hs & _). assert (id' = id) as -> by (by eapply Hi).
      simplify_eq. split.
      * intros k1 k2 r1 r2. simpl. rewrite Hs, !lookup_delete_Some. intros [_ H1] [_ H2].
        by apply Hi.
      * rewrite Hs. apply map_held_delete; [done|]. intros k r2 Hk [= Hl2 _]. by eapply Hi.
    + destruct Hlaw as [Hun _]. by apply Hun in Hr.
    + done.
Defined.
End events.

Section space.
Context {I : MapIter} {L T : Type}.
Abbreviation LocalSpaces := (SpaceManager InMemorySpaceStore L T).

Definition tuple_held (r : TupleRecord) : Held := held_new "tuple" (tp_tuple_id r) (tp_lease_id r).
Definition watch_held (w : SpaceWatchRecord) : Held :=
  held_new "watch" (wt_watch_id w) (wt_lease_id w).

(** The tuples are those of an abstract space, and the index of watches by lease
    is exact. *)
Definition space_ok (s : InMemorySpaceStore) : Prop :=
  (∃ a, represents s a) ∧
  (∀ l id, watch_lease_index s !! l = Some id ↔
     ∃ w, watches s !! id = Some w ∧ wt_lease_id w = l).

Definition space_resources (s : InMemorySpaceStore) : gset Held :=
  map_held tuple_held (tuples s) ∪ map_held watch_held (watches s).

Lemma reclaim_tuple s id r :
  space_ok s → tuples s !! id = Some r →
  space_ok (SpaceStore.remove_by_lease s (tp_lease_id r)).1 ∧
  space_resources (SpaceStore.remove_by_lease s (tp_lease_id r)).1 = space_resources s ∖ {[tuple_held r]}.
Proof.
  intros [[a HR] Hw] Hr.
  pose proof (proj1 (remove_by_lease_represents s a (tp_lease_id r) HR)) as HR'.
  pose proof (proj1 (rp_tuples _ _ HR id r) Hr) as Ha.
  assert (Hli : lease_index s !! tp_lease_id r = Some id) by (apply (rp_lease_index _ _ HR); eauto).
  revert HR'. unfold SpaceStore.remove_by_lease. rewrite Hli. cbn [tuples set_committed]. rewrite Hr.
  cbn [fst]. intros HR'. split; [by split; [eauto|]|].
  unfold space_resources. cbn [tuples watches set_committed].
  rewrite (map_held_delete tuple_held _ id r); [|done|].
  - assert (tuple_held r ∉ map_held watch_held (watches s)); [|set_solver].
    rewrite elem_of_map_held. by intros (k & w & _ & ?).
  - intros id' r' Hr' [= Hl' _]. apply (rp_tuples _ _ HR) in Hr'.
    by eapply (rp_lease _ _ HR).
Qed.

Lemma reclaim_watch s id w :
  space_ok s → watches s !! id = Some w →
  space_ok (remove_watch_by_lease s (wt_lease_id w)).1 ∧
  space_resources (remove_watch_by_lease s (wt_lease_id w)).1 =
    space_resources s ∖ {[watch_held w]}.
Proof.
  intros [[a HR] Hw] Hwt.
  assert (Huniq : ∀ id' w', watches s !! id' = Some w' → wt_lease_id w' = wt_lease_id w → id' = id).
  { intros id' w' Hw' He. assert (watch_lease_index s !! wt_lease_id w = Some id') by (apply Hw; eauto).
    assert (watch_lease_index s !! wt_lease_id w = Some id) by (apply Hw; eauto). congruence. }
  unfold remove_watch_by_lease. rewrite (proj2 (Hw _ id)) by eauto.
  cbn [watches set_watches]. rewrite Hwt. cbn [fst].
  split; [split|].
  - exists a. by repeat apply represents_watches.
  - intros l id'. cbn. rewrite lookup_delete_Some, Hw. split.
    + intros [Hne (w' & Hw' & <-)]. exists w'. rewrite lookup_delete_Some.
      split; [|done]. split; [|done]. intros <-. by simplify_eq.
    + intros (w' & [Hne Hw']%lookup_delete_Some & <-). split; [|eauto].
      intros He. apply Hne. symmetry. by eapply Huniq.
  - unfold space_resources. cbn [tuples watches set_watches].
    rewrite (map_held_delete watch_held _ id w); [|done|].
    + assert (watch_held w ∉ map_held tuple_held (tuples s)); [|set_solver].
      rewrite elem_of_map_held. by intros (k & r & _ & ?).
    + intros id' w' Hw' [= Hl' _]. by eapply Huniq.
Qed.

#[global] Instance space_swept : Swept LocalSpaces := {|
  sw_list := λ m, space_held (sm_store m);
  sw_reclaim := space_reclaim
|}.

#[global] Instance space_swept_laws : SweptLaws LocalSpaces.
Proof.
  refine {| sw_inv := λ m, space_ok (sm_store m); sw_held := λ m, space_resources (sm_store m) |}.
  - intros m _. eexists. split; [done|]. intros h. unfold space_resources.
    rewrite elem_of_app, elem_of_union, !elem_of_map_held, !list_elem_of_fmap.
    setoid_rewrite elem_of_map_values. naive_solver.
  - intros m h Hi [Hh|Hh]%elem_of_union; apply elem_of_map_held in Hh as (id & r & Hr & ->).
    + destruct (reclaim_tuple _ id r Hi Hr) as [Hi' Hh]. simpl. unfold space_reclaim, on_tuple_expired. simpl.
      by destruct (SpaceStore.remove_by_lease _ _) as [s' [[r'|]|e]].
    + exact (reclaim_watch _ id r Hi Hr).
Defined.
End space.

(** ** The cascade and the reaper together *)
Section lifecycle.
Context {C : Chrono} {S LS : Type}.
Context {RS : RegistryStore S} {RV : RegistryStoreView S} {RL : RegistryStoreLaws S}.
Context {ST : LeaseStore LS} {SV : LeaseStoreView LS} {SL : LeaseStoreLaws LS}.
Implicit Types (v : RegistryService S (LeaseManager LS)).

Abbreviation entries_of v := (rg_entries (rv_store v)).
Abbreviation leases_of v := (ls_view (lm_store (rv_leases v))).

(** The lease ids a receiver was given. *)
Definition delivered (items : list (Recv LeaseReclaimed)) (lease_id : string) : Prop :=
  ∃ ev, RecvMsg ev ∈ items ∧ lr_lease_id (rc_record ev) = lease_id.

(** A lag drops events but never stops the cascade: every reclaim delivered,
    before or after a lag, removes the entry of its lease. *)
Lemma cascade_removes_delivered v items :
  rg_inv (rv_store v) →
  rg_inv (rv_store (cascade registry_handler v items)) ∧
  rv_leases (cascade registry_handler v items) = rv_leases v ∧
  ∀ k e, entries_of (cascade registry_handler v items) !! k = Some e ↔
    entries_of v !! k = Some e ∧ ¬ delivered items (re_lease_id e).
Proof.
  revert v. induction items as [|[ev|n] items IH]; intros v Hi; cbn [cascade].
  - split; [done|]. split; [done|]. intros k e. split; [|tauto]. intros He. split; [done|].
    intros (ev & Hin & _). by apply not_elem_of_nil in Hin.
  - destruct (reclaim_entry_filter v (lr_lease_id (rc_record ev)) Hi) as (Hi1 & Hl1 & He1).
    destruct (IH (registry_handler v ev) Hi1) as (Hi2 & Hl2 & He2).
    split; [done|]. split; [unfold registry_handler in *; congruence|]. intros k e.
    rewrite He2. unfold registry_handler. rewrite He1, map_lookup_filter_Some. cbn.
    unfold delivered. setoid_rewrite elem_of_cons. naive_solver.
  - destruct (IH v Hi) as (Hi2 & Hl2 & He2). split; [done|]. split; [done|]. intros k e.
    rewrite He2. unfold delivered. setoid_rewrite elem_of_cons. naive_solver.
Qed.

(** The leases a tick announces are the expired ones. *)
Lemma delivered_reaped (clk : string → Z) l (m : lease_map) :
  leases_wf m →
  (∀ r, r ∈ l ↔ m !! lr_lease_id r = Some r ∧ is_expired (clk (lr_lease_id r)) r = true) →
  ∀ id, delivered (RecvMsg <$> ((λ r, {| rc_record := r; rc_reason := Expired |}) <$> l)) id ↔
    ∃ r, m !! id = Some r ∧ is_expired (clk id) r = true.
Proof.
  intros Hwf Hl id. unfold delivered.
  setoid_rewrite list_elem_of_fmap. setoid_rewrite list_elem_of_fmap. split.
  - intros (ev & (ev' & [= <-] & (r & -> & Hr)) & <-). apply Hl in Hr. by exists r.
  - intros (r & Hr & Hx). pose proof (Hwf _ _ Hr) as Hid. exists {| rc_record := r; rc_reason := Expired |}. split; [|exact Hid].
    eexists. split; [done|]. exists r. split; [done|]. apply Hl. by rewrite Hid.
Qed.

(** A reaper tick of the registry's landlord, its reclaims then delivered. *)
Definition tick_and_cascade v (clk : string → Z) : RegistryService S (LeaseManager LS) :=
  let m := reaper_tick (rv_leases v) clk in
  cascade registry_handler (with_leases v m)
    (RecvMsg <$> drop (length (lm_expiry_tx (rv_leases v))) (lm_expiry_tx m)).

(** Every entry is backed by a lease of the registry's own landlord. *)
Definition lease_backed v : Prop :=
  ∀ k e, entries_of v !! k = Some e → is_Some (leases_of v !! re_lease_id e).

(** When every entry is backed by a lease, a reaper tick followed by
    the cascade leaves exactly the entries whose lease had not expired, and each
    of them is still backed: an entry lives as long as its lease. *)
Theorem entry_lives_with_lease v clk :
  rg_inv (rv_store v) → leases_wf (leases_of v) → lease_backed v →
  let v' := tick_and_cascade v clk in
  rg_inv (rv_store v') ∧ lease_backed v' ∧
  ∀ k e, entries_of v' !! k = Some e ↔
    entries_of v !! k = Some e ∧
    ∃ r, leases_of v !! re_lease_id e = Some r ∧ is_expired (clk (lr_lease_id r)) r = false.
Proof.
  intros Hi Hwf Hb. cbv zeta. unfold tick_and_cascade, reaper_tick.
  destruct (drain_expired_spec (rv_leases v) clk Hwf) as (m' & l & -> & Hnd & Hl & Hv & Hc & Htx).
  destruct (reaper_log m' l) as [Hlog Hst]. rewrite Hlog, Htx, drop_app_length.
  set (m2 := foldl _ m' l) in *.
  destruct (cascade_removes_delivered (with_leases v m2)
    (RecvMsg <$> ((λ r, {| rc_record := r; rc_reason := Expired |}) <$> l)) Hi)
    as (Hi' & Hl' & He').
  setoid_rewrite (delivered_reaped clk l (leases_of v) Hwf Hl) in He'.
  assert (Hents : ∀ k e, entries_of v !! k = Some e →
    (¬ ∃ r, leases_of v !! re_lease_id e = Some r ∧ is_expired (clk (re_lease_id e)) r = true) ↔
    ∃ r, leases_of v !! re_lease_id e = Some r ∧ is_expired (clk (lr_lease_id r)) r = false).
  { intros k e He. destruct (Hb k e He) as [r Hr]. pose proof (Hwf _ _ Hr) as Hid. split.
    - intros Hn. exists r. split; [done|]. rewrite Hid. apply not_true_is_false. eauto.
    - intros (r1 & Hr1 & Hx1) (r2 & Hr2 & Hx2). simplify_eq. rewrite Hid in Hx1. congruence. }
  split; [done|]. split.
  - intros k e [He Hn]%He'. apply (Hents k e He) in Hn as (r & Hr & Hx).
    rewrite Hl'. cbn. rewrite Hst, Hv. exists r. apply map_lookup_filter_Some.
    split; [done|]. cbn. by rewrite <- (Hwf _ _ Hr).
  - intros k e. rewrite He'. cbn. split; intros [He Hn]; (split; [done|]); by apply (Hents k e He).
Qed.
End lifecycle.

(** ** Concrete instances *)
Section samples.
#[local] Existing Instance canonical_siter.
#[local] Existing Instance chrono_sample.
#[local] Existing Instance canonical_iter.

Definition held_a : Held := held_new "entry" "a" "lease-a".
Definition held_b : Held := held_new "entry" "b" "lease-b".

(** [b] had its lease lookup fail in the second sweep: only [a] is reclaimed. *)
Theorem sweep_two_strikes_witness :
  reclaimed (foldl after_sweep tracker_default
    (Ok [(held_a, Ok None); (held_b, Ok None)] :: [Err (Storage "down")]))
    (Ok [(held_a, Ok None); (held_b, Err (Storage "down"))]) = [held_a] ∧
  (held_a ∈ reclaimed (foldl after_sweep tracker_default
    (Ok [(held_a, Ok None); (held_b, Ok None)] :: [Err (Storage "down")]))
    (Ok [(held_a, Ok None); (held_b, Err (Storage "down"))])).
Proof.
  split; [vm_compute; reflexivity|].
  destruct (sweep_two_strikes tracker_default [(held_a, Ok None); (held_b, Ok None)]
              [Err (Storage "down")] [(held_a, Ok None); (held_b, Err (Storage "down"))])
    as (_ & Hiff & _); [repeat constructor|].
  apply Hiff. split; [left|]. split; [left|]. rewrite reclaimed_ok, elem_of_confirmed.
  intros [_ Hs]. by apply elem_of_empty in Hs.
Defined.

Definition empty_landlord : LeaseManager InMemoryLeaseStore :=
  {| lm_store := LeaseStore.new; lm_config := LeaseConfig_default; lm_expiry_tx := [] |}.

(** An entry whose lease vanished while no reclaim was seen. *)
Theorem sweeps_clear_orphans_witness :
  ∃ t1 x1 n1 t2 x2 n2,
    sweep_quietly tracker_default sample_registered empty_landlord = (t1, x1, Ok n1) ∧
    sweep_quietly t1 x1 empty_landlord = (t2, x2, Ok n2) ∧
    (n1 + n2)%nat = 1%nat.
Proof.
  assert (Hi : sw_inv sample_registered) by exact sample_inv.
  destruct (sweeps_clear_orphans tracker_default sample_registered empty_landlord Hi)
    as (t1 & x1 & n1 & t2 & x2 & n2 & H1 & H2 & _ & _ & Hn).
  exists t1, x1, n1, t2, x2, n2. split; [exact H1|]. split; [exact H2|].
  rewrite Hn. vm_compute. reflexivity.
Defined.

Lemma sample_leases_wf : leases_wf (ls_view (lm_store (rv_leases sample_registered))).
Proof.
  intros id r Hr. change ((<["lease-1" := mkLease "lease-1" "registry:cap-1" 0 30000000000 30]> ∅
    : lease_map) !! id = Some r) in Hr. apply lookup_insert_Some in Hr. naive_solver.
Qed.

Lemma sample_backed : lease_backed sample_registered.
Proof.
  intros k e He. change ((<["cap-1" := sample_entry]> ∅ : entry_map) !! k = Some e) in He.
  apply lookup_insert_Some in He as [[<- <-]|[_ He]]; [|by rewrite lookup_empty in He].
  eexists. vm_compute. reflexivity.
Qed.

(** At 31 s the 30 s lease of the sample entry has expired. *)
Theorem entry_lives_with_lease_witness :
  rg_entries (rv_store (tick_and_cascade sample_registered (λ _, 31000000000%Z))) !! "cap-1" = None ∧
  rg_inv (rv_store (tick_and_cascade sample_registered (λ _, 31000000000%Z))).
Proof.
  destruct (entry_lives_with_lease sample_registered (λ _, 31000000000%Z)
              sample_inv sample_leases_wf sample_backed) as (Hi & _ & _).
  split; [vm_compute; reflexivity|exact Hi].
Defined.
End samples.
