(* ===== verification/SweepSchedule.v ===== *)
(** * When the orphan sweep runs ([spawn_orphan_sweep] of [coordin8-djinn/src/sweep.rs])

    The task sleeps once, then makes a pass at each tick of an interval timer.  A
    pass is what its calls were answered and how long they took; the loop gives
    for every pass when it started and what it reclaimed. *)

From S2P Require Import Prelude CoreTypes LeaseCore Sweep.

(** In milliseconds. *)
Definition FIRST_SWEEP_AFTER : Z := 10000.
Definition SWEEP_EVERY : Z := 30000.

Record SweepPass := { sp_listed : result (list observation) Error; sp_took : Z }.

Record SweepRun := { sn_start : Z; sn_reclaimed : list Held; sn_result : result nat Error }.

Section schedule.
Context {SI : SetIter}.

(** [tick] returns at its deadline, or at once when that has passed; the next
    deadline is one period after this one, whatever the pass takes. *)
Fixpoint sweep_loop (deadline now : Z) (t : OrphanTracker) (passes : list SweepPass) : list SweepRun :=
  match passes with
  | [] => []
  | p :: passes =>
      let now := Z.max deadline now in
      let '(t, reclaimed, r) := sweep_once (λ acc h, acc ++ [h]) t [] (sp_listed p) in
      {| sn_start := now; sn_reclaimed := reclaimed; sn_result := r |} ::
      sweep_loop (deadline + SWEEP_EVERY) (now + sp_took p) t passes
  end.

Definition spawn_orphan_sweep (passes : list SweepPass) : list SweepRun :=
  sweep_loop FIRST_SWEEP_AFTER FIRST_SWEEP_AFTER tracker_default passes.

(** ** What a run of the loop is *)

(** The tracker before pass [i], and the time from which that pass could start. *)
Fixpoint free_at (deadline now : Z) (passes : list SweepPass) (i : nat) : Z :=
  match i, passes with
  | S i, p :: passes => free_at (deadline + SWEEP_EVERY) (Z.max deadline now + sp_took p) passes i
  | _, _ => now
  end.

Definition tracker_at (t : OrphanTracker) (passes : list SweepPass) (i : nat) : OrphanTracker :=
  foldl after_sweep t (sp_listed <$> take i passes).

Lemma sweep_once_log t r :
  sweep_once (λ acc h, acc ++ [h]) t [] r = (after_sweep t r, reclaimed t r, rmap (λ _, length (reclaimed t r)) r).
Proof.
  destruct r as [obs|e]; [|done]. rewrite reclaimed_ok, after_sweep_ok. unfold sweep_once.
  destruct (pass t _) as [t' c]. cbn. by rewrite foldl_snoc.
Qed.

Lemma sweep_loop_lookup deadline now t passes i p :
  passes !! i = Some p →
  sweep_loop deadline now t passes !! i = Some {|
    sn_start := Z.max (deadline + Z.of_nat i * SWEEP_EVERY) (free_at deadline now passes i);
    sn_reclaimed := reclaimed (tracker_at t passes i) (sp_listed p);
    sn_result := rmap (λ _, length (reclaimed (tracker_at t passes i) (sp_listed p))) (sp_listed p) |}.
Proof.
  revert deadline now t passes. induction i as [|i IH]; intros deadline now t [|q passes] Hp; try done; cbn [sweep_loop];
    rewrite sweep_once_log.
  - injection Hp as ->. cbn. do 2 f_equal. lia.
  - cbn [lookup list_lookup]. rewrite (IH _ _ _ _ Hp). cbn [free_at].
    do 2 f_equal. lia.
Qed.

Lemma sweep_loop_length deadline now t passes : length (sweep_loop deadline now t passes) = length passes.
Proof.
  revert deadline now t. induction passes as [|p passes IH]; intros; cbn [sweep_loop]; [done|].
  rewrite sweep_once_log. cbn. by rewrite IH.
Qed.

(** A pass that keeps within the period delays none after it. *)
Definition brisk (p : SweepPass) : Prop := (sp_took p ≤ SWEEP_EVERY)%Z.

Lemma free_at_brisk deadline now passes i :
  Forall brisk (take i passes) → (now ≤ deadline)%Z → (free_at deadline now passes i ≤ deadline + Z.of_nat i * SWEEP_EVERY)%Z.
Proof.
  revert deadline now passes. induction i as [|i IH]; intros deadline now [|p passes] Hb Hn; cbn [free_at take] in *;
    unfold SWEEP_EVERY in *; try lia.
  apply Forall_cons in Hb as [Hp Hb]. red in Hp. unfold SWEEP_EVERY in Hp.
  etrans; [apply IH; [done|lia]|]. lia.
Qed.

Lemma spawn_lookup passes i r :
  spawn_orphan_sweep passes !! i = Some r →
  ∃ p, passes !! i = Some p ∧
    (FIRST_SWEEP_AFTER + Z.of_nat i * SWEEP_EVERY ≤ sn_start r)%Z ∧
    (Forall brisk (take i passes) → sn_start r = (FIRST_SWEEP_AFTER + Z.of_nat i * SWEEP_EVERY)%Z) ∧
    sn_reclaimed r = reclaimed (tracker_at tracker_default passes i) (sp_listed p).
Proof.
  intros Hr. assert (is_Some (passes !! i)) as [p Hp].
  { apply lookup_lt_is_Some. rewrite <- (sweep_loop_length FIRST_SWEEP_AFTER FIRST_SWEEP_AFTER tracker_default).
    by eapply lookup_lt_Some. }
  unfold spawn_orphan_sweep in Hr. rewrite (sweep_loop_lookup _ _ _ _ _ _ Hp) in Hr.
  injection Hr as <-. cbn. exists p. split_and!; [done|lia| |done].
  intros Hb. pose proof (free_at_brisk FIRST_SWEEP_AFTER FIRST_SWEEP_AFTER passes i Hb). lia.
Qed.

Lemma tracker_at_S t passes i p :
  passes !! i = Some p → tracker_at t passes (S i) = after_sweep (tracker_at t passes i) (sp_listed p).
Proof. intros Hp. unfold tracker_at. by rewrite (take_S_r _ _ p), fmap_app, foldl_app. Qed.

(** A pass found a resource without a lease. *)
Definition misses (p : SweepPass) (h : Held) : Prop := ∃ obs, sp_listed p = Ok obs ∧ (h, Ok None) ∈ obs.

Lemma reclaimed_iff t p h : h ∈ reclaimed t (sp_listed p) ↔ misses p h ∧ h ∈ suspects t.
Proof.
  unfold misses. destruct (sp_listed p) as [obs|e].
  - rewrite reclaimed_ok, elem_of_confirmed, elem_of_leaseless. naive_solver.
  - cbn. rewrite elem_of_nil. naive_solver.
Qed.

Lemma suspect_next t p h : misses p h → h ∉ suspects t → h ∈ suspects (after_sweep t (sp_listed p)).
Proof. intros (obs & -> & Hin) Hs. by rewrite after_sweep_ok, elem_of_suspects, elem_of_leaseless. Qed.

Lemma suspect_seen passes i h :
  h ∈ suspects (tracker_at tracker_default passes i) →
  ∃ j p, j < i ∧ passes !! j = Some p ∧ misses p h ∧
    ∀ k q, j < k < i → passes !! k = Some q → is_ok (sp_listed q) = false.
Proof.
  induction i as [|i IH]; intros Hs; [by apply elem_of_empty in Hs|].
  destruct (passes !! i) as [p|] eqn:Hp.
  - rewrite (tracker_at_S _ _ _ _ Hp) in Hs. destruct (sp_listed p) as [obs|e] eqn:El.
    + rewrite after_sweep_ok, elem_of_suspects, elem_of_leaseless in Hs.
      exists i, p. split_and!; [lia|done|exists obs; naive_solver|lia].
    + destruct (IH Hs) as (j & q & Hj & Hq & Hm & Hf). exists j, q. split_and!; [lia|done..|].
      intros k q' Hk Hq'. destruct (decide (k = i)) as [->|]; [|apply (Hf k); [lia|done]].
      simplify_eq. by rewrite El.
  - unfold tracker_at in *. rewrite take_ge in Hs by (apply lookup_ge_None in Hp; lia).
    rewrite take_ge in IH by (by apply lookup_ge_None). destruct (IH Hs) as (j & q & Hj & Hq & Hm & Hf).
    exists j, q. split_and!; [lia|done..|]. intros k q' Hk Hq'. apply (Hf k); [|done].
    apply lookup_lt_Some in Hq'. apply lookup_ge_None in Hp. lia.
Qed.

(** ** Theorems *)

(** A reclaim needs two strikes: the resource was found without a lease by the
    pass that reclaims it and by an earlier one, with only failed listings in
    between.  When no pass outlasts the period, the two are a period apart. *)
Theorem reclaim_needs_two_misses passes i r h :
  spawn_orphan_sweep passes !! i = Some r → h ∈ sn_reclaimed r →
  ∃ j r0 p0 p, j < i ∧ spawn_orphan_sweep passes !! j = Some r0 ∧
    passes !! j = Some p0 ∧ misses p0 h ∧ passes !! i = Some p ∧ misses p h ∧
    (∀ k q, j < k < i → passes !! k = Some q → is_ok (sp_listed q) = false) ∧
    (Forall brisk passes → (sn_start r0 + SWEEP_EVERY ≤ sn_start r)%Z).
Proof.
  intros Hr Hh. destruct (spawn_lookup _ _ _ Hr) as (p & Hp & Hge & _ & Hrec).
  rewrite Hrec, reclaimed_iff in Hh. destruct Hh as [Hm (j & p0 & Hj & Hp0 & Hm0 & Hf)%suspect_seen].
  assert (is_Some (spawn_orphan_sweep passes !! j)) as [r0 Hr0].
  { apply lookup_lt_is_Some. apply lookup_lt_Some in Hr. lia. }
  destruct (spawn_lookup _ _ _ Hr0) as (_ & _ & _ & Heq & _).
  exists j, r0, p0, p. split_and!; try done.
  intros Hb. rewrite Heq by (by apply Forall_take). unfold SWEEP_EVERY in *. lia.
Qed.

(** The first pass of the schedule that starts at [T] or later. *)
Definition pass_from (T : Z) : nat := Z.to_nat ((T - FIRST_SWEEP_AFTER + SWEEP_EVERY - 1) / SWEEP_EVERY).

Lemma pass_from_bounds T :
  let s := (FIRST_SWEEP_AFTER + Z.of_nat (pass_from T) * SWEEP_EVERY)%Z in
  (T ≤ s < Z.max T FIRST_SWEEP_AFTER + SWEEP_EVERY)%Z ∧
  ∀ j, j < pass_from T → (FIRST_SWEEP_AFTER + Z.of_nat j * SWEEP_EVERY < T)%Z.
Proof. unfold pass_from, FIRST_SWEEP_AFTER, SWEEP_EVERY. cbv zeta. split; [|intros j Hj]; Z.to_euclidean_division_equations; lia. Qed.

(** The lease of a resource is gone from time [T] on: every pass from then finds
    it so, until one has reclaimed it. *)
Definition orphan_from (passes : list SweepPass) (h : Held) (T : Z) : Prop :=
  ∀ i p r, passes !! i = Some p → spawn_orphan_sweep passes !! i = Some r → (T ≤ sn_start r)%Z →
    (∀ j r', j < i → spawn_orphan_sweep passes !! j = Some r' → (T ≤ sn_start r')%Z → h ∉ sn_reclaimed r') →
    misses p h.

(** C40: A resource whose lease vanished is reclaimed by a pass that starts
    within two periods, when passes keep within the period and can list. *)
Theorem orphans_swept_in_time passes h T :
  Forall brisk passes → orphan_from passes h T →
  (Z.max T FIRST_SWEEP_AFTER + 2 * SWEEP_EVERY ≤ FIRST_SWEEP_AFTER + Z.of_nat (length passes) * SWEEP_EVERY)%Z →
  ∃ i r, spawn_orphan_sweep passes !! i = Some r ∧ h ∈ sn_reclaimed r ∧
    (T ≤ sn_start r < Z.max T FIRST_SWEEP_AFTER + 2 * SWEEP_EVERY)%Z.
Proof.
  intros Hb Ho Hlen. destruct (pass_from_bounds T) as [Hs Hbefore]. set (k := pass_from T) in *.
  assert (Hk : S k < length passes) by (unfold SWEEP_EVERY, FIRST_SWEEP_AFTER in *; lia).
  assert (Hrun : ∀ i, i ≤ S k → ∃ p r, passes !! i = Some p ∧ spawn_orphan_sweep passes !! i = Some r ∧
    sn_start r = (FIRST_SWEEP_AFTER + Z.of_nat i * SWEEP_EVERY)%Z ∧
    sn_reclaimed r = reclaimed (tracker_at tracker_default passes i) (sp_listed p)).
  { intros i Hi. assert (is_Some (spawn_orphan_sweep passes !! i)) as [r Hr].
    { apply lookup_lt_is_Some. unfold spawn_orphan_sweep. rewrite sweep_loop_length. lia. }
    destruct (spawn_lookup _ _ _ Hr) as (p & Hp & _ & Heq & Hrec). exists p, r.
    split_and!; try done. apply Heq. by apply Forall_take. }
  destruct (Hrun k) as (p & r & Hp & Hr & Hst & Hrec); [lia|].
  destruct (Hrun (S k)) as (p' & r' & Hp' & Hr' & Hst' & Hrec'); [lia|].
  assert (Hno : ∀ j r0, j < k → spawn_orphan_sweep passes !! j = Some r0 → (T ≤ sn_start r0)%Z → False).
  { intros j r0 Hj Hr0 Hge. destruct (Hrun j) as (_ & r1 & _ & Hr1 & Hs1 & _); [lia|].
    specialize (Hbefore j Hj). simplify_eq. lia. }
  assert (Hm : misses p h) by (apply (Ho k p r Hp Hr); [lia|]; intros j r0 Hj Hr0 Hge; by destruct (Hno j r0)).
  destruct (decide (h ∈ suspects (tracker_at tracker_default passes k))) as [Hin|Hni].
  - exists k, r. rewrite Hrec, reclaimed_iff. split_and!; try done; unfold SWEEP_EVERY in *; lia.
  - assert (Hm' : misses p' h).
    { apply (Ho (S k) p' r' Hp' Hr'); [unfold SWEEP_EVERY in *; lia|]. intros j r0 Hj Hr0 Hge.
      destruct (decide (j = k)) as [->|]; [|by destruct (Hno j r0); [lia|..]].
      assert (r0 = r) as -> by congruence. rewrite Hrec, reclaimed_iff. tauto. }
    exists (S k), r'. rewrite Hrec', reclaimed_iff, (tracker_at_S _ _ _ _ Hp).
    split_and!; [done| |by apply suspect_next|..]; [done|unfold SWEEP_EVERY in *; lia..].
Qed.
End schedule.

(** ** Concrete instances *)
Section samples.
#[local] Existing Instance canonical_siter.

Definition pass_of (obs : list observation) (took : Z) : SweepPass := {| sp_listed := Ok obs; sp_took := took |}.

(** The timer makes up for the ticks a slow pass missed: after one of 70 s the
    next two follow each other at once, and a resource whose lease was not yet
    readable at 80 s is reclaimed a second later. *)
Theorem slow_pass_confirms_at_once :
  sn_start <$> spawn_orphan_sweep [pass_of [] 70000; pass_of [(held_a, Ok None)] 1000; pass_of [(held_a, Ok None)] 1000]
    = [10000; 80000; 81000]%Z ∧
  sn_reclaimed <$> spawn_orphan_sweep
    [pass_of [] 70000; pass_of [(held_a, Ok None)] 1000; pass_of [(held_a, Ok None)] 1000] = [[]; []; [held_a]].
Proof. split; vm_compute; reflexivity. Qed.

Definition lost_at_15s : list SweepPass :=
  [pass_of [(held_a, Ok None)] 5; pass_of [(held_a, Ok None); (held_b, Ok None)] 5; pass_of [(held_b, Ok None)] 5].

(** The lease of [b] is gone at 15 s: the pass at 70 s reclaims it. *)
Theorem orphans_swept_in_time_witness :
  (∃ i r, spawn_orphan_sweep lost_at_15s !! i = Some r ∧ held_b ∈ sn_reclaimed r ∧
    (15000 ≤ sn_start r < Z.max 15000 FIRST_SWEEP_AFTER + 2 * SWEEP_EVERY)%Z) ∧
  sn_reclaimed <$> spawn_orphan_sweep lost_at_15s = [[]; [held_a]; [held_b]].
Proof.
  split; [|vm_compute; reflexivity]. apply orphans_swept_in_time.
  - repeat constructor; unfold brisk, SWEEP_EVERY; cbn; lia.
  - intros [|[|[|i]]] p r Hp Hr Hst _; cbn in Hp; try done; simplify_eq; vm_compute in Hr; simplify_eq; cbn in Hst; [lia|..];
      eexists; (split; [reflexivity|]); set_solver.
  - vm_compute. done.
Defined.
End samples.
