(* ===== verification/Proxy.v ===== *)
(** * The proxy ([coordin8-proxy/src/manager.rs], [coordin8-proxy/src/service.rs])

    Port allocation, the table of open proxies and their listener tasks.  What
    the operating system answers to [bind] is a parameter of each call.  The
    port counter is shared between concurrent [open]s: the last section of the
    allocator is its interleaving at the granularity of the atomic operations.

    The manager's operations are whole functions here, a call nobody interferes
    with; [ProxyRace] cuts them at their atomic operations, awaits and spawns and
    runs any number of them at once. *)

From S2P Require Import Prelude CoreTypes LeaseCore LeaseStore LeaseManager LeaseService.
From S2P Require Import Matcher RegistryStore RegistryIndex.

(** ** [CapabilityResolver] *)
Class CapabilityResolver (R : Type) := {
  cr_resolve : R → attrs_map → result (option RegistryEntry) Error
}.

(** [LocalCapabilityResolver] wraps the registry's store. *)
#[global] Instance LocalCapabilityResolver {I : MapIter} {S} `{RegistryStore S} : CapabilityResolver S :=
  {| cr_resolve := RegistryIndex.resolve |}.

(** ** Data *)
Inductive ProxyError :=
| PNotFound (template : attrs_map)
| PProxyNotFound (s : string)
| PPortRangeExhausted
| PIo (s : string)
| PStore (e : Error).

Record ProxyConfig := { bind_host : string; port_range : option (Z * Z) }.

Definition ProxyConfig_default : ProxyConfig := {| bind_host := "127.0.0.1"; port_range := None |}.

(** [ProxyConfig::from_env]: a bound that is missing or not a [u16] disables the
    range. *)
Definition proxy_from_env (env : string → option string) : ProxyConfig := {|
  bind_host := default "127.0.0.1" (env "PROXY_BIND_HOST");
  port_range :=
    match env "PROXY_PORT_MIN" ≫= parse_u16, env "PROXY_PORT_MAX" ≫= parse_u16 with
    | Some min, Some max => Some (min, max)
    | _, _ => None
    end
|}.

(** ** Port allocation *)

(** The answers of the operating system during one [open]: whether a port of the
    range can be bound, and what binding port 0 gives. *)
Record Os := { os_bind : Z → bool; os_any : result Z string }.

(** [TcpListener::bind] and the port of its [local_addr]: for port 0 the system
    picks one. *)
Definition bind_to (os : Os) (port : Z) : option Z :=
  if (port =? 0)%Z then match os_any os with Ok p => Some p | Err _ => None end
  else if os_bind os port then Some port else None.

(** The port tried when [fetch_add] returned [fetched]. *)
Definition tried_port (min max fetched : Z) : Z := if (max <? fetched)%Z then min else fetched.

(** What is then stored in [next_port]. *)
Definition stored_port (min max port : Z) : Z :=
  if (max <=? port)%Z then min else wrap16 (port + 1).

Fixpoint bind_loop (n : nat) (min max next : Z) (bind : Z → option Z) : Z * result Z ProxyError :=
  match n with
  | O => (next, Err PPortRangeExhausted)
  | S n =>
      let port := tried_port min max next in
      let next := stored_port min max port in
      match bind port with
      | Some local_port => (next, Ok local_port)
      | None => bind_loop n min max next bind
      end
  end.

(** [bind_listener], with [next_port] before and after. *)
Definition bind_listener (cfg : ProxyConfig) (next : Z) (os : Os) : Z * result Z ProxyError :=
  match port_range cfg with
  | Some (min, max) => bind_loop (Z.to_nat (max - min + 1)) min max next (bind_to os)
  | None => (next, match os_any os with Ok p => Ok p | Err e => Err (PIo e) end)
  end.

Section allocation.
Context (min max : Z).

(** The [k]-th port after [next], around the range. *)
Definition cyc (next k : Z) : Z := (min + (next - min + k) mod (max - min + 1))%Z.

Lemma cyc_0 next : (min ≤ next ≤ max)%Z → cyc next 0 = next.
Proof. intros ?. unfold cyc. rewrite Z.mod_small; lia. Qed.

Lemma cyc_range next k : (min ≤ max)%Z → (min ≤ cyc next k ≤ max)%Z.
Proof. intros ?. unfold cyc. pose proof (Z.mod_pos_bound (next - min + k) (max - min + 1)). lia. Qed.

Lemma stored_cyc next k :
  (0 ≤ min ≤ max)%Z → (max ≤ u16_max)%Z →
  stored_port min max (tried_port min max (cyc next k)) = cyc next (k + 1) ∧
  tried_port min max (cyc next k) = cyc next k.
Proof.
  intros Hr Hm. pose proof (cyc_range next k (proj2 Hr)) as Hc.
  assert (Ht : tried_port min max (cyc next k) = cyc next k).
  { unfold tried_port. destruct (Z.ltb_spec max (cyc next k)); lia. }
  split; [|done]. rewrite Ht. unfold stored_port.
  set (w := (max - min + 1)%Z). set (x := (next - min + k)%Z).
  assert (Hs : cyc next (k + 1) = (min + (x mod w + 1) mod w)%Z).
  { unfold cyc. fold w. replace (next - min + (k + 1))%Z with (x + 1)%Z by (unfold x; lia).
    by rewrite Zplus_mod_idemp_l. }
  rewrite Hs. assert (Hx : cyc next k = (min + x mod w)%Z) by done. rewrite Hx in *.
  destruct (Z.leb_spec max (min + x mod w)).
  - replace (x mod w + 1)%Z with w by (unfold w in *; lia). rewrite Z_mod_same_full. lia.
  - rewrite wrap16_small by (unfold w in *; lia).
    rewrite (Z.mod_small (x mod w + 1) w) by (unfold w in *; lia). lia.
Qed.

Lemma bind_loop_spec n next k bind :
  (0 ≤ min ≤ max)%Z → (max ≤ u16_max)%Z →
  (∃ j p, (k ≤ j < k + Z.of_nat n)%Z ∧ bind (cyc next j) = Some p ∧
     (∀ i, (k ≤ i < j)%Z → bind (cyc next i) = None) ∧
     bind_loop n min max (cyc next k) bind = (cyc next (j + 1), Ok p)) ∨
  ((∀ i, (k ≤ i < k + Z.of_nat n)%Z → bind (cyc next i) = None) ∧
   bind_loop n min max (cyc next k) bind =
     (cyc next (k + Z.of_nat n), Err PPortRangeExhausted)).
Proof.
  intros Hr Hm. revert k. induction n as [|n IH]; intros k; cbn [bind_loop].
  { right. split; [lia|]. by rewrite Z.add_0_r. }
  destruct (stored_cyc next k Hr Hm) as [-> ->].
  destruct (bind (cyc next k)) as [p|] eqn:Hb.
  - left. exists k, p. split; [lia|]. split; [done|]. split; [lia|done].
  - destruct (IH (k + 1)%Z) as [(j & p & Hj & Hbj & Hfirst & ->)|[Hall ->]].
    + left. exists j, p. split; [lia|]. split; [done|]. split; [|done].
      intros i Hi. destruct (decide (i = k)) as [->|]; [done|]. apply Hfirst. lia.
    + right. split.
      * intros i Hi. destruct (decide (i = k)) as [->|]; [done|]. apply Hall. lia.
      * f_equal. f_equal. lia.
Qed.

Lemma cyc_covers next p :
  (min ≤ next ≤ max)%Z → (min ≤ p ≤ max)%Z →
  ∃ i, (0 ≤ i < max - min + 1)%Z ∧ cyc next i = p.
Proof.
  intros Hn Hp. exists ((p - next) mod (max - min + 1))%Z.
  split; [apply Z.mod_pos_bound; lia|]. unfold cyc.
  rewrite Zplus_mod_idemp_r. replace (next - min + (p - next))%Z with (p - min)%Z by lia.
  rewrite Z.mod_small; lia.
Qed.

Lemma cyc_full next : (min ≤ next ≤ max)%Z → cyc next (max - min + 1) = next.
Proof.
  intros Hn. unfold cyc. replace (next - min + (max - min + 1))%Z
    with (next - min + 1 * (max - min + 1))%Z by lia.
  rewrite Z_mod_plus_full, Z.mod_small; lia.
Qed.

End allocation.

(** With a port range that does not start at 0, [bind_listener] tries the ports in cyclic order
    from [next_port] and takes the first the system lets it bind, always inside
    the range; it reports exhaustion only when every port of the range was
    refused, and in both cases [next_port] stays inside the range. *)
Theorem bind_listener_in_range cfg min max next os :
  port_range cfg = Some (min, max) → (0 < min ≤ max)%Z → (max ≤ u16_max)%Z →
  (min ≤ next ≤ max)%Z →
  let '(next', res) := bind_listener cfg next os in
  (min ≤ next' ≤ max)%Z ∧
  match res with
  | Ok port => (min ≤ port ≤ max)%Z ∧ os_bind os port = true ∧
      ∃ k, (0 ≤ k)%Z ∧ port = cyc min max next k ∧
        ∀ i, (0 ≤ i < k)%Z → os_bind os (cyc min max next i) = false
  | Err e => e = PPortRangeExhausted ∧
      ∀ p, (min ≤ p ≤ max)%Z → os_bind os p = false
  end.
Proof.
  intros Hcfg Hr Hm Hn. unfold bind_listener. rewrite Hcfg.
  assert (Hto : ∀ k, bind_to os (cyc min max next k) =
    if os_bind os (cyc min max next k) then Some (cyc min max next k) else None).
  { intros k. unfold bind_to. pose proof (cyc_range min max next k (proj2 Hr)).
    destruct (Z.eqb_spec (cyc min max next k) 0); [lia|done]. }
  assert (Hr0 : (0 ≤ min ≤ max)%Z) by lia.
  pose proof (bind_loop_spec min max (Z.to_nat (max - min + 1)) next 0 (bind_to os) Hr0 Hm) as Hspec.
  rewrite cyc_0 in Hspec by done. setoid_rewrite Hto in Hspec.
  destruct Hspec as [(j & p & Hj & Hb & Hfirst & ->)|[Hall ->]]; (split; [apply cyc_range; lia|]).
  - destruct (os_bind os _) eqn:Hos; [|done]. injection Hb as <-.
    split; [apply cyc_range; lia|]. split; [done|]. exists j. split; [lia|]. split; [done|].
    intros i Hi. specialize (Hfirst i Hi). by destruct (os_bind os _) in Hfirst |- *.
  - split; [done|]. intros p Hp. destruct (cyc_covers min max next p Hn Hp) as (i & Hi & <-).
    specialize (Hall i ltac:(lia)). by destruct (os_bind os _) in Hall |- *.
Qed.

Theorem bind_listener_in_range_witness :
  let os := {| os_bind := λ p, (p =? 9001)%Z; os_any := Err "" |} in
  bind_listener {| bind_host := "h"; port_range := Some (9000, 9003)%Z |} 9002 os = (9002%Z, Ok 9001%Z) ∧
  let '(next', res) :=
    bind_listener {| bind_host := "h"; port_range := Some (9000, 9003)%Z |} 9002 os in
  (9000 ≤ next' ≤ 9003)%Z.
Proof.
  split; [reflexivity|].
  destruct (bind_listener_in_range {| bind_host := "h"; port_range := Some (9000, 9003)%Z |}
    9000 9003 9002 {| os_bind := λ p, (p =? 9001)%Z; os_any := Err "" |}) as [Hn _];
    [reflexivity|lia|by_compute|lia|exact Hn].
Defined.

(** ** Concurrent [open]s *)

(** [next_port], the ports fetched by calls that have not stored yet, and every
    port a call went on to bind. *)
Record Alloc := { al_next : Z; al_pending : list Z; al_bound : list Z }.

Section interleaving.
Context (min max : Z) (callers : nat).

(** One atomic operation of one of at most [callers] concurrent calls. *)
Inductive alloc_step : Alloc → Alloc → Prop :=
| AFetch next pending bound :
    (length pending < callers)%nat →
    alloc_step (Build_Alloc next pending bound)
      (Build_Alloc (wrap16 (next + 1)) (tried_port min max next :: pending) bound)
| AStore next l1 port l2 bound :
    alloc_step (Build_Alloc next (l1 ++ port :: l2) bound)
      (Build_Alloc (stored_port min max port) (l1 ++ l2) (port :: bound)).

Inductive alloc_reach : Alloc → Prop :=
| AInit : alloc_reach (Build_Alloc min [] [])
| AStep a a' : alloc_reach a → alloc_step a a' → alloc_reach a'.

Definition in_range (p : Z) : Prop := (min ≤ p ≤ max)%Z.

Lemma alloc_inv a :
  (0 ≤ min ≤ max)%Z → (max + Z.of_nat callers ≤ u16_max)%Z → alloc_reach a →
  (min ≤ al_next a ≤ max + Z.of_nat (length (al_pending a)))%Z ∧
  Forall in_range (al_pending a) ∧ Forall in_range (al_bound a).
Proof.
  intros Hr Hm. induction 1 as [|a a' Ha (Hn & Hp & Hb) Hs].
  { cbn. split; [lia|]. by split. }
  destruct Hs as [next pending bound Hlen|next l1 port l2 bound]; cbn in *.
  - rewrite wrap16_small by lia. split; [lia|]. split; [|done]. constructor; [|done].
    unfold in_range, tried_port. destruct (Z.ltb_spec max next); lia.
  - rewrite Forall_app, Forall_cons in Hp. destruct Hp as (Hp1 & Hport & Hp2).
    split; [|split; [by apply Forall_app|by constructor]].
    unfold in_range, stored_port in *. destruct (Z.leb_spec max port); [lia|].
    rewrite wrap16_small by lia. lia.
Qed.

(** C35: However concurrent calls interleave their fetches and stores,
    every port they try lies in the configured range, as long as the range ends
    far enough below 65535 for the calls in flight. *)
Theorem concurrent_ports_in_range a :
  (0 ≤ min ≤ max)%Z → (max + Z.of_nat callers ≤ u16_max)%Z → alloc_reach a →
  Forall (λ p, (min ≤ p ≤ max)%Z) (al_bound a).
Proof. intros Hr Hm Ha. by apply alloc_inv. Qed.
End interleaving.

Theorem concurrent_ports_in_range_witness :
  Forall (λ p, (9000 ≤ p ≤ 9001)%Z) (al_bound (Build_Alloc 9000 [9000]%Z [9001]%Z)).
Proof.
  apply (concurrent_ports_in_range 9000 9001 2); [lia|by_compute|].
  apply (AStep _ _ _ (Build_Alloc 9002 [9001; 9000]%Z [])).
  - apply (AStep _ _ _ (Build_Alloc 9001 [9000]%Z [])).
    + apply (AStep _ _ _ (Build_Alloc 9000 [] [])); [apply AInit|].
      apply (AFetch 9000 9001 2 9000 [] []). cbn. lia.
    + apply (AFetch 9000 9001 2 9001 [9000]%Z []). cbn. lia.
  - apply (AStore 9000 9001 2 9002 [] 9001 [9000]%Z []).
Defined.

(** With a range that ends at 65535 the guarantee fails: the 16-bit
    counter wraps between one call's fetch and its store, and a second call
    tries port 0, for which the system picks a port of its own, in the range or
    not. *)
Theorem port_counter_wraps :
  ∃ a, alloc_reach 65534 65535 2 a ∧ al_bound a = [0%Z; 65534%Z] ∧
    ¬ Forall (in_range 65534 65535) (al_bound a).
Proof.
  exists (Build_Alloc 1 [65535]%Z [0; 65534]%Z). split; [|split; [done|]].
  - apply (AStep _ _ _ (Build_Alloc 1 [0; 65535]%Z [65534]%Z)).
    + apply (AStep _ _ _ (Build_Alloc 0 [65535]%Z [65534]%Z)).
      * apply (AStep _ _ _ (Build_Alloc 65535 [] [65534]%Z)).
        -- apply (AStep _ _ _ (Build_Alloc 65535 [65534]%Z [])).
           ++ apply (AStep _ _ _ (Build_Alloc 65534 [] [])); [apply AInit|].
              apply (AFetch 65534 65535 2 65534 [] []). cbn. lia.
           ++ apply (AStore 65534 65535 2 65535 [] 65534 [] []).
        -- apply (AFetch 65534 65535 2 65535 [] [65534]%Z). cbn. lia.
      * apply (AFetch 65534 65535 2 0 [65535]%Z [65534]%Z). cbn. lia.
    + apply (AStore 65534 65535 2 1 [] 0 [65535]%Z [65534]%Z).
  - cbn [al_bound]. rewrite Forall_cons. intros [Hr _]. unfold in_range in Hr. lia.
Qed.

(** ** The manager *)
Record ProxyEntry := { pe_lease_id : string }.

(** A spawned [accept_loop]: the port its listener holds, and whether its
    shutdown was sent (the entry's sender is consumed when the entry goes). *)
Record Listener := { ln_port : Z; ln_stopped : bool }.

Record ProxyManager (L : Type) := mkProxy {
  px_leasing : L;
  px_proxies : gmap string ProxyEntry;
  px_config : ProxyConfig;
  px_next_port : Z;
  px_listeners : gmap string Listener
}.
Arguments mkProxy {L}.
Arguments px_leasing {L} _.
Arguments px_proxies {L} _.
Arguments px_config {L} _.
Arguments px_next_port {L} _.
Arguments px_listeners {L} _.

Definition PROXY_RESOURCE_PREFIX : string := "proxy:".

Section manager.
Context {L R : Type} `{Leasing L} `{CapabilityResolver R}.
Implicit Types (m : ProxyManager L) (r : R).

Definition proxy_new (config : ProxyConfig) (leasing : L) : ProxyManager L :=
  mkProxy leasing ∅ config (match port_range config with Some (min, _) => min | None => 0%Z end) ∅.

(** The address of an entry's transport. *)
Definition upstream (t : TransportConfig) : string :=
  default "" (tc_config t !! "host") +:+ ":" +:+ default "" (tc_config t !! "port").

Definition resolve_addr r (template : attrs_map) : result string ProxyError :=
  match cr_resolve r template with
  | Err e => Err (PStore e)
  | Ok None => Err (PNotFound template)
  | Ok (Some entry) =>
      match re_transport entry with
      | None => Err (PNotFound template)
      | Some t => Ok (upstream t)
      end
  end.

Definition open r m (proxy_id : string) (env : Env) (os : Os) (template : attrs_map) (ttl_secs : Z)
  : ProxyManager L * result (string * Z * LeaseRecord) ProxyError :=
  match resolve_addr r template with
  | Err e => (m, Err e)
  | Ok _ =>
      let '(next, bound) := bind_listener (px_config m) (px_next_port m) os in
      let m := mkProxy (px_leasing m) (px_proxies m) (px_config m) next (px_listeners m) in
      match bound with
      | Err e => (m, Err e)
      | Ok local_port =>
          match lg_grant (px_leasing m) env (PROXY_RESOURCE_PREFIX +:+ proxy_id) ttl_secs with
          | (l', Err e) =>
              (mkProxy l' (px_proxies m) (px_config m) next (px_listeners m), Err (PStore e))
          | (l', Ok lease) =>
              (mkProxy l' (<[proxy_id := {| pe_lease_id := lr_lease_id lease |}]> (px_proxies m))
                 (px_config m) next
                 (<[proxy_id := {| ln_port := local_port; ln_stopped := false |}]> (px_listeners m)),
               Ok (proxy_id, local_port, lease))
          end
      end
  end.

(** [proxies.remove(id)] and [entry.shutdown.send(())]. *)
Definition shut m (proxy_id : string) : ProxyManager L :=
  mkProxy (px_leasing m) (delete proxy_id (px_proxies m)) (px_config m) (px_next_port m)
    (alter (λ t, {| ln_port := ln_port t; ln_stopped := true |}) proxy_id (px_listeners m)).

Definition close m (proxy_id : string) : ProxyManager L * result unit ProxyError :=
  match px_proxies m !! proxy_id with
  | None => (m, Err (PProxyNotFound proxy_id))
  | Some entry =>
      let m := shut m proxy_id in
      let '(l', _) := lg_cancel (px_leasing m) (pe_lease_id entry) in
      (mkProxy l' (px_proxies m) (px_config m) (px_next_port m) (px_listeners m), Ok ())
  end.

Definition handle_reclaimed m (event : LeaseReclaimed) : ProxyManager L :=
  match strip_prefix PROXY_RESOURCE_PREFIX (lr_resource_id (rc_record event)) with
  | None => m
  | Some proxy_id =>
      match px_proxies m !! proxy_id with
      | Some _ => shut m proxy_id
      | None => m
      end
  end.

(** The end of a spawned task: its listener is dropped and its entry removed. *)
Definition task_exit m (proxy_id : string) : ProxyManager L :=
  mkProxy (px_leasing m) (delete proxy_id (px_proxies m)) (px_config m) (px_next_port m)
    (delete proxy_id (px_listeners m)).

(** [forward]: where an accepted connection is sent; the template is resolved
    again for each connection, and a connection that resolves to nothing is
    dropped. *)
Definition forward_addr r (template : attrs_map) : option string :=
  match cr_resolve r template with
  | Ok (Some e) => upstream <$> re_transport e
  | Ok None | Err _ => None
  end.

(** ** The RPCs *)
Definition proxy_error_to_string (debug : attrs_map → string) (e : ProxyError) : string :=
  match e with
  | PNotFound t => "no capability found for template: " +:+ debug t
  | PProxyNotFound s => "proxy not found: " +:+ s
  | PPortRangeExhausted => "proxy port range exhausted"
  | PIo s => "io error: " +:+ s
  | PStore e => "store error: " +:+ error_to_string e
  end.

Definition proxy_map_err (debug : attrs_map → string) (e : ProxyError) : Status :=
  match e with
  | PStore (Unavailable _) => mkStatus CUnavailable (proxy_error_to_string debug e)
  | _ => mkStatus CNotFound (proxy_error_to_string debug e)
  end.

Record ProxyHandle := { ph_proxy_id : string; ph_local_port : Z; ph_lease : option Lease }.

Definition open_rpc `{Chrono} (debug : attrs_map → string) (g : Grantor) r m (proxy_id : string)
    (env : Env) (os : Os) (template : attrs_map) (ttl_seconds : Z)
  : ProxyManager L * result ProxyHandle Status :=
  let '(m, res) := open r m proxy_id env os template ttl_seconds in
  (m, rmap (λ '(proxy_id, local_port, lease),
             {| ph_proxy_id := proxy_id; ph_local_port := local_port;
                ph_lease := Some (record_to_proto g lease) |})
        (map_err (proxy_map_err debug) res)).

Definition release_rpc (debug : attrs_map → string) m (proxy_id : string)
  : ProxyManager L * result unit Status :=
  let '(m, res) := close m proxy_id in (m, map_err (proxy_map_err debug) res).
End manager.
