(* ===== verification/ProxyRace.v ===== *)
(** * The proxy among concurrent calls ([coordin8-proxy/src/manager.rs])

    [Proxy] gives each operation as one function.  The source runs them on many
    threads: [bind_listener] moves the port counter by two atomic operations,
    [open] awaits the bind and the grant, hands the listener to a task it spawns,
    and only then enters the proxy in the table; the task may end at any time and
    removes the entry when it does.  Here an [open] is the place it has reached, a
    step takes it to the next one, a call may be dropped where it awaits, and any
    number of calls, tasks, releases, reclaims and lease operations interleave.
    An [open] stepped without interruption is [Proxy.open] ([open_alone]).

    What is not so in every execution is shown at the end: a task that ends before
    its entry is written leaves an entry behind, and a lease reclaimed before that
    leaves a proxy nobody reclaims. *)

From S2P Require Import Prelude CoreTypes LeaseCore LeaseStore LeaseManager LeaseService.
From S2P Require Import Matcher RegistryStore RegistryIndex Proxy.

(** The template and the requested time of an [open]. *)
Record Ask := { ak_template : attrs_map; ak_ttl : Z }.

(** Where an [open] is: before the operation it is named after.  [n] counts the
    ports still to be tried. *)
Inductive OpenCall :=
| OResolve (q : Ask)
| OFetch (q : Ask) (n : nat)
| OStore (q : Ask) (n : nat) (port : Z)
| OBind (q : Ask) (n : nat) (port : Z)
| OBindAny (q : Ask)
| OGrant (q : Ask) (port : Z) (proxy_id : string)
| OSpawn (port : Z) (proxy_id : string) (lease : LeaseRecord)
| OInsert (port : Z) (proxy_id : string) (lease : LeaseRecord)
| ODone (res : result (string * Z * LeaseRecord) ProxyError).

(** A call is dropped with its request only where it awaits. *)
Definition awaits (c : OpenCall) : bool :=
  match c with OStore _ _ _ | OSpawn _ _ _ | OInsert _ _ _ => false | _ => true end.

(** The proxy id a call has drawn, the port of the listener it holds itself, the
    port it fetched and has not stored, a port it has still to bind, and the lease
    it got. *)
Definition call_id (c : OpenCall) : option string :=
  match c with OGrant _ _ id | OSpawn _ id _ | OInsert _ id _ => Some id | _ => None end.
Definition call_port (c : OpenCall) : option Z :=
  match c with OGrant _ p _ | OSpawn p _ _ => Some p | _ => None end.
Definition fetched (c : OpenCall) : option Z :=
  match c with OStore _ _ p => Some p | _ => None end.
Definition chosen (c : OpenCall) : option Z :=
  match c with OStore _ _ p | OBind _ _ p => Some p | _ => None end.
Definition call_lease (c : OpenCall) : option (string * string) :=
  match c with OSpawn _ id l | OInsert _ id l => Some (id, lr_lease_id l) | _ => None end.

Definition is_done (c : OpenCall) : bool := match c with ODone _ => true | _ => false end.

(** The entry of [id] is written next. *)
Definition inserts (id : string) (c : OpenCall) : bool :=
  match c with OInsert _ id' _ => bool_decide (id' = id) | _ => false end.

Section race.
Context {L R : Type} {LG : Leasing L} {LV : LeasingView L} {LL : LeasingLaws L}.
Context {CR : CapabilityResolver R}.
Implicit Types (m : ProxyManager L) (c : OpenCall).

Definition with_next m (next : Z) : ProxyManager L :=
  mkProxy (px_leasing m) (px_proxies m) (px_config m) next (px_listeners m).
Definition with_leasing m (l : L) : ProxyManager L :=
  mkProxy l (px_proxies m) (px_config m) (px_next_port m) (px_listeners m).

(** An [open] taken to its next place.  [proxy_id] is the id it would draw, [env]
    and [os] what the clock, the id source and the system answer. *)
Definition ostep (r : R) m (proxy_id : string) (env : Env) (os : Os) c : ProxyManager L * OpenCall :=
  match c with
  | OResolve q =>
      (m, match resolve_addr r (ak_template q), port_range (px_config m) with
          | Err e, _ => ODone (Err e)
          | Ok _, Some (min, max) => OFetch q (Z.to_nat (max - min + 1))
          | Ok _, None => OBindAny q
          end)
  | OFetch q O => (m, ODone (Err PPortRangeExhausted))
  | OFetch q (S n) =>
      match port_range (px_config m) with
      | Some (min, max) =>
          (with_next m (wrap16 (px_next_port m + 1)), OStore q n (tried_port min max (px_next_port m)))
      | None => (m, c)
      end
  | OStore q n port =>
      match port_range (px_config m) with
      | Some (min, max) => (with_next m (stored_port min max port), OBind q n port)
      | None => (m, c)
      end
  | OBind q n port =>
      (m, match bind_to os port with Some p => OGrant q p proxy_id | None => OFetch q n end)
  | OBindAny q =>
      (m, match os_any os with Ok p => OGrant q p proxy_id | Err e => ODone (Err (PIo e)) end)
  | OGrant q port id =>
      let '(l', granted) := lg_grant (px_leasing m) env (PROXY_RESOURCE_PREFIX +:+ id) (ak_ttl q) in
      (with_leasing m l',
       match granted with Err e => ODone (Err (PStore e)) | Ok lease => OSpawn port id lease end)
  | OSpawn port id lease =>
      (mkProxy (px_leasing m) (px_proxies m) (px_config m) (px_next_port m)
         (<[id := {| ln_port := port; ln_stopped := false |}]> (px_listeners m)),
       OInsert port id lease)
  | OInsert port id lease =>
      (mkProxy (px_leasing m) (<[id := {| pe_lease_id := lr_lease_id lease |}]> (px_proxies m))
         (px_config m) (px_next_port m) (px_listeners m),
       ODone (Ok (id, port, lease)))
  | ODone _ => (m, c)
  end.

(** ** A call nobody interferes with *)

Definition alone (r : R) (id : string) (env : Env) (os : Os) (x y : ProxyManager L * OpenCall) : Prop :=
  y = ostep r x.1 id env os x.2.

Lemma open_step_once r id env os m c z :
  rtc (alone r id env os) (ostep r m id env os c) z → rtc (alone r id env os) (m, c) z.
Proof. intros Hz. eapply rtc_l; [|exact Hz]. done. Qed.

Lemma bind_alone r id env os q min max n m z :
  port_range (px_config m) = Some (min, max) →
  (let '(next, bound) := bind_loop n min max (px_next_port m) (bind_to os) in
   rtc (alone r id env os)
     (with_next m next, match bound with Ok p => OGrant q p id | Err e => ODone (Err e) end) z) →
  rtc (alone r id env os) (m, OFetch q n) z.
Proof.
  revert m. induction n as [|n IH]; intros m Hcfg; cbn [bind_loop]; intros Hz; apply open_step_once; cbn.
  { by destruct m. }
  rewrite Hcfg. apply open_step_once. cbn. rewrite Hcfg. apply open_step_once. cbn.
  destruct (bind_to os _); [done|]. by apply IH.
Qed.

Lemma open_alone r m id env os q :
  let out := open r m id env os (ak_template q) (ak_ttl q) in
  rtc (alone r id env os) (m, OResolve q) (out.1, ODone out.2).
Proof.
  cbn zeta. apply open_step_once. cbn. unfold open. destruct (resolve_addr r _); [|apply rtc_refl].
  assert (Hgrant : ∀ next p, rtc (alone r id env os) (with_next m next, OGrant q p id)
    (let out := match lg_grant (px_leasing m) env (PROXY_RESOURCE_PREFIX +:+ id) (ak_ttl q) with
       | (l', Err e) => (mkProxy l' (px_proxies m) (px_config m) next (px_listeners m), Err (PStore e))
       | (l', Ok lease) =>
           (mkProxy l' (<[id := {| pe_lease_id := lr_lease_id lease |}]> (px_proxies m)) (px_config m) next
              (<[id := {| ln_port := p; ln_stopped := false |}]> (px_listeners m)), Ok (id, p, lease))
       end in (out.1, ODone out.2))).
  { intros next p. apply open_step_once. cbn. destruct (lg_grant _ _ _ _) as [l' [lease|e]]; [|apply rtc_refl].
    apply open_step_once. cbn. apply open_step_once. cbn. apply rtc_refl. }
  unfold bind_listener. destruct (port_range _) as [[min max]|] eqn:Hcfg.
  - eapply bind_alone; [done|]. destruct (bind_loop _ _ _ _ _) as [next [p|e]]; [apply Hgrant|apply rtc_refl].
  - apply open_step_once. cbn. destruct (os_any os) as [p|e]; [|destruct m; apply rtc_refl].
    replace m with (with_next m (px_next_port m)) at 1 by (by destruct m). apply Hgrant.
Qed.

(** ** Any number of calls and tasks *)

Record Pool := mkPool {
  pr_mgr : ProxyManager L;
  pr_calls : list OpenCall;
  pr_closing : gset string;   (** tasks that dropped their listener and remove their entry next *)
  pr_early : gset string;     (** tasks that were over before their entry was written *)
  pr_cancels : list string;   (** leases releases have still to cancel *)
  pr_ids : gset string;       (** proxy ids drawn so far *)
  pr_leases : gset string     (** lease ids drawn so far *)
}.

(** The ports of all open sockets: those of the calls, and those of the tasks. *)
Definition task_ports (ls : gmap string Listener) : list Z := (map_to_list (ln_port <$> ls)).*2.
Definition sockets (cs : list OpenCall) m : list Z := omap call_port cs ++ task_ports (px_listeners m).

(** What the system promises: it does not hand out a port that is in use. *)
Definition os_sound (ports : list Z) (os : Os) : Prop :=
  ∀ p, p ∈ ports → os_bind os p = false ∧ os_any os ≠ Ok p.

(** What the reaper and the holders of leases do: leases that were drawn end or
    are extended, but keep their resource. *)
Definition leases_evolve (drawn : gset string) (l l' : L) : Prop :=
  ∀ id r', id ∈ drawn → lg_leases l' !! id = Some r' →
    ∃ r, lg_leases l !! id = Some r ∧ lr_resource_id r' = lr_resource_id r.

(** The task dropped its listener: it was told to stop, or accepting failed. *)
Definition listener_dropped m (id : string) : ProxyManager L :=
  mkProxy (px_leasing m) (px_proxies m) (px_config m) (px_next_port m) (delete id (px_listeners m)).
(** And then removes its entry. *)
Definition entry_removed m (id : string) : ProxyManager L :=
  mkProxy (px_leasing m) (delete id (px_proxies m)) (px_config m) (px_next_port m) (px_listeners m).

(** The steps; at most [callers] calls at once are between the two operations on
    the port counter. *)
Inductive pstep (callers : nat) : Pool → Pool → Prop :=
| PArrive m cs cl ea ca ids ls q :
    pstep callers (mkPool m cs cl ea ca ids ls) (mkPool m (cs ++ [OResolve q]) cl ea ca ids ls)
| PCall m cs1 c cs2 cl ea ca ids ls (r : R) id env os :
    id ∉ ids → uuid env ∉ ls → os_sound (sockets (cs1 ++ c :: cs2) m) os →
    (length (omap fetched (cs1 ++ (ostep r m id env os c).2 :: cs2)) ≤ callers)%nat →
    pstep callers (mkPool m (cs1 ++ c :: cs2) cl ea ca ids ls)
      (mkPool (ostep r m id env os c).1 (cs1 ++ (ostep r m id env os c).2 :: cs2) cl ea ca
         ({[id]} ∪ ids) ({[uuid env]} ∪ ls))
| PDrop m cs1 c cs2 cl ea ca ids ls :
    awaits c = true →
    pstep callers (mkPool m (cs1 ++ c :: cs2) cl ea ca ids ls) (mkPool m (cs1 ++ cs2) cl ea ca ids ls)
| PRelease m cs cl ea ca ids ls id e :
    px_proxies m !! id = Some e →
    pstep callers (mkPool m cs cl ea ca ids ls) (mkPool (shut m id) cs cl ea (pe_lease_id e :: ca) ids ls)
| PCancel m cs cl ea ca1 l ca2 ids ls :
    pstep callers (mkPool m cs cl ea (ca1 ++ l :: ca2) ids ls)
      (mkPool (with_leasing m (lg_cancel (px_leasing m) l).1) cs cl ea (ca1 ++ ca2) ids ls)
| PReclaimed m cs cl ea ca ids ls event :
    pstep callers (mkPool m cs cl ea ca ids ls) (mkPool (handle_reclaimed m event) cs cl ea ca ids ls)
| PTaskEnds m cs cl ea ca ids ls id t :
    px_listeners m !! id = Some t →
    pstep callers (mkPool m cs cl ea ca ids ls)
      (mkPool (listener_dropped m id) cs ({[id]} ∪ cl) ea ca ids ls)
| PTaskGone m cs cl ea ca ids ls id :
    id ∈ cl →
    pstep callers (mkPool m cs cl ea ca ids ls)
      (mkPool (entry_removed m id) cs (cl ∖ {[id]})
         (if existsb (inserts id) cs then {[id]} ∪ ea else ea) ca ids ls)
| PLeases m cs cl ea ca ids ls l' :
    leases_evolve ls (px_leasing m) l' →
    pstep callers (mkPool m cs cl ea ca ids ls) (mkPool (with_leasing m l') cs cl ea ca ids ls).

Inductive preach (callers : nat) : Pool → Prop :=
| PInit config leasing : preach callers (mkPool (proxy_new config leasing) [] ∅ ∅ [] ∅ ∅)
| PStep P P' : preach callers P → pstep callers P P' → preach callers P'.

(** ** The invariant *)

(** A port of the configured range, when the range is one the counter can handle. *)
Definition range_ok (callers : nat) (cfg : ProxyConfig) (extra : Z) (p : Z) : Prop :=
  ∀ min max, port_range cfg = Some (min, max) → (0 < min ≤ max)%Z →
    (max + Z.of_nat callers ≤ u16_max)%Z → (min ≤ p ≤ max + extra)%Z.

(** What is there of one proxy. *)
Record View := mkView {
  vw_entry : option ProxyEntry;
  vw_task : option Listener;
  vw_closing : bool;
  vw_early : bool
}.
Definition view m (closing early : gset string) (id : string) : View :=
  mkView (px_proxies m !! id) (px_listeners m !! id)
    (bool_decide (id ∈ closing)) (bool_decide (id ∈ early)).

(** The listener runs and was not told to stop. *)
Definition running (v : View) : Prop := ∃ t, vw_task v = Some t ∧ ln_stopped t = false.
Definition up (v : View) : Prop := running v ∨ vw_closing v = true ∨ vw_early v = true.
Definition no_view : View := mkView None None false false.

Definition call_ok (vw : string → View) c : Prop :=
  match c with
  | OGrant _ _ id | OSpawn _ id _ => vw id = no_view
  | OInsert _ id _ => vw_entry (vw id) = None ∧ up (vw id)
  | _ => True
  end.

Record view_ok (ins : bool) (v : View) : Prop := {
  vo_entry : is_Some (vw_entry v) → up v;
  vo_running : running v → is_Some (vw_entry v) ∨ ins = true;
  vo_closing : vw_closing v = true → vw_task v = None;
  vo_early : vw_early v = true → vw_task v = None ∧ vw_closing v = false
}.

(** *** Sockets *)

Lemma NoDup_sub {A} (l k : list A) : k ⊆+ l → NoDup l → NoDup k.
Proof.
  intros [k' Hk]%submseteq_Permutation. rewrite Hk. by intros [? _]%NoDup_app.
Qed.
Lemma Forall_sub {A} (Q : A → Prop) (l k : list A) : k ⊆+ l → Forall Q l → Forall Q k.
Proof. rewrite !Forall_forall. intros Hs HQ x Hx. eapply HQ, elem_of_submseteq; eauto. Qed.

Lemma Forall_swap {A} (Q : A → Prop) l1 x l2 y : Forall Q (l1 ++ x :: l2) → Q y → Forall Q (l1 ++ y :: l2).
Proof. rewrite !Forall_app, !Forall_cons. tauto. Qed.
Lemma Forall_mid {A} (Q : A → Prop) l1 x l2 : Forall Q (l1 ++ x :: l2) → Q x ∧ Forall Q (l1 ++ l2).
Proof. rewrite !Forall_app, !Forall_cons. tauto. Qed.

Lemma task_ports_delete ls id : task_ports (delete id ls) ⊆+ task_ports ls.
Proof.
  unfold task_ports. rewrite fmap_delete. destruct ((ln_port <$> ls) !! id) as [p|] eqn:Hp.
  - rewrite <- (map_to_list_delete _ _ _ Hp). cbn. by apply submseteq_cons.
  - by rewrite delete_id.
Qed.

Lemma task_ports_insert ls id t : task_ports (<[id := t]> ls) ⊆+ ln_port t :: task_ports ls.
Proof.
  rewrite <- insert_delete_eq. unfold task_ports at 1.
  rewrite fmap_insert, map_to_list_insert by (by rewrite lookup_fmap, lookup_delete_eq). cbn.
  apply submseteq_skip, task_ports_delete.
Qed.

Lemma task_ports_stop ls id :
  task_ports (alter (λ t, {| ln_port := ln_port t; ln_stopped := true |}) id ls) = task_ports ls.
Proof.
  unfold task_ports. f_equal. f_equal. apply map_eq. intros j. rewrite !lookup_fmap.
  destruct (decide (id = j)) as [->|Hne]; [rewrite lookup_alter_eq|by rewrite lookup_alter_ne].
  by destruct (ls !! j).
Qed.

(** Without a range the system picks the port. *)
Definition any_ok (cfg : ProxyConfig) c : Prop :=
  match c with OBindAny _ => port_range cfg = None | _ => True end.

(** The sockets and the port counter. *)
Record ports_ok (callers : nat) (cs : list OpenCall) m : Prop := {
  po_ports : NoDup (sockets cs m);
  po_range : Forall (range_ok callers (px_config m) 0) (sockets cs m);
  po_chosen : Forall (range_ok callers (px_config m) 0) (omap chosen cs);
  po_any : Forall (any_ok (px_config m)) cs;
  po_next : range_ok callers (px_config m) (Z.of_nat (length (omap fetched cs))) (px_next_port m)
}.

(** Nothing new is opened or chosen, and the counter stays put. *)
Lemma ports_ok_sub callers cs m cs' m' :
  ports_ok callers cs m → sockets cs' m' ⊆+ sockets cs m → omap chosen cs' ⊆+ omap chosen cs →
  omap fetched cs' = omap fetched cs → px_config m' = px_config m → px_next_port m' = px_next_port m →
  Forall (any_ok (px_config m')) cs' → ports_ok callers cs' m'.
Proof.
  intros [Hp Hr Hc _ Hn] Hs Hch Hf Hcfg Hnx Ha. rewrite <- Hcfg in *. split.
  - by eapply NoDup_sub.
  - by eapply Forall_sub.
  - by eapply Forall_sub.
  - done.
  - by rewrite Hf, Hnx.
Qed.

(** A call binds a port nobody holds. *)
Lemma ports_ok_bind callers cs1 c cs2 m q p id :
  ports_ok callers (cs1 ++ c :: cs2) m → call_port c = None → fetched c = None →
  p ∉ sockets (cs1 ++ c :: cs2) m → range_ok callers (px_config m) 0 p →
  ports_ok callers (cs1 ++ OGrant q p id :: cs2) m.
Proof.
  intros [Hp Hr Hc Ha Hn] Hcp Hcf Hfree Hin. unfold sockets in *.
  rewrite omap_app in *. cbn in *. rewrite Hcp in *.
  assert (Hperm : omap call_port cs1 ++ p :: omap call_port cs2 ++ task_ports (px_listeners m) ≡ₚ
                  p :: (omap call_port cs1 ++ omap call_port cs2) ++ task_ports (px_listeners m)).
  { rewrite <- Permutation_middle. by rewrite app_assoc. }
  split; unfold sockets; rewrite ?omap_app; cbn; rewrite <- ?app_assoc, ?Hcf in *; cbn in *.
  - rewrite Hperm. constructor; rewrite <- ?app_assoc; done.
  - rewrite Hperm. constructor; rewrite <- ?app_assoc; done.
  - eapply Forall_sub; [|exact Hc]. apply submseteq_skips_l. destruct (chosen c); [by apply submseteq_cons|done].
  - by eapply Forall_swap.
  - done.
Qed.

(** A call goes on without opening a socket or touching the counter. *)
Lemma ports_ok_move callers cs1 c cs2 c' m m' :
  ports_ok callers (cs1 ++ c :: cs2) m → any_ok (px_config m) c' →
  option_list (call_port c') ++ task_ports (px_listeners m') ⊆+
    option_list (call_port c) ++ task_ports (px_listeners m) →
  chosen c' = None ∨ chosen c' = chosen c → fetched c' = fetched c →
  px_config m' = px_config m → px_next_port m' = px_next_port m →
  ports_ok callers (cs1 ++ c' :: cs2) m'.
Proof.
  intros Hok Hany Hs Hch Hf Hcfg Hnx. eapply ports_ok_sub; [exact Hok| | | |done|done|].
  - unfold sockets. rewrite !omap_app, <- !app_assoc. apply submseteq_skips_l.
    assert (Hc : ∀ d k, omap call_port (d :: cs2) ++ k ≡ₚ omap call_port cs2 ++ option_list (call_port d) ++ k).
    { intros d k. cbn. destruct (call_port d); cbn; [|done]. apply Permutation_middle. }
    rewrite !Hc. by apply submseteq_skips_l.
  - rewrite !omap_app. apply submseteq_skips_l. cbn. destruct Hch as [->| ->]; [|done].
    destruct (chosen c); [by apply submseteq_cons|done].
  - rewrite !omap_app. cbn. by rewrite Hf.
  - destruct Hok as [_ _ _ Ha _]. rewrite Hcfg. by eapply Forall_swap.
Qed.

Lemma ports_ok_fetch callers cs1 q n cs2 m min max :
  ports_ok callers (cs1 ++ OFetch q (S n) :: cs2) m → port_range (px_config m) = Some (min, max) →
  (length (omap fetched cs1 ++ omap fetched cs2) < callers)%nat →
  ports_ok callers (cs1 ++ OStore q n (tried_port min max (px_next_port m)) :: cs2)
    (with_next m (wrap16 (px_next_port m + 1))).
Proof.
  intros [Hp Hr Hc Ha Hn] Hcfg Hlen. unfold sockets in *. rewrite !omap_app in *. cbn in *.
  assert (Hin : range_ok callers (px_config m) 0 (tried_port min max (px_next_port m))).
  { intros mn mx Hmm H0 Hu. pose proof (Hn mn mx Hmm H0 Hu) as Hb. rewrite Hcfg in Hmm. injection Hmm as <- <-.
    unfold tried_port. destruct (Z.ltb_spec max (px_next_port m)); lia. }
  split; unfold sockets; rewrite ?omap_app; cbn; try done.
  - rewrite Forall_app, Forall_cons in *. tauto.
  - by eapply Forall_swap.
  - intros mn mx Hmm H0 Hu. pose proof (Hn mn mx Hmm H0 Hu) as Hb. rewrite length_app in *. cbn in *.
    rewrite wrap16_small by lia. lia.
Qed.

Lemma ports_ok_store callers cs1 q n port cs2 m min max :
  ports_ok callers (cs1 ++ OStore q n port :: cs2) m → port_range (px_config m) = Some (min, max) →
  ports_ok callers (cs1 ++ OBind q n port :: cs2) (with_next m (stored_port min max port)).
Proof.
  intros [Hp Hr Hc Ha Hn] Hcfg. unfold sockets in *. rewrite !omap_app in *. cbn in *.
  split; unfold sockets; rewrite ?omap_app; cbn; try done.
  - by eapply Forall_swap.
  - apply Forall_mid in Hc as [Hport _].
    intros mn mx Hmm H0 Hu. specialize (Hport mn mx Hmm H0 Hu). rewrite Hcfg in Hmm. injection Hmm as <- <-.
    unfold stored_port. destruct (Z.leb_spec max port); [lia|]. rewrite wrap16_small by lia. lia.
Qed.

(** The port the system answers with is free. *)
Lemma bind_to_free os ports port p : os_sound ports os → bind_to os port = Some p → p ∉ ports.
Proof.
  intros Hos Hb Hp. destruct (Hos p Hp) as [Hno Hany]. unfold bind_to in Hb.
  destruct (port =? 0)%Z; [destruct (os_any os); congruence|]. destruct (os_bind os port) eqn:E; congruence.
Qed.

Lemma bind_to_range os callers cfg port p :
  range_ok callers cfg 0 port → bind_to os port = Some p → range_ok callers cfg 0 p.
Proof.
  intros Hr Hb mn mx Hmm H0 Hu. specialize (Hr mn mx Hmm H0 Hu). unfold bind_to in Hb.
  destruct (Z.eqb_spec port 0); [lia|]. destruct (os_bind os port); [|done]. by injection Hb as <-.
Qed.

Lemma ports_ok_call callers cs1 c cs2 m (r : R) id env os :
  ports_ok callers (cs1 ++ c :: cs2) m → os_sound (sockets (cs1 ++ c :: cs2) m) os →
  (length (omap fetched (cs1 ++ (ostep r m id env os c).2 :: cs2)) ≤ callers)%nat →
  ports_ok callers (cs1 ++ (ostep r m id env os c).2 :: cs2) (ostep r m id env os c).1.
Proof.
  intros Hok Hos Hlen.
  destruct c as [q|q [|n]|q n port|q n port|q|q port pid|port pid lease|port pid lease|res]; cbn [ostep fst snd] in *.
  - destruct (resolve_addr _ _); [destruct (port_range _) as [[]|] eqn:Hcfg|];
      apply (ports_ok_move _ _ _ _ _ m m Hok); cbn; auto.
  - by apply (ports_ok_move _ _ _ _ _ m m Hok); auto.
  - destruct (port_range (px_config m)) as [[min max]|] eqn:Hcfg; [|done]. cbn [fst snd] in *.
    eapply ports_ok_fetch; [done|done|]. rewrite omap_app, length_app in *. cbn in Hlen. lia.
  - destruct (port_range (px_config m)) as [[min max]|] eqn:Hcfg; [|done]. by apply ports_ok_store.
  - destruct (bind_to os port) as [p|] eqn:Hb.
    + eapply (ports_ok_bind _ _ _ _ _ _ _ _ Hok); [done|done|by eapply bind_to_free|].
      eapply bind_to_range; [|exact Hb]. destruct Hok as [_ _ Hc _ _].
      rewrite omap_app in Hc. by apply Forall_mid in Hc as [].
    + by apply (ports_ok_move _ _ _ _ _ m m Hok); auto.
  - destruct (os_any os) as [p|e] eqn:Hb.
    + eapply (ports_ok_bind _ _ _ _ _ _ _ _ Hok); [done|done| |].
      * intros Hp. by destruct (Hos p Hp).
      * intros mn mx Hmm. destruct Hok as [_ _ _ [Hcfg _]%Forall_mid _]. cbn in Hcfg. congruence.
    + by apply (ports_ok_move _ _ _ _ _ m m Hok); auto.
  - destruct (lg_grant _ _ _ _) as [l' [lease|e]]; apply (ports_ok_move _ _ _ _ _ m _ Hok); cbn; auto.
    by apply submseteq_cons.
  - apply (ports_ok_move _ _ _ _ _ m _ Hok); cbn; auto. apply (task_ports_insert _ _ (Build_Listener port false)).
  - by apply (ports_ok_move _ _ _ _ _ m _ Hok); cbn; auto.
  - done.
Qed.

Lemma ports_ok_step callers P P' :
  pstep callers P P' → ports_ok callers (pr_calls P) (pr_mgr P) → ports_ok callers (pr_calls P') (pr_mgr P').
Proof.
  intros Hs Hok.
  destruct Hs as [m cs cl ea ca ids ls q|m cs1 c cs2 cl ea ca ids ls r id env os _ _ Hos Hlen
    |m cs1 c cs2 cl ea ca ids ls Haw|m cs cl ea ca ids ls id e He|m cs cl ea ca1 l ca2 ids ls
    |m cs cl ea ca ids ls ev|m cs cl ea ca ids ls id t Ht|m cs cl ea ca ids ls id Hid|m cs cl ea ca ids ls l' Hl];
    cbn [pr_calls pr_mgr] in *.
  - eapply ports_ok_sub; [exact Hok|..]; unfold sockets; rewrite ?omap_app, ?app_nil_r; cbn; rewrite ?app_nil_r; try done.
    destruct Hok. apply Forall_app. split; [done|]. by repeat constructor.
  - by apply ports_ok_call.
  - eapply ports_ok_sub; [exact Hok|..]; unfold sockets; rewrite ?omap_app; cbn; try done.
    + rewrite <- !app_assoc. apply submseteq_skips_l. destruct (call_port c); [by apply submseteq_cons|done].
    + apply submseteq_skips_l. destruct (chosen c); [by apply submseteq_cons|done].
    + by destruct c.
    + by destruct Hok as [_ _ _ [_ Ha]%Forall_mid _].
  - eapply ports_ok_sub; [exact Hok|..]; cbn; try done; [|by destruct Hok].
    unfold sockets. cbn. by rewrite task_ports_stop.
  - eapply ports_ok_sub; [exact Hok|..]; cbn; try done. by destruct Hok.
  - unfold handle_reclaimed. destruct (strip_prefix _ _) as [id|]; [|done]. destruct (px_proxies m !! id); [|done].
    eapply ports_ok_sub; [exact Hok|..]; cbn; try done; [|by destruct Hok].
    unfold sockets. cbn. by rewrite task_ports_stop.
  - eapply ports_ok_sub; [exact Hok|..]; cbn; try done; [|by destruct Hok].
    unfold sockets. cbn. apply submseteq_skips_l, task_ports_delete.
  - eapply ports_ok_sub; [exact Hok|..]; cbn; try done. by destruct Hok.
  - eapply ports_ok_sub; [exact Hok|..]; cbn; try done. by destruct Hok.
Qed.

(** *** Leases *)

(** The lease [l] is that of proxy [id], in the table or about to be. *)
Definition claimed (cs : list OpenCall) m (id l : string) : Prop :=
  (∃ c, c ∈ cs ∧ call_lease c = Some (id, l)) ∨ (∃ e, px_proxies m !! id = Some e ∧ pe_lease_id e = l).

Definition leases_ok (ls : gset string) (cs : list OpenCall) m : Prop :=
  ∀ id l, claimed cs m id l → l ∈ ls ∧
    ∀ r, lg_leases (px_leasing m) !! l = Some r → lr_resource_id r = PROXY_RESOURCE_PREFIX +:+ id.

Lemma evolve_refl ls l : leases_evolve ls l l.
Proof. intros id r _ Hr. eauto. Qed.

Lemma leases_ok_sub ls cs m ls' cs' m' :
  leases_ok ls cs m → ls ⊆ ls' → leases_evolve ls (px_leasing m) (px_leasing m') →
  (∀ id l, claimed cs' m' id l → claimed cs m id l) → leases_ok ls' cs' m'.
Proof.
  intros Hok Hls Hev Hc id l Hcl. destruct (Hok id l (Hc _ _ Hcl)) as [Hl Hr]. split; [set_solver|].
  intros r' Hr'. destruct (Hev l r' Hl Hr') as (r & Hr0 & ->). by apply Hr.
Qed.

Lemma claimed_delete cs m m' id0 :
  px_proxies m' = delete id0 (px_proxies m) → ∀ id l, claimed cs m' id l → claimed cs m id l.
Proof.
  intros Hp id l [Hc|(e & He & Hl)]; [by left|]. rewrite Hp, lookup_delete_Some in He. right. naive_solver.
Qed.

(** A call whose lease, if it has one now, is one it had. *)
Lemma claimed_swap cs1 c cs2 c' m m' :
  (call_lease c' = None ∨ call_lease c' = call_lease c) → px_proxies m' = px_proxies m →
  ∀ id l, claimed (cs1 ++ c' :: cs2) m' id l → claimed (cs1 ++ c :: cs2) m id l.
Proof.
  intros Hl Hp id l [(d & Hd & Hdl)|He]; [|right; by rewrite <- Hp]. left.
  rewrite elem_of_app, elem_of_cons in Hd. destruct Hd as [Hd|[->|Hd]].
  - exists d. set_solver.
  - exists c. split; [set_solver|]. destruct Hl; congruence.
  - exists d. set_solver.
Qed.

Lemma leases_ok_call ls cs1 c cs2 m (r : R) id env os :
  leases_ok ls (cs1 ++ c :: cs2) m → uuid env ∉ ls →
  leases_ok ({[uuid env]} ∪ ls) (cs1 ++ (ostep r m id env os c).2 :: cs2) (ostep r m id env os c).1.
Proof.
  intros Hok Hfresh.
  assert (Hquiet : ∀ c' m', (call_lease c' = None ∨ call_lease c' = call_lease c) →
    px_proxies m' = px_proxies m → px_leasing m' = px_leasing m →
    leases_ok ({[uuid env]} ∪ ls) (cs1 ++ c' :: cs2) m').
  { intros c' m' Hc Hp Hl. eapply leases_ok_sub; [exact Hok|set_solver|rewrite Hl; apply evolve_refl|].
    by apply claimed_swap. }
  destruct c as [q|q [|n]|q n port|q n port|q|q port pid|port pid lease|port pid lease|res]; cbn [ostep fst snd] in *;
    try (repeat case_match; apply Hquiet; by auto).
  - (* the grant *)
    pose proof (lg_grant_law (px_leasing m) env (PROXY_RESOURCE_PREFIX +:+ pid) (ak_ttl q)) as Hg.
    destruct (lg_grant _ _ _ _) as [l' [lease|e]]; cbn [fst snd].
    + destruct Hg as (Hid & Hres & Hl').
      assert (Hev : leases_evolve ls (px_leasing m) l').
      { intros k r' Hk Hr'. rewrite Hl', lookup_insert_ne in Hr' by (intros <-; done). eauto. }
      intros id' l Hcl. destruct (decide ((id', l) = (pid, uuid env))) as [[= -> ->]|Hne].
      { split; [set_solver|]. cbn. rewrite Hl', lookup_insert_eq. by intros r' [= <-]. }
      eapply (leases_ok_sub ls (cs1 ++ ODone (Err PPortRangeExhausted) :: cs2) (with_leasing m l'));
        [|set_solver|apply evolve_refl|done|].
      * eapply leases_ok_sub; [exact Hok|done|done|]. apply claimed_swap; auto.
      * destruct Hcl as [(d & Hd & Hdl)|He]; [|by right]. left. exists d. split; [|done].
        rewrite elem_of_app, elem_of_cons in *. destruct Hd as [?|[->|?]]; auto. cbn in Hdl. congruence.
    + eapply leases_ok_sub; [exact Hok|set_solver| |apply claimed_swap; auto].
      intros k r' _ Hr'. cbn in *. rewrite Hg in Hr'. eauto.
  - (* the entry *)
    eapply leases_ok_sub; [exact Hok|set_solver|apply evolve_refl|]. intros id' l [(d & Hd & Hdl)|(e & He & Hl)].
    + left. exists d. split; [|done]. rewrite elem_of_app, elem_of_cons in *. destruct Hd as [?|[->|?]]; auto. done.
    + cbn in He. rewrite lookup_insert_Some in He. destruct He as [[<- <-]|[_ He]]; [|right; eauto].
      left. exists (OInsert port pid lease). split; [set_solver|]. cbn in *. by subst.
Qed.

Lemma leases_ok_step callers P P' :
  pstep callers P P' → leases_ok (pr_leases P) (pr_calls P) (pr_mgr P) →
  leases_ok (pr_leases P') (pr_calls P') (pr_mgr P').
Proof.
  intros Hs Hok.
  destruct Hs as [m cs cl ea ca ids ls q|m cs1 c cs2 cl ea ca ids ls r id env os _ Hf _ _
    |m cs1 c cs2 cl ea ca ids ls Haw|m cs cl ea ca ids ls id e He|m cs cl ea ca1 l ca2 ids ls
    |m cs cl ea ca ids ls ev|m cs cl ea ca ids ls id t Ht|m cs cl ea ca ids ls id Hid|m cs cl ea ca ids ls l' Hl];
    cbn [pr_calls pr_mgr pr_leases] in *.
  - eapply leases_ok_sub; [exact Hok|done|apply evolve_refl|]. intros id l [(d & Hd & Hdl)|He]; [|by right].
    apply elem_of_app in Hd as [Hd|Hd%list_elem_of_singleton]; [left; eauto|by subst].
  - by apply leases_ok_call.
  - eapply leases_ok_sub; [exact Hok|done|apply evolve_refl|]. intros id l [(d & Hd & Hdl)|He]; [|by right].
    left. exists d. set_solver.
  - eapply leases_ok_sub; [exact Hok|done|apply evolve_refl|by eapply claimed_delete].
  - eapply leases_ok_sub; [exact Hok|done| |done]. pose proof (lg_cancel_law (px_leasing m) l) as Hc.
    cbn. destruct (lg_cancel _ _) as [l' res]. destruct Hc as [_ Hc]. intros k r' _ Hr'. cbn in Hr'.
    rewrite Hc, lookup_delete_Some in Hr'. destruct Hr'. eauto.
  - unfold handle_reclaimed. destruct (strip_prefix _ _) as [id|]; [|done]. destruct (px_proxies m !! id); [|done].
    eapply leases_ok_sub; [exact Hok|done|apply evolve_refl|by eapply claimed_delete].
  - eapply leases_ok_sub; [exact Hok|done|apply evolve_refl|done].
  - eapply leases_ok_sub; [exact Hok|done|apply evolve_refl|by eapply claimed_delete].
  - eapply leases_ok_sub; [exact Hok|done|exact Hl|done].
Qed.

(** *** Entries and tasks *)

Record ids_ok (ids : gset string) (cs : list OpenCall) (vw : string → View) : Prop := {
  io_calls : Forall (call_ok vw) cs;
  io_views : ∀ id, view_ok (existsb (inserts id) cs) (vw id);
  io_ids : NoDup (omap call_id cs);
  io_drawn : ∀ id, id ∉ ids → vw id = no_view ∧ id ∉ omap call_id cs
}.

(** A call is judged by what there is of its own proxy. *)
Lemma call_ok_ext vw vw' c :
  (∀ id, call_id c = Some id → vw' id = vw id) → call_ok vw c → call_ok vw' c.
Proof. intros Heq. destruct c; cbn in *; try done; by rewrite Heq. Qed.

Lemma inserts_id id c : inserts id c = true → call_id c = Some id.
Proof. destruct c; cbn; try done. intros ->%bool_decide_eq_true_1. done. Qed.

Lemma inserts_call_id id cs : existsb (inserts id) cs = true → id ∈ omap call_id cs.
Proof.
  rewrite existsb_exists. intros (c & Hc & Hi). apply list_elem_of_omap. exists c.
  split; [by apply list_elem_of_In|by apply inserts_id].
Qed.

(** Calls change, but not what there is of proxies. *)
Lemma ids_ok_calls ids cs vw ids' cs' vw' :
  ids_ok ids cs vw → (∀ id, vw' id = vw id) → ids ⊆ ids' → Forall (call_ok vw) cs' →
  (∀ id, existsb (inserts id) cs' = existsb (inserts id) cs) →
  omap call_id cs' ⊆+ omap call_id cs → ids_ok ids' cs' vw'.
Proof.
  intros [Hc Hv Hn Hd] Hvw Hids Hcs Hins Hsub. split.
  - eapply Forall_impl; [exact Hcs|]. intros c. apply call_ok_ext. auto.
  - intros id. rewrite Hvw, Hins. apply Hv.
  - by eapply NoDup_sub.
  - intros id Hid. rewrite Hvw. destruct (Hd id) as [Hno Hni]; [set_solver|]. split; [done|].
    intros Hin. eapply Hni, elem_of_submseteq; eauto.
Qed.

(** What there is of one proxy changes. *)
Lemma ids_ok_at ids cs vw vw' id :
  ids_ok ids cs vw → (∀ j, j ≠ id → vw' j = vw j) → vw id ≠ no_view →
  view_ok (existsb (inserts id) cs) (vw' id) →
  (∀ c, c ∈ cs → call_id c = Some id → call_ok vw c → call_ok vw' c) → ids_ok ids cs vw'.
Proof.
  intros [Hc Hv Hn Hd] Hvw Hne Hok Hcs. split; [| |done|].
  - rewrite Forall_forall in *. intros c Hin. destruct (decide (call_id c = Some id)) as [E|E]; [by auto|].
    apply (call_ok_ext vw); [|by auto]. intros j Hj. apply Hvw. congruence.
  - intros j. destruct (decide (j = id)) as [->|Hj]; [done|]. rewrite Hvw by done. apply Hv.
  - intros j Hj. destruct (Hd j Hj) as [Hno Hni]. split; [|done]. rewrite Hvw; [done|]. by intros ->.
Qed.

(** A call goes on, and what there is of its proxy changes. *)
Lemma ids_ok_move ids cs1 c cs2 c' vw vw' id ids' :
  ids_ok ids (cs1 ++ c :: cs2) vw → call_id c = Some id → (call_id c' = Some id ∨ call_id c' = None) →
  (∀ j, j ≠ id → vw' j = vw j) → ids ⊆ ids' → call_ok vw' c' → view_ok (inserts id c') (vw' id) →
  ids_ok ids' (cs1 ++ c' :: cs2) vw'.
Proof.
  intros [Hc Hv Hn Hd] Hid Hid' Hvw Hids Hc' Hok.
  rewrite omap_app in *. cbn in *. rewrite Hid in *.
  assert (Hoth : id ∉ omap call_id cs1 ++ omap call_id cs2).
  { rewrite <- Permutation_middle in Hn. by inversion Hn. }
  apply Forall_mid in Hc as [_ Hc]. assert (Hce : ∀ d, d ∈ cs1 ++ cs2 → call_id d ≠ Some id).
  { intros d Hin E. apply Hoth. rewrite <- omap_app. apply list_elem_of_omap. eauto. }
  assert (Hins : ∀ j d, existsb (inserts j) (cs1 ++ d :: cs2) = existsb (inserts j) (cs1 ++ cs2) || inserts j d).
  { intros j d. rewrite !existsb_app. cbn. destruct (inserts j d); by rewrite ?orb_true_r, ?orb_false_r. }
  assert (Hnone : ∀ j d, call_id d = Some id ∨ call_id d = None → j ≠ id → inserts j d = false).
  { intros j d Hd' Hj. destruct (inserts j d) eqn:E; [|done]. apply inserts_id in E. destruct Hd'; congruence. }
  split.
  - rewrite Forall_app in *. rewrite Forall_cons. rewrite !Forall_forall in *.
    destruct Hc as [Hc1 Hc2]. split_and!; [|done|]; intros d Hin; (apply (call_ok_ext vw); [|by auto]);
      intros j Hj; apply Hvw; intros ->; apply (Hce d); set_solver.
  - intros j. rewrite Hins. destruct (decide (j = id)) as [->|Hj].
    + destruct (existsb (inserts id) (cs1 ++ cs2)) eqn:E; [|done].
      apply inserts_call_id in E. rewrite omap_app in E. done.
    + rewrite Hvw, Hnone by done. specialize (Hv j). by rewrite Hins, Hnone in Hv by auto.
  - rewrite omap_app. cbn. destruct Hid' as [->| ->]; [done|]. rewrite <- Permutation_middle in Hn. by inversion Hn.
  - intros j Hj. destruct (Hd j) as [Hno Hni]; [set_solver|]. rewrite omap_app. cbn.
    rewrite Hvw by set_solver. split; [done|]. destruct Hid' as [->| ->]; set_solver.
Qed.

(** A call draws an id. *)
Lemma ids_ok_draw ids cs1 c cs2 vw id q port :
  ids_ok ids (cs1 ++ c :: cs2) vw → call_id c = None → id ∉ ids →
  ids_ok ({[id]} ∪ ids) (cs1 ++ OGrant q port id :: cs2) vw.
Proof.
  intros [Hc Hv Hn Hd] Hid Hnew. destruct (Hd id Hnew) as [Hno Hni].
  rewrite omap_app in *. cbn in *. rewrite Hid in *. split.
  - by eapply Forall_swap.
  - intros j. specialize (Hv j). rewrite existsb_app in *. cbn in *.
    destruct (inserts j c) eqn:E; [|done]. apply inserts_id in E. congruence.
  - rewrite omap_app. cbn. rewrite <- Permutation_middle. by constructor.
  - intros j Hj. destruct (Hd j) as [Hno' Hni']; [set_solver|]. split; [done|].
    rewrite omap_app. cbn. set_solver.
Qed.

Lemma ids_ok_call ids cs1 c cs2 m cl ea (r : R) id env os :
  ids_ok ids (cs1 ++ c :: cs2) (view m cl ea) → id ∉ ids →
  ids_ok ({[id]} ∪ ids) (cs1 ++ (ostep r m id env os c).2 :: cs2) (view (ostep r m id env os c).1 cl ea).
Proof.
  intros Hok Hnew.
  assert (Hquiet : ∀ c' m', call_id c = None → call_id c' = None →
    (∀ j, view m' cl ea j = view m cl ea j) → ids_ok ({[id]} ∪ ids) (cs1 ++ c' :: cs2) (view m' cl ea)).
  { intros c' m' Hc Hc' Hvw. assert (Hno : ∀ j d, call_id d = None → inserts j d = false).
    { intros j d Hd. destruct (inserts j d) eqn:E; [|done]. apply inserts_id in E. congruence. }
    eapply ids_ok_calls; [exact Hok|done|set_solver| | |].
    - eapply Forall_swap; [by destruct Hok|]. by destruct c'.
    - intros j. rewrite !existsb_app. cbn. by rewrite !Hno.
    - rewrite !omap_app. cbn. by rewrite Hc, Hc'. }
  pose proof (Forall_mid _ _ _ _ (io_calls _ _ _ Hok)) as [Hme _].
  destruct c as [q|q [|n]|q n port|q n port|q|q port pid|port pid lease|port pid lease|res]; cbn [ostep fst snd] in *;
    try (repeat case_match; first [by apply Hquiet | by eapply ids_ok_draw]).
  - destruct (lg_grant _ _ _ _) as [l' [lease|e]]; cbn [fst snd];
      (eapply (ids_ok_move _ _ _ _ _ _ _ pid); [exact Hok|done|by auto|done|set_solver|done|]);
      change (view (with_leasing m l') cl ea pid) with (view m cl ea pid); cbn [call_ok] in Hme; rewrite Hme;
      (split; [by intros []|by intros (? & ? & _)|done|done]).
  - cbn in Hme. unfold view, no_view in Hme. injection Hme as He Hl Hcl Hea.
    eapply (ids_ok_move _ _ _ _ _ _ _ pid); [exact Hok|done|by auto| |set_solver| |].
    + intros j Hj. unfold view. cbn. by rewrite lookup_insert_ne.
    + cbn. split; [done|]. left. eexists. cbn. by rewrite lookup_insert_eq.
    + split; cbn; rewrite ?He, ?Hcl, ?Hea; try done. right. by apply bool_decide_eq_true_2.
  - cbn in Hme. destruct Hme as [He Hup]. pose proof (io_views _ _ _ Hok pid) as Hv.
    eapply (ids_ok_move _ _ _ _ _ _ _ pid); [exact Hok|done|by auto| |set_solver|done|].
    + intros j Hj. unfold view. cbn. by rewrite lookup_insert_ne.
    + destruct Hv as [_ _ Hc Hea]. split; [done| |done|done]. cbn. rewrite lookup_insert_eq. eauto.
Qed.

(** An entry goes and its listener is told to stop. *)
Lemma ids_ok_shut ids cs m cl ea id e :
  ids_ok ids cs (view m cl ea) → px_proxies m !! id = Some e → ids_ok ids cs (view (shut m id) cl ea).
Proof.
  intros Hok He. pose proof (io_views _ _ _ Hok id) as [_ _ Hc Hea].
  assert (Hstop : px_listeners (shut m id) !! id =
    (λ t, {| ln_port := ln_port t; ln_stopped := true |}) <$> px_listeners m !! id) by apply lookup_alter_eq.
  apply (ids_ok_at _ _ _ _ id Hok).
  - intros j Hj. unfold view. cbn. by rewrite lookup_delete_ne, lookup_alter_ne.
  - unfold view, no_view. rewrite He. congruence.
  - cbn in Hc, Hea. split; cbn [vw_entry vw_task vw_closing vw_early view]; rewrite ?Hstop.
    + cbn. rewrite lookup_delete_eq. by intros [].
    + intros (t & Ht & Hs). cbn in Ht. change (alter _ id (px_listeners m) !! id) with (px_listeners (shut m id) !! id) in Ht.
      rewrite Hstop in Ht. destruct (px_listeners m !! id); [|done]. injection Ht as <-. done.
    + intros Hcl. by rewrite (Hc Hcl).
    + intros He'. destruct (Hea He') as [-> ?]. done.
  - intros c _ Hid Hc'. destruct c; cbn in *; try done; injection Hid as ->.
    + unfold view, no_view in Hc'. congruence.
    + unfold view, no_view in Hc'. congruence.
    + destruct Hc'. congruence.
Qed.

Lemma ids_ok_ends ids cs m cl ea id t :
  ids_ok ids cs (view m cl ea) → px_listeners m !! id = Some t →
  ids_ok ids cs (view (listener_dropped m id) ({[id]} ∪ cl) ea).
Proof.
  intros Hok Ht. pose proof (io_views _ _ _ Hok id) as [_ _ _ Hea]. cbn in Hea.
  assert (Hcl : bool_decide (id ∈ {[id]} ∪ cl) = true) by (apply bool_decide_eq_true_2; set_solver).
  apply (ids_ok_at _ _ _ _ id Hok).
  - intros j Hj. unfold view. cbn. rewrite lookup_delete_ne by done. f_equal. apply bool_decide_ext. set_solver.
  - unfold view, no_view. rewrite Ht. congruence.
  - split; cbn; rewrite ?lookup_delete_eq, ?Hcl; try done.
    + intros _. right. left. done.
    + intros (t' & Ht' & _). cbn in Ht'. by rewrite lookup_delete_eq in Ht'.
    + intros He. destruct (Hea He). congruence.
  - intros c _ Hid Hc. destruct c; cbn in *; try done; injection Hid as ->.
    + unfold view, no_view in Hc. congruence.
    + unfold view, no_view in Hc. congruence.
    + destruct Hc as [He _]. split; [done|]. right. left. done.
Qed.

Lemma ids_ok_gone ids cs m cl ea id :
  ids_ok ids cs (view m cl ea) → id ∈ cl →
  ids_ok ids cs (view (entry_removed m id) (cl ∖ {[id]})
    (if existsb (inserts id) cs then {[id]} ∪ ea else ea)).
Proof.
  intros Hok Hin. pose proof (io_views _ _ _ Hok id) as [_ _ Hcl _]. cbn in Hcl.
  rewrite bool_decide_eq_true_2 in Hcl by done. specialize (Hcl eq_refl).
  assert (Hno : bool_decide (id ∈ cl ∖ {[id]}) = false) by (apply bool_decide_eq_false_2; set_solver).
  apply (ids_ok_at _ _ _ _ id Hok).
  - intros j Hj. unfold view. cbn. rewrite lookup_delete_ne by done. f_equal; apply bool_decide_ext; [set_solver|].
    destruct (existsb _ cs); set_solver.
  - unfold view, no_view. rewrite (bool_decide_eq_true_2 (id ∈ cl)) by done. congruence.
  - split; cbn; rewrite ?lookup_delete_eq, ?Hno, ?Hcl; try done.
    + intros (t & Ht & _). cbn in Ht. congruence.
  - intros c Hc Hid Hok'. destruct c; cbn in *; try done; injection Hid as ->.
    + unfold view, no_view in Hok'. rewrite (bool_decide_eq_true_2 (id ∈ cl)) in Hok' by done. congruence.
    + unfold view, no_view in Hok'. rewrite (bool_decide_eq_true_2 (id ∈ cl)) in Hok' by done. congruence.
    + rewrite lookup_delete_eq. split; [done|]. right. right. cbn. apply bool_decide_eq_true_2.
      replace (existsb (inserts id) cs) with true; [set_solver|]. symmetry. apply existsb_exists.
      eexists. split; [by apply list_elem_of_In|]. cbn. by apply bool_decide_eq_true_2.
Qed.

Lemma ids_ok_step callers P P' :
  pstep callers P P' →
  ids_ok (pr_ids P) (pr_calls P) (view (pr_mgr P) (pr_closing P) (pr_early P)) →
  ids_ok (pr_ids P') (pr_calls P') (view (pr_mgr P') (pr_closing P') (pr_early P')).
Proof.
  intros Hs Hok.
  destruct Hs as [m cs cl ea ca ids ls q|m cs1 c cs2 cl ea ca ids ls r id env os Hf _ _ _
    |m cs1 c cs2 cl ea ca ids ls Haw|m cs cl ea ca ids ls id e He|m cs cl ea ca1 l ca2 ids ls
    |m cs cl ea ca ids ls ev|m cs cl ea ca ids ls id t Ht|m cs cl ea ca ids ls id Hid|m cs cl ea ca ids ls l' Hl];
    cbn [pr_calls pr_mgr pr_ids pr_closing pr_early] in *.
  - eapply ids_ok_calls; [exact Hok|done|done|..].
    + destruct Hok. apply Forall_app. split; [done|]. by repeat constructor.
    + intros id. rewrite existsb_app. cbn. by rewrite orb_false_r.
    + rewrite omap_app. cbn. by rewrite app_nil_r.
  - by apply ids_ok_call.
  - eapply ids_ok_calls; [exact Hok|done|done|..].
    + destruct Hok as [Hc _ _ _]. by apply Forall_mid in Hc as [_ ?].
    + intros id. rewrite !existsb_app. cbn. by destruct c.
    + rewrite !omap_app. cbn. apply submseteq_skips_l. destruct (call_id c); [by apply submseteq_cons|done].
  - by eapply ids_ok_shut.
  - done.
  - unfold handle_reclaimed. destruct (strip_prefix _ _) as [id|]; [|done].
    destruct (px_proxies m !! id) eqn:He; [|done]. by eapply ids_ok_shut.
  - by eapply ids_ok_ends.
  - by apply ids_ok_gone.
  - done.
Qed.

(** *** All executions *)

Record pool_ok (callers : nat) (P : Pool) : Prop := {
  po_ids : ids_ok (pr_ids P) (pr_calls P) (view (pr_mgr P) (pr_closing P) (pr_early P));
  po_sockets : ports_ok callers (pr_calls P) (pr_mgr P);
  po_leases : leases_ok (pr_leases P) (pr_calls P) (pr_mgr P)
}.

Lemma pool_ok_init callers config leasing :
  pool_ok callers (mkPool (proxy_new config leasing) [] ∅ ∅ [] ∅ ∅).
Proof.
  split; cbn.
  - split; cbn; [constructor| |constructor|].
    + intros id. split; cbn; rewrite ?lookup_empty; try done. intros (t & Ht & _). cbn in Ht.
      by rewrite lookup_empty in Ht.
    + intros id _. split; [|apply not_elem_of_nil]. unfold view, no_view. cbn. by rewrite !lookup_empty.
  - split; cbn; unfold sockets, task_ports; cbn; rewrite ?fmap_empty, ?map_to_list_empty; cbn;
      [constructor..|]. intros min max Hcfg H0 Hu. rewrite Hcfg. lia.
  - intros id l [(c & Hc & _)|(e & He & _)]; [by apply elem_of_nil in Hc|]. cbn in He. by rewrite lookup_empty in He.
Qed.

Lemma preach_ok callers P : preach callers P → pool_ok callers P.
Proof.
  induction 1 as [config leasing|P P' _ [Hi Hp Hl] Hs]; [apply pool_ok_init|].
  split; eauto using ids_ok_step, ports_ok_step, leases_ok_step.
Qed.

(** What holds of the table, the tasks and the sockets. *)
Record table_ok (callers : nat) (P : Pool) : Prop := {
  tk_entry : ∀ id e, px_proxies (pr_mgr P) !! id = Some e →
    match px_listeners (pr_mgr P) !! id with
    | Some t => ln_stopped t = false
    | None => id ∈ pr_closing P ∨ id ∈ pr_early P
    end;
  tk_listed : ∀ id t, px_listeners (pr_mgr P) !! id = Some t → ln_stopped t = false →
    is_Some (px_proxies (pr_mgr P) !! id) ∨ ∃ port lease, OInsert port id lease ∈ pr_calls P;
  tk_ports : NoDup (sockets (pr_calls P) (pr_mgr P));
  tk_range : ∀ min max p, port_range (px_config (pr_mgr P)) = Some (min, max) → (0 < min ≤ max)%Z →
    (max + Z.of_nat callers ≤ u16_max)%Z → p ∈ sockets (pr_calls P) (pr_mgr P) → (min ≤ p ≤ max)%Z;
  tk_lease : ∀ id e rec, px_proxies (pr_mgr P) !! id = Some e →
    lg_leases (px_leasing (pr_mgr P)) !! pe_lease_id e = Some rec →
    lr_resource_id rec = PROXY_RESOURCE_PREFIX +:+ id
}.

Lemma pool_ok_table callers P : pool_ok callers P → table_ok callers P.
Proof.
  intros [Hi Hp Hl]. split.
  - intros id e He. pose proof (io_views _ _ _ Hi id) as [Hen _ Hcl Hea]. cbn in *.
    destruct (Hen ltac:(rewrite He; eauto)) as [(t & Ht & Hs)|[Hc|Hc]]; cbn in *.
    + by rewrite Ht.
    + rewrite (Hcl Hc). left. by apply bool_decide_eq_true_1 in Hc.
    + destruct (Hea Hc) as [-> _]. right. by apply bool_decide_eq_true_1 in Hc.
  - intros id t Ht Hs. pose proof (io_views _ _ _ Hi id) as [_ Hr _ _]. cbn in *.
    destruct Hr as [Hen|Hin]; [by exists t|by left|]. right. apply existsb_exists in Hin as (c & Hc & Hi').
    apply list_elem_of_In in Hc. destruct c as [| | | | | | |port pid lease|]; try done. cbn in Hi'.
    apply bool_decide_eq_true_1 in Hi' as ->. eauto.
  - apply Hp.
  - intros min max p Hcfg H0 Hu Hin. destruct Hp as [_ Hr _ _ _]. rewrite Forall_forall in Hr.
    specialize (Hr p Hin min max Hcfg H0 Hu). lia.
  - intros id e rec He Hr. destruct (Hl id (pe_lease_id e)) as [_ Hn]; [right; eauto|]. auto.
Qed.

(** C31: Whatever opens, releases, reclaims, ending tasks, dropped calls and lease
    operations do between each other's steps: an entry of the table has a listener
    that was not told to stop, unless its task is just ending, or was over before
    the entry was written; a listener that runs and was not told to stop has its
    entry, or an [open] about to write it; no two sockets share a port; with a
    range that does not start at 0 and ends at least as far below 65535 as there
    are calls between the two operations on the port counter, every socket is in
    the range; and the lease of an entry names that proxy and no other.  An [open]
    nobody interferes with is [Proxy.open]. *)
Theorem proxy_table_invariant callers P :
  preach callers P →
  table_ok callers P ∧
  ∀ (r : R) id env os q,
    let out := open r (pr_mgr P) id env os (ak_template q) (ak_ttl q) in
    rtc (alone r id env os) (pr_mgr P, OResolve q) (out.1, ODone out.2).
Proof.
  intros HP. split; [by apply pool_ok_table, preach_ok|]. intros. apply open_alone.
Qed.

(** When the lease of a proxy in the table is reclaimed, the cascade takes that
    entry out and stops its listener, and no other; a second delivery does
    nothing. *)
Theorem reclaim_closes_proxy callers P id e rec reason :
  preach callers P → px_proxies (pr_mgr P) !! id = Some e →
  lg_leases (px_leasing (pr_mgr P)) !! pe_lease_id e = Some rec →
  let ev := {| rc_record := rec; rc_reason := reason |} in
  let m' := handle_reclaimed (pr_mgr P) ev in
  px_proxies m' = delete id (px_proxies (pr_mgr P)) ∧
  (∀ t, px_listeners m' !! id = Some t → ln_stopped t = true) ∧
  (∀ id', id' ≠ id → px_listeners m' !! id' = px_listeners (pr_mgr P) !! id') ∧
  handle_reclaimed m' ev = m'.
Proof.
  intros HP He Hrec. apply preach_ok, pool_ok_table in HP. cbv zeta. unfold handle_reclaimed. cbn [rc_record].
  rewrite (tk_lease _ _ HP _ _ _ He Hrec), strip_prefix_app, He. cbn [shut px_proxies px_listeners].
  rewrite lookup_delete_eq. split; [done|]. split; [|split; [|done]].
  - intros t. rewrite lookup_alter_eq. destruct (px_listeners (pr_mgr P) !! id); [|done]. by intros [= <-].
  - intros id' Hne. by rewrite lookup_alter_ne.
Qed.

(** One call among no others. *)
Lemma preach_call callers m c cl ea ca ids ls (r : R) id env os :
  preach callers (mkPool m [c] cl ea ca ids ls) → id ∉ ids → uuid env ∉ ls → os_sound (sockets [c] m) os →
  (length (omap fetched [(ostep r m id env os c).2]) ≤ callers)%nat →
  preach callers (mkPool (ostep r m id env os c).1 [(ostep r m id env os c).2] cl ea ca
    ({[id]} ∪ ids) ({[uuid env]} ∪ ls)).
Proof.
  intros HP Hid Hls Hos Hlen. eapply PStep; [exact HP|]. by apply (PCall callers m [] c [] cl ea ca ids ls r id env os).
Qed.
End race.

(** ** Concrete executions *)
Section samples.
#[local] Existing Instance chrono_sample.
#[local] Existing Instance canonical_iter.

(** A resolver that always finds the same service. *)
#[local] Instance fixed_resolver : CapabilityResolver unit := {|
  cr_resolve := λ _ _, Ok (Some (mkEntry "c" "l" "Svc" ∅
    (Some {| tc_type := "tcp"; tc_config := {["host" := "h"; "port" := "1"]} |})))
|}.

Abbreviation LocalProxy := (ProxyManager (LeaseManager InMemoryLeaseStore)).
Abbreviation LocalPool := (Pool (L := LeaseManager InMemoryLeaseStore)).

Definition sample_proxy (range : option (Z * Z)) : LocalProxy :=
  proxy_new {| bind_host := "0.0.0.0"; port_range := range |}
    {| lm_store := LeaseStore.new; lm_config := LeaseConfig_default; lm_expiry_tx := [] |}.

Definition free_os : Os := {| os_bind := λ _, true; os_any := Ok 40001%Z |}.
Definition busy_os : Os := {| os_bind := λ _, false; os_any := Err "in use" |}.
Definition drawing (lease : string) : Env := {| now := 0; now2 := 1; uuid := lease |}.
Definition sample_ask : Ask := {| ak_template := ∅; ak_ttl := 60 |}.

(** The steps of the only call, each with the ids it would draw. *)
Definition solo (P : LocalPool) (x : string * Os) : LocalPool :=
  match pr_calls P with
  | [c] =>
      let out := ostep () (pr_mgr P) ("p" +:+ x.1) (drawing ("l" +:+ x.1)) x.2 c in
      mkPool out.1 [out.2] (pr_closing P) (pr_early P) (pr_cancels P)
        ({["p" +:+ x.1]} ∪ pr_ids P) ({["l" +:+ x.1]} ∪ pr_leases P)
  | _ => P
  end.

Definition solo_ok (P : LocalPool) (x : string * Os) : Prop :=
  "p" +:+ x.1 ∉ pr_ids P ∧ "l" +:+ x.1 ∉ pr_leases P ∧
  (x.2 = busy_os ∨ sockets (pr_calls P) (pr_mgr P) = []).

Lemma solo_reach P x : preach (R := unit) 1 P → solo_ok P x → preach (R := unit) 1 (solo P x).
Proof.
  intros HP (Hi & Hl & Hos). unfold solo. destruct P as [m cs cl ea ca ids ls].
  cbn [pr_calls pr_mgr pr_closing pr_early pr_cancels pr_ids pr_leases] in *.
  destruct cs as [|c [|]]; [done| |done]. apply preach_call; [done|done|done| |].
  - destruct Hos as [->|Hos]; intros p Hp; [done|]. rewrite Hos in Hp. by apply elem_of_nil in Hp.
  - cbn. destruct (fetched _); cbn; lia.
Qed.

Ltac solo_steps :=
  repeat (apply solo_reach;
    [|split_and!; [vm_compute; by inversion 1..|first [by left|right; vm_compute; reflexivity]]]).

Definition first_open (range : option (Z * Z)) : LocalPool :=
  mkPool (sample_proxy range) [OResolve sample_ask] ∅ ∅ [] ∅ ∅.

Lemma first_open_reach range : preach (R := unit) 1 (first_open range).
Proof. eapply PStep; [apply PInit|]. apply (PArrive 1 _ []). Qed.

(** An [open] with the range 9100 to 9101 that runs to its end. *)
Definition opened : LocalPool :=
  foldl solo (first_open (Some (9100, 9101)%Z))
    [("1", free_os); ("2", free_os); ("3", free_os); ("4", free_os); ("5", busy_os); ("6", busy_os); ("7", busy_os)].

Lemma opened_reach : preach (R := unit) 1 opened.
Proof.
  unfold opened. cbn [foldl]. solo_steps. apply first_open_reach.
Qed.

Theorem proxy_table_invariant_witness :
  px_proxies (pr_mgr opened) !! "p4" = Some {| pe_lease_id := "l5" |} ∧
  sockets (pr_calls opened) (pr_mgr opened) = [9100%Z] ∧ table_ok 1 opened.
Proof.
  split; [vm_compute; reflexivity|]. split; [vm_compute; reflexivity|].
  exact (proj1 (proxy_table_invariant 1 opened opened_reach)).
Defined.

(** An [open] that has spawned its task and is about to write its entry. *)
Definition spawned : LocalPool :=
  foldl solo (first_open None) [("1", free_os); ("2", free_os); ("3", busy_os); ("4", busy_os)].

Lemma spawned_reach : preach (R := unit) 1 spawned.
Proof. unfold spawned. cbn [foldl]. solo_steps. apply first_open_reach. Qed.

(** A task ends and is over. *)
Definition task_over (P : LocalPool) (id : string) : LocalPool :=
  mkPool (entry_removed (listener_dropped (pr_mgr P) id) id) (pr_calls P)
    (({[id]} ∪ pr_closing P) ∖ {[id]})
    (if existsb (inserts id) (pr_calls P) then {[id]} ∪ pr_early P else pr_early P)
    (pr_cancels P) (pr_ids P) (pr_leases P).

Lemma task_over_reach P id t :
  preach (R := unit) 1 P → px_listeners (pr_mgr P) !! id = Some t → preach (R := unit) 1 (task_over P id).
Proof.
  intros HP Ht. destruct P as [m cs cl ea ca ids ls]. cbn in *. eapply PStep; [|apply PTaskGone; set_solver].
  eapply PStep; [exact HP|]. by eapply PTaskEnds.
Qed.

(** A lease expires and the cascade hears of it. *)
Definition lease_over (P : LocalPool) (lease : LeaseRecord) : LocalPool :=
  mkPool (handle_reclaimed (with_leasing (pr_mgr P) (lg_cancel (px_leasing (pr_mgr P)) (lr_lease_id lease)).1)
            {| rc_record := lease; rc_reason := Expired |})
    (pr_calls P) (pr_closing P) (pr_early P) (pr_cancels P) (pr_ids P) (pr_leases P).

Lemma lease_over_reach P lease : preach (R := unit) 1 P → preach (R := unit) 1 (lease_over P lease).
Proof.
  intros HP. destruct P as [m cs cl ea ca ids ls]. eapply PStep; [|apply PReclaimed].
  eapply PStep; [exact HP|]. apply PLeases. intros k r' _ Hr'.
  pose proof (lg_cancel_law (px_leasing m) (lr_lease_id lease)) as Hc. cbn [pr_mgr] in Hr'.
  destruct (lg_cancel _ _) as [l' res]. destruct Hc as [_ Hc]. cbn [fst] in Hr'.
  rewrite Hc, lookup_delete_Some in Hr'. destruct Hr'. eauto.
Qed.

(** The task is spawned before the entry is written: a task that ends in between,
    because accepting fails, finds no entry to remove, and the entry written after
    it stays in the table, with no listener and no task. *)
Theorem early_exit_leaves_entry :
  ∃ P : LocalPool, preach (R := unit) 1 P ∧ is_Some (px_proxies (pr_mgr P) !! "p2") ∧
    px_listeners (pr_mgr P) = ∅ ∧ pr_closing P = ∅ ∧ (is_done <$> pr_calls P) = [true].
Proof.
  exists (solo (task_over spawned "p2") ("9", busy_os)).
  split; [|split_and!; [by eexists; vm_compute; reflexivity|vm_compute; reflexivity..]].
  apply solo_reach; [|split_and!; [vm_compute; by inversion 1..|by left]].
  eapply task_over_reach; [apply spawned_reach|vm_compute; reflexivity].
Qed.

(** And a lease that ends before its entry is written is reclaimed in vain: the
    cascade finds no entry, and the proxy runs on without a lease until somebody
    releases it. *)
Theorem reclaim_before_entry_lost :
  ∃ P : LocalPool, preach (R := unit) 1 P ∧ is_Some (px_proxies (pr_mgr P) !! "p2") ∧
    px_listeners (pr_mgr P) !! "p2" = Some {| ln_port := 40001; ln_stopped := false |} ∧
    lg_leases (px_leasing (pr_mgr P)) = ∅ ∧ (is_done <$> pr_calls P) = [true].
Proof.
  exists (solo (lease_over spawned (mkLease "l3" "proxy:p2" 0 60000000000 60)) ("9", busy_os)).
  split; [|split_and!; [by eexists; vm_compute; reflexivity|vm_compute; reflexivity..]].
  apply solo_reach; [|split_and!; [vm_compute; by inversion 1..|by left]].
  apply lease_over_reach, spawned_reach.
Qed.
End samples.
