(* ===== verification/Allowlist.v ===== *)
(** * The participant allowlist ([coordin8-txn/src/allowlist.rs])

    The guard on the endpoints the transaction coordinator dials.  Parsing an
    address is the standard library's [IpAddr] grammar (no octal octets, one
    [::], an embedded IPv4 tail); an address is its 32- or 128-bit value.
    Whitespace and letters are ASCII.  [AllowGrammar] relates all of it to the
    grammar the module documents. *)

From S2P Require Import Prelude CoreTypes LeaseCore LeaseStore LeaseManager.
From S2P Require Import TxnStore TxnManager TxnProtocol.
From Stdlib Require Import Strings.Ascii.

(** ** Strings *)

(** [str::split_once] on a character. *)
Fixpoint split_once (c : Ascii.ascii) (s : string) : option (string * string) :=
  match s with
  | EmptyString => None
  | String d s =>
      if Ascii.eqb c d then Some ("", s)
      else match split_once c s with Some (a, b) => Some (String d a, b) | None => None end
  end.

(** [str::matches(c).count()]. *)
Fixpoint count_char (c : Ascii.ascii) (s : string) : nat :=
  match s with
  | EmptyString => 0
  | String d s => if Ascii.eqb c d then S (count_char c s) else count_char c s
  end.

(** [str::split] on a character. *)
Fixpoint split_char (c : Ascii.ascii) (s : string) : list string :=
  match s with
  | EmptyString => [""]
  | String d s =>
      if Ascii.eqb c d then "" :: split_char c s
      else match split_char c s with
           | x :: l => String d x :: l
           | [] => [String d ""]
           end
  end.

Fixpoint string_forallb (f : Ascii.ascii → bool) (s : string) : bool :=
  match s with EmptyString => true | String c s => f c && string_forallb f s end.

Definition is_space (c : Ascii.ascii) : bool :=
  let n := Ascii.nat_of_ascii c in (9 <=? n)%nat && (n <=? 13)%nat || (n =? 32)%nat.

Fixpoint trim_start (s : string) : string :=
  match s with
  | EmptyString => ""
  | String c s' => if is_space c then trim_start s' else s
  end.

Fixpoint trim_end (s : string) : string :=
  match s with
  | EmptyString => ""
  | String c s =>
      match trim_end s with
      | EmptyString => if is_space c then "" else String c ""
      | t => String c t
      end
  end.

(** [str::trim]. *)
Definition trim (s : string) : string := trim_end (trim_start s).

(** [str::ends_with]: by length, as the bytes are compared. *)
Definition ends_with (s suffix : string) : bool :=
  let n := String.length s in let k := String.length suffix in
  (k <=? n)%nat && String.eqb (String.substring (n - k) k s) suffix.

(** ** [IpAddr] *)
Inductive IpAddr := V4 (bits : Z) | V6 (bits : Z).

#[global] Instance IpAddr_eq_dec : EqDecision IpAddr.
Proof. solve_decision. Defined.

Definition to_digit (radix : Z) (c : Ascii.ascii) : option Z :=
  let n := Z.of_nat (Ascii.nat_of_ascii c) in
  let d := if (48 <=? n)%Z && (n <=? 57)%Z then (n - 48)%Z
           else if (97 <=? n)%Z && (n <=? 122)%Z then (n - 87)%Z
           else if (65 <=? n)%Z && (n <=? 90)%Z then (n - 55)%Z
           else radix in
  if (d <? radix)%Z then Some d else None.

(** The longest run of digits: its value, its length and the rest. *)
Fixpoint read_digits (radix acc : Z) (count : nat) (s : string) : Z * nat * string :=
  match s with
  | EmptyString => (acc, count, s)
  | String c s' =>
      match to_digit radix c with
      | Some d => read_digits radix (acc * radix + d) (S count) s'
      | None => (acc, count, s)
      end
  end.

(** [Parser::read_number]. *)
Definition read_number (radix : Z) (max_digits : nat) (allow_zero_prefix : bool) (max : Z)
    (s : string) : option (Z * string) :=
  let '(v, n, rest) := read_digits radix 0 0 s in
  if (n =? 0)%nat || (max_digits <? n)%nat then None
  else if negb allow_zero_prefix && starts_with "0" s && (1 <? n)%nat then None
  else if (v <=? max)%Z then Some (v, rest) else None.

(** [Parser::read_separator]. *)
Definition read_separator {A} (sep : string) (index : nat) (inner : string → option (A * string))
    (s : string) : option (A * string) :=
  match index with
  | O => inner s
  | S _ => strip_prefix sep s ≫= inner
  end.

Fixpoint read_octets (n index : nat) (acc : Z) (s : string) : option (Z * string) :=
  match n with
  | O => Some (acc, s)
  | S n =>
      '(v, s) ← read_separator "." index (read_number 10 3 false 255) s;
      read_octets n (S index) (acc * 256 + v) s
  end.

(** [Parser::read_ipv4_addr]. *)
Definition read_ipv4_addr : string → option (Z * string) := read_octets 4 0 0.

(** [read_groups]: at most [limit] groups from index [i], an IPv4 tail counting
    for two and ending them. *)
Fixpoint read_groups (limit i : nat) (acc : list Z) (s : string) : list Z * bool * string :=
  match limit with
  | O => (acc, false, s)
  | S limit' =>
      match (if (1 <=? limit')%nat then read_separator ":" i read_ipv4_addr s else None) with
      | Some (v4, s) => (acc ++ [(v4 / 65536)%Z; (v4 mod 65536)%Z], true, s)
      | None =>
          match read_separator ":" i (read_number 16 4 true 65535) s with
          | Some (g, s) => read_groups limit' (S i) (acc ++ [g]) s
          | None => (acc, false, s)
          end
      end
  end.

Definition join_groups (gs : list Z) : Z := foldl (λ acc g, acc * 65536 + g)%Z 0%Z gs.

(** [Parser::read_ipv6_addr]. *)
Definition read_ipv6_addr (s : string) : option (Z * string) :=
  let '(head, head_ipv4, s) := read_groups 8 0 [] s in
  if (length head =? 8)%nat then Some (join_groups head, s)
  else if head_ipv4 then None
  else
    s ← strip_prefix "::" s;
    let '(tail, _, s) := read_groups (8 - (length head + 1)) 0 [] s in
    Some (join_groups (head ++ replicate (8 - length head - length tail) 0%Z ++ tail), s).

(** [str::parse::<IpAddr>]. *)
Definition parse_ip (s : string) : option IpAddr :=
  match read_ipv4_addr s with
  | Some (v, rest) => if is_empty rest then Some (V4 v) else None
  | None =>
      match read_ipv6_addr s with
      | Some (v, rest) => if is_empty rest then Some (V6 v) else None
      | None => None
      end
  end.

(** ** The allowlist *)
Inductive HostPattern :=
| Exact (name : string)
| Suffix (suffix : string)
| Ip (ip : IpAddr)
| Cidr (net : IpAddr) (len : Z).

Record Entry := { en_host : HostPattern; en_port : option Z }.

Inductive Host := Name (name : string) | HIp (ip : IpAddr).

Record ParticipantAllowlist := { al_entries : list Entry }.

Definition is_host_char (c : Ascii.ascii) : bool :=
  let n := Ascii.nat_of_ascii c in
  (48 <=? n)%nat && (n <=? 57)%nat || (65 <=? n)%nat && (n <=? 90)%nat ||
  (97 <=? n)%nat && (n <=? 122)%nat || (n =? 45)%nat || (n =? 95)%nat.

Definition valid_hostname (h : string) : bool :=
  negb (is_empty h) &&
  forallb (λ l, negb (is_empty l) && string_forallb is_host_char l) (split_char "."%char h).

(** [Ipv6Addr::to_ipv4_mapped]: the prefix [::ffff:0:0/96]. *)
Definition to_ipv4_mapped (v6 : Z) : option Z :=
  if (v6 / 2 ^ 32 =? 65535)%Z then Some (v6 mod 2 ^ 32)%Z else None.

Definition canon (ip : IpAddr) : IpAddr :=
  match ip with
  | V6 v6 => match to_ipv4_mapped v6 with Some v4 => V4 v4 | None => V6 v6 end
  | V4 v4 => V4 v4
  end.

Definition parse_port (p : string) : result Z string :=
  match parse_u16 p with
  | Some n => if (n =? 0)%Z then Err ("invalid port '" +:+ p +:+ "'") else Ok n
  | None => Err ("invalid port '" +:+ p +:+ "'")
  end.

Definition split_host_port (s : string) : result (string * option string) string :=
  match strip_prefix "[" s with
  | Some rest =>
      match split_once "]"%char rest with
      | None => Err "missing ']'"
      | Some (host, tail) =>
          if is_empty tail then Ok (host, None)
          else match strip_prefix ":" tail with
               | Some p => Ok (host, Some p)
               | None => Err "unexpected text after ']'"
               end
      end
  | None =>
      match count_char ":"%char s with
      | 1%nat =>
          match split_once ":"%char s with
          | Some (h, p) => Ok (h, Some p)
          | None => Ok (s, None)
          end
      | _ => Ok (s, None)
      end
  end.

Definition parse_host (h : string) : result Host string :=
  if is_empty h then Err "empty host"
  else match parse_ip h with
  | Some ip => Ok (HIp (canon ip))
  | None =>
      let lower := to_ascii_lowercase h in
      if negb (valid_hostname lower) then Err ("invalid host '" +:+ h +:+ "'")
      else Ok (Name lower)
  end.

Definition pattern_of (host : Host) : HostPattern :=
  match host with Name n => Exact n | HIp ip => Ip ip end.

Definition parse_u8 : string → option Z := parse_uint 255.

Definition parse_cidr (addr len : string) : result Entry string :=
  match parse_ip addr with
  | None => Err ("invalid CIDR address '" +:+ addr +:+ "'")
  | Some ip =>
      match parse_u8 len with
      | None => Err ("invalid CIDR prefix length '" +:+ len +:+ "'")
      | Some len =>
          let max := match ip with V4 _ => 32%Z | V6 _ => 128%Z end in
          if (max <? len)%Z
          then Err ("CIDR prefix length " +:+ pretty len +:+ " exceeds " +:+ pretty max)
          else Ok {| en_host := Cidr ip len; en_port := None |}
      end
  end.

Definition parse_entry (raw : string) : result Entry string :=
  let raw := trim raw in
  if is_empty raw then Err "empty entry"
  else match split_once "/"%char raw with
  | Some (addr, len) => parse_cidr addr len
  | None =>
      let? hp := split_host_port raw in
      let? port := match hp.2 with
                   | None => Ok None
                   | Some p => rmap Some (parse_port p)
                   end in
      let host := hp.1 in
      match strip_prefix "*." host with
      | Some suffix =>
          let suffix := to_ascii_lowercase suffix in
          if negb (valid_hostname suffix) then Err ("invalid wildcard host '" +:+ host +:+ "'")
          else Ok {| en_host := Suffix suffix; en_port := port |}
      | None =>
          if contains "*" host
          then Err ("'" +:+ host +:+ "': wildcards are only supported as a leading '*.'")
          else rmap (λ h, {| en_host := pattern_of h; en_port := port |}) (parse_host host)
      end
  end.

(** The prefix masks, at their width. *)
Definition mask (width len : Z) : Z :=
  if (len =? 0)%Z then 0%Z else (Z.shiftl (2 ^ width - 1) (width - len) mod 2 ^ width)%Z.

Definition cidr_contains (net : IpAddr) (len : Z) (ip : IpAddr) : bool :=
  match net, ip with
  | V4 n, V4 i => (Z.land n (mask 32 len) =? Z.land i (mask 32 len))%Z
  | V6 n, V6 i => (Z.land n (mask 128 len) =? Z.land i (mask 128 len))%Z
  | _, _ => false
  end.

Definition entry_matches (e : Entry) (host : Host) (port : Z) : bool :=
  if match en_port e with Some p => negb (p =? port)%Z | None => false end then false
  else match en_host e, host with
  | Exact n, Name h => String.eqb n h
  | Suffix s, Name h =>
      let n := String.length h in let k := String.length s in
      (k + 1 <? n)%nat && ends_with h s && ends_with (String.substring 0 (n - k) h) "."
  | Ip a, HIp b => bool_decide (canon a = b)
  | Cidr n l, HIp b => cidr_contains n l b
  | _, _ => false
  end.

Definition parse_endpoint (endpoint : string) : result (Host * Z) string :=
  let bad why := "participant_endpoint '" +:+ endpoint +:+ "' must be host:port (" +:+ why +:+ ")" in
  if (1 <? count_char ":"%char endpoint)%nat && negb (starts_with "[" endpoint)
  then Err (bad "IPv6 literals must be bracketed")
  else
    let? hp := map_err bad (split_host_port endpoint) in
    let? port := ok_or (bad "missing port") hp.2 in
    let? port := map_err bad (parse_port port) in
    let? host := map_err bad (parse_host hp.1) in
    Ok (host, port).

Definition allow_all : ParticipantAllowlist := {| al_entries := [] |}.

Definition is_allow_all (a : ParticipantAllowlist) : bool :=
  match al_entries a with [] => true | _ :: _ => false end.

Definition ALLOW_ENV_VAR : string := "COORDIN8_TXN_PARTICIPANT_ALLOW".

(** The loop of [parse]: the first bad entry is reported. *)
Fixpoint parse_entries (raws : list string) : result (list Entry) string :=
  match raws with
  | [] => Ok []
  | raw :: raws =>
      let? e := map_err (λ e, ALLOW_ENV_VAR +:+ ": bad entry '" +:+ trim raw +:+ "': " +:+ e)
                  (parse_entry raw) in
      let? es := parse_entries raws in
      Ok (e :: es)
  end.

Definition parse (spec : string) : result ParticipantAllowlist string :=
  if is_empty (trim spec) then Ok allow_all
  else rmap (λ es, {| al_entries := es |}) (parse_entries (split_char ","%char spec)).

Definition from_env (var : option string) : result ParticipantAllowlist string :=
  match var with Some v => parse v | None => Ok allow_all end.

Definition with_implicit_endpoint (a : ParticipantAllowlist) (endpoint : string)
  : result ParticipantAllowlist string :=
  if is_allow_all a then Ok a
  else
    let? hp := parse_endpoint endpoint in
    Ok {| al_entries := al_entries a ++ [{| en_host := pattern_of hp.1; en_port := Some hp.2 |}] |}.

Definition check (a : ParticipantAllowlist) (endpoint : string) : result unit Error :=
  let? hp := map_err InvalidArgument (parse_endpoint endpoint) in
  if is_allow_all a || existsb (λ e, entry_matches e hp.1 hp.2) (al_entries a) then Ok ()
  else Err (PermissionDenied ("participant endpoint '" +:+ endpoint +:+ "' is not permitted by " +:+
                              ALLOW_ENV_VAR)).

(** ** Strings: lemmas *)

Lemma cons_app c a b : String c a +:+ b = String c (a +:+ b).
Proof. done. Qed.

Lemma length_app_string a b : String.length (a +:+ b) = (String.length a + String.length b)%nat.
Proof. induction a as [|c a IH]; [done|]. rewrite cons_app. cbn. by rewrite IH. Qed.

Lemma substring_0_full s : String.substring 0 (String.length s) s = s.
Proof. induction s as [|c s IH]; [done|]. cbn. by f_equal. Qed.

Lemma substring_app_r a b : String.substring (String.length a) (String.length b) (a +:+ b) = b.
Proof.
  induction a as [|c a IH]; [apply substring_0_full|]. change (String c a +:+ b) with (String c (a +:+ b)).
  done.
Qed.

Lemma substring_split n s :
  (n ≤ String.length s)%nat →
  s = String.substring 0 n s +:+ String.substring n (String.length s - n) s.
Proof.
  revert n. induction s as [|c s IH]; intros [|n] Hn; cbn in *; try done; try lia.
  - f_equal. by rewrite substring_0_full.
  - change (String c (String.substring 0 n s) +:+ String.substring n (String.length s - n) s)
      with (String c (String.substring 0 n s +:+ String.substring n (String.length s - n) s)).
    rewrite <- IH; [done|lia].
Qed.

Lemma ends_with_true s suffix : ends_with s suffix = true ↔ ∃ p, s = p +:+ suffix.
Proof.
  unfold ends_with. rewrite andb_true_iff, Nat.leb_le, String.eqb_eq. split.
  - intros [Hle Heq]. exists (String.substring 0 (String.length s - String.length suffix) s).
    rewrite <- Heq at 2.
    rewrite (substring_split (String.length s - String.length suffix) s) at 1 by lia.
    do 2 f_equal. lia.
  - intros [p ->]. rewrite length_app_string. split; [lia|].
    replace (String.length p + String.length suffix - String.length suffix)%nat
      with (String.length p) by lia. apply substring_app_r.
Qed.

Lemma substring_0_app p s : String.substring 0 (String.length p) (p +:+ s) = p.
Proof.
  induction p as [|c p IH]; [by destruct s|]. rewrite cons_app. cbn. by f_equal.
Qed.

Lemma app_string_assoc a b c : (a +:+ b) +:+ c = a +:+ (b +:+ c).
Proof. induction a as [|x a IH]; [done|]. by rewrite !cons_app, IH. Qed.

(** The three tests of a wildcard entry say: one or more labels, a dot, the
    suffix. *)
Lemma suffix_true h s :
  (String.length s + 1 <? String.length h)%nat && ends_with h s &&
  ends_with (String.substring 0 (String.length h - String.length s) h) "." = true ↔
  ∃ l, l ≠ "" ∧ h = l +:+ "." +:+ s.
Proof.
  rewrite !andb_true_iff, Nat.ltb_lt, !ends_with_true. split.
  - intros [[Hlen [p ->]] [l Hl]]. rewrite length_app_string in *.
    replace (String.length p + String.length s - String.length s)%nat with (String.length p) in Hl
      by lia.
    rewrite substring_0_app in Hl. subst p. exists l. rewrite app_string_assoc. split; [|done].
    intros ->. rewrite length_app_string in Hlen. cbn in Hlen. lia.
  - intros (l & Hl & ->). rewrite !length_app_string. cbn [String.length].
    assert (String.length l ≠ 0)%nat by (by destruct l).
    split; [split; [lia|]|].
    + exists (l +:+ "."). by rewrite app_string_assoc.
    + exists l. rewrite <- app_string_assoc.
      replace (String.length l + (1 + String.length s) - String.length s)%nat
        with (String.length (l +:+ ".")) by (rewrite length_app_string; cbn; lia).
      by rewrite substring_0_app.
Qed.

(** ** Addresses: their values fit their width *)

Definition ip_wf (ip : IpAddr) : Prop :=
  match ip with V4 v => (0 ≤ v < 2 ^ 32)%Z | V6 v => (0 ≤ v < 2 ^ 128)%Z end.

Lemma to_digit_bound radix c d : to_digit radix c = Some d → (0 ≤ radix → 0 ≤ d)%Z.
Proof.
  unfold to_digit. intros Hd Hr. revert Hd.
  repeat match goal with |- context [if ?b && ?c then _ else _] =>
    destruct (b && c) eqn:?; rewrite ?andb_true_iff, ?Z.leb_le in * end;
  match goal with |- context [if ?b then _ else _] => destruct b end; intros [= <-]; lia.
Qed.

Lemma read_digits_bound radix acc n s :
  (0 ≤ radix)%Z → (0 ≤ acc)%Z → (0 ≤ (read_digits radix acc n s).1.1)%Z.
Proof.
  intros Hr. revert acc n. induction s as [|c s IH]; intros acc n Ha; cbn; [done|].
  destruct (to_digit radix c) as [d|] eqn:Hd; [|done].
  apply to_digit_bound in Hd; [|done]. apply IH. lia.
Qed.

Lemma read_number_bound radix k z max s v rest :
  (0 ≤ radix)%Z → read_number radix k z max s = Some (v, rest) → (0 ≤ v ≤ max)%Z.
Proof.
  intros Hr. unfold read_number. pose proof (read_digits_bound radix 0 0 s Hr) as Hb.
  destruct (read_digits radix 0 0 s) as [[w n] t]. cbn in Hb.
  destruct (_ || _); [done|]. destruct (_ && _); [done|].
  destruct (Z.leb_spec w max); [|done]. intros [= <- _]. lia.
Qed.

Lemma read_separator_Some {A} sep i (inner : string → option (A * string)) s x :
  read_separator sep i inner s = Some x → ∃ s', inner s' = Some x.
Proof.
  destruct i as [|i]; [eauto|]. cbn. destruct (strip_prefix sep s) as [s'|]; [|done]. eauto.
Qed.

Lemma read_octets_bound n i acc s v rest :
  (0 ≤ acc)%Z → read_octets n i acc s = Some (v, rest) →
  (0 ≤ v < (acc + 1) * 256 ^ Z.of_nat n)%Z.
Proof.
  revert i acc s. induction n as [|n IH]; intros i acc s Ha; cbn [read_octets].
  { intros [= <- _]. change (256 ^ Z.of_nat 0)%Z with 1%Z. lia. }
  destruct (read_separator _ _ _ s) as [[o s']|] eqn:E; [|done]. cbn.
  apply read_separator_Some in E as [s0 E]. apply read_number_bound in E; [|lia].
  intros Hv. apply IH in Hv; [|lia]. rewrite Nat2Z.inj_succ, Z.pow_succ_r by lia.
  assert (0 < 256 ^ Z.of_nat n)%Z by (apply Z.pow_pos_nonneg; lia). nia.
Qed.

Lemma read_ipv4_bound s v rest : read_ipv4_addr s = Some (v, rest) → (0 ≤ v < 2 ^ 32)%Z.
Proof. intros H%read_octets_bound; [|lia]. change (2 ^ 32)%Z with (256 ^ 4)%Z. lia. Qed.

Abbreviation is_group := (λ g : Z, (0 ≤ g < 65536)%Z).

Lemma read_groups_bound limit i acc s gs b rest :
  Forall is_group acc → read_groups limit i acc s = (gs, b, rest) →
  Forall is_group gs ∧ (length gs ≤ length acc + limit)%nat.
Proof.
  revert i acc s. induction limit as [|limit IH]; intros i acc s Ha; cbn [read_groups].
  { intros [= <- _ _]. split; [done|lia]. }
  destruct (if (1 <=? limit)%nat then _ else _) as [[v4 s4]|] eqn:E4.
  - destruct (Nat.leb_spec 1 limit) as [Hlim|]; [|done].
    apply read_separator_Some in E4 as [s0 E4]. apply read_ipv4_bound in E4.
    intros [= <- _ _]. split; [|rewrite length_app; cbn; lia].
    apply Forall_app. split; [done|]. repeat constructor.
    + apply Z.div_pos; lia.
    + apply Z.div_lt_upper_bound; lia.
    + apply Z.mod_pos_bound. lia.
    + apply Z.mod_pos_bound. lia.
  - destruct (read_separator _ i (read_number _ _ _ _) s) as [[g s']|] eqn:E.
    + apply read_separator_Some in E as [s0 E]. apply read_number_bound in E; [|lia].
      intros Hr. apply IH in Hr as [Hg Hl].
      * split; [done|]. rewrite length_app in Hl. cbn in Hl. lia.
      * apply Forall_app. split; [done|]. repeat constructor; lia.
    + intros [= <- _ _]. split; [done|lia].
Qed.

Lemma join_groups_bound gs :
  Forall is_group gs → (0 ≤ join_groups gs < 65536 ^ Z.of_nat (length gs))%Z.
Proof.
  unfold join_groups. intros Hg.
  assert (Hgen : ∀ acc, (0 ≤ acc)%Z →
    (0 ≤ foldl (λ acc g, acc * 65536 + g)%Z acc gs < (acc + 1) * 65536 ^ Z.of_nat (length gs))%Z).
  { induction Hg as [|g gs Hg _ IH]; intros acc Ha; cbn [foldl length].
    { change (65536 ^ Z.of_nat 0)%Z with 1%Z. lia. }
    rewrite Nat2Z.inj_succ, Z.pow_succ_r by lia. specialize (IH (acc * 65536 + g)%Z ltac:(lia)).
    assert (0 < 65536 ^ Z.of_nat (length gs))%Z by (apply Z.pow_pos_nonneg; lia). nia. }
  specialize (Hgen 0%Z). lia.
Qed.

Lemma read_ipv6_bound s v rest : read_ipv6_addr s = Some (v, rest) → (0 ≤ v < 2 ^ 128)%Z.
Proof.
  unfold read_ipv6_addr. destruct (read_groups 8 0 [] s) as [[head b] s1] eqn:E1.
  apply read_groups_bound in E1 as [H1 L1]; [|done]. cbn in L1.
  change (2 ^ 128)%Z with (65536 ^ Z.of_nat 8)%Z.
  destruct (Nat.eqb_spec (length head) 8) as [Hl|Hl].
  { intros [= <- _]. rewrite <- Hl. by apply join_groups_bound. }
  destruct b; [done|]. destruct (strip_prefix "::" s1) as [s2|]; [|done]. cbn [mbind option_bind].
  destruct (read_groups (8 - (length head + 1)) 0 [] s2) as [[tail b2] s3] eqn:E2.
  apply read_groups_bound in E2 as [H2 L2]; [|done]. cbn in L2. intros [= <- _].
  match goal with |- context [join_groups ?gs] => set (l := gs) end.
  replace 8%nat with (length l).
  - apply join_groups_bound. unfold l. rewrite !Forall_app. split; [done|]. split; [|done].
    apply Forall_replicate. lia.
  - unfold l. rewrite !length_app, length_replicate. lia.
Qed.

Lemma parse_ip_wf s ip : parse_ip s = Some ip → ip_wf ip.
Proof.
  unfold parse_ip. destruct (read_ipv4_addr s) as [[v r]|] eqn:E4.
  - apply read_ipv4_bound in E4. destruct (is_empty r); [|done]. by intros [= <-].
  - destruct (read_ipv6_addr s) as [[v r]|] eqn:E6; [|done]. apply read_ipv6_bound in E6.
    destruct (is_empty r); [|done]. by intros [= <-].
Qed.

Lemma canon_wf ip : ip_wf ip → ip_wf (canon ip).
Proof.
  destruct ip as [v|v]; [done|]. cbn. unfold to_ipv4_mapped. destruct (_ =? _)%Z; [|done].
  intros _. cbn. apply Z.mod_pos_bound. lia.
Qed.

Lemma canon_idem ip : canon (canon ip) = canon ip.
Proof. destruct ip as [v|v]; [done|]. cbn. by destruct (to_ipv4_mapped v) eqn:E; cbn; rewrite ?E. Qed.

Lemma parse_host_canonical h ip : parse_host h = Ok (HIp ip) → canon ip = ip ∧ ip_wf ip.
Proof.
  unfold parse_host. destruct (is_empty h); [done|]. destruct (parse_ip h) as [ip0|] eqn:E.
  - intros [= <-]. split; [apply canon_idem|]. by apply canon_wf, (parse_ip_wf h).
  - by destruct (negb _).
Qed.

(** ** Prefixes *)

Lemma mask_bits w len i :
  (0 ≤ len ≤ w)%Z → (0 ≤ i)%Z →
  Z.testbit (mask w len) i = (w - len <=? i)%Z && (i <? w)%Z.
Proof.
  intros Hl Hi. unfold mask. destruct (Z.eqb_spec len 0) as [->|Hne].
  - rewrite Z.bits_0. destruct (Z.leb_spec (w - 0) i), (Z.ltb_spec i w); try done; lia.
  - rewrite <- Z.land_ones, Z.land_spec by lia.
    rewrite Z.testbit_ones by lia. rewrite Z.shiftl_spec by lia.
    replace (2 ^ w - 1)%Z with (Z.ones w) by (rewrite Z.ones_equiv; lia).
    destruct (Z.leb_spec (w - len) i).
    + rewrite Z.testbit_ones by lia.
      destruct (Z.leb_spec 0 (i - (w - len))), (Z.ltb_spec (i - (w - len)) w),
        (Z.leb_spec 0 i), (Z.ltb_spec i w); cbn; try done; lia.
    + rewrite Z.testbit_neg_r by lia. done.
Qed.

(** Masking keeps the network part. *)
Lemma land_mask w len x :
  (0 ≤ len ≤ w)%Z → (0 ≤ x < 2 ^ w)%Z →
  Z.land x (mask w len) = (x / 2 ^ (w - len) * 2 ^ (w - len))%Z.
Proof.
  intros Hl Hx. rewrite <- Z.shiftr_div_pow2, <- Z.shiftl_mul_pow2 by lia.
  apply Z.bits_inj'. intros i Hi. rewrite Z.land_spec, mask_bits, Z.shiftl_spec by lia.
  destruct (Z.leb_spec (w - len) i).
  - rewrite Z.shiftr_spec by lia. replace (i - (w - len) + (w - len))%Z with i by lia.
    destruct (Z.ltb_spec i w); [by rewrite andb_true_r|]. rewrite andb_false_r.
    symmetry. rewrite <- (Z.mod_small x (2 ^ w)) by done. apply Z.mod_pow2_bits_high. lia.
  - rewrite andb_false_r. symmetry. apply Z.testbit_neg_r. lia.
Qed.

Definition prefix_bits (ip : IpAddr) : Z := match ip with V4 _ => 32 | V6 _ => 128 end.

(** Same family and same first [len] bits. *)
Definition same_prefix (net : IpAddr) (len : Z) (ip : IpAddr) : Prop :=
  match net, ip with
  | V4 n, V4 i => (n / 2 ^ (32 - len) = i / 2 ^ (32 - len))%Z
  | V6 n, V6 i => (n / 2 ^ (128 - len) = i / 2 ^ (128 - len))%Z
  | _, _ => False
  end.

Lemma cidr_contains_true net len ip :
  (0 ≤ len ≤ prefix_bits net)%Z → ip_wf net → ip_wf ip →
  cidr_contains net len ip = true ↔ same_prefix net len ip.
Proof.
  intros Hl Hn Hi. destruct net as [n|n], ip as [i|i]; cbn in *; try done;
    rewrite Z.eqb_eq, !land_mask by done;
    (rewrite Z.mul_cancel_r by (apply Z.pow_nonzero; lia)); done.
Qed.

(** ** What an entry allows *)

(** The meaning of a parsed entry, on a host and a port. *)
Definition allows (e : Entry) (host : Host) (port : Z) : Prop :=
  (∀ p, en_port e = Some p → p = port) ∧
  match en_host e, host with
  | Exact n, Name h => h = n
  | Suffix s, Name h => ∃ l, l ≠ "" ∧ h = l +:+ "." +:+ s
  | Ip a, HIp b => canon a = b
  | Cidr net len, HIp b => same_prefix net len b
  | _, _ => False
  end.

Definition host_wf (h : Host) : Prop :=
  match h with Name _ => True | HIp ip => canon ip = ip ∧ ip_wf ip end.

Definition entry_wf (e : Entry) : Prop :=
  match en_host e with
  | Cidr net len => ip_wf net ∧ (0 ≤ len ≤ prefix_bits net)%Z
  | _ => True
  end.

Lemma entry_matches_allows e host port :
  entry_wf e → host_wf host → entry_matches e host port = true ↔ allows e host port.
Proof.
  intros He Hh. unfold entry_matches, allows, entry_wf in *.
  assert (Hp : (if match en_port e with Some p => negb (p =? port)%Z | None => false end
                then true else false) = false ↔ ∀ p, en_port e = Some p → p = port).
  { destruct (en_port e) as [q|].
    - destruct (Z.eqb_spec q port) as [->|Hne]; cbn; naive_solver.
    - naive_solver. }
  rewrite <- Hp. destruct (match en_port e with Some _ => _ | None => _ end).
  { split; [done|]. by intros [? _]. }
  assert (Htriv : ∀ P : Prop, P ↔ false = false ∧ P) by (intros; tauto).
  rewrite <- Htriv. clear Htriv Hp.
  destruct (en_host e) as [n|s|a|net len], host as [h|b]; try done.
  - rewrite String.eqb_eq. naive_solver.
  - apply suffix_true.
  - by rewrite bool_decide_eq_true.
  - destruct He, Hh. by apply cidr_contains_true.
Qed.

(** *** Parsing yields well-formed entries and hosts *)

Lemma parse_cidr_wf addr len e : parse_cidr addr len = Ok e → entry_wf e.
Proof.
  unfold parse_cidr. destruct (parse_ip addr) as [ip|] eqn:Ei; [|done].
  destruct (parse_u8 len) as [n|] eqn:En; [|done]. cbv zeta.
  destruct (Z.ltb_spec (match ip with V4 _ => 32 | V6 _ => 128 end)%Z n) as [|Hle]; [done|].
  intros [= <-]. unfold entry_wf; cbn. split; [by eapply parse_ip_wf|].
  apply parse_uint_bound in En; [|lia]. unfold prefix_bits. lia.
Qed.

Lemma parse_entry_wf raw e : parse_entry raw = Ok e → entry_wf e.
Proof.
  unfold parse_entry. destruct (is_empty _); [done|].
  destruct (split_once _ _) as [[addr len]|]; [apply parse_cidr_wf|].
  destruct (split_host_port _) as [[host p]|]; [|done]. cbn [rbind fst snd].
  destruct (match p with Some _ => _ | None => _ end) as [port|]; [|done]. cbn [rbind].
  destruct (strip_prefix _ _) as [sfx|].
  - cbv zeta. destruct (negb _); [done|]. by intros [= <-].
  - destruct (contains _ _); [done|]. destruct (parse_host host) as [[n|ip]|]; [..|done];
      by intros [= <-].
Qed.

Lemma parse_entries_wf raws es : parse_entries raws = Ok es → Forall entry_wf es.
Proof.
  revert es. induction raws as [|raw raws IH]; intros es; cbn; [by intros [= <-]|].
  destruct (parse_entry raw) as [e|] eqn:E; [|done]. cbn.
  destruct (parse_entries raws) as [es'|]; [|done]. cbn. intros [= <-].
  constructor; [by eapply parse_entry_wf|by apply IH].
Qed.

Lemma parse_wf spec a : parse spec = Ok a → Forall entry_wf (al_entries a).
Proof.
  unfold parse. destruct (is_empty _); [by intros [= <-]|].
  destruct (parse_entries _) as [es|] eqn:E; [|done]. intros [= <-]. by eapply parse_entries_wf.
Qed.

Lemma parse_endpoint_wf ep h p : parse_endpoint ep = Ok (h, p) → host_wf h ∧ (1 ≤ p ≤ u16_max)%Z.
Proof.
  unfold parse_endpoint. cbv zeta. destruct (_ && _); [done|].
  destruct (split_host_port ep) as [[host o]|]; [|done]. cbn [map_err rbind fst snd].
  destruct o as [port|]; [|done]. cbn [ok_or rbind].
  destruct (parse_port port) as [q|] eqn:Ep; [|done]. cbn [map_err rbind].
  destruct (parse_host host) as [h'|] eqn:Eh; [|done]. cbn [map_err rbind]. intros [= <- <-]. split.
  - destruct h' as [n|ip]; [done|]. by eapply parse_host_canonical.
  - unfold parse_port in Ep. destruct (parse_u16 port) as [n|] eqn:En; [|done].
    apply parse_uint_bound in En; [|done]. destruct (Z.eqb_spec n 0); [done|].
    injection Ep as <-. lia.
Qed.

(** ** Theorems *)

Lemma check_ok a ep h p :
  Forall entry_wf (al_entries a) → parse_endpoint ep = Ok (h, p) →
  check a ep = Ok () ↔ al_entries a = [] ∨ ∃ e, e ∈ al_entries a ∧ allows e h p.
Proof.
  intros Hwf Hep. unfold check. rewrite Hep. cbn [map_err rbind fst snd].
  destruct (parse_endpoint_wf _ _ _ Hep) as [Hh _].
  assert (Hex : existsb (λ e, entry_matches e h p) (al_entries a) = true ↔
                ∃ e, e ∈ al_entries a ∧ allows e h p).
  { rewrite existsb_exists. setoid_rewrite <- list_elem_of_In. split.
    - intros (e & He & Hm). exists e. split; [done|]. rewrite Forall_forall in Hwf.
      apply entry_matches_allows; auto.
    - intros (e & He & Hm). exists e. split; [done|]. rewrite Forall_forall in Hwf.
      apply entry_matches_allows; auto. }
  rewrite <- Hex. unfold is_allow_all. destruct (al_entries a) as [|e es].
  - cbn [orb]. split; [by left|done].
  - cbn [orb]. destruct (existsb _ _); [split; [by right|done]|].
    split; [done|]. by intros [|].
Qed.

Lemma implicit_allows h p h' p' :
  host_wf h → host_wf h' →
  allows {| en_host := pattern_of h; en_port := Some p |} h' p' ↔ h' = h ∧ p' = p.
Proof.
  intros Hh Hh'. unfold allows. cbn.
  assert (Hp : (∀ q, Some p = Some q → q = p') ↔ p = p') by naive_solver. rewrite Hp.
  destruct h as [n|ip], h' as [n'|ip']; cbn in *; try naive_solver.
  destruct Hh as [Hc _], Hh' as [Hc' _]. rewrite Hc. naive_solver.
Qed.

(** Adding an implicit endpoint to a configured list allows that
    endpoint, keeps everything allowed before, and allows nothing else; an
    unrestricted list stays unrestricted. *)
Theorem implicit_endpoint_exact spec a ep h p :
  parse spec = Ok a → parse_endpoint ep = Ok (h, p) →
  ∃ a', with_implicit_endpoint a ep = Ok a' ∧
    check a' ep = Ok () ∧
    ∀ ep', check a' ep' = Ok () ↔ check a ep' = Ok () ∨ parse_endpoint ep' = Ok (h, p).
Proof.
  intros Ha%parse_wf Hep. destruct (parse_endpoint_wf _ _ _ Hep) as [Hh _].
  unfold with_implicit_endpoint. destruct (is_allow_all a) eqn:Hall.
  - exists a. assert (Hok : ∀ e h' p', parse_endpoint e = Ok (h', p') → check a e = Ok ()).
    { intros e h' p' He. unfold check. by rewrite He, Hall. }
    split; [done|]. split; [by eapply Hok|]. intros ep'. split; [by left|].
    intros [|He]; [done|by eapply Hok].
  - rewrite Hep. cbn [rbind fst snd]. eexists. split; [done|].
    set (a' := {| al_entries := _ |}).
    assert (Hwf : Forall entry_wf (al_entries a')).
    { apply Forall_app. split; [done|]. constructor; [|done]. by destruct h. }
    assert (Hiff : ∀ ep', check a' ep' = Ok () ↔ check a ep' = Ok () ∨ parse_endpoint ep' = Ok (h, p)).
    { intros ep'. destruct (parse_endpoint ep') as [[h' p']|] eqn:Hep'.
      - destruct (parse_endpoint_wf _ _ _ Hep') as [Hh' _].
        rewrite (check_ok a' ep' h' p'), (check_ok a ep' h' p') by done. subst a'. cbn.
        setoid_rewrite elem_of_app. setoid_rewrite elem_of_cons. setoid_rewrite elem_of_nil.
        pose proof (implicit_allows h p h' p' Hh Hh') as Himp.
        assert (Hne : al_entries a ≠ []) by (intros E; unfold is_allow_all in Hall; by rewrite E in Hall).
        split.
        + intros [He|(e & [He|[->|[]]] & Hal)]; [by destruct (al_entries a)|left; eauto|].
          right. apply Himp in Hal as [-> ->]. done.
        + intros [[He|(e & He & Hal)]|[= -> ->]]; [done|eauto|]. right. eexists.
          split; [right; by left|]. by apply Himp.
      - unfold check. rewrite Hep'. cbn. naive_solver. }
    split; [|done]. apply Hiff. by right.
Qed.

Theorem implicit_endpoint_exact_witness :
  ∃ a', with_implicit_endpoint {| al_entries := [{| en_host := Suffix "internal"; en_port := None |}] |}
          "djinn-host:9006" = Ok a' ∧ check a' "djinn-host:9006" = Ok ().
Proof.
  destruct (implicit_endpoint_exact "*.internal"
    {| al_entries := [{| en_host := Suffix "internal"; en_port := None |}] |}
    "djinn-host:9006" (Name "djinn-host") 9006) as (a' & H1 & H2 & _);
    [vm_compute; reflexivity|vm_compute; reflexivity|].
  by exists a'.
Defined.

(** A CIDR entry written in IPv4-mapped form ([::ffff:10.0.0.0/104]) is
    accepted when the list is read but allows no endpoint at all, because the
    addresses of endpoints are made IPv4 first and CIDR networks are not. *)
Theorem mapped_cidr_never_matches net len port ep h p :
  (net / 2 ^ 32 = 65535)%Z → (96 ≤ len ≤ 128)%Z → (0 ≤ net < 2 ^ 128)%Z →
  parse_endpoint ep = Ok (h, p) →
  entry_matches {| en_host := Cidr (V6 net) len; en_port := port |} h p = false.
Proof.
  intros Hm Hl Hn Hep. destruct (parse_endpoint_wf _ _ _ Hep) as [Hh _].
  apply not_true_iff_false. rewrite entry_matches_allows by (done || (split; cbn; [done|lia])).
  intros [_ Hal]. cbn in Hal. destruct h as [n|[i|i]]; [done..|]. cbn in Hal.
  destruct Hh as [Hc _]. cbn in Hc. unfold to_ipv4_mapped in Hc.
  assert (Hi : (i / 2 ^ 32 = 65535)%Z); [|by rewrite Hi in Hc].
  rewrite <- Hm. replace (2 ^ 32)%Z with (2 ^ (128 - len) * 2 ^ (len - 96))%Z.
  - rewrite <- !Z.div_div by (apply Z.pow_nonzero || apply Z.pow_pos_nonneg; lia). by rewrite Hal.
  - rewrite <- Z.pow_add_r by lia. f_equal. lia.
Qed.

Theorem mapped_cidr_never_matches_witness :
  parse "::ffff:10.0.0.0/104" =
    Ok {| al_entries := [{| en_host := Cidr (V6 281470849515520) 104; en_port := None |}] |} ∧
  entry_matches {| en_host := Cidr (V6 281470849515520) 104; en_port := None |}
    (HIp (V4 167772165)) 80 = false.
Proof.
  split; [vm_compute; reflexivity|].
  apply (mapped_cidr_never_matches 281470849515520 104 None "[::ffff:10.0.0.5]:80").
  - reflexivity.
  - lia.
  - lia.
  - vm_compute. reflexivity.
Defined.

(** ** The coordinator under an allowlist *)

(** [txn_participant_allowlist] of [services.rs]: the list of the environment,
    and, in bundled mode, the Djinn's own Space endpoint. *)
Definition txn_participant_allowlist (var implicit : option string)
  : result ParticipantAllowlist string :=
  let? a := from_env var in
  match implicit with
  | Some ep => with_implicit_endpoint a ep
  | None => Ok a
  end.

Lemma configured_wf var implicit a :
  txn_participant_allowlist var implicit = Ok a → Forall entry_wf (al_entries a).
Proof.
  unfold txn_participant_allowlist, from_env.
  assert (Hgen : ∀ a0, Forall entry_wf (al_entries a0) →
    match implicit with Some ep => with_implicit_endpoint a0 ep | None => Ok a0 end = Ok a →
    Forall entry_wf (al_entries a)).
  { intros a0 H0. destruct implicit as [ep|]; [|by intros [= <-]].
    unfold with_implicit_endpoint. destruct (is_allow_all a0); [by intros [= <-]|].
    destruct (parse_endpoint ep) as [[h p]|]; [|done]. cbn. intros [= <-].
    apply Forall_app. split; [done|]. constructor; [|done]. by destruct h. }
  destruct var as [v|]; cbn [rbind]; [|by apply Hgen].
  destruct (parse v) as [a0|] eqn:E; [|done]. by apply Hgen, (parse_wf v).
Qed.

Section guard.
Context {S L : Type} {TS : TxnStore S} {TV : TxnStoreView S} {TL : TxnStoreLaws S}.
Context {LG : Leasing L}.

(** C17: Under a configured allowlist, in every execution of the coordinator
    (any interleaving of requests, lease expiries and answers), each endpoint it
    dials is a well-formed [host:port] that some entry of the list allows and
    that was enlisted in the transaction the call is for. *)
Theorem coordinator_dials_only_allowed var implicit a (w0 : World S L) (P : Pool S L) c :
  txn_participant_allowlist var implicit = Ok a → al_entries a ≠ [] →
  ts_view (w_store w0) = ∅ → w_calls w0 = [] →
  reach (check a) w0 P → c ∈ w_calls (p_world P) →
  (∃ h p e, parse_endpoint (cl_endpoint c) = Ok (h, p) ∧ e ∈ al_entries a ∧ allows e h p) ∧
  ∃ r, ts_view (w_store (p_world P)) !! cl_txn c = Some r ∧
    cl_endpoint c ∈ pt_endpoint <$> tx_participants r.
Proof.
  intros Ha%configured_wf Hne Hv Hc Hr Hin.
  destruct (dialed_allowed (check a) w0 Hv Hc P c Hr Hin) as [Hok Hen]. split; [|exact Hen].
  destruct (parse_endpoint (cl_endpoint c)) as [[h p]|why] eqn:Hep.
  - apply (check_ok a _ h p Ha Hep) in Hok as [|(e & He & Hal)]; [done|]. by exists h, p, e.
  - unfold check in Hok. rewrite Hep in Hok. done.
Qed.
End guard.

Section samples.
#[local] Existing Instance canonical_iter.
#[local] Existing Instance chrono_sample.

Definition space_only : ParticipantAllowlist :=
  {| al_entries := [{| en_host := Suffix "internal"; en_port := None |};
                    {| en_host := Exact "a"; en_port := Some 1%Z |}] |}.

(** Begin a transaction, enlist the implicit endpoint, abort. *)
Definition guarded_end :=
  let w := (run sample_net sample_world (begin_txn "t1" (sample_env "t1") 30)).1 in
  let w := (run sample_net w (enlist (check space_only) "t1" "a:1" 0)).1 in
  (run sample_net w (TxnManager.abort "t1")).1.

Lemma guarded_reach : ∃ P, reach (check space_only) sample_world P ∧ p_world P = guarded_end.
Proof.
  assert (Hr : reach (check space_only) sample_world (mkPool sample_world ∅ [])) by constructor.
  eapply (reach_handler _ sample_net) in Hr; [|apply (RqBegin _ _ "t1" (sample_env "t1") 30); set_solver].
  eapply (reach_handler _ sample_net) in Hr; [|apply (RqEnlist _ _ "t1" "a:1" 0)].
  eapply (reach_handler _ sample_net) in Hr; [|apply (RqAbort _ _ "t1")].
  eexists. split; [exact Hr|]. unfold guarded_end. reflexivity.
Qed.

Lemma guarded_call_in : mkCall KAbort "t1" "a:1" (Answer 0) ∈ w_calls guarded_end.
Proof. apply (list_elem_of_lookup_2 _ 0). vm_compute. reflexivity. Qed.

Theorem coordinator_dials_only_allowed_witness :
  ∃ h p e, parse_endpoint "a:1" = Ok (h, p) ∧ e ∈ al_entries space_only ∧ allows e h p.
Proof.
  destruct guarded_reach as (P & Hr & HP).
  apply (coordinator_dials_only_allowed (Some "*.internal") (Some "a:1") space_only sample_world P
           (mkCall KAbort "t1" "a:1" (Answer 0))).
  - vm_compute. reflexivity.
  - discriminate.
  - reflexivity.
  - reflexivity.
  - exact Hr.
  - rewrite HP. exact guarded_call_in.
Defined.
End samples.
