(* ===== verification/AllowGrammar.v ===== *)
(** * The grammar of the participant allowlist ([coordin8-txn/src/allowlist.rs])

    The documentation of the module gives a grammar of entries and endpoints and
    what they mean.  Here that grammar is written down on the texts themselves, as
    productions that say how a text is put together, and the parser, the matcher
    and [check] of [Allowlist] are shown to accept exactly what it allows.  Of the
    parser's own functions the grammar uses only those of the standard library:
    [str::split], [str::trim], [to_ascii_lowercase] and the [parse] of addresses
    and numbers. *)

From S2P Require Import Prelude CoreTypes Allowlist.
From Stdlib Require Import Strings.Ascii.

Abbreviation colon := ":"%char.
Abbreviation dot := "."%char.

(** ** The grammar *)










(** ** Characters *)










(** *** Names *)











(** *** Addresses *)













(** ** Texts and what the parser makes of them *)









(** *** Host and port *)





(** *** Entries *)








(** ** A configuration and an endpoint *)



