(* ===== verification/Auth.v ===== *)
(** * Authentication of calls ([coordin8-auth/src/lib.rs])

    The server-side interceptor and the client-side token provider.  The JWT
    library is a parameter: encoding, decoding with and without checking the
    signature, with what its documentation promises of a token it encoded.
    Instants are nanoseconds; the claims of a token hold seconds. *)

From S2P Require Import Prelude CoreTypes.

(** ** Claims and the JWT library *)
Record Claims := {
  cm_sub : string;
  cm_exp : Z;
  cm_iat : Z;
  cm_scope : option string;
  cm_iss : option string
}.

(** [jsonwebtoken] with HS256, expiry checks off and no required claims. *)
Class Jwt := {
  jwt_encode : string → Claims → result string string;
  jwt_decode : string → string → result Claims string;
  jwt_decode_insecure : string → result Claims string
}.

(** A token encoded with a secret decodes, under that secret or unchecked, to its
    claims, and is metadata text. *)
Class JwtLaws (J : Jwt) (is_metadata : string → bool) : Prop := {
  jwt_roundtrip : ∀ secret c t, jwt_encode secret c = Ok t → jwt_decode secret t = Ok c;
  jwt_roundtrip_insecure : ∀ secret c t,
    jwt_encode secret c = Ok t → jwt_decode_insecure t = Ok c;
  jwt_metadata : ∀ secret c t, jwt_encode secret c = Ok t → is_metadata ("Bearer " +:+ t) = true
}.

(** A metadata value: text, or bytes that [to_str] refuses. *)
Inductive MetaValue := Text (s : string) | Opaque.

(** A request, by its metadata. *)
Abbreviation metadata := (gmap string MetaValue).

(** ** [AuthConfig] *)
Record AuthConfig := {
  ac_secret : option string;
  ac_verify_signature : bool;
  ac_issuer : option string;
  ac_claims_check : option (Claims → result unit Status)
}.

Definition AuthConfig_default : AuthConfig :=
  {| ac_secret := None; ac_verify_signature := true; ac_issuer := None; ac_claims_check := None |}.

Definition SECRET_ENV_VAR : string := "COORDIN8_JWT_SECRET".
Definition VERIFY_SIGNATURE_ENV_VAR : string := "COORDIN8_AUTH_VERIFY_SIGNATURE".

Definition auth_from_env (env : string → option string) : AuthConfig := {|
  ac_secret := match env SECRET_ENV_VAR with
               | Some s => if negb (is_empty s) then Some s else None
               | None => None
               end;
  ac_verify_signature := match env VERIFY_SIGNATURE_ENV_VAR with
                         | Some v => negb (String.eqb v "false") && negb (String.eqb v "0")
                         | None => true
                         end;
  ac_issuer := None;
  ac_claims_check := None
|}.

Definition with_issuer (c : AuthConfig) (issuer : string) : AuthConfig :=
  {| ac_secret := ac_secret c; ac_verify_signature := ac_verify_signature c;
     ac_issuer := Some issuer; ac_claims_check := ac_claims_check c |}.

Definition with_claims_check (c : AuthConfig) (check : Claims → result unit Status) : AuthConfig :=
  {| ac_secret := ac_secret c; ac_verify_signature := ac_verify_signature c;
     ac_issuer := ac_issuer c; ac_claims_check := Some check |}.

Definition enabled (c : AuthConfig) : bool :=
  match ac_secret c with Some _ => true | None => false end.

Definition unauthenticated (why : string) : Status := mkStatus CUnauthenticated why.

Definition extract_bearer_token (req : metadata) : result string Status :=
  match req !! "authorization" with
  | None => Err (unauthenticated "missing authorization metadata")
  | Some Opaque => Err (unauthenticated "authorization metadata is not valid UTF-8")
  | Some (Text raw) =>
      ok_or (unauthenticated "authorization metadata must be a Bearer token")
        (strip_prefix "Bearer " raw)
  end.

Definition validate_baseline (now : Z) (claims : Claims) (required_issuer : option string)
  : result unit Status :=
  if (cm_exp claims <=? now)%Z then Err (unauthenticated "token expired")
  else match required_issuer with
  | Some required =>
      if negb (bool_decide (cm_iss claims = Some required))
      then Err (unauthenticated "token issuer not trusted")
      else Ok ()
  | None => Ok ()
  end.

Section auth.
Context {J : Jwt} {C : Chrono}.

Definition decode_and_verify (token secret : string) : result Claims Status :=
  map_err (λ e, unauthenticated ("invalid token: " +:+ e)) (jwt_decode secret token).

Definition decode_unverified (token : string) : result Claims Status :=
  map_err (λ e, unauthenticated ("malformed token: " +:+ e)) (jwt_decode_insecure token).

(** [validate], at instant [now]. *)
Definition validate (c : AuthConfig) (now : Z) (req : metadata) : result unit Status :=
  match ac_secret c with
  | None => Ok ()
  | Some secret =>
      let? token := extract_bearer_token req in
      let? claims := if ac_verify_signature c then decode_and_verify token secret
                     else decode_unverified token in
      let? _ := validate_baseline (timestamp now) claims (ac_issuer c) in
      match ac_claims_check c with
      | Some check => check claims
      | None => Ok ()
      end
  end.

(** The interceptor. *)
Definition auth_call (c : AuthConfig) (now : Z) (req : metadata) : result metadata Status :=
  let? _ := validate c now req in Ok req.

Definition mint_token (now : Z) (secret subject : string) (ttl : Z) (scope issuer : option string)
  : result string string :=
  jwt_encode secret {| cm_sub := subject; cm_iat := timestamp now;
                       cm_exp := timestamp (now + ttl); cm_scope := scope; cm_iss := issuer |}.

(** ** [ClientAuthConfig]: a token provider, read at the time of the call *)
Record ClientAuthConfig := { cc_provider : option (Z → option string) }.

Definition trust : ClientAuthConfig := {| cc_provider := None |}.

Definition five_minutes : Z := (300 * nanos_per_sec)%Z.

Definition self_minted (secret subject : string) : ClientAuthConfig :=
  {| cc_provider := Some (λ now,
       match mint_token now secret subject five_minutes None None with
       | Ok t => Some t
       | Err _ => None
       end) |}.

Definition from_provider (provider : Z → option string) : ClientAuthConfig :=
  {| cc_provider := Some provider |}.

Definition client_config (c : AuthConfig) (subject : string) : ClientAuthConfig :=
  match ac_secret c with
  | Some secret => self_minted secret subject
  | None => trust
  end.

(** [ClientAuthInterceptor::call]; [is_metadata] is what parses as a value. *)
Definition client_call (is_metadata : string → bool) (cc : ClientAuthConfig) (now : Z)
    (req : metadata) : result metadata Status :=
  match cc_provider cc with
  | None => Ok req
  | Some provider =>
      match provider now with
      | Some token =>
          if is_metadata ("Bearer " +:+ token)
          then Ok (<["authorization" := Text ("Bearer " +:+ token)]> req)
          else Err (mkStatus CInternal "token is not valid metadata")
      | None => Ok req
      end
  end.

(** ** Theorems *)

(** The claims a server reads from a token. *)
Definition reads (c : AuthConfig) (secret token : string) (claims : Claims) : Prop :=
  if ac_verify_signature c then jwt_decode secret token = Ok claims
  else jwt_decode_insecure token = Ok claims.

(** A step of the validation that fails with UNAUTHENTICATED. *)
Definition refused {A} (r : result A Status) : Prop :=
  ∃ st, r = Err st ∧ st_code st = CUnauthenticated.

Lemma extract_spec req :
  match extract_bearer_token req with
  | Ok token => req !! "authorization" = Some (Text ("Bearer " +:+ token))
  | Err st => st_code st = CUnauthenticated ∧
      ∀ token, req !! "authorization" ≠ Some (Text ("Bearer " +:+ token))
  end.
Proof.
  unfold extract_bearer_token. destruct (req !! "authorization") as [[raw|]|]; [|done..].
  destruct (strip_prefix "Bearer " raw) as [t|] eqn:E; cbn.
  - by apply strip_prefix_Some in E as ->.
  - split; [done|]. intros t [= ->]. by rewrite strip_prefix_app in E.
Qed.

Lemma baseline_spec now claims issuer :
  match validate_baseline now claims issuer with
  | Ok _ => (now < cm_exp claims)%Z ∧ ∀ iss, issuer = Some iss → cm_iss claims = Some iss
  | Err st => st_code st = CUnauthenticated ∧
      ¬ ((now < cm_exp claims)%Z ∧ ∀ iss, issuer = Some iss → cm_iss claims = Some iss)
  end.
Proof.
  unfold validate_baseline. destruct (Z.leb_spec (cm_exp claims) now); [split; [done|]; lia|].
  destruct issuer as [iss|]; [|by split].
  case_bool_decide as Hi; cbn; [split; [lia|]; by intros ? [= <-]|].
  split; [done|]. intros [_ Hall]. by apply Hi, Hall.
Qed.

Lemma auth_call_spec c now req :
  match ac_secret c with
  | None => auth_call c now req = Ok req
  | Some secret =>
      (auth_call c now req = Ok req ↔
        ∃ token claims, req !! "authorization" = Some (Text ("Bearer " +:+ token)) ∧
          reads c secret token claims ∧ (timestamp now < cm_exp claims)%Z ∧
          (∀ iss, ac_issuer c = Some iss → cm_iss claims = Some iss) ∧
          (∀ check, ac_claims_check c = Some check → check claims = Ok ())) ∧
      (ac_claims_check c = None → auth_call c now req = Ok req ∨ refused (auth_call c now req))
  end.
Proof.
  unfold auth_call, validate. destruct (ac_secret c) as [secret|]; [|done].
  pose proof (extract_spec req) as He.
  destruct (extract_bearer_token req) as [token|st]; cbn [rbind].
  2:{ destruct He as [Hst He]. split; [|intros _; right; by exists st].
      split; [done|]. intros (t & cl & Ht & _). by apply He in Ht. }
  set (dec := if ac_verify_signature c then _ else _).
  assert (Hdec : match dec with
    | Ok cl => reads c secret token cl
    | Err st => st_code st = CUnauthenticated ∧ ∀ cl, ¬ reads c secret token cl end).
  { unfold dec, reads, decode_and_verify, decode_unverified.
    destruct (ac_verify_signature c).
    - by destruct (jwt_decode secret token).
    - by destruct (jwt_decode_insecure token). }
  assert (Hinj : ∀ t cl, req !! "authorization" = Some (Text ("Bearer " +:+ t)) →
    reads c secret t cl → t = token ∧ (∀ cl0, dec = Ok cl0 → cl = cl0)).
  { intros t cl Ht Hr. assert (t = token) as ->.
    { assert (Heq : "Bearer " +:+ t = "Bearer " +:+ token) by congruence.
      apply (f_equal (strip_prefix "Bearer ")) in Heq. rewrite !strip_prefix_app in Heq. congruence. }
    split; [done|]. intros cl0 E. rewrite E in Hdec. unfold reads in *.
    destruct (ac_verify_signature c); congruence. }
  destruct dec as [claims|st] eqn:Edec; cbn [rbind].
  2:{ destruct Hdec as [Hst Hno]. split; [|intros _; right; by exists st].
      split; [done|]. intros (t & cl & Ht & Hr & _). destruct (Hinj t cl Ht Hr) as [-> _]. by apply Hno in Hr. }
  pose proof (baseline_spec (timestamp now) claims (ac_issuer c)) as Hb.
  destruct (validate_baseline _ _ _) as [[]|st]; cbn [rbind].
  2:{ destruct Hb as [Hst Hno]. split; [|intros _; right; by exists st].
      split; [done|]. intros (t & cl & Ht & Hr & Hx & Hi & _).
      destruct (Hinj t cl Ht Hr) as [-> Hcl]. rewrite (Hcl claims eq_refl) in *. by destruct Hno. }
  destruct Hb as [Hx Hi]. destruct (ac_claims_check c) as [check|].
  - split; [|done]. destruct (check claims) as [[]|st] eqn:Ec; cbn [rbind].
    + split; [|done]. intros _. exists token, claims. split_and!; try done. by intros ? [= <-].
    + split; [done|]. intros (t & cl & Ht & Hr & _ & _ & Hck).
      destruct (Hinj t cl Ht Hr) as [-> Hcl]. rewrite (Hcl claims eq_refl) in *.
      rewrite (Hck check eq_refl) in Ec. done.
  - cbn [rbind]. split; [|by left]. split; [|done]. intros _. exists token, claims. by split_and!.
Qed.

(** Without a secret every request passes, unchanged.  With one, a
    request passes exactly when its authorization is a bearer token that decodes
    (under the secret, when signatures are checked) to claims not yet expired,
    of the required issuer if there is one, that the service's own check accepts;
    when the service has no check of its own, every other request is answered
    UNAUTHENTICATED. *)
Theorem auth_decision c now req :
  match ac_secret c with
  | None => auth_call c now req = Ok req
  | Some secret =>
      (auth_call c now req = Ok req ↔
        ∃ token claims, req !! "authorization" = Some (Text ("Bearer " +:+ token)) ∧
          reads c secret token claims ∧ (timestamp now < cm_exp claims)%Z ∧
          (∀ iss, ac_issuer c = Some iss → cm_iss claims = Some iss) ∧
          (∀ check, ac_claims_check c = Some check → check claims = Ok ())) ∧
      (ac_claims_check c = None → auth_call c now req = Ok req ∨ refused (auth_call c now req))
  end.
Proof. apply auth_call_spec. Qed.

(** Two services that share a secret and add no issuer or check of their
    own can call each other: a call made with the first's own client
    configuration passes the second's interceptor for as long as the minted
    token lasts (five minutes), and, with no secret, nothing is attached. *)
Theorem self_minted_call_accepted is_metadata {JL : JwtLaws J is_metadata} {CL : ChronoLaws C}
    a b subject now now' req t :
  ac_secret a = ac_secret b → ac_issuer b = None → ac_claims_check b = None →
  mint_token now (default "" (ac_secret a)) subject five_minutes None None = Ok t →
  (timestamp now' < timestamp now + 300)%Z →
  ∃ req', client_call is_metadata (client_config a subject) now req = Ok req' ∧
    auth_call b now' req' = Ok req' ∧
    (ac_secret a = None → req' = req).
Proof.
  intros Hs Hi Hc Ht Hlt. unfold client_config. destruct (ac_secret a) as [secret|] eqn:Ha.
  - cbn in Ht. unfold client_call, self_minted. cbn. rewrite Ht. unfold mint_token in Ht.
    rewrite (jwt_metadata _ _ _ Ht). eexists. split; [done|]. split; [|done].
    pose proof (auth_call_spec b now' (<["authorization" := Text ("Bearer " +:+ t)]> req)) as Hd.
    rewrite <- Hs in Hd. apply Hd. exists t. eexists. split; [by rewrite lookup_insert_eq|]. split.
    + unfold reads. destruct (ac_verify_signature b).
      * by apply (jwt_roundtrip secret).
      * by apply (jwt_roundtrip_insecure secret).
    + cbn. split; [|rewrite Hi, Hc; by split].
      rewrite !timestamp_law in *. unfold five_minutes.
      rewrite Z.div_add by (unfold nanos_per_sec; lia). lia.
  - exists req. unfold client_call, auth_call, validate. rewrite <- Hs. done.
Qed.

(** Requiring an issuer shuts out the services' own calls: the tokens
    [client_config] mints carry no issuer, so a service configured with a secret
    and an issuer refuses every call a peer with that very configuration makes. *)
Theorem issuer_refuses_own_calls is_metadata {JL : JwtLaws J is_metadata}
    c issuer secret subject now now' req t :
  ac_secret c = Some secret →
  mint_token now secret subject five_minutes None None = Ok t →
  ∃ req', client_call is_metadata (client_config (with_issuer c issuer) subject) now req = Ok req' ∧
    auth_call (with_issuer c issuer) now' req' ≠ Ok req'.
Proof.
  intros Hs Ht. unfold client_config. cbn [with_issuer ac_secret]. rewrite Hs.
  unfold client_call, self_minted. cbn. rewrite Ht. unfold mint_token in Ht.
  rewrite (jwt_metadata _ _ _ Ht). eexists. split; [done|].
  pose proof (auth_call_spec (with_issuer c issuer) now'
    (<["authorization" := Text ("Bearer " +:+ t)]> req)) as Hd.
  cbn [with_issuer ac_secret] in Hd. rewrite Hs in Hd. destruct Hd as [Hd _].
  intros (t' & cl & Ht' & Hr & _ & Hi & _)%Hd. rewrite lookup_insert_eq in Ht'.
  assert (t' = t) as ->.
  { assert (Heq : "Bearer " +:+ t = "Bearer " +:+ t') by congruence.
    apply (f_equal (strip_prefix "Bearer ")) in Heq. rewrite !strip_prefix_app in Heq. congruence. }
  specialize (Hi issuer eq_refl). unfold reads in Hr. cbn in Hr.
  pose proof (jwt_roundtrip secret _ _ Ht) as H1.
  pose proof (jwt_roundtrip_insecure secret _ _ Ht) as H2.
  destruct (ac_verify_signature c).
  - rewrite H1 in Hr. injection Hr as <-. done.
  - rewrite H2 in Hr. injection Hr as <-. done.
Qed.
End auth.

(** ** A concrete library, for the witnesses: its token is the secret *)
Section samples.
#[local] Existing Instance chrono_sample.

Definition sample_claims : Claims :=
  {| cm_sub := "space"; cm_exp := 300; cm_iat := 0; cm_scope := None; cm_iss := None |}.

(** A library that knows one token per secret. *)
#[local] Instance toy_jwt : Jwt := {|
  jwt_encode := λ secret c,
    if bool_decide (cm_sub c = "space" ∧ cm_exp c = 300%Z ∧ cm_iat c = 0%Z ∧
                    cm_scope c = None ∧ cm_iss c = None)
    then Ok secret else Err "unsupported";
  jwt_decode := λ secret t, if String.eqb t secret then Ok sample_claims else Err "bad signature";
  jwt_decode_insecure := λ _, Ok sample_claims
|}.

#[local] Instance toy_jwt_laws : JwtLaws toy_jwt (λ _, true).
Proof.
  assert (Hc : ∀ secret c t, jwt_encode secret c = Ok t → t = secret ∧ c = sample_claims).
  { intros secret [sub ex ia sc iss] t. cbn. case_bool_decide as Hb; [|done].
    cbn in Hb. destruct Hb as (-> & -> & -> & -> & ->). by intros [= <-]. }
  split; [| |done]; intros secret c t [-> ->]%Hc; cbn; [by rewrite String.eqb_refl|done].
Qed.

Definition shared : AuthConfig := auth_from_env (λ v,
  if String.eqb v SECRET_ENV_VAR then Some "s3cret" else None).

Theorem self_minted_call_accepted_witness :
  ∃ req', client_call (λ _, true) (client_config shared "space") 0 ∅ = Ok req' ∧
    auth_call shared 100000000000 req' = Ok req' ∧ (ac_secret shared = None → req' = ∅).
Proof.
  apply (self_minted_call_accepted (λ _, true) (CL := chrono_sample_laws) shared shared "space"
    0 100000000000 ∅ "s3cret"); [reflexivity|reflexivity|reflexivity|reflexivity|by_compute].
Defined.

Theorem issuer_refuses_own_calls_witness :
  ∃ req', client_call (λ _, true) (client_config (with_issuer shared "corp") "space") 0 ∅ = Ok req' ∧
    auth_call (with_issuer shared "corp") 1 req' ≠ Ok req'.
Proof.
  apply (issuer_refuses_own_calls (λ _, true) shared "corp" "s3cret" "space" 0 1 ∅ "s3cret");
    reflexivity.
Defined.
End samples.
