(* ===== verification/Bootstrap.v ===== *)
(** * Bootstrap clients ([coordin8-bootstrap/src/lib.rs])

    What a service running in its own process uses to reach the others: the task
    that keeps its registry entry alive ([self_register]), the resolver that
    forwards lookups to the Registry, and the enlister that forwards enlistments
    to the transaction manager.  The network is a parameter: a call may be
    delivered, its request may be lost or its answer may be lost, and a connection
    may be refused. *)

From S2P Require Import Prelude CoreTypes LeaseCore LeaseStore LeaseManager LeaseService Matcher RegistryStore RegistryIndex RegistryService Proxy.

(** ** Errors and retries *)

(** What dialing reports: the address does not parse, or no connection. *)
Inductive ConnectError := InvalidAddress | ConnectFailed (msg : string).

Inductive BootError :=
| BTransport (msg : string)
| BStatus (s : Status)
| BMissingTransport (field : string).

(** The backoff after a failure, in milliseconds. *)
Definition next_backoff (backoff_ms : Z) : Z := Z.min (backoff_ms * 2) 5000.

(** [retry_forever] on the answers of the successive attempts: the value
    returned, if any attempt succeeded, and the pauses made. *)
Fixpoint retry_loop {T E} (backoff_ms : Z) (attempts : list (result T E))
  : option T * list Z :=
  match attempts with
  | [] => (None, [])
  | Ok v :: _ => (Some v, [])
  | Err _ :: rest =>
      let '(r, pauses) := retry_loop (next_backoff backoff_ms) rest in (r, backoff_ms :: pauses)
  end.

Definition retry_forever {T E} (attempts : list (result T E)) : option T * list Z :=
  retry_loop 100 attempts.

Definition entry_is_unusable (c : Code) : bool :=
  match c with CNotFound | CFailedPrecondition => true | _ => false end.

Definition is_transport_failure (s : Status) : bool :=
  match st_code s with
  | CUnavailable | CCancelled | CUnknown | CDeadlineExceeded => true
  | _ => false
  end.

(** ** Self-registration *)

(** [RegisterResponse] as a client decodes it: the lease may be absent. *)
Record RegisterReply := { ry_capability_id : string; ry_lease : option Lease }.

Record CurrentRegistration := { cu_lease_id : string; cu_capability_id : string }.

(** What the renewal task owns: the request it repeats, the registration it
    shares with the handle, and the id it logs. *)
Record RenewalTask := {
  rt_request : RegisterRequest;
  rt_current : CurrentRegistration;
  rt_log_cap_id : string
}.

Record SelfRegistrationHandle := {
  sr_initial_lease_id : string;
  sr_initial_capability_id : string;
  sr_task : RenewalTask;
  sr_renewal_interval : Z
}.

Definition with_ids (r : RegisterRequest) (cap lease : string) : RegisterRequest := {|
  rq_interface := rq_interface r; rq_attrs := rq_attrs r; rq_ttl_seconds := rq_ttl_seconds r;
  rq_transport := rq_transport r; rq_capability_id := cap; rq_lease_id := lease |}.

(** The first request of [self_register]. *)
Definition initial_request (interface : string) (attrs : attrs_map) (host : string) (port : Z)
    (ttl_seconds : Z) : RegisterRequest := {|
  rq_interface := interface;
  rq_attrs := attrs;
  rq_ttl_seconds := ttl_seconds;
  rq_transport := Some {| td_type := "grpc";
                          td_config := {["host" := host; "port" := pretty port]} |};
  rq_capability_id := "";
  rq_lease_id := ""
|}.

Definition reply_lease_id (resp : RegisterReply) : string :=
  match ry_lease resp with Some l => pl_lease_id l | None => "" end.

(** The rest of [self_register], given the answer to the first request. *)
Definition self_register (initial : RegisterRequest) (answer : result RegisterReply Status)
  : result SelfRegistrationHandle BootError :=
  let? resp := map_err BStatus answer in
  let capability_id := ry_capability_id resp in
  let lease_id := reply_lease_id resp in
  Ok {| sr_initial_lease_id := lease_id;
        sr_initial_capability_id := capability_id;
        sr_task := {| rt_request := with_ids initial capability_id lease_id;
                      rt_current := {| cu_lease_id := lease_id; cu_capability_id := capability_id |};
                      rt_log_cap_id := capability_id |};
        sr_renewal_interval := Z.max (rq_ttl_seconds initial) 3 `div` 3 |}.

(** Where the task is: waiting for the next tick, or about to register afresh. *)
Inductive Phase := Waiting | Recovering.

Definition set_lease (c : CurrentRegistration) (lease : string) : CurrentRegistration :=
  {| cu_lease_id := lease; cu_capability_id := cu_capability_id c |}.

(** The answer to the renewal a tick sends. *)
Definition on_renew (t : RenewalTask) (answer : result RegisterReply Status)
  : RenewalTask * Phase :=
  match answer with
  | Ok resp =>
      match ry_lease resp with
      | Some l => ({| rt_request := rt_request t;
                      rt_current := set_lease (rt_current t) (pl_lease_id l);
                      rt_log_cap_id := rt_log_cap_id t |}, Waiting)
      | None => (t, Waiting)
      end
  | Err e =>
      if entry_is_unusable (st_code e) then
        ({| rt_request := with_ids (rt_request t) "" "";
            rt_current := set_lease (rt_current t) "";
            rt_log_cap_id := rt_log_cap_id t |}, Recovering)
      else (t, Waiting)
  end.

(** The answer to the fresh registration. *)
Definition on_recover (t : RenewalTask) (answer : result RegisterReply Status) : RenewalTask :=
  match answer with
  | Ok resp =>
      let new_cap_id := ry_capability_id resp in
      let new_lease_id := reply_lease_id resp in
      {| rt_request := with_ids (rt_request t) new_cap_id new_lease_id;
         rt_current := {| cu_lease_id := new_lease_id; cu_capability_id := new_cap_id |};
         rt_log_cap_id := new_cap_id |}
  | Err _ => t
  end.

(** [SelfRegistrationHandle::cancel] after the task has stopped: the lease to
    cancel, if any, and what the answer of the call becomes. *)
Definition cancel_target (t : RenewalTask) : option string :=
  if is_empty (cu_lease_id (rt_current t)) then None else Some (cu_lease_id (rt_current t)).

Definition cancel_answer (answer : result unit Status) : result unit BootError :=
  match answer with
  | Ok _ => Ok ()
  | Err s => if bool_decide (st_code s = CNotFound) then Ok () else Err (BStatus s)
  end.

(** ** The task against the Registry *)

(** The fate of a call. *)
Inductive Fate := Delivered | RequestLost (s : Status) | ReplyLost (s : Status).

(** What the network itself reports is a transport failure. *)
Definition fate_ok (f : Fate) : bool :=
  match f with
  | Delivered => true
  | RequestLost s | ReplyLost s => is_transport_failure s
  end.

Definition over {V A} (f : Fate) (v : V) (served : V * result A Status) : V * result A Status :=
  match f with
  | Delivered => served
  | RequestLost s => (v, Err s)
  | ReplyLost s => (served.1, Err s)
  end.

Section self_registration.
Context {C : Chrono} {I : MapIter} {S L : Type} {RS : RegistryStore S} {LG : Leasing L}.
Implicit Types (v : RegistryService S L) (t : RenewalTask).

Definition wire_reply (p : RegisterResponse) : RegisterReply :=
  {| ry_capability_id := rp_capability_id p; ry_lease := Some (rp_lease p) |}.

(** [register] on the Registry's client. *)
Definition register_over (f : Fate) v (cap : string) (env : Env) (r : RegisterRequest)
  : RegistryService S L * result RegisterReply Status :=
  over f v (let '(v', res) := register_rpc v cap env r in (v', rmap wire_reply res)).

(** One tick with nothing in between its two calls: the fates of the calls and
    the ids and times the Registry would use to serve them. *)
Definition tick v t (f1 : Fate) (cap1 : string) (env1 : Env) (f2 : Fate) (cap2 : string) (env2 : Env)
  : RegistryService S L * RenewalTask :=
  let '(v1, answer) := register_over f1 v cap1 env1 (rt_request t) in
  let '(t1, phase) := on_renew t answer in
  match phase with
  | Waiting => (v1, t1)
  | Recovering =>
      let '(v2, answer2) := register_over f2 v1 cap2 env2 (rt_request t1) in
      (v2, on_recover t1 answer2)
  end.

(** [cancel] on the client of the Registry's lease service. *)
Definition cancel_over (f : Fate) v (lease : string) : RegistryService S L * result unit Status :=
  over f v (let '(l', res) := lg_cancel (rv_leases v) lease in
            (with_leases v l', map_err internal_status res)).

Definition handle_cancel (f : Fate) v t : RegistryService S L * result unit BootError :=
  match cancel_target t with
  | None => (v, Ok ())
  | Some lease => let '(v', res) := cancel_over f v lease in (v', cancel_answer res)
  end.
End self_registration.

(** ** Theorems: self-registration *)
Section registration_theorems.
Context {C : Chrono} {I : MapIter} {S L : Type}.
Context {RS : RegistryStore S} {RV : RegistryStoreView S} {RL : RegistryStoreLaws S}.
Context {LG : Leasing L} {LGV : LeasingView L} {LGL : LeasingLaws L}.
Implicit Types (v : RegistryService S L) (t : RenewalTask) (r : RegisterRequest).

Abbreviation ents v := (rg_entries (rv_store v)).

(** The grantor files a lease under its own id. *)
Definition keyed_leases v : Prop :=
  ∀ id rec, lg_leases (rv_leases v) !! id = Some rec → lr_lease_id rec = id.

(** The ids the Registry draws are new and not empty. *)
Definition fresh_ids v (cap : string) (env : Env) : Prop :=
  cap ≠ "" ∧ uuid env ≠ "" ∧ ents v !! cap = None ∧ lease_unused (ents v) (uuid env).

(** The service of request [r] is in the registry, as [cap] under [lease]. *)
Definition registered v r (cap lease : string) : Prop :=
  ents v !! cap = Some (mkEntry cap lease (rq_interface r) (rq_attrs r)
                          (transport_config <$> rq_transport r)) ∧
  is_Some (lg_leases (rv_leases v) !! lease).

(** A request cites no entry, or one whose lease it can present. *)
Definition cites v r : Prop :=
  (rq_capability_id r = "" ∧ rq_lease_id r = "") ∨
  (rq_capability_id r ≠ "" ∧ rq_lease_id r ≠ "" ∧
   ∀ e, ents v !! rq_capability_id r = Some e → re_lease_id e = rq_lease_id r).

(** What the Registry answers to a request that cites an entry properly. *)
Lemma register_rpc_spec v cap env r :
  rg_inv (rv_store v) → keyed_leases v → fresh_ids v cap env → cites v r →
  let v' := (register_rpc v cap env r).1 in
  rg_inv (rv_store v') ∧ keyed_leases v' ∧
  match (register_rpc v cap env r).2 with
  | Ok resp =>
      let lease := pl_lease_id (rp_lease resp) in
      registered v' r (rp_capability_id resp) lease ∧
      ((rq_capability_id r = "" ∧ rp_capability_id resp = cap ∧ lease = uuid env ∧
        dom (ents v') = {[cap]} ∪ dom (ents v)) ∨
       (rq_capability_id r ≠ "" ∧ rp_capability_id resp = rq_capability_id r ∧
        lease = rq_lease_id r ∧ dom (ents v') = dom (ents v)))
  | Err st =>
      ents v' = ents v ∧ lg_leases (rv_leases v') = lg_leases (rv_leases v) ∧
      (if is_empty (rq_capability_id r)
       then st_code st = CInternal ∧
         ∃ e, (lg_grant (rv_leases v) env ("registry:" +:+ cap) (rq_ttl_seconds r)).2 = Err e
       else entry_is_unusable (st_code st) = true)
  end.
Proof.
  intros Hinv Hkey (Hcap & Hu & Hnone & Hun) Hcites v'. subst v'. unfold register_rpc.
  destruct Hcites as [[Hc Hl]|(Hc & Hl & Hown)].
  - rewrite Hc. cbn [is_empty negb].
    destruct (register_new_effect v cap env r Hinv Hnone Hun "") as [Hinv' _].
    pose proof (register_new_spec v cap env r Hinv Hnone Hun) as Hs. cbn zeta in Hs.
    destruct (register_new v cap env r) as [v' [resp|st]]; cbn [fst snd] in *.
    + destruct Hs as (-> & -> & He & rec & Hid & Hlm). split; [done|].
      split; [|split; [split|]].
      * intros id rc. rewrite Hlm. intros [[<- <-]|[_ ?]]%lookup_insert_Some; [done|eauto].
      * by rewrite He, lookup_insert_eq.
      * rewrite Hlm, lookup_insert_eq. by eexists.
      * left. split_and!; [done..|]. rewrite He. by rewrite dom_insert_L.
    + destruct Hs as (Hst & He & Hlm & Hg). split; [done|]. split; [|done].
      intros id rc. rewrite Hlm. apply Hkey.
  - destruct (is_empty (rq_capability_id r)) eqn:Hemp; [by apply is_empty_true in Hemp|].
    cbn [negb]. destruct (reregister_effect v env r Hinv) as [Hinv' _].
    destruct (ents v !! rq_capability_id r) as [e|] eqn:He.
    2:{ unfold reregister, get in *. rewrite rg_get_law, He in *. cbn. done. }
    specialize (Hown e eq_refl).
    pose proof (reregister_spec v env r e Hinv He (eq_sym Hown) Hl) as Hs. cbn zeta in Hs.
    pose proof (lg_renew_law (rv_leases v) env (re_lease_id e) (rq_ttl_seconds r)) as Hr.
    assert (Hlv : rv_leases (reregister v env r).1 =
      (lg_renew (rv_leases v) env (re_lease_id e) (rq_ttl_seconds r)).1).
    { unfold reregister, get. rewrite rg_get_law, He.
      rewrite (proj2 (check_owner_ok e (rq_lease_id r))) by done.
      destruct (lg_renew _ _ _ _) as [l' [rec|]]; [|done]. destruct (_ || _); [|done].
      destruct (update _ _) as [s' [|]]; done. }
    destruct (reregister v env r) as [v' res]. cbn [fst snd] in *.
    destruct (lg_renew _ _ _ _) as [l' [rec|err]]; cbn [fst snd] in *.
    + destruct Hs as (-> & Hents & _). destruct Hr as (Hlm & old & Hold & _ & Hid & _).
      assert (Hrec : lr_lease_id rec = re_lease_id e) by (rewrite Hid; eauto).
      split; [done|]. split; [|split; [split|]].
      * intros id rc. rewrite Hlv, Hlm. intros [[<- <-]|[_ ?]]%lookup_insert_Some; [done|eauto].
      * rewrite Hents. cbn. rewrite lookup_insert_eq. unfold requested_entry. by rewrite Hrec.
      * cbn. rewrite Hrec, Hlv, Hlm, lookup_insert_eq. by eexists.
      * right. cbn. split_and!; [done|done|congruence|].
        rewrite Hents, dom_insert_L. apply elem_of_dom_2 in He. set_solver.
    + destruct Hs as (-> & Hents & _). split; [done|]. split; [|split; [done|split; [|done]]].
      * intros id rc. rewrite Hlv, Hr. apply Hkey.
      * by rewrite Hlv, Hr.
Qed.

(** *** Histories of the task *)

(** States of the Registry and of the task of a service described by [base]:
    after the first registration, the calls of the task with any fate, and any
    activity of the Registry and of its other clients between any two of them
    (which never brings back the task's own capability id). *)
Inductive boot_reach (base : RegisterRequest) : RegistryService S L → RenewalTask → Phase → Prop :=
| boot_init v cap env v' answer h :
    rg_inv (rv_store v) → keyed_leases v → fresh_ids v cap env →
    rq_capability_id base = "" → rq_lease_id base = "" →
    register_over Delivered v cap env base = (v', answer) →
    self_register base answer = Ok h →
    boot_reach base v' (sr_task h) Waiting
| boot_renew v t f cap env v' answer t' ph :
    boot_reach base v t Waiting → fate_ok f = true → fresh_ids v cap env →
    register_over f v cap env (rt_request t) = (v', answer) →
    on_renew t answer = (t', ph) →
    boot_reach base v' t' ph
| boot_recover v t f cap env v' answer :
    boot_reach base v t Recovering → fate_ok f = true → fresh_ids v cap env →
    register_over f v cap env (rt_request t) = (v', answer) →
    boot_reach base v' (on_recover t answer) Waiting
| boot_other v t ph who v' :
    boot_reach base v t ph → reg_step v who v' → keyed_leases v' →
    (ents v !! rq_capability_id (rt_request t) = None →
     ents v' !! rq_capability_id (rt_request t) = None) →
    boot_reach base v' t ph.

Record boot_ok (base : RegisterRequest) v t (ph : Phase) : Prop := {
  bk_inv : rg_inv (rv_store v);
  bk_keyed : keyed_leases v;
  bk_data : with_ids (rt_request t) "" "" = with_ids base "" "";
  bk_cites : cites v (rt_request t);
  bk_tracks : rq_capability_id (rt_request t) ≠ "" →
    cu_capability_id (rt_current t) = rq_capability_id (rt_request t) ∧
    cu_lease_id (rt_current t) = rq_lease_id (rt_request t);
  bk_phase : ph = Recovering →
    rq_capability_id (rt_request t) = "" ∧ cu_lease_id (rt_current t) = ""
}.

Lemma registered_cites v r r' cap lease :
  registered v r cap lease → cap ≠ "" → lease ≠ "" → cites v (with_ids r' cap lease).
Proof.
  intros [He _] Hc Hl. right. cbn. split_and!; [done..|]. intros e. rewrite He. by intros [= <-].
Qed.

Lemma cites_eq v v' r : ents v' = ents v → cites v r → cites v' r.
Proof. unfold cites. by intros ->. Qed.

(** The Registry as the task sees it after a call: as before, or served. *)
Lemma register_over_spec f v cap env r v' answer :
  rg_inv (rv_store v) → keyed_leases v → fresh_ids v cap env → cites v r → fate_ok f = true →
  register_over f v cap env r = (v', answer) →
  rg_inv (rv_store v') ∧ keyed_leases v' ∧ cites v' r ∧
  match answer with
  | Ok resp =>
      ∃ l, ry_lease resp = Some l ∧ registered v' r (ry_capability_id resp) (pl_lease_id l) ∧
      ry_capability_id resp ≠ "" ∧ pl_lease_id l ≠ "" ∧
      (rq_capability_id r ≠ "" →
       ry_capability_id resp = rq_capability_id r ∧ pl_lease_id l = rq_lease_id r)
  | Err st =>
      rq_capability_id r = "" → entry_is_unusable (st_code st) = false
  end.
Proof.
  intros Hinv Hkey Hfr Hci Hf Hover.
  pose proof (register_rpc_spec v cap env r Hinv Hkey Hfr Hci) as Hs. cbn zeta in Hs.
  assert (Hlost : ∀ st, is_transport_failure st = true → entry_is_unusable (st_code st) = false)
    by (intros [[]]; done).
  assert (Hcites : ∀ v2 res, register_rpc v cap env r = (v2, res) → cites v2 r).
  { intros v2 res E. rewrite E in Hs. destruct Hs as (_ & _ & Hs). cbn in Hs.
    destruct res as [resp|st]; [|by apply (cites_eq v); destruct Hs].
    destruct Hs as [Hreg [(Hc & _)|(Hc & Hc' & Hl & _)]].
    - destruct Hci as [?|[]]; [by left|done].
    - destruct Hci as [[]|(_ & Hne & _)]; [done|]. rewrite Hc', Hl in Hreg.
      right. split_and!; [done..|]. destruct Hreg as [He _]. intros e.
      rewrite He. by intros [= <-]. }
  unfold register_over in Hover. destruct (register_rpc v cap env r) as [v2 res] eqn:E.
  specialize (Hcites _ _ eq_refl). cbn in Hs. destruct Hs as (Hinv2 & Hkey2 & Hs).
  destruct f as [|st|st]; cbn in Hover; injection Hover as <- <-; [|split_and!; auto..].
  split_and!; [done..|]. destruct res as [resp|st]; cbn.
  - destruct Hs as [Hreg Hs]. exists (rp_lease resp). destruct Hfr as (Hc & Hu & _).
    destruct Hs as [(Hrc & Ec & El & _)|(Hrc & Ec & El & _)]; rewrite Ec, El in *.
    + by split_and!.
    + destruct Hci as [[]|(_ & Hne & _)]; [done|]. by split_and!.
  - intros Hrc. rewrite Hrc in Hs. cbn in Hs. destruct Hs as (_ & _ & -> & _). done.
Qed.

(** Any activity of the Registry keeps what a request cites. *)
Lemma reg_step_cites v who v' r :
  rg_inv (rv_store v) → reg_step v who v' → cites v r →
  (ents v !! rq_capability_id r = None → ents v' !! rq_capability_id r = None) → cites v' r.
Proof.
  intros Hinv Hstep [?|(Hc & Hl & Hown)] Hnew; [by left|]. right. split_and!; [done..|].
  intros e He. destruct (ents v !! rq_capability_id r) as [old|] eqn:Hold;
    [|by rewrite Hnew in He]. specialize (Hown old eq_refl).
  destruct (reg_step_effect v who v' Hinv Hstep)
    as [_ [[Hv _]|[(ty & e' & _ & Hv & _ & Hw)|(e' & He' & _ & Hv & _)]]]; rewrite Hv in He.
  - congruence.
  - apply lookup_insert_Some in He as [[Hk <-]|[_ He]]; [|congruence].
    rewrite Hk, Hold in Hw. destruct Hw; congruence.
  - apply lookup_delete_Some in He as [_ He]. congruence.
Qed.

Lemma boot_reach_ok base v t ph : boot_reach base v t ph → boot_ok base v t ph.
Proof.
  induction 1 as [v cap env v' answer h Hinv Hkey Hfr Hbc Hbl Hover Hself
    |v t f cap env v' answer t' ph _ IH Hf Hfr Hover Hon
    |v t f cap env v' answer _ IH Hf Hfr Hover
    |v t ph who v' _ IH Hstep Hkey Hnew].
  - destruct (register_over_spec Delivered v cap env base v' answer) as (Hi & Hk & _ & Ha);
      [done..|by left|done|done|].
    destruct answer as [resp|]; [|done]. injection Hself as <-.
    destruct Ha as (l & El & Hreg & Hc & Hl & _). unfold reply_lease_id. rewrite El.
    split; cbn; [done|done| |by eapply registered_cites|done|done]. done.
  - destruct IH as [Hinv Hkey Hdata Hci Htr _].
    destruct (register_over_spec f v cap env _ v' answer Hinv Hkey Hfr Hci Hf Hover)
      as (Hi & Hk & Hci' & Ha).
    destruct answer as [resp|st]; cbn in Hon.
    + destruct Ha as (l & El & _ & _ & _ & Hsame). rewrite El in Hon. injection Hon as <- <-.
      split; [done..| |done]. cbn. intros Hc. destruct (Htr Hc), (Hsame Hc). split; congruence.
    + destruct (entry_is_unusable (st_code st)); injection Hon as <- <-; [|by split].
      split; [done|done|exact Hdata|by left|done|done].
  - destruct IH as [Hinv Hkey Hdata Hci Htr Hph].
    destruct (register_over_spec f v cap env _ v' answer Hinv Hkey Hfr Hci Hf Hover)
      as (Hi & Hk & Hci' & Ha).
    destruct answer as [resp|st]; [|by split].
    destruct Ha as (l & El & Hreg & Hc & Hl & _). cbn. unfold reply_lease_id. rewrite El.
    split; [done|done|exact Hdata|by eapply registered_cites|done|done].
  - destruct IH as [Hinv Hk Hdata Hci Htr Hph]. split; [|done|done| |done|done].
    + by destruct (reg_step_effect v who v' Hinv Hstep).
    + by eapply reg_step_cites.
Qed.

(** *** One tick *)

Lemma registered_base v base r cap lease :
  with_ids r "" "" = with_ids base "" "" → registered v r cap lease → registered v base cap lease.
Proof. unfold registered. by intros [= -> -> _ ->]. Qed.

(** The grantor accepts a new registration. *)
Definition grants v (cap : string) (env : Env) (ttl : Z) : Prop :=
  ∃ rec, (lg_grant (rv_leases v) env ("registry:" +:+ cap) ttl).2 = Ok rec.

(** C30: Self-registration repairs itself.  Whatever calls were lost, expired
    or reclaimed before, one undisturbed tick of the renewal task leaves the
    service in the registry with its own data, under a lease the Registry holds
    and which is the one the handle cancels at shutdown. *)
Theorem one_tick_heals base v t cap1 env1 cap2 env2 :
  boot_reach base v t Waiting →
  fresh_ids v cap1 env1 → fresh_ids v cap2 env2 →
  grants v cap1 env1 (rq_ttl_seconds base) →
  grants (register_rpc v cap1 env1 (rt_request t)).1 cap2 env2 (rq_ttl_seconds base) →
  let '(v', t') := tick v t Delivered cap1 env1 Delivered cap2 env2 in
  ∃ cap, registered v' base cap (cu_lease_id (rt_current t')).
Proof.
  intros [Hinv Hkey Hdata Hci Htr _]%boot_reach_ok Hfr1 Hfr2 [g1 Hg1] [g2 Hg2].
  assert (Httl : rq_ttl_seconds (rt_request t) = rq_ttl_seconds base)
    by exact (f_equal rq_ttl_seconds Hdata).
  pose proof (register_rpc_spec v cap1 env1 (rt_request t) Hinv Hkey Hfr1 Hci) as Hs.
  unfold tick, register_over, over. cbn zeta in Hs.
  destruct (register_rpc v cap1 env1 (rt_request t)) as [v1 [resp|st]]; cbn in *.
  - destruct Hs as (_ & _ & Hreg & _). eexists. by eapply registered_base.
  - destruct Hs as (Hinv1 & Hkey1 & He & _ & Hst).
    destruct (is_empty (rq_capability_id (rt_request t))).
    { destruct Hst as [_ [e Hg]]. rewrite Httl in Hg. congruence. }
    rewrite Hst. set (r2 := with_ids (rt_request t) "" "").
    assert (Hfr : fresh_ids v1 cap2 env2) by (unfold fresh_ids in *; by rewrite He).
    pose proof (register_rpc_spec v1 cap2 env2 r2 Hinv1 Hkey1 Hfr ltac:(by left)) as Hs2.
    cbn [rt_request]. cbn zeta in Hs2.
    destruct (register_rpc v1 cap2 env2 r2) as [v2 [resp|st2]]; cbn in *.
    + destruct Hs2 as (_ & _ & Hreg & _). eexists. by eapply registered_base.
    + destruct Hs2 as (_ & _ & _ & _ & _ & e & Hg). rewrite Httl in Hg. congruence.
Qed.

(** *** Renewals in a row *)

(** Ticks whose renewal is delivered and accepted; [caps] are the ids the
    Registry had ready for them. *)
Inductive renewals : RegistryService S L → RenewalTask → list string →
    RegistryService S L → RenewalTask → Prop :=
| renewals_nil v t : renewals v t [] v t
| renewals_cons v t cap env v1 resp t1 ph caps v' t' :
    fresh_ids v cap env →
    register_over Delivered v cap env (rt_request t) = (v1, Ok resp) →
    on_renew t (Ok resp) = (t1, ph) →
    renewals v1 t1 caps v' t' →
    renewals v t (cap :: caps) v' t'.

(** One accepted renewal keeps the request, and adds an entry exactly when the
    request cites none. *)
Lemma renewal_step v t cap env v1 resp t1 ph :
  rg_inv (rv_store v) → keyed_leases v → fresh_ids v cap env → cites v (rt_request t) →
  register_over Delivered v cap env (rt_request t) = (v1, Ok resp) →
  on_renew t (Ok resp) = (t1, ph) →
  rg_inv (rv_store v1) ∧ keyed_leases v1 ∧ rt_request t1 = rt_request t ∧
  cites v1 (rt_request t) ∧ cu_capability_id (rt_current t1) = cu_capability_id (rt_current t) ∧
  dom (ents v1) = (if is_empty (rq_capability_id (rt_request t)) then {[cap]} else ∅) ∪ dom (ents v).
Proof.
  intros Hinv Hkey Hfr Hci Hover Hon.
  destruct (register_over_spec Delivered v cap env (rt_request t) v1 (Ok resp))
    as (Hi & Hk & Hci' & l & El & _); [done..|].
  cbn in Hon. rewrite El in Hon. injection Hon as <- _. split_and!; [done..|].
  pose proof (register_rpc_spec v cap env (rt_request t) Hinv Hkey Hfr Hci) as Hs.
  unfold register_over, over in Hover. destruct (register_rpc _ _ _ _) as [v2 [p|]]; [|done].
  injection Hover as <- <-. destruct Hs as (_ & _ & _ & [(Hc & _ & _ & Hd)|(Hc & _ & _ & Hd)]);
    cbn in Hd; rewrite Hd.
  - by rewrite Hc.
  - destruct (is_empty _) eqn:E; [by apply is_empty_true in E|]. set_solver.
Qed.

(** Renewals in a row.  A task whose request cites its entry registers
    nothing new, however often it renews.  A task left without ids by a failed
    recovery registers one more entry at every tick: it never adopts the ids it
    is given, and the handle goes on reporting the old capability. *)
Theorem renewal_footprint base v t caps v' t' :
  boot_reach base v t Waiting → renewals v t caps v' t' →
  rt_request t' = rt_request t ∧
  cu_capability_id (rt_current t') = cu_capability_id (rt_current t) ∧
  (if is_empty (rq_capability_id (rt_request t))
   then dom (ents v') = list_to_set caps ∪ dom (ents v) ∧
        size (ents v') = size (ents v) + length caps
   else dom (ents v') = dom (ents v)).
Proof.
  intros [Hinv Hkey _ Hci _ _]%boot_reach_ok Hr.
  induction Hr as [v t|v t cap env v1 resp t1 ph caps v' t' Hfr Hover Hon Hr IH].
  { split_and!; [done..|]. destruct (is_empty _); [|done]. split; [set_solver|cbn; lia]. }
  destruct (renewal_step v t cap env v1 resp t1 ph) as (Hi & Hk & Hrq & Hc1 & Hcu & Hd); [done..|].
  rewrite Hrq in IH. destruct (IH Hi Hk Hc1) as (Hrq' & Hcu' & Hend).
  split_and!; [done|congruence|]. destruct (is_empty _); [|set_solver].
  destruct Hend as [Hall Hsz]. destruct Hfr as (_ & _ & Hnone & _).
  assert (Hsz1 : size (ents v1) = size (ents v) + 1).
  { rewrite <- !size_dom, Hd, size_union, size_singleton; [lia|].
    apply not_elem_of_dom in Hnone. set_solver. }
  split; [|rewrite Hsz, Hsz1; cbn; lia].
  rewrite Hall, Hd, list_to_set_cons. clear. set_solver.
Qed.

(** Graceful shutdown.  While the task cites an entry, the lease the
    handle cancels is that entry's: after a delivered cancel the Registry no
    longer holds the lease, and the reclaim it triggers removes that entry and
    no other.  A failed call is reported, except when the lease was already
    gone. *)
Theorem cancel_unregisters base v t :
  boot_reach base v t Waiting → rq_capability_id (rt_request t) ≠ "" →
  let '(v', res) := handle_cancel Delivered v t in
  let lease := cu_lease_id (rt_current t) in
  let cap := cu_capability_id (rt_current t) in
  res = Ok () ∧ lg_leases (rv_leases v') !! lease = None ∧
  ents (reclaim_entry v' lease) !! cap = None ∧
  (is_Some (ents v !! cap) → ents (reclaim_entry v' lease) = delete cap (ents v)).
Proof.
  intros [Hinv _ _ Hci Htr _]%boot_reach_ok Hc. destruct (Htr Hc) as [Hcu Hlu]. rewrite Hcu, Hlu.
  destruct Hci as [[]|(_ & Hl & Hown)]; [done|].
  unfold handle_cancel, cancel_target. rewrite Hlu.
  destruct (is_empty _) eqn:E; [by apply is_empty_true in E|]. cbn.
  pose proof (lg_cancel_law (rv_leases v) (rq_lease_id (rt_request t))) as Hlaw.
  destruct (lg_cancel _ _) as [l' res]. destruct Hlaw as [-> Hdel]. cbn.
  split; [done|]. split; [by rewrite Hdel, lookup_delete_eq|].
  set (lease := rq_lease_id _) in *. set (cap := rq_capability_id _) in *.
  pose proof (reclaim_entry_effect (with_leases v l') lease Hinv) as [_ Heff]. cbn in Heff.
  unfold reclaim_entry, unregister_by_lease in *. cbn in *.
  pose proof (rg_remove_by_lease_law (rv_store v) lease Hinv) as Hrm.
  destruct (rg_remove_by_lease _ _) as [s' r'].
  destruct Hrm as (_ & [(c & e & He & Hle & -> & Hv)|(Hun & -> & Hv)]); cbn in *; rewrite Hv.
  - assert (Hsame : is_Some (ents v !! cap) → c = cap).
    { intros [e' He']. destruct (rg_inv_wf _ Hinv) as [_ Huniq].
      eapply Huniq; [done..|]. by rewrite (Hown e' He'). }
    split; [|by intros Hs; rewrite (Hsame Hs)].
    destruct (ents v !! cap) as [e'|] eqn:He'.
    + rewrite (Hsame (mk_is_Some _ _ eq_refl)). apply lookup_delete_eq.
    + apply lookup_delete_None. auto.
  - assert (ents v !! cap = None) as Hn.
    { destruct (ents v !! cap) as [e|] eqn:He; [|done]. by destruct (Hun cap e He (Hown e eq_refl)). }
    split; [done|]. intros []. congruence.
Qed.
End registration_theorems.

(** ** A concrete service *)
Section registration_samples.
#[local] Existing Instance chrono_sample.
#[local] Existing Instance canonical_iter.

Abbreviation LocalRegistry :=
  (RegistryService InMemoryRegistryStore (LeaseManager InMemoryLeaseStore)).

Definition boot_base : RegisterRequest := initial_request "Space" {["zone" := "a"]} "space" 9006 30.

Definition boot_env (id : string) : Env := {| now := 0; now2 := 0; uuid := id |}.

Definition boot_v1 : LocalRegistry := (register_rpc sample_empty "cap-1" (boot_env "lease-1") boot_base).1.

Definition boot_task (cap lease : string) (request_ids : string * string) : RenewalTask := {|
  rt_request := with_ids boot_base request_ids.1 request_ids.2;
  rt_current := {| cu_lease_id := lease; cu_capability_id := cap |};
  rt_log_cap_id := cap |}.

(** Registered; then the lease expired and the entry was reclaimed. *)
Definition boot_t1 : RenewalTask := boot_task "cap-1" "lease-1" ("cap-1", "lease-1").
Definition boot_v2 : LocalRegistry := reclaim_entry boot_v1 "lease-1".

Definition boot_handle : SelfRegistrationHandle := {|
  sr_initial_lease_id := "lease-1"; sr_initial_capability_id := "cap-1";
  sr_task := boot_t1; sr_renewal_interval := 10 |}.

(** The recovery of the next tick is served, but its answer is lost. *)
Definition boot_t3 : RenewalTask := boot_task "cap-1" "" ("", "").
Definition boot_v3 : LocalRegistry :=
  (register_rpc boot_v2 "cap-2" (boot_env "lease-2") (with_ids boot_base "" "")).1.

Lemma keyed_local v :
  bool_decide (map_Forall (λ id rec, lr_lease_id rec = id)
    (lg_leases (rv_leases (v : LocalRegistry)))) = true →
  keyed_leases v.
Proof. intros Hall%bool_decide_eq_true id rec Hid. by apply (Hall id rec). Qed.

Lemma fresh_local v cap env :
  bool_decide (cap ≠ "" ∧ uuid env ≠ "" ∧
    rg_entries (rv_store (v : LocalRegistry)) !! cap = None ∧
    map_Forall (λ _ e, re_lease_id e ≠ uuid env) (rg_entries (rv_store v))) = true →
  fresh_ids v cap env.
Proof.
  intros (Hc & Hu & Hn & Hall)%bool_decide_eq_true. split_and!; [done..|].
  intros c e He Heq. by apply (Hall c e).
Qed.

Lemma grants_local v cap env ttl :
  match (lg_grant (rv_leases (v : LocalRegistry)) env ("registry:" +:+ cap) ttl).2 with
  | Ok _ => true | Err _ => false end = true → grants v cap env ttl.
Proof. unfold grants. destruct (_.2); [eauto|done]. Qed.

Lemma boot_reach_registered : boot_reach boot_base boot_v1 boot_t1 Waiting.
Proof.
  change boot_t1 with (sr_task boot_handle).
  eapply (boot_init boot_base sample_empty "cap-1" (boot_env "lease-1") boot_v1).
  - apply store_inv_new.
  - apply keyed_local. by vm_compute.
  - apply fresh_local. by vm_compute.
  - done.
  - done.
  - reflexivity.
  - reflexivity.
Qed.

Lemma boot_reach_reclaimed : boot_reach boot_base boot_v2 boot_t1 Waiting.
Proof.
  eapply boot_other; [apply boot_reach_registered|apply (step_reclaim boot_v1 "lease-1")| |].
  - apply keyed_local. by vm_compute.
  - intros _. reflexivity.
Qed.

Definition lost : Fate := ReplyLost (mkStatus CUnavailable "connection reset").

Lemma boot_reach_failed_recovery : boot_reach boot_base boot_v3 boot_t3 Waiting.
Proof.
  change boot_t3 with (on_recover boot_t3 (Err (mkStatus CUnavailable "connection reset"))).
  eapply (boot_recover boot_base boot_v2 boot_t3 lost "cap-2" (boot_env "lease-2")).
  - eapply (boot_renew boot_base boot_v2 boot_t1 Delivered "cap-x" (boot_env "lease-x"));
      [apply boot_reach_reclaimed|done|apply fresh_local; by vm_compute|reflexivity|reflexivity].
  - done.
  - apply fresh_local. by vm_compute.
  - reflexivity.
Qed.

Theorem one_tick_heals_witness :
  let '(v', t') := tick boot_v2 boot_t1 Delivered "cap-3" (boot_env "lease-3")
                     Delivered "cap-4" (boot_env "lease-4") in
  ∃ cap, registered v' boot_base cap (cu_lease_id (rt_current t')).
Proof.
  apply (one_tick_heals boot_base boot_v2 boot_t1).
  - exact boot_reach_reclaimed.
  - apply fresh_local. by vm_compute.
  - apply fresh_local. by vm_compute.
  - apply grants_local. by vm_compute.
  - apply grants_local. by vm_compute.
Defined.

Definition boot_v4 : LocalRegistry :=
  (register_rpc boot_v3 "cap-3" (boot_env "lease-3") (with_ids boot_base "" "")).1.
Definition boot_v5 : LocalRegistry :=
  (register_rpc boot_v4 "cap-4" (boot_env "lease-4") (with_ids boot_base "" "")).1.

Definition boot_reply (v : LocalRegistry) (cap lease : string) : RegisterReply :=
  match (register_rpc v cap (boot_env lease) (with_ids boot_base "" "")).2 with
  | Ok p => wire_reply p
  | Err _ => {| ry_capability_id := ""; ry_lease := None |}
  end.

Lemma boot_delivered v cap lease :
  bool_decide (ry_capability_id (boot_reply v cap lease) ≠ "") = true →
  register_over Delivered v cap (boot_env lease) (with_ids boot_base "" "") =
    ((register_rpc v cap (boot_env lease) (with_ids boot_base "" "")).1, Ok (boot_reply v cap lease)).
Proof.
  unfold boot_reply, register_over, over. by destruct (register_rpc _ _ _ _) as [v' [p|]].
Qed.

Lemma two_renewals :
  renewals boot_v3 boot_t3 ["cap-3"; "cap-4"] boot_v5 (boot_task "cap-1" "lease-4" ("", "")).
Proof.
  apply (renewals_cons _ _ _ (boot_env "lease-3") boot_v4 (boot_reply boot_v3 "cap-3" "lease-3")
    (boot_task "cap-1" "lease-3" ("", "")) Waiting);
    [apply fresh_local; by vm_compute|apply boot_delivered; by vm_compute|by vm_compute|].
  apply (renewals_cons _ _ _ (boot_env "lease-4") boot_v5 (boot_reply boot_v4 "cap-4" "lease-4")
    (boot_task "cap-1" "lease-4" ("", "")) Waiting);
    [apply fresh_local; by vm_compute|apply boot_delivered; by vm_compute|by vm_compute|].
  apply renewals_nil.
Qed.

(** Two more entries for one service after two renewals. *)
Theorem renewal_footprint_witness :
  size (rg_entries (rv_store boot_v5)) = size (rg_entries (rv_store boot_v3)) + 2.
Proof.
  exact (proj2 (proj2 (proj2 (renewal_footprint boot_base boot_v3 boot_t3 _ _ _
    boot_reach_failed_recovery two_renewals)))).
Defined.

Theorem cancel_unregisters_witness :
  let '(v', res) := handle_cancel Delivered boot_v1 boot_t1 in
  res = Ok () ∧ lg_leases (rv_leases v') !! "lease-1" = None ∧
  rg_entries (rv_store (reclaim_entry v' "lease-1")) !! "cap-1" = None ∧
  (is_Some (rg_entries (rv_store boot_v1) !! "cap-1") →
   rg_entries (rv_store (reclaim_entry v' "lease-1")) =
     delete "cap-1" (rg_entries (rv_store boot_v1))).
Proof.
  apply (cancel_unregisters boot_base boot_v1 boot_t1); [exact boot_reach_registered|discriminate].
Defined.
End registration_samples.

(** ** Remote clients *)

(** The network at an instant: dialing an address, and the calls a connection
    answers. *)
Record Net (Conn : Type) := {
  net_connect : string → result Conn ConnectError;
  net_lookup : Conn → attrs_map → result Capability Status;
  net_enlist : Conn → string → string → Z → result unit Status
}.
Arguments net_connect {Conn} _.
Arguments net_lookup {Conn} _.
Arguments net_enlist {Conn} _.

Definition capability_to_registry_entry (cap : Capability) : RegistryEntry := {|
  re_capability_id := cp_capability_id cap;
  re_lease_id := "";
  re_interface := cp_interface cap;
  re_attrs := cp_attrs cap;
  re_transport := transport_config <$> cp_transport cap
|}.

Record RemoteCapabilityResolver (Conn : Type) := {
  rr_registry_addr : string;
  rr_client : Conn
}.
Arguments rr_registry_addr {Conn} _.
Arguments rr_client {Conn} _.

(** [PendingCapabilityResolver]: empty until the dependency is installed. *)
Record PendingCapabilityResolver (Conn : Type) := {
  pr_inner : option (RemoteCapabilityResolver Conn)
}.
Arguments pr_inner {Conn} _.

Record RemoteTxnEnlister (Conn : Type) := {
  en_registry_addr : string;
  en_client : option Conn
}.
Arguments en_registry_addr {Conn} _.
Arguments en_client {Conn} _.

(** How tonic prints a status. *)
Class StatusDisplay := status_to_string : Status → string.

Section clients.
Context {Conn : Type} {SD : StatusDisplay}.
Implicit Types (net : Net Conn) (r : RemoteCapabilityResolver Conn) (e : RemoteTxnEnlister Conn).

(** Dialing, with the error of an address that does not parse. *)
Definition dial net (addr invalid : string) : result Conn BootError :=
  map_err (λ err, match err with
                  | InvalidAddress => BMissingTransport invalid
                  | ConnectFailed m => BTransport m
                  end) (net_connect net addr).

Definition discover_service_channel net (registry_addr interface : string) : result Conn BootError :=
  let? channel := dial net registry_addr "invalid registry address" in
  let? cap := map_err BStatus (net_lookup net channel {["interface" := interface]}) in
  let? transport := ok_or (BMissingTransport "transport") (cp_transport cap) in
  let? host := ok_or (BMissingTransport "host") (td_config transport !! "host") in
  let? port := ok_or (BMissingTransport "port") (td_config transport !! "port") in
  dial net ("http://" +:+ host +:+ ":" +:+ port) "host/port formed invalid URL".

(** On the networks of the successive attempts. *)
Definition discover_txn_mgr (nets : list (Net Conn)) (registry_addr : string) : option Conn * list Z :=
  retry_forever ((λ net, discover_service_channel net registry_addr "TransactionMgr") <$> nets).

(** *** [RemoteCapabilityResolver] *)
Definition resolver_connect (nets : list (Net Conn)) (registry_addr : string)
  : option (RemoteCapabilityResolver Conn) * list Z :=
  let '(client, pauses) :=
    retry_forever ((λ net, dial net registry_addr "invalid registry address") <$> nets) in
  ((λ c, {| rr_registry_addr := registry_addr; rr_client := c |}) <$> client, pauses).

Definition reconnect net r : RemoteCapabilityResolver Conn * result unit Error :=
  match net_connect net (rr_registry_addr r) with
  | Ok c => ({| rr_registry_addr := rr_registry_addr r; rr_client := c |}, Ok ())
  | Err InvalidAddress => (r, Err (Internal "invalid registry address"))
  | Err (ConnectFailed m) => (r, Err (Internal ("registry reconnect failed: " +:+ m)))
  end.

Definition lookup_with_retry net r (template : attrs_map)
  : RemoteCapabilityResolver Conn * result Capability Status :=
  match net_lookup net (rr_client r) template with
  | Ok resp => (r, Ok resp)
  | Err status =>
      if is_transport_failure status then
        match reconnect net r with
        | (r', Err e) => (r', Err (mkStatus CUnavailable (error_to_string e)))
        | (r', Ok _) => (r', net_lookup net (rr_client r') template)
        end
      else (r, Err status)
  end.

Definition remote_resolve net r (template : attrs_map)
  : RemoteCapabilityResolver Conn * result (option RegistryEntry) Error :=
  let '(r', res) := lookup_with_retry net r template in
  (r', match res with
       | Ok resp => Ok (Some (capability_to_registry_entry resp))
       | Err status =>
           if bool_decide (st_code status = CNotFound) then Ok None
           else Err (Internal ("registry lookup failed: " +:+ status_to_string status))
       end).

(** *** [PendingCapabilityResolver] *)
Definition pending_new : PendingCapabilityResolver Conn := {| pr_inner := None |}.

Definition install (p : PendingCapabilityResolver Conn) r : PendingCapabilityResolver Conn :=
  {| pr_inner := Some r |}.

Definition pending_resolve net (p : PendingCapabilityResolver Conn) (template : attrs_map)
  : PendingCapabilityResolver Conn * result (option RegistryEntry) Error :=
  match pr_inner p with
  | Some r => let '(r', res) := remote_resolve net r template in ({| pr_inner := Some r' |}, res)
  | None => (p, Err (Unavailable "waiting on dependency: Registry"))
  end.

(** *** [RemoteTxnEnlister] *)
Definition enlister_new (registry_addr : string) : RemoteTxnEnlister Conn :=
  {| en_registry_addr := registry_addr; en_client := None |}.

Definition with_client e (c : Conn) : RemoteTxnEnlister Conn :=
  {| en_registry_addr := en_registry_addr e; en_client := Some c |}.

(** [None] while the discovery is still retrying. *)
Definition rediscover (nets : list (Net Conn)) e : option (RemoteTxnEnlister Conn * Conn) :=
  (λ c, (with_client e c, c)) <$> (discover_txn_mgr nets (en_registry_addr e)).1.

Definition ensure_client (nets : list (Net Conn)) e : option (RemoteTxnEnlister Conn * Conn) :=
  match en_client e with
  | Some c => Some (e, c)
  | None => rediscover nets e
  end.

Definition enlist_error (s : Status) : Error := Internal ("enlist failed: " +:+ status_to_string s).

(** [enlist]: the networks of the first discovery, of the call, of the second
    discovery and of the second call. *)
Definition remote_enlist (nets1 : list (Net Conn)) net1 (nets2 : list (Net Conn)) net2 e
    (txn_id endpoint : string) : option (RemoteTxnEnlister Conn * result unit Error) :=
  match ensure_client nets1 e with
  | None => None
  | Some (e, c) =>
      match net_enlist net1 c txn_id endpoint 0 with
      | Ok _ => Some (e, Ok ())
      | Err status =>
          if is_transport_failure status then
            match rediscover nets2 e with
            | None => None
            | Some (e, c) => Some (e, map_err enlist_error (net_enlist net2 c txn_id endpoint 0))
            end
          else Some (e, Err (enlist_error status))
      end
  end.
End clients.

(** The proxy's view of a remote resolver at an instant. *)
#[global] Instance RemoteResolver {Conn} {SD : StatusDisplay}
  : CapabilityResolver (Net Conn * RemoteCapabilityResolver Conn) :=
  {| cr_resolve := λ '(net, r) template, (remote_resolve net r template).2 |}.

(** ** Theorems: retries and remote clients *)

(** The pause after the [i]-th failure in a row. *)
Definition backoff (i : nat) : Z := Z.min (100 * 2 ^ Z.of_nat i) 5000.

Lemma retry_loop_spec {T E} (attempts : list (result T E)) i :
  ∃ failed rest, attempts = failed ++ rest ∧ Forall (λ a, ∃ err, a = Err err) failed ∧
    (retry_loop (backoff i) attempts).2 = (λ k, backoff (i + k)) <$> seq 0 (length failed) ∧
    match (retry_loop (backoff i) attempts).1 with
    | Some v => ∃ tail, rest = Ok v :: tail
    | None => rest = []
    end.
Proof.
  revert i. induction attempts as [|[v|err] attempts IH]; intros i.
  - by exists [], [].
  - exists [], (Ok v :: attempts). cbn. eauto.
  - assert (Hn : next_backoff (backoff i) = backoff (S i)).
    { unfold next_backoff, backoff. rewrite Nat2Z.inj_succ, Z.pow_succ_r by lia. lia. }
    destruct (IH (S i)) as (failed & rest & -> & Hf & Hp & Hr).
    exists (Err err :: failed), rest. cbn [retry_loop]. rewrite Hn.
    destruct (retry_loop (backoff (S i)) (failed ++ rest)) as [o pauses]. cbn in *.
    split_and!; [done|constructor; eauto| |done].
    rewrite Hp, Nat.add_0_r. f_equal. rewrite <- fmap_S_seq, <- list_fmap_compose.
    apply list_fmap_ext. intros k x _. cbn. f_equal. lia.
Qed.

(** [retry_forever] returns the value of the first successful attempt,
    after one pause per failure before it; the pauses double from 100 ms and are
    capped at five seconds.  It goes on for as long as every attempt fails. *)
Theorem retry_first_success {T E} (attempts : list (result T E)) :
  ∃ failed rest, attempts = failed ++ rest ∧ Forall (λ a, ∃ err, a = Err err) failed ∧
    (retry_forever attempts).2 = (λ k, Z.min (100 * 2 ^ Z.of_nat k) 5000) <$> seq 0 (length failed) ∧
    match (retry_forever attempts).1 with
    | Some v => ∃ tail, rest = Ok v :: tail
    | None => rest = []
    end.
Proof. apply (retry_loop_spec attempts 0). Qed.

Section client_theorems.
Context {Conn : Type} {SD : StatusDisplay}.
Context {C : Chrono} {I : MapIter} {S L : Type}.
Context {RS : RegistryStore S} {RV : RegistryStoreView S} {RL : RegistryStoreLaws S}.
Implicit Types (net : Net Conn) (r : RemoteCapabilityResolver Conn) (v : RegistryService S L).

(** A connection to the Registry in state [v]; a connection that is down. *)
Definition serves net (c : Conn) v : Prop := ∀ template, net_lookup net c template = lookup_rpc v template.

Definition down net (c : Conn) : Prop :=
  ∀ template, ∃ s, net_lookup net c template = Err s ∧ is_transport_failure s = true.

Definition reaches net r v : Prop :=
  serves net (rr_client r) v ∨
  (down net (rr_client r) ∧ ∃ c, net_connect net (rr_registry_addr r) = Ok c ∧ serves net c v).

(** An entry as it travels: without its lease. *)
Definition hide_lease (e : RegistryEntry) : RegistryEntry :=
  mkEntry (re_capability_id e) "" (re_interface e) (re_attrs e) (re_transport e).

Lemma capability_roundtrip e : capability_to_registry_entry (entry_to_capability e) = hide_lease e.
Proof.
  destruct e as [cap lease iface attrs [[ty cfg]|]]; done.
Qed.

Lemma remote_resolve_spec net r v template o :
  reaches net r v → RegistryIndex.resolve (rv_store v) template = Ok o →
  (remote_resolve net r template).2 = Ok (hide_lease <$> o) ∧
  serves net (rr_client (remote_resolve net r template).1) v.
Proof.
  intros Hreach Hlocal. rewrite resolve_lookup in Hlocal.
  assert (Hans : ∀ c, serves net c v → net_lookup net c template =
    match o with Some e => Ok (entry_to_capability e)
               | None => Err (mkStatus CNotFound "no matching capability") end).
  { intros c ->. unfold lookup_rpc. rewrite Hlocal. by destruct o. }
  unfold remote_resolve, lookup_with_retry. destruct Hreach as [Hs|[Hdown (c & Hc & Hs)]].
  - rewrite (Hans _ Hs). destruct o as [e|]; cbn; [by rewrite capability_roundtrip|done].
  - destruct (Hdown template) as (s & -> & ->). unfold reconnect. rewrite Hc. cbn.
    rewrite (Hans _ Hs). destruct o as [e|]; cbn; [by rewrite capability_roundtrip|done].
Qed.

(** A proxy in its own process resolves as one in the Registry's.
    Whenever the Registry can be reached, over the connection at hand or after
    one reconnection, the remote resolver answers what the in-process resolver
    would (the lease id apart), the proxy dials the same address, and the
    connection it keeps is a working one. *)
Theorem remote_resolver_agrees net r v template :
  reaches net r v →
  (∃ o, cr_resolve (rv_store v) template = Ok o ∧
        cr_resolve (net, r) template = Ok (hide_lease <$> o)) ∧
  resolve_addr (net, r) template = resolve_addr (rv_store v) template ∧
  serves net (rr_client (remote_resolve net r template).1) v.
Proof.
  intros Hreach. destruct (find_entry_spec (rv_store v) template) as (o & Ho & _).
  rewrite <- resolve_lookup in Ho.
  destruct (remote_resolve_spec net r v template o Hreach Ho) as [Hr Hs].
  split; [by eauto|]. split; [|done]. unfold resolve_addr. cbn. rewrite Hr, Ho.
  by destruct o as [[cap lease iface attrs [tr|]]|].
Qed.

(** The remote resolver reports "no match" only on the Registry's own
    NOT_FOUND: an unreachable Registry is always an error. *)
Theorem no_match_is_an_answer net r template :
  (remote_resolve net r template).2 = Ok None →
  ∃ c s, net_lookup net c template = Err s ∧ st_code s = CNotFound ∧
    (c = rr_client r ∨ net_connect net (rr_registry_addr r) = Ok c).
Proof.
  unfold remote_resolve, lookup_with_retry, reconnect.
  destruct (net_lookup net (rr_client r) template) as [?|s] eqn:E1; [done|].
  destruct (is_transport_failure s).
  - destruct (net_connect net (rr_registry_addr r)) as [c|[]] eqn:E2; cbn; [|done..].
    destruct (net_lookup net c template) as [?|s2] eqn:E3; [done|].
    case_bool_decide; [|done]. intros _. exists c, s2. auto.
  - case_bool_decide; [|done]. intros _. exists (rr_client r), s. auto.
Qed.

Lemma txn_mgr_template e :
  entry_matches {["interface" := "TransactionMgr"]} e ↔ re_interface e = "TransactionMgr".
Proof.
  unfold entry_matches. split.
  - intros Hm. specialize (Hm "interface" "TransactionMgr" (lookup_singleton_eq _ _)).
    unfold combined_attrs in Hm. rewrite lookup_insert_eq in Hm. unfold field_spec in Hm.
    rewrite decide_False in Hm by (intros [|]; done).
    destruct Hm as [(? & [=] & _)|[(? & [=] & _)|(_ & _ & [= ->])]]. done.
  - intros Hi k pat [<- <-]%lookup_singleton_Some. unfold combined_attrs.
    rewrite lookup_insert_eq, Hi. unfold field_spec.
    rewrite decide_False by (intros [|]; done). right; right. by split_and!.
Qed.

(** When discovery of the transaction manager returns a connection,
    it was dialed at the address of an entry the Registry holds under the
    interface [TransactionMgr], and, once the Registry is reachable and every
    such entry carries a host and a port that accept a connection, it does
    return one. *)
Theorem discover_dials_registered net v registry_addr ch :
  net_connect net registry_addr = Ok ch → serves net ch v →
  let dialed c := ∃ cap e t host port,
    rg_entries (rv_store v) !! cap = Some e ∧ re_interface e = "TransactionMgr" ∧
    re_transport e = Some t ∧ tc_config t !! "host" = Some host ∧ tc_config t !! "port" = Some port ∧
    net_connect net ("http://" +:+ host +:+ ":" +:+ port) = Ok c in
  (∀ c, discover_service_channel net registry_addr "TransactionMgr" = Ok c → dialed c) ∧
  ((∃ cap e, rg_entries (rv_store v) !! cap = Some e ∧ re_interface e = "TransactionMgr") →
   (∀ cap e, rg_entries (rv_store v) !! cap = Some e → re_interface e = "TransactionMgr" →
      ∃ t host port c, re_transport e = Some t ∧ tc_config t !! "host" = Some host ∧
        tc_config t !! "port" = Some port ∧
        net_connect net ("http://" +:+ host +:+ ":" +:+ port) = Ok c) →
   ∃ c, discover_service_channel net registry_addr "TransactionMgr" = Ok c).
Proof.
  intros Hc Hs dialed.
  destruct (find_entry_spec (rv_store v) {["interface" := "TransactionMgr"]}) as (o & Ho & Hspec).
  unfold discover_service_channel, dial. rewrite Hc. cbn [map_err rbind].
  rewrite Hs. unfold lookup_rpc. rewrite Ho. split.
  - destruct o as [e|]; [|done]. destruct Hspec as [[cap He] Hm%txn_mgr_template]. intros c.
    cbn. destruct (re_transport e) as [t|] eqn:Ht; [|done]. cbn.
    destruct (tc_config t !! "host") as [host|] eqn:Hh; [|done]. cbn.
    destruct (tc_config t !! "port") as [port|] eqn:Hp; [|done]. cbn [ok_or rbind].
    destruct (net_connect net ("http://" +:+ host +:+ ":" +:+ port)) as [c'|[]] eqn:Ed; [|done..].
    intros [= <-]. by exists cap, e, t, host, port.
  - intros (cap & e & He & Hi) Hall. destruct o as [e'|].
    + destruct Hspec as [[cap' He'] Hm%txn_mgr_template].
      destruct (Hall cap' e' He' Hm) as (t & host & port & c & Ht & Hh & Hp & Hd).
      exists c. cbn. rewrite Ht. cbn. rewrite Hh. cbn. rewrite Hp. cbn [ok_or rbind].
      by rewrite Hd.
    + by destruct (Hspec cap e He (proj2 (txn_mgr_template e) Hi)).
Qed.

(** The enlister answers with what the transaction manager said: the first answer
    that is not a failure of the transport, from the connection it keeps; it
    asks a second time only after such a failure. *)
Theorem remote_enlist_outcome nets1 net1 nets2 net2 (e : RemoteTxnEnlister Conn) txn endpoint e' res :
  remote_enlist nets1 net1 nets2 net2 e txn endpoint = Some (e', res) →
  ∃ c : Conn, en_client e' = Some c ∧
    ((res = map_err enlist_error (net_enlist net1 c txn endpoint 0) ∧
      ∀ s, net_enlist net1 c txn endpoint 0 = Err s → is_transport_failure s = false) ∨
     (res = map_err enlist_error (net_enlist net2 c txn endpoint 0) ∧
      ∃ c0 s, net_enlist net1 c0 txn endpoint 0 = Err s ∧ is_transport_failure s = true)).
Proof.
  unfold remote_enlist.
  assert (Hre : ∀ nets (e0 e1 : RemoteTxnEnlister Conn) c,
    rediscover nets e0 = Some (e1, c) → en_client e1 = Some c).
  { intros nets e0 e1 c. unfold rediscover. destruct (_.1); [|done]. by intros [= <- <-]. }
  destruct (ensure_client nets1 e) as [[e1 c]|] eqn:He; [|done].
  assert (Hc : en_client e1 = Some c).
  { unfold ensure_client in He. destruct (en_client e) as [c0|] eqn:E0; [|by eauto].
    by injection He as <- <-. }
  destruct (net_enlist net1 c txn endpoint 0) as [[]|s] eqn:E1.
  { intros [= <- <-]. exists c. rewrite E1. split; [done|]. by left. }
  destruct (is_transport_failure s) eqn:Et.
  - destruct (rediscover nets2 e1) as [[e2 c2]|] eqn:E2; [|done]. intros [= <- <-].
    exists c2. split; [by eauto|]. right. split; [done|]. by exists c, s.
  - intros [= <- <-]. exists c. rewrite E1. split; [done|]. left. split; [done|].
    by intros s' [= <-].
Qed.
End client_theorems.

(** ** A concrete network *)
Section client_samples.
#[local] Existing Instance chrono_sample.
#[local] Existing Instance canonical_iter.
#[local] Instance show_message : StatusDisplay := st_message.

Definition mgr_request : RegisterRequest :=
  initial_request "TransactionMgr" ∅ "txn" 9005 30.

Definition mgr_registry : RegistryService InMemoryRegistryStore (LeaseManager InMemoryLeaseStore) :=
  (register_rpc sample_empty "cap-1" (boot_env "lease-1") mgr_request).1.

(** Connection 0 is broken, the Registry is at 1, the transaction manager at 2. *)
Definition sample_net : Net nat := {|
  net_connect := λ addr,
    if String.eqb addr "http://registry:9002" then Ok 1
    else if String.eqb addr "http://txn:9005" then Ok 2 else Err (ConnectFailed "refused");
  net_lookup := λ c template, if bool_decide (c = 1) then lookup_rpc mgr_registry template
                              else Err (mkStatus CUnavailable "broken");
  net_enlist := λ c _ _ _, if bool_decide (c = 2) then Ok ()
                           else Err (mkStatus CUnavailable "broken")
|}.

Definition stale_resolver : RemoteCapabilityResolver nat :=
  {| rr_registry_addr := "http://registry:9002"; rr_client := 0 |}.

Lemma sample_serves : serves sample_net 1 mgr_registry.
Proof. intros template. reflexivity. Qed.

Theorem remote_resolver_agrees_witness :
  resolve_addr (sample_net, stale_resolver) {["interface" := "TransactionMgr"]} =
    resolve_addr (rv_store mgr_registry) {["interface" := "TransactionMgr"]} ∧
  resolve_addr (rv_store mgr_registry) {["interface" := "TransactionMgr"]} = Ok "txn:9005".
Proof.
  split; [|by vm_compute].
  destruct (remote_resolver_agrees sample_net stale_resolver mgr_registry
    {["interface" := "TransactionMgr"]}) as (_ & H & _).
  - right. split; [intros t; by eexists|]. exists 1. split; [reflexivity|exact sample_serves].
  - exact H.
Defined.

Theorem no_match_is_an_answer_witness :
  ∃ c s, net_lookup sample_net c {["interface" := "Space"]} = Err s ∧ st_code s = CNotFound ∧
    (c = rr_client stale_resolver ∨ net_connect sample_net (rr_registry_addr stale_resolver) = Ok c).
Proof. apply (no_match_is_an_answer sample_net stale_resolver). vm_compute. reflexivity. Defined.

Theorem discover_dials_registered_witness :
  ∃ c, discover_service_channel sample_net "http://registry:9002" "TransactionMgr" = Ok c.
Proof.
  apply (discover_dials_registered sample_net mgr_registry "http://registry:9002" 1
    eq_refl sample_serves).
  - exists "cap-1". eexists. split; [reflexivity|reflexivity].
  - intros cap e He _. change (rg_entries (rv_store mgr_registry)) with
      ({["cap-1" := mkEntry "cap-1" "lease-1" "TransactionMgr" ∅
         (transport_config <$> rq_transport mgr_request)]} : entry_map) in He.
    apply lookup_singleton_Some in He as [_ <-].
    eexists _, "txn", "9005", 2. split_and!; [reflexivity..].
Defined.

Theorem remote_enlist_outcome_witness :
  ∃ c, Some 2 = Some c ∧
    ((Ok () = map_err enlist_error (net_enlist sample_net c "txn-1" "http://space:9006" 0) ∧
      ∀ s, net_enlist sample_net c "txn-1" "http://space:9006" 0 = Err s →
        is_transport_failure s = false) ∨
     (Ok () = map_err enlist_error (net_enlist sample_net c "txn-1" "http://space:9006" 0) ∧
      ∃ c0 s, net_enlist sample_net c0 "txn-1" "http://space:9006" 0 = Err s ∧
        is_transport_failure s = true)).
Proof.
  apply (remote_enlist_outcome [sample_net] sample_net [] sample_net
    (enlister_new "http://registry:9002") "txn-1" "http://space:9006"
    {| en_registry_addr := "http://registry:9002"; en_client := Some 2 |}).
  vm_compute. reflexivity.
Defined.
End client_samples.
