(* ===== verification/Dynamo.v ===== *)
(** * The DynamoDB provider: the service it calls and its tables
    ([providers/dynamo/src/lib.rs], [client.rs], [table.rs])

    DynamoDB and its SDK are not part of this code base: the service is a
    parameter, a class of the calls the stores make.  Its documented behaviour is
    stated in two steps.  [DynamoLaws] holds always: a write that is answered took
    effect exactly as asked, on the current row, at once; a conditional write
    whose condition fails changes nothing; a call that fails otherwise may or may
    not have taken effect; reads and index queries are answered from snapshots
    that may lag behind.  [DynamoHealthy] adds what a quiet database gives: calls
    on existing tables are served, and reads have caught up with writes.

    An expression of the source ("attribute_exists(lease_id)", "SET #s = :s") is
    a term of [Cond] or a list of [UpdateAction]s here. *)

From S2P Require Import Prelude CoreTypes.
From Stdlib Require Import Strings.Byte Strings.Ascii.

(** ** Attribute values and items *)
#[warnings="-register-all"]
Inductive AttributeValue :=
| AS (s : string)
| AN (s : string)
| AB (b : list byte)
| ABool (b : bool)
| AM (m : gmap string AttributeValue)
| AL (l : list AttributeValue).

Abbreviation Item := (gmap string AttributeValue).

Definition as_s (v : AttributeValue) : option string :=
  match v with AS s => Some s | _ => None end.
Definition as_n (v : AttributeValue) : option string :=
  match v with AN s => Some s | _ => None end.
Definition as_m (v : AttributeValue) : option Item :=
  match v with AM m => Some m | _ => None end.

Definition get_s (item : Item) (k : string) : option string := item !! k ≫= as_s.
Definition get_n (item : Item) (k : string) : option string := item !! k ≫= as_n.

(** A number attribute as the service reads it. *)
Definition num_value (s : string) : option Z :=
  match strip_prefix "-" s with
  | Some s' => Z.opp <$> (if is_empty s' then None else parse_digits (10 ^ 38) 0 s')
  | None => if is_empty s then None else parse_digits (10 ^ 38) 0 s
  end.

Definition number (v : AttributeValue) : option Z := as_n v ≫= num_value.

(** ** Expressions *)

Inductive Cond :=
| CExists (a : string)
| CNotExists (a : string)
| CEqS (a s : string)
| CLeN (a : string) (n : Z)
| CAnd (c1 c2 : Cond)
| COr (c1 c2 : Cond).

Fixpoint cond_holds (c : Cond) (item : Item) : bool :=
  match c with
  | CExists a => bool_decide (is_Some (item !! a))
  | CNotExists a => negb (bool_decide (is_Some (item !! a)))
  | CEqS a s => bool_decide (get_s item a = Some s)
  | CLeN a n => match item !! a ≫= number with Some z => (z <=? n)%Z | None => false end
  | CAnd c1 c2 => cond_holds c1 item && cond_holds c2 item
  | COr c1 c2 => cond_holds c1 item || cond_holds c2 item
  end.

Inductive UpdateAction :=
| USet (a : string) (v : AttributeValue)
| URemove (a : string)
| UAdd (a : string) (n : Z)
| UAppend (a : string) (l : list AttributeValue).

Definition action_attr (u : UpdateAction) : string :=
  match u with USet a _ | URemove a | UAdd a _ | UAppend a _ => a end.

(** [None]: the expression does not fit the item (a validation error). *)
Definition apply_action (item : Item) (u : UpdateAction) : option Item :=
  match u with
  | USet a v => Some (<[a := v]> item)
  | URemove a => Some (delete a item)
  | UAdd a n =>
      match item !! a with
      | None => Some (<[a := AN (pretty n)]> item)
      | Some v => (λ z, <[a := AN (pretty (z + n)%Z)]> item) <$> number v
      end
  | UAppend a l =>
      match item !! a with
      | Some (AL l0) => Some (<[a := AL (l0 ++ l)]> item)
      | _ => None
      end
  end.

Definition apply_actions (acts : list UpdateAction) (item : Item) : option Item :=
  foldl (λ o u, o ≫= λ it, apply_action it u) (Some item) acts.

(** ** Tables *)

Inductive ScalarType := TS | TN.

(** A table's key attributes and its global secondary indexes (name and key). *)
Record TableSpec := mkSpec {
  tp_hash : string;
  tp_range : option (string * ScalarType);
  tp_gsis : list (string * string)
}.

(** The key of a row: the text of its hash attribute and of its range attribute,
    empty when the table has none. *)
Abbreviation Key := (string * string)%type.

(** Key attributes may not be empty strings. *)
Definition nonempty (s : string) : option string := if is_empty s then None else Some s.

Definition key_of (spec : TableSpec) (item : Item) : option Key :=
  match get_s item (tp_hash spec) ≫= nonempty with
  | None => None
  | Some h =>
      match tp_range spec with
      | None => Some (h, "")
      | Some (a, TS) => (λ r, (h, r)) <$> (get_s item a ≫= nonempty)
      | Some (a, TN) => (λ r, (h, r)) <$> (get_n item a ≫= nonempty)
      end
  end.

(** Nor may the attribute an index is keyed on. *)
Definition index_ok (spec : TableSpec) (item : Item) : bool :=
  forallb (λ ia, negb (bool_decide (get_s item ia.2 = Some ""))) (tp_gsis spec).

Record Table := mkTable { tb_spec : TableSpec; tb_rows : gmap Key Item }.
Abbreviation Tables := (gmap string Table).

Definition set_row (tb : Table) (k : Key) (item : Item) : Table :=
  mkTable (tb_spec tb) (<[k := item]> (tb_rows tb)).
Definition del_row (tb : Table) (k : Key) : Table :=
  mkTable (tb_spec tb) (delete k (tb_rows tb)).

Definition check (c : option Cond) (row : option Item) : bool :=
  match c with None => true | Some c => cond_holds c (default ∅ row) end.

(** What a write does to a table: [None] when it does not fit the table, [Some
    None] when its condition fails. *)
Definition put_row (c : option Cond) (item : Item) (tb : Table) : option (option (Table * unit)) :=
  k ← key_of (tb_spec tb) item;
  _ ← guard (index_ok (tb_spec tb) item = true);
  Some (if check c (tb_rows tb !! k) then Some (set_row tb k item, ()) else None).

Definition delete_row (c : option Cond) (key : Item) (tb : Table)
  : option (option (Table * option Item)) :=
  k ← key_of (tb_spec tb) key;
  Some (if check c (tb_rows tb !! k) then Some (del_row tb k, tb_rows tb !! k) else None).

Definition update_row (c : option Cond) (key : Item) (acts : list UpdateAction) (tb : Table)
  : option (option (Table * Item)) :=
  k ← key_of (tb_spec tb) key;
  if check c (tb_rows tb !! k) then
    new ← apply_actions acts (default key (tb_rows tb !! k));
    _ ← guard (index_ok (tb_spec tb) new = true ∧ key_of (tb_spec tb) new = Some k);
    Some (Some (set_row tb k new, filter (λ kv, kv.1 ∈ (action_attr <$> acts)) new))
  else Some None.

(** ** The service *)
Inductive SdkError := ConditionalCheckFailed | ResourceInUse | SdkFault (msg : string).

Record Page := mkPage { pg_items : list Item; pg_last : option Item }.

Class Dynamo (D : Type) := {
  put_item : D → string → option Cond → Item → D * result unit SdkError;
  update_item : D → string → option Cond → Item → list UpdateAction → D * result Item SdkError;
  delete_item : D → string → option Cond → Item → D * result (option Item) SdkError;
  batch_delete_item : D → string → list Item → D * result (list Item) SdkError;
  get_item : D → string → Item → result (option Item) SdkError;
  (* table, index, key value, limit *)
  query_index : D → string → string → string → nat → result (list Item) SdkError;
  (* table, hash value, lower bound of the range (excluded), limit, start key *)
  query : D → string → string → option Z → option nat → option Item → result Page SdkError;
  (* table, filter, limit, start key *)
  scan : D → string → option Cond → option nat → option Item → result Page SdkError;
  create_table : D → string → TableSpec → D * result unit SdkError;
  update_time_to_live : D → string → string → D * result unit SdkError;
  sdk_to_string : SdkError → string
}.

(** What the service holds, the snapshots its reads and its indexes are answered
    from, and the order in which it pages through them. *)
Class DynamoView (D : Type) := {
  tables : D → Tables;
  replica : D → Tables;
  indexed : D → Tables;
  scan_rows : D → string → list Item;
  query_rows : D → string → string → list Item
}.

(** A write and its answer. *)
Definition written {D A} `{DynamoView D} (d : D) (t : string)
    (w : Table → option (option (Table * A))) (out : D * result A SdkError) : Prop :=
  let applied a := ∃ tb tb', tables d !! t = Some tb ∧ w tb = Some (Some (tb', a)) ∧
    tables out.1 = <[t := tb']> (tables d) in
  match out.2 with
  | Ok a => applied a
  | Err ConditionalCheckFailed =>
      (∃ tb, tables d !! t = Some tb ∧ w tb = Some None) ∧ tables out.1 = tables d
  | Err _ => tables out.1 = tables d ∨ ∃ a, applied a
  end.

(** The rows after a start key. *)
Fixpoint rows_after (spec : TableSpec) (key : Key) (rows : list Item) : list Item :=
  match rows with
  | [] => []
  | it :: rows => if bool_decide (key_of spec it = Some key) then rows else rows_after spec key rows
  end.

Definition rows_from (spec : TableSpec) (start : option Item) (rows : list Item) : list Item :=
  match start with
  | None => rows
  | Some s => match key_of spec s with Some k => rows_after spec k rows | None => [] end
  end.

(** A page: of the rows from the start key on, the first ones evaluated, at most
    [limit]; those of them that pass the filter; and the key of the last one
    evaluated, unless the end was reached. *)
Definition page_of (spec : TableSpec) (f : Item → bool) (limit : option nat)
    (from : list Item) (p : Page) : Prop :=
  ∃ seg rest, from = seg ++ rest ∧ pg_items p = List.filter f seg ∧
    (∀ n, limit = Some n → length seg ≤ n) ∧
    match pg_last p with
    | None => rest = []
    | Some s => ∃ seg0 it, seg = seg0 ++ [it] ∧ key_of spec s = key_of spec it
    end.

Definition is_page (spec : TableSpec) (f : Item → bool) (limit : option nat)
    (start : option Item) (rows : list Item) (p : Page) : Prop :=
  page_of spec f limit (rows_from spec start rows) p.

(** A start key a page loop may present: none, or the key of a row. *)
Definition start_ok (spec : TableSpec) (start : option Item) (rows : list Item) : Prop :=
  match start with
  | None => True
  | Some s => ∃ it, it ∈ rows ∧ key_of spec s = key_of spec it
  end.

Definition range_after (spec : TableSpec) (after : option Z) (item : Item) : bool :=
  match after, tp_range spec with
  | Some n, Some (a, TN) =>
      match item !! a ≫= number with Some z => (n <? z)%Z | None => false end
  | Some _, _ => false
  | None, _ => true
  end.

(** The range number of a row. *)
Definition range_number (spec : TableSpec) (item : Item) : Z :=
  match tp_range spec with
  | Some (a, TN) => default 0%Z (item !! a ≫= number)
  | _ => 0%Z
  end.

(** The rows of a query past a start key, whether its row is still there or not. *)
Definition rows_beyond (spec : TableSpec) (start : option Item) (rows : list Item) : list Item :=
  match start with
  | None => rows
  | Some s => List.filter (λ it, (range_number spec s <? range_number spec it)%Z) rows
  end.

Definition numeric_range (spec : TableSpec) : bool :=
  match tp_range spec with Some (_, TN) => true | _ => false end.

Definition passes (c : option Cond) (item : Item) : bool :=
  match c with None => true | Some c => cond_holds c item end.

Class DynamoLaws (D : Type) `{Dynamo D, DynamoView D} : Prop := {
  put_item_law : ∀ d t c item, written d t (put_row c item) (put_item d t c item);
  update_item_law : ∀ d t c key acts,
    written d t (update_row c key acts) (update_item d t c key acts);
  delete_item_law : ∀ d t c key, written d t (delete_row c key) (delete_item d t c key);
  batch_delete_law : ∀ d t keys,
    let out := batch_delete_item d t keys in
    ∃ done, (∀ k, k ∈ done → k ∈ keys) ∧
      (tables out.1 = tables d ∨ ∃ tb, tables d !! t = Some tb ∧
         tables out.1 = <[t := foldl del_row tb (omap (key_of (tb_spec tb)) done)]> (tables d)) ∧
      (∀ un, out.2 = Ok un → keys ≡ₚ done ++ un ∧ ∃ tb, tables d !! t = Some tb ∧
         tables out.1 = <[t := foldl del_row tb (omap (key_of (tb_spec tb)) done)]> (tables d));
  get_item_law : ∀ d t key o, get_item d t key = Ok o →
    ∃ tb k, replica d !! t = Some tb ∧ key_of (tb_spec tb) key = Some k ∧ o = tb_rows tb !! k;
  query_index_law : ∀ d t ix v n l, query_index d t ix v n = Ok l →
    ∃ tb a, indexed d !! t = Some tb ∧ (ix, a) ∈ tp_gsis (tb_spec tb) ∧ length l ≤ n ∧
      (∀ it, it ∈ l → (∃ k, tb_rows tb !! k = Some it) ∧ get_s it a = Some v) ∧
      (l = [] → 0 < n → ∀ k it, tb_rows tb !! k = Some it → get_s it a ≠ Some v);
  scan_rows_law : ∀ d t tb, replica d !! t = Some tb →
    scan_rows d t ≡ₚ (map_to_list (tb_rows tb)).*2;
  scan_law : ∀ d t c n start p, scan d t c n start = Ok p →
    ∃ tb, replica d !! t = Some tb ∧
      (∀ it, it ∈ pg_items p → it ∈ scan_rows d t ∧ passes c it = true) ∧
      (start_ok (tb_spec tb) start (scan_rows d t) →
        is_page (tb_spec tb) (passes c) n start (scan_rows d t) p);
  query_rows_law : ∀ d t h tb, replica d !! t = Some tb →
    query_rows d t h ≡ₚ List.filter (λ it, bool_decide (get_s it (tp_hash (tb_spec tb)) = Some h))
                          (map_to_list (tb_rows tb)).*2 ∧
    ∀ a, tp_range (tb_spec tb) = Some (a, TN) →
      StronglySorted Z.le (range_number (tb_spec tb) <$> query_rows d t h);
  query_law : ∀ d t h after n start p, query d t h after n start = Ok p →
    ∃ tb, replica d !! t = Some tb ∧
      let rows := List.filter (range_after (tb_spec tb) after) (query_rows d t h) in
      (∀ it, it ∈ pg_items p → it ∈ rows) ∧
      if numeric_range (tb_spec tb)
      then page_of (tb_spec tb) (λ _, true) n (rows_beyond (tb_spec tb) start rows) p
      else start_ok (tb_spec tb) start rows → is_page (tb_spec tb) (λ _, true) n start rows p;
  create_table_law : ∀ d t spec,
    let out := create_table d t spec in
    match out.2 with
    | Ok _ => tables d !! t = None ∧ tables out.1 = <[t := mkTable spec ∅]> (tables d)
    | Err ResourceInUse => is_Some (tables d !! t) ∧ tables out.1 = tables d
    | Err _ => tables out.1 = tables d ∨
        (tables d !! t = None ∧ tables out.1 = <[t := mkTable spec ∅]> (tables d))
    end;
  update_ttl_law : ∀ d t a, tables (update_time_to_live d t a).1 = tables d
}.

(** The call was served: done, or refused by its own condition. *)
Definition served {A} (r : result A SdkError) : Prop :=
  match r with Ok _ | Err ConditionalCheckFailed => True | Err _ => False end.

Class DynamoHealthy (D : Type) `{Dynamo D, DynamoView D} : Prop := {
  reads_current : ∀ d, replica d = tables d ∧ indexed d = tables d;
  put_served : ∀ d t tb c item, tables d !! t = Some tb →
    is_Some (put_row c item tb) → served (put_item d t c item).2;
  update_served : ∀ d t tb c key acts, tables d !! t = Some tb →
    is_Some (update_row c key acts tb) → served (update_item d t c key acts).2;
  delete_served : ∀ d t tb c key, tables d !! t = Some tb →
    is_Some (delete_row c key tb) → served (delete_item d t c key).2;
  batch_served : ∀ d t tb keys, tables d !! t = Some tb → length keys ≤ 25 →
    Forall (λ k, is_Some (key_of (tb_spec tb) k)) keys → NoDup (key_of (tb_spec tb) <$> keys) →
    (batch_delete_item d t keys).2 = Ok [];
  get_served : ∀ d t tb key, tables d !! t = Some tb →
    is_Some (key_of (tb_spec tb) key) → is_ok (get_item d t key) = true;
  query_index_served : ∀ d t tb ix a v n, tables d !! t = Some tb →
    (ix, a) ∈ tp_gsis (tb_spec tb) → v ≠ "" → is_ok (query_index d t ix v n) = true;
  scan_served : ∀ d t tb c n start, tables d !! t = Some tb → n ≠ Some 0 →
    start_ok (tb_spec tb) start (scan_rows d t) → is_ok (scan d t c n start) = true;
  query_served : ∀ d t tb h after n start, tables d !! t = Some tb → n ≠ Some 0 → h ≠ "" →
    (if numeric_range (tb_spec tb) then ∀ k, start = Some k → is_Some (key_of (tb_spec tb) k)
     else start_ok (tb_spec tb) start (query_rows d t h)) →
    is_ok (query d t h after n start) = true
}.

(** ** Table definitions ([table.rs]) *)
Definition RESOURCE_GSI : string := "resource_id-index".
Definition REGISTRY_TABLE : string := "coordin8_registry".
Definition REGISTRY_LEASE_GSI : string := "lease_id-index".
Definition TXN_TABLE : string := "coordin8_txn".
Definition EVENT_SUB_TABLE : string := "coordin8_event_subscriptions".
Definition EVENT_SUB_LEASE_GSI : string := "lease_id-index".
Definition EVENT_MAILBOX_TABLE : string := "coordin8_event_mailbox".
Definition SPACE_TABLE : string := "coordin8_space".
Definition SPACE_LEASE_GSI : string := "lease_id-index".
Definition SPACE_UNCOMMITTED_TABLE : string := "coordin8_space_uncommitted".
Definition SPACE_TXN_TAKEN_TABLE : string := "coordin8_space_txn_taken".
Definition SPACE_WATCHES_TABLE : string := "coordin8_space_watches".
Definition SPACE_WATCHES_LEASE_GSI : string := "lease_id-index".

Definition lease_spec : TableSpec := mkSpec "lease_id" None [(RESOURCE_GSI, "resource_id")].
Definition registry_spec : TableSpec := mkSpec "capability_id" None [(REGISTRY_LEASE_GSI, "lease_id")].
Definition txn_spec : TableSpec := mkSpec "txn_id" None [].
Definition event_sub_spec : TableSpec :=
  mkSpec "registration_id" None [(EVENT_SUB_LEASE_GSI, "lease_id")].
Definition event_mailbox_spec : TableSpec := mkSpec "registration_id" (Some ("seq_num", TN)) [].
Definition space_spec : TableSpec := mkSpec "tuple_id" None [(SPACE_LEASE_GSI, "lease_id")].
Definition space_uncommitted_spec : TableSpec := mkSpec "txn_id" (Some ("tuple_id", TS)) [].
Definition space_txn_taken_spec : TableSpec := mkSpec "txn_id" (Some ("tuple_id", TS)) [].
Definition space_watches_spec : TableSpec :=
  mkSpec "watch_id" None [(SPACE_WATCHES_LEASE_GSI, "lease_id")].

(** [COORDIN8_AUTO_CREATE_TABLES] is "true" or "1". *)
Definition auto_create_enabled (env : string → option string) : bool :=
  match env "COORDIN8_AUTO_CREATE_TABLES" with
  | Some v =>
      let l := to_ascii_lowercase v in String.eqb l "true" || String.eqb l "1"
  | None => false
  end.

Section ensure.
Context {D : Type} `{Dynamo D}.

Definition handle_create_result (r : result unit SdkError) : result unit string :=
  match r with
  | Ok _ => Ok ()
  | Err ResourceInUse => Ok ()
  | Err e => Err ("create_table failed: " +:+ sdk_to_string e)
  end.

Definition ensure_table (d : D) (t : string) (spec : TableSpec) : D * result unit string :=
  let '(d, r) := create_table d t spec in (d, handle_create_result r).

(** The lease table also gets native TTL on [ttl]; a failure of that is only
    logged. *)
Definition ensure_lease_table (d : D) (t : string) : D * result unit string :=
  let '(d, r) := ensure_table d t lease_spec in
  match r with
  | Err e => (d, Err e)
  | Ok _ => let '(d, _) := update_time_to_live d t "ttl" in (d, Ok ())
  end.

Definition ensure_registry_table (d : D) (t : string) := ensure_table d t registry_spec.
Definition ensure_txn_table (d : D) (t : string) := ensure_table d t txn_spec.
Definition ensure_event_sub_table (d : D) (t : string) := ensure_table d t event_sub_spec.
Definition ensure_event_mailbox_table (d : D) (t : string) := ensure_table d t event_mailbox_spec.
Definition ensure_space_table (d : D) (t : string) := ensure_table d t space_spec.
Definition ensure_space_uncommitted_table (d : D) (t : string) :=
  ensure_table d t space_uncommitted_spec.
Definition ensure_space_txn_taken_table (d : D) (t : string) := ensure_table d t space_txn_taken_spec.
Definition ensure_space_watches_table (d : D) (t : string) := ensure_table d t space_watches_spec.

(** The [init] of a store: each of its tables in turn, up to the first error. *)
Fixpoint ensure_all (d : D) (steps : list (D → D * result unit string)) : D * result unit Error :=
  match steps with
  | [] => (d, Ok ())
  | f :: steps =>
      match f d with
      | (d, Ok _) => ensure_all d steps
      | (d, Err m) => (d, Err (Storage m))
      end
  end.

Definition init_tables (env : string → option string) (d : D)
    (steps : list (D → D * result unit string)) : D * result unit Error :=
  if auto_create_enabled env then ensure_all d steps else (d, Ok ()).
End ensure.

(** ** Paging *)
Section paging.
Context {D : Type} `{Dynamo D, DynamoView D}.

(** A loop over pages: [next] makes the call from a start key, [step] folds the
    items of a page into the result.  [fuel] bounds the pages. *)
Fixpoint page_loop {A} (fuel : nat) (next : option Item → result Page SdkError)
    (fault : SdkError → Error) (step : A → list Item → result A Error)
    (acc : A) (start : option Item) : result A Error :=
  match fuel with
  | 0 => Err (Internal "page loop out of fuel")
  | S fuel =>
      let? page := map_err fault (next start) in
      let? acc := step acc (pg_items page) in
      match pg_last page with
      | None => Ok acc
      | Some k => page_loop fuel next fault step acc (Some k)
      end
  end.

Definition scan_fuel (d : D) (t : string) : nat := S (S (length (scan_rows d t))).
Definition query_fuel (d : D) (t h : string) : nat := S (S (length (query_rows d t h))).

Definition sdk_storage (what : string) (e : SdkError) : Error :=
  Storage (what +:+ " failed: " +:+ sdk_to_string e).

(** What the items of a page decode to, one after the other. *)
Fixpoint decode_all {A} (dec : Item → result (list A) Error) (items : list Item)
  : result (list A) Error :=
  match items with
  | [] => Ok []
  | it :: items =>
      let? a := dec it in
      let? l := decode_all dec items in
      Ok (a ++ l)
  end.

Definition push_decoded {A} (dec : Item → result (list A) Error) (acc : list A) (items : list Item)
  : result (list A) Error :=
  rmap (app acc) (decode_all dec items).

(** Every page of a scan, decoded. *)
Definition scan_decoded {A} (d : D) (t : string) (c : option Cond) (limit : option nat)
    (what : string) (dec : Item → result (list A) Error) : result (list A) Error :=
  page_loop (scan_fuel d t) (scan d t c limit) (sdk_storage what) (push_decoded dec) [] None.

(** Every page of a query by hash key, decoded. *)
Definition query_decoded {A} (d : D) (t h : string) (what : string)
    (dec : Item → result (list A) Error) : result (list A) Error :=
  page_loop (query_fuel d t h) (query d t h None None) (sdk_storage what) (push_decoded dec) [] None.
End paging.

(** One result per item. *)
Definition one {A} (dec : Item → result A Error) (item : Item) : result (list A) Error :=
  rmap (λ a, [a]) (dec item).

(** Two ways of building the same item. *)
Ltac item_eq :=
  apply map_eq; let k := fresh "k" in intros k;
  repeat first [rewrite lookup_insert | rewrite lookup_delete];
  repeat case_decide; simplify_eq; try done.

(** ** Decimal numbers *)

Lemma pretty_N_char_digit n : (n < 10)%N → digit_of (pretty_N_char n) = Some (Z.of_N n).
Proof.
  intros Hn. assert (Hc : n = 0%N ∨ n = 1%N ∨ n = 2%N ∨ n = 3%N ∨ n = 4%N ∨ n = 5%N ∨ n = 6%N ∨
    n = 7%N ∨ n = 8%N ∨ n = 9%N) by lia.
  by destruct Hc as [->|[->|[->|[->|[->|[->|[->|[->|[->| ->]]]]]]]]].
Qed.

Lemma parse_digits_pretty max x s :
  (Z.of_N x ≤ max)%Z → parse_digits max 0 (pretty_N_go x s) = parse_digits max (Z.of_N x) s.
Proof.
  revert s. induction (N.lt_wf_0 x) as [x _ IH]; intros s Hx.
  destruct (decide (x = 0%N)) as [->|Hne]; [by rewrite pretty_N_go_0|].
  rewrite pretty_N_go_step by lia.
  assert (Hlt : (x `div` 10 < x)%N) by (apply N.div_lt; lia).
  rewrite IH by lia. cbn [parse_digits].
  rewrite pretty_N_char_digit by (apply N.mod_lt; lia).
  assert (Heq : (Z.of_N (x `div` 10) * 10 + Z.of_N (x `mod` 10))%Z = Z.of_N x).
  { rewrite (N.div_mod x 10) at 3 by lia. lia. }
  rewrite Heq, (proj2 (Z.leb_le _ _)) by lia. done.
Qed.

Lemma pretty_N_go_head x s :
  (x ≠ 0)%N → ∃ c s', pretty_N_go x s = String c s' ∧ c ≠ "-"%char ∧ c ≠ "+"%char.
Proof.
  revert s. induction (N.lt_wf_0 x) as [x _ IH]; intros s Hx.
  rewrite pretty_N_go_step by lia. destruct (decide (x `div` 10 = 0)%N) as [Hz|Hz].
  - rewrite Hz, pretty_N_go_0. eexists _, _. split; [done|].
    pose proof (pretty_N_char_digit (x `mod` 10) ltac:(apply N.mod_lt; lia)) as Hd.
    split; intros Heq; by rewrite Heq in Hd.
  - apply IH; [apply N.div_lt; lia|done].
Qed.

Lemma pretty_nonneg_head (z : Z) :
  (0 ≤ z)%Z → ∃ c s', pretty z = String c s' ∧ c ≠ "-"%char ∧ c ≠ "+"%char.
Proof.
  intros Hz. destruct z as [|p|p]; [by eexists _, _| |lia].
  change (pretty (Z.pos p)) with (pretty (N.pos p)).
  unfold pretty, pretty_N. rewrite decide_False by done. by apply pretty_N_go_head.
Qed.

Lemma parse_digits_pretty_Z max (z : Z) :
  (0 ≤ z ≤ max)%Z → parse_digits max 0 (pretty z) = Some z.
Proof.
  intros [Hz Hm]. destruct z as [|p|p]; [|change (pretty (Z.pos p)) with (pretty (N.pos p))|lia].
  - by destruct max; [..|lia].
  - unfold pretty, pretty_N. rewrite decide_False by done. by rewrite parse_digits_pretty.
Qed.

Lemma strip_prefix_ne a c s : a ≠ c → strip_prefix (String a "") (String c s) = None.
Proof. intros Hne. cbn. by destruct (Ascii.eqb_spec a c). Qed.

(** [u64::to_string] and [str::parse::<u64>]. *)
Lemma parse_u64_pretty (z : Z) : is_u64 z → parse_u64 (pretty z) = Some z.
Proof.
  intros Hz. destruct (pretty_nonneg_head z) as (c & s & E & _ & Hc); [apply Hz|].
  unfold parse_u64, parse_uint. rewrite E, strip_prefix_ne by done. cbn [is_empty].
  rewrite <- E. by apply parse_digits_pretty_Z.
Qed.

Lemma num_value_pretty (z : Z) : (Z.abs z ≤ 10 ^ 38)%Z → num_value (pretty z) = Some z.
Proof.
  intros Hz. unfold num_value. destruct (decide (0 ≤ z)%Z) as [Hp|Hn].
  - destruct (pretty_nonneg_head z Hp) as (c & s & E & Hc & _).
    rewrite E, strip_prefix_ne by done. cbn [is_empty]. rewrite <- E.
    apply parse_digits_pretty_Z. lia.
  - destruct z as [|p|p]; [lia..|].
    change (pretty (Z.neg p)) with ("-" +:+ pretty (Z.pos p)).
    rewrite strip_prefix_app.
    destruct (pretty_nonneg_head (Z.pos p)) as (c & s & E & _); [lia|].
    rewrite E. cbn [is_empty]. rewrite <- E, parse_digits_pretty_Z by lia. done.
Qed.

(** A decimal number that is read at all is read right. *)
Lemma parse_digits_mono max max' acc s z :
  (max ≤ max')%Z → parse_digits max acc s = Some z → parse_digits max' acc s = Some z.
Proof.
  intros Hm. revert acc. induction s as [|c s IH]; intros acc; cbn; [done|].
  destruct (digit_of c); [|done]. destruct (Z.leb_spec (acc * 10 + z0) max); [|done].
  rewrite (proj2 (Z.leb_le _ _)) by lia. apply IH.
Qed.

Lemma parse_digits_of_pretty max (y z : Z) :
  (0 ≤ z)%Z → (0 ≤ max)%Z → parse_digits max 0 (pretty z) = Some y → y = z ∧ (z ≤ max)%Z.
Proof.
  intros Hz Hm Hp. apply parse_digits_bound in Hp as Hb; [|lia].
  apply (parse_digits_mono _ (Z.max max z)) in Hp; [|lia].
  rewrite parse_digits_pretty_Z in Hp by lia. injection Hp as <-. lia.
Qed.

Lemma parse_u64_of_pretty (y z : Z) : (0 ≤ z)%Z → parse_u64 (pretty z) = Some y → y = z.
Proof.
  intros Hz. destruct (pretty_nonneg_head z Hz) as (c & s & E & _ & Hc).
  unfold parse_u64, parse_uint. rewrite E, strip_prefix_ne by done. cbn [is_empty].
  rewrite <- E. intros Hp. by apply parse_digits_of_pretty in Hp as [-> _].
Qed.

Lemma num_value_of_pretty (y z : Z) :
  (0 ≤ z)%Z → num_value (pretty z) = Some y → y = z ∧ (z ≤ 10 ^ 38)%Z.
Proof.
  intros Hz. destruct (pretty_nonneg_head z Hz) as (c & s & E & Hc & _).
  unfold num_value. rewrite E, strip_prefix_ne by done. cbn [is_empty]. rewrite <- E.
  by apply parse_digits_of_pretty.
Qed.

(** ** Writes *)
Section writes.
Context {D : Type} `{Dynamo D, DynamoView D}.

(** A served write does what its row function says. *)
Lemma written_served {A} (d : D) t tb (w : Table → option (option (Table * A))) out r :
  written d t w out → served out.2 → tables d !! t = Some tb → w tb = Some r →
  match r with
  | Some (tb', a) => out.2 = Ok a ∧ tables out.1 = <[t := tb']> (tables d)
  | None => out.2 = Err ConditionalCheckFailed ∧ tables out.1 = tables d
  end.
Proof.
  unfold written. destruct out as [d' [a|[]]]; cbn; intros Hw Hs Ht Hr; try done.
  - destruct Hw as (tb0 & tb' & Ht0 & Hw & Hd). assert (tb0 = tb) as -> by congruence.
    rewrite Hr in Hw. injection Hw as ->. done.
  - destruct Hw as [(tb0 & Ht0 & Hw) Hd]. assert (tb0 = tb) as -> by congruence.
    rewrite Hr in Hw. injection Hw as ->. done.
Qed.

(** Whatever the answer, a write leaves the table as it was or applies its row
    function to it; the latter when it is answered.  Every other table is
    untouched. *)
Lemma written_either {A} (d : D) t (w : Table → option (option (Table * A))) out :
  written d t w out →
  (tables out.1 = tables d ∧ is_ok out.2 = false) ∨
  ∃ tb tb' a, tables d !! t = Some tb ∧ w tb = Some (Some (tb', a)) ∧
    tables out.1 = <[t := tb']> (tables d) ∧ (∀ a', out.2 = Ok a' → a' = a).
Proof.
  unfold written. destruct out as [d' [a|[]]]; cbn.
  - intros (tb & tb' & Ht & Hw & Hd). right. exists tb, tb', a. split_and!; try done.
    by intros a' [= <-].
  - intros [_ Hd]. by left.
  - intros [Hd|(a & tb & tb' & Ht & Hw & Hd)]; [by left|]. right. by exists tb, tb', a.
  - intros [Hd|(a & tb & tb' & Ht & Hw & Hd)]; [by left|]. right. by exists tb, tb', a.
Qed.
End writes.

(** ** Paging reaches every row *)
Section paging_theorems.
Context {D : Type} `{Dynamo D, DynamoView D}.

Lemma rows_after_app spec pre it rest k :
  key_of spec it = Some k → (∀ x, x ∈ pre → key_of spec x ≠ Some k) →
  rows_after spec k (pre ++ it :: rest) = rest.
Proof.
  intros Hk. induction pre as [|x pre IH]; cbn; intros Hpre.
  - by rewrite bool_decide_eq_true_2.
  - rewrite bool_decide_eq_false_2 by (apply Hpre; left). apply IH. intros y Hy. apply Hpre. by right.
Qed.

(** Rows with pairwise distinct keys. *)
Definition keyed_rows (spec : TableSpec) (rows : list Item) : Prop :=
  NoDup (key_of spec <$> rows) ∧ Forall (λ it, is_Some (key_of spec it)) rows.

Lemma rows_from_suffix spec rows start :
  keyed_rows spec rows → start_ok spec start rows →
  ∃ pre, rows = pre ++ rows_from spec start rows.
Proof.
  intros [Hnd Hall] Hok. destruct start as [s|]; cbn; [|by exists []].
  destruct Hok as (it & Hin & Hk). apply list_elem_of_split in Hin as (l1 & l2 & ->).
  rewrite Forall_app, Forall_cons in Hall. destruct Hall as (_ & [k Hit] & _).
  rewrite Hk, Hit, (rows_after_app _ l1 it l2 k Hit).
  - exists (l1 ++ [it]). by rewrite <- app_assoc.
  - intros x Hx Hxk. rewrite fmap_app, fmap_cons in Hnd.
    apply NoDup_app in Hnd as (_ & Hdis & _). apply (Hdis (key_of spec x)).
    + by apply list_elem_of_fmap_2.
    + apply elem_of_cons. left. congruence.
Qed.

(** The next start key is the last row of the page, and the page loop goes on
    right behind it. *)
Lemma page_next spec rows start seg0 it rest s :
  keyed_rows spec rows → start_ok spec start rows →
  rows_from spec start rows = (seg0 ++ [it]) ++ rest → key_of spec s = key_of spec it →
  start_ok spec (Some s) rows ∧ rows_from spec (Some s) rows = rest.
Proof.
  intros Hkr Hok Hrf Hk. destruct (rows_from_suffix spec rows start Hkr Hok) as [pre Hpre].
  rewrite Hrf, <- app_assoc, app_assoc in Hpre. destruct Hkr as [Hnd Hall].
  split; [exists it; split; [|done]|].
  { rewrite Hpre. apply elem_of_app. right. apply elem_of_app. left. by left. }
  rewrite Hpre in Hnd, Hall. rewrite Forall_app in Hall. destruct Hall as [_ Hall].
  rewrite Forall_app, Forall_singleton in Hall. destruct Hall as [[k Hit] _].
  cbn [rows_from]. rewrite Hk, Hit, Hpre. cbn [app].
  apply rows_after_app; [done|]. intros x Hx Hxk.
  rewrite fmap_app in Hnd. apply NoDup_app in Hnd as (_ & Hdis & _).
  apply (Hdis (key_of spec x)); [by apply list_elem_of_fmap_2|].
  cbn. apply elem_of_cons. left. congruence.
Qed.

Lemma decode_all_app {A} (dec : Item → result (list A) Error) l1 l2 :
  decode_all dec (l1 ++ l2) =
    rbind (decode_all dec l1) (λ a, rmap (app a) (decode_all dec l2)).
Proof.
  induction l1 as [|it l1 IH]; cbn; [by destruct (decode_all dec l2)|].
  destruct (dec it); cbn; [|done]. rewrite IH. destruct (decode_all dec l1); cbn; [|done].
  destruct (decode_all dec l2); cbn; [|done]. by rewrite app_assoc.
Qed.

Lemma push_decoded_eq {A} (dec : Item → result (list A) Error) acc items :
  push_decoded dec acc items = rmap (app acc) (decode_all dec items).
Proof. done. Qed.

(** A page loop whose calls are all answered returns everything. *)
Lemma page_loop_complete {A} spec f limit rows next fault (dec : Item → result (list A) Error) out :
  keyed_rows spec rows →
  (∀ start, start_ok spec start rows → ∃ p, next start = Ok p ∧ is_page spec f limit start rows p) →
  decode_all dec (List.filter f rows) = Ok out →
  ∀ fuel, length rows < fuel →
  page_loop fuel next fault (push_decoded dec) [] None = Ok out.
Proof.
  intros Hkr Hnext Hdec.
  assert (Hgen : ∀ fuel start acc rest, start_ok spec start rows →
    length (rows_from spec start rows) < fuel →
    decode_all dec (List.filter f (rows_from spec start rows)) = Ok rest →
    page_loop fuel next fault (push_decoded dec) acc start = Ok (acc ++ rest)).
  { induction fuel as [|fuel IH]; intros start acc rest Hs Hlen Hr; [lia|]. cbn [page_loop].
    destruct (Hnext start Hs) as (p & -> & seg & tl & Hrf & Hit & _ & Hlast). cbn.
    rewrite Hrf, List.filter_app, decode_all_app in Hr. rewrite Hit, push_decoded_eq.
    destruct (decode_all dec (List.filter f seg)) as [a|]; cbn in *; [|done].
    destruct (decode_all dec (List.filter f tl)) as [b|] eqn:Eb; cbn in *; [|done].
    injection Hr as <-. destruct (pg_last p) as [s|].
    - destruct Hlast as (seg0 & it & -> & Hk).
      destruct (page_next spec rows start seg0 it tl s Hkr Hs Hrf Hk) as [Hs' Hrf'].
      rewrite (IH (Some s) (acc ++ a) b); [by rewrite app_assoc|done| |by rewrite Hrf'].
      rewrite Hrf'. rewrite Hrf, !length_app in Hlen. cbn in Hlen. lia.
    - subst tl. cbn in Eb. injection Eb as <-. by rewrite app_nil_r. }
  intros fuel Hf. rewrite (Hgen fuel None [] out); [done|done|done|done].
Qed.

(** Whatever a page loop returns was decoded from an item. *)
Lemma page_loop_elem {A} next fault (dec : Item → result (list A) Error) fuel acc start out :
  page_loop fuel next fault (push_decoded dec) acc start = Ok out →
  ∀ x, x ∈ out → x ∈ acc ∨ ∃ it l, dec it = Ok l ∧ x ∈ l.
Proof.
  assert (Hdec : ∀ items l, decode_all dec items = Ok l → ∀ x, x ∈ l → ∃ it l', dec it = Ok l' ∧ x ∈ l').
  { induction items as [|it items IH]; cbn; [intros l [= <-] x []%elem_of_nil|].
    destruct (dec it) as [a|] eqn:Ed; cbn; [|done].
    destruct (decode_all dec items) as [b|]; cbn; [|done].
    intros l [= <-] x [Hx|Hx]%elem_of_app; eauto. }
  revert acc start. induction fuel as [|fuel IH]; intros acc start; [done|]. cbn [page_loop].
  destruct (next start) as [p|]; cbn; [|done]. rewrite push_decoded_eq.
  destruct (decode_all dec (pg_items p)) as [a|] eqn:Ea; cbn; [|done].
  destruct (pg_last p) as [s|].
  - intros Hl x Hx. destruct (IH _ _ Hl x Hx) as [[?|?]%elem_of_app|?]; eauto.
  - intros [= <-] x [?|?]%elem_of_app; eauto.
Qed.

(** Decoding items that all decode. *)
Lemma decode_all_total {A} (dec : Item → result (list A) Error) (g : Item → list A) items :
  (∀ it, it ∈ items → dec it = Ok (g it)) → decode_all dec items = Ok (mjoin (g <$> items)).
Proof.
  induction items as [|it items IH]; cbn; intros Hall; [done|].
  rewrite (Hall it) by left. cbn. rewrite IH by (intros; apply Hall; by right). done.
Qed.
End paging_theorems.

(** A row is stored under its own key. *)
Definition table_wf (tb : Table) : Prop :=
  ∀ k it, tb_rows tb !! k = Some it → key_of (tb_spec tb) it = Some k.

Lemma filter_all {A} (f : A → bool) (l : list A) : (∀ x, x ∈ l → f x = true) → List.filter f l = l.
Proof.
  induction l as [|x l IH]; cbn; intros Hf; [done|]. rewrite Hf by left.
  rewrite IH; [done|]. intros y Hy. apply Hf. by right.
Qed.

Lemma filter_none {A} (f : A → bool) (l : list A) : (∀ x, x ∈ l → f x = false) → List.filter f l = [].
Proof.
  induction l as [|x l IH]; cbn; intros Hf; [done|]. rewrite Hf by left. apply IH.
  intros y Hy. apply Hf. by right.
Qed.

(** The order of deletions does not matter. *)
Lemma del_rows_perm tb l1 l2 : l1 ≡ₚ l2 → foldl del_row tb l1 = foldl del_row tb l2.
Proof.
  intros Hp. revert tb. induction Hp as [|k l1 l2 _ IH|k1 k2 l|l1 l2 l3 _ IH1 _ IH2]; intros tb; cbn.
  - done.
  - apply IH.
  - f_equal. unfold del_row. cbn. f_equal. apply delete_delete.
  - by rewrite IH1.
Qed.

Lemma put_row_inv c item tb tb' u :
  put_row c item tb = Some (Some (tb', u)) →
  ∃ k, key_of (tb_spec tb) item = Some k ∧ check c (tb_rows tb !! k) = true ∧ tb' = set_row tb k item.
Proof.
  unfold put_row. destruct (key_of _ item) as [k|]; [|done]. cbn [mbind option_bind].
  case_guard; [|done]. cbn [mbind option_bind]. destruct (check c _) eqn:Hc; [|done].
  intros [= <-]. by exists k.
Qed.

Lemma del_rows_lookup ks tb k :
  tb_rows (foldl del_row tb ks) !! k = if decide (k ∈ ks) then None else tb_rows tb !! k.
Proof.
  revert tb. induction ks as [|k' ks IH]; intros tb; [done|]. cbn [foldl]. rewrite IH.
  destruct (decide (k ∈ ks)) as [Hin|Hn]; [by rewrite decide_True by (by right)|].
  cbn. destruct (decide (k' = k)) as [<-|Hne].
  - by rewrite lookup_delete_eq, decide_True by (by left).
  - rewrite lookup_delete_ne, decide_False; [done| |done]. rewrite elem_of_cons. naive_solver.
Qed.

Lemma del_rows_spec ks tb : tb_spec (foldl del_row tb ks) = tb_spec tb.
Proof. revert tb. induction ks as [|k ks IH]; intros tb; cbn; [done|]. by rewrite IH. Qed.

(** ** Reading a healthy database *)
Section healthy.
Context {D : Type} {DB : Dynamo D} {DV : DynamoView D} {DL : DynamoLaws D} {DH : DynamoHealthy D}.
Implicit Types (d : D).

Lemma replica_tables d : replica d = tables d.
Proof. apply reads_current. Qed.
Lemma indexed_tables d : indexed d = tables d.
Proof. apply reads_current. Qed.

Lemma put_item_ok d t tb c item r :
  tables d !! t = Some tb → put_row c item tb = Some r →
  match r with
  | Some (tb', _) => (put_item d t c item).2 = Ok () ∧
      tables (put_item d t c item).1 = <[t := tb']> (tables d)
  | None => (put_item d t c item).2 = Err ConditionalCheckFailed ∧
      tables (put_item d t c item).1 = tables d
  end.
Proof.
  intros Ht Hr. pose proof (written_served _ _ _ _ _ r (put_item_law d t c item)
    (put_served _ _ _ _ _ Ht ltac:(by rewrite Hr)) Ht Hr) as Hw.
  by destruct r as [[tb' []]|].
Qed.

Lemma update_item_ok d t tb c key acts r :
  tables d !! t = Some tb → update_row c key acts tb = Some r →
  match r with
  | Some (tb', a) => (update_item d t c key acts).2 = Ok a ∧
      tables (update_item d t c key acts).1 = <[t := tb']> (tables d)
  | None => (update_item d t c key acts).2 = Err ConditionalCheckFailed ∧
      tables (update_item d t c key acts).1 = tables d
  end.
Proof.
  intros Ht Hr. exact (written_served _ _ _ _ _ r (update_item_law d t c key acts)
    (update_served _ _ _ _ _ _ Ht ltac:(by rewrite Hr)) Ht Hr).
Qed.

Lemma delete_item_ok d t tb c key r :
  tables d !! t = Some tb → delete_row c key tb = Some r →
  match r with
  | Some (tb', a) => (delete_item d t c key).2 = Ok a ∧
      tables (delete_item d t c key).1 = <[t := tb']> (tables d)
  | None => (delete_item d t c key).2 = Err ConditionalCheckFailed ∧
      tables (delete_item d t c key).1 = tables d
  end.
Proof.
  intros Ht Hr. exact (written_served _ _ _ _ _ r (delete_item_law d t c key)
    (delete_served _ _ _ _ _ Ht ltac:(by rewrite Hr)) Ht Hr).
Qed.

Lemma get_item_ok d t tb key k :
  tables d !! t = Some tb → key_of (tb_spec tb) key = Some k →
  get_item d t key = Ok (tb_rows tb !! k).
Proof.
  intros Ht Hk. pose proof (get_served d t tb key Ht ltac:(by rewrite Hk)) as Hs.
  destruct (get_item d t key) as [o|] eqn:E; [|done].
  destruct (get_item_law d t key o E) as (tb0 & k0 & Ht0 & Hk0 & ->).
  rewrite replica_tables, Ht in Ht0. injection Ht0 as <-. congruence.
Qed.

Lemma query_index_ok d t tb ix a v :
  tables d !! t = Some tb → tp_gsis (tb_spec tb) = [(ix, a)] → v ≠ "" →
  ∃ o, query_index d t ix v 1 = Ok (option_list o) ∧
    match o with
    | Some it => (∃ k, tb_rows tb !! k = Some it) ∧ get_s it a = Some v
    | None => ∀ k it, tb_rows tb !! k = Some it → get_s it a ≠ Some v
    end.
Proof.
  intros Ht Hg Hv.
  pose proof (query_index_served d t tb ix a v 1 Ht ltac:(rewrite Hg; by left) Hv) as Hs.
  destruct (query_index d t ix v 1) as [l|] eqn:E; [|done].
  destruct (query_index_law _ _ _ _ _ _ E) as (tb0 & a0 & Ht0 & Hin & Hlen & Hall & Hnone).
  rewrite indexed_tables, Ht in Ht0. injection Ht0 as <-.
  rewrite Hg in Hin. apply list_elem_of_singleton in Hin as [= ->].
  destruct l as [|it [|]]; cbn in Hlen; [| |lia].
  - exists None. split; [done|]. apply Hnone; [done|lia].
  - exists (Some it). split; [done|]. apply Hall. by left.
Qed.

Lemma rows_keyed tb rows :
  table_wf tb → rows ≡ₚ (map_to_list (tb_rows tb)).*2 → keyed_rows (tb_spec tb) rows.
Proof.
  intros Hwf Hp. unfold keyed_rows. rewrite Hp.
  assert (Hk : key_of (tb_spec tb) <$> (map_to_list (tb_rows tb)).*2 =
    Some <$> (map_to_list (tb_rows tb)).*1).
  { rewrite <- !list_fmap_compose. apply list_fmap_ext. intros i [k it] Hi. cbn.
    apply Hwf, elem_of_map_to_list. by eapply list_elem_of_lookup_2. }
  split.
  - rewrite Hk. apply NoDup_fmap_2; [apply _|]. apply NoDup_fst_map_to_list.
  - apply Forall_forall. intros it ([k x] & -> & Hin)%list_elem_of_fmap.
    apply elem_of_map_to_list, Hwf in Hin. cbn. by rewrite Hin.
Qed.

Lemma keyed_filter spec f rows : keyed_rows spec rows → keyed_rows spec (List.filter f rows).
Proof.
  unfold keyed_rows. intros [Hnd Hall]. induction rows as [|it rows IH]; cbn; [done|].
  cbn in Hnd. apply NoDup_cons in Hnd as [Hn Hnd]. apply Forall_cons in Hall as [Hi Hall].
  destruct (IH Hnd Hall) as [IH1 IH2]. destruct (f it); [|done]. cbn. split.
  - constructor; [|done]. intros (x & Hx & Hin)%list_elem_of_fmap. apply Hn. rewrite Hx.
    apply filter_bool_elem in Hin as [Hin _]. by apply list_elem_of_fmap_2.
  - by constructor.
Qed.

(** Scans and queries return every row, however the service pages them. *)
Lemma scan_decoded_ok {A} d t tb c n what (dec : Item → result (list A) Error) out :
  tables d !! t = Some tb → table_wf tb → n ≠ Some 0 →
  decode_all dec (List.filter (passes c) (scan_rows d t)) = Ok out →
  scan_decoded d t c n what dec = Ok out.
Proof.
  intros Ht Hwf Hn Hdec. unfold scan_decoded.
  assert (Hp : scan_rows d t ≡ₚ (map_to_list (tb_rows tb)).*2)
    by (apply scan_rows_law; by rewrite replica_tables).
  eapply (page_loop_complete (tb_spec tb) (passes c) n (scan_rows d t));
    [by apply rows_keyed| |done|unfold scan_fuel; lia].
  intros start Hs. pose proof (scan_served d t tb c n start Ht Hn Hs) as Hok.
  destruct (scan d t c n start) as [p|] eqn:E; [|done]. exists p. split; [done|].
  destruct (scan_law _ _ _ _ _ _ E) as (tb0 & Ht0 & _ & Hpage).
  rewrite replica_tables, Ht in Ht0. injection Ht0 as <-. by apply Hpage.
Qed.

Lemma filter_true {A} (l : list A) : List.filter (λ _, true) l = l.
Proof. by apply filter_all. Qed.

Lemma query_decoded_ok {A} d t tb h what (dec : Item → result (list A) Error) out :
  tables d !! t = Some tb → table_wf tb → numeric_range (tb_spec tb) = false → h ≠ "" →
  decode_all dec (query_rows d t h) = Ok out →
  query_decoded d t h what dec = Ok out.
Proof.
  intros Ht Hwf Hnr Hh Hdec. unfold query_decoded.
  destruct (query_rows_law d t h tb) as [Hp _]; [by rewrite replica_tables|].
  assert (Hkr : keyed_rows (tb_spec tb) (query_rows d t h)).
  { assert (Hall : keyed_rows (tb_spec tb) (map_to_list (tb_rows tb)).*2) by (by apply rows_keyed).
    unfold keyed_rows in *. rewrite Hp. by apply keyed_filter. }
  eapply (page_loop_complete (tb_spec tb) (λ _, true) None (query_rows d t h));
    [done| |by rewrite filter_true|unfold query_fuel; lia].
  intros start Hs. pose proof (query_served d t tb h None None start Ht ltac:(done) Hh ltac:(by rewrite Hnr)) as Hok.
  destruct (query d t h None None start) as [p|] eqn:E; [|done]. exists p. split; [done|].
  destruct (query_law _ _ _ _ _ _ _ E) as (tb0 & Ht0 & _ & Hpage).
  rewrite replica_tables, Ht in Ht0. injection Ht0 as <-.
  rewrite Hnr, (filter_true (query_rows d t h)) in Hpage. by apply Hpage.
Qed.
End healthy.

(** ** Tables that hold a map of records *)
Section encoded.
Context {K A : Type} `{Countable K} (kf : K → Key) `{!Inj (=) (=) kf} (enc : K → A → Item).
Implicit Types (m : gmap K A).

Definition rows_of m : gmap Key Item := kmap kf (map_imap (λ k a, Some (enc k a)) m).

Lemma rows_of_lookup m k : rows_of m !! kf k = enc k <$> m !! k.
Proof.
  unfold rows_of. rewrite lookup_kmap by done. rewrite map_lookup_imap. by destruct (m !! k).
Qed.

Lemma rows_of_Some m k it :
  rows_of m !! k = Some it ↔ ∃ i a, k = kf i ∧ it = enc i a ∧ m !! i = Some a.
Proof.
  unfold rows_of. rewrite lookup_kmap_Some by done. split.
  - intros (i & -> & Hi). rewrite map_lookup_imap in Hi.
    destruct (m !! i) as [a|] eqn:E; [|done]. injection Hi as <-. by exists i, a.
  - intros (i & a & -> & -> & Hi). exists i. split; [done|]. by rewrite map_lookup_imap, Hi.
Qed.

Lemma rows_of_insert m k a : rows_of (<[k := a]> m) = <[kf k := enc k a]> (rows_of m).
Proof.
  apply map_eq. intros k'. apply option_eq. intros it. rewrite lookup_insert_Some, !rows_of_Some.
  split.
  - intros (i & x & -> & -> & Hi). apply lookup_insert_Some in Hi as [[<- <-]|[Hne Hi]]; [by left|].
    right. split; [by intros ?%(inj kf)|]. by exists i, x.
  - intros [[<- <-]|[Hne (i & x & -> & -> & Hi)]].
    + exists k, a. by rewrite lookup_insert_eq.
    + exists i, x. rewrite lookup_insert_ne by (intros ->; done). done.
Qed.

Lemma rows_of_delete m k : rows_of (delete k m) = delete (kf k) (rows_of m).
Proof.
  apply map_eq. intros k'. apply option_eq. intros it. rewrite lookup_delete_Some, !rows_of_Some.
  split.
  - intros (i & x & -> & -> & [Hne Hi]%lookup_delete_Some).
    split; [by intros ?%(inj kf)|]. by exists i, x.
  - intros [Hne (i & x & -> & -> & Hi)]. exists i, x.
    rewrite lookup_delete_ne by (intros ->; done). done.
Qed.

Lemma rows_of_values m :
  (map_to_list (rows_of m)).*2 ≡ₚ (λ ka, enc ka.1 ka.2) <$> map_to_list m.
Proof.
  induction m as [|k a m Hk IH] using map_ind.
  - unfold rows_of. rewrite map_imap_empty, kmap_empty, !map_to_list_empty. done.
  - rewrite rows_of_insert, map_to_list_insert by (rewrite rows_of_lookup, Hk; done).
    rewrite map_to_list_insert by done. cbn. by rewrite IH.
Qed.

Lemma rows_of_empty : rows_of ∅ = ∅.
Proof. unfold rows_of. by rewrite map_imap_empty, kmap_empty. Qed.

Lemma rows_of_wf spec m :
  (∀ i a, m !! i = Some a → key_of spec (enc i a) = Some (kf i)) → table_wf (mkTable spec (rows_of m)).
Proof. intros Hk k it (i & a & -> & -> & Hi)%rows_of_Some. by apply Hk. Qed.
End encoded.

(** Decoding a permutation of encoded records. *)
Lemma decode_encoded {A B} (dec : Item → result (list B) Error) (g : A → Item) (h : A → list B)
    (items : list Item) (l : list A) :
  items ≡ₚ g <$> l → (∀ a, a ∈ l → dec (g a) = Ok (h a)) →
  ∃ out, decode_all dec items = Ok out ∧ out ≡ₚ l ≫= h.
Proof.
  intros Hp Hdec. apply Permutation_map_inv in Hp as (l' & -> & Hl').
  exists (l' ≫= h). split.
  - assert (Hdec' : ∀ a, a ∈ l' → dec (g a) = Ok (h a)) by (intros a Ha; apply Hdec; by rewrite Hl').
    clear -Hdec'. induction l' as [|a l' IH]; cbn; [done|].
    rewrite Hdec' by left. cbn. rewrite IH by (intros; apply Hdec'; by right). done.
  - by rewrite Hl'.
Qed.

Lemma bind_singletons {A} (l : list A) : (l ≫= λ a, [a]) = l.
Proof. induction l as [|a l IH]; cbn; [done|]. by rewrite <- IH at 2. Qed.

(** ** Tables of records with a hash key *)
Definition hash_key (h : string) : Key := (h, "").
#[global] Instance hash_key_inj : Inj (=) (=) hash_key.
Proof. by intros ?? [=]. Qed.

Lemma nonempty_ok s : s ≠ "" → nonempty s = Some s.
Proof. by destruct s. Qed.

Section records.
Context {A : Type} (spec : TableSpec) (enc : A → Item) (idf : A → string).
Context (Hrange : tp_range spec = None).
Context (Hid : ∀ a, get_s (enc a) (tp_hash spec) = Some (idf a)).
Implicit Types (m : gmap string A) (a : A).

Definition record_table m : Table := mkTable spec (rows_of hash_key (λ _, enc) m).

(** Every record is filed under its own id. *)
Definition filed m : Prop := ∀ i a, m !! i = Some a → idf a = i ∧ i ≠ "".

Lemma key_of_hash item h :
  get_s item (tp_hash spec) = Some h → h ≠ "" → key_of spec item = Some (hash_key h).
Proof.
  intros Hg Hh. unfold key_of. rewrite Hg. cbn [mbind option_bind]. rewrite nonempty_ok by done.
  by rewrite Hrange.
Qed.

Lemma key_of_id id : id ≠ "" → key_of spec {[tp_hash spec := AS id]} = Some (hash_key id).
Proof. intros Hne. apply key_of_hash; [|done]. unfold get_s. by rewrite lookup_singleton_eq. Qed.

Lemma record_table_empty : record_table ∅ = mkTable spec ∅.
Proof. unfold record_table. by rewrite rows_of_empty. Qed.

Lemma record_rows_lookup m id : tb_rows (record_table m) !! hash_key id = enc <$> m !! id.
Proof. cbn. by rewrite rows_of_lookup by apply _. Qed.

Lemma record_rows_Some m k it :
  tb_rows (record_table m) !! k = Some it ↔ ∃ i a, k = hash_key i ∧ it = enc a ∧ m !! i = Some a.
Proof. cbn. by rewrite rows_of_Some by apply _. Qed.

Lemma record_table_wf m : filed m → table_wf (record_table m).
Proof.
  intros Hf. apply rows_of_wf; [apply _|]. intros i a Hi. destruct (Hf i a Hi) as [<- Hne].
  by apply key_of_hash.
Qed.

Lemma put_record c a m :
  idf a ≠ "" → index_ok spec (enc a) = true →
  put_row c (enc a) (record_table m) =
    Some (if check c (enc <$> m !! idf a) then Some (record_table (<[idf a := a]> m), ()) else None).
Proof.
  intros Hne Hix. unfold put_row. cbn [record_table tb_spec].
  rewrite (key_of_hash _ _ (Hid a) Hne). cbn [mbind option_bind].
  rewrite option_guard_True by done. cbn [mbind option_bind].
  rewrite record_rows_lookup. unfold set_row, record_table. cbn [tb_spec tb_rows].
  by rewrite rows_of_insert by apply _.
Qed.

Lemma delete_record c id m :
  id ≠ "" →
  delete_row c {[tp_hash spec := AS id]} (record_table m) =
    Some (if check c (enc <$> m !! id)
          then Some (record_table (delete id m), enc <$> m !! id) else None).
Proof.
  intros Hne. unfold delete_row. cbn [record_table tb_spec]. rewrite key_of_id by done.
  cbn [mbind option_bind]. rewrite record_rows_lookup. unfold del_row, record_table.
  cbn [tb_spec tb_rows]. by rewrite rows_of_delete by apply _.
Qed.

Lemma update_record c acts id a a' m :
  id ≠ "" → m !! id = Some a → cond_holds c (enc a) = true →
  apply_actions acts (enc a) = Some (enc a') → idf a' = id → index_ok spec (enc a') = true →
  ∃ attrs, attrs = filter (λ kv, kv.1 ∈ (action_attr <$> acts)) (enc a') ∧
    update_row (Some c) {[tp_hash spec := AS id]} acts (record_table m) =
      Some (Some (record_table (<[id := a']> m), attrs)).
Proof.
  intros Hne Hm Hc Ha Hid' Hix. unfold update_row. cbn [record_table tb_spec].
  rewrite key_of_id by done. cbn [mbind option_bind]. rewrite record_rows_lookup, Hm.
  change (check (Some c) (enc <$> Some a)) with (cond_holds c (enc a)). rewrite Hc.
  change (default _ (enc <$> Some a)) with (enc a). rewrite Ha. cbn [mbind option_bind]. rewrite option_guard_True.
  - eexists. split; [done|]. unfold set_row, record_table. cbn. by rewrite rows_of_insert by apply _.
  - split; [done|]. subst id. by apply key_of_hash.
Qed.

Lemma update_refused c acts id m :
  id ≠ "" → check (Some c) (enc <$> m !! id) = false →
  update_row (Some c) {[tp_hash spec := AS id]} acts (record_table m) = Some None.
Proof.
  intros Hne Hc. unfold update_row. cbn [record_table tb_spec]. rewrite key_of_id by done.
  cbn [mbind option_bind]. rewrite record_rows_lookup. by rewrite Hc.
Qed.

(** What a write that went through says about the records, validated or not. *)
Lemma key_of_empty item : get_s item (tp_hash spec) = Some "" → key_of spec item = None.
Proof. intros Hg. unfold key_of. by rewrite Hg. Qed.

Lemma key_id_inv id k :
  key_of spec {[tp_hash spec := AS id]} = Some k → id ≠ "" ∧ k = hash_key id.
Proof.
  destruct (decide (id = "")) as [->|Hne].
  - rewrite key_of_empty; [done|]. unfold get_s. by rewrite lookup_singleton_eq.
  - rewrite key_of_id by done. by intros [= <-].
Qed.

Lemma set_row_record m id a : set_row (record_table m) (hash_key id) (enc a) = record_table (<[id := a]> m).
Proof. unfold set_row, record_table. cbn. by rewrite rows_of_insert by apply _. Qed.

Lemma put_record_inv c a m tb' u :
  put_row c (enc a) (record_table m) = Some (Some (tb', u)) →
  idf a ≠ "" ∧ check c (enc <$> m !! idf a) = true ∧ tb' = record_table (<[idf a := a]> m).
Proof.
  destruct (decide (idf a = "")) as [He|Hne].
  - unfold put_row. cbn [record_table tb_spec]. rewrite key_of_empty; [done|]. by rewrite Hid, He.
  - destruct (index_ok spec (enc a)) eqn:Hix.
    + rewrite put_record by done. destruct (check c _) eqn:Hc; [|done]. by intros [= <-].
    + unfold put_row. cbn [record_table tb_spec]. rewrite (key_of_hash _ _ (Hid a) Hne).
      cbn [mbind option_bind]. rewrite option_guard_False; [done|]. by rewrite Hix.
Qed.

Lemma delete_record_inv c id m tb' o :
  delete_row c {[tp_hash spec := AS id]} (record_table m) = Some (Some (tb', o)) →
  id ≠ "" ∧ check c (enc <$> m !! id) = true ∧ tb' = record_table (delete id m) ∧ o = enc <$> m !! id.
Proof.
  intros Hd. assert (Hne : id ≠ "").
  { unfold delete_row in Hd. destruct (key_of _ _) as [k|] eqn:Hk; [|done]. by apply key_id_inv in Hk as [? _]. }
  rewrite delete_record in Hd by done. destruct (check c _) eqn:Hc; [|done]. by injection Hd as <- <-.
Qed.

Lemma update_record_inv c acts id m tb' o :
  update_row (Some c) {[tp_hash spec := AS id]} acts (record_table m) = Some (Some (tb', o)) →
  cond_holds c ∅ = false →
  ∃ a new, m !! id = Some a ∧ cond_holds c (enc a) = true ∧ apply_actions acts (enc a) = Some new ∧
    o = filter (λ kv, kv.1 ∈ (action_attr <$> acts)) new ∧
    tb' = set_row (record_table m) (hash_key id) new.
Proof.
  unfold update_row. cbn [record_table tb_spec]. destruct (key_of _ _) as [k|] eqn:Hk; [|done].
  apply key_id_inv in Hk as [Hne ->]. cbn [mbind option_bind]. rewrite record_rows_lookup.
  destruct (m !! id) as [a|] eqn:Hm; cbn [fmap option_fmap option_map check].
  - change (default ∅ (Some (enc a))) with (enc a). destruct (cond_holds c (enc a)) eqn:Hc; [|done].
    change (default _ (Some (enc a))) with (enc a).
    destruct (apply_actions acts (enc a)) as [new|] eqn:Ha; cbn [mbind option_bind]; [|done].
    case_guard; cbn; [|done]. intros [= <- <-] _. by exists a, new.
  - change (default ∅ None) with (∅ : Item). intros Hu Hc. by rewrite Hc in Hu.
Qed.

Lemma record_values m :
  (map_to_list (tb_rows (record_table m))).*2 ≡ₚ (enc ∘ snd) <$> map_to_list m.
Proof. apply (rows_of_values hash_key). Qed.

Lemma filed_insert m a : filed m → idf a ≠ "" → filed (<[idf a := a]> m).
Proof. intros Hf Hne i x [[<- <-]|[_ Hx]]%lookup_insert_Some; [done|by apply Hf]. Qed.

Lemma filed_delete m id : filed m → filed (delete id m).
Proof. intros Hf i x [_ Hx]%lookup_delete_Some. by apply Hf. Qed.

(** The records of a table, read back. *)
Definition decoded_map (dec : Item → result A Error) (tb : Table) : gmap string A :=
  list_to_map (omap (λ it, match dec it with Ok a => Some (idf a, a) | Err _ => None end)
                 (map_to_list (tb_rows tb)).*2).

Lemma decoded_record_table dec m :
  filed m → (∀ i a, m !! i = Some a → dec (enc a) = Ok a) → decoded_map dec (record_table m) = m.
Proof.
  intros Hf Hdec.
  assert (Hl : omap (λ it, match dec it with Ok a => Some (idf a, a) | Err _ => None end)
      ((enc ∘ snd) <$> map_to_list m) = map_to_list m).
  { assert (Hall : ∀ ia, ia ∈ map_to_list m → dec (enc ia.2) = Ok ia.2 ∧ idf ia.2 = ia.1).
    { intros [i a] Hi%elem_of_map_to_list. split; [by eapply Hdec|by apply Hf]. }
    induction (map_to_list m) as [|[i a] l IH]; [done|]. destruct (Hall (i, a)) as [Hd Hi]; [left|].
    cbn in *. rewrite Hd, Hi, IH; [done|]. intros x Hx. apply Hall. by right. }
  unfold decoded_map.
  assert (Hp : omap (λ it, match dec it with Ok a => Some (idf a, a) | Err _ => None end)
      (map_to_list (tb_rows (record_table m))).*2 ≡ₚ map_to_list m)
    by (by rewrite record_values, Hl).
  rewrite (list_to_map_proper _ (map_to_list m)); [apply list_to_map_to_list| |done].
  rewrite Hp. apply NoDup_fst_map_to_list.
Qed.

Context {D : Type} {DB : Dynamo D} {DV : DynamoView D} {DL : DynamoLaws D} {DH : DynamoHealthy D}.

Lemma get_record (d : D) t m id :
  tables d !! t = Some (record_table m) → id ≠ "" →
  get_item d t {[tp_hash spec := AS id]} = Ok (enc <$> m !! id).
Proof.
  intros Ht Hne. rewrite (get_item_ok d t _ _ (hash_key id) Ht).
  - by rewrite record_rows_lookup.
  - by apply key_of_id.
Qed.

(** Scans that decode every record they keep. *)
Lemma scan_records {B} (d : D) t m c n what (dec : Item → result (list B) Error) (h : A → list B) :
  tables d !! t = Some (record_table m) → filed m → n ≠ Some 0 →
  (∀ i a, m !! i = Some a → passes c (enc a) = true → dec (enc a) = Ok (h a)) →
  ∃ out, scan_decoded d t c n what dec = Ok out ∧
    out ≡ₚ List.filter (λ a, passes c (enc a)) (map_to_list m).*2 ≫= h.
Proof.
  intros Ht Hf Hn Hdec.
  assert (Hp : List.filter (passes c) (scan_rows d t) ≡ₚ
    enc <$> List.filter (λ a, passes c (enc a)) (map_to_list m).*2).
  { assert (Hrows : scan_rows d t ≡ₚ enc <$> (map_to_list m).*2).
    { rewrite (scan_rows_law d t (record_table m)) by (by rewrite replica_tables).
      by rewrite record_values, list_fmap_compose. }
    rewrite Hrows. clear. induction (map_to_list m).*2 as [|a l IH]; cbn; [done|].
    destruct (passes c (enc a)); cbn; by rewrite IH. }
  destruct (decode_encoded dec enc h _ _ Hp) as (out & Hout & Hperm).
  { intros a [Ha Hpass]%filter_bool_elem. apply list_elem_of_fmap in Ha as ([i x] & -> & Hi).
    apply elem_of_map_to_list in Hi. by eapply Hdec. }
  exists out. split; [|done]. eapply scan_decoded_ok; [done|by apply record_table_wf|done|done].
Qed.
End records.

(** ** Tables of records under faults

    What is known of a table of records when calls may fail and reads may lag:
    the rows are still encodings of records with [good], and each write did what
    its answer says. *)
Section faulty_records.
Context {A : Type} (spec : TableSpec) (enc : A → Item) (idf : A → string).
Context (dec : Item → result A Error) (good : A → Prop).
Context {D : Type} {DB : Dynamo D} {DV : DynamoView D} {DL : DynamoLaws D}.
Implicit Types (d : D) (m : gmap string A).

(** The records in the table, as they are at this moment. *)
Definition record_view d (t : string) : gmap string A :=
  match tables d !! t with Some tb => decoded_map idf dec tb | None => ∅ end.

Record stored d (t : string) m : Prop := {
  sd_rows : tables d !! t = Some (record_table spec enc m);
  sd_filed : filed idf m;
  sd_good : map_Forall (λ _, good) m
}.

Context (Hdec : ∀ a, good a → dec (enc a) = Ok a).

Lemma stored_view d t m : stored d t m → record_view d t = m.
Proof.
  intros [Hrows Hf Hg]. unfold record_view. rewrite Hrows. apply decoded_record_table; [done|].
  intros i a Ha. by apply Hdec, (Hg i a).
Qed.

Lemma stored_same d d' t m : stored d t m → tables d' !! t = tables d !! t → stored d' t m.
Proof. intros [Hrows Hf Hg] Ht. split; [by rewrite Ht|done..]. Qed.

(** A write that goes through takes the records, and is answered, with [Q]. *)
Definition write_answers {B} m (w : Table → option (option (Table * B)))
    (Q : gmap string A → B → Prop) : Prop :=
  ∀ tb' b, w (record_table spec enc m) = Some (Some (tb', b)) →
  ∃ m', tb' = record_table spec enc m' ∧ filed idf m' ∧ map_Forall (λ _, good) m' ∧ Q m' b.

Abbreviation write_takes m w Q := (write_answers m w (λ m' _, Q m')).

Lemma answer_effect {B} d t m (w : Table → option (option (Table * B))) Q out :
  stored d t m → written d t w out → write_answers m w Q →
  (∃ m', stored out.1 t m') ∧
  match out.2 with
  | Ok b => Q (record_view out.1 t) b
  | Err ConditionalCheckFailed => record_view out.1 t = record_view d t
  | Err _ => record_view out.1 t = record_view d t ∨ ∃ b, Q (record_view out.1 t) b
  end.
Proof.
  intros Hs Hw Hupd.
  assert (Hap : ∀ b tb tb', tables d !! t = Some tb → w tb = Some (Some (tb', b)) →
    tables out.1 = <[t := tb']> (tables d) → (∃ m', stored out.1 t m') ∧ Q (record_view out.1 t) b).
  { intros b tb tb' Ht Hwt Hd. rewrite (sd_rows _ _ _ Hs) in Ht. injection Ht as <-.
    destruct (Hupd _ _ Hwt) as (m' & -> & Hf & Hg & HQ).
    assert (Hs' : stored out.1 t m') by (split; [by rewrite Hd, lookup_insert_eq|done..]).
    split; [by exists m'|]. by rewrite (stored_view _ _ _ Hs'). }
  assert (Hsame : tables out.1 = tables d →
    (∃ m', stored out.1 t m') ∧ record_view out.1 t = record_view d t).
  { intros Ht. assert (Hs' : stored out.1 t m) by (eapply stored_same; [done|by rewrite Ht]).
    split; [by exists m|]. by rewrite (stored_view _ _ _ Hs'), (stored_view _ _ _ Hs). }
  unfold written in Hw. destruct out as [d' [b|[]]]; cbn in *.
  - destruct Hw as (tb & tb' & ? & ? & ?). by eapply Hap.
  - destruct Hw as [_ Hd]. by apply Hsame.
  - destruct Hw as [Hd|(b & tb & tb' & ? & ? & ?)]; [destruct (Hsame Hd)|destruct (Hap b tb tb')]; eauto.
  - destruct Hw as [Hd|(b & tb & tb' & ? & ? & ?)]; [destruct (Hsame Hd)|destruct (Hap b tb tb')]; eauto.
Qed.

Lemma write_effect {B} d t m (w : Table → option (option (Table * B))) Q out :
  stored d t m → written d t w out → write_takes m w Q →
  (∃ m', stored out.1 t m') ∧
  match out.2 with
  | Ok _ => Q (record_view out.1 t)
  | Err ConditionalCheckFailed => record_view out.1 t = record_view d t
  | Err _ => record_view out.1 t = record_view d t ∨ Q (record_view out.1 t)
  end.
Proof.
  intros Hs Hw Hupd. destruct (answer_effect d t m w _ out Hs Hw Hupd) as [Hok He]. split; [done|].
  destruct out as [d' [b|[]]]; cbn in *; [done|done|..]; destruct He as [?|[_ ?]]; auto.
Qed.

Lemma write_safe {B E} d t m (w : Table → option (option (Table * B))) Q out (res : result E Error) :
  stored d t m → written d t w out → write_takes m w Q → (is_ok res = true → is_ok out.2 = true) →
  (∃ m', stored out.1 t m') ∧
  effect res (record_view out.1 t = record_view d t) (Q (record_view out.1 t)).
Proof.
  intros Hs Hw Hupd Hres. destruct (write_effect d t m w Q out Hs Hw Hupd) as [Hok He].
  split; [done|].
  destruct out as [d' [a|[]]]; cbn [fst snd] in *; destruct res; cbn in *; auto;
    discriminate (Hres eq_refl).
Qed.

Context (Hrange : tp_range spec = None) (Hid : ∀ a, get_s (enc a) (tp_hash spec) = Some (idf a)).

Lemma put_takes c m a : filed idf m → map_Forall (λ _, good) m → good a →
  write_takes m (put_row c (enc a)) (λ m', m' = <[idf a := a]> m ∧ check c (enc <$> m !! idf a) = true).
Proof.
  intros Hf Hg Ha tb' b Hp. apply put_record_inv with (idf := idf) in Hp as (Hne & Hc & ->); [|done..].
  exists (<[idf a := a]> m). split_and!; [done|by apply filed_insert|by apply map_Forall_insert_2|done..].
Qed.

Lemma delete_takes c m id : filed idf m → map_Forall (λ _, good) m →
  write_takes m (delete_row c {[tp_hash spec := AS id]})
    (λ m', m' = delete id m ∧ check c (enc <$> m !! id) = true).
Proof.
  intros Hf Hg tb' b Hd. apply delete_record_inv in Hd as (Hne & Hc & -> & _); [|done].
  exists (delete id m). split_and!; [done|by apply filed_delete|by apply map_Forall_delete|done..].
Qed.

Lemma update_answers c acts m id (f : A → A) :
  filed idf m → map_Forall (λ _, good) m → cond_holds c ∅ = false →
  (∀ a new, good a → apply_actions acts (enc a) = Some new → new = enc (f a) ∧ good (f a)) →
  (∀ a, idf (f a) = idf a) →
  write_answers m (update_row (Some c) {[tp_hash spec := AS id]} acts)
    (λ m' attrs, ∃ a, m !! id = Some a ∧ cond_holds c (enc a) = true ∧ m' = <[id := f a]> m ∧
       attrs = filter (λ kv, kv.1 ∈ (action_attr <$> acts)) (enc (f a))).
Proof.
  intros Hf Hg Hc Hacts Hidf tb' b Hu.
  apply update_record_inv in Hu as (a & new & Ha & Hca & Hap & Hb & ->); [|done..].
  destruct (Hacts _ _ (Hg _ _ Ha) Hap) as [-> Hgood]. destruct (Hf _ _ Ha) as [Hi Hne].
  exists (<[id := f a]> m). split_and!.
  - apply set_row_record.
  - rewrite <- Hi, <- Hidf. apply filed_insert; [done|]. by rewrite Hidf, Hi.
  - by apply map_Forall_insert_2.
  - by exists a.
Qed.

Lemma update_takes c acts m id (f : A → A) :
  filed idf m → map_Forall (λ _, good) m → cond_holds c ∅ = false →
  (∀ a, apply_actions acts (enc a) = Some (enc (f a))) →
  (∀ a, idf (f a) = idf a) → (∀ a, good a → good (f a)) →
  write_takes m (update_row (Some c) {[tp_hash spec := AS id]} acts)
    (λ m', ∃ a, m !! id = Some a ∧ cond_holds c (enc a) = true ∧ m' = <[id := f a]> m).
Proof.
  intros Hf Hg Hc Hacts Hidf Hgood tb' b Hu.
  destruct (update_answers c acts m id f Hf Hg Hc) with (tb' := tb') (b := b)
    as (m' & ? & ? & ? & a & ? & ? & ? & _); [|done|done|exists m'; eauto 8].
  intros a new Ha Hap. rewrite Hacts in Hap. injection Hap as <-. auto.
Qed.
End faulty_records.

(** ** Tables at boot *)
Section boot.
Context {D : Type} {DB : Dynamo D} {DV : DynamoView D} {DL : DynamoLaws D}.
Implicit Types (d : D).

Definition ensure_step (ts : string * TableSpec) (d : D) : D * result unit string := ensure_table d ts.1 ts.2.

(** A table that is there is kept, one that is not may be created empty; after a
    success it is there. *)
Lemma ensure_table_effect d t spec :
  let '(d', r) := ensure_table d t spec in
  (∀ t', t' ≠ t → tables d' !! t' = tables d !! t') ∧
  (tables d' !! t = tables d !! t ∨ (tables d !! t = None ∧ tables d' !! t = Some (mkTable spec ∅))) ∧
  (r = Ok () → tables d' !! t = Some (default (mkTable spec ∅) (tables d !! t))).
Proof.
  unfold ensure_table. pose proof (create_table_law d t spec) as Hl. cbn zeta in Hl.
  destruct (create_table d t spec) as [d' [u|[| |m]]]; cbn in *.
  - destruct Hl as [Hn ->]. rewrite lookup_insert_eq, Hn. split_and!; [|by right|done].
    intros t' Hne. by rewrite lookup_insert_ne.
  - destruct Hl as [->|[Hn ->]]; [by split_and!; [|left|]|].
    rewrite lookup_insert_eq. split_and!; [|by right|done]. intros t' Hne. by rewrite lookup_insert_ne.
  - destruct Hl as [[tb Ht] ->]. split_and!; [done|by left|]. intros _. by rewrite Ht.
  - destruct Hl as [->|[Hn ->]]; [by split_and!; [|left|]|].
    rewrite lookup_insert_eq. split_and!; [|by right|done]. intros t' Hne. by rewrite lookup_insert_ne.
Qed.

Lemma ensure_all_effect d (ts : list (string * TableSpec)) :
  NoDup ts.*1 →
  let '(d', r) := ensure_all d (ensure_step <$> ts) in
  (∀ t tb, tables d !! t = Some tb → tables d' !! t = Some tb) ∧
  (∀ t, t ∉ ts.*1 → tables d' !! t = tables d !! t) ∧
  (r = Ok () → ∀ t spec, (t, spec) ∈ ts → tables d' !! t = Some (default (mkTable spec ∅) (tables d !! t))).
Proof.
  revert d. induction ts as [|[t spec] ts IH]; intros d Hnd; cbn [fmap list_fmap ensure_all].
  { split_and!; [done|done|]. intros _ t spec []%elem_of_nil. }
  cbn in Hnd. apply NoDup_cons in Hnd as [Hn Hnd]. unfold ensure_step at 1. cbn [fst snd].
  pose proof (ensure_table_effect d t spec) as He. destruct (ensure_table d t spec) as [d1 [u|m]].
  - destruct He as (Hother & _ & Ht). specialize (Ht ltac:(by destruct u)). specialize (IH d1 Hnd).
    destruct (ensure_all d1 _) as [d2 r]. destruct IH as (Hkeep & Hout & Hin). split_and!.
    + intros t' tb Ht'. apply Hkeep. destruct (decide (t' = t)) as [->|Hne]; [by rewrite Ht, Ht'|by rewrite Hother].
    + intros t' Hne. cbn in Hne. apply not_elem_of_cons in Hne as [Hne1 Hne2]. by rewrite Hout, Hother.
    + intros Hr t' spec' [[= -> ->]|Hin']%elem_of_cons; [by rewrite Hout|].
      rewrite (Hin Hr t' spec' Hin'). rewrite Hother; [done|]. intros ->. apply Hn.
      by apply (list_elem_of_fmap_2 fst) in Hin'.
  - destruct He as (Hother & Ht & _). split_and!; [| |done].
    + intros t' tb Ht'. destruct (decide (t' = t)) as [->|Hne]; [|by rewrite Hother].
      destruct Ht as [->|[Hnone _]]; [done|congruence].
    + intros t' Hne. cbn in Hne. apply not_elem_of_cons in Hne as [Hne _]. by apply Hother.
Qed.
End boot.
