(* ===== verification/DynamoCodec.v ===== *)
(** * Fields of DynamoDB items

    The reading and writing of single attributes the stores of
    [providers/dynamo/src] repeat: strings, numbers, instants, string maps and
    byte arrays. *)

From S2P Require Import Prelude CoreTypes Matcher Dynamo.
From Stdlib Require Import Strings.Byte Strings.Ascii.

(** [DateTime<Utc>] as text: chrono's [to_rfc3339] and [FromStr], which reads
    back what the former prints. *)
Class Rfc3339 := {
  to_rfc3339 : Z → string;
  parse_datetime : string → result Z string
}.

Class Rfc3339Laws (R : Rfc3339) : Prop := {
  rfc3339_roundtrip : ∀ t, parse_datetime (to_rfc3339 t) = Ok t
}.

(** The [Display] of [ParseIntError]. *)
Definition parse_int_error (s : string) : string :=
  if is_empty s then "cannot parse integer from empty string"
  else if forallb (λ c, match digit_of c with Some _ => true | None => false end) (String.list_ascii_of_string s)
  then "number too large to fit in target type"
  else "invalid digit found in string".

Definition need_s (item : Item) (k : string) : result string Error :=
  ok_or (Storage ("missing " +:+ k)) (get_s item k).

Definition need_u64 (item : Item) (k : string) : result Z Error :=
  let? s := ok_or (Storage ("missing " +:+ k)) (get_n item k) in
  ok_or (Storage ("bad " +:+ k +:+ ": " +:+ parse_int_error s)) (parse_u64 s).

Definition need_time `{Rfc3339} (item : Item) (k : string) : result Z Error :=
  let? s := need_s item k in
  map_err (λ e, Storage ("bad " +:+ k +:+ ": " +:+ e)) (parse_datetime s).

(** String maps, [HashMap<String, String>]. *)
Definition write_map (m : attrs_map) : AttributeValue := AM (AS <$> m).

Fixpoint collect_strings (bad : string → string) (l : list (string * AttributeValue))
  : result (list (string * string)) Error :=
  match l with
  | [] => Ok []
  | (k, v) :: l =>
      let? s := ok_or (Storage (bad k)) (as_s v) in
      let? r := collect_strings bad l in
      Ok ((k, s) :: r)
  end.

Definition read_map {I : MapIter} (bad : string → string) (item : Item) (k : string)
  : result attrs_map Error :=
  match item !! k with
  | Some (AM m) => rmap list_to_map (collect_strings bad (miter m))
  | _ => Ok ∅
  end.

(** Byte arrays, written only when they are not empty. *)
Definition put_bytes (k : string) (b : list byte) (item : Item) : Item :=
  match b with [] => item | _ => <[k := AB b]> item end.

Definition read_bytes (item : Item) (k : string) : list byte :=
  match item !! k with Some (AB b) => b | _ => [] end.

(** ** Round trips of the fields *)

Lemma need_s_ok item k s : item !! k = Some (AS s) → need_s item k = Ok s.
Proof. intros Hk. unfold need_s, get_s. by rewrite Hk. Qed.

Lemma need_u64_ok item k z : item !! k = Some (AN (pretty z)) → is_u64 z → need_u64 item k = Ok z.
Proof. intros Hk Hz. unfold need_u64, get_n. rewrite Hk. cbn. by rewrite parse_u64_pretty. Qed.

Lemma need_time_ok `{R : Rfc3339} {RL : Rfc3339Laws R} item k t :
  item !! k = Some (AS (to_rfc3339 t)) → need_time item k = Ok t.
Proof.
  intros Hk. unfold need_time. rewrite (need_s_ok _ _ _ Hk). cbn. by rewrite rfc3339_roundtrip.
Qed.

Lemma to_rfc3339_inj `{R : Rfc3339} {RL : Rfc3339Laws R} t1 t2 :
  to_rfc3339 t1 = to_rfc3339 t2 → t1 = t2.
Proof.
  intros Heq. pose proof (rfc3339_roundtrip t1) as H1. rewrite Heq, rfc3339_roundtrip in H1.
  by injection H1.
Qed.

Lemma collect_strings_ok bad (l : list (string * string)) :
  collect_strings bad (prod_map id AS <$> l) = Ok l.
Proof. induction l as [|[k s] l IH]; cbn; [done|]. by rewrite IH. Qed.

Lemma read_map_ok {I : MapIter} bad item k m :
  item !! k = Some (write_map m) → read_map bad item k = Ok m.
Proof.
  intros Hk. unfold read_map. rewrite Hk. cbn.
  assert (Hp : miter (AS <$> m) ≡ₚ prod_map id AS <$> map_to_list m)
    by (by rewrite miter_perm, map_to_list_fmap).
  apply Permutation_map_inv in Hp as (l & Hl & Hp). rewrite Hl.
  rewrite collect_strings_ok. cbn. f_equal.
  rewrite (list_to_map_proper l (map_to_list m)); [apply list_to_map_to_list| |done].
  rewrite <- Hp. apply NoDup_fst_map_to_list.
Qed.

Lemma read_bytes_put k b item : item !! k = None → read_bytes (put_bytes k b item) k = b.
Proof.
  intros Hk. unfold read_bytes, put_bytes. destruct b; [by rewrite Hk|]. by rewrite lookup_insert_eq.
Qed.

Lemma put_bytes_ne k k' b item : k ≠ k' → put_bytes k b item !! k' = item !! k'.
Proof. intros Hne. destruct b; cbn; [done|]. by rewrite lookup_insert_ne. Qed.

(** A concrete rendering of instants, for examples: a sign and binary digits. *)
Fixpoint bits (p : positive) : string :=
  match p with
  | xH => ""
  | xO p => String "0"%char (bits p)
  | xI p => String "1"%char (bits p)
  end.

Fixpoint unbits (s : string) : positive :=
  match s with
  | EmptyString => xH
  | String c s => if Ascii.eqb c "1"%char then xI (unbits s) else xO (unbits s)
  end.

Definition rfc_sample : Rfc3339 := {|
  to_rfc3339 := λ t,
    match t with Z0 => "0" | Zpos p => String "+"%char (bits p) | Zneg p => String "-"%char (bits p) end;
  parse_datetime := λ s,
    match s with
    | String c s' => if Ascii.eqb c "+"%char then Ok (Zpos (unbits s'))
                     else if Ascii.eqb c "-"%char then Ok (Zneg (unbits s')) else Ok 0%Z
    | EmptyString => Err "premature end of input"
    end
|}.

Lemma unbits_bits p : unbits (bits p) = p.
Proof. induction p as [p IH|p IH|]; cbn; by rewrite ?IH. Qed.

Lemma rfc_sample_laws : Rfc3339Laws rfc_sample.
Proof. split. intros [|p|p]; cbn; by rewrite ?unbits_bits. Qed.
