(* ===== verification/DynamoSample.v ===== *)
(** * A database that satisfies the laws

    An in-memory DynamoDB with pages of a fixed size: it shows that what
    [DynamoLaws] and [DynamoHealthy] ask for can be had, and runs the examples of
    the provider's stores. *)

From S2P Require Import Prelude CoreTypes Dynamo.

Record ToyDb := { toy_tables : Tables; toy_page : nat }.

Definition set_table (d : ToyDb) (t : string) (tb : Table) : ToyDb :=
  {| toy_tables := <[t := tb]> (toy_tables d); toy_page := toy_page d |}.

(** A call on a table. *)
Definition on_table {A} (d : ToyDb) (t : string) (f : Table → option A) : result A SdkError :=
  match toy_tables d !! t ≫= f with Some a => Ok a | None => Err (SdkFault "invalid request") end.

Definition toy_write {A} (d : ToyDb) (t : string) (w : Table → option (option (Table * A)))
  : ToyDb * result A SdkError :=
  match toy_tables d !! t ≫= w with
  | None => (d, Err (SdkFault "invalid request"))
  | Some None => (d, Err ConditionalCheckFailed)
  | Some (Some (tb, a)) => (set_table d t tb, Ok a)
  end.

(** A page of at most [n] of the rows [from] the start key on. *)
Definition toy_page_of (f : Item → bool) (n : nat) (from : list Item) : Page :=
  let seg := take n from in
  mkPage (List.filter f seg) (if (length from <=? n)%nat then None else last seg).

Definition query_from (spec : TableSpec) (start : option Item) (rows : list Item) : list Item :=
  if numeric_range spec then rows_beyond spec start rows else rows_from spec start rows.

Definition page_size (d : ToyDb) (limit : option nat) : nat :=
  match limit with None => S (toy_page d) | Some n => Nat.min n (S (toy_page d)) end.

Definition toy_rows (d : ToyDb) (t : string) : list Item :=
  match toy_tables d !! t with Some tb => (map_to_list (tb_rows tb)).*2 | None => [] end.

Definition range_le (spec : TableSpec) (a b : Item) : Prop :=
  (range_number spec a ≤ range_number spec b)%Z.
#[global] Instance range_le_dec spec a b : Decision (range_le spec a b).
Proof. unfold range_le. apply _. Defined.
#[global] Instance range_le_total spec : Total (range_le spec).
Proof. intros a b. unfold range_le. lia. Qed.
#[global] Instance range_le_trans spec : Transitive (range_le spec).
Proof. intros a b c. unfold range_le. lia. Qed.

Definition toy_query_rows (d : ToyDb) (t h : string) : list Item :=
  match toy_tables d !! t with
  | Some tb => merge_sort (range_le (tb_spec tb))
      (List.filter (λ it, bool_decide (get_s it (tp_hash (tb_spec tb)) = Some h))
         (map_to_list (tb_rows tb)).*2)
  | None => []
  end.

Definition toy_index (tb : Table) (ix v : string) (n : nat) : option (list Item) :=
  ia ← List.find (λ ia, String.eqb ia.1 ix) (tp_gsis (tb_spec tb));
  Some (take n (List.filter (λ it, bool_decide (get_s it ia.2 = Some v))
                  (map_to_list (tb_rows tb)).*2)).

#[global] Instance ToyDb_dynamo : Dynamo ToyDb := {|
  put_item := λ d t c item, toy_write d t (put_row c item);
  update_item := λ d t c key acts, toy_write d t (update_row c key acts);
  delete_item := λ d t c key, toy_write d t (delete_row c key);
  batch_delete_item := λ d t keys,
    match toy_tables d !! t with
    | Some tb => (set_table d t (foldl del_row tb (omap (key_of (tb_spec tb)) keys)), Ok [])
    | None => (d, Err (SdkFault "no such table"))
    end;
  get_item := λ d t key, on_table d t (λ tb, k ← key_of (tb_spec tb) key; Some (tb_rows tb !! k));
  query_index := λ d t ix v n, on_table d t (λ tb, toy_index tb ix v n);
  query := λ d t h after n start, on_table d t (λ tb,
    _ ← guard (n ≠ Some 0); Some (toy_page_of (λ _, true) (page_size d n) (query_from (tb_spec tb) start
      (List.filter (range_after (tb_spec tb) after) (toy_query_rows d t h)))));
  scan := λ d t c n start, on_table d t (λ tb,
    _ ← guard (n ≠ Some 0); Some (toy_page_of (passes c) (page_size d n) (rows_from (tb_spec tb) start (toy_rows d t))));
  create_table := λ d t spec,
    match toy_tables d !! t with
    | Some _ => (d, Err ResourceInUse)
    | None => (set_table d t (mkTable spec ∅), Ok ())
    end;
  update_time_to_live := λ d t a, (d, Ok ());
  sdk_to_string := λ e, match e with SdkFault m => m | _ => "service error" end
|}.

#[global] Instance ToyDb_view : DynamoView ToyDb := {|
  tables := toy_tables;
  replica := toy_tables;
  indexed := toy_tables;
  scan_rows := toy_rows;
  query_rows := toy_query_rows
|}.

Lemma toy_written {A} d t (w : Table → option (option (Table * A))) :
  written d t w (toy_write d t w).
Proof.
  unfold written, toy_write. destruct (toy_tables d !! t) as [tb|] eqn:Ht; cbn; [|by left].
  destruct (w tb) as [[[tb' a]|]|] eqn:Hw; cbn; [by exists tb, tb'| |by left].
  split; [|done]. by exists tb.
Qed.

Lemma toy_served {A} d t tb (w : Table → option (option (Table * A))) :
  toy_tables d !! t = Some tb → is_Some (w tb) → served (toy_write d t w).2.
Proof.
  intros Ht [r Hr]. unfold toy_write. rewrite Ht. cbn. rewrite Hr. by destruct r as [[]|].
Qed.

Lemma on_table_ok {A} d t f (a : A) :
  on_table d t f = Ok a → ∃ tb, toy_tables d !! t = Some tb ∧ f tb = Some a.
Proof.
  unfold on_table. destruct (toy_tables d !! t) as [tb|]; cbn; [|done].
  destruct (f tb) eqn:E; [|done]. intros [= <-]. by exists tb.
Qed.

Lemma toy_page_is_page d spec f limit from :
  limit ≠ Some 0 → page_of spec f limit from (toy_page_of f (page_size d limit) from).
Proof.
  intros Hlim. assert (Hpos : 0 < page_size d limit).
  { destruct limit as [[|n]|]; cbn; [done|lia|lia]. }
  unfold page_of, toy_page_of. cbn.
  exists (take (page_size d limit) from), (drop (page_size d limit) from).
  split; [by rewrite take_drop|]. split; [done|]. split.
  { intros n ->. rewrite length_take. cbn. lia. }
  destruct (Nat.leb_spec (length from) (page_size d limit)); [by rewrite drop_ge|].
  destruct (last _) as [s|] eqn:El.
  - apply last_Some in El as [seg0 Hl]. by exists seg0, s.
  - apply last_None in El. apply (f_equal length) in El. rewrite length_take in El. cbn in El. lia.
Qed.

Lemma rows_after_elem spec k rows it : it ∈ rows_after spec k rows → it ∈ rows.
Proof.
  induction rows as [|x rows IH]; cbn; [done|]. case_bool_decide; intros Hin; right; auto.
Qed.

Lemma query_from_elem spec start rows it : it ∈ query_from spec start rows → it ∈ rows.
Proof.
  unfold query_from, rows_beyond, rows_from. destruct (numeric_range spec), start as [s|]; try done.
  - by intros [? _]%filter_bool_elem.
  - destruct (key_of spec s); [apply rows_after_elem|by intros ?%elem_of_nil].
Qed.

Lemma toy_page_elem f n from it :
  it ∈ pg_items (toy_page_of f n from) → it ∈ from ∧ f it = true.
Proof.
  cbn. intros [Hin Hf]%filter_bool_elem. split; [|done]. rewrite <- (take_drop n from).
  apply elem_of_app. by left.
Qed.

#[global] Instance ToyDb_laws : DynamoLaws ToyDb.
Proof.
  split.
  - intros. apply toy_written.
  - intros. apply toy_written.
  - intros. apply toy_written.
  - intros d t keys. cbn. destruct (toy_tables d !! t) as [tb|] eqn:Ht; cbn.
    + exists keys. split; [done|]. split; [right; eauto|]. intros un [= <-].
      rewrite app_nil_r. eauto.
    + exists []. split; [by intros k ?%elem_of_nil|]. split; [by left|done].
  - intros d t key o (tb & Ht & Hk)%on_table_ok.
    destruct (key_of (tb_spec tb) key) as [k|] eqn:E; [|done]. cbn in Hk. injection Hk as <-.
    by exists tb, k.
  - intros d t ix v n l (tb & Ht & Hl)%on_table_ok. unfold toy_index in Hl.
    destruct (List.find _ _) as [[ix' a]|] eqn:Ef; [|done]. cbn in Hl. injection Hl as <-.
    apply List.find_some in Ef as [Hin Hix]. cbn in Hix. apply String.eqb_eq in Hix as ->.
    exists tb, a. split; [done|]. split; [by apply list_elem_of_In|].
    split; [rewrite length_take; lia|]. split.
    + intros it Hit. apply elem_of_take in Hit as (i & Hi & _).
      apply list_elem_of_lookup_2, filter_bool_elem in Hi as [Hi Hv].
      apply bool_decide_eq_true in Hv. split; [|done].
      apply list_elem_of_fmap in Hi as ([k x] & -> & Hi). exists k. by apply elem_of_map_to_list.
    + intros Hnil Hn k it Hk Hv. destruct n as [|n]; [lia|].
      assert (Hin' : it ∈ List.filter (λ it, bool_decide (get_s it a = Some v)) (map_to_list (tb_rows tb)).*2).
      { apply filter_bool_elem. split; [|by apply bool_decide_eq_true].
        apply list_elem_of_fmap. exists (k, it). by rewrite elem_of_map_to_list. }
      destruct (List.filter _ _); [by apply elem_of_nil in Hin'|done].
  - intros d t tb Ht. cbn in *. unfold toy_rows. by rewrite Ht.
  - intros d t c n start p (tb & Ht & Hp)%on_table_ok. exists tb. split; [done|].
    case_guard; [|done]. cbn in Hp. injection Hp as <-. split.
    + intros it [Hin Hf]%toy_page_elem. split; [|done]. destruct start as [s|]; cbn in Hin; [|done].
      destruct (key_of _ s); [by eapply rows_after_elem|by apply elem_of_nil in Hin].
    + intros _. by apply toy_page_is_page.
  - intros d t h tb Ht. cbn in *. unfold toy_query_rows. rewrite Ht. split; [apply merge_sort_Permutation|].
    intros a Ha. set (rows := List.filter _ _).
    pose proof (StronglySorted_merge_sort (range_le (tb_spec tb)) rows) as Hs.
    induction Hs as [|x l _ IH Hf]; cbn; [constructor|]. constructor; [done|].
    rewrite Forall_fmap. exact Hf.
  - intros d t h after n start p (tb & Ht & Hp)%on_table_ok. exists tb. split; [done|].
    case_guard; [|done]. cbn in Hp. injection Hp as <-. split.
    + intros it [Hin _]%toy_page_elem. by eapply query_from_elem.
    + unfold query_from. destruct (numeric_range _); [|intros _]; by apply toy_page_is_page.
  - intros d t spec. cbn. by destruct (toy_tables d !! t) eqn:Ht.
  - done.
Qed.

#[global] Instance ToyDb_healthy : DynamoHealthy ToyDb.
Proof.
  split.
  - done.
  - intros. by eapply toy_served.
  - intros. by eapply toy_served.
  - intros. by eapply toy_served.
  - intros d t tb keys Ht _ _ _. cbn in *. by rewrite Ht.
  - intros d t tb key Ht [k Hk]. cbn in *. unfold on_table. rewrite Ht. cbn. by rewrite Hk.
  - intros d t tb ix a v n Ht Hin _. cbn in *. unfold on_table. rewrite Ht. cbn. unfold toy_index.
    destruct (List.find _ _) eqn:Ef; [done|].
    apply list_elem_of_In in Hin. pose proof (List.find_none _ _ Ef (ix, a) Hin) as Hne.
    cbn in Hne. by rewrite String.eqb_refl in Hne.
  - intros d t tb c n start Ht Hn _. cbn in *. unfold on_table. rewrite Ht. cbn.
    by rewrite option_guard_True.
  - intros d t tb h after n start Ht Hn _ _. cbn in *. unfold on_table. rewrite Ht. cbn.
    by rewrite option_guard_True.
Qed.

(** ** A database that fails and lags

    The same database with writes that fault, by table and item, and reads that
    are answered from an older snapshot. *)
Record FlakyDb := { fl_now : ToyDb; fl_read : ToyDb; fl_faults : string → Item → bool }.

Definition flaky_write {A} (d : FlakyDb) (t : string) (item : Item) (out : ToyDb * result A SdkError)
  : FlakyDb * result A SdkError :=
  if fl_faults d t item then (d, Err (SdkFault "throttled"))
  else ({| fl_now := out.1; fl_read := fl_read d; fl_faults := fl_faults d |}, out.2).

#[global] Instance FlakyDb_dynamo : Dynamo FlakyDb := {|
  put_item := λ d t c item, flaky_write d t item (put_item (fl_now d) t c item);
  update_item := λ d t c key acts, flaky_write d t key (update_item (fl_now d) t c key acts);
  delete_item := λ d t c key, flaky_write d t key (delete_item (fl_now d) t c key);
  batch_delete_item := λ d t keys, flaky_write d t ∅ (batch_delete_item (fl_now d) t keys);
  get_item := λ d t key, get_item (fl_read d) t key;
  query_index := λ d t ix v n, query_index (fl_read d) t ix v n;
  query := λ d t h after n start, query (fl_read d) t h after n start;
  scan := λ d t c n start, scan (fl_read d) t c n start;
  create_table := λ d t spec, flaky_write d t ∅ (create_table (fl_now d) t spec);
  update_time_to_live := λ d t a, (d, Ok ());
  sdk_to_string := sdk_to_string (D := ToyDb)
|}.

#[global] Instance FlakyDb_view : DynamoView FlakyDb := {|
  tables := λ d, toy_tables (fl_now d);
  replica := λ d, toy_tables (fl_read d);
  indexed := λ d, toy_tables (fl_read d);
  scan_rows := λ d t, toy_rows (fl_read d) t;
  query_rows := λ d t h, toy_query_rows (fl_read d) t h
|}.

Lemma flaky_written {A} (d : FlakyDb) t item (w : Table → option (option (Table * A))) out :
  written (fl_now d) t w out → written d t w (flaky_write d t item out).
Proof. intros Hw. unfold flaky_write. destruct (fl_faults d t item); [by left|exact Hw]. Qed.

#[global] Instance FlakyDb_laws : DynamoLaws FlakyDb.
Proof.
  split.
  - intros. apply flaky_written, (put_item_law (D := ToyDb)).
  - intros. apply flaky_written, (update_item_law (D := ToyDb)).
  - intros. apply flaky_written, (delete_item_law (D := ToyDb)).
  - intros d t keys. cbn zeta. unfold batch_delete_item, FlakyDb_dynamo, flaky_write.
    destruct (fl_faults d t ∅).
    + exists []. split; [by intros k ?%elem_of_nil|]. split; [by left|done].
    + exact (batch_delete_law (D := ToyDb) (fl_now d) t keys).
  - intros d. exact (get_item_law (D := ToyDb) (fl_read d)).
  - intros d. exact (query_index_law (D := ToyDb) (fl_read d)).
  - intros d. exact (scan_rows_law (D := ToyDb) (fl_read d)).
  - intros d. exact (scan_law (D := ToyDb) (fl_read d)).
  - intros d. exact (query_rows_law (D := ToyDb) (fl_read d)).
  - intros d. exact (query_law (D := ToyDb) (fl_read d)).
  - intros d t spec. cbn zeta. unfold create_table, FlakyDb_dynamo, flaky_write.
    destruct (fl_faults d t ∅); [by left|]. exact (create_table_law (D := ToyDb) (fl_now d) t spec).
  - done.
Qed.
