(* ===== verification/DynamoRegistry.v ===== *)
(** * The DynamoDB registry store ([providers/dynamo/src/registry_store.rs])

    One row per entry, keyed by capability id, with an index on the lease id.
    On a healthy database the store answers every call as the in-memory store
    does. *)

From S2P Require Import Prelude CoreTypes Matcher RegistryStore Dynamo DynamoCodec DynamoSample.

(** ** Rows *)
Definition put_transport (t : option TransportConfig) (item : Item) : Item :=
  match t with
  | Some t =>
      <["transport_config" := write_map (tc_config t)]>
        (<["transport_type" := AS (tc_type t)]> item)
  | None => item
  end.

Definition entry_to_item (entry : RegistryEntry) : Item :=
  put_transport (re_transport entry)
    (<["attrs" := write_map (re_attrs entry)]>
      (<["interface" := AS (re_interface entry)]>
        (<["lease_id" := AS (re_lease_id entry)]>
          (<["capability_id" := AS (re_capability_id entry)]> ∅)))).

Section store.
Context {I : MapIter}.

Definition entry_from_item (item : Item) : result RegistryEntry Error :=
  let? capability_id := need_s item "capability_id" in
  let? lease_id := need_s item "lease_id" in
  let? interface := need_s item "interface" in
  let? attrs := read_map (λ k, "attrs value for key '" +:+ k +:+ "' is not a string") item "attrs" in
  let? transport :=
    match item !! "transport_type", item !! "transport_config" with
    | Some (AS ty), Some (AM _) =>
        let? config := read_map (λ k, "transport_config value for key '" +:+ k +:+ "' is not a string")
                         item "transport_config" in
        Ok (Some {| tc_type := ty; tc_config := config |})
    | _, _ => Ok None
    end in
  Ok (mkEntry capability_id lease_id interface attrs transport).

Record DynamoRegistryStore (D : Type) := { dr_client : D; dr_table_name : string }.
Arguments dr_client {D} _.
Arguments dr_table_name {D} _.

Context {D : Type} {DB : Dynamo D} {DV : DynamoView D}.
Implicit Types (s : DynamoRegistryStore D).

Definition with_table (client : D) (table_name : string) : DynamoRegistryStore D :=
  {| dr_client := client; dr_table_name := table_name |}.

Definition new (client : D) : DynamoRegistryStore D := with_table client REGISTRY_TABLE.

Definition set_client s (d : D) : DynamoRegistryStore D := with_table d (dr_table_name s).

Definition init (env : string → option string) s : DynamoRegistryStore D * result unit Error :=
  let '(d, r) := init_tables env (dr_client s) [λ d, ensure_registry_table d (dr_table_name s)] in
  (set_client s d, r).

Definition insert s (entry : RegistryEntry) : DynamoRegistryStore D * result unit Error :=
  let '(d, r) := put_item (dr_client s) (dr_table_name s) None (entry_to_item entry) in
  (set_client s d, map_err (sdk_storage "put_item") r).

Definition update s (entry : RegistryEntry)
  : DynamoRegistryStore D * result (option RegistryEntry) Error :=
  let '(d, r) := put_item (dr_client s) (dr_table_name s) (Some (CExists "capability_id"))
                   (entry_to_item entry) in
  (set_client s d,
   match r with
   | Ok _ => Ok (Some entry)
   | Err ConditionalCheckFailed => Ok None
   | Err e => Err (sdk_storage "put_item (update)" e)
   end).

(** The row of a lease, through the index. *)
Definition query_lease s (lease_id : string) : result (option Item) Error :=
  map_err (sdk_storage "query (lease GSI)")
    (rmap head (query_index (dr_client s) (dr_table_name s) REGISTRY_LEASE_GSI lease_id 1)).

Definition remove_by_lease s (lease_id : string)
  : DynamoRegistryStore D * result (option RegistryEntry) Error :=
  match query_lease s lease_id with
  | Err e => (s, Err e)
  | Ok None => (s, Ok None)
  | Ok (Some item) =>
      match ok_or (Storage "GSI item missing capability_id") (get_s item "capability_id") with
      | Err e => (s, Err e)
      | Ok capability_id =>
          match entry_from_item item with
          | Err e => (s, Err e)
          | Ok entry =>
              let '(d, r) := delete_item (dr_client s) (dr_table_name s) None
                               {["capability_id" := AS capability_id]} in
              (set_client s d,
               rmap (λ _, Some entry) (map_err (sdk_storage "delete_item") r))
          end
      end
  end.

(** An optional row, decoded. *)
Definition decode_row (o : option Item) : result (option RegistryEntry) Error :=
  match o with None => Ok None | Some item => rmap Some (entry_from_item item) end.

Definition get s (capability_id : string) : result (option RegistryEntry) Error :=
  let? o := map_err (sdk_storage "get_item")
              (get_item (dr_client s) (dr_table_name s) {["capability_id" := AS capability_id]}) in
  decode_row o.

Definition get_by_lease s (lease_id : string) : result (option RegistryEntry) Error :=
  let? o := query_lease s lease_id in decode_row o.

Definition list_all s : result (list RegistryEntry) Error :=
  scan_decoded (dr_client s) (dr_table_name s) None None "scan" (one entry_from_item).

#[global] Instance DynamoRegistryStore_store : RegistryStore (DynamoRegistryStore D) := {|
  rg_insert := insert;
  rg_update := update;
  rg_remove_by_lease := remove_by_lease;
  rg_get := get;
  rg_get_by_lease := get_by_lease;
  rg_list_all := list_all
|}.
End store.
Arguments dr_client {D} _.
Arguments dr_table_name {D} _.

(** ** Store calls *)
Inductive RegistryOp :=
| RInsert (e : RegistryEntry)
| RUpdate (e : RegistryEntry)
| RRemoveByLease (lease_id : string)
| RGet (capability_id : string)
| RGetByLease (lease_id : string)
| RListAll.

Inductive RegistryRes :=
| RUnitRes (r : result unit Error)
| REntry (r : result (option RegistryEntry) Error)
| REntries (r : result (list RegistryEntry) Error).

Definition rg_apply {S} `{RegistryStore S} (s : S) (op : RegistryOp) : S * RegistryRes :=
  match op with
  | RInsert e => let '(s', r) := rg_insert s e in (s', RUnitRes r)
  | RUpdate e => let '(s', r) := rg_update s e in (s', REntry r)
  | RRemoveByLease l => let '(s', r) := rg_remove_by_lease s l in (s', REntry r)
  | RGet c => (s, REntry (rg_get s c))
  | RGetByLease l => (s, REntry (rg_get_by_lease s l))
  | RListAll => (s, REntries (rg_list_all s))
  end.

(** Equal answers, up to the order of a listing. *)
Definition same_answer (a b : RegistryRes) : Prop :=
  match a, b with
  | REntries (Ok l1), REntries (Ok l2) => l1 ≡ₚ l2
  | _, _ => a = b
  end.

(** What callers pass: ids that are not empty, new ones for a new entry, and an
    update that takes no other entry's lease. *)
Definition registry_op_valid (m : entry_map) (op : RegistryOp) : Prop :=
  match op with
  | RInsert e => re_capability_id e ≠ "" ∧ re_lease_id e ≠ "" ∧
      m !! re_capability_id e = None ∧ lease_unused m (re_lease_id e)
  | RUpdate e => re_capability_id e ≠ "" ∧ re_lease_id e ≠ "" ∧
      lease_unused (delete (re_capability_id e) m) (re_lease_id e)
  | RRemoveByLease l | RGetByLease l => l ≠ ""
  | RGet c => c ≠ ""
  | RListAll => True
  end.

(** ** Round trip of rows *)
Lemma entry_to_item_lookup e :
  let item := entry_to_item e in
  item !! "capability_id" = Some (AS (re_capability_id e)) ∧
  item !! "lease_id" = Some (AS (re_lease_id e)) ∧
  item !! "interface" = Some (AS (re_interface e)) ∧
  item !! "attrs" = Some (write_map (re_attrs e)) ∧
  item !! "transport_type" = (AS ∘ tc_type) <$> re_transport e ∧
  item !! "transport_config" = (write_map ∘ tc_config) <$> re_transport e.
Proof.
  intros item. unfold item, entry_to_item, put_transport.
  destruct (re_transport e); split_and!; by simplify_map_eq.
Qed.

(** Every registry entry survives being written to a row and read back. *)
Lemma entry_roundtrip {I : MapIter} e : entry_from_item (entry_to_item e) = Ok e.
Proof.
  destruct (entry_to_item_lookup e) as (H1 & H2 & H3 & H4 & H5 & H6). cbn zeta in *.
  unfold entry_from_item.
  rewrite (need_s_ok _ _ _ H1), (need_s_ok _ _ _ H2), (need_s_ok _ _ _ H3). cbn [rbind].
  rewrite (read_map_ok _ _ _ _ H4). cbn [rbind]. rewrite H5, H6.
  destruct e as [cap lease iface attrs [[ty cfg]|]]; cbn in *; [|done].
  by rewrite (read_map_ok _ _ _ _ H6).
Qed.

Abbreviation registry_table := (record_table registry_spec entry_to_item).
Abbreviation registry_filed := (filed re_capability_id).

Lemma entry_id e : get_s (entry_to_item e) (tp_hash registry_spec) = Some (re_capability_id e).
Proof. unfold get_s. cbn. by rewrite (proj1 (entry_to_item_lookup e)). Qed.

Lemma entry_lease e : get_s (entry_to_item e) "lease_id" = Some (re_lease_id e).
Proof. unfold get_s. by rewrite (proj1 (proj2 (entry_to_item_lookup e))). Qed.

Lemma entry_index e : re_lease_id e ≠ "" → index_ok registry_spec (entry_to_item e) = true.
Proof.
  intros Hl. unfold index_ok. cbn. rewrite entry_lease, bool_decide_eq_false_2; [done|].
  by intros [= ?].
Qed.

Lemma registry_put c e m :
  re_capability_id e ≠ "" → re_lease_id e ≠ "" →
  put_row c (entry_to_item e) (registry_table m) =
    Some (if check c (entry_to_item <$> m !! re_capability_id e)
          then Some (registry_table (<[re_capability_id e := e]> m), ()) else None).
Proof. intros Hc Hl. apply put_record; [done|apply entry_id|done|by apply entry_index]. Qed.

Section agreement.
Context {I : MapIter} {D : Type} {DB : Dynamo D} {DV : DynamoView D}.
Context {DL : DynamoLaws D} {DH : DynamoHealthy D}.
Context {M : Type} {MS : RegistryStore M} {MV : RegistryStoreView M} {ML : RegistryStoreLaws M}.
Implicit Types (s : DynamoRegistryStore D) (m : M) (em : entry_map).

(** The table holds the entries [em]. *)
Record holds_entries s em : Prop := {
  he_rows : tables (dr_client s) !! dr_table_name s = Some (registry_table em);
  he_wf : entries_wf em;
  he_ids : ∀ c e, em !! c = Some e → c ≠ "" ∧ re_lease_id e ≠ ""
}.

(** The table holds exactly the entries of the other store. *)
Definition registry_sim s m : Prop := holds_entries s (rg_entries m) ∧ rg_inv m.

Lemma holds_filed s em : holds_entries s em → registry_filed em.
Proof. intros [_ [Hkey _] Hids] c e He. split; [by apply Hkey|]. by apply (Hids c e). Qed.

(** The index finds the entry of a lease. *)
Lemma query_lease_ok s em l :
  holds_entries s em → l ≠ "" →
  (∃ c e, em !! c = Some e ∧ re_lease_id e = l ∧ query_lease s l = Ok (Some (entry_to_item e))) ∨
  (lease_unused em l ∧ query_lease s l = Ok None).
Proof.
  intros [Hrows _ _] Hl. unfold query_lease.
  destruct (query_index_ok _ _ _ REGISTRY_LEASE_GSI "lease_id" l Hrows eq_refl Hl) as (o & -> & Ho).
  destruct o as [it|]; cbn.
  - destruct Ho as [[k Hk] Hv]. apply record_rows_Some in Hk as (c & e & -> & -> & He).
    rewrite entry_lease in Hv. injection Hv as <-. left. by exists c, e.
  - right. split; [|done]. intros c e He Heq. apply (Ho (hash_key c) (entry_to_item e)).
    + apply record_rows_Some. by exists c, e.
    + by rewrite entry_lease, Heq.
Qed.

Lemma decode_row_ok (o : option RegistryEntry) : decode_row (entry_to_item <$> o) = Ok o.
Proof. destruct o; cbn; [|done]. by rewrite entry_roundtrip. Qed.

(** Writing one entry. *)
Lemma holds_put s em e d :
  holds_entries s em → re_capability_id e ≠ "" → re_lease_id e ≠ "" →
  lease_unused (delete (re_capability_id e) em) (re_lease_id e) →
  tables d = <[dr_table_name s :=
    registry_table (<[re_capability_id e := e]> em)]> (tables (dr_client s)) →
  holds_entries (set_client s d) (<[re_capability_id e := e]> em).
Proof.
  intros [Hrows [Hkey Hun] Hids] Hc Hl Hu Ht. split; cbn.
  - by rewrite Ht, lookup_insert_eq.
  - assert (Hother : ∀ c x, em !! c = Some x → c ≠ re_capability_id e → re_lease_id x ≠ re_lease_id e)
      by (intros c x Hx Hne; apply (Hu c x); by rewrite lookup_delete_ne).
    split.
    + intros c x [[<- <-]|[_ Hx]]%lookup_insert_Some; [done|by apply Hkey].
    + intros c1 c2 e1 e2 [[<- <-]|[Hne1 Hx1]]%lookup_insert_Some
        [[<- <-]|[Hne2 Hx2]]%lookup_insert_Some Heq; [done|..|by eapply Hun].
      * by destruct (Hother _ _ Hx2).
      * by destruct (Hother _ _ Hx1).
  - intros c x [[<- <-]|[_ Hx]]%lookup_insert_Some; [done|by apply Hids].
Qed.

Lemma holds_delete s em c d :
  holds_entries s em →
  tables d = <[dr_table_name s := registry_table (delete c em)]> (tables (dr_client s)) →
  holds_entries (set_client s d) (delete c em).
Proof.
  intros [Hrows [Hkey Hun] Hids] Ht. split; cbn.
  - by rewrite Ht, lookup_insert_eq.
  - split.
    + intros c' x [_ Hx]%lookup_delete_Some. by apply Hkey.
    + intros c1 c2 e1 e2 [_ H1]%lookup_delete_Some [_ H2]%lookup_delete_Some. by eapply Hun.
  - intros c' x [_ Hx]%lookup_delete_Some. by apply Hids.
Qed.

Lemma sim_insert s m e :
  registry_sim s m → registry_op_valid (rg_entries m) (RInsert e) →
  registry_sim (insert s e).1 (rg_insert m e).1 ∧ (insert s e).2 = (rg_insert m e).2.
Proof.
  intros [Hs Hinv] (Hc & Hl & Hn & Hu). unfold insert.
  destruct (put_item_ok _ _ _ None _ _ (he_rows _ _ Hs) (registry_put None e _ Hc Hl)) as [Hr Ht].
  pose proof (rg_insert_law m e Hinv Hn Hu) as Hlaw. destruct (rg_insert m e) as [m' res].
  destruct Hlaw as (-> & Hinv' & Hv). destruct (put_item _ _ _ _) as [d r]. cbn in *. subst r.
  split; [|done]. split; [|done]. cbn. rewrite Hv.
  apply holds_put; [done|done|done| |done]. by rewrite delete_id.
Qed.

Lemma sim_update s m e :
  registry_sim s m → registry_op_valid (rg_entries m) (RUpdate e) →
  registry_sim (update s e).1 (rg_update m e).1 ∧ (update s e).2 = (rg_update m e).2.
Proof.
  intros [Hs Hinv] (Hc & Hl & Hu). unfold update.
  pose proof (put_item_ok _ _ _ (Some (CExists "capability_id")) _ _ (he_rows _ _ Hs)
    (registry_put _ e _ Hc Hl)) as Hp.
  pose proof (rg_update_law m e Hinv Hu) as Hlaw. destruct (rg_update m e) as [m' res].
  destruct Hlaw as (Hinv' & Hlaw).
  destruct (rg_entries m !! re_capability_id e) as [old|] eqn:He; cbn in Hp.
  - destruct (entry_to_item_lookup old) as (H1 & _). cbn zeta in H1.
    rewrite H1, bool_decide_eq_true_2 in Hp by done. destruct Hp as [Hr Ht].
    destruct (put_item _ _ _ _) as [d r]. cbn in *. subst r. destruct Hlaw as [-> Hv].
    split; [|done]. split; [|done]. cbn. rewrite Hv. by apply holds_put.
  - rewrite lookup_empty, bool_decide_eq_false_2 in Hp by (by intros []). destruct Hp as [Hr Ht].
    destruct (put_item _ _ _ _) as [d r]. cbn in *. subst r. destruct Hlaw as [-> Hv].
    split; [|done]. split; [|done]. cbn. rewrite Hv. destruct Hs. split; cbn; [by rewrite Ht|done|done].
Qed.

Lemma sim_remove s m l :
  registry_sim s m → l ≠ "" →
  registry_sim (remove_by_lease s l).1 (rg_remove_by_lease m l).1 ∧
  (remove_by_lease s l).2 = (rg_remove_by_lease m l).2.
Proof.
  intros [Hs Hinv] Hl. unfold remove_by_lease. pose proof (rg_remove_by_lease_law m l Hinv) as Hlaw.
  destruct (rg_remove_by_lease m l) as [m' res]. destruct Hlaw as (Hinv' & Hlaw).
  destruct (he_wf _ _ Hs) as [Hkey Hun].
  destruct (query_lease_ok s _ l Hs Hl) as [(c & e & He & Hle & ->)|[Hnone ->]].
  - destruct Hlaw as [(c' & e' & He' & Hle' & -> & Hv)|[Hno _]]; [|by destruct (Hno c e)].
    assert (c' = c) as -> by (eapply Hun; [done|done|congruence]).
    rewrite He in He'. injection He' as <-.
    destruct (entry_to_item_lookup e) as (H1 & _). cbn zeta in H1.
    unfold get_s. rewrite H1. cbn [mbind option_bind as_s ok_or]. rewrite entry_roundtrip.
    rewrite (Hkey _ _ He). pose proof (he_ids _ _ Hs c e He) as [Hc _].
    pose proof (delete_record registry_spec entry_to_item eq_refl None c (rg_entries m) Hc) as Hrow.
    destruct (delete_item_ok _ _ _ None _ _ (he_rows _ _ Hs) Hrow) as [Hr Ht].
    destruct (delete_item _ _ _ _) as [d r]. cbn in *. subst r. split; [|done]. split; [|done].
    cbn. rewrite Hv. by apply holds_delete.
  - destruct Hlaw as [(c' & e' & He' & Hle' & _)|(_ & -> & Hv)]; [by destruct (Hnone c' e')|].
    split; [|done]. split; [|done]. cbn. by rewrite Hv.
Qed.

Lemma sim_get s m c :
  registry_sim s m → c ≠ "" → get s c = rg_get m c.
Proof.
  intros [Hs Hinv] Hc. unfold get. rewrite rg_get_law.
  change "capability_id" with (tp_hash registry_spec).
  rewrite (get_record registry_spec entry_to_item eq_refl _ _ _ c (he_rows _ _ Hs) Hc).
  apply decode_row_ok.
Qed.

Lemma sim_get_by_lease s m l :
  registry_sim s m → l ≠ "" → get_by_lease s l = rg_get_by_lease m l.
Proof.
  intros [Hs Hinv] Hl. unfold get_by_lease. destruct (he_wf _ _ Hs) as [_ Hun].
  destruct (query_lease_ok s _ l Hs Hl) as [(c & e & He & Hle & ->)|[Hnone ->]]; cbn [rbind].
  - change (Some (entry_to_item e)) with (entry_to_item <$> Some e). rewrite decode_row_ok.
    destruct (rg_get_by_lease_law m l Hinv) as [(c' & e' & He' & Hle' & ->)|[Hno _]];
      [|by destruct (Hno c e)].
    assert (c' = c) as -> by (eapply Hun; [done|done|congruence]). congruence.
  - destruct (rg_get_by_lease_law m l Hinv) as [(c' & e' & He' & Hle' & _)|[_ ->]]; [|done].
    by destruct (Hnone c' e').
Qed.

Lemma sim_list_all s m :
  registry_sim s m → same_answer (REntries (list_all s)) (REntries (rg_list_all m)).
Proof.
  intros [Hs Hinv]. destruct (rg_list_all_law m) as (l & -> & Hl).
  destruct (scan_records registry_spec entry_to_item re_capability_id eq_refl entry_id
    _ _ _ None None "scan" (one entry_from_item) (λ e, [e]) (he_rows _ _ Hs) (holds_filed _ _ Hs))
    as (out & Hout & Hp); [done| |].
  { intros c e _ _. unfold one. by rewrite entry_roundtrip. }
  unfold list_all. rewrite Hout. cbn. by rewrite Hp, Hl, filter_true, bind_singletons.
Qed.

Lemma registry_apply_sim s m op :
  registry_sim s m → registry_op_valid (rg_entries m) op →
  registry_sim (rg_apply s op).1 (rg_apply m op).1 ∧
  same_answer (rg_apply s op).2 (rg_apply m op).2.
Proof.
  intros Hs Hv. destruct op as [e|e|l|c|l|]; cbn [rg_apply rg_insert rg_update rg_remove_by_lease
    rg_get rg_get_by_lease rg_list_all DynamoRegistryStore_store].
  - destruct (sim_insert s m e Hs Hv) as [Hs' Hr].
    destruct (insert s e), (rg_insert m e). cbn in *. by rewrite Hr.
  - destruct (sim_update s m e Hs Hv) as [Hs' Hr].
    destruct (update s e), (rg_update m e). cbn in *. by rewrite Hr.
  - destruct (sim_remove s m l Hs Hv) as [Hs' Hr].
    destruct (remove_by_lease s l), (rg_remove_by_lease m l). cbn in *. by rewrite Hr.
  - split; [done|]. cbn. by rewrite (sim_get s m c Hs Hv).
  - split; [done|]. cbn. by rewrite (sim_get_by_lease s m l Hs Hv).
  - split; [done|]. by apply sim_list_all.
Qed.

(** The DynamoDB registry store and the in-memory one are
    interchangeable.  Starting from a table and a store with the same entries,
    any sequence of calls with non-empty ids (new ones for new entries) gives the
    same answers, up to the order of listings, and ends with the same entries, on
    a database that serves its calls and whose reads have caught up. *)
Theorem dynamo_registry_agrees s m ops :
  registry_sim s m →
  calls_valid rg_apply (λ m op, registry_op_valid (rg_entries m) op) m ops →
  registry_sim (run_calls rg_apply s ops).1 (run_calls rg_apply m ops).1 ∧
  Forall2 same_answer (run_calls rg_apply s ops).2 (run_calls rg_apply m ops).2.
Proof. apply run_calls_agree. intros. by apply registry_apply_sim. Qed.
End agreement.

(** ** A concrete run *)
Section samples.
#[local] Existing Instance canonical_iter.

(** An empty table, with pages of two rows. *)
Definition toy_registry : DynamoRegistryStore ToyDb :=
  with_table {| toy_tables := {["reg" := mkTable registry_spec ∅]}; toy_page := 1 |} "reg".

Definition toy_entry : RegistryEntry :=
  mkEntry "cap-1" "lease-1" "Greeter" {["lang" := "en"]}
    (Some {| tc_type := "grpc"; tc_config := {["host" := "h"; "port" := "1"]} |}).

Lemma toy_registry_sim : registry_sim toy_registry RegistryStore.new.
Proof.
  split; [|apply store_inv_new]. cbn. split.
  - by rewrite record_table_empty.
  - split; intros *; by rewrite lookup_empty.
  - intros *. by rewrite lookup_empty.
Qed.

Definition toy_ops : list RegistryOp :=
  [RInsert toy_entry; RGet "cap-1"; RGetByLease "lease-1"; RListAll; RUpdate toy_entry;
   RRemoveByLease "lease-1"; RListAll].

Theorem dynamo_registry_agrees_witness :
  (run_calls rg_apply toy_registry toy_ops).2 = (run_calls rg_apply RegistryStore.new toy_ops).2 ∧
  Forall2 same_answer (run_calls rg_apply toy_registry toy_ops).2 (run_calls rg_apply RegistryStore.new toy_ops).2.
Proof.
  split; [vm_compute; reflexivity|].
  apply (dynamo_registry_agrees toy_registry RegistryStore.new toy_ops).
  - exact toy_registry_sim.
  - cbn [calls_valid toy_ops]. split_and!; try discriminate; done.
Defined.
End samples.
