(* ===== verification/DynamoLease.v ===== *)
(** * The DynamoDB lease store ([providers/dynamo/src/lease_store.rs])

    One row per lease, keyed by lease id, with an index on the resource.  Beside
    the record a row carries its expiry as a number the reaper's scan filters on
    and the instant, an hour later, from which DynamoDB itself may drop the row.

    Two results: on a healthy database the store answers as the in-memory one;
    and whatever fails or lags, it keeps the contract under which the reaper never
    drops a live lease. *)

From S2P Require Import Prelude CoreTypes LeaseCore LeaseStore LeaseManager Dynamo DynamoCodec DynamoSample.

Definition TTL_GRACE_SECS : Z := 3600.

(** [i64::saturating_add]. *)
Definition saturating_add (a b : Z) : Z := Z.max (- i64_max - 1) (Z.min i64_max (a + b)).

Record DynamoLeaseStore (D : Type) := mkDynLeases {
  dl_client : D;
  dl_table_name : string;
  dl_scan_page_limit : option nat
}.
Arguments mkDynLeases {D}.
Arguments dl_client {D} _.
Arguments dl_table_name {D} _.
Arguments dl_scan_page_limit {D} _.

Section store.
Context {C : Chrono} {R : Rfc3339}.

Definition expires_epoch (expires_at ttl_seconds : Z) : option Z :=
  if (ttl_seconds =? LEASE_FOREVER)%Z then None else Some (timestamp expires_at).

Definition ttl_epoch (expires_at ttl_seconds : Z) : option Z :=
  (λ e, saturating_add e TTL_GRACE_SECS) <$> expires_epoch expires_at ttl_seconds.

Definition record_from_item (item : Item) : result LeaseRecord Error :=
  let? lease_id := need_s item "lease_id" in
  let? resource_id := need_s item "resource_id" in
  let? granted_at := need_time item "granted_at" in
  let? expires_at := need_time item "expires_at" in
  let? ttl_seconds := need_u64 item "ttl_seconds" in
  Ok (mkLease lease_id resource_id granted_at expires_at ttl_seconds).

Definition put_number (k : string) (o : option Z) (item : Item) : Item :=
  match o with Some n => <[k := AN (pretty n)]> item | None => item end.

(** The row [create] puts. *)
Definition record_to_item (r : LeaseRecord) : Item :=
  put_number "ttl" (ttl_epoch (lr_expires_at r) (lr_ttl_seconds r))
    (put_number "expires_epoch" (expires_epoch (lr_expires_at r) (lr_ttl_seconds r))
      (<["ttl_seconds" := AN (pretty (lr_ttl_seconds r))]>
        (<["expires_at" := AS (to_rfc3339 (lr_expires_at r))]>
          (<["granted_at" := AS (to_rfc3339 (lr_granted_at r))]>
            (<["resource_id" := AS (lr_resource_id r)]>
              (<["lease_id" := AS (lr_lease_id r)]> ∅)))))).

Context {D : Type} {DB : Dynamo D} {DV : DynamoView D}.
Implicit Types (s : DynamoLeaseStore D).

Definition with_table (client : D) (table_name : string) : DynamoLeaseStore D :=
  mkDynLeases client table_name None.

Definition with_scan_page_limit s (limit : nat) : DynamoLeaseStore D :=
  mkDynLeases (dl_client s) (dl_table_name s) (Some limit).

Definition set_client s (d : D) : DynamoLeaseStore D :=
  mkDynLeases d (dl_table_name s) (dl_scan_page_limit s).

Definition init (env : string → option string) s : DynamoLeaseStore D * result unit Error :=
  let '(d, r) := init_tables env (dl_client s) [λ d, ensure_lease_table d (dl_table_name s)] in
  (set_client s d, r).

Definition lease_key_item (lease_id : string) : Item := {["lease_id" := AS lease_id]}.

Definition create s (now : Z) (id resource_id : string) (ttl_secs : Z)
  : DynamoLeaseStore D * result LeaseRecord Error :=
  match expiry_for now ttl_secs with
  | Err e => (s, Err e)
  | Ok expires_at =>
      let record := mkLease id resource_id now expires_at ttl_secs in
      let '(d, r) := put_item (dl_client s) (dl_table_name s) None (record_to_item record) in
      (set_client s d, rmap (λ _, record) (map_err (sdk_storage "put_item") r))
  end.

Definition get s (lease_id : string) : result (option LeaseRecord) Error :=
  let? o := map_err (sdk_storage "get_item")
              (get_item (dl_client s) (dl_table_name s) (lease_key_item lease_id)) in
  match o with None => Ok None | Some item => rmap Some (record_from_item item) end.

(** The update expression of [renew]. *)
Definition renew_actions (new_expires_at ttl_secs : Z) : list UpdateAction :=
  [USet "expires_at" (AS (to_rfc3339 new_expires_at)); USet "ttl_seconds" (AN (pretty ttl_secs))] ++
  match ttl_epoch new_expires_at ttl_secs with
  | Some epoch => [USet "ttl" (AN (pretty epoch));
                   USet "expires_epoch" (AN (pretty (timestamp new_expires_at)))]
  | None => [URemove "ttl"; URemove "expires_epoch"]
  end.

Definition renew s (now : Z) (lease_id : string) (ttl_secs : Z)
  : DynamoLeaseStore D * result LeaseRecord Error :=
  match get s lease_id with
  | Err e => (s, Err e)
  | Ok None => (s, Err (LeaseNotFound lease_id))
  | Ok (Some existing) =>
      match expiry_for now ttl_secs with
      | Err e => (s, Err e)
      | Ok new_expires_at =>
          let '(d, r) := update_item (dl_client s) (dl_table_name s) (Some (CExists "lease_id"))
                           (lease_key_item lease_id) (renew_actions new_expires_at ttl_secs) in
          (set_client s d,
           match r with
           | Ok _ => Ok (with_expiry existing new_expires_at ttl_secs)
           | Err ConditionalCheckFailed => Err (LeaseNotFound lease_id)
           | Err e => Err (sdk_storage "update_item" e)
           end)
      end
  end.

Definition cancel s (lease_id : string) : DynamoLeaseStore D * result unit Error :=
  let '(d, r) := delete_item (dl_client s) (dl_table_name s) None (lease_key_item lease_id) in
  (set_client s d, rmap (λ _, ()) (map_err (sdk_storage "delete_item") r)).

Definition get_by_resource s (resource_id : string) : result (option LeaseRecord) Error :=
  let? l := map_err (sdk_storage "query")
              (query_index (dl_client s) (dl_table_name s) RESOURCE_GSI resource_id 1) in
  match head l with None => Ok None | Some item => rmap Some (record_from_item item) end.

(** The filter of the scan, at epoch second [now]. *)
Definition expired_filter (now : Z) : Cond :=
  COr (CAnd (CExists "expires_epoch") (CLeN "expires_epoch" now))
      (CAnd (CAnd (CNotExists "expires_epoch") (CExists "ttl")) (CLeN "ttl" now)).

(** [clk id] is the reading made for the lease [id] and [clk ""], no lease's id,
    the one at the start of the call. *)
Definition expired_only (clk : string → Z) (item : Item) : result (list LeaseRecord) Error :=
  let? record := record_from_item item in
  Ok (if is_expired (clk (lr_lease_id record)) record then [record] else []).

Definition list_expired s (clk : string → Z) : result (list LeaseRecord) Error :=
  scan_decoded (dl_client s) (dl_table_name s) (Some (expired_filter (timestamp (clk ""))))
    (dl_scan_page_limit s) "scan" (expired_only clk).

Definition remove_if_unchanged s (record : LeaseRecord) : DynamoLeaseStore D * result bool Error :=
  let '(d, r) := delete_item (dl_client s) (dl_table_name s)
                   (Some (CEqS "expires_at" (to_rfc3339 (lr_expires_at record))))
                   (lease_key_item (lr_lease_id record)) in
  (set_client s d,
   match r with
   | Ok _ => Ok true
   | Err ConditionalCheckFailed => Ok false
   | Err e => Err (sdk_storage "delete_item" e)
   end).

#[global] Instance DynamoLeaseStore_store : LeaseStore (DynamoLeaseStore D) := {|
  ls_create := create;
  ls_renew := renew;
  ls_cancel := cancel;
  ls_get := get;
  ls_get_by_resource := get_by_resource;
  ls_list_expired := list_expired;
  ls_remove_if_unchanged := remove_if_unchanged
|}.
End store.

(** ** Store calls *)
Inductive LeaseOp :=
| OpCreate (now : Z) (id resource_id : string) (ttl_secs : Z)
| OpRenew (now : Z) (id : string) (ttl_secs : Z)
| OpCancel (id : string)
| OpGet (id : string)
| OpGetByResource (resource_id : string)
| OpListExpired (now : Z)
| OpRemoveIfUnchanged (record : LeaseRecord).

Inductive LeaseRes :=
| ResLease (r : result LeaseRecord Error)
| ResUnit (r : result unit Error)
| ResGet (r : result (option LeaseRecord) Error)
| ResByResource (r : result (option LeaseRecord) Error)
| ResExpired (r : result (list LeaseRecord) Error)
| ResRemoved (r : result bool Error).

Definition ls_apply {S} `{LeaseStore S} (s : S) (op : LeaseOp) : S * LeaseRes :=
  match op with
  | OpCreate t id rid ttl => let '(s', r) := ls_create s t id rid ttl in (s', ResLease r)
  | OpRenew t id ttl => let '(s', r) := ls_renew s t id ttl in (s', ResLease r)
  | OpCancel id => let '(s', r) := ls_cancel s id in (s', ResUnit r)
  | OpGet id => (s, ResGet (ls_get s id))
  | OpGetByResource rid => (s, ResByResource (ls_get_by_resource s rid))
  | OpListExpired t => (s, ResExpired (ls_list_expired s (λ _, t)))
  | OpRemoveIfUnchanged r => let '(s', b) := ls_remove_if_unchanged s r in (s', ResRemoved b)
  end.

(** Equal answers, up to the wording of an error, the order of a listing and the
    choice among several leases of one resource. *)
Definition same_lease_answer (a b : LeaseRes) : Prop :=
  match a, b with
  | ResLease (Err _), ResLease (Err _) => True
  | ResByResource (Ok (Some r1)), ResByResource (Ok (Some r2)) =>
      lr_resource_id r1 = lr_resource_id r2
  | ResExpired (Ok l1), ResExpired (Ok l2) => l1 ≡ₚ l2
  | _, _ => a = b
  end.

Section valid.
Context {C : Chrono}.

(** What callers pass: ids and resources that are not empty, [u64] TTLs, and
    instants that are dates. *)
Definition lease_op_valid (op : LeaseOp) : Prop :=
  match op with
  | OpCreate t id rid ttl => id ≠ "" ∧ rid ≠ "" ∧ is_u64 ttl
  | OpRenew t id ttl => id ≠ "" ∧ is_u64 ttl
  | OpCancel id | OpGet id => id ≠ ""
  | OpGetByResource rid => rid ≠ ""
  | OpListExpired _ => True
  | OpRemoveIfUnchanged r => lr_lease_id r ≠ ""
  end.

(** Records the table can hold. *)
Definition lease_storable (r : LeaseRecord) : Prop :=
  lr_resource_id r ≠ "" ∧ is_u64 (lr_ttl_seconds r) ∧ (MIN_UTC ≤ lr_expires_at r ≤ MAX_UTC)%Z.
End valid.

(** ** Rows *)
Section rows.
Context {C : Chrono} {CL : ChronoLaws C} {R : Rfc3339} {RL : Rfc3339Laws R}.

Lemma put_number_ne k k' o item : k ≠ k' → put_number k o item !! k' = item !! k'.
Proof. intros Hne. destruct o; cbn; [|done]. by rewrite lookup_insert_ne. Qed.

Lemma put_number_eq k o item :
  put_number k o item !! k = match o with Some n => Some (AN (pretty n)) | None => item !! k end.
Proof. destruct o; cbn; [|done]. by rewrite lookup_insert_eq. Qed.

Lemma lease_record_to_item_lookup r :
  let item := record_to_item r in
  item !! "lease_id" = Some (AS (lr_lease_id r)) ∧
  item !! "resource_id" = Some (AS (lr_resource_id r)) ∧
  item !! "granted_at" = Some (AS (to_rfc3339 (lr_granted_at r))) ∧
  item !! "expires_at" = Some (AS (to_rfc3339 (lr_expires_at r))) ∧
  item !! "ttl_seconds" = Some (AN (pretty (lr_ttl_seconds r))) ∧
  item !! "expires_epoch" = (λ e, AN (pretty e)) <$> expires_epoch (lr_expires_at r) (lr_ttl_seconds r) ∧
  item !! "ttl" = (λ e, AN (pretty e)) <$> ttl_epoch (lr_expires_at r) (lr_ttl_seconds r).
Proof.
  intros item. unfold item, record_to_item. split_and!.
  1-5: rewrite !put_number_ne by done; by simplify_map_eq.
  - rewrite put_number_ne, put_number_eq by done. destruct (expires_epoch _ _); by simplify_map_eq.
  - rewrite put_number_eq, put_number_ne by done. destruct (ttl_epoch _ _); by simplify_map_eq.
Qed.

(** A lease survives being written to a row and read back. *)
Lemma lease_roundtrip r :
  is_u64 (lr_ttl_seconds r) → record_from_item (record_to_item r) = Ok r.
Proof.
  intros Hu. destruct (lease_record_to_item_lookup r) as (H1 & H2 & H3 & H4 & H5 & _). cbn zeta in *.
  unfold record_from_item. rewrite (need_s_ok _ _ _ H1), (need_s_ok _ _ _ H2). cbn [rbind].
  rewrite (need_time_ok _ _ _ H3), (need_time_ok _ _ _ H4). cbn [rbind].
  rewrite (need_u64_ok _ _ _ H5 Hu). by destruct r.
Qed.

Lemma lease_row_id r : get_s (record_to_item r) (tp_hash lease_spec) = Some (lr_lease_id r).
Proof. unfold get_s. cbn. by rewrite (proj1 (lease_record_to_item_lookup r)). Qed.

Lemma lease_row_resource r : get_s (record_to_item r) "resource_id" = Some (lr_resource_id r).
Proof. unfold get_s. by rewrite (proj1 (proj2 (lease_record_to_item_lookup r))). Qed.

Lemma lease_row_index r : lr_resource_id r ≠ "" → index_ok lease_spec (record_to_item r) = true.
Proof.
  intros Hr. unfold index_ok. cbn. rewrite lease_row_resource, bool_decide_eq_false_2; [done|].
  by intros [= ?].
Qed.

(** The update expression of [renew] leaves the row of the renewed record. *)
Lemma renew_actions_row r e ttl :
  apply_actions (renew_actions e ttl) (record_to_item r) = Some (record_to_item (with_expiry r e ttl)).
Proof.
  unfold renew_actions, record_to_item, ttl_epoch, expires_epoch. destruct r as [id rid g ex tt]. cbn.
  destruct (ttl =? LEASE_FOREVER)%Z, (tt =? LEASE_FOREVER)%Z; cbn; f_equal; item_eq.
Qed.

(** The condition of the removal compares expiries. *)
Lemma unchanged_check r (o : option LeaseRecord) :
  check (Some (CEqS "expires_at" (to_rfc3339 (lr_expires_at r)))) (record_to_item <$> o) =
    match o with Some cur => bool_decide (lr_expires_at cur = lr_expires_at r) | None => false end.
Proof.
  destruct o as [cur|]; cbn; [|done]. destruct (lease_record_to_item_lookup cur) as (_ & _ & _ & He & _).
  unfold get_s. rewrite He. cbn. apply bool_decide_ext. split; [|by intros ->].
  intros [= Heq]. by apply to_rfc3339_inj.
Qed.

Lemma lease_number n : (- (10 ^ 13) ≤ n < 10 ^ 13)%Z → number (AN (pretty n)) = Some n.
Proof. intros Hn. apply num_value_pretty. lia. Qed.

(** A lease expired at [t] passes the filter of a scan made at [t]. *)
Lemma expired_passes t r :
  (MIN_UTC ≤ lr_expires_at r ≤ MAX_UTC)%Z → is_expired t r = true →
  cond_holds (expired_filter (timestamp t)) (record_to_item r) = true.
Proof.
  intros Hr. unfold is_expired. destruct (Z.eqb_spec (lr_ttl_seconds r) LEASE_FOREVER); [done|].
  intros Hle. apply Z.leb_le in Hle.
  destruct (lease_record_to_item_lookup r) as (_ & _ & _ & _ & _ & He & _). cbn zeta in He.
  unfold expires_epoch in He. rewrite (proj2 (Z.eqb_neq _ _)) in He by done. cbn in He.
  cbn [expired_filter cond_holds]. rewrite He. cbn [mbind option_bind].
  rewrite bool_decide_eq_true_2 by done. rewrite lease_number by (by apply timestamp_range).
  rewrite (proj2 (Z.leb_le _ _)); [done|]. rewrite !timestamp_law. by apply Z.div_le_mono.
Qed.

(** DynamoDB's own expiry trails the reaper's.  The instant from
    which the database may drop a row by itself is an hour after the lease's
    expiry: whenever it has passed, the lease has been expired for at least 3599
    seconds; and a FOREVER lease carries none. *)
Lemma native_ttl_trails_expiry r n t :
  (MIN_UTC ≤ lr_expires_at r ≤ MAX_UTC)%Z →
  record_to_item r !! "ttl" ≫= number = Some n → (n ≤ timestamp t)%Z →
  is_expired (t - 3599 * nanos_per_sec) r = true.
Proof.
  intros Hr. destruct (lease_record_to_item_lookup r) as (_ & _ & _ & _ & _ & _ & ->).
  pose proof (timestamp_range _ Hr) as Hts.
  unfold ttl_epoch, expires_epoch, is_expired. destruct (_ =? _)%Z; [done|].
  cbn [fmap option_fmap option_map mbind option_bind].
  assert (Hsat : saturating_add (timestamp (lr_expires_at r)) TTL_GRACE_SECS =
    (timestamp (lr_expires_at r) + 3600)%Z)
    by (unfold saturating_add, TTL_GRACE_SECS, i64_max; lia).
  rewrite Hsat. unfold number. cbn [as_n mbind option_bind]. rewrite num_value_pretty by lia.
  intros [= <-] Hn. rewrite !timestamp_law in Hn. apply Z.leb_le. unfold nanos_per_sec in *.
  pose proof (Z.mul_div_le t 1000000000). pose proof (Z.mul_succ_div_gt (lr_expires_at r) 1000000000). lia.
Qed.
End rows.

(** ** Agreement with the in-memory store *)
Section agreement.
Context {C : Chrono} {CL : ChronoLaws C} {R : Rfc3339} {RL : Rfc3339Laws R}.
Context {D : Type} {DB : Dynamo D} {DV : DynamoView D} {DL : DynamoLaws D} {DH : DynamoHealthy D}.
Context {M : Type} {MS : LeaseStore M} {MV : LeaseStoreView M} {ML : LeaseStoreLaws M}.
Implicit Types (s : DynamoLeaseStore D) (m : M) (lm : lease_map).

Abbreviation lease_table := (record_table lease_spec record_to_item).

(** The table holds the leases [lm]. *)
Record holds_leases s lm : Prop := {
  hl_rows : tables (dl_client s) !! dl_table_name s = Some (lease_table lm);
  hl_filed : filed lr_lease_id lm;
  hl_good : map_Forall (λ _, lease_storable) lm;
  hl_limit : dl_scan_page_limit s ≠ Some 0
}.

Lemma expiry_range t ttl e :
  is_u64 ttl → expiry_for t ttl = Ok e → (MIN_UTC ≤ e ≤ MAX_UTC)%Z.
Proof.
  intros Hu. unfold expiry_for. pose proof utc_range as Hr.
  destruct (Z.eqb_spec ttl LEASE_FOREVER); [intros [= <-]; lia|].
  destruct (checked_expiry t ttl) as [x|] eqn:E; cbn; [|done]. intros [= <-].
  apply checked_expiry_exact in E as (_ & ? & _); done.
Qed.

Lemma lease_holds_write s lm lm' d :
  holds_leases s lm → filed lr_lease_id lm' → map_Forall (λ _, lease_storable) lm' →
  tables d = <[dl_table_name s := lease_table lm']> (tables (dl_client s)) →
  holds_leases (set_client s d) lm'.
Proof.
  intros [Hrows Hf Hg Hl] Hf' Hg' Ht. split; cbn; [|done..]. by rewrite Ht, lookup_insert_eq.
Qed.

Lemma lease_holds_same s lm d :
  holds_leases s lm → tables d = tables (dl_client s) → holds_leases (set_client s d) lm.
Proof. intros [Hrows Hf Hg Hl] Ht. split; cbn; [by rewrite Ht|done..]. Qed.

Lemma lease_create_holds s lm t id rid ttl :
  holds_leases s lm → lease_op_valid (OpCreate t id rid ttl) →
  match expiry_for t ttl with
  | Ok e => (create s t id rid ttl).2 = Ok (mkLease id rid t e ttl) ∧
      holds_leases (create s t id rid ttl).1 (<[id := mkLease id rid t e ttl]> lm)
  | Err err => create s t id rid ttl = (s, Err err)
  end.
Proof.
  intros Hs (Hid & Hrid & Hu). unfold create. destruct (expiry_for t ttl) as [e|err] eqn:He; [|done].
  set (r := mkLease id rid t e ttl).
  pose proof (put_record lease_spec record_to_item lr_lease_id eq_refl lease_row_id None r lm
    Hid (lease_row_index r Hrid)) as Hput.
  destruct (put_item_ok _ _ _ None _ _ (hl_rows _ _ Hs) Hput) as [Hr Ht].
  destruct (put_item _ _ _ _) as [d res]. cbn in *. subst res. split; [done|].
  apply (lease_holds_write s lm); [done| | |done].
  - apply (filed_insert lr_lease_id lm r); [apply Hs|done].
  - apply map_Forall_insert_2; [|apply Hs]. split_and!; [done|done|by eapply expiry_range..].
Qed.

Lemma lease_get_holds s lm id : holds_leases s lm → id ≠ "" → get s id = Ok (lm !! id).
Proof.
  intros Hs Hid. unfold get, lease_key_item. change "lease_id" with (tp_hash lease_spec).
  rewrite (get_record lease_spec record_to_item eq_refl _ _ _ id (hl_rows _ _ Hs) Hid). cbn.
  destruct (lm !! id) as [r|] eqn:Hr; cbn; [|done]. rewrite lease_roundtrip; [done|].
  by apply (hl_good _ _ Hs _ _ Hr).
Qed.

Lemma renew_holds s lm t id ttl :
  holds_leases s lm → id ≠ "" → is_u64 ttl →
  match lm !! id, expiry_for t ttl with
  | Some r, Ok e => (renew s t id ttl).2 = Ok (with_expiry r e ttl) ∧
      holds_leases (renew s t id ttl).1 (<[id := with_expiry r e ttl]> lm)
  | None, Ok _ => renew s t id ttl = (s, Err (LeaseNotFound id))
  | _, Err _ => is_ok (renew s t id ttl).2 = false ∧ (renew s t id ttl).1 = s
  end.
Proof.
  intros Hs Hid Hu. unfold renew. rewrite (lease_get_holds _ _ _ Hs Hid).
  destruct (lm !! id) as [r|] eqn:Hr, (expiry_for t ttl) as [e|] eqn:He; try done.
  destruct (hl_filed _ _ Hs _ _ Hr) as [Hrid _]. destruct (hl_good _ _ Hs _ _ Hr) as (Hres & _ & _).
  destruct (update_record lease_spec record_to_item lr_lease_id eq_refl lease_row_id (CExists "lease_id")
    (renew_actions e ttl) id r (with_expiry r e ttl) lm) as (attrs & _ & Hup);
    [done|done| |apply renew_actions_row|done|by apply lease_row_index|].
  { cbn. by rewrite (proj1 (lease_record_to_item_lookup r)), bool_decide_eq_true_2. }
  destruct (update_item_ok _ _ _ _ _ _ _ (hl_rows _ _ Hs) Hup) as [Hok Ht].
  unfold lease_key_item. change "lease_id" with (tp_hash lease_spec).
  destruct (update_item _ _ _ _ _) as [d res]. cbn in *. subst res. split; [done|].
  apply (lease_holds_write s lm); [done| | |done].
  - subst id. apply (filed_insert lr_lease_id lm (with_expiry r e ttl)); [apply Hs|done].
  - apply map_Forall_insert_2; [|apply Hs]. split_and!; [done|done|by eapply expiry_range..].
Qed.

Lemma cancel_holds s lm id :
  holds_leases s lm → id ≠ "" →
  (cancel s id).2 = Ok () ∧ holds_leases (cancel s id).1 (delete id lm).
Proof.
  intros Hs Hid. unfold cancel.
  pose proof (delete_record lease_spec record_to_item eq_refl None id lm Hid) as Hdel.
  destruct (delete_item_ok _ _ _ _ _ _ (hl_rows _ _ Hs) Hdel) as [Hok Ht].
  unfold lease_key_item. change "lease_id" with (tp_hash lease_spec).
  destruct (delete_item _ _ _ _) as [d res]. cbn in *. subst res. split; [done|].
  apply (lease_holds_write s lm); [done|by apply filed_delete, Hs|by apply map_Forall_delete, Hs|done].
Qed.

Lemma lease_remove_holds s lm r :
  holds_leases s lm → lr_lease_id r ≠ "" →
  match lm !! lr_lease_id r with
  | Some cur =>
      if decide (lr_expires_at cur = lr_expires_at r)
      then (remove_if_unchanged s r).2 = Ok true ∧
           holds_leases (remove_if_unchanged s r).1 (delete (lr_lease_id r) lm)
      else (remove_if_unchanged s r).2 = Ok false ∧ holds_leases (remove_if_unchanged s r).1 lm
  | None => (remove_if_unchanged s r).2 = Ok false ∧ holds_leases (remove_if_unchanged s r).1 lm
  end.
Proof.
  intros Hs Hid. unfold remove_if_unchanged, lease_key_item. change "lease_id" with (tp_hash lease_spec).
  pose proof (delete_record lease_spec record_to_item eq_refl
    (Some (CEqS "expires_at" (to_rfc3339 (lr_expires_at r)))) _ lm Hid) as Hdel.
  pose proof (delete_item_ok _ _ _ _ _ _ (hl_rows _ _ Hs) Hdel) as Hok.
  rewrite unchanged_check in Hok.
  destruct (lm !! lr_lease_id r) as [cur|] eqn:Hcur; [case_decide as Heq|].
  - rewrite bool_decide_eq_true_2 in Hok by done. destruct Hok as [Hok Ht].
    destruct (delete_item _ _ _ _) as [d res]. cbn in *. subst res. split; [done|].
    apply (lease_holds_write s lm); [done|by apply filed_delete, Hs|by apply map_Forall_delete, Hs|done].
  - rewrite bool_decide_eq_false_2 in Hok by done. destruct Hok as [Hok Ht].
    destruct (delete_item _ _ _ _) as [d res]. cbn in *. subst res. split; [done|]. by apply lease_holds_same.
  - destruct Hok as [Hok Ht]. destruct (delete_item _ _ _ _) as [d res]. cbn in *. subst res.
    split; [done|]. by apply lease_holds_same.
Qed.

Lemma get_by_resource_holds s lm rid :
  holds_leases s lm → rid ≠ "" →
  ∃ o, get_by_resource s rid = Ok o ∧
    match o with
    | Some r => ∃ id, lm !! id = Some r ∧ lr_resource_id r = rid
    | None => ∀ id r, lm !! id = Some r → lr_resource_id r ≠ rid
    end.
Proof.
  intros Hs Hrid. unfold get_by_resource.
  destruct (query_index_ok _ _ _ RESOURCE_GSI "resource_id" rid (hl_rows _ _ Hs) eq_refl Hrid)
    as (o & -> & Ho). destruct o as [it|]; cbn.
  - destruct Ho as [[k Hk] Hv]. apply record_rows_Some in Hk as (id & r & -> & -> & Hr).
    rewrite lease_row_resource in Hv. injection Hv as Hv. exists (Some r).
    rewrite lease_roundtrip by (by apply (hl_good _ _ Hs _ _ Hr)). split; [done|]. by exists id.
  - exists None. split; [done|]. intros id r Hr Heq. apply (Ho (hash_key id) (record_to_item r)).
    + apply record_rows_Some. by exists id, r.
    + by rewrite lease_row_resource, Heq.
Qed.

(** The expired leases are those the filter keeps and the record itself confirms. *)
Lemma list_expired_holds s lm clk :
  holds_leases s lm →
  ∃ l, list_expired s clk = Ok l ∧
    l ≡ₚ List.filter (λ r, is_expired (clk (lr_lease_id r)) r)
           (List.filter (λ r, cond_holds (expired_filter (timestamp (clk ""))) (record_to_item r))
              (map_to_list lm).*2).
Proof.
  intros Hs. destruct (scan_records lease_spec record_to_item lr_lease_id eq_refl lease_row_id _ _ _
    (Some (expired_filter (timestamp (clk "")))) (dl_scan_page_limit s) "scan" (expired_only clk)
    (λ r, if is_expired (clk (lr_lease_id r)) r then [r] else []) (hl_rows _ _ Hs) (hl_filed _ _ Hs)
    (hl_limit _ _ Hs)) as (out & Hout & Hp).
  { intros id r Hr _. unfold expired_only. rewrite lease_roundtrip by (by apply (hl_good _ _ Hs _ _ Hr)).
    done. }
  exists out. split; [done|]. rewrite Hp. cbn [passes].
  generalize (List.filter (λ r, cond_holds (expired_filter (timestamp (clk ""))) (record_to_item r))
    (map_to_list lm).*2). intros l. clear. induction l as [|r l IH]; cbn; [done|].
  destruct (is_expired _ r); cbn; by rewrite IH.
Qed.

Lemma list_expired_now s lm t :
  holds_leases s lm →
  ∃ l, list_expired s (λ _, t) = Ok l ∧ l ≡ₚ List.filter (is_expired t) (map_to_list lm).*2.
Proof.
  intros Hs. destruct (list_expired_holds s lm (λ _, t) Hs) as (l & -> & Hp). exists l.
  split; [done|]. rewrite Hp.
  assert (Hall : ∀ r, r ∈ (map_to_list lm).*2 → lease_storable r).
  { intros r ([id x] & -> & Hi)%list_elem_of_fmap. apply elem_of_map_to_list in Hi.
    by apply (hl_good _ _ Hs _ _ Hi). }
  clear -Hall RL CL. cut (∀ l : list LeaseRecord, (∀ r, r ∈ l → lease_storable r) →
    List.filter (is_expired t) (List.filter (λ r, cond_holds (expired_filter (timestamp t))
      (record_to_item r)) l) = List.filter (is_expired t) l); [intros H; by rewrite H|].
  clear Hall lm. intros l Hall. induction l as [|r l IH]; cbn [List.filter]; [done|].
  assert (Hr : lease_storable r) by (apply Hall; left).
  rewrite <- IH by (intros; apply Hall; by right).
  destruct (is_expired t r) eqn:He.
  - rewrite expired_passes; [|by destruct Hr as (_ & _ & ?)|done]. cbn. by rewrite He.
  - destruct (cond_holds _ _); cbn; by rewrite ?He.
Qed.

(** A listing made while the clock runs on returns every lease that had
    expired when the call began and none that had not when its row was read. *)
Lemma list_expired_window s lm clk :
  holds_leases s lm → (∀ id, clk "" ≤ clk id)%Z →
  ∃ l, list_expired s clk = Ok l ∧ ∀ r,
    (r ∈ l → lm !! lr_lease_id r = Some r ∧ is_expired (clk (lr_lease_id r)) r = true) ∧
    (lm !! lr_lease_id r = Some r → is_expired (clk "") r = true → r ∈ l).
Proof.
  intros Hs Hclk. destruct (list_expired_holds s lm clk Hs) as (l & -> & Hp). exists l.
  split; [done|]. intros r. rewrite Hp, !filter_bool_elem. split.
  - intros [[Hr _] He]. split; [|done]. apply list_elem_of_fmap in Hr as ([id x] & -> & Hi).
    apply elem_of_map_to_list in Hi. cbn. by destruct (hl_filed _ _ Hs _ _ Hi) as [-> _].
  - intros Hr He. split_and!.
    + apply list_elem_of_fmap. exists (lr_lease_id r, r). by rewrite elem_of_map_to_list.
    + apply expired_passes; [|done]. by apply (hl_good _ _ Hs _ _ Hr).
    + by eapply past_mono, He.
Qed.

(** The table holds exactly the leases of the other store. *)
Definition lease_sim s m : Prop := holds_leases s (ls_view m).

Lemma lease_apply_sim s m op :
  lease_sim s m → lease_op_valid op →
  lease_sim (ls_apply s op).1 (ls_apply m op).1 ∧
  same_lease_answer (ls_apply s op).2 (ls_apply m op).2.
Proof.
  unfold lease_sim. intros Hs Hv. destruct op as [t id rid ttl|t id ttl|id|id|rid|t|r];
    cbn [ls_apply ls_create ls_renew ls_cancel ls_get ls_get_by_resource ls_list_expired
         ls_remove_if_unchanged DynamoLeaseStore_store].
  - pose proof (lease_create_holds s _ t id rid ttl Hs Hv) as Hd. pose proof (ls_create_law m t id rid ttl) as Hm.
    destruct (ls_create m t id rid ttl) as [m' rm]. destruct (create s t id rid ttl) as [s' rs]. cbn in *.
    destruct (expiry_for t ttl); [destruct Hd as [-> Hd]|injection Hd as -> ->];
      destruct Hm as [-> ->]; done.
  - destruct Hv as [Hid Hu]. pose proof (renew_holds s _ t id ttl Hs Hid Hu) as Hd.
    pose proof (ls_renew_law m t id ttl) as Hm.
    destruct (ls_renew m t id ttl) as [m' rm]. destruct (renew s t id ttl) as [s' rs]. cbn in *.
    destruct (ls_view m !! id), (expiry_for t ttl).
    + destruct Hd as [-> Hd], Hm as [-> ->]. done.
    + destruct Hd as [Hd ->], Hm as [Hm ->]. by destruct rs, rm.
    + injection Hd as -> ->. destruct Hm as [-> ->]. done.
    + destruct Hd as [Hd ->], Hm as [Hm ->]. by destruct rs, rm.
  - destruct (cancel_holds s _ id Hs Hv) as [Hr Hd]. pose proof (ls_cancel_law m id) as Hm.
    destruct (ls_cancel m id) as [m' rm]. destruct (cancel s id) as [s' rs]. cbn in *.
    destruct Hm as [-> ->]. by subst.
  - split; [done|]. cbn. by rewrite (lease_get_holds _ _ _ Hs Hv), ls_get_law.
  - split; [done|]. cbn. destruct (get_by_resource_holds s _ rid Hs Hv) as (o1 & -> & H1).
    destruct (ls_get_by_resource_law m rid) as (o2 & -> & H2).
    destruct o1 as [r1|], o2 as [r2|]; naive_solver.
  - split; [done|]. cbn [snd]. destruct (list_expired_now s _ t Hs) as (l1 & -> & H1).
    destruct (ls_list_expired_law m (λ _, t)) as (l2 & -> & H2). cbn. by rewrite H1, H2.
  - pose proof (lease_remove_holds s _ r Hs Hv) as Hd. pose proof (ls_remove_if_unchanged_law m r) as Hm.
    destruct (ls_remove_if_unchanged m r) as [m' rm].
    destruct (remove_if_unchanged s r) as [s' rs]. cbn in *.
    destruct (ls_view m !! lr_lease_id r); [case_decide|]; destruct Hd as [-> Hd], Hm as [-> ->]; done.
Qed.

(** The DynamoDB lease store and the in-memory one are
    interchangeable.  Starting from a table and a store with the same leases, any
    sequence of grants, renewals, cancellations, lookups, expired listings and
    conditional removals gives the same answers (up to the wording of an error,
    the order of a listing and the choice among several leases of one resource)
    and ends with the same leases, on a database that serves its calls and whose
    reads have caught up. *)
Theorem dynamo_lease_agrees s m ops :
  lease_sim s m → Forall lease_op_valid ops →
  lease_sim (run_calls ls_apply s ops).1 (run_calls ls_apply m ops).1 ∧
  Forall2 same_lease_answer (run_calls ls_apply s ops).2 (run_calls ls_apply m ops).2.
Proof.
  intros Hs Hv. apply (run_calls_agree _ _ (λ _, lease_op_valid)); [apply lease_apply_sim|done|].
  by apply calls_valid_forall.
Qed.
End agreement.

(** ** The contract kept by a database that fails and lags *)
Section safe.
Context {C : Chrono} {R : Rfc3339} {RL : Rfc3339Laws R}.
Context {D : Type} {DB : Dynamo D} {DV : DynamoView D} {DL : DynamoLaws D}.
Implicit Types (s : DynamoLeaseStore D) (lm : lease_map).

Definition ttl_u64 (r : LeaseRecord) : Prop := is_u64 (lr_ttl_seconds r).

Abbreviation stored_leases s lm :=
  (stored lease_spec record_to_item lr_lease_id ttl_u64 (dl_client s) (dl_table_name s) lm).

(** The leases in the table, as they are at this moment. *)
#[global] Instance DynamoLeaseStore_view : LeaseStoreView (DynamoLeaseStore D) := λ s,
  record_view lr_lease_id record_from_item (dl_client s) (dl_table_name s).

(** The table is one this store wrote. *)
Definition lease_store_ok s : Prop := ∃ lm, stored_leases s lm.

Lemma stored_leases_view s lm : stored_leases s lm → ls_view s = lm.
Proof. apply stored_view. exact lease_roundtrip. Qed.

Lemma create_safe s t id rid ttl :
  lease_store_ok s → is_u64 ttl →
  let '(s', res) := create s t id rid ttl in
  lease_store_ok s' ∧ effect res (ls_view s' = ls_view s)
    (∃ e, expiry_for t ttl = Ok e ∧ ls_view s' = <[id := mkLease id rid t e ttl]> (ls_view s)).
Proof.
  intros [lm Hs] Hu. unfold create. destruct (expiry_for t ttl) as [e|] eqn:He; [|by split; [exists lm|left]].
  set (r := mkLease id rid t e ttl).
  pose proof (put_item_law (dl_client s) (dl_table_name s) None (record_to_item r)) as Hw.
  destruct (put_item _ _ _ _) as [d res].
  eapply (write_safe _ _ _ _ _ lease_roundtrip _ _ lm _ (λ v, ∃ e', Ok e = Ok e' ∧
    v = <[id := mkLease id rid t e' ttl]> (ls_view s)) _ _ Hs Hw); [|by destruct res].
  intros tb' b (m' & ? & ? & ? & -> & _)%(put_takes lease_spec record_to_item lr_lease_id ttl_u64 eq_refl lease_row_id);
    [|apply Hs..|done]. exists (<[id := r]> lm). rewrite (stored_leases_view _ _ Hs). eauto 8.
Qed.

Lemma renew_safe s t id ttl :
  lease_store_ok s → is_u64 ttl →
  let '(s', res) := renew s t id ttl in
  lease_store_ok s' ∧ effect res (ls_view s' = ls_view s)
    (∃ r e, ls_view s !! id = Some r ∧ expiry_for t ttl = Ok e ∧
       ls_view s' = <[id := with_expiry r e ttl]> (ls_view s)).
Proof.
  intros [lm Hs] Hu. unfold renew.
  destruct (get s id) as [[old|]|]; [|by split; [exists lm|left]..].
  destruct (expiry_for t ttl) as [e|] eqn:He; [|by split; [exists lm|left]].
  pose proof (update_item_law (dl_client s) (dl_table_name s) (Some (CExists "lease_id"))
    (lease_key_item id) (renew_actions e ttl)) as Hw.
  destruct (update_item _ _ _ _ _) as [d res].
  eapply (write_safe _ _ _ _ _ lease_roundtrip _ _ lm _ (λ v, ∃ r e', ls_view s !! id = Some r ∧
    Ok e = Ok e' ∧ v = <[id := with_expiry r e' ttl]> (ls_view s)) _ _ Hs Hw); [|by destruct res as [|[]]].
  intros tb' b (m' & ? & ? & ? & r & Hr & _ & ->)%(update_takes lease_spec record_to_item lr_lease_id ttl_u64 eq_refl _ _ lm id
    (λ r, with_expiry r e ttl)); [|apply Hs..|done|intros; apply renew_actions_row|done|done].
  exists (<[id := with_expiry r e ttl]> lm). rewrite (stored_leases_view _ _ Hs). eauto 9.
Qed.

Lemma cancel_safe s id :
  lease_store_ok s →
  let '(s', res) := cancel s id in
  lease_store_ok s' ∧ effect res (ls_view s' = ls_view s) (ls_view s' = delete id (ls_view s)).
Proof.
  intros [lm Hs]. unfold cancel.
  pose proof (delete_item_law (dl_client s) (dl_table_name s) None (lease_key_item id)) as Hw.
  destruct (delete_item _ _ _ _) as [d res].
  eapply (write_safe _ _ _ _ _ lease_roundtrip _ _ lm _ (λ v, v = delete id (ls_view s)) _ _ Hs Hw);
    [|by destruct res].
  intros tb' b (m' & ? & ? & ? & -> & _)%(delete_takes lease_spec record_to_item lr_lease_id ttl_u64 eq_refl); [|apply Hs..].
  exists (delete id lm). by rewrite (stored_leases_view _ _ Hs).
Qed.

Lemma remove_safe s r :
  lease_store_ok s →
  let '(s', res) := remove_if_unchanged s r in
  let removed := ∃ cur, ls_view s !! lr_lease_id r = Some cur ∧
    lr_expires_at cur = lr_expires_at r ∧ ls_view s' = delete (lr_lease_id r) (ls_view s) in
  lease_store_ok s' ∧ match res with
                      | Ok true => removed
                      | Ok false => ls_view s' = ls_view s
                      | Err _ => ls_view s' = ls_view s ∨ removed
                      end.
Proof.
  intros [lm Hs]. unfold remove_if_unchanged.
  pose proof (delete_item_law (dl_client s) (dl_table_name s)
    (Some (CEqS "expires_at" (to_rfc3339 (lr_expires_at r)))) (lease_key_item (lr_lease_id r))) as Hw.
  destruct (delete_item _ _ _ _) as [d res].
  destruct (write_effect _ _ _ _ _ lease_roundtrip _ _ lm _ (λ v, ∃ cur, ls_view s !! lr_lease_id r =
    Some cur ∧ lr_expires_at cur = lr_expires_at r ∧ v = delete (lr_lease_id r) (ls_view s)) _ Hs Hw)
    as [Hok He].
  - intros tb' b (m' & ? & ? & ? & -> & Hc)%(delete_takes lease_spec record_to_item lr_lease_id ttl_u64 eq_refl); [|apply Hs..].
    exists (delete (lr_lease_id r) lm). rewrite (stored_leases_view _ _ Hs).
    rewrite unchanged_check in Hc. destruct (lm !! lr_lease_id r) as [cur|]; [|done].
    apply bool_decide_eq_true in Hc. eauto 9.
  - split; [done|]. by destruct res as [|[]].
Qed.

#[global] Instance DynamoLeaseStore_safe : LeaseStoreSafe (DynamoLeaseStore D) lease_store_ok.
Proof.
  split.
  - exact create_safe.
  - exact renew_safe.
  - exact cancel_safe.
  - intros s clk l r _ Hl Hr. unfold ls_list_expired, DynamoLeaseStore_store, list_expired, scan_decoded in Hl.
    destruct (page_loop_elem _ _ _ _ _ _ _ Hl r Hr) as [[]%elem_of_nil|(it & l' & Hd & Hin)].
    unfold expired_only in Hd. destruct (record_from_item it) as [x|]; cbn in Hd; [|done].
    injection Hd as <-. destruct (is_expired _ x) eqn:He; [|by apply elem_of_nil in Hin].
    by apply list_elem_of_singleton in Hin as ->.
  - exact remove_safe.
Qed.

(** C9: Whatever calls fail and however far its reads lag, the DynamoDB
    lease store keeps the contract the reaper's safety rests on: an answered call
    did what it says, a failed one did that or nothing, a renewal extends the
    lease as it stands and never resurrects a removed one, the conditional
    removal takes only a lease whose expiry is still the one that was listed, and
    nothing is listed as expired that is not. *)
Theorem dynamo_lease_store_safe : LeaseStoreSafe (DynamoLeaseStore D) lease_store_ok.
Proof. exact DynamoLeaseStore_safe. Qed.
End safe.

(** The reaper over DynamoDB.  In every interleaving of clients with
    the reaper, with writes that fail and reads that lag, a lease leaves the table
    only because it was cancelled or because the row as it stood was expired. *)
Corollary dynamo_reaper_keeps_live_leases {C : Chrono} {R : Rfc3339} {RL : Rfc3339Laws R}
    {D : Type} {DB : Dynamo D} {DV : DynamoView D} {DL : DynamoLaws D}
    (st st' : RState (S := DynamoLeaseStore D)) l id r :
  rreach (ok := lease_store_ok) st → rstep st l st' →
  ls_view (rs_store st) !! id = Some r → ls_view (rs_store st') !! id = None →
  l = LCancel id ∨ (l = LRemove ∧ is_expired (rs_clock st) r = true).
Proof.
  intros Hr Hs. eapply lease_leaves; [by apply RInv_reach|done].
Qed.

(** ** Concrete runs *)
Section samples.
#[local] Existing Instance chrono_sample.
#[local] Existing Instance rfc_sample.
#[local] Existing Instance canonical_iter.
#[local] Existing Instance chrono_sample_laws.
#[local] Existing Instance rfc_sample_laws.

Definition toy_lease_db : ToyDb :=
  {| toy_tables := {["leases" := mkTable lease_spec ∅]}; toy_page := 0 |}.

Definition toy_leases : DynamoLeaseStore ToyDb := with_table toy_lease_db "leases".

Lemma toy_lease_sim : lease_sim toy_leases LeaseStore.new.
Proof.
  split; cbn; [|intros i a; by rewrite lookup_empty|apply map_Forall_empty|done].
  by rewrite record_table_empty.
Qed.

(** Lease [a] for 5 s, [b] for ever; at 20 s [a] is renewed; at 30 s it is listed
    and removed. *)
Definition toy_lease_ops : list LeaseOp :=
  [OpCreate 0 "a" "registry:x" 5; OpCreate 0 "b" "registry:y" LEASE_FOREVER; OpGet "a";
   OpGetByResource "registry:y"; OpListExpired 10000000000; OpRenew 20000000000 "a" 5;
   OpRemoveIfUnchanged (mkLease "a" "registry:x" 0 5000000000 5);
   OpListExpired 30000000000;
   OpRemoveIfUnchanged (mkLease "a" "registry:x" 0 25000000000 5); OpGet "a"; OpRenew 0 "a" 5;
   OpCancel "b"; OpListExpired 30000000000].

Theorem dynamo_lease_agrees_witness :
  lease_sim toy_leases LeaseStore.new ∧
  (run_calls ls_apply toy_leases toy_lease_ops).2 =
    (run_calls ls_apply LeaseStore.new toy_lease_ops).2 ∧
  Forall2 same_lease_answer (run_calls ls_apply toy_leases toy_lease_ops).2
    (run_calls ls_apply LeaseStore.new toy_lease_ops).2.
Proof.
  split; [exact toy_lease_sim|]. split; [vm_compute; reflexivity|].
  apply (dynamo_lease_agrees toy_leases LeaseStore.new toy_lease_ops toy_lease_sim).
  unfold toy_lease_ops. repeat constructor; try discriminate; by_compute.
Defined.

(** A database that refuses to delete lease [b] and whose reads are up to date
    with the writes made before it began to fail. *)
Definition two_leases : DynamoLeaseStore ToyDb :=
  (run_calls ls_apply toy_leases [OpCreate 0 "a" "registry:x" 5; OpCreate 0 "b" "registry:y" 5]).1.

Definition flaky_leases : DynamoLeaseStore FlakyDb :=
  with_table {| fl_now := dl_client two_leases; fl_read := dl_client two_leases;
                fl_faults := λ _ item, bool_decide (get_s item "lease_id" = Some "b") |} "leases".

(** The contract holds of it, and shows in what becomes of lease [a]. *)
Theorem dynamo_lease_store_safe_witness :
  LeaseStoreSafe (DynamoLeaseStore FlakyDb) lease_store_ok ∧
  (remove_if_unchanged flaky_leases (mkLease "b" "registry:y" 0 5000000000 5)).2 =
    Err (Storage "delete_item failed: throttled") ∧
  (remove_if_unchanged flaky_leases (mkLease "a" "registry:x" 0 5000000000 5)).2 = Ok true.
Proof.
  split; [apply dynamo_lease_store_safe|]. split; vm_compute; reflexivity.
Defined.

(** A failed removal loses the announcements of those before it: [drain_expired]
    returns the error and not the leases it has already removed.  Both leases are
    expired, the table refuses to delete the second; the first is gone from it
    and nothing is broadcast, in this tick or in the next. *)
Theorem failed_removal_loses_reclaims :
  let m := {| lm_store := flaky_leases; lm_config := LeaseConfig_default; lm_expiry_tx := [] |} in
  let late := λ _ : string, 10000000000%Z in
  let m' := run_reaper m [late; late] in
  is_Some (ls_view (lm_store m) !! "a") ∧ ls_view (lm_store m') !! "a" = None ∧ lm_expiry_tx m' = [].
Proof. split_and!; [eexists; vm_compute; reflexivity|vm_compute; reflexivity..]. Qed.
End samples.
