(* ===== verification/DynamoTtl.v ===== *)
(** * DynamoDB's own expiry of lease rows
    ([ensure_lease_table] of [providers/dynamo/src/table.rs], [ttl_epoch] of
    [lease_store.rs])

    The lease table has native TTL enabled on the attribute [ttl]: DynamoDB drops
    a row by itself at some time after the epoch second that attribute holds, and
    tells nobody.  Here such deletions happen at any moment, beside the clients
    and the reaper of [LeaseManager]. *)

From S2P Require Import Prelude CoreTypes LeaseCore LeaseStore LeaseManager Dynamo DynamoCodec DynamoSample DynamoLease.
From S2P Require Import LeaseService Matcher RegistryStore RegistryService Sweep.

(** ** The deletion of a row *)
Section ttl.
Context {C : Chrono} {CL : ChronoLaws C} {R : Rfc3339} {RL : Rfc3339Laws R}.
Context {D : Type} {DB : Dynamo D} {DV : DynamoView D} {DL : DynamoLaws D}.

(** DynamoDB may drop a row at time [t]. *)
Definition ttl_due (t : Z) (item : Item) : bool :=
  match item !! "ttl" ≫= number with Some n => (n <=? timestamp t)%Z | None => false end.

Definition ttl_deletes (t : Z) (table : string) (d d' : D) : Prop :=
  ∃ tb k item, tables d !! table = Some tb ∧ tb_rows tb !! k = Some item ∧ ttl_due t item = true ∧
    tables d' = <[table := del_row tb k]> (tables d).

Abbreviation Store := (DynamoLeaseStore D).
Abbreviation St := (RState (S := Store)).
Implicit Types (s : Store) (st : St).

(** A step of the clients or the reaper, or a deletion by DynamoDB. *)
Inductive NLabel := NRun (l : RLabel) | NTtl.

Inductive nstep : St → NLabel → St → Prop :=
| N_run st l st' : rstep st l st' → nstep st (NRun l) st'
| N_ttl s t p rm lg d' :
    ttl_deletes t (dl_table_name s) (dl_client s) d' →
    nstep (Build_RState s t p rm lg) NTtl (Build_RState (set_client s d') t p rm lg).

Inductive nreach : St → Prop :=
| N_init s t : lease_store_ok s → ls_view s = ∅ → (t < MAX_UTC)%Z → nreach (Build_RState s t [] [] [])
| N_step st l st' : nreach st → nstep st l st' → nreach st'.

(** ** What it does to the leases *)
Definition in_utc (r : LeaseRecord) : Prop := (MIN_UTC ≤ lr_expires_at r ≤ MAX_UTC)%Z.

Lemma expiry_in_utc t ttl e : expiry_for t ttl = Ok e → (MIN_UTC ≤ e ≤ MAX_UTC)%Z.
Proof.
  pose proof utc_range. unfold expiry_for, checked_expiry. destruct (_ =? _)%Z; [intros [= <-]; lia|].
  destruct (i64_try_from ttl); [|done]. destruct (try_seconds z); [|done].
  rewrite checked_add_law. case_bool_decide; [|done]. by intros [= <-].
Qed.

Lemma rstep_in_utc st l st' :
  RInv (ok := lease_store_ok) st → rstep st l st' → map_Forall (λ _, in_utc) (ls_view (rs_store st)) →
  map_Forall (λ _, in_utc) (ls_view (rs_store st')).
Proof.
  intros [Hok _ _ _ _ _] Hs Hu. destruct Hs as [|s t p rm lg id rid ttl s' res Hu64 Hc|s t p rm lg id ttl s' res Hu64 Hc
    |s t p rm lg id o s' res _ Hc|s t lg clk l Hclk Hc|s t r p rm lg s' b Hc|s t r p rm lg s' e Hc|];
    cbn [rs_store] in *; try done.
  - pose proof (safe_create s t id rid ttl Hok Hu64) as Hl. rewrite Hc in Hl.
    destruct Hl as [_ [->|(e & He & ->)]%effect_either]; [done|].
    apply map_Forall_insert_2; [|done]. by eapply expiry_in_utc.
  - pose proof (safe_renew s t id ttl Hok Hu64) as Hl. rewrite Hc in Hl.
    destruct Hl as [_ [->|(r & e & _ & He & ->)]%effect_either]; [done|].
    apply map_Forall_insert_2; [|done]. by eapply expiry_in_utc.
  - pose proof (safe_cancel s id Hok) as Hl. rewrite Hc in Hl.
    destruct Hl as [_ [->| ->]%effect_either]; [done|by apply map_Forall_delete].
  - pose proof (safe_remove_if_unchanged s r Hok) as Hl. rewrite Hc in Hl.
    destruct Hl as [_ Hl]. destruct b; [|by rewrite Hl]. destruct Hl as (cur & _ & _ & ->). by apply map_Forall_delete.
  - pose proof (safe_remove_if_unchanged s r Hok) as Hl. rewrite Hc in Hl.
    destruct Hl as [_ [->|(cur & _ & _ & ->)]]; [done|by apply map_Forall_delete].
Qed.

(** A deletion takes one lease, which has been expired for the grace period. *)
Lemma ttl_effect s t d' :
  lease_store_ok s → map_Forall (λ _, in_utc) (ls_view s) → ttl_deletes t (dl_table_name s) (dl_client s) d' →
  lease_store_ok (set_client s d') ∧
  ∃ id r, ls_view s !! id = Some r ∧ ls_view (set_client s d') = delete id (ls_view s) ∧
    is_expired (t - 3599 * nanos_per_sec) r = true.
Proof.
  intros [lm Hs] Hu (tb & k & it & Htb & Hk & Hdue & Hd').
  rewrite (stored_leases_view _ _ Hs) in *. destruct Hs as [Hrows Hf Hg]. rewrite Hrows in Htb. injection Htb as <-.
  apply rows_of_Some in Hk as (id & r & -> & -> & Hr); [|apply _].
  assert (Hs' : stored lease_spec record_to_item lr_lease_id ttl_u64 d' (dl_table_name s) (delete id lm)).
  { split.
    - rewrite Hd', lookup_insert_eq. unfold del_row, record_table. cbn. by rewrite rows_of_delete by apply _.
    - intros i a [_ Ha]%lookup_delete_Some. by apply Hf.
    - by apply map_Forall_delete. }
  split; [by exists (delete id lm)|]. exists id, r. split; [done|]. split.
  { by apply (stored_leases_view (set_client s d')). }
  unfold ttl_due in Hdue. destruct (record_to_item r !! "ttl" ≫= number) as [n|] eqn:En; [|done].
  apply Z.leb_le in Hdue. eapply native_ttl_trails_expiry; [by apply (Hu id)|done|done].
Qed.

Lemma ninv st :
  nreach st → RInv (ok := lease_store_ok) st ∧ map_Forall (λ _, in_utc) (ls_view (rs_store st)).
Proof.
  induction 1 as [s t Hok Hv Ht|st l st' _ [Hi Hu] Hs].
  { split; [apply RInv_reach; by constructor|]. cbn. rewrite Hv. apply map_Forall_empty. }
  destruct Hs as [st l st' Hs|s t p rm lg d' Hd].
  - split; [by eapply RInv_step|by eapply rstep_in_utc].
  - destruct Hi as [Hok Hl Hc Hp Hr Hg]. cbn in *.
    destruct (ttl_effect s t d' Hok Hu Hd) as (Hok' & id & r & _ & Hv & _).
    split; [split; cbn; try done|cbn]; rewrite Hv; by apply map_Forall_delete.
Qed.

(** C10: Native expiry costs nobody a lease.  In every interleaving of
    clients, the reaper and DynamoDB's own deletions, with calls that fail and
    reads that lag, a lease leaves the table only because it was cancelled,
    because the reaper removed it when the row as it stood was expired, or because
    DynamoDB dropped it when it had been expired for the best part of the hour of
    grace; and what the reaper announces as expired is. *)
Theorem native_ttl_keeps_live_leases st l st' id r :
  nreach st → nstep st l st' →
  ls_view (rs_store st) !! id = Some r → ls_view (rs_store st') !! id = None →
  (l = NRun (LCancel id) ∨ (l = NRun LRemove ∧ is_expired (rs_clock st) r = true) ∨
   (l = NTtl ∧ is_expired (rs_clock st - 3599 * nanos_per_sec) r = true)) ∧
  Forall (λ e, rc_reason e = Expired → is_expired (rs_clock st) (rc_record e) = true) (rs_log st).
Proof.
  intros Hr Hs Hin Hout. destruct (ninv st Hr) as [Hi Hu]. split; [|apply Hi].
  destruct Hs as [st l st' Hs|s t p rm lg d' Hd].
  - destruct (lease_leaves st l st' id r Hi Hs Hin Hout) as [->|[-> ?]]; auto.
  - cbn in *. destruct (ttl_effect s t d' (ri_ok _ Hi) Hu Hd) as (_ & id' & r' & Hr' & Hv & He).
    rewrite Hv in Hout. apply lookup_delete_None in Hout as [->|?]; [|congruence]. simplify_eq. auto.
Qed.
End ttl.

(** ** A concrete run *)
Section samples.
#[local] Existing Instance chrono_sample.
#[local] Existing Instance chrono_sample_laws.
#[local] Existing Instance rfc_sample.
#[local] Existing Instance rfc_sample_laws.
#[local] Existing Instance canonical_iter.
#[local] Existing Instance canonical_siter.

Definition lease_a : LeaseRecord := mkLease "a" "registry:x" 0 5000000000 5.

(** Lease [a] for five seconds; four thousand seconds later the reaper has not
    run and DynamoDB drops the row. *)
Definition one_lease : DynamoLeaseStore ToyDb := (create toy_leases 0 "a" "registry:x" 5).1.
Definition late : Z := 4000000000000.
Definition dropped : DynamoLeaseStore ToyDb :=
  set_client one_lease {| toy_tables := {["leases" := mkTable lease_spec ∅]}; toy_page := 0 |}.

Lemma one_lease_reach : nreach (Build_RState one_lease late [] [] []).
Proof.
  apply (N_step (Build_RState one_lease 0 [] [] []) (NRun LTick)); [|constructor; constructor; by_compute].
  apply (N_step (Build_RState toy_leases 0 [] [] []) (NRun (LCreate "a"))).
  - constructor; [|vm_compute; reflexivity|by_compute].
    exists ∅. split; [by rewrite record_table_empty|intros i a; by rewrite lookup_empty|apply map_Forall_empty].
  - constructor. apply (R_create toy_leases 0 [] [] [] "a" "registry:x" 5 one_lease (create toy_leases 0 "a" "registry:x" 5).2);
      [by_compute|apply surjective_pairing].
Qed.

Lemma drop_step :
  nstep (Build_RState one_lease late [] [] []) NTtl (Build_RState dropped late [] [] []).
Proof.
  constructor. exists (record_table lease_spec record_to_item {["a" := lease_a]}), (hash_key "a"), (record_to_item lease_a).
  split_and!; vm_compute; reflexivity.
Qed.

Theorem native_ttl_keeps_live_leases_witness :
  ls_view dropped !! "a" = None ∧ is_expired (late - 3599 * nanos_per_sec) lease_a = true.
Proof.
  split; [vm_compute; reflexivity|].
  destruct (native_ttl_keeps_live_leases _ _ _ "a" lease_a one_lease_reach drop_step) as [[?|[[? _]|[_ He]]] _];
    [vm_compute; reflexivity|vm_compute; reflexivity|discriminate|discriminate|exact He].
Defined.

(** The drop is silent: the reaper finds nothing to announce, and it is the
    orphan sweep that removes the entry behind the lease, in its second pass. *)
Definition entry_x : RegistryEntry := mkEntry "x" "a" "Greeter" ∅ None.

Definition swept (n : nat) : RegistryService InMemoryRegistryStore () :=
  let leases := {| lm_store := dropped; lm_config := LeaseConfig_default; lm_expiry_tx := [] |} in
  let pass s := (sweep_once registry_reclaim s.1 s.2 (rmap (observe leases) (registry_held (rv_store s.2)))).1 in
  (Nat.iter n pass (tracker_default,
    {| rv_store := (rg_insert RegistryStore.new entry_x).1; rv_leases := (); rv_event_tx := [];
       rv_grantor := {| grantor_host := ""; grantor_port := 0 |} |})).2.

Theorem dropped_lease_swept :
  lm_expiry_tx (reaper_tick {| lm_store := dropped; lm_config := LeaseConfig_default; lm_expiry_tx := [] |} (λ _, late)) = [] ∧
  rg_list_all (rv_store (swept 1)) = Ok [entry_x] ∧ rg_list_all (rv_store (swept 2)) = Ok [] ∧
  rv_event_tx (swept 2) = [{| ev_type := 1; ev_entry := entry_x |}].
Proof. split_and!; vm_compute; reflexivity. Qed.
End samples.
