(* ===== verification/DynamoTxn.v ===== *)
(** * The DynamoDB transaction store ([providers/dynamo/src/txn_store.rs])

    One row per transaction; the compare-and-set on the state and the guarded
    append of a participant are conditional updates of that row.

    On a healthy database the store answers as the in-memory one does.  Whatever
    fails or lags, a conditional update still decides: of the transitions out of
    one state at most one is answered as made. *)

From S2P Require Import Prelude CoreTypes TxnStore Dynamo DynamoCodec DynamoSample.

(** ** Rows *)
Definition state_to_str (state : TransactionState) : string :=
  match state with
  | Active => "Active"
  | Voting => "Voting"
  | Prepared => "Prepared"
  | Committed => "Committed"
  | Aborted => "Aborted"
  end.

Definition state_from_str (s : string) : result TransactionState Error :=
  if String.eqb s "Active" then Ok Active
  else if String.eqb s "Voting" then Ok Voting
  else if String.eqb s "Prepared" then Ok Prepared
  else if String.eqb s "Committed" then Ok Committed
  else if String.eqb s "Aborted" then Ok Aborted
  else Err (Storage ("unknown transaction state: " +:+ s)).

Definition participant_to_av (p : ParticipantRecord) : AttributeValue :=
  AM (<["crash_count" := AN (pretty (pt_crash_count p))]> {["endpoint" := AS (pt_endpoint p)]}).

Definition participant_from_av (av : AttributeValue) : result ParticipantRecord Error :=
  let? map := ok_or (Storage "participant is not a map") (as_m av) in
  let? endpoint := ok_or (Storage "missing participant endpoint") (get_s map "endpoint") in
  let? count := ok_or (Storage "missing participant crash_count") (get_n map "crash_count") in
  let? crash_count := ok_or (Storage ("bad crash_count: " +:+ parse_int_error count)) (parse_u64 count) in
  Ok {| pt_endpoint := endpoint; pt_crash_count := crash_count |}.

Definition participants_to_av (participants : list ParticipantRecord) : AttributeValue :=
  AL (participant_to_av <$> participants).

(** [iter().map(f).collect::<Result<Vec<_>, _>>()]. *)
Fixpoint collect_results {A B} (f : A → result B Error) (l : list A) : result (list B) Error :=
  match l with
  | [] => Ok []
  | a :: l =>
      let? b := f a in
      let? bs := collect_results f l in
      Ok (b :: bs)
  end.

Record DynamoTxnStore (D : Type) := { dt_client : D; dt_table_name : string }.
Arguments dt_client {D} _.
Arguments dt_table_name {D} _.

Section store.
Context {R : Rfc3339}.

Definition record_from_item (item : Item) : result TransactionRecord Error :=
  let? txn_id := need_s item "txn_id" in
  let? lease_id := need_s item "lease_id" in
  let? state := rbind (need_s item "state") state_from_str in
  let? begun_at := need_time item "begun_at" in
  let? participants :=
    match item !! "participants" with
    | Some (AL l) => collect_results participant_from_av l
    | _ => Ok []
    end in
  Ok (mkTxn txn_id lease_id state participants begun_at).

(** The row [create] puts. *)
Definition record_to_item (record : TransactionRecord) : Item :=
  <["participants" := participants_to_av (tx_participants record)]>
    (<["begun_at" := AS (to_rfc3339 (tx_begun_at record))]>
      (<["state" := AS (state_to_str (tx_state record))]>
        (<["lease_id" := AS (tx_lease_id record)]>
          (<["txn_id" := AS (tx_txn_id record)]> ∅)))).

Context {D : Type} {DB : Dynamo D} {DV : DynamoView D}.
Implicit Types (s : DynamoTxnStore D).

Definition with_table (client : D) (table_name : string) : DynamoTxnStore D :=
  {| dt_client := client; dt_table_name := table_name |}.

Definition new (client : D) : DynamoTxnStore D := with_table client TXN_TABLE.

Definition set_client s (d : D) : DynamoTxnStore D := with_table d (dt_table_name s).

Definition init (env : string → option string) s : DynamoTxnStore D * result unit Error :=
  let '(d, r) := init_tables env (dt_client s) [λ d, ensure_txn_table d (dt_table_name s)] in
  (set_client s d, r).

Definition txn_key_item (txn_id : string) : Item := {["txn_id" := AS txn_id]}.

Definition create s (record : TransactionRecord) : DynamoTxnStore D * result unit Error :=
  let '(d, r) := put_item (dt_client s) (dt_table_name s) None (record_to_item record) in
  (set_client s d, map_err (sdk_storage "put_item") r).

Definition get s (txn_id : string) : result (option TransactionRecord) Error :=
  let? o := map_err (sdk_storage "get_item")
              (get_item (dt_client s) (dt_table_name s) (txn_key_item txn_id)) in
  match o with None => Ok None | Some item => rmap Some (record_from_item item) end.

Definition update_state s (txn_id : string) (state : TransactionState)
  : DynamoTxnStore D * result unit Error :=
  let '(d, r) := update_item (dt_client s) (dt_table_name s) (Some (CExists "txn_id"))
                   (txn_key_item txn_id) [USet "state" (AS (state_to_str state))] in
  (set_client s d,
   match r with
   | Ok _ => Ok ()
   | Err ConditionalCheckFailed => Err (TransactionNotFound txn_id)
   | Err e => Err (sdk_storage "update_item" e)
   end).

Definition update_state_if s (txn_id : string) (expected new_state : TransactionState)
  : DynamoTxnStore D * result bool Error :=
  let '(d, r) := update_item (dt_client s) (dt_table_name s)
                   (Some (CEqS "state" (state_to_str expected)))
                   (txn_key_item txn_id) [USet "state" (AS (state_to_str new_state))] in
  let s := set_client s d in
  (s,
   match r with
   | Ok _ => Ok true
   | Err ConditionalCheckFailed =>
       match get s txn_id with
       | Ok (Some _) => Ok false
       | Ok None => Err (TransactionNotFound txn_id)
       | Err e => Err e
       end
   | Err e => Err (sdk_storage "update_item" e)
   end).

Definition add_participant s (txn_id : string) (participant : ParticipantRecord)
  : DynamoTxnStore D * result unit Error :=
  let '(d, r) := update_item (dt_client s) (dt_table_name s)
                   (Some (CEqS "state" (state_to_str Active)))
                   (txn_key_item txn_id) [UAppend "participants" [participant_to_av participant]] in
  let s := set_client s d in
  (s,
   match r with
   | Ok _ => Ok ()
   | Err ConditionalCheckFailed =>
       match get s txn_id with
       | Ok (Some _) => Err (TransactionTerminal txn_id)
       | Ok None => Err (TransactionNotFound txn_id)
       | Err e => Err e
       end
   | Err e => Err (sdk_storage "update_item" e)
   end).

Definition remove s (txn_id : string) : DynamoTxnStore D * result unit Error :=
  let '(d, r) := delete_item (dt_client s) (dt_table_name s) None (txn_key_item txn_id) in
  (set_client s d, rmap (λ _, ()) (map_err (sdk_storage "delete_item") r)).

Definition list_all s : result (list TransactionRecord) Error :=
  scan_decoded (dt_client s) (dt_table_name s) None None "scan" (one record_from_item).

#[global] Instance DynamoTxnStore_store : TxnStore (DynamoTxnStore D) := {|
  ts_create := create;
  ts_get := get;
  ts_update_state := update_state;
  ts_update_state_if := update_state_if;
  ts_add_participant := add_participant;
  ts_remove := remove;
  ts_list_all := list_all
|}.
End store.

(** ** Store calls *)
Inductive TxnOp :=
| OpCreate (record : TransactionRecord)
| OpGet (txn_id : string)
| OpUpdateState (txn_id : string) (state : TransactionState)
| OpUpdateStateIf (txn_id : string) (expected new_state : TransactionState)
| OpAddParticipant (txn_id : string) (p : ParticipantRecord)
| OpRemove (txn_id : string)
| OpListAll.

Inductive TxnRes :=
| ResUnit (r : result unit Error)
| ResGet (r : result (option TransactionRecord) Error)
| ResCas (r : result bool Error)
| ResAll (r : result (list TransactionRecord) Error).

Definition ts_apply {S} `{TxnStore S} (s : S) (op : TxnOp) : S * TxnRes :=
  match op with
  | OpCreate r => let '(s', x) := ts_create s r in (s', ResUnit x)
  | OpGet id => (s, ResGet (ts_get s id))
  | OpUpdateState id st => let '(s', x) := ts_update_state s id st in (s', ResUnit x)
  | OpUpdateStateIf id e n => let '(s', x) := ts_update_state_if s id e n in (s', ResCas x)
  | OpAddParticipant id p => let '(s', x) := ts_add_participant s id p in (s', ResUnit x)
  | OpRemove id => let '(s', x) := ts_remove s id in (s', ResUnit x)
  | OpListAll => (s, ResAll (ts_list_all s))
  end.

(** Equal answers, up to the order of a listing. *)
Definition same_txn_answer (a b : TxnRes) : Prop :=
  match a, b with
  | ResAll (Ok l1), ResAll (Ok l2) => l1 ≡ₚ l2
  | _, _ => a = b
  end.

(** What callers pass: ids that are not empty and [u64] crash counts. *)
Definition txn_op_valid (op : TxnOp) : Prop :=
  match op with
  | OpCreate r => tx_txn_id r ≠ "" ∧ participants_u64 r
  | OpAddParticipant id p => id ≠ "" ∧ is_u64 (pt_crash_count p)
  | OpGet id | OpUpdateState id _ | OpUpdateStateIf id _ _ | OpRemove id => id ≠ ""
  | OpListAll => True
  end.

(** ** Round trip of rows *)
Lemma state_roundtrip st : state_from_str (state_to_str st) = Ok st.
Proof. by destruct st. Qed.

Lemma state_to_str_inj st1 st2 : state_to_str st1 = state_to_str st2 → st1 = st2.
Proof.
  intros Heq. pose proof (state_roundtrip st1) as H1. rewrite Heq, state_roundtrip in H1. by injection H1.
Qed.

Lemma participant_roundtrip p :
  is_u64 (pt_crash_count p) → participant_from_av (participant_to_av p) = Ok p.
Proof.
  intros Hu. unfold participant_from_av, participant_to_av, get_s, get_n. cbn [as_m ok_or rbind].
  rewrite lookup_insert_ne, lookup_singleton_eq by done. cbn [mbind option_bind as_s ok_or rbind].
  rewrite lookup_insert_eq. cbn [mbind option_bind as_n ok_or rbind]. rewrite parse_u64_pretty by done.
  by destruct p.
Qed.

Lemma participants_roundtrip l :
  Forall (λ p, is_u64 (pt_crash_count p)) l →
  collect_results participant_from_av (participant_to_av <$> l) = Ok l.
Proof.
  induction 1 as [|p l Hp _ IH]; cbn [fmap list_fmap collect_results]; [done|].
  rewrite participant_roundtrip by done. cbn [rbind]. change (list_fmap _ _ participant_to_av l) with (participant_to_av <$> l).
  by rewrite IH.
Qed.

Section rows.
Context {R : Rfc3339} {RL : Rfc3339Laws R}.

Lemma txn_record_to_item_lookup r :
  let item := record_to_item r in
  item !! "txn_id" = Some (AS (tx_txn_id r)) ∧
  item !! "lease_id" = Some (AS (tx_lease_id r)) ∧
  item !! "state" = Some (AS (state_to_str (tx_state r))) ∧
  item !! "begun_at" = Some (AS (to_rfc3339 (tx_begun_at r))) ∧
  item !! "participants" = Some (participants_to_av (tx_participants r)).
Proof. intros item. unfold item, record_to_item. split_and!; by simplify_map_eq. Qed.

(** A transaction survives being written to a row and read back. *)
Lemma txn_roundtrip r : participants_u64 r → record_from_item (record_to_item r) = Ok r.
Proof.
  intros Hu. destruct (txn_record_to_item_lookup r) as (H1 & H2 & H3 & H4 & H5). cbn zeta in *.
  unfold record_from_item.
  rewrite (need_s_ok _ _ _ H1), (need_s_ok _ _ _ H2), (need_s_ok _ _ _ H3). cbn [rbind].
  rewrite state_roundtrip, (need_time_ok _ _ _ H4). cbn [rbind]. rewrite H5. cbn [participants_to_av].
  rewrite participants_roundtrip by done. by destruct r.
Qed.

Lemma txn_row_id r : get_s (record_to_item r) (tp_hash txn_spec) = Some (tx_txn_id r).
Proof. unfold get_s. cbn. by rewrite (proj1 (txn_record_to_item_lookup r)). Qed.

Lemma txn_row_state r st :
  cond_holds (CEqS "state" (state_to_str st)) (record_to_item r) = bool_decide (tx_state r = st).
Proof.
  destruct (txn_record_to_item_lookup r) as (_ & _ & H3 & _). cbn. unfold get_s. rewrite H3. cbn.
  apply bool_decide_ext. split; [|by intros ->]. intros [= Heq]. by apply state_to_str_inj.
Qed.

Lemma set_state_row r st :
  apply_actions [USet "state" (AS (state_to_str st))] (record_to_item r) =
    Some (record_to_item (with_state r st)).
Proof. cbn. by f_equal. Qed.

Lemma append_row r p :
  apply_actions [UAppend "participants" [participant_to_av p]] (record_to_item r) =
    Some (record_to_item (push_participant r p)).
Proof.
  destruct (txn_record_to_item_lookup r) as (_ & _ & _ & _ & H5). cbn zeta in H5. cbn. rewrite H5. cbn.
  f_equal. unfold record_to_item, participants_to_av. destruct r. cbn. rewrite fmap_app. item_eq.
Qed.
End rows.

(** ** Agreement with the in-memory store *)
Section agreement.
Context {R : Rfc3339} {RL : Rfc3339Laws R}.
Context {D : Type} {DB : Dynamo D} {DV : DynamoView D} {DL : DynamoLaws D} {DH : DynamoHealthy D}.
Context {M : Type} {MS : TxnStore M} {MV : TxnStoreView M} {ML : TxnStoreLaws M}.
Implicit Types (s : DynamoTxnStore D) (m : M) (tm : txn_map).

Abbreviation txn_table := (record_table txn_spec record_to_item).

(** The table holds the transactions [tm]. *)
Record holds_txns s tm : Prop := {
  ht_rows : tables (dt_client s) !! dt_table_name s = Some (txn_table tm);
  ht_filed : filed tx_txn_id tm;
  ht_u64 : map_Forall (λ _, participants_u64) tm
}.

Lemma txn_holds_write s tm' d :
  filed tx_txn_id tm' → map_Forall (λ _, participants_u64) tm' →
  tables d = <[dt_table_name s := txn_table tm']> (tables (dt_client s)) →
  holds_txns (set_client s d) tm'.
Proof. intros Hf Hu Ht. split; cbn; [by rewrite Ht, lookup_insert_eq|done..]. Qed.

Lemma txn_holds_same s tm d :
  holds_txns s tm → tables d = tables (dt_client s) → holds_txns (set_client s d) tm.
Proof. intros [Hrows Hf Hu] Ht. split; cbn; [by rewrite Ht|done..]. Qed.

Lemma txn_get_holds s tm id : holds_txns s tm → id ≠ "" → get s id = Ok (tm !! id).
Proof.
  intros Hs Hid. unfold get, txn_key_item. change "txn_id" with (tp_hash txn_spec).
  rewrite (get_record txn_spec record_to_item eq_refl _ _ _ id (ht_rows _ _ Hs) Hid). cbn.
  destruct (tm !! id) as [r|] eqn:Hr; cbn; [|done]. rewrite txn_roundtrip; [done|].
  by apply (ht_u64 _ _ Hs _ _ Hr).
Qed.

Lemma txn_create_holds s tm r :
  holds_txns s tm → tx_txn_id r ≠ "" → participants_u64 r →
  (create s r).2 = Ok () ∧ holds_txns (create s r).1 (<[tx_txn_id r := r]> tm).
Proof.
  intros Hs Hid Hu. unfold create.
  pose proof (put_record txn_spec record_to_item tx_txn_id eq_refl txn_row_id None r tm Hid eq_refl) as Hput.
  destruct (put_item_ok _ _ _ None _ _ (ht_rows _ _ Hs) Hput) as [Hr Ht].
  destruct (put_item _ _ _ _) as [d res]. cbn in *. subst res. split; [done|].
  apply txn_holds_write; [by apply filed_insert; [apply Hs|]| |done].
  apply map_Forall_insert_2; [done|apply Hs].
Qed.

Lemma txn_remove_holds s tm id :
  holds_txns s tm → id ≠ "" → (remove s id).2 = Ok () ∧ holds_txns (remove s id).1 (delete id tm).
Proof.
  intros Hs Hid. unfold remove, txn_key_item. change "txn_id" with (tp_hash txn_spec).
  pose proof (delete_record txn_spec record_to_item eq_refl None id tm Hid) as Hdel.
  destruct (delete_item_ok _ _ _ _ _ _ (ht_rows _ _ Hs) Hdel) as [Hok Ht].
  destruct (delete_item _ _ _ _) as [d res]. cbn in *. subst res. split; [done|].
  apply txn_holds_write; [by apply filed_delete, Hs|by apply map_Forall_delete, Hs|done].
Qed.

(** A conditional update of one transaction. *)
Lemma update_holds s tm c acts id (f : TransactionRecord → TransactionRecord) :
  holds_txns s tm → id ≠ "" → cond_holds c ∅ = false →
  (∀ r, apply_actions acts (record_to_item r) = Some (record_to_item (f r))) →
  (∀ r, tx_txn_id (f r) = tx_txn_id r) → (∀ r, participants_u64 r → participants_u64 (f r)) →
  let out := update_item (dt_client s) (dt_table_name s) (Some c) (txn_key_item id) acts in
  match tm !! id with
  | Some r => if cond_holds c (record_to_item r)
              then is_ok out.2 = true ∧ holds_txns (set_client s out.1) (<[id := f r]> tm)
              else out.2 = Err ConditionalCheckFailed ∧ holds_txns (set_client s out.1) tm
  | None => out.2 = Err ConditionalCheckFailed ∧ holds_txns (set_client s out.1) tm
  end.
Proof.
  intros Hs Hid Hc Hacts Hf Hu. unfold txn_key_item. change "txn_id" with (tp_hash txn_spec). cbn zeta.
  assert (Hmiss : check (Some c) (record_to_item <$> tm !! id) = false →
    let out := update_item (dt_client s) (dt_table_name s) (Some c) {[tp_hash txn_spec := AS id]} acts in
    out.2 = Err ConditionalCheckFailed ∧ holds_txns (set_client s out.1) tm).
  { intros Hch. pose proof (update_refused txn_spec record_to_item eq_refl c acts id tm Hid Hch) as Hrow.
    destruct (update_item_ok _ _ _ _ _ _ _ (ht_rows _ _ Hs) Hrow) as [? ?].
    split; [done|by apply txn_holds_same]. }
  destruct (tm !! id) as [r|] eqn:Hr; [|by apply Hmiss].
  destruct (cond_holds c (record_to_item r)) eqn:Hcr; [|by apply Hmiss]. clear Hmiss.
  destruct (ht_filed _ _ Hs _ _ Hr) as [Hrid _].
  destruct (update_record txn_spec record_to_item tx_txn_id eq_refl txn_row_id c acts id r (f r) tm)
    as (attrs & _ & Hrow); [done|done|done|done|by rewrite Hf|done|].
  destruct (update_item_ok _ _ _ _ _ _ _ (ht_rows _ _ Hs) Hrow) as [Hok Ht].
  split; [by rewrite Hok|]. apply txn_holds_write; [| |done].
  - rewrite <- Hrid, <- Hf. apply (filed_insert tx_txn_id tm (f r)); [apply Hs|by rewrite Hf, Hrid].
  - apply map_Forall_insert_2; [|apply Hs]. by apply Hu, (ht_u64 _ _ Hs _ _ Hr).
Qed.

Lemma update_state_holds s tm id st :
  holds_txns s tm → id ≠ "" →
  match tm !! id with
  | Some r => (update_state s id st).2 = Ok () ∧
      holds_txns (update_state s id st).1 (<[id := with_state r st]> tm)
  | None => (update_state s id st).2 = Err (TransactionNotFound id) ∧
      holds_txns (update_state s id st).1 tm
  end.
Proof.
  intros Hs Hid. unfold update_state.
  pose proof (update_holds s tm (CExists "txn_id") [USet "state" (AS (state_to_str st))] id
    (λ r, with_state r st) Hs Hid eq_refl (λ r, set_state_row r st) (λ _, eq_refl) (λ _ H, H)) as Hup.
  destruct (update_item _ _ _ _ _) as [d res]. cbn [fst snd] in *.
  destruct (tm !! id) as [r|]; [|by destruct Hup as [-> Hup]].
  assert (Hc : cond_holds (CExists "txn_id") (record_to_item r) = true).
  { cbn. by rewrite (proj1 (txn_record_to_item_lookup r)), bool_decide_eq_true_2. }
  rewrite Hc in Hup. destruct Hup as [Hok Hup]. by destruct res.
Qed.

Lemma update_state_if_holds s tm id e n :
  holds_txns s tm → id ≠ "" →
  match tm !! id with
  | Some r =>
      if decide (tx_state r = e)
      then (update_state_if s id e n).2 = Ok true ∧
           holds_txns (update_state_if s id e n).1 (<[id := with_state r n]> tm)
      else (update_state_if s id e n).2 = Ok false ∧ holds_txns (update_state_if s id e n).1 tm
  | None => (update_state_if s id e n).2 = Err (TransactionNotFound id) ∧
      holds_txns (update_state_if s id e n).1 tm
  end.
Proof.
  intros Hs Hid. unfold update_state_if.
  pose proof (update_holds s tm (CEqS "state" (state_to_str e)) [USet "state" (AS (state_to_str n))] id
    (λ r, with_state r n) Hs Hid eq_refl (λ r, set_state_row r n) (λ _, eq_refl) (λ _ H, H)) as Hup.
  destruct (update_item _ _ _ _ _) as [d res]. cbn [fst snd] in *.
  destruct (tm !! id) as [r|] eqn:Hr.
  - rewrite txn_row_state in Hup. case_decide as Hst.
    + rewrite bool_decide_eq_true_2 in Hup by done. destruct Hup as [Hok Hup]. by destruct res.
    + rewrite bool_decide_eq_false_2 in Hup by done. destruct Hup as [-> Hup].
      by rewrite (txn_get_holds _ _ _ Hup Hid), Hr.
  - destruct Hup as [-> Hup]. by rewrite (txn_get_holds _ _ _ Hup Hid), Hr.
Qed.

Lemma add_participant_holds s tm id p :
  holds_txns s tm → id ≠ "" → is_u64 (pt_crash_count p) →
  match tm !! id with
  | Some r =>
      if decide (tx_state r = Active)
      then (add_participant s id p).2 = Ok () ∧
           holds_txns (add_participant s id p).1 (<[id := push_participant r p]> tm)
      else (add_participant s id p).2 = Err (TransactionTerminal id) ∧
           holds_txns (add_participant s id p).1 tm
  | None => (add_participant s id p).2 = Err (TransactionNotFound id) ∧
      holds_txns (add_participant s id p).1 tm
  end.
Proof.
  intros Hs Hid Hu. unfold add_participant.
  pose proof (update_holds s tm (CEqS "state" (state_to_str Active))
    [UAppend "participants" [participant_to_av p]] id (λ r, push_participant r p) Hs Hid eq_refl
    (λ r, append_row r p) (λ _, eq_refl)) as Hup.
  assert (Hup' := Hup ltac:(intros r Hr; apply Forall_app_2; [done|by constructor])). clear Hup.
  destruct (update_item _ _ _ _ _) as [d res]. cbn [fst snd] in *.
  destruct (tm !! id) as [r|] eqn:Hr.
  - rewrite txn_row_state in Hup'. case_decide as Hst.
    + rewrite bool_decide_eq_true_2 in Hup' by done. destruct Hup' as [Hok Hup]. by destruct res.
    + rewrite bool_decide_eq_false_2 in Hup' by done. destruct Hup' as [-> Hup].
      by rewrite (txn_get_holds _ _ _ Hup Hid), Hr.
  - destruct Hup' as [-> Hup]. by rewrite (txn_get_holds _ _ _ Hup Hid), Hr.
Qed.

Lemma list_all_holds s tm :
  holds_txns s tm → ∃ l, list_all s = Ok l ∧ l ≡ₚ (map_to_list tm).*2.
Proof.
  intros Hs. destruct (scan_records txn_spec record_to_item tx_txn_id eq_refl txn_row_id _ _ _
    None None "scan" (one record_from_item) (λ r, [r]) (ht_rows _ _ Hs) (ht_filed _ _ Hs))
    as (out & Hout & Hp); [done| |].
  { intros id r Hr _. unfold one. by rewrite txn_roundtrip by (by apply (ht_u64 _ _ Hs _ _ Hr)). }
  exists out. split; [done|]. by rewrite Hp, filter_true, bind_singletons.
Qed.

(** The table holds exactly the transactions of the other store. *)
Definition txn_sim s m : Prop := holds_txns s (ts_view m).

Lemma txn_apply_sim s m op :
  txn_sim s m → txn_op_valid op →
  txn_sim (ts_apply s op).1 (ts_apply m op).1 ∧
  same_txn_answer (ts_apply s op).2 (ts_apply m op).2.
Proof.
  unfold txn_sim. intros Hs Hv. destruct op as [r|id|id st|id e n|id p|id|];
    cbn [ts_apply ts_create ts_get ts_update_state ts_update_state_if ts_add_participant ts_remove
         ts_list_all DynamoTxnStore_store].
  - destruct Hv as [Hid Hu]. destruct (txn_create_holds s _ r Hs Hid Hu) as [Hr Hd].
    pose proof (ts_create_law m r) as Hm. destruct (ts_create m r) as [m' rm].
    destruct (create s r) as [s' rs]. cbn in *. destruct Hm as [-> ->]. by subst.
  - split; [done|]. cbn. by rewrite (txn_get_holds _ _ _ Hs Hv), ts_get_law.
  - pose proof (update_state_holds s _ id st Hs Hv) as Hd. pose proof (ts_update_state_law m id st) as Hm.
    destruct (ts_update_state m id st) as [m' rm], (update_state s id st) as [s' rs]. cbn in *.
    destruct (ts_view m !! id); destruct Hd as [-> Hd], Hm as [-> ->]; done.
  - pose proof (update_state_if_holds s _ id e n Hs Hv) as Hd. pose proof (ts_cas_law m id e n) as Hm.
    destruct (ts_update_state_if m id e n) as [m' rm], (update_state_if s id e n) as [s' rs]. cbn in *.
    destruct (ts_view m !! id); [case_decide|]; destruct Hd as [-> Hd], Hm as [-> ->]; done.
  - destruct Hv as [Hid Hu]. pose proof (add_participant_holds s _ id p Hs Hid Hu) as Hd.
    pose proof (ts_add_law m id p) as Hm.
    destruct (ts_add_participant m id p) as [m' rm], (add_participant s id p) as [s' rs]. cbn in *.
    destruct (ts_view m !! id); [case_decide|]; destruct Hd as [-> Hd], Hm as [-> ->]; done.
  - destruct (txn_remove_holds s _ id Hs Hv) as [Hr Hd]. pose proof (ts_remove_law m id) as Hm.
    destruct (ts_remove m id) as [m' rm], (remove s id) as [s' rs]. cbn in *.
    destruct Hm as [-> ->]. by subst.
  - split; [done|]. cbn [snd]. destruct (list_all_holds s _ Hs) as (l1 & -> & H1).
    destruct (ts_list_all_law m) as (l2 & -> & H2). cbn. by rewrite H1, H2.
Qed.

(** The DynamoDB transaction store and the in-memory one are
    interchangeable.  Starting from a table and a store with the same
    transactions, any sequence of calls with non-empty ids and [u64] crash counts
    gives the same answers, errors included and up to the order of listings, and
    ends with the same transactions, on a database that serves its calls and
    whose reads have caught up. *)
Theorem dynamo_txn_agrees s m ops :
  txn_sim s m → Forall txn_op_valid ops →
  txn_sim (run_calls ts_apply s ops).1 (run_calls ts_apply m ops).1 ∧
  Forall2 same_txn_answer (run_calls ts_apply s ops).2 (run_calls ts_apply m ops).2.
Proof.
  intros Hs Hv. apply (run_calls_agree _ _ (λ _, txn_op_valid)); [apply txn_apply_sim|done|].
  by apply calls_valid_forall.
Qed.
End agreement.

(** ** The contract kept by a database that fails and lags *)
Section safe.
Context {R : Rfc3339} {RL : Rfc3339Laws R}.
Context {D : Type} {DB : Dynamo D} {DV : DynamoView D} {DL : DynamoLaws D}.
Implicit Types (s : DynamoTxnStore D) (tm : txn_map).

Abbreviation stored_txns s tm :=
  (stored txn_spec record_to_item tx_txn_id participants_u64 (dt_client s) (dt_table_name s) tm).

(** The transactions in the table, as they are at this moment. *)
#[global] Instance DynamoTxnStore_view : TxnStoreView (DynamoTxnStore D) := λ s,
  record_view tx_txn_id record_from_item (dt_client s) (dt_table_name s).

(** The table is one this store wrote. *)
Definition txn_store_ok s : Prop := ∃ tm, stored_txns s tm.

Lemma stored_txns_view s tm : stored_txns s tm → ts_view s = tm.
Proof. apply stored_view. exact txn_roundtrip. Qed.

(** A conditional update of one transaction. *)
Lemma txn_update_effect s id c acts (f : TransactionRecord → TransactionRecord) (P : TransactionRecord → Prop) :
  txn_store_ok s → cond_holds c ∅ = false → (∀ r, cond_holds c (record_to_item r) = true → P r) →
  (∀ r, apply_actions acts (record_to_item r) = Some (record_to_item (f r))) →
  (∀ r, tx_txn_id (f r) = tx_txn_id r) → (∀ r, participants_u64 r → participants_u64 (f r)) →
  let out := update_item (dt_client s) (dt_table_name s) (Some c) (txn_key_item id) acts in
  let s' := set_client s out.1 in
  let made := ∃ r, ts_view s !! id = Some r ∧ P r ∧
    ts_view s' = <[id := f r]> (ts_view s) in
  txn_store_ok s' ∧
  match out.2 with
  | Ok _ => made
  | Err ConditionalCheckFailed => ts_view s' = ts_view s
  | Err _ => ts_view s' = ts_view s ∨ made
  end.
Proof.
  intros [tm Hs] Hc HP Hacts Hf Hu. cbn zeta.
  pose proof (update_item_law (dt_client s) (dt_table_name s) (Some c) (txn_key_item id) acts) as Hw.
  destruct (update_item _ _ _ _ _) as [d res].
  apply (write_effect _ _ _ _ _ txn_roundtrip _ _ tm _ (λ v, ∃ r, ts_view s !! id = Some r ∧
    P r ∧ v = <[id := f r]> (ts_view s)) _ Hs Hw).
  intros tb' b (m' & ? & ? & ? & r & Hr & Hcr & ->)%(update_takes txn_spec record_to_item tx_txn_id
    participants_u64 eq_refl _ _ tm id f); [|apply Hs..|done|done|done|done].
  exists (<[id := f r]> tm). rewrite (stored_txns_view _ _ Hs). eauto 9.
Qed.

Lemma txn_create_safe s r :
  txn_store_ok s → participants_u64 r →
  let '(s', res) := create s r in
  txn_store_ok s' ∧ effect res (ts_view s' = ts_view s) (ts_view s' = <[tx_txn_id r := r]> (ts_view s)).
Proof.
  intros [tm Hs] Hu. unfold create.
  pose proof (put_item_law (dt_client s) (dt_table_name s) None (record_to_item r)) as Hw.
  destruct (put_item _ _ _ _) as [d res].
  apply (write_safe _ _ _ _ _ txn_roundtrip _ _ tm _ (λ v, v = <[tx_txn_id r := r]> (ts_view s))
    _ _ Hs Hw); [|by destruct res].
  intros tb' b (m' & ? & ? & ? & -> & _)%(put_takes txn_spec record_to_item tx_txn_id participants_u64
    eq_refl txn_row_id); [|apply Hs..|done].
  exists (<[tx_txn_id r := r]> tm). by rewrite (stored_txns_view _ _ Hs).
Qed.

Lemma txn_remove_safe s id :
  txn_store_ok s →
  let '(s', res) := remove s id in
  txn_store_ok s' ∧ effect res (ts_view s' = ts_view s) (ts_view s' = delete id (ts_view s)).
Proof.
  intros [tm Hs]. unfold remove.
  pose proof (delete_item_law (dt_client s) (dt_table_name s) None (txn_key_item id)) as Hw.
  destruct (delete_item _ _ _ _) as [d res].
  apply (write_safe _ _ _ _ _ txn_roundtrip _ _ tm _ (λ v, v = delete id (ts_view s)) _ _ Hs Hw);
    [|by destruct res].
  intros tb' b (m' & ? & ? & ? & -> & _)%(delete_takes txn_spec record_to_item tx_txn_id
    participants_u64 eq_refl); [|apply Hs..].
  exists (delete id tm). by rewrite (stored_txns_view _ _ Hs).
Qed.

#[global] Instance DynamoTxnStore_safe : TxnStoreSafe (DynamoTxnStore D) txn_store_ok.
Proof.
  split.
  - exact txn_create_safe.
  - intros s id st Hok. cbn [ts_update_state DynamoTxnStore_store]. unfold update_state.
    destruct (txn_update_effect s id (CExists "txn_id") [USet "state" (AS (state_to_str st))]
      (λ r, with_state r st) (λ _, True) Hok) as [Hok' He]; [done|done|intros; apply set_state_row|done|done|].
    destruct (update_item _ _ _ _ _) as [d res]. split; [done|]. cbn [fst snd] in *.
    destruct res as [a|[]]; cbn; naive_solver.
  - intros s id e n Hok. cbn [ts_update_state_if DynamoTxnStore_store]. unfold update_state_if.
    destruct (txn_update_effect s id (CEqS "state" (state_to_str e)) [USet "state" (AS (state_to_str n))]
      (λ r, with_state r n) (λ r, tx_state r = e) Hok) as [Hok' He];
      [done|intros r; rewrite txn_row_state; apply bool_decide_eq_true|intros; apply set_state_row|done|done|].
    destruct (update_item _ _ _ _ _) as [d res]. split; [done|]. cbn [fst snd] in *.
    destruct res as [a|[]]; [done| |done|done]. destruct (get _ id) as [[|]|]; auto.
  - intros s id p Hok Hu. cbn [ts_add_participant DynamoTxnStore_store]. unfold add_participant.
    destruct (txn_update_effect s id (CEqS "state" (state_to_str Active))
      [UAppend "participants" [participant_to_av p]] (λ r, push_participant r p)
      (λ r, tx_state r = Active) Hok) as [Hok' He];
      [done|intros r; rewrite txn_row_state; apply bool_decide_eq_true|intros; apply append_row|done|intros r Hr; apply Forall_app_2; [done|by constructor]|].
    destruct (update_item _ _ _ _ _) as [d res]. split; [done|]. cbn [fst snd] in *.
    destruct res as [a|[]]; [done| |done|done]. destruct (get _ id) as [[|]|]; cbn; auto.
  - exact txn_remove_safe.
Qed.

(** Whatever calls fail and however far its reads lag, the DynamoDB
    transaction store keeps the contract two-phase commit rests on: a transition
    answered as made was made from the expected state, one answered as refused
    changed nothing, and a failed call did what it was asked or nothing. *)
Theorem dynamo_txn_store_safe : TxnStoreSafe (DynamoTxnStore D) txn_store_ok.
Proof. exact DynamoTxnStore_safe. Qed.
End safe.

(** ** One transition out of each state *)
Section decided.
Context {S : Type} {TS : TxnStore S} {TV : TxnStoreView S} {ok : S → Prop} {SL : TxnStoreSafe S ok}.

Definition state_rank (st : TransactionState) : nat :=
  match st with Active => 0 | Voting => 1 | Prepared => 2 | Committed | Aborted => 3 end.

(** How far transaction [id] has come; a removed one is past everything. *)
Definition progress (id : string) (s : S) : nat :=
  match ts_view s !! id with Some r => state_rank (tx_state r) | None => 4 end.

(** Calls of transaction managers, after the one that created [id]. *)
Definition manager_call (id : string) (op : TxnOp) : Prop :=
  match op with
  | OpCreate r => tx_txn_id r ≠ id ∧ participants_u64 r
  | OpUpdateState id' _ => id' ≠ id
  | OpUpdateStateIf _ e n => state_rank e < state_rank n
  | OpAddParticipant _ p => is_u64 (pt_crash_count p)
  | OpGet _ | OpRemove _ | OpListAll => True
  end.

Lemma progress_insert id id' r s s' :
  ts_view s' = <[id' := r]> (ts_view s) → (id' = id → progress id s ≤ state_rank (tx_state r)) →
  progress id s ≤ progress id s'.
Proof.
  intros Hv Hr. unfold progress at 2. rewrite Hv. destruct (decide (id' = id)) as [<-|Hne].
  - rewrite lookup_insert_eq. by apply Hr.
  - by rewrite lookup_insert_ne.
Qed.

Lemma progress_same id s s' : ts_view s' = ts_view s → progress id s ≤ progress id s'.
Proof. intros Hv. unfold progress. by rewrite Hv. Qed.

Lemma progress_delete id id' s s' : ts_view s' = delete id' (ts_view s) → progress id s ≤ progress id s'.
Proof.
  intros Hv. unfold progress. rewrite Hv. destruct (decide (id' = id)) as [<-|Hne].
  - rewrite lookup_delete_eq. destruct (ts_view s !! id') as [r|]; [|done]. destruct (tx_state r); cbn; lia.
  - by rewrite lookup_delete_ne.
Qed.

Lemma progress_eq id s r : ts_view s !! id = Some r → progress id s = state_rank (tx_state r).
Proof. intros Hr. unfold progress. by rewrite Hr. Qed.

Lemma cas_progress s id id' e n :
  ok s → state_rank e < state_rank n →
  let '(s', res) := ts_update_state_if s id' e n in
  ok s' ∧ progress id s ≤ progress id s' ∧
  (res = Ok true → id' = id → progress id s = state_rank e ∧ progress id s' = state_rank n).
Proof.
  intros Hok Hlt. pose proof (tsafe_cas s id' e n Hok) as Hl.
  destruct (ts_update_state_if s id' e n) as [s' res]. destruct Hl as [Hok' Hl]. split; [done|].
  assert (Hmade : (∃ r, ts_view s !! id' = Some r ∧ tx_state r = e ∧
      ts_view s' = <[id' := with_state r n]> (ts_view s)) →
    progress id s ≤ progress id s' ∧
    (id' = id → progress id s = state_rank e ∧ progress id s' = state_rank n)).
  { intros (r & Hr & He & Hv). split.
    - eapply progress_insert; [done|]. intros ->. rewrite (progress_eq _ _ _ Hr), He. cbn. lia.
    - intros ->. rewrite (progress_eq _ _ _ Hr), He. split; [done|]. unfold progress.
      by rewrite Hv, lookup_insert_eq. }
  destruct res as [[]|].
  - destruct (Hmade Hl). auto.
  - split; [by apply progress_same|done].
  - split; [|done]. destruct Hl as [Hl|Hl]; [by apply progress_same|by apply Hmade].
Qed.

Lemma call_progress id s op :
  ok s → manager_call id op →
  ok (ts_apply s op).1 ∧ progress id s ≤ progress id (ts_apply s op).1.
Proof.
  intros Hok Hc. destruct op as [r|i|i st|i e n|i p|i|]; cbn [ts_apply manager_call fst] in *; [|by auto| | | | |by auto].
  - destruct Hc as [Hne Hu]. pose proof (tsafe_create s r Hok Hu) as Hl.
    destruct (ts_create s r) as [s' res]. destruct Hl as [Hok' [Hv|Hv]%effect_either]; (split; [done|]).
    + by apply progress_same.
    + by eapply progress_insert.
  - pose proof (tsafe_update_state s i st Hok) as Hl. destruct (ts_update_state s i st) as [s' res].
    destruct Hl as [Hok' [Hv|(r & _ & Hv)]%effect_either]; (split; [done|]).
    + by apply progress_same.
    + by eapply progress_insert.
  - pose proof (cas_progress s id i e n Hok Hc) as Hl. destruct (ts_update_state_if s i e n).
    cbn. destruct Hl as (? & ? & _). auto.
  - pose proof (tsafe_add s i p Hok Hc) as Hl. destruct (ts_add_participant s i p) as [s' res].
    destruct Hl as [Hok' [Hv|(r & Hr & _ & Hv)]%effect_either]; (split; [done|]).
    + by apply progress_same.
    + eapply progress_insert; [done|]. intros ->. by rewrite (progress_eq _ _ _ Hr).
  - pose proof (tsafe_remove s i Hok) as Hl. destruct (ts_remove s i) as [s' res].
    destruct Hl as [Hok' [Hv|Hv]%effect_either]; (split; [done|]).
    + by apply progress_same.
    + by eapply progress_delete.
Qed.

(** The new states of the transitions of [id] out of [e] that were answered as
    made. *)
Fixpoint wins (id : string) (e : TransactionState) (ops : list TxnOp) (rs : list TxnRes)
  : list TransactionState :=
  match ops, rs with
  | OpUpdateStateIf id' e' n :: ops, r :: rs =>
      (if bool_decide (id' = id ∧ e' = e) then
         match r with ResCas (Ok true) => [n] | _ => [] end
       else []) ++ wins id e ops rs
  | _ :: ops, _ :: rs => wins id e ops rs
  | _, _ => []
  end.

(** A transition made later starts from where the transaction is now or later. *)
Lemma later_wins id e ops s :
  ok s → Forall (manager_call id) ops → wins id e ops (run_calls ts_apply s ops).2 ≠ [] →
  progress id s ≤ state_rank e.
Proof.
  revert s. induction ops as [|op ops IH]; intros s Hok Hall Hw; [done|].
  apply Forall_cons in Hall as [Hc Hall]. cbn [run_calls] in Hw.
  destruct (call_progress id s op Hok Hc) as [Hok' Hle].
  assert (Htail : wins id e ops (run_calls ts_apply (ts_apply s op).1 ops).2 ≠ [] →
    progress id s ≤ state_rank e) by (intros Hn; etrans; [done|by apply IH]).
  destruct (ts_apply s op) as [s' r] eqn:Hap. cbn [fst] in *.
  destruct (run_calls ts_apply s' ops) as [s2 rs] eqn:Er. cbn [snd] in *.
  destruct op; cbn [wins] in Hw; try by apply Htail.
  case_bool_decide as Heq; [|by apply Htail]. destruct Heq as [-> ->].
  cbn in Hap, Hc. pose proof (cas_progress s id id e new_state Hok Hc) as Hl.
  destruct (ts_update_state_if s id e new_state) as [s1 res]. injection Hap as <- <-.
  destruct res as [[]|]; [|by apply Htail..]. destruct Hl as (_ & _ & Hl).
  by destruct (Hl eq_refl eq_refl) as [-> _].
Qed.

(** C11: A transaction is decided once.  Over a store that may fail and lag,
    in any sequence of calls by any number of transaction managers, at most one
    transition out of a given state of a transaction is ever answered as made: a
    commit and an abort cannot both win. *)
Theorem transition_decided_once id e ops s :
  ok s → Forall (manager_call id) ops →
  length (wins id e ops (run_calls ts_apply s ops).2) ≤ 1.
Proof.
  revert s. induction ops as [|op ops IH]; intros s Hok Hall; [cbn; lia|].
  apply Forall_cons in Hall as [Hc Hall]. destruct (call_progress id s op Hok Hc) as [Hok' _].
  specialize (IH _ Hok' Hall). pose proof (later_wins id e ops _ Hok' Hall) as Hlater.
  cbn [run_calls]. destruct (ts_apply s op) as [s' r] eqn:Hap. cbn [fst] in *.
  destruct (run_calls ts_apply s' ops) as [s2 rs] eqn:Er. cbn [snd] in *.
  destruct op; cbn [wins]; try done. case_bool_decide as Heq; [|done]. destruct Heq as [-> ->].
  cbn in Hap, Hc. pose proof (cas_progress s id id e new_state Hok Hc) as Hl.
  destruct (ts_update_state_if s id e new_state) as [s1 res]. injection Hap as <- <-.
  destruct res as [[]|]; [|done..]. destruct Hl as (_ & _ & Hl).
  destruct (Hl eq_refl eq_refl) as [_ Hn].
  destruct (wins id e ops rs); [cbn; lia|]. specialize (Hlater ltac:(done)). lia.
Qed.
End decided.

(** ** Concrete runs *)
Section samples.
#[local] Existing Instance rfc_sample.
#[local] Existing Instance rfc_sample_laws.
#[local] Existing Instance canonical_iter.

Definition toy_txns : DynamoTxnStore ToyDb :=
  with_table {| toy_tables := {["txn" := mkTable txn_spec ∅]}; toy_page := 0 |} "txn".

Definition toy_txn : TransactionRecord := mkTxn "t1" "lease-1" Active [] 7.
Definition toy_participant : ParticipantRecord := {| pt_endpoint := "http://h:1"; pt_crash_count := 3 |}.

Definition toy_txn_ops : list TxnOp :=
  [OpCreate toy_txn; OpAddParticipant "t1" toy_participant; OpUpdateStateIf "t1" Active Voting;
   OpAddParticipant "t1" toy_participant; OpUpdateStateIf "t1" Active Aborted; OpGet "t1"; OpListAll;
   OpUpdateStateIf "t2" Active Aborted; OpUpdateState "t1" Committed; OpRemove "t1"; OpGet "t1"].

Lemma toy_txn_sim : txn_sim toy_txns TxnStore.new.
Proof.
  split; cbn; [|intros i a; by rewrite lookup_empty|apply map_Forall_empty].
  by rewrite record_table_empty.
Qed.

Theorem dynamo_txn_agrees_witness :
  (run_calls ts_apply toy_txns toy_txn_ops).2 = (run_calls ts_apply TxnStore.new toy_txn_ops).2 ∧
  Forall2 same_txn_answer (run_calls ts_apply toy_txns toy_txn_ops).2
    (run_calls ts_apply TxnStore.new toy_txn_ops).2.
Proof.
  split; [vm_compute; reflexivity|].
  apply (dynamo_txn_agrees toy_txns TxnStore.new toy_txn_ops toy_txn_sim).
  unfold toy_txn_ops. repeat constructor; try discriminate; by_compute.
Defined.

(** The table after [t1] was created; reads still see it empty. *)
Definition lagging_txns : DynamoTxnStore FlakyDb :=
  with_table {| fl_now := dt_client (create toy_txns toy_txn).1; fl_read := dt_client toy_txns;
                fl_faults := λ _ _, false |} "txn".

Lemma lagging_txns_ok : txn_store_ok lagging_txns.
Proof.
  exists {["t1" := toy_txn]}. split.
  - vm_compute. reflexivity.
  - intros i r [<- <-]%lookup_singleton_Some. done.
  - apply map_Forall_singleton. constructor.
Qed.

(** Two managers, one committing and one aborting, with reads that lag: the abort
    is answered with an error and only the commit with [true]. *)
Definition racing_ops : list TxnOp :=
  [OpUpdateStateIf "t1" Active Voting; OpUpdateStateIf "t1" Active Aborted].

Theorem dynamo_txn_store_safe_witness :
  TxnStoreSafe (DynamoTxnStore FlakyDb) txn_store_ok ∧
  (run_calls ts_apply lagging_txns racing_ops).2 =
    [ResCas (Ok true); ResCas (Err (TransactionNotFound "t1"))].
Proof. split; [apply dynamo_txn_store_safe|vm_compute; reflexivity]. Defined.

Theorem transition_decided_once_witness :
  wins "t1" Active racing_ops (run_calls ts_apply lagging_txns racing_ops).2 = [Voting] ∧
  length (wins "t1" Active racing_ops (run_calls ts_apply lagging_txns racing_ops).2) ≤ 1.
Proof.
  split; [vm_compute; reflexivity|].
  apply (transition_decided_once "t1" Active racing_ops lagging_txns lagging_txns_ok).
  repeat constructor.
Defined.
End samples.
