(* ===== verification/DynamoEvent.v ===== *)
(** * The DynamoDB event store ([providers/dynamo/src/event_store.rs])

    Two tables: subscriptions, one row each with the last sequence number handed
    out, and mailboxes, one row per event keyed by registration and number.

    On a healthy database the store answers as the in-memory one does, and its
    drain of a mailbox, which deletes behind itself while it pages, removes every
    event.  Whatever fails or lags, numbers are handed out once and an event that
    was written is never overwritten. *)

From S2P Require Import Prelude CoreTypes Matcher EventStore Dynamo DynamoCodec DynamoSample.

(** ** Rows *)
Definition delivery_to_str (mode : DeliveryMode) : string :=
  match mode with Durable => "Durable" | BestEffort => "BestEffort" end.

Definition delivery_from_str (s : string) : result DeliveryMode Error :=
  if String.eqb s "Durable" then Ok Durable
  else if String.eqb s "BestEffort" then Ok BestEffort
  else Err (Storage ("unknown delivery mode: " +:+ s)).

(** The row [create_subscription] puts. *)
Definition sub_to_item (sub : SubscriptionRecord) : Item :=
  put_bytes "handback" (sb_handback sub)
    (<["initial_seq_num" := AN (pretty (sb_initial_seq_num sub))]>
      (<["template" := write_map (sb_template sub)]>
        (<["delivery" := AS (delivery_to_str (sb_delivery sub))]>
          (<["lease_id" := AS (sb_lease_id sub)]>
            (<["source" := AS (sb_source sub)]>
              (<["registration_id" := AS (sb_registration_id sub)]> ∅)))))).

Definition mailbox_key (registration_id seq_num : string) : Item :=
  <["seq_num" := AN seq_num]> {["registration_id" := AS registration_id]}.

Definition BATCH_DELETE_MAX_ATTEMPTS : nat := 6.

(** [slice::chunks]. *)
Fixpoint chunks_go {A} (fuel n : nat) (l : list A) : list (list A) :=
  match fuel, l with
  | S fuel, _ :: _ => take n l :: chunks_go fuel n (drop n l)
  | _, _ => []
  end.

Definition chunks {A} (n : nat) (l : list A) : list (list A) := chunks_go (length l) n l.

Record DynamoEventStore (D : Type) := mkDynEvents {
  de_client : D;
  de_sub_table : string;
  de_mailbox_table : string
}.
Arguments mkDynEvents {D}.
Arguments de_client {D} _.
Arguments de_sub_table {D} _.
Arguments de_mailbox_table {D} _.

Section store.
Context {I : MapIter} {R : Rfc3339}.

Definition sub_from_item (item : Item) : result SubscriptionRecord Error :=
  let? registration_id := need_s item "registration_id" in
  let? source := need_s item "source" in
  let? lease_id := need_s item "lease_id" in
  let? delivery := rbind (need_s item "delivery") delivery_from_str in
  let? template := read_map (λ k, "template value for '" +:+ k +:+ "' is not a string") item "template" in
  let handback := read_bytes item "handback" in
  let initial_seq_num := default 0%Z (get_n item "initial_seq_num" ≫= parse_u64) in
  Ok (mkSub registration_id source template delivery lease_id handback initial_seq_num).

Definition event_from_item (item : Item) : result EventRecord Error :=
  let? event_id := need_s item "event_id" in
  let? source := need_s item "source" in
  let? event_type := need_s item "event_type" in
  let? seq_num := need_u64 item "seq_num" in
  let? emitted_at := need_time item "emitted_at" in
  let? attrs := read_map (λ k, "attrs value for '" +:+ k +:+ "' is not a string") item "attrs" in
  let payload := read_bytes item "payload" in
  Ok (mkEvent event_id source event_type seq_num attrs payload emitted_at).

(** The row [enqueue] puts under number [seq]. *)
Definition event_to_item (registration_id : string) (seq : Z) (event : EventRecord) : Item :=
  put_bytes "payload" (er_payload event)
    (<["attrs" := write_map (er_attrs event)]>
      (<["emitted_at" := AS (to_rfc3339 (er_emitted_at event))]>
        (<["event_type" := AS (er_event_type event)]>
          (<["source" := AS (er_source event)]>
            (<["event_id" := AS (er_event_id event)]>
              (<["seq_num" := AN (pretty seq)]>
                (<["registration_id" := AS registration_id]> ∅))))))).

Context {D : Type} {DB : Dynamo D} {DV : DynamoView D}.
Implicit Types (s : DynamoEventStore D).

Definition with_tables (client : D) (sub_table mailbox_table : string) : DynamoEventStore D :=
  mkDynEvents client sub_table mailbox_table.

Definition new (client : D) : DynamoEventStore D :=
  with_tables client EVENT_SUB_TABLE EVENT_MAILBOX_TABLE.

Definition set_client s (d : D) : DynamoEventStore D :=
  mkDynEvents d (de_sub_table s) (de_mailbox_table s).

Definition init (env : string → option string) s : DynamoEventStore D * result unit Error :=
  let '(d, r) := init_tables env (de_client s)
                   [λ d, ensure_event_sub_table d (de_sub_table s);
                    λ d, ensure_event_mailbox_table d (de_mailbox_table s)] in
  (set_client s d, r).

Definition sub_key_item (registration_id : string) : Item := {["registration_id" := AS registration_id]}.

Definition create_subscription s (sub : SubscriptionRecord) : DynamoEventStore D * result unit Error :=
  let '(d, r) := put_item (de_client s) (de_sub_table s) None (sub_to_item sub) in
  (set_client s d, map_err (sdk_storage "put_item") r).

Definition get_subscription s (registration_id : string)
  : result (option SubscriptionRecord) Error :=
  let? o := map_err (sdk_storage "get_item")
              (get_item (de_client s) (de_sub_table s) (sub_key_item registration_id)) in
  match o with None => Ok None | Some item => rmap Some (sub_from_item item) end.

(** One chunk of a batch delete, retried while items stay unprocessed. *)
Fixpoint flush (attempts : nat) s (pending : list Item) : DynamoEventStore D * result unit Error :=
  match pending with
  | [] => (s, Ok ())
  | _ =>
      match attempts with
      | 0 => (s, Err (Storage ("batch_write_item: " +:+ pretty (length pending) +:+
                " mailbox deletes still unprocessed after " +:+
                pretty BATCH_DELETE_MAX_ATTEMPTS +:+ " attempts")))
      | S attempts =>
          let '(d, r) := batch_delete_item (de_client s) (de_mailbox_table s) pending in
          let s := set_client s d in
          match r with
          | Err e => (s, Err (sdk_storage "batch_write_item" e))
          | Ok unprocessed => flush attempts s unprocessed
          end
      end
  end.

Fixpoint flush_all s (cs : list (list Item)) : DynamoEventStore D * result unit Error :=
  match cs with
  | [] => (s, Ok ())
  | chunk :: cs =>
      match flush BATCH_DELETE_MAX_ATTEMPTS s chunk with
      | (s, Ok _) => flush_all s cs
      | (s, Err e) => (s, Err e)
      end
  end.

Definition batch_delete s (keys : list Item) : DynamoEventStore D * result unit Error :=
  flush_all s (chunks 25 keys).

(** The keys of a page of mailbox rows. *)
Definition page_keys (registration_id : string) (items : list Item) : list Item :=
  omap (λ item, mailbox_key registration_id <$> get_n item "seq_num") items.

(** [fuel] bounds the pages. *)
Fixpoint drain_loop (fuel : nat) s (registration_id : string) (start : option Item)
  : DynamoEventStore D * result unit Error :=
  match fuel with
  | 0 => (s, Err (Internal "page loop out of fuel"))
  | S fuel =>
      match query (de_client s) (de_mailbox_table s) registration_id None None start with
      | Err e => (s, Err (sdk_storage "query" e))
      | Ok page =>
          match batch_delete s (page_keys registration_id (pg_items page)) with
          | (s, Err e) => (s, Err e)
          | (s, Ok _) =>
              match pg_last page with
              | None => (s, Ok ())
              | Some k => drain_loop fuel s registration_id (Some k)
              end
          end
      end
  end.

Definition drain_mailbox s (registration_id : string) : DynamoEventStore D * result unit Error :=
  drain_loop (query_fuel (de_client s) (de_mailbox_table s) registration_id) s registration_id None.

(** Deletes the row, then drains the mailbox. *)
Definition remove_subscription s (registration_id : string)
  : DynamoEventStore D * result unit Error :=
  let '(d, r) := delete_item (de_client s) (de_sub_table s) None (sub_key_item registration_id) in
  let s := set_client s d in
  match r with
  | Err e => (s, Err (sdk_storage "delete_item" e))
  | Ok _ => drain_mailbox s registration_id
  end.

Definition remove_by_lease s (lease_id : string)
  : DynamoEventStore D * result (option SubscriptionRecord) Error :=
  match map_err (sdk_storage "query (lease GSI)")
          (query_index (de_client s) (de_sub_table s) EVENT_SUB_LEASE_GSI lease_id 1) with
  | Err e => (s, Err e)
  | Ok items =>
      match head items with
      | None => (s, Ok None)
      | Some item =>
          match sub_from_item item with
          | Err e => (s, Err e)
          | Ok sub =>
              let '(d, r) := delete_item (de_client s) (de_sub_table s) None
                               (sub_key_item (sb_registration_id sub)) in
              let s := set_client s d in
              match r with
              | Err e => (s, Err (sdk_storage "delete_item" e))
              | Ok _ =>
                  match drain_mailbox s (sb_registration_id sub) with
                  | (s, Err e) => (s, Err e)
                  | (s, Ok _) => (s, Ok (Some sub))
                  end
              end
          end
      end
  end.

Definition list_subscriptions s : result (list SubscriptionRecord) Error :=
  scan_decoded (de_client s) (de_sub_table s) None None "scan" (one sub_from_item).

(** The first half of [enqueue]: the next number of a registration. *)
Definition allocate_seq s (registration_id : string) : DynamoEventStore D * result Z Error :=
  let '(d, r) := update_item (de_client s) (de_sub_table s) (Some (CExists "registration_id"))
                   (sub_key_item registration_id) [UAdd "mailbox_seq" 1] in
  (set_client s d,
   match r with
   | Err ConditionalCheckFailed => Err (SubscriptionNotFound registration_id)
   | Err e => Err (sdk_storage "update_item (mailbox_seq)" e)
   | Ok attributes =>
       ok_or (Storage "update_item returned no mailbox_seq")
         (get_n attributes "mailbox_seq" ≫= parse_u64)
   end).

(** The second half: the mailbox row, never over an existing one. *)
Definition put_event s (registration_id : string) (seq : Z) (event : EventRecord)
  : DynamoEventStore D * result Z Error :=
  let '(d, r) := put_item (de_client s) (de_mailbox_table s) (Some (CNotExists "seq_num"))
                   (event_to_item registration_id seq event) in
  (set_client s d,
   rmap (λ _, seq)
     (map_err (sdk_storage ("put_item (mailbox seq " +:+ pretty seq +:+ ")")) r)).

Definition enqueue s (registration_id : string) (event : EventRecord)
  : DynamoEventStore D * result Z Error :=
  match allocate_seq s registration_id with
  | (s, Err e) => (s, Err e)
  | (s, Ok seq) => put_event s registration_id seq event
  end.

Definition i32_max : Z := 2147483647.

(** [fuel] bounds the pages. *)
Fixpoint peek_loop (fuel : nat) s (registration_id : string) (after_seq : Z) (limit : nat)
    (events : list EventRecord) (start : option Item) : result (list EventRecord) Error :=
  match fuel with
  | 0 => Err (Internal "page loop out of fuel")
  | S fuel =>
      if (limit <=? length events)%nat then Ok events
      else
        let remaining := Z.to_nat (Z.min (Z.of_nat (limit - length events)) i32_max) in
        let? page := map_err (sdk_storage "query")
          (query (de_client s) (de_mailbox_table s) registration_id (Some after_seq) (Some remaining) start) in
        let? events := push_decoded (one event_from_item) events (pg_items page) in
        match pg_last page with
        | None => Ok events
        | Some k => peek_loop fuel s registration_id after_seq limit events (Some k)
        end
  end.

Definition peek s (registration_id : string) (after_seq : Z) (limit : nat)
  : result (list EventRecord) Error :=
  rmap (take limit)
    (peek_loop (query_fuel (de_client s) (de_mailbox_table s) registration_id)
       s registration_id after_seq limit [] None).

Definition ack s (registration_id : string) (seq_nums : list Z)
  : DynamoEventStore D * result unit Error :=
  batch_delete s ((λ seq, mailbox_key registration_id (pretty seq)) <$> seq_nums).

#[global] Instance DynamoEventStore_store : EventStore (DynamoEventStore D) := {|
  es_create_subscription := create_subscription;
  es_get_subscription := get_subscription;
  es_remove_subscription := remove_subscription;
  es_remove_by_lease := remove_by_lease;
  es_list_subscriptions := list_subscriptions;
  es_enqueue := enqueue;
  es_peek := peek;
  es_ack := ack
|}.
End store.

(** ** Chunks *)
Lemma chunks_go_concat {A} fuel n (l : list A) :
  0 < n → length l ≤ fuel → concat (chunks_go fuel n l) = l.
Proof.
  intros Hn. revert l. induction fuel as [|fuel IH]; intros [|x l] Hl; cbn in *; [done|lia|done|].
  destruct n as [|n]; [lia|]. cbn in *. f_equal. rewrite IH; [apply take_drop|]. rewrite length_drop. lia.
Qed.

Lemma chunks_go_length {A} fuel n (l : list A) : Forall (λ c, length c ≤ n) (chunks_go fuel n l).
Proof.
  revert l. induction fuel as [|fuel IH]; intros [|x l]; cbn; constructor; [|by apply IH].
  change (length (take n (x :: l)) ≤ n). rewrite length_take. lia.
Qed.

Lemma chunks_fmap {A B} (f : A → B) n (l : list A) :
  chunks n (f <$> l) = (λ c : list A, f <$> c) <$> chunks n l.
Proof.
  unfold chunks. rewrite length_fmap. generalize (length l). intros k.
  revert l. induction k as [|k IH]; intros [|x l]; [done..|].
  change (take n (f <$> x :: l) :: chunks_go k n (drop n (f <$> x :: l)) =
    (f <$> take n (x :: l)) :: ((λ c : list A, f <$> c) <$> chunks_go k n (drop n (x :: l)))).
  by rewrite <- fmap_take, <- fmap_drop, IH.
Qed.

Lemma chunks_concat {A} n (l : list A) : 0 < n → concat (chunks n l) = l.
Proof. intros Hn. by apply chunks_go_concat. Qed.

(** ** Rows *)

(** A subscription row: the record and the last number handed out. *)
Definition SubRow : Type := SubscriptionRecord * Z.

Definition sub_row (r : SubRow) : Item :=
  if (r.2 =? 0)%Z then sub_to_item r.1 else <["mailbox_seq" := AN (pretty r.2)]> (sub_to_item r.1).

Definition sub_row_id (r : SubRow) : string := sb_registration_id r.1.

(** Rows the table can hold. *)
Definition sub_row_good (r : SubRow) : Prop :=
  is_u64 (sb_initial_seq_num r.1) ∧ (0 ≤ r.2 ≤ u64_max)%Z.

Definition box_key (k : string * Z) : Key := (k.1, pretty k.2).
#[global] Instance box_key_inj : Inj (=) (=) box_key.
Proof. intros [r1 k1] [r2 k2]. unfold box_key. cbn. intros [= -> Hp]. by apply (inj pretty) in Hp as ->. Qed.

Lemma pretty_ne (z : Z) : pretty z ≠ "".
Proof.
  destruct (decide (0 ≤ z)%Z) as [Hz|Hz].
  - by destruct (pretty_nonneg_head z Hz) as (c & s' & -> & _).
  - by destruct z as [|p|p]; [lia..|].
Qed.

Section rows.
Context {I : MapIter} {R : Rfc3339} {RL : Rfc3339Laws R}.

Lemma sub_row_lookup r :
  let item := sub_row r in
  item !! "registration_id" = Some (AS (sb_registration_id r.1)) ∧
  item !! "source" = Some (AS (sb_source r.1)) ∧
  item !! "lease_id" = Some (AS (sb_lease_id r.1)) ∧
  item !! "delivery" = Some (AS (delivery_to_str (sb_delivery r.1))) ∧
  item !! "template" = Some (write_map (sb_template r.1)) ∧
  item !! "initial_seq_num" = Some (AN (pretty (sb_initial_seq_num r.1))) ∧
  read_bytes item "handback" = sb_handback r.1.
Proof.
  intros item. unfold item, sub_row, sub_to_item.
  assert (Hb : ∀ it : Item, it !! "handback" = None →
    read_bytes (<["mailbox_seq" := AN (pretty r.2)]> (put_bytes "handback" (sb_handback r.1) it)) "handback" =
      sb_handback r.1).
  { intros it Hit. unfold read_bytes. rewrite lookup_insert_ne by done. by apply read_bytes_put. }
  destruct (r.2 =? 0)%Z; split_and!;
    rewrite ?lookup_insert_ne, ?put_bytes_ne by done; try by simplify_map_eq.
  - apply read_bytes_put. by simplify_map_eq.
  - apply Hb. by simplify_map_eq.
Qed.

(** A subscription survives being written to a row, numbers handed out
    or not, and read back. *)
Lemma sub_roundtrip r : is_u64 (sb_initial_seq_num r.1) → sub_from_item (sub_row r) = Ok r.1.
Proof.
  intros Hu. destruct (sub_row_lookup r) as (H1 & H2 & H3 & H4 & H5 & H6 & H7). cbn zeta in *.
  unfold sub_from_item.
  rewrite (need_s_ok _ _ _ H1), (need_s_ok _ _ _ H2), (need_s_ok _ _ _ H3), (need_s_ok _ _ _ H4).
  cbn [rbind]. assert (Hd : ∀ m, delivery_from_str (delivery_to_str m) = Ok m) by (by intros []).
  rewrite Hd. cbn [rbind]. rewrite (read_map_ok _ _ _ _ H5). cbn [rbind].
  unfold get_n. rewrite H6, H7. cbn. rewrite parse_u64_pretty by done. by destruct r as [[] n].
Qed.

Lemma sub_row_hash r : get_s (sub_row r) (tp_hash event_sub_spec) = Some (sub_row_id r).
Proof. unfold get_s. cbn. by rewrite (proj1 (sub_row_lookup r)). Qed.

Lemma sub_row_lease r : get_s (sub_row r) "lease_id" = Some (sb_lease_id r.1).
Proof. unfold get_s. by rewrite (proj1 (proj2 (proj2 (sub_row_lookup r)))). Qed.

Lemma sub_row_index r : sb_lease_id r.1 ≠ "" → index_ok event_sub_spec (sub_row r) = true.
Proof.
  intros Hl. unfold index_ok. cbn. rewrite sub_row_lease, bool_decide_eq_false_2; [done|].
  by intros [= ?].
Qed.

(** Handing out the next number. *)
Definition next_row (r : SubRow) : SubRow := (r.1, (r.2 + 1)%Z).

Lemma sub_row_seq r : (0 ≤ r.2)%Z → sub_row r !! "mailbox_seq" =
  if (r.2 =? 0)%Z then None else Some (AN (pretty r.2)).
Proof.
  intros Hn. unfold sub_row. destruct (r.2 =? 0)%Z; [|by rewrite lookup_insert_eq].
  unfold sub_to_item. rewrite put_bytes_ne by done. by simplify_map_eq.
Qed.

Lemma allocate_row r :
  (0 ≤ r.2 ≤ u64_max)%Z →
  apply_actions [UAdd "mailbox_seq" 1] (sub_row r) = Some (sub_row (next_row r)).
Proof.
  intros Hn. cbn. rewrite sub_row_seq by lia. unfold sub_row, next_row. cbn [fst snd].
  destruct (Z.eqb_spec r.2 0) as [He|Hne].
  - rewrite He. done.
  - cbn. rewrite num_value_pretty by (unfold u64_max in Hn; lia).
    destruct (Z.eqb_spec (r.2 + 1) 0); [lia|]. cbn. f_equal. by rewrite insert_insert_eq.
Qed.

Lemma allocated_seq r :
  is_u64 (r.2 + 1) → (0 ≤ r.2)%Z →
  get_n (filter (λ kv, kv.1 ∈ (["mailbox_seq"] : list string)) (sub_row (next_row r))) "mailbox_seq" ≫= parse_u64
    = Some (r.2 + 1)%Z.
Proof.
  intros Hu Hn. unfold get_n.
  assert (Hl : filter (λ kv, kv.1 ∈ (["mailbox_seq"] : list string)) (sub_row (next_row r)) !! "mailbox_seq" =
    Some (AN (pretty (r.2 + 1)%Z))).
  { apply map_lookup_filter_Some. split; [|by left]. rewrite sub_row_seq by (cbn; lia). cbn.
    by destruct (Z.eqb_spec (r.2 + 1) 0); [lia|]. }
  rewrite Hl. cbn. by apply parse_u64_pretty.
Qed.

Lemma event_to_item_lookup reg seq e :
  let item := event_to_item reg seq e in
  item !! "registration_id" = Some (AS reg) ∧
  item !! "seq_num" = Some (AN (pretty seq)) ∧
  item !! "event_id" = Some (AS (er_event_id e)) ∧
  item !! "source" = Some (AS (er_source e)) ∧
  item !! "event_type" = Some (AS (er_event_type e)) ∧
  item !! "emitted_at" = Some (AS (to_rfc3339 (er_emitted_at e))) ∧
  item !! "attrs" = Some (write_map (er_attrs e)) ∧
  read_bytes item "payload" = er_payload e.
Proof.
  intros item. unfold item, event_to_item. split_and!; rewrite ?put_bytes_ne by done; try by simplify_map_eq.
  apply read_bytes_put. by simplify_map_eq.
Qed.

(** An event survives being written to a mailbox row and read back,
    with the number it was filed under. *)
Lemma event_roundtrip reg seq e :
  is_u64 seq → event_from_item (event_to_item reg seq e) = Ok (with_seq e seq).
Proof.
  intros Hu. destruct (event_to_item_lookup reg seq e) as (_ & H2 & H3 & H4 & H5 & H6 & H7 & H8).
  cbn zeta in *. unfold event_from_item.
  rewrite (need_s_ok _ _ _ H3), (need_s_ok _ _ _ H4), (need_s_ok _ _ _ H5). cbn [rbind].
  rewrite (need_u64_ok _ _ _ H2 Hu), (need_time_ok _ _ _ H6). cbn [rbind].
  rewrite (read_map_ok _ _ _ _ H7), H8. done.
Qed.

Lemma mailbox_row_key reg seq item :
  reg ≠ "" → item !! "registration_id" = Some (AS reg) → item !! "seq_num" = Some (AN (pretty seq)) →
  key_of event_mailbox_spec item = Some (box_key (reg, seq)).
Proof.
  intros Hr H1 H2. unfold key_of, get_s, get_n. cbn. rewrite H1, H2. cbn.
  rewrite !nonempty_ok; [done|apply pretty_ne|done].
Qed.

Lemma mailbox_row_number reg seq e :
  is_u64 seq → range_number event_mailbox_spec (event_to_item reg seq e) = seq.
Proof.
  intros Hu. destruct (event_to_item_lookup reg seq e) as (_ & H2 & _). unfold range_number. cbn.
  cbn zeta in H2. rewrite H2. cbn. rewrite num_value_pretty; [done|]. unfold is_u64, u64_max in Hu. lia.
Qed.
End rows.

(** ** Mailboxes *)

Lemma sorted_lt_NoDup (l : list Z) : StronglySorted Z.lt l → NoDup l.
Proof.
  induction 1 as [|x l _ IH Hf]; constructor; [|done]. intros Hx.
  rewrite Forall_forall in Hf. apply Hf in Hx. lia.
Qed.

Lemma sorted_perm_unique {A} (f : A → Z) (l1 l2 : list A) :
  l1 ≡ₚ l2 → StronglySorted Z.le (f <$> l1) → StronglySorted Z.lt (f <$> l2) → l1 = l2.
Proof.
  intros Hp H1 H2.
  assert (Hle : ∀ l, StronglySorted Z.le (f <$> l) → StronglySorted (λ x y, (f x ≤ f y)%Z) l).
  { induction l as [|x l IH]; cbn; [constructor|]. intros [Hs Hf]%StronglySorted_inv.
    constructor; [by apply IH|]. by rewrite Forall_fmap in Hf. }
  assert (H2' : StronglySorted Z.le (f <$> l2)).
  { clear -H2. induction H2 as [|x l _ IH Hf]; constructor; [done|].
    eapply Forall_impl; [done|]. intros y Hy. cbn in Hy. lia. }
  eapply (StronglySorted_unique_strong (λ x y, (f x ≤ f y)%Z)); [|by apply Hle..|done].
  intros x y Hx Hy Hxy Hyx. rewrite Hp in Hx. clear -Hx Hy Hxy Hyx H2.
  induction l2 as [|z l IH]; [by apply elem_of_nil in Hx|]. cbn in H2.
  apply StronglySorted_inv in H2 as [Hs Hf]. rewrite Forall_fmap, Forall_forall in Hf.
  apply elem_of_cons in Hx as [->|Hx], Hy as [->|Hy]; [done|..|by apply IH].
  - apply Hf in Hy. cbn in Hy. lia.
  - apply Hf in Hx. cbn in Hx. lia.
Qed.

(** Entries without the numbers [seqs]. *)
Definition drop_seqs (seqs : list Z) (l : list (Z * EventRecord)) : list (Z * EventRecord) :=
  List.filter (λ e, negb (bool_decide (e.1 ∈ seqs))) l.

Definition box_drop (reg : string) (seqs : list Z) (bx : string → list (Z * EventRecord)) :=
  λ r, if decide (r = reg) then drop_seqs seqs (bx r) else bx r.

Lemma drop_seqs_elem seqs l k e : (k, e) ∈ drop_seqs seqs l ↔ (k, e) ∈ l ∧ k ∉ seqs.
Proof.
  unfold drop_seqs. rewrite filter_bool_elem. cbn. by rewrite negb_true_iff, bool_decide_eq_false.
Qed.

Section mailbox.
Context {I : MapIter} {R : Rfc3339} {RL : Rfc3339Laws R}.
Context {D : Type} {DB : Dynamo D} {DV : DynamoView D} {DL : DynamoLaws D} {DH : DynamoHealthy D}.
Implicit Types (d : D) (s : DynamoEventStore D) (bx : string → list (Z * EventRecord)).

Abbreviation mailbox_rows mm := (rows_of box_key (λ k e, event_to_item k.1 k.2 e) mm).
Abbreviation mailbox_table mm := (mkTable event_mailbox_spec (mailbox_rows mm)).

(** The mailbox table holds the entries [bx]. *)
Record holds_boxes d (t : string) bx (mm : gmap (string * Z) EventRecord) : Prop := {
  hb_rows : tables d !! t = Some (mailbox_table mm);
  hb_boxes : ∀ reg k e, mm !! (reg, k) = Some e ↔ (k, e) ∈ bx reg;
  hb_good : ∀ reg k e, (k, e) ∈ bx reg → reg ≠ "" ∧ is_u64 k ∧ er_seq_num e = k;
  hb_sorted : ∀ reg, StronglySorted Z.lt (bx reg).*1
}.

Lemma boxes_wf d t bx mm : holds_boxes d t bx mm → table_wf (mailbox_table mm).
Proof.
  intros [Hrows Hb Hg _]. apply rows_of_wf; [apply _|]. intros [reg k] e He.
  apply Hb in He. destruct (Hg _ _ _ He) as (Hr & _ & _).
  destruct (event_to_item_lookup reg k e) as (H1 & H2 & _). by apply mailbox_row_key.
Qed.

Definition box_items (reg : string) (l : list (Z * EventRecord)) : list Item :=
  (λ ke, event_to_item reg ke.1 ke.2) <$> l.

Lemma box_items_numbers reg l :
  (∀ k e, (k, e) ∈ l → is_u64 k) → range_number event_mailbox_spec <$> box_items reg l = l.*1.
Proof.
  intros Hu. unfold box_items. rewrite <- list_fmap_compose. apply list_fmap_ext. intros i [k e] Hi.
  cbn. apply mailbox_row_number. eapply Hu. by eapply list_elem_of_lookup_2.
Qed.

(** A query by registration reads the mailbox in order. *)
Lemma query_rows_box d t bx mm reg :
  holds_boxes d t bx mm → query_rows d t reg = box_items reg (bx reg).
Proof.
  intros Hh. pose proof Hh as [Hrows Hb Hg Hs].
  destruct (query_rows_law d t reg (mailbox_table mm)) as [Hp Hsort]; [by rewrite replica_tables|].
  specialize (Hsort "seq_num" eq_refl).
  apply (sorted_perm_unique (range_number event_mailbox_spec)); [|done|].
  2: { rewrite box_items_numbers; [apply Hs|]. intros k e He. by apply (Hg reg k e). }
  rewrite Hp. cbn [tb_spec tb_rows tp_hash event_mailbox_spec].
  assert (Hf : List.filter (λ it, bool_decide (get_s it "registration_id" = Some reg))
      ((λ ka, event_to_item ka.1.1 ka.1.2 ka.2) <$> map_to_list mm) =
    (λ ka, event_to_item ka.1.1 ka.1.2 ka.2) <$>
      List.filter (λ ka, bool_decide (ka.1.1 = reg)) (map_to_list mm)).
  { induction (map_to_list mm) as [|[[r k] e] l IH]; cbn [fmap list_fmap List.filter]; [done|].
    assert (Hr : get_s (event_to_item r k e) "registration_id" = Some r)
      by (unfold get_s; by rewrite (proj1 (event_to_item_lookup r k e))).
    cbn [fst snd]. rewrite Hr.
    rewrite (bool_decide_ext (Some r = Some reg) (r = reg)) by (split; [by intros [= ->]|by intros ->]).
    destruct (bool_decide (r = reg)); cbn [fmap list_fmap]; [f_equal|]; exact IH. }
  rewrite (rows_of_values box_key), Hf. unfold box_items.
  assert (Hl : List.filter (λ ka, bool_decide (ka.1.1 = reg)) (map_to_list mm) ≡ₚ
    (λ ke, ((reg, ke.1), ke.2)) <$> bx reg).
  { apply NoDup_Permutation.
    - apply NoDup_ListNoDup, List.NoDup_filter, NoDup_ListNoDup, NoDup_map_to_list.
    - apply NoDup_fmap_2; [intros [] [] [=]; by simplify_eq|].
      eapply (NoDup_fmap_1 fst), sorted_lt_NoDup, Hs.
    - intros [[r k] e]. rewrite filter_bool_elem, elem_of_map_to_list, list_elem_of_fmap. cbn.
      rewrite bool_decide_eq_true, Hb. split.
      + intros [He ->]. by exists (k, e).
      + intros ([k' e'] & [= -> -> ->] & He). done. }
  rewrite Hl, <- list_fmap_compose. done.
Qed.

(** *** Batch deletes *)
Lemma mailbox_key_key reg (k : Z) :
  reg ≠ "" → key_of event_mailbox_spec (mailbox_key reg (pretty k)) = Some (box_key (reg, k)).
Proof. intros Hr. apply mailbox_row_key; [done|..]; unfold mailbox_key; by simplify_map_eq. Qed.

Definition seq_keys (reg : string) (seqs : list Z) : list Item :=
  (λ q, mailbox_key reg (pretty q)) <$> seqs.

Lemma seq_keys_of reg seqs :
  reg ≠ "" → key_of event_mailbox_spec <$> seq_keys reg seqs = (λ q, Some (box_key (reg, q))) <$> seqs.
Proof.
  intros Hr. unfold seq_keys. rewrite <- list_fmap_compose. apply list_fmap_ext. intros i q _. cbn.
  by apply mailbox_key_key.
Qed.

Lemma delete_seqs_rows (reg : string) (seqs : list Z) (mm : gmap (string * Z) EventRecord) :
  reg ≠ "" →
  foldl del_row (mailbox_table mm) (omap (key_of event_mailbox_spec) (seq_keys reg seqs)) =
    mailbox_table (foldl (λ m q, delete (reg, q) m) mm seqs).
Proof.
  intros Hr. revert mm. induction seqs as [|q seqs IH]; intros mm; [done|].
  cbn [seq_keys fmap list_fmap omap list_omap]. rewrite mailbox_key_key by done. cbn [foldl].
  unfold del_row at 2. cbn [tb_spec tb_rows]. rewrite <- (rows_of_delete box_key). apply IH.
Qed.

Lemma delete_seqs_lookup (reg : string) (seqs : list Z) (mm : gmap (string * Z) EventRecord) r k e :
  foldl (λ m q, delete (reg, q) m) mm seqs !! (r, k) = Some e ↔
    mm !! (r, k) = Some e ∧ ¬ (r = reg ∧ k ∈ seqs).
Proof.
  revert mm. induction seqs as [|q seqs IH]; intros mm; cbn.
  - rewrite elem_of_nil. naive_solver.
  - rewrite IH, lookup_delete_Some, elem_of_cons. naive_solver.
Qed.

(** The tables after the mailbox rows [seqs] of [reg] are gone. *)
Definition boxes_dropped s s' (reg : string) (seqs : list Z) bx : Prop :=
  (∃ mm, holds_boxes (de_client s') (de_mailbox_table s) (box_drop reg seqs bx) mm) ∧
  (∀ t, t ≠ de_mailbox_table s → tables (de_client s') !! t = tables (de_client s) !! t) ∧
  de_sub_table s' = de_sub_table s ∧ de_mailbox_table s' = de_mailbox_table s.

Lemma holds_drop d d' t (reg : string) (seqs : list Z) bx mm :
  holds_boxes d t bx mm →
  tables d' = <[t := mailbox_table (foldl (λ m q, delete (reg, q) m) mm seqs)]> (tables d) →
  holds_boxes d' t (box_drop reg seqs bx) (foldl (λ m q, delete (reg, q) m) mm seqs).
Proof.
  intros [Hrows Hb Hg Hs] Ht. unfold box_drop. split.
  - by rewrite Ht, lookup_insert_eq.
  - intros r k e. rewrite delete_seqs_lookup, Hb. case_decide as Hd.
    + rewrite drop_seqs_elem. naive_solver.
    + naive_solver.
  - intros r k e. case_decide as Hd; [rewrite drop_seqs_elem; intros [He _]|intros He]; by apply Hg.
  - intros r. case_decide; [|done]. by apply sorted_filter.
Qed.

Lemma flush_ok n s (reg : string) (seqs : list Z) bx mm :
  holds_boxes (de_client s) (de_mailbox_table s) bx mm → reg ≠ "" →
  NoDup seqs → length seqs ≤ 25 → 0 < n →
  ∃ s', flush n s (seq_keys reg seqs) = (s', Ok ()) ∧ boxes_dropped s s' reg seqs bx.
Proof.
  intros Hh Hr Hnd Hlen Hn. destruct n as [|n]; [lia|].
  destruct seqs as [|q seqs].
  { exists s. split; [done|]. unfold boxes_dropped. split_and!; [|done..]. exists mm.
    by apply (holds_drop _ _ _ reg [] _ _ Hh); rewrite insert_id by apply Hh. }
  set (qs := q :: seqs) in *.
  assert (Hserved : (batch_delete_item (de_client s) (de_mailbox_table s) (seq_keys reg qs)).2 = Ok []).
  { eapply batch_served; [apply Hh|unfold seq_keys; by rewrite length_fmap|..]; cbn [tb_spec].
    - apply Forall_forall. intros it (x & -> & _)%list_elem_of_fmap. by rewrite mailbox_key_key.
    - rewrite seq_keys_of by done. apply NoDup_fmap_2; [|done]. intros a b [= Hab].
      by apply (inj pretty) in Hab. }
  pose proof (batch_delete_law (de_client s) (de_mailbox_table s) (seq_keys reg qs)) as Hlaw.
  cbn zeta in Hlaw. destruct Hlaw as (ks & _ & _ & Hok). destruct (Hok [] Hserved) as [Hperm (tb & Ht & Htabs)].
  rewrite app_nil_r in Hperm. rewrite (hb_rows _ _ _ _ Hh) in Ht. injection Ht as <-. cbn [tb_spec] in Htabs.
  assert (Hsame : foldl del_row (mailbox_table mm) (omap (key_of event_mailbox_spec) ks) =
    foldl del_row (mailbox_table mm) (omap (key_of event_mailbox_spec) (seq_keys reg qs))).
  { symmetry. apply del_rows_perm. by rewrite Hperm. }
  rewrite Hsame, delete_seqs_rows in Htabs by done.
  change (flush (S n) s (seq_keys reg qs)) with
    (let '(d, r) := batch_delete_item (de_client s) (de_mailbox_table s) (seq_keys reg qs) in
     match r with
     | Err e => (set_client s d, Err (sdk_storage "batch_write_item" e))
     | Ok unprocessed => flush n (set_client s d) unprocessed
     end).
  destruct (batch_delete_item _ _ _) as [d r]. cbn [fst snd] in *. subst r.
  exists (set_client s d). split; [by destruct n|]. unfold boxes_dropped. split_and!; [|..|done|done].
  - eexists. by eapply holds_drop.
  - intros t Hne. cbn. by rewrite Htabs, lookup_insert_ne.
Qed.

Lemma holds_boxes_ext d t bx bx' mm :
  (∀ r, bx r = bx' r) → holds_boxes d t bx mm → holds_boxes d t bx' mm.
Proof.
  intros Heq [Hrows Hb Hg Hs]. split; [done|..].
  - intros. rewrite <- Heq. apply Hb.
  - intros reg k e. rewrite <- Heq. apply Hg.
  - intros reg. rewrite <- Heq. apply Hs.
Qed.

Lemma drop_seqs_app a b l : drop_seqs b (drop_seqs a l) = drop_seqs (a ++ b) l.
Proof.
  unfold drop_seqs. induction l as [|x l IH]; [done|]. cbn [List.filter].
  destruct (decide (x.1 ∈ a)) as [Ha|Ha].
  - rewrite (bool_decide_eq_true_2 (x.1 ∈ a)), (bool_decide_eq_true_2 (x.1 ∈ a ++ b))
      by (rewrite ?elem_of_app; auto). exact IH.
  - rewrite (bool_decide_eq_false_2 (x.1 ∈ a)) by done. cbn [negb List.filter].
    rewrite (bool_decide_ext (x.1 ∈ a ++ b) (x.1 ∈ b)) by (rewrite elem_of_app; naive_solver).
    destruct (negb _); [f_equal|]; exact IH.
Qed.

Lemma dropped_trans s s1 s2 reg a b bx :
  boxes_dropped s s1 reg a bx → boxes_dropped s1 s2 reg b (box_drop reg a bx) →
  boxes_dropped s s2 reg (a ++ b) bx.
Proof.
  intros (_ & Ht1 & Hs1 & Hm1) ([mm Hh] & Ht2 & Hs2 & Hm2). unfold boxes_dropped.
  rewrite Hm1 in Hh, Ht2. split_and!; [|intros; by rewrite Ht2, Ht1|congruence..].
  exists mm. eapply holds_boxes_ext, Hh. intros r. unfold box_drop. case_decide; [|done].
  apply drop_seqs_app.
Qed.

Lemma flush_all_ok s reg (cs : list (list Z)) bx mm :
  holds_boxes (de_client s) (de_mailbox_table s) bx mm → reg ≠ "" →
  Forall (λ c, length c ≤ 25) cs → NoDup (concat cs) →
  ∃ s', flush_all s (seq_keys reg <$> cs) = (s', Ok ()) ∧ boxes_dropped s s' reg (concat cs) bx.
Proof.
  intros Hh Hr Hlen. revert s bx mm Hh. induction Hlen as [|c cs Hc _ IH]; intros s bx mm Hh Hnd.
  - destruct (flush_ok 1 s reg [] bx mm Hh Hr) as (s' & Hf & Hd); [constructor|cbn; lia|lia|].
    cbn in Hf. injection Hf as <-. by exists s.
  - cbn in Hnd. apply NoDup_app in Hnd as (Hnd & _ & Hnds).
    destruct (flush_ok BATCH_DELETE_MAX_ATTEMPTS s reg c bx mm Hh Hr Hnd Hc) as (s1 & Hf & Hd);
      [unfold BATCH_DELETE_MAX_ATTEMPTS; lia|].
    destruct Hd as ([mm1 Hh1] & Hd). pose proof Hd as (_ & _ & Hm).
    destruct (IH s1 (box_drop reg c bx) mm1) as (s2 & Hf2 & Hd2); [by rewrite Hm|done|].
    exists s2. cbn [fmap list_fmap flush_all]. rewrite Hf. split; [done|].
    cbn [concat]. eapply dropped_trans, Hd2. split; [by exists mm1|done].
Qed.

Lemma batch_delete_ok s reg (seqs : list Z) bx mm :
  holds_boxes (de_client s) (de_mailbox_table s) bx mm → reg ≠ "" → NoDup seqs →
  ∃ s', batch_delete s (seq_keys reg seqs) = (s', Ok ()) ∧ boxes_dropped s s' reg seqs bx.
Proof.
  intros Hh Hr Hnd. unfold batch_delete, seq_keys. rewrite chunks_fmap.
  destruct (flush_all_ok s reg (chunks 25 seqs) bx mm Hh Hr) as (s' & Hf & Hd).
  - apply chunks_go_length.
  - rewrite chunks_concat by lia. done.
  - exists s'. rewrite chunks_concat in Hd by lia. done.
Qed.

(** *** Draining a mailbox *)
Lemma page_keys_box reg l : page_keys reg (box_items reg l) = seq_keys reg l.*1.
Proof.
  induction l as [|[k e] l IH]; [done|]. unfold page_keys, box_items in *. cbn [fmap list_fmap omap list_omap].
  unfold get_n. destruct (event_to_item_lookup reg k e) as (_ & H2 & _). cbn zeta in H2. cbn [fst snd].
  rewrite H2. cbn. f_equal. exact IH.
Qed.

Lemma seq_number_key reg k e (st : Item) :
  reg ≠ "" → is_u64 k → key_of event_mailbox_spec st = key_of event_mailbox_spec (event_to_item reg k e) →
  is_Some (key_of event_mailbox_spec st) ∧ range_number event_mailbox_spec st = k.
Proof.
  intros Hr Hu. destruct (event_to_item_lookup reg k e) as (H1 & H2 & _). cbn zeta in *.
  rewrite (mailbox_row_key reg k _ Hr H1 H2). intros Hk. split; [by rewrite Hk|].
  unfold key_of in Hk. cbn in Hk. destruct (get_s st "registration_id" ≫= nonempty); [|done].
  unfold get_n, range_number in *. cbn in *.
  destruct (st !! "seq_num") as [[?|n|?|?|?|?]|]; cbn in *; try done.
  unfold nonempty in Hk. destruct (is_empty n); [done|]. cbn in Hk. injection Hk as _ ->.
  rewrite num_value_pretty; [done|]. unfold is_u64, u64_max in Hu. lia.
Qed.

(** The rows past the last row of a page. *)
Lemma rows_beyond_box reg (l1 l2 : list (Z * EventRecord)) k (st : Item) :
  (∀ k e, (k, e) ∈ l1 ++ l2 → is_u64 k) → StronglySorted Z.lt (l1 ++ l2).*1 →
  last l1.*1 = Some k → range_number event_mailbox_spec st = k →
  rows_beyond event_mailbox_spec (Some st) (box_items reg (l1 ++ l2)) = box_items reg l2.
Proof.
  intros Hu Hs Hlast Hk. cbn [rows_beyond]. rewrite Hk. unfold box_items.
  assert (Hf : ∀ l : list (Z * EventRecord), (∀ k e, (k, e) ∈ l → is_u64 k) →
    List.filter (λ it, (k <? range_number event_mailbox_spec it)%Z)
      ((λ ke, event_to_item reg ke.1 ke.2) <$> l) =
    (λ ke, event_to_item reg ke.1 ke.2) <$> List.filter (λ ke, (k <? ke.1)%Z) l).
  { intros l Hl. induction l as [|[q e] l IH]; cbn [fmap list_fmap List.filter]; [done|]. cbn [fst snd].
    rewrite mailbox_row_number by (by apply (Hl q e); left).
    destruct (k <? q)%Z; cbn [fmap list_fmap]; [f_equal|]; apply IH; intros; eapply Hl; by right. }
  rewrite Hf by done. f_equal. rewrite List.filter_app. rewrite fmap_app in Hs.
  apply last_Some in Hlast as [pre Hl1].
  assert (H1 : List.filter (λ ke : Z * EventRecord, (k <? ke.1)%Z) l1 = []).
  { apply filter_none. intros [q e] Hq. cbn. apply Z.ltb_ge.
    apply (list_elem_of_fmap_2 fst) in Hq. cbn in Hq. rewrite Hl1 in Hq, Hs.
    apply elem_of_app in Hq as [Hq|Hq]; [|by apply list_elem_of_singleton in Hq as ->].
    rewrite <- app_assoc in Hs. apply Z.lt_le_incl.
    eapply (StronglySorted_app_1_elem_of _ _ _ q k Hs Hq). by left. }
  assert (H2 : List.filter (λ ke : Z * EventRecord, (k <? ke.1)%Z) l2 = l2).
  { apply filter_all. intros [q e] Hq. cbn. apply Z.ltb_lt.
    apply (list_elem_of_fmap_2 fst) in Hq. cbn in Hq.
    eapply (StronglySorted_app_1_elem_of _ _ _ k q Hs); [|done]. rewrite Hl1. apply elem_of_app. right. by left. }
  by rewrite H1, H2.
Qed.

Lemma box_items_app_inv reg l seg rest :
  box_items reg l = seg ++ rest →
  ∃ l1 l2, l = l1 ++ l2 ∧ seg = box_items reg l1 ∧ rest = box_items reg l2.
Proof. intros Heq. apply fmap_app_inv in Heq as (l1 & l2 & -> & -> & ->). by exists l1, l2. Qed.

Lemma box_items_last reg l seg0 it :
  box_items reg l = seg0 ++ [it] →
  ∃ k e, it = event_to_item reg k e ∧ (k, e) ∈ l ∧ last l.*1 = Some k.
Proof.
  intros (l1 & l2 & -> & -> & Hit)%box_items_app_inv.
  destruct l2 as [|[k e] [|]]; [done| |done]. injection Hit as ->. exists k, e. split; [done|].
  split; [apply elem_of_app; right; by left|]. by rewrite fmap_app, last_app.
Qed.

Lemma drop_seqs_prefix (l1 l2 : list (Z * EventRecord)) :
  StronglySorted Z.lt (l1 ++ l2).*1 → drop_seqs l1.*1 (l1 ++ l2) = l2.
Proof.
  intros Hs. rewrite fmap_app in Hs. unfold drop_seqs. rewrite List.filter_app, filter_none, filter_all; [done|..].
  - intros [k e] Hk. cbn. rewrite negb_true_iff. apply bool_decide_eq_false. intros Hin.
    apply (list_elem_of_fmap_2 fst) in Hk. cbn in Hk.
    pose proof (StronglySorted_app_1_elem_of _ _ _ k k Hs Hin Hk). lia.
  - intros [k e] Hk. cbn. rewrite negb_false_iff. apply bool_decide_eq_true.
    by apply (list_elem_of_fmap_2 fst) in Hk.
Qed.

(** A page of a mailbox query on a healthy database. *)
Lemma mailbox_page d t bx mm reg after limit start :
  holds_boxes d t bx mm → reg ≠ "" → limit ≠ Some 0 →
  (∀ st, start = Some st → is_Some (key_of event_mailbox_spec st)) →
  ∃ page, query d t reg after limit start = Ok page ∧
    page_of event_mailbox_spec (λ _, true) limit
      (rows_beyond event_mailbox_spec start
         (List.filter (range_after event_mailbox_spec after) (box_items reg (bx reg)))) page.
Proof.
  intros Hh Hr Hlim Hst. pose proof (query_served d t (mailbox_table mm) reg after limit start
    (hb_rows _ _ _ _ Hh) Hlim Hr Hst) as Hok.
  destruct (query d t reg after limit start) as [page|] eqn:E; [|done]. exists page. split; [done|].
  destruct (query_law _ _ _ _ _ _ _ E) as (tb & Ht & _ & Hpage).
  rewrite replica_tables, (hb_rows _ _ _ _ Hh) in Ht. injection Ht as <-.
  by rewrite <- (query_rows_box _ _ _ _ _ Hh).
Qed.

Lemma drain_loop_ok fuel s reg bx mm start :
  holds_boxes (de_client s) (de_mailbox_table s) bx mm → reg ≠ "" → length (bx reg) < fuel →
  (∀ st, start = Some st → is_Some (key_of event_mailbox_spec st) ∧
    ∀ k e, (k, e) ∈ bx reg → (range_number event_mailbox_spec st < k)%Z) →
  ∃ s', drain_loop fuel s reg start = (s', Ok ()) ∧ boxes_dropped s s' reg (bx reg).*1 bx.
Proof.
  intros Hh Hr. revert s bx mm start Hh. induction fuel as [|fuel IH]; intros s bx mm start Hh Hlen Hst; [lia|].
  assert (Hu : ∀ k e, (k, e) ∈ bx reg → is_u64 k) by (intros k e He; by apply (hb_good _ _ _ _ Hh reg k e)).
  pose proof (hb_sorted _ _ _ _ Hh reg) as Hs.
  destruct (mailbox_page _ _ _ _ reg None None start Hh Hr) as (page & Hq & Hpage);
    [done|intros st H; by destruct (Hst st H)|].
  assert (Hrows : rows_beyond event_mailbox_spec start
    (List.filter (range_after event_mailbox_spec None) (box_items reg (bx reg))) = box_items reg (bx reg)).
  { rewrite (filter_all (range_after _ _)) by done. destruct start as [st|]; [|done]. cbn [rows_beyond].
    apply filter_all. intros it ([k e] & -> & Hin)%list_elem_of_fmap. cbn [fst snd].
    rewrite mailbox_row_number by (by eapply Hu). apply Z.ltb_lt. by eapply (Hst st). }
  rewrite Hrows in Hpage. destruct Hpage as (seg & rest & Hrf & Hit & _ & Hlast).
  rewrite filter_true in Hit. apply box_items_app_inv in Hrf as (l1 & l2 & Hl & -> & ->).
  rewrite Hl in Hs, Hlen, Hu.
  destruct (batch_delete_ok s reg l1.*1 bx mm Hh Hr) as (s1 & Hdel & Hd1).
  { apply sorted_lt_NoDup. rewrite fmap_app in Hs. by eapply StronglySorted_app_1_l. }
  cbn [drain_loop]. rewrite Hq, Hit, page_keys_box, Hdel.
  destruct (pg_last page) as [k|].
  - destruct Hlast as (seg0 & it & Hseg & Hk).
    apply box_items_last in Hseg as (q & e & -> & Hqe & Hlq).
    assert (Hq1 : (q, e) ∈ l1 ++ l2) by (apply elem_of_app; by left).
    destruct (seq_number_key reg q e k Hr (Hu _ _ Hq1) Hk) as [Hkk Hkn].
    pose proof Hd1 as ([mm1 Hh1] & _ & _ & Hm1).
    assert (Hl2 : box_drop reg l1.*1 bx reg = l2).
    { unfold box_drop. rewrite decide_True by done. rewrite Hl. by apply drop_seqs_prefix. }
    destruct (IH s1 (box_drop reg l1.*1 bx) mm1 (Some k)) as (s2 & Hdr & Hd2).
    + by rewrite Hm1.
    + rewrite Hl2. rewrite length_app in Hlen. destruct l1; [by apply elem_of_nil in Hqe|]. cbn in Hlen. lia.
    + intros st [= <-]. split; [done|]. rewrite Hl2, Hkn. intros q' e' Hq'. rewrite fmap_app in Hs.
      apply (StronglySorted_app_1_elem_of _ _ _ q q' Hs).
      * by apply (list_elem_of_fmap_2 fst) in Hqe.
      * by apply (list_elem_of_fmap_2 fst) in Hq'.
    + exists s2. split; [done|]. rewrite Hl, fmap_app. eapply dropped_trans; [done|]. by rewrite Hl2 in Hd2.
  - exists s1. split; [done|]. destruct l2; [|done]. rewrite app_nil_r in Hl. by rewrite Hl.
Qed.

(** Draining a mailbox page by page removes every event of the
    registration and no other, although each page is deleted before the next is
    read. *)
Lemma drain_mailbox_ok s reg bx mm :
  holds_boxes (de_client s) (de_mailbox_table s) bx mm → reg ≠ "" →
  ∃ s', drain_mailbox s reg = (s', Ok ()) ∧ boxes_dropped s s' reg (bx reg).*1 bx.
Proof.
  intros Hh Hr. apply (drain_loop_ok _ s reg bx mm None Hh Hr); [|done].
  unfold query_fuel. rewrite (query_rows_box _ _ _ _ _ Hh). unfold box_items. rewrite length_fmap. lia.
Qed.

(** *** Peeking *)
Lemma filter_items_after reg after l :
  (∀ k e, (k, e) ∈ l → is_u64 k) →
  List.filter (range_after event_mailbox_spec (Some after)) (box_items reg l) =
    box_items reg (bt_range after l).
Proof.
  intros Hu. unfold box_items, bt_range. induction l as [|[k e] l IH]; [done|].
  assert (Hk : is_u64 k) by (apply (Hu k e); left).
  assert (Hra : range_after event_mailbox_spec (Some after) (event_to_item reg k e) = (after <? k)%Z).
  { pose proof (mailbox_row_number reg k e Hk) as Hn. unfold range_number in Hn. cbn in Hn |- *.
    destruct (event_to_item_lookup reg k e) as (_ & H2 & _). cbn zeta in H2. rewrite H2 in Hn |- *. cbn in *.
    rewrite num_value_pretty; [done|]. unfold is_u64, u64_max in Hk. lia. }
  cbn [fmap list_fmap List.filter fst snd]. rewrite Hra.
  destruct (after <? k)%Z; cbn [fmap list_fmap]; [f_equal|]; apply IH; intros; eapply Hu; by right.
Qed.

Lemma decode_box reg l :
  (∀ k e, (k, e) ∈ l → is_u64 k ∧ er_seq_num e = k) →
  decode_all (one event_from_item) (box_items reg l) = Ok l.*2.
Proof.
  unfold box_items. induction l as [|[k e] l IH]; intros Hl; [done|].
  destruct (Hl k e) as [Hu He]; [left|]. cbn [fmap list_fmap decode_all fst snd]. unfold one at 1.
  rewrite event_roundtrip by done. cbn [rmap rbind]. rewrite IH by (intros; apply Hl; by right).
  cbn. do 2 f_equal. destruct e. cbn in *. by subst.
Qed.

Lemma peek_loop_ok fuel s reg after limit bx mm l1 l2 start :
  holds_boxes (de_client s) (de_mailbox_table s) bx mm → reg ≠ "" →
  bt_range after (bx reg) = l1 ++ l2 → length l2 < fuel →
  match start with
  | None => l1 = []
  | Some st => is_Some (key_of event_mailbox_spec st) ∧
      last l1.*1 = Some (range_number event_mailbox_spec st)
  end →
  ∃ out, peek_loop fuel s reg after limit l1.*2 start = Ok out ∧ take limit out = take limit (l1 ++ l2).*2.
Proof.
  intros Hh Hr. revert l1 l2 start. induction fuel as [|fuel IH]; intros l1 l2 start Hf Hlen Hst; [lia|].
  assert (Hg : ∀ k e, (k, e) ∈ bx reg → is_u64 k ∧ er_seq_num e = k)
    by (intros k e He; by apply (hb_good _ _ _ _ Hh reg k e)).
  assert (Hg' : ∀ k e, (k, e) ∈ l1 ++ l2 → is_u64 k ∧ er_seq_num e = k)
    by (intros k e; rewrite <- Hf; intros [He _]%filter_bool_elem; by apply Hg).
  assert (Hs : StronglySorted Z.lt (l1 ++ l2).*1)
    by (rewrite <- Hf; apply sorted_filter, (hb_sorted _ _ _ _ Hh)).
  cbn [peek_loop]. destruct (Nat.leb_spec limit (length l1.*2)) as [Hle|Hgt].
  { exists l1.*2. split; [done|]. by rewrite fmap_app, take_app_le. }
  set (remaining := Z.to_nat (Z.min (Z.of_nat (limit - length l1.*2)) i32_max)).
  destruct (mailbox_page _ _ _ _ reg (Some after) (Some remaining) start Hh Hr) as (page & Hq & Hpage).
  { unfold remaining, i32_max. intros [= H0]. lia. }
  { intros st ->. by destruct Hst. }
  assert (Hrows : rows_beyond event_mailbox_spec start (List.filter (range_after event_mailbox_spec (Some after))
      (box_items reg (bx reg))) = box_items reg l2).
  { rewrite filter_items_after by (intros k e He; by apply (Hg k e)). rewrite Hf.
    destruct start as [st|]; [|by subst l1]. destruct Hst as [_ Hlast].
    eapply rows_beyond_box; [intros k e He; by apply (Hg' k e)|done|done|done]. }
  rewrite Hrows in Hpage. destruct Hpage as (seg & rest & Hrf & Hit & _ & Hlast).
  rewrite filter_true in Hit. apply box_items_app_inv in Hrf as (m1 & m2 & -> & -> & ->).
  rewrite Hq. cbn [map_err rbind]. rewrite Hit, push_decoded_eq, decode_box.
  2: { intros k e He. apply Hg'. rewrite !elem_of_app. auto. }
  cbn [rmap rbind]. rewrite <- fmap_app, app_assoc. destruct (pg_last page) as [k|].
  - destruct Hlast as (seg0 & it & Hseg & Hk). apply box_items_last in Hseg as (q & e & -> & Hqe & Hlq).
    destruct (Hg' q e) as [Hu _]; [rewrite !elem_of_app; auto|].
    destruct (seq_number_key reg q e k Hr Hu Hk) as [Hkk Hkn].
    apply IH; [by rewrite <- app_assoc| |].
    + rewrite length_app in Hlen. destruct m1; [by apply elem_of_nil in Hqe|]. cbn in Hlen. lia.
    + split; [done|]. rewrite fmap_app, last_app, Hlq. by rewrite Hkn.
  - destruct m2; [|done]. rewrite !app_nil_r. eauto.
Qed.

Lemma mailbox_peek_ok s reg after limit bx mm :
  holds_boxes (de_client s) (de_mailbox_table s) bx mm → reg ≠ "" →
  peek s reg after limit = Ok (take limit (bt_range after (bx reg))).*2.
Proof.
  intros Hh Hr. unfold peek.
  destruct (peek_loop_ok (query_fuel (de_client s) (de_mailbox_table s) reg) s reg after limit bx mm
    [] (bt_range after (bx reg)) None Hh Hr eq_refl) as (out & Hout & Htake); [|done|].
  - unfold query_fuel. rewrite (query_rows_box _ _ _ _ _ Hh). unfold box_items. rewrite length_fmap.
    unfold bt_range. pose proof (List.filter_length_le (λ e : Z * EventRecord, (after <? e.1)%Z) (bx reg)). lia.
  - cbn [fmap list_fmap] in Hout. rewrite Hout. cbn. by rewrite Htake, fmap_take.
Qed.
End mailbox.

(** ** Sample tables *)

(** Empty tables, with pages of one row. *)
Definition toy_events : DynamoEventStore ToyDb :=
  with_tables {| toy_tables := <["subs" := mkTable event_sub_spec ∅]> {["mail" := mkTable event_mailbox_spec ∅]};
                 toy_page := 0 |} "subs" "mail".

Definition toy_sub : SubscriptionRecord := mkSub "reg-1" "src" {["k" := "v"]} Durable "lease-1" [] 0.
Definition toy_event (id : string) : EventRecord := mkEvent id "src" "t" 0 {["k" := "v"]} [] 5.
