(* ===== verification/DynamoEventSim.v ===== *)
(** * The DynamoDB event store agrees with the in-memory one

    On a healthy database, any sequence of calls on the two stores gives the same
    answers and leaves the same subscriptions, events and counters. *)

From S2P Require Import Prelude CoreTypes Matcher EventStore Dynamo DynamoCodec DynamoSample DynamoEvent.

(** ** Store calls *)
Inductive EventOp :=
| OpSubscribe (sub : SubscriptionRecord)
| OpGetSub (registration_id : string)
| OpRemoveSub (registration_id : string)
| OpRemoveByLease (lease_id : string)
| OpListSubs
| OpEnqueue (registration_id : string) (e : EventRecord)
| OpPeek (registration_id : string) (after_seq : Z) (limit : nat)
| OpAck (registration_id : string) (seq_nums : list Z).

Inductive EventRes :=
| ResUnit (r : result unit Error)
| ResSub (r : result (option SubscriptionRecord) Error)
| ResSubs (r : result (list SubscriptionRecord) Error)
| ResSeq (r : result Z Error)
| ResEvents (r : result (list EventRecord) Error).

Definition es_apply {S} `{EventStore S} (s : S) (op : EventOp) : S * EventRes :=
  match op with
  | OpSubscribe sub => let '(s', r) := es_create_subscription s sub in (s', ResUnit r)
  | OpGetSub id => (s, ResSub (es_get_subscription s id))
  | OpRemoveSub id => let '(s', r) := es_remove_subscription s id in (s', ResUnit r)
  | OpRemoveByLease l => let '(s', r) := es_remove_by_lease s l in (s', ResSub r)
  | OpListSubs => (s, ResSubs (es_list_subscriptions s))
  | OpEnqueue id e => let '(s', r) := es_enqueue s id e in (s', ResSeq r)
  | OpPeek id after limit => (s, ResEvents (es_peek s id after limit))
  | OpAck id seqs => let '(s', r) := es_ack s id seqs in (s', ResUnit r)
  end.

(** Equal answers, up to the order of a listing of subscriptions. *)
Definition same_event_answer (a b : EventRes) : Prop :=
  match a, b with
  | ResSubs (Ok l1), ResSubs (Ok l2) => l1 ≡ₚ l2
  | _, _ => a = b
  end.

Abbreviation sub_map := (gmap string SubscriptionRecord).
Abbreviation box_map := (gmap string Mailbox).

Definition sub_lease_unused (subs : sub_map) (lease_id : string) : Prop :=
  ∀ id sub, subs !! id = Some sub → sb_lease_id sub ≠ lease_id.

(** What callers pass: ids that are not empty, a new registration and lease for a
    new subscription, distinct numbers to acknowledge; and no registration runs
    out of numbers. *)
Definition event_op_valid (subs : sub_map) (boxes : box_map) (op : EventOp) : Prop :=
  match op with
  | OpSubscribe sub => sb_registration_id sub ≠ "" ∧ sb_lease_id sub ≠ "" ∧
      is_u64 (sb_initial_seq_num sub) ∧ subs !! sb_registration_id sub = None ∧
      sub_lease_unused subs (sb_lease_id sub)
  | OpGetSub id | OpRemoveSub id | OpPeek id _ _ => id ≠ ""
  | OpRemoveByLease l => l ≠ ""
  | OpListSubs => True
  | OpEnqueue id _ => id ≠ "" ∧ ∀ b, boxes !! id = Some b → (last_seq b < u64_max)%Z
  | OpAck id seqs => id ≠ "" ∧ NoDup seqs
  end.

(** ** Agreement with the in-memory store *)
Section agreement.
Context {I : MapIter} {R : Rfc3339} {RL : Rfc3339Laws R}.
Context {D : Type} {DB : Dynamo D} {DV : DynamoView D} {DL : DynamoLaws D} {DH : DynamoHealthy D}.
Context {M : Type} {MS : EventStore M} {MV : EventStoreView M} {ML : EventStoreLaws M}.
Implicit Types (d : D) (s : DynamoEventStore D) (m : M) (subs : sub_map) (boxes : box_map).

Abbreviation sub_table rows := (record_table event_sub_spec sub_row rows).

Definition entries_of boxes (reg : string) : list (Z * EventRecord) :=
  match boxes !! reg with Some b => entries b | None => [] end.

(** The two tables hold [subs] and [boxes], as the rows [rows]. *)
Record events_in s subs boxes (rows : gmap string SubRow) : Prop := {
  ev_names : de_sub_table s ≠ de_mailbox_table s;
  ev_rows : tables (de_client s) !! de_sub_table s = Some (sub_table rows);
  ev_filed : filed sub_row_id rows;
  ev_good : map_Forall (λ _ r, sub_row_good r ∧ sb_lease_id r.1 ≠ "") rows;
  ev_unique : ∀ i j a b, rows !! i = Some a → rows !! j = Some b →
    sb_lease_id a.1 = sb_lease_id b.1 → i = j;
  ev_subs : ∀ id, subs !! id = fst <$> rows !! id;
  ev_last : ∀ id, last_seq <$> boxes !! id = snd <$> rows !! id;
  ev_boxes : ∃ mm, holds_boxes (de_client s) (de_mailbox_table s) (entries_of boxes) mm;
  ev_ok : map_Forall (λ _, box_ok) boxes
}.

Definition holds_events s subs boxes : Prop := ∃ rows, events_in s subs boxes rows.

Lemma holds_boxes_tables d d' t bx mm :
  tables d' !! t = tables d !! t → holds_boxes d t bx mm → holds_boxes d' t bx mm.
Proof. intros Ht [Hrows Hb Hg Hs]. split; [by rewrite Ht|done..]. Qed.

Lemma subs_lookup s subs boxes rows id sub :
  events_in s subs boxes rows → subs !! id = Some sub ↔ ∃ n, rows !! id = Some (sub, n).
Proof.
  intros Hev. rewrite (ev_subs _ _ _ _ Hev). rewrite fmap_Some. split.
  - intros ([x n] & Hr & ->). by exists n.
  - intros [n Hn]. by exists (sub, n).
Qed.

Lemma create_events s subs boxes sub :
  holds_events s subs boxes → event_op_valid subs boxes (OpSubscribe sub) →
  (create_subscription s sub).2 = Ok () ∧
  holds_events (create_subscription s sub).1 (<[sb_registration_id sub := sub]> subs)
    (<[sb_registration_id sub := empty_box]> boxes).
Proof.
  intros [rows Hev] (Hid & Hl & Hu & Hnew & Hun). unfold create_subscription.
  set (row := (sub, 0%Z) : SubRow). change (sub_to_item sub) with (sub_row row).
  pose proof (put_record event_sub_spec sub_row sub_row_id eq_refl sub_row_hash None row rows Hid
    (sub_row_index row Hl)) as Hput.
  destruct (put_item_ok _ _ _ None _ _ (ev_rows _ _ _ _ Hev) Hput) as [Hr Ht].
  destruct (put_item _ _ _ _) as [d res]. cbn [fst snd] in *. subst res. split; [done|].
  exists (<[sb_registration_id sub := row]> rows). destruct Hev as [Hn Hrows Hf Hg Huq Hsub Hlast [mm Hb] Hok].
  assert (Hnone : boxes !! sb_registration_id sub = None).
  { specialize (Hlast (sb_registration_id sub)). specialize (Hsub (sb_registration_id sub)).
    rewrite Hnew in Hsub. destruct (rows !! _); [done|]. cbn in Hlast. by destruct (boxes !! _). }
  split; cbn.
  - done.
  - by rewrite Ht, lookup_insert_eq.
  - apply (filed_insert sub_row_id rows row); done.
  - apply map_Forall_insert_2; [|done]. split; [|done]. split; [done|]. unfold u64_max. cbn. lia.
  - assert (Hother : ∀ i a, rows !! i = Some a → sb_lease_id a.1 ≠ sb_lease_id sub).
    { intros i a Ha. apply (Hun i a.1). by rewrite Hsub, Ha. }
    intros i j a b [[<- <-]|[_ Ha]]%lookup_insert_Some [[<- <-]|[_ Hb']]%lookup_insert_Some Heq;
      [done|..|by eapply Huq].
    + by destruct (Hother _ _ Hb').
    + by destruct (Hother _ _ Ha).
  - intros id. destruct (decide (sb_registration_id sub = id)) as [<-|Hne].
    + by rewrite !lookup_insert_eq.
    + by rewrite !lookup_insert_ne.
  - intros id. destruct (decide (sb_registration_id sub = id)) as [<-|Hne].
    + by rewrite !lookup_insert_eq.
    + by rewrite !lookup_insert_ne.
  - exists mm. eapply holds_boxes_tables; [by rewrite Ht, lookup_insert_ne|].
    eapply holds_boxes_ext, Hb. intros r. unfold entries_of.
    destruct (decide (sb_registration_id sub = r)) as [<-|Hne].
    + by rewrite lookup_insert_eq, Hnone.
    + by rewrite lookup_insert_ne.
  - apply map_Forall_insert_2; [|done]. split; cbn; [constructor|constructor|unfold u64_max; lia].
Qed.

Lemma get_events s subs boxes id :
  holds_events s subs boxes → id ≠ "" → get_subscription s id = Ok (subs !! id).
Proof.
  intros [rows Hev] Hid. unfold get_subscription, sub_key_item.
  change "registration_id" with (tp_hash event_sub_spec).
  rewrite (get_record event_sub_spec sub_row eq_refl _ _ _ id (ev_rows _ _ _ _ Hev) Hid). cbn [map_err rbind].
  rewrite (ev_subs _ _ _ _ Hev). destruct (rows !! id) as [r|] eqn:Hr; cbn; [|done].
  rewrite sub_roundtrip; [done|]. apply (ev_good _ _ _ _ Hev _ _ Hr).
Qed.

Lemma list_events s subs boxes :
  holds_events s subs boxes → ∃ l, list_subscriptions s = Ok l ∧ l ≡ₚ (map_to_list subs).*2.
Proof.
  intros [rows Hev]. destruct (scan_records event_sub_spec sub_row sub_row_id eq_refl sub_row_hash _ _ _
    None None "scan" (one sub_from_item) (λ r, [r.1]) (ev_rows _ _ _ _ Hev) (ev_filed _ _ _ _ Hev))
    as (out & Hout & Hp); [done| |].
  { intros id r Hr _. unfold one. by rewrite sub_roundtrip by apply (ev_good _ _ _ _ Hev _ _ Hr). }
  exists out. split; [done|]. rewrite Hp, filter_true.
  assert (Hsubs : subs = fst <$> rows) by (apply map_eq; intros id; by rewrite lookup_fmap, (ev_subs _ _ _ _ Hev)).
  rewrite Hsubs, map_to_list_fmap.
  assert (Heq : ∀ l : list (string * SubRow), (l.*2 ≫= λ r, [r.1]) = (prod_map id fst <$> l).*2).
  { clear. induction l as [|[i [sub n]] l IH]; cbn; [done|]. by f_equal. }
  by rewrite Heq.
Qed.

(** Deleting a subscription's row and draining its mailbox. *)
Lemma drop_subscription s subs boxes reg :
  holds_events s subs boxes → reg ≠ "" →
  ∃ d o s', delete_item (de_client s) (de_sub_table s) None (sub_key_item reg) = (d, Ok o) ∧
    drain_mailbox (set_client s d) reg = (s', Ok ()) ∧ holds_events s' (delete reg subs) (delete reg boxes).
Proof.
  intros [rows Hev] Hreg. unfold sub_key_item. change "registration_id" with (tp_hash event_sub_spec).
  pose proof (delete_record event_sub_spec sub_row eq_refl None reg rows Hreg) as Hdel.
  destruct (delete_item_ok _ _ _ _ _ _ (ev_rows _ _ _ _ Hev) Hdel) as [Hok Ht].
  destruct (delete_item _ _ _ _) as [d res]. cbn [fst snd] in *. subst res.
  destruct Hev as [Hn Hrows Hf Hg Huq Hsub Hlast [mm Hb] Hbok].
  assert (Hb1 : holds_boxes (de_client (set_client s d)) (de_mailbox_table (set_client s d)) (entries_of boxes) mm).
  { eapply holds_boxes_tables, Hb. cbn. by rewrite Ht, lookup_insert_ne. }
  destruct (drain_mailbox_ok (set_client s d) reg _ mm Hb1 Hreg) as (s' & Hdr & [mm' Hb'] & Htabs & Hst & Hmt).
  exists d, (sub_row <$> rows !! reg), s'. split; [done|]. split; [done|]. exists (delete reg rows). split.
  - by rewrite Hst, Hmt.
  - rewrite Hst, Htabs by done. cbn. by rewrite Ht, lookup_insert_eq.
  - by apply filed_delete.
  - by apply map_Forall_delete.
  - intros i j a b [_ Ha]%lookup_delete_Some [_ Hbj]%lookup_delete_Some. by apply Huq.
  - intros id. destruct (decide (reg = id)) as [<-|Hne].
    + by rewrite !lookup_delete_eq.
    + by rewrite !lookup_delete_ne.
  - intros id. destruct (decide (reg = id)) as [<-|Hne].
    + by rewrite !lookup_delete_eq.
    + by rewrite !lookup_delete_ne.
  - exists mm'. rewrite Hmt. eapply holds_boxes_ext, Hb'. intros r. unfold box_drop. case_decide as Hr.
    + subst r. pose proof (drop_seqs_prefix (entries_of boxes reg) []) as Hall. rewrite !app_nil_r in Hall.
      rewrite Hall by apply Hb. unfold entries_of. by rewrite lookup_delete_eq.
    + unfold entries_of. by rewrite lookup_delete_ne.
  - by apply map_Forall_delete.
Qed.

Lemma remove_events s subs boxes reg :
  holds_events s subs boxes → reg ≠ "" →
  (remove_subscription s reg).2 = Ok () ∧
  holds_events (remove_subscription s reg).1 (delete reg subs) (delete reg boxes).
Proof.
  intros Hs Hreg. destruct (drop_subscription s subs boxes reg Hs Hreg) as (d & o & s' & Hd & Hdr & Hs').
  unfold remove_subscription. rewrite Hd, Hdr. done.
Qed.

Lemma remove_by_lease_events s subs boxes l :
  holds_events s subs boxes → l ≠ "" →
  (∃ reg sub, subs !! reg = Some sub ∧ sb_lease_id sub = l ∧
     (remove_by_lease s l).2 = Ok (Some sub) ∧
     holds_events (remove_by_lease s l).1 (delete reg subs) (delete reg boxes)) ∨
  (sub_lease_unused subs l ∧ remove_by_lease s l = (s, Ok None)).
Proof.
  intros Hs Hl. pose proof Hs as [rows Hev]. unfold remove_by_lease.
  destruct (query_index_ok _ _ _ EVENT_SUB_LEASE_GSI "lease_id" l (ev_rows _ _ _ _ Hev) eq_refl Hl)
    as (o & -> & Ho). destruct o as [it|]; cbn [map_err option_list head hd_error].
  - destruct Ho as [[k Hk] Hv]. apply record_rows_Some in Hk as (reg & [sub n] & -> & -> & Hr).
    rewrite sub_row_lease in Hv. injection Hv as Hv. cbn in Hv.
    change (head (option_list (Some (sub_row (sub, n))))) with (Some (sub_row (sub, n))).
    cbn beta iota. rewrite sub_roundtrip by apply (ev_good _ _ _ _ Hev _ _ Hr).
    destruct (ev_filed _ _ _ _ Hev _ _ Hr) as [Hrid Hne]. unfold sub_row_id in Hrid. cbn in Hrid.
    cbn [fst]. rewrite Hrid.
    destruct (drop_subscription s subs boxes reg Hs Hne) as (d & o & s' & Hd & Hdr & Hs').
    rewrite Hd, Hdr. left. exists reg, sub. split_and!; [|done..].
    eapply subs_lookup; [done|]. by exists n.
  - right. split; [|done]. intros reg sub Hsub Heq.
    apply (subs_lookup _ _ _ _ _ _ Hev) in Hsub as [n Hn].
    apply (Ho (hash_key reg) (sub_row (sub, n))).
    + apply record_rows_Some. by exists reg, (sub, n).
    + by rewrite sub_row_lease, <- Heq.
Qed.

Lemma ack_events s subs boxes reg seqs :
  holds_events s subs boxes → reg ≠ "" → NoDup seqs →
  (ack s reg seqs).2 = Ok () ∧
  holds_events (ack s reg seqs).1 subs
    (match boxes !! reg with Some b => <[reg := box_ack b seqs]> boxes | None => boxes end).
Proof.
  intros [rows Hev] Hreg Hnd. destruct Hev as [Hn Hrows Hf Hg Huq Hsub Hlast [mm Hb] Hbok].
  destruct (batch_delete_ok s reg seqs _ mm Hb Hreg Hnd) as (s' & Hdel & [mm' Hb'] & Htabs & Hst & Hmt).
  unfold ack. change ((λ seq, mailbox_key reg (pretty seq)) <$> seqs) with (seq_keys reg seqs).
  rewrite Hdel. split; [done|]. exists rows. cbn [fst]. split; [| |done|done|done|done| | |].
  - by rewrite Hst, Hmt.
  - by rewrite Hst, Htabs.
  - intros id. rewrite <- Hlast. destruct (boxes !! reg) as [b|] eqn:Hbx; [|done].
    destruct (decide (reg = id)) as [<-|Hne]; [by rewrite lookup_insert_eq, Hbx|by rewrite lookup_insert_ne].
  - exists mm'. rewrite Hmt. eapply holds_boxes_ext, Hb'. intros r. unfold box_drop, entries_of.
    destruct (boxes !! reg) as [b|] eqn:Hbx; case_decide as Hr.
    + subst r. rewrite Hbx, lookup_insert_eq. cbn. by rewrite foldl_remove.
    + by rewrite lookup_insert_ne.
    + subst r. by rewrite Hbx.
    + done.
  - destruct (boxes !! reg) as [b|] eqn:Hbx; [|done]. apply map_Forall_insert_2; [|done].
    apply box_ack_ok. by apply (Hbok _ _ Hbx).
Qed.

(** The number is handed out by the subscription row. *)
Lemma allocate_events s subs boxes rows reg r :
  events_in s subs boxes rows → rows !! reg = Some r → (r.2 < u64_max)%Z →
  (allocate_seq s reg).2 = Ok (r.2 + 1)%Z ∧
  let s' := (allocate_seq s reg).1 in
  tables (de_client s') = <[de_sub_table s := sub_table (<[reg := next_row r]> rows)]> (tables (de_client s)) ∧
  de_sub_table s' = de_sub_table s ∧ de_mailbox_table s' = de_mailbox_table s.
Proof.
  intros Hev Hr Hlt. destruct (ev_filed _ _ _ _ Hev _ _ Hr) as [Hrid Hne].
  destruct (ev_good _ _ _ _ Hev _ _ Hr) as [[Hu Hn] Hl]. unfold allocate_seq, sub_key_item.
  destruct (update_record event_sub_spec sub_row sub_row_id eq_refl sub_row_hash (CExists "registration_id")
    [UAdd "mailbox_seq" 1] reg r (next_row r) rows) as (attrs & Hattrs & Hrow);
    [done|done| |by apply allocate_row|done|by apply sub_row_index|].
  { cbn. by rewrite (proj1 (sub_row_lookup r)), bool_decide_eq_true_2. }
  change "registration_id" with (tp_hash event_sub_spec).
  destruct (update_item_ok _ _ _ _ _ _ _ (ev_rows _ _ _ _ Hev) Hrow) as [Hok Ht].
  destruct (update_item _ _ _ _ _) as [d res]. cbn [fst snd] in *. subst res. split; [|done].
  rewrite Hattrs. cbn [fmap list_fmap action_attr]. rewrite allocated_seq; [done| |lia].
  unfold is_u64, u64_max in *. lia.
Qed.

Lemma next_seq_new d t boxes mm reg b :
  holds_boxes d t (entries_of boxes) mm → boxes !! reg = Some b → box_ok b →
  mm !! (reg, (last_seq b + 1)%Z) = None.
Proof.
  intros Hb Hbx [_ Hbd _]. apply eq_None_not_Some. intros [e' He'].
  apply (hb_boxes _ _ _ _ Hb) in He'. unfold entries_of in He'. rewrite Hbx in He'.
  rewrite Forall_forall in Hbd. apply Hbd in He' as [He' _]. cbn in He'. lia.
Qed.

(** The mailbox table after an event was added under the next number. *)
Lemma push_boxes d d' t boxes mm reg b e :
  let seq := (last_seq b + 1)%Z in
  let mm' := <[(reg, seq) := with_seq e seq]> mm in
  holds_boxes d t (entries_of boxes) mm → reg ≠ "" →
  boxes !! reg = Some b → box_ok b → (last_seq b < u64_max)%Z →
  tables d' !! t = Some (mkTable event_mailbox_spec (rows_of box_key (λ k e, event_to_item k.1 k.2 e) mm')) →
  holds_boxes d' t (entries_of (<[reg := (box_push b e).1]> boxes)) mm'.
Proof.
  intros seq mm' Hb Hreg Hbx Hbok Hlt Ht. destruct (box_push_ok b e Hbok Hlt) as [Hpush Hbok'].
  pose proof (next_seq_new _ _ _ _ _ _ Hb Hbx Hbok) as Hnew. fold seq in Hpush, Hnew.
  assert (Hent : ∀ r, entries_of (<[reg := (box_push b e).1]> boxes) r =
    if decide (r = reg) then entries b ++ [(seq, with_seq e seq)] else entries_of boxes r).
  { intros r. unfold entries_of. case_decide as Hr; [subst r; by rewrite lookup_insert_eq, Hpush|].
    by rewrite lookup_insert_ne. }
  assert (Hb0 : entries_of boxes reg = entries b) by (unfold entries_of; by rewrite Hbx).
  split; [done|..]; intros r; rewrite Hent; case_decide as Hr; subst.
  - intros k e'. unfold mm'. rewrite lookup_insert_Some, (hb_boxes _ _ _ _ Hb), Hb0, elem_of_app,
      list_elem_of_singleton. split; [naive_solver|]. intros [He'|[= -> ->]]; [|by left].
    right. split; [|done]. intros [= <-]. rewrite <- Hb0 in He'. apply (hb_boxes _ _ _ _ Hb) in He'. congruence.
  - intros k e'. unfold mm'. rewrite lookup_insert_ne by (intros [=]; done). apply Hb.
  - intros k e'. rewrite elem_of_app, list_elem_of_singleton. intros [He'|[= -> ->]].
    + apply (hb_good _ _ _ _ Hb). by rewrite Hb0.
    + split_and!; [done|destruct Hbok as [_ _ ?]; unfold is_u64, seq, u64_max in *; lia..|done].
  - apply (hb_good _ _ _ _ Hb).
  - rewrite Hpush in Hbok'. apply Hbok'.
  - apply (hb_sorted _ _ _ _ Hb).
Qed.

Lemma put_event_row (reg : string) (seq : Z) (e : EventRecord) (mm : gmap (string * Z) EventRecord) :
  reg ≠ "" → mm !! (reg, seq) = None →
  put_row (Some (CNotExists "seq_num")) (event_to_item reg seq e)
    (mkTable event_mailbox_spec (rows_of box_key (λ k e, event_to_item k.1 k.2 e) mm)) =
  Some (Some (mkTable event_mailbox_spec (rows_of box_key (λ k e, event_to_item k.1 k.2 e)
    (<[(reg, seq) := with_seq e seq]> mm)), ())).
Proof.
  intros Hreg Hnew. destruct (event_to_item_lookup reg seq e) as (Hk1 & Hk2 & _). cbn zeta in Hk1, Hk2.
  unfold put_row. cbn [tb_spec]. rewrite (mailbox_row_key reg seq _ Hreg Hk1 Hk2).
  cbn [mbind option_bind]. rewrite option_guard_True by done. cbn [mbind option_bind tb_rows].
  rewrite rows_of_lookup, Hnew by apply _. unfold set_row. cbn. by rewrite rows_of_insert by apply _.
Qed.

Lemma enqueue_box s subs boxes rows reg e b :
  events_in s subs boxes rows → reg ≠ "" → boxes !! reg = Some b → (last_seq b < u64_max)%Z →
  (enqueue s reg e).2 = Ok (box_push b e).2 ∧
  holds_events (enqueue s reg e).1 subs (<[reg := (box_push b e).1]> boxes).
Proof.
  intros Hev Hreg Hbx Hlt. pose proof (ev_last _ _ _ _ Hev reg) as Hl. rewrite Hbx in Hl. cbn in Hl.
  destruct (rows !! reg) as [r|] eqn:Hr; [|done]. injection Hl as Hl.
  pose proof (ev_ok _ _ _ _ Hev _ _ Hbx) as Hbok.
  destruct (box_push_ok b e Hbok Hlt) as [Hpush Hbok'].
  assert (Hlr : (r.2 < u64_max)%Z) by (by rewrite <- Hl).
  destruct (allocate_events s subs boxes rows reg r Hev Hr Hlr) as (Halloc & Ht1 & Hst1 & Hmt1).
  unfold enqueue. destruct (allocate_seq s reg) as [s1 res]. cbn [fst snd] in *. subst res. rewrite <- Hl.
  destruct Hev as [Hn Hrows Hf Hg Huq Hsub Hlast [mm Hb] Hok].
  pose proof (next_seq_new _ _ _ _ _ _ Hb Hbx Hbok) as Hnew.
  destruct (put_item_ok (de_client s1) (de_mailbox_table s1) _ _ _ _
    ltac:(rewrite Ht1, Hmt1, lookup_insert_ne by done; apply Hb) (put_event_row reg _ e mm Hreg Hnew))
    as [Hokp Htp]. unfold put_event. destruct (put_item _ _ _ _) as [d res]. cbn [fst snd] in *. subst res.
  split; [by rewrite Hpush|]. exists (<[reg := next_row r]> rows). destruct (Hf _ _ Hr) as [Hrid _].
  destruct (Hg _ _ Hr) as [[Hu Hnn] Hle].
  split; cbn [fst de_sub_table de_mailbox_table de_client set_client].
  - by rewrite Hst1, Hmt1.
  - rewrite Htp, lookup_insert_ne by (by rewrite Hst1, Hmt1). by rewrite Ht1, Hst1, lookup_insert_eq.
  - rewrite <- Hrid. apply (filed_insert sub_row_id rows (next_row r)); [done|].
    change (sub_row_id r ≠ ""). by rewrite Hrid.
  - apply map_Forall_insert_2; [|done]. split; [|done]. split; [done|]. cbn. lia.
  - intros i j x y. assert (Hsame : ∀ i x, <[reg := next_row r]> rows !! i = Some x →
      ∃ x', rows !! i = Some x' ∧ x'.1 = x.1).
    { intros i' x' [[<- <-]|[_ Hx]]%lookup_insert_Some; eauto. }
    intros (x' & Hx & <-)%Hsame (y' & Hy & <-)%Hsame. by apply Huq.
  - intros id. rewrite Hsub. destruct (decide (reg = id)) as [<-|Hne].
    + by rewrite lookup_insert_eq, Hr.
    + by rewrite lookup_insert_ne.
  - intros id. destruct (decide (reg = id)) as [<-|Hne].
    + rewrite !lookup_insert_eq, Hpush. cbn. by rewrite Hl.
    + by rewrite !lookup_insert_ne.
  - eexists. rewrite Hmt1. eapply push_boxes; [done..|]. by rewrite Htp, Hmt1, lookup_insert_eq.
  - by apply map_Forall_insert_2.
Qed.

Lemma enqueue_events s subs boxes reg e :
  holds_events s subs boxes → event_op_valid subs boxes (OpEnqueue reg e) →
  match boxes !! reg with
  | Some b => (enqueue s reg e).2 = Ok (box_push b e).2 ∧
      holds_events (enqueue s reg e).1 subs (<[reg := (box_push b e).1]> boxes)
  | None => (enqueue s reg e).2 = Err (SubscriptionNotFound reg) ∧
      holds_events (enqueue s reg e).1 subs boxes
  end.
Proof.
  intros [rows Hev] [Hreg Hlim]. destruct (boxes !! reg) as [b|] eqn:Hbx; [by eapply enqueue_box; auto|].
  pose proof (ev_last _ _ _ _ Hev reg) as Hl. rewrite Hbx in Hl. cbn in Hl.
  destruct (rows !! reg) as [r|] eqn:Hr; [done|].
  unfold enqueue, allocate_seq, sub_key_item. change "registration_id" with (tp_hash event_sub_spec).
  assert (Hc : check (Some (CExists (tp_hash event_sub_spec))) (sub_row <$> rows !! reg) = false)
    by (by rewrite (Hr : rows !! reg = @None SubRow)).
  pose proof (update_refused event_sub_spec sub_row eq_refl (CExists (tp_hash event_sub_spec))
    [UAdd "mailbox_seq" 1] reg rows Hreg Hc) as Hrow.
  destruct (update_item_ok _ _ _ _ _ _ _ (ev_rows _ _ _ _ Hev) Hrow) as [Hok Ht].
  destruct (update_item _ _ _ _ _) as [d res]. cbn [fst snd] in *. subst res. split; [done|].
  exists rows. destruct Hev as [Hn Hrows Hf Hg Huq Hsub Hlast [mm Hb] Hbok].
  split; cbn; [done|by rewrite Ht|done..| |done]. exists mm. eapply holds_boxes_tables, Hb. by rewrite Ht.
Qed.

(** The tables hold exactly what the other store holds. *)
Definition event_sim s m : Prop := holds_events s (es_subs m) (es_boxes m).

Lemma event_apply_sim s m op :
  event_sim s m → event_op_valid (es_subs m) (es_boxes m) op →
  event_sim (es_apply s op).1 (es_apply m op).1 ∧
  same_event_answer (es_apply s op).2 (es_apply m op).2.
Proof.
  unfold event_sim. intros Hs Hv. destruct op as [sub|id|id|l| |id e|id after limit|id seqs];
    cbn [es_apply es_create_subscription es_get_subscription es_remove_subscription es_remove_by_lease
         es_list_subscriptions es_enqueue es_peek es_ack DynamoEventStore_store].
  - destruct (create_events s _ _ sub Hs Hv) as [Hr Hd]. pose proof (es_create_law m sub) as Hm.
    destruct (es_create_subscription m sub), (create_subscription s sub). cbn in *.
    destruct Hm as (-> & -> & ->). by subst.
  - split; [done|]. cbn. by rewrite (get_events _ _ _ _ Hs Hv), es_get_law.
  - destruct (remove_events s _ _ id Hs Hv) as [Hr Hd]. pose proof (es_remove_law m id) as Hm.
    destruct (es_remove_subscription m id), (remove_subscription s id). cbn in *.
    destruct Hm as (-> & -> & ->). by subst.
  - pose proof (remove_by_lease_events s _ _ l Hs Hv) as Hd. pose proof (es_remove_by_lease_law m l) as Hm.
    destruct (es_remove_by_lease m l) as [m' rm], (remove_by_lease s l) as [s' rs]. cbn [fst snd] in *.
    destruct Hd as [(reg & sub & Hsub & Hl & -> & Hd)|[Hun [= -> ->]]].
    + destruct rm as [[sub'|]|]; [|by destruct Hm as [Hm _]; destruct (Hm reg sub)|done].
      destruct Hm as (reg' & Hsub' & Hl' & -> & ->).
      destruct Hs as [rows Hev]. pose proof (subs_lookup _ _ _ _ reg sub Hev) as [[n Hn] _]; [done|].
      pose proof (subs_lookup _ _ _ _ reg' sub' Hev) as [[n' Hn'] _]; [done|].
      assert (reg' = reg) as -> by (eapply (ev_unique _ _ _ _ Hev); [done|done|cbn; congruence]).
      split; [done|]. cbn. congruence.
    + destruct rm as [[sub'|]|]; [|by destruct Hm as (_ & -> & ->)|done].
      destruct Hm as (reg' & Hsub' & Hl' & _). by destruct (Hun reg' sub').
  - split; [done|]. cbn [snd]. destruct (list_events s _ _ Hs) as (l1 & -> & H1).
    destruct (es_list_law m) as (l2 & -> & H2). cbn. by rewrite H1, H2.
  - pose proof (enqueue_events s _ _ id e Hs Hv) as Hd. pose proof (es_enqueue_law m id e) as Hm.
    destruct (es_enqueue m id e) as [m' rm], (enqueue s id e) as [s' rs]. cbn [fst snd] in *.
    destruct Hm as [Hsub Hm]. rewrite Hsub.
    destruct (es_boxes m !! id); destruct Hd as [-> Hd], Hm as [-> ->]; done.
  - split; [done|]. cbn [snd]. pose proof Hs as [rows Hev]. destruct (ev_boxes _ _ _ _ Hev) as [mm Hb].
    rewrite (mailbox_peek_ok s id after limit _ mm Hb Hv), es_peek_law. unfold entries_of, box_peek. cbn.
    destruct (es_boxes m !! id); [done|]. cbn. by rewrite take_nil.
  - destruct Hv as [Hid Hnd]. destruct (ack_events s _ _ id seqs Hs Hid Hnd) as [Hr Hd].
    pose proof (es_ack_law m id seqs) as Hm. destruct (es_ack m id seqs), (ack s id seqs). cbn in *.
    destruct Hm as (-> & -> & ->). by subst.
Qed.

(** C29: The DynamoDB event store and the in-memory one are
    interchangeable.  Starting from tables and a store with the same
    subscriptions and mailboxes, any sequence of calls (subscribing under new
    ids, removing by id or by lease, enqueueing, peeking with any bound and
    limit, acknowledging distinct numbers) gives the same answers, errors
    included, and ends with the same subscriptions, the same events under the
    same numbers and the same counters, on a database that serves its calls and
    whose reads have caught up, however it pages them. *)
Theorem dynamo_event_agrees s m ops :
  event_sim s m →
  calls_valid es_apply (λ m op, event_op_valid (es_subs m) (es_boxes m) op) m ops →
  event_sim (run_calls es_apply s ops).1 (run_calls es_apply m ops).1 ∧
  Forall2 same_event_answer (run_calls es_apply s ops).2 (run_calls es_apply m ops).2.
Proof. apply run_calls_agree. intros. by apply event_apply_sim. Qed.
End agreement.

(** ** Concrete runs *)
Section samples.
#[local] Existing Instance canonical_iter.
#[local] Existing Instance rfc_sample.
#[local] Existing Instance rfc_sample_laws.

Lemma toy_event_sim : event_sim toy_events EventStore.new.
Proof.
  exists ∅. split; cbn.
  - done.
  - rewrite record_table_empty. done.
  - intros i a. by rewrite lookup_empty.
  - apply map_Forall_empty.
  - intros i j a b. by rewrite lookup_empty.
  - intros id. by rewrite !lookup_empty.
  - intros id. by rewrite !lookup_empty.
  - exists ∅. split; unfold entries_of.
    + by rewrite rows_of_empty.
    + intros reg k e. rewrite !lookup_empty. by rewrite elem_of_nil.
    + intros reg k e. rewrite lookup_empty. by intros ?%elem_of_nil.
    + intros reg. rewrite lookup_empty. constructor.
  - apply map_Forall_empty.
Qed.

Definition toy_event_ops : list EventOp :=
  [OpSubscribe toy_sub; OpEnqueue "reg-1" (toy_event "a"); OpEnqueue "reg-1" (toy_event "b");
   OpEnqueue "reg-1" (toy_event "c"); OpPeek "reg-1" 0 2; OpPeek "reg-1" 1 10; OpAck "reg-1" [2; 7]%Z;
   OpPeek "reg-1" 0 10; OpEnqueue "reg-2" (toy_event "d"); OpListSubs; OpRemoveByLease "lease-1";
   OpPeek "reg-1" 0 10; OpGetSub "reg-1"].

(** Validity of a call in a concrete state. *)
Ltac event_op_ok :=
  lazymatch goal with
  | |- _ ≠ _ => let H := fresh in intro H; discriminate H
  | |- ∀ b, _ → (last_seq b < _)%Z =>
      let b := fresh in let H := fresh in
      intros b H; vm_compute in H; first [discriminate H | injection H as <-; vm_compute; reflexivity]
  | |- NoDup _ => apply (bool_decide_unpack _); vm_compute; exact I
  | |- sub_lease_unused _ _ => let H := fresh in intros ? ? H; vm_compute in H; discriminate H
  | |- _ => by_compute
  end.

Theorem dynamo_event_agrees_witness :
  (run_calls es_apply toy_events toy_event_ops).2 = (run_calls es_apply EventStore.new toy_event_ops).2 ∧
  Forall2 same_event_answer (run_calls es_apply toy_events toy_event_ops).2
    (run_calls es_apply EventStore.new toy_event_ops).2.
Proof.
  split; [vm_compute; reflexivity|].
  apply (dynamo_event_agrees toy_events EventStore.new toy_event_ops toy_event_sim).
  cbn [calls_valid toy_event_ops]. repeat split; event_op_ok.
Defined.
End samples.
