(* ===== verification/DynamoEventFaults.v ===== *)
(** * The DynamoDB event store on a database that fails and lags

    Allocation of a sequence number and the write of an event are separate calls,
    and calls of several tasks interleave between them.  Numbers are still handed
    out once, and an event that was written is neither overwritten nor lost. *)

From S2P Require Import Prelude CoreTypes Matcher EventStore Dynamo DynamoCodec DynamoSample DynamoEvent.

(** ** What a database that fails and lags still gives *)
Section faults.
Context {I : MapIter} {R : Rfc3339} {RL : Rfc3339Laws R}.
Context {D : Type} {DB : Dynamo D} {DV : DynamoView D} {DL : DynamoLaws D}.
Implicit Types (d : D) (s : DynamoEventStore D).

(** *** Numbers *)
Definition seq_bound : Z := 10 ^ 38.

Definition numbered (r : SubRow) : Prop :=
  is_u64 (sb_initial_seq_num r.1) ∧ (0 ≤ r.2 ≤ seq_bound + 1)%Z.

Definition row_from_item (item : Item) : result SubRow Error :=
  rmap (λ sub, (sub, default 0%Z (get_n item "mailbox_seq" ≫= parse_digits (10 ^ 39) 0)))
    (sub_from_item item).

Lemma row_roundtrip r : numbered r → row_from_item (sub_row r) = Ok r.
Proof.
  intros [Hu Hn]. unfold row_from_item. rewrite sub_roundtrip by done. cbn [rmap]. do 2 f_equal.
  unfold get_n. rewrite sub_row_seq by lia. destruct r as [sub n]. cbn in *.
  destruct (Z.eqb_spec n 0) as [->|Hne]; [done|]. cbn [mbind option_bind as_n].
  rewrite parse_digits_pretty_Z; [done|]. unfold seq_bound in Hn. lia.
Qed.

(** The number rows of the subscription table, as they are at this moment. *)
Definition sub_rows s : gmap string SubRow :=
  record_view sub_row_id row_from_item (de_client s) (de_sub_table s).

Definition subs_ok s : Prop :=
  ∃ rows, stored event_sub_spec sub_row sub_row_id numbered (de_client s) (de_sub_table s) rows.

Lemma allocate_numbered r new :
  numbered r → apply_actions [UAdd "mailbox_seq" 1] (sub_row r) = Some new →
  new = sub_row (next_row r) ∧ numbered (next_row r).
Proof.
  intros [Hu Hn]. unfold apply_actions. cbn [foldl mbind option_bind apply_action].
  rewrite sub_row_seq by lia. unfold sub_row, next_row, numbered. cbn [fst snd].
  destruct (Z.eqb_spec r.2 0) as [He|Hne].
  - intros [= <-]. rewrite He. unfold seq_bound. split; [done|]. split; [done|lia].
  - destruct (number (AN (pretty r.2))) as [z|] eqn:Ez; cbn; [|done]. intros [= <-].
    pose proof (num_value_of_pretty z r.2 ltac:(lia) Ez) as Hz.
    destruct Hz as [-> Hle]. destruct (Z.eqb_spec (r.2 + 1) 0); [lia|].
    rewrite insert_insert_eq. split; [done|]. split; [done|]. unfold seq_bound. lia.
Qed.

(** A number answered is one above the last one handed out, whatever happened to
    earlier calls. *)
Lemma allocate_effect s reg :
  subs_ok s →
  let '(s', res) := allocate_seq s reg in
  subs_ok s' ∧
  (sub_rows s' = sub_rows s ∨ ∃ r : SubRow, sub_rows s !! reg = Some r ∧ sub_rows s' = <[reg := next_row r]> (sub_rows s)) ∧
  (∀ q, res = Ok q → ∃ r : SubRow, sub_rows s !! reg = Some r ∧ q = (r.2 + 1)%Z ∧
     sub_rows s' = <[reg := next_row r]> (sub_rows s)).
Proof.
  intros [rows Hs]. unfold allocate_seq.
  pose proof (update_item_law (de_client s) (de_sub_table s) (Some (CExists "registration_id"))
    (sub_key_item reg) [UAdd "mailbox_seq" 1]) as Hw.
  destruct (update_item _ _ _ _ _) as [d res].
  assert (Hview : sub_rows s = rows) by (eapply stored_view, Hs; exact row_roundtrip).
  destruct (answer_effect _ _ _ _ _ row_roundtrip _ _ rows _ (λ v attrs, ∃ r : SubRow, sub_rows s !! reg = Some r ∧
    v = <[reg := next_row r]> (sub_rows s) ∧
    get_n attrs "mailbox_seq" = Some (pretty (r.2 + 1)%Z) ∧ (0 ≤ r.2 + 1 < 10 ^ 39)%Z) _ Hs Hw) as [Hok He].
  { intros tb' b (m' & ? & ? & ? & r & Hr & _ & -> & Hb)%(update_answers event_sub_spec sub_row sub_row_id
      numbered eq_refl _ _ rows reg next_row); [|apply Hs..|done|apply allocate_numbered|done].
    exists (<[reg := next_row r]> rows). rewrite Hview. split_and!; [done..|]. exists r.
    destruct (sd_good _ _ _ _ _ _ _ Hs _ _ Hr) as [Hu Hn]. unfold seq_bound in Hn.
    split_and!; [done|done| |lia|lia].
    rewrite Hb. unfold get_n.
    assert (Hl : filter (λ kv, kv.1 ∈ (["mailbox_seq"] : list string)) (sub_row (next_row r)) !! "mailbox_seq" =
      Some (AN (pretty (r.2 + 1)%Z))).
    { apply map_lookup_filter_Some. split; [|by left]. rewrite sub_row_seq by (cbn; lia). cbn.
      by destruct (Z.eqb_spec (r.2 + 1) 0); [lia|]. }
    cbn [fmap list_fmap action_attr]. by rewrite Hl. }
  split; [done|]. cbn [fst snd] in *. destruct res as [attrs|[]].
  - destruct He as (r & Hr & Hv & Hn & Hb). split; [right; by exists r|].
    intros q Hq. exists r. rewrite Hn in Hq. cbn in Hq. split; [done|]. split; [|done].
    destruct (parse_u64 (pretty (r.2 + 1)%Z)) as [z|] eqn:Ez; [|done]. injection Hq as <-.
    by apply parse_u64_of_pretty; [lia|].
  - split; [by left|done].
  - split; [|done]. destruct He as [?|(b & r & ? & ? & _)]; eauto.
  - split; [|done]. destruct He as [?|(b & r & ? & ? & _)]; eauto.
Qed.

(** *** Events *)
Definition box_row s (k : Key) : option Item :=
  tables (de_client s) !! de_mailbox_table s ≫= λ tb, tb_rows tb !! k.

(** The mailbox table is one this store wrote: its rows are under their own keys. *)
Definition boxes_ok s : Prop :=
  ∃ tb, tables (de_client s) !! de_mailbox_table s = Some tb ∧
    tb_spec tb = event_mailbox_spec ∧ table_wf tb.

Definition box_ok s : Prop := de_sub_table s ≠ de_mailbox_table s ∧ boxes_ok s.

Record mail_ok s : Prop := {
  mo_names : de_sub_table s ≠ de_mailbox_table s;
  mo_subs : subs_ok s;
  mo_boxes : boxes_ok s
}.

Lemma mail_ok_box s : mail_ok s → box_ok s.
Proof. by intros [? _ ?]. Qed.

(** [s'] is the same store with only its table [t] changed. *)
Definition touches s s' (t : string) : Prop :=
  de_sub_table s' = de_sub_table s ∧ de_mailbox_table s' = de_mailbox_table s ∧
  ∀ t', t' ≠ t → tables (de_client s') !! t' = tables (de_client s) !! t'.

Lemma touches_written {A} s t (w : Table → option (option (Table * A))) out :
  written (de_client s) t w out → touches s (set_client s out.1) t.
Proof.
  intros [[Hd _]|(tb & tb' & a & _ & _ & Hd & _)]%written_either; split_and!; try done; intros t' Hne; cbn;
    by rewrite Hd, ?lookup_insert_ne.
Qed.

Lemma touches_trans s s1 s2 t : touches s s1 t → touches s1 s2 t → touches s s2 t.
Proof.
  intros (Ha & Hb & Hc) (Ha' & Hb' & Hc'). split_and!; [congruence..|]. intros t' Hne. by rewrite Hc', Hc.
Qed.

Lemma touches_mailbox s s' :
  mail_ok s → touches s s' (de_mailbox_table s) → subs_ok s' ∧ sub_rows s' = sub_rows s.
Proof.
  intros [Hn [rows Hs] _] (Ha & Hb & Hc).
  assert (Ht : tables (de_client s') !! de_sub_table s' = tables (de_client s) !! de_sub_table s)
    by (by rewrite Ha, Hc).
  split.
  - exists rows. rewrite Ha. eapply stored_same; [done|]. by rewrite Ha in Ht.
  - unfold sub_rows, record_view. by rewrite Ht.
Qed.

Lemma touches_subs s s' :
  box_ok s → touches s s' (de_sub_table s) → boxes_ok s' ∧ ∀ k, box_row s' k = box_row s k.
Proof.
  intros [Hn (tb & Ht & Hb)] (Ha & Hm & Hc).
  assert (Ht' : tables (de_client s') !! de_mailbox_table s' = tables (de_client s) !! de_mailbox_table s)
    by (rewrite Hm, Hc; [done|]; by intros Heq; apply Hn).
  split; [exists tb; by rewrite Ht'|]. intros k. unfold box_row. by rewrite Ht'.
Qed.

(** An event is never written over another. *)
Lemma put_event_effect s reg seq e :
  box_ok s →
  let '(s', res) := put_event s reg seq e in
  touches s s' (de_mailbox_table s) ∧ boxes_ok s' ∧
  (∀ k it, box_row s k = Some it → box_row s' k = Some it) ∧
  (is_ok res = true → box_row s' (reg, pretty seq) = Some (event_to_item reg seq e)).
Proof.
  intros [Hn (tb & Ht & Hspec & Hwf)]. unfold put_event.
  pose proof (put_item_law (de_client s) (de_mailbox_table s) (Some (CNotExists "seq_num"))
    (event_to_item reg seq e)) as Hw.
  pose proof (touches_written s _ _ _ Hw) as Htouch. destruct (put_item _ _ _ _) as [d res].
  split; [done|]. unfold box_row, boxes_ok. cbn [de_client de_mailbox_table set_client fst] in *. rewrite Ht.
  assert (Hput : ∀ tb' u, put_row (Some (CNotExists "seq_num")) (event_to_item reg seq e) tb =
      Some (Some (tb', u)) →
    tb_rows tb !! (reg, pretty seq) = None ∧ tb' = set_row tb (reg, pretty seq) (event_to_item reg seq e) ∧
    key_of event_mailbox_spec (event_to_item reg seq e) = Some (reg, pretty seq)).
  { intros tb' u (k & Hk & Hc & ->)%put_row_inv. rewrite Hspec in Hk.
    destruct (event_to_item_lookup reg seq e) as (H1 & H2 & _). cbn zeta in *.
    assert (Hreg : reg ≠ "").
    { intros ->. unfold key_of, get_s in Hk. cbn in Hk. by rewrite H1 in Hk. }
    pose proof (mailbox_row_key reg seq _ Hreg H1 H2) as Hkey. rewrite Hkey in Hk. injection Hk as <-.
    split_and!; [|done|done]. destruct (tb_rows tb !! _) as [it|] eqn:Hit; [|done]. exfalso.
    apply Hwf in Hit. rewrite Hspec in Hit. unfold key_of in Hit. cbn in Hit, Hc.
    destruct (get_s it _ ≫= nonempty); [|done]. unfold get_n in Hit.
    by destruct (it !! "seq_num") as [[]|]. }
  assert (Hset : ∀ tb' u, put_row (Some (CNotExists "seq_num")) (event_to_item reg seq e) tb =
      Some (Some (tb', u)) → tables d = <[de_mailbox_table s := tb']> (tables (de_client s)) →
    (∃ tb0, tables d !! de_mailbox_table s = Some tb0 ∧ tb_spec tb0 = event_mailbox_spec ∧ table_wf tb0) ∧
    (∀ k it, tb_rows tb !! k = Some it → (tables d !! de_mailbox_table s ≫= λ tb, tb_rows tb !! k) = Some it) ∧
    (tables d !! de_mailbox_table s ≫= λ tb, tb_rows tb !! (reg, pretty seq)) = Some (event_to_item reg seq e)).
  { intros tb' u (Hnone & -> & Hkey)%Hput ->. rewrite lookup_insert_eq. cbn. split_and!.
    - eexists. split; [done|]. split; [done|]. intros k it. cbn.
      intros [[<- <-]|[_ Hit]]%lookup_insert_Some; [by rewrite Hspec|by apply Hwf].
    - intros k it Hit. rewrite lookup_insert_ne; [done|]. intros <-. congruence.
    - by rewrite lookup_insert_eq. }
  assert (Hsame : tables d = tables (de_client s) →
    (∃ tb0, tables d !! de_mailbox_table s = Some tb0 ∧ tb_spec tb0 = event_mailbox_spec ∧ table_wf tb0) ∧
    (∀ k it, tb_rows tb !! k = Some it → (tables d !! de_mailbox_table s ≫= λ tb, tb_rows tb !! k) = Some it)).
  { intros ->. rewrite Ht. split; [by exists tb|done]. }
  apply written_either in Hw as [[Hd Hno]|(tb0 & tb' & u & Ht0 & Hpr & Hd & _)]; cbn [fst snd] in *.
  - destruct (Hsame Hd). split_and!; [done|done|]. by destruct res.
  - rewrite Ht in Ht0. injection Ht0 as <-. destruct (Hset _ _ Hpr Hd) as (? & ? & ?). auto.
Qed.

(** A batch delete, answered or not, takes away no row but those it names. *)
Lemma flush_effect n s pending :
  boxes_ok s →
  let '(s', _) := flush n s pending in
  touches s s' (de_mailbox_table s) ∧ boxes_ok s' ∧
  ∀ k, k ∉ omap (key_of event_mailbox_spec) pending → box_row s' k = box_row s k.
Proof.
  revert s pending. induction n as [|n IH]; intros s pending Hb; destruct pending as [|q pending];
    try (by split; [split_and!|]).
  cbn [flush]. set (ps := q :: pending) in *.
  pose proof (batch_delete_law (de_client s) (de_mailbox_table s) ps) as Hlaw. cbn zeta in Hlaw.
  destruct (batch_delete_item _ _ _) as [d res]. cbn [fst snd] in *.
  destruct Hlaw as (ks & Hks & Htab & Hres). destruct Hb as (tb & Ht & Hspec & Hwf).
  assert (H1 : touches s (set_client s d) (de_mailbox_table s) ∧ boxes_ok (set_client s d) ∧
    ∀ k, k ∉ omap (key_of event_mailbox_spec) ps → box_row (set_client s d) k = box_row s k).
  { destruct Htab as [Hd|(tb0 & Ht0 & Hd)].
    - unfold touches, boxes_ok, box_row. cbn. rewrite Hd. split_and!; [done..|by exists tb|done].
    - rewrite Ht in Ht0. injection Ht0 as <-. unfold touches, boxes_ok, box_row. cbn. split_and!; [done|done|..].
      + intros t' Hne. by rewrite Hd, lookup_insert_ne.
      + rewrite Hd, lookup_insert_eq. eexists. split; [done|]. split; [by rewrite del_rows_spec|].
        intros k it. rewrite del_rows_lookup, del_rows_spec. case_decide; [done|]. apply Hwf.
      + intros k Hk. rewrite Hd, lookup_insert_eq, Ht. cbn. rewrite del_rows_lookup, decide_False; [done|].
        intros Hin. apply Hk. rewrite Hspec in Hin. apply list_elem_of_omap in Hin as (x & Hx & Hkx).
        change (k ∈ omap (key_of event_mailbox_spec) ps). apply list_elem_of_omap. exists x. auto. }
  destruct H1 as (Ht1 & Hb1 & Hr1). destruct res as [un|e]; [|done].
  specialize (IH (set_client s d) un Hb1). destruct (flush n (set_client s d) un) as [s' r].
  destruct IH as (Ht2 & Hb2 & Hr2). split_and!; [by eapply touches_trans|done|].
  intros k Hk. rewrite Hr2, Hr1; [done|done|]. intros Hin. apply Hk.
  apply list_elem_of_omap in Hin as (x & Hx & Hkx). apply list_elem_of_omap. exists x. split; [|done].
  destruct (Hres un eq_refl) as [Hperm _]. rewrite Hperm. apply elem_of_app. by right.
Qed.

Lemma flush_all_effect s cs :
  boxes_ok s →
  let '(s', _) := flush_all s cs in
  touches s s' (de_mailbox_table s) ∧ boxes_ok s' ∧
  ∀ k, k ∉ omap (key_of event_mailbox_spec) (concat cs) → box_row s' k = box_row s k.
Proof.
  revert s. induction cs as [|c cs IH]; intros s Hb; [by split; [split_and!|]|].
  cbn [flush_all concat]. pose proof (flush_effect BATCH_DELETE_MAX_ATTEMPTS s c Hb) as H1.
  destruct (flush _ s c) as [s1 res]. destruct H1 as (Ht1 & Hb1 & Hr1).
  assert (Hsplit : ∀ k, k ∉ omap (key_of event_mailbox_spec) (c ++ concat cs) →
    (k ∉ omap (key_of event_mailbox_spec) c) ∧ (k ∉ omap (key_of event_mailbox_spec) (concat cs))).
  { intros k Hk. rewrite omap_app, not_elem_of_app in Hk. done. }
  destruct res as [u|e].
  - specialize (IH s1 Hb1). destruct (flush_all s1 cs) as [s2 r]. destruct IH as (Ht2 & Hb2 & Hr2).
    pose proof Ht1 as (_ & Hm & _). rewrite Hm in Ht2.
    split_and!; [by eapply touches_trans|done|]. intros k [? ?]%Hsplit. by rewrite Hr2, Hr1.
  - split_and!; [done|done|]. intros k [? _]%Hsplit. by apply Hr1.
Qed.

(** *** Calls on the mailboxes, one database step each *)
Inductive MailCall :=
| MAllocate (registration_id : string)
| MPut (registration_id : string) (seq : Z) (e : EventRecord)
| MAck (registration_id : string) (seq_nums : list Z).

(** The number answered; 0 for an acknowledgement. *)
Definition mail_apply s (c : MailCall) : DynamoEventStore D * result Z Error :=
  match c with
  | MAllocate reg => allocate_seq s reg
  | MPut reg seq e => put_event s reg seq e
  | MAck reg seqs => let '(s', r) := ack s reg seqs in (s', rmap (λ _, 0%Z) r)
  end.

(** The numbers of [reg] that were handed out, in the order of the answers. *)
Fixpoint handed_out (reg : string) (calls : list MailCall) (rs : list (result Z Error)) : list Z :=
  match calls, rs with
  | MAllocate reg' :: calls, r :: rs =>
      match r with
      | Ok q => if decide (reg' = reg) then q :: handed_out reg calls rs else handed_out reg calls rs
      | Err _ => handed_out reg calls rs
      end
  | _ :: calls, _ :: rs => handed_out reg calls rs
  | _, _ => []
  end.

(** The last number of [reg]. *)
Definition counter s (reg : string) : Z :=
  match (sub_rows s !! reg : option SubRow) with Some r => r.2 | None => 0%Z end.

(** What one call does. *)
Lemma mail_call_effect s c :
  mail_ok s →
  let '(s', res) := mail_apply s c in
  mail_ok s' ∧ (∀ reg, (counter s reg ≤ counter s' reg)%Z) ∧
  (∀ reg q, c = MAllocate reg → res = Ok q → (counter s reg < q)%Z ∧ counter s' reg = q).
Proof.
  intros Hok. pose proof Hok as [Hn Hs Hb]. destruct c as [reg|reg seq e|reg seqs]; cbn [mail_apply].
  - pose proof (update_item_law (de_client s) (de_sub_table s) (Some (CExists "registration_id"))
      (sub_key_item reg) [UAdd "mailbox_seq" 1]) as Hw. apply touches_written in Hw as Htouch.
    pose proof (allocate_effect s reg Hs) as Ha. unfold allocate_seq in *.
    destruct (update_item _ _ _ _ _) as [d res]. cbn [fst] in Htouch.
    destruct Ha as (Hs' & Hv & Hq). destruct (touches_subs _ _ (mail_ok_box _ Hok) Htouch) as [Hb' Hrow].
    pose proof Htouch as (Hst & Hmt & _).
    assert (Hnext : ∀ r : SubRow, sub_rows s !! reg = Some r →
      sub_rows (set_client s d) = <[reg := next_row r]> (sub_rows s) →
      (∀ reg', (counter s reg' ≤ counter (set_client s d) reg')%Z) ∧ counter s reg = r.2 ∧
      counter (set_client s d) reg = (r.2 + 1)%Z).
    { intros r Hr Hv'. unfold counter. rewrite Hv'. split_and!.
      - intros reg'. destruct (decide (reg = reg')) as [<-|Hne].
        + rewrite lookup_insert_eq. rewrite Hr. cbn. lia.
        + by rewrite lookup_insert_ne.
      - by rewrite Hr.
      - by rewrite lookup_insert_eq. }
    split_and!.
    + split; [by rewrite Hst, Hmt|done|done].
    + destruct Hv as [Hv|(r & Hr & Hv)]; [|by apply (Hnext r)]. intros reg'. unfold counter. by rewrite Hv.
    + intros reg' q [= <-] (r & Hr & -> & Hv')%Hq. destruct (Hnext r Hr Hv') as (_ & -> & ->). split; [lia|done].
  - pose proof (put_event_effect s reg seq e (mail_ok_box _ Hok)) as Hp. destruct (put_event s reg seq e) as [s' res].
    destruct Hp as (Htouch & Hb' & _). destruct (touches_mailbox _ _ Hok Htouch) as [Hs' Hv].
    pose proof Htouch as (Hst & Hmt & _). split_and!; [|intros reg'; unfold counter; by rewrite Hv|done].
    split; [by rewrite Hst, Hmt|done|done].
  - pose proof (flush_all_effect s (chunks 25 ((λ seq, mailbox_key reg (pretty seq)) <$> seqs)) Hb) as Hf.
    unfold ack, batch_delete. destruct (flush_all s _) as [s' res]. rewrite chunks_concat in Hf by lia.
    destruct Hf as (Htouch & Hb' & _). destruct (touches_mailbox _ _ Hok Htouch) as [Hs' Hv].
    pose proof Htouch as (Hst & Hmt & _). split_and!; [|intros reg'; unfold counter; by rewrite Hv|done].
    split; [by rewrite Hst, Hmt|done|done].
Qed.

(** C12: Sequence numbers are handed out once.  Whatever calls fail or are
    answered late, and however allocations, writes and acknowledgements of any
    number of tasks interleave, the numbers answered for a registration increase
    strictly: no two events are ever given the same one. *)
Theorem sequence_numbers_increase reg calls s :
  mail_ok s →
  StronglySorted Z.lt (handed_out reg calls (run_calls mail_apply s calls).2) ∧
  Forall (λ q, (counter s reg < q)%Z) (handed_out reg calls (run_calls mail_apply s calls).2).
Proof.
  revert s. induction calls as [|c calls IH]; intros s Hok; [by split; constructor|].
  cbn [run_calls]. pose proof (mail_call_effect s c Hok) as Hc. destruct (mail_apply s c) as [s1 r].
  destruct Hc as (Hok1 & Hmono & Hq). destruct (IH s1 Hok1) as [Hs Hf].
  destruct (run_calls mail_apply s1 calls) as [s2 rs]. cbn [snd] in *.
  assert (Hrest : StronglySorted Z.lt (handed_out reg calls rs) ∧
    Forall (λ q, (counter s reg < q)%Z) (handed_out reg calls rs)).
  { split; [done|]. eapply Forall_impl; [done|]. intros q Hlt. specialize (Hmono reg). cbn in Hlt. lia. }
  destruct c as [reg'| |]; cbn [handed_out]; [|done..]. destruct r as [q|]; [|done].
  case_decide as Hr; [|done]. subst reg'. destruct (Hq reg q eq_refl eq_refl) as [Hlt Heq].
  rewrite Heq in Hf. split.
  - by constructor.
  - constructor; [done|]. eapply Forall_impl; [done|]. intros q' Hlt'. cbn in Hlt'. lia.
Qed.

(** *** Removing subscriptions *)

(** The keys of a page are of its registration. *)
Lemma page_keys_reg reg items k :
  k ∈ omap (key_of event_mailbox_spec) (page_keys reg items) → k.1 = reg.
Proof.
  intros (x & (it & _ & Hx)%list_elem_of_omap & Hk)%list_elem_of_omap.
  destruct (get_n it "seq_num") as [n|]; [|done]. injection Hx as <-.
  revert Hk. unfold key_of, mailbox_key, get_s, get_n. cbn. simplify_map_eq. cbn.
  destruct (nonempty reg) as [r|] eqn:E; [|done]. cbn. destruct (nonempty n); [|done]. intros [= <-]. cbn.
  unfold nonempty in E. by case_match; simplify_eq.
Qed.

Lemma batch_delete_page s reg items :
  boxes_ok s →
  let '(s', _) := batch_delete s (page_keys reg items) in
  touches s s' (de_mailbox_table s) ∧ boxes_ok s' ∧ ∀ k, k.1 ≠ reg → box_row s' k = box_row s k.
Proof.
  intros Hb. pose proof (flush_all_effect s (chunks 25 (page_keys reg items)) Hb) as Hf.
  unfold batch_delete. destruct (flush_all s _) as [s' res]. rewrite chunks_concat in Hf by lia.
  destruct Hf as (Ht & Hb' & Hkeep). split_and!; [done..|]. intros k Hk. apply Hkeep. by intros ?%page_keys_reg.
Qed.

(** Draining takes rows of its registration only, whatever pages it was shown. *)
Lemma drain_loop_effect fuel s reg start :
  boxes_ok s →
  let '(s', _) := drain_loop fuel s reg start in
  touches s s' (de_mailbox_table s) ∧ boxes_ok s' ∧ ∀ k, k.1 ≠ reg → box_row s' k = box_row s k.
Proof.
  revert s start. induction fuel as [|fuel IH]; intros s start Hb; cbn [drain_loop]; [by split_and!|].
  destruct (query _ _ _ _ _ _) as [page|]; [|by split_and!].
  pose proof (batch_delete_page s reg (pg_items page) Hb) as H1.
  destruct (batch_delete s _) as [s1 [[]|]]; [|done]. destruct H1 as (Ht1 & Hb1 & Hk1).
  destruct (pg_last page) as [k|]; [|done]. specialize (IH s1 (Some k) Hb1).
  destruct (drain_loop fuel s1 reg (Some k)) as [s2 r]. destruct IH as (Ht2 & Hb2 & Hk2).
  pose proof Ht1 as (_ & Hm & _). rewrite Hm in Ht2.
  split_and!; [by eapply touches_trans|done|]. intros k' Hk'. by rewrite Hk2, Hk1.
Qed.

(** The subscription's row is deleted, then the mailbox drained, if it comes to
    that. *)
Lemma drop_sub_effect s reg :
  box_ok s →
  let s' := set_client s (delete_item (de_client s) (de_sub_table s) None (sub_key_item reg)).1 in
  box_ok s' ∧ ∀ k, box_row s' k = box_row s k.
Proof.
  intros Hok s'. assert (Ht : touches s s' (de_sub_table s))
    by exact (touches_written s _ _ _ (delete_item_law (de_client s) (de_sub_table s) None (sub_key_item reg))).
  destruct (touches_subs _ _ Hok Ht) as [Hb Hk]. split; [|done]. split; [exact (proj1 Hok)|done].
Qed.

Lemma drained_effect s reg :
  box_ok s → box_ok (drain_mailbox s reg).1 ∧ ∀ k, k.1 ≠ reg → box_row (drain_mailbox s reg).1 k = box_row s k.
Proof.
  intros [Hn Hb]. unfold drain_mailbox. set (fuel := query_fuel _ _ _).
  pose proof (drain_loop_effect fuel s reg None Hb) as Hd. destruct (drain_loop fuel s reg None) as [s' r].
  destruct Hd as ((Ha & Hm & _) & Hb' & Hk). split; [|done]. split; [cbn; by rewrite Ha, Hm|done].
Qed.

(** *** Any calls that write *)

(** Every call of the store that writes, and the single database steps of the
    removals, whose pages another task may have read earlier. *)
Inductive BoxCall :=
| BMail (c : MailCall)
| BCreate (sub : SubscriptionRecord)
| BRemove (registration_id : string)
| BRemoveByLease (lease_id : string)
| BDropSub (registration_id : string)
| BDropPage (registration_id : string) (items : list Item).

Definition box_apply s (c : BoxCall) : DynamoEventStore D :=
  match c with
  | BMail c => (mail_apply s c).1
  | BCreate sub => (create_subscription s sub).1
  | BRemove reg => (remove_subscription s reg).1
  | BRemoveByLease l => (remove_by_lease s l).1
  | BDropSub reg => set_client s (delete_item (de_client s) (de_sub_table s) None (sub_key_item reg)).1
  | BDropPage reg items => (batch_delete s (page_keys reg items)).1
  end.

(** The registration the lease index names for a lease when the call is made. *)
Definition lease_target s (lease : string) : option string :=
  match query_index (de_client s) (de_sub_table s) EVENT_SUB_LEASE_GSI lease 1 with
  | Ok (item :: _) => match sub_from_item item with Ok sub => Some (sb_registration_id sub) | Err _ => None end
  | _ => None
  end.

(** The call acknowledges the number or removes its registration. *)
Definition discards s (reg : string) (seq : Z) (c : BoxCall) : Prop :=
  match c with
  | BMail (MAck reg' seqs) => reg' = reg ∧ seq ∈ seqs
  | BMail _ | BCreate _ | BDropSub _ => False
  | BRemove reg' | BDropPage reg' _ => reg' = reg
  | BRemoveByLease l => lease_target s l = Some reg
  end.

Fixpoint spared s (reg : string) (seq : Z) (calls : list BoxCall) : Prop :=
  match calls with
  | [] => True
  | c :: calls => ¬ discards s reg seq c ∧ spared (box_apply s c) reg seq calls
  end.

Lemma mail_box_effect s c reg seq it :
  box_ok s → ¬ discards s reg seq (BMail c) →
  box_ok (mail_apply s c).1 ∧
  (box_row s (reg, pretty seq) = Some it → box_row (mail_apply s c).1 (reg, pretty seq) = Some it).
Proof.
  intros Hok Hd. pose proof Hok as [Hn Hb]. destruct c as [reg'|reg' seq' e|reg' seqs]; cbn [mail_apply].
  - pose proof (update_item_law (de_client s) (de_sub_table s) (Some (CExists "registration_id"))
      (sub_key_item reg') [UAdd "mailbox_seq" 1]) as Hw. apply touches_written in Hw as Htouch.
    unfold allocate_seq. destruct (update_item _ _ _ _ _) as [d res].
    destruct (touches_subs _ _ Hok Htouch) as [Hb' Hrow]. cbn [fst]. split; [by split|]. by rewrite Hrow.
  - pose proof (put_event_effect s reg' seq' e Hok) as Hp. destruct (put_event s reg' seq' e) as [s' res].
    destruct Hp as ((Hst & Hmt & _) & Hb' & Hkeep & _). split; [split; [by cbn; rewrite Hst, Hmt|done]|apply Hkeep].
  - pose proof (flush_all_effect s (chunks 25 ((λ q, mailbox_key reg' (pretty q)) <$> seqs)) Hb) as Hf.
    unfold ack, batch_delete. destruct (flush_all s _) as [s' res]. rewrite chunks_concat in Hf by lia.
    destruct Hf as ((Hst & Hmt & _) & Hb' & Hkeep). cbn [fst].
    split; [split; [by rewrite Hst, Hmt|done]|]. rewrite Hkeep; [done|].
    intros (x & (q & -> & Hq)%list_elem_of_fmap & Hk)%list_elem_of_omap. apply Hd.
    destruct (decide (reg' = "")) as [->|Hreg]; [done|]. rewrite mailbox_row_key with (reg := reg') (seq := q) in Hk;
      [|done|unfold mailbox_key; by simplify_map_eq..].
    injection Hk as -> Hp. apply (inj pretty) in Hp as ->. done.
Qed.

Lemma box_call_effect s c reg seq it :
  box_ok s → ¬ discards s reg seq c →
  box_ok (box_apply s c) ∧
  (box_row s (reg, pretty seq) = Some it → box_row (box_apply s c) (reg, pretty seq) = Some it).
Proof.
  intros Hok Hd. destruct c as [c|sub|reg'|l|reg'|reg' items]; cbn [box_apply].
  - by apply mail_box_effect.
  - pose proof (touches_written s _ _ _ (put_item_law (de_client s) (de_sub_table s) None (sub_to_item sub))) as Ht.
    unfold create_subscription. destruct (put_item _ _ _ _) as [d res].
    destruct (touches_subs _ _ Hok Ht) as [Hb Hk]. split; [split; [exact (proj1 Hok)|done]|]. by rewrite Hk.
  - destruct (drop_sub_effect s reg' Hok) as [Hok1 Hk1]. unfold remove_subscription.
    destruct (delete_item _ _ _ _) as [d [o|e]]; cbn [fst] in *; [|split; [done|by rewrite Hk1]].
    destruct (drained_effect _ reg' Hok1) as [Hok2 Hk2]. split; [done|].
    rewrite Hk2, Hk1 by (cbn; congruence). done.
  - unfold remove_by_lease, discards, lease_target in *. destruct (query_index _ _ _ _ _) as [[|item items]|]; [done| |done].
    cbn [map_err rmap head]. destruct (sub_from_item item) as [sub|]; [|done].
    destruct (drop_sub_effect s (sb_registration_id sub) Hok) as [Hok1 Hk1].
    destruct (delete_item _ _ _ _) as [d [o|e]]; cbn [fst] in *; [|split; [done|by rewrite Hk1]].
    destruct (drained_effect _ (sb_registration_id sub) Hok1) as [Hok2 Hk2].
    destruct (drain_mailbox _ _) as [s2 [[]|]]; cbn [fst] in *; (split; [done|]);
      (rewrite Hk2, Hk1; [done|cbn; congruence]).
  - destruct (drop_sub_effect s reg' Hok) as [Hok1 Hk1]. split; [done|]. by rewrite Hk1.
  - pose proof (batch_delete_page s reg' items (proj2 Hok)) as Hp. destruct (batch_delete s _) as [s' res].
    destruct Hp as ((Hst & Hmt & _) & Hb' & Hk). cbn [fst]. split; [split; [by rewrite Hst, Hmt; apply Hok|done]|].
    rewrite Hk; [done|]. cbn. congruence.
Qed.

(** C27: An event that was answered as enqueued stays.  Whatever calls fail or are
    answered from stale snapshots, and however allocations, writes,
    acknowledgements, subscriptions and removals of any number of tasks
    interleave, its row stays in the mailbox with its content until its own number
    is acknowledged or its own registration is removed, by itself or because its
    lease ended. *)
Theorem enqueued_event_stays s reg seq e calls :
  box_ok s → is_ok (put_event s reg seq e).2 = true →
  spared (put_event s reg seq e).1 reg seq calls →
  box_row (foldl box_apply (put_event s reg seq e).1 calls) (reg, pretty seq) =
    Some (event_to_item reg seq e).
Proof.
  intros Hok Hres. pose proof (put_event_effect s reg seq e Hok) as Hp.
  destruct (put_event s reg seq e) as [s1 res]. destruct Hp as ((Hst & Hmt & _) & Hb1 & _ & Hrow).
  cbn [fst snd] in *. specialize (Hrow Hres).
  assert (Hok1 : box_ok s1) by (split; [rewrite Hst, Hmt; apply Hok|done]).
  clear Hok Hres Hst Hmt Hb1. revert s1 Hok1 Hrow. induction calls as [|c calls IH]; intros s1 Hok1 Hrow; [done|].
  intros [Hd Hsp]. destruct (box_call_effect s1 c reg seq (event_to_item reg seq e) Hok1 Hd) as [Hok2 Hk].
  cbn [foldl]. apply IH; [done|by apply Hk|done].
Qed.
End faults.

(** ** Concrete runs *)
Section samples.
#[local] Existing Instance canonical_iter.
#[local] Existing Instance rfc_sample.
#[local] Existing Instance rfc_sample_laws.

(** The tables after one subscription, with mailbox writes of number 2 failing. *)
Definition flaky_events : DynamoEventStore FlakyDb :=
  with_tables {| fl_now := de_client (create_subscription toy_events toy_sub).1;
                 fl_read := de_client toy_events;
                 fl_faults := λ _ item, bool_decide (get_n item "seq_num" = Some "2") |} "subs" "mail".

Lemma flaky_events_ok : mail_ok flaky_events.
Proof.
  split.
  - done.
  - exists {["reg-1" := (toy_sub, 0%Z)]}. split.
    + vm_compute. reflexivity.
    + intros i r [<- <-]%lookup_singleton_Some. done.
    + apply map_Forall_singleton. split; [by_compute|]. unfold seq_bound. cbn. lia.
  - exists (mkTable event_mailbox_spec ∅). split; [vm_compute; reflexivity|]. split; [done|].
    intros k it. cbn. by rewrite lookup_empty.
Qed.

Definition flaky_calls : list MailCall :=
  [MAllocate "reg-1"; MAllocate "reg-1"; MPut "reg-1" 2 (toy_event "b"); MPut "reg-1" 1 (toy_event "a");
   MAllocate "reg-2"; MAllocate "reg-1"].

Theorem sequence_numbers_increase_witness :
  handed_out "reg-1" flaky_calls (run_calls mail_apply flaky_events flaky_calls).2 = [1; 2; 3]%Z ∧
  StronglySorted Z.lt (handed_out "reg-1" flaky_calls (run_calls mail_apply flaky_events flaky_calls).2).
Proof.
  split; [vm_compute; reflexivity|].
  apply (sequence_numbers_increase "reg-1" flaky_calls flaky_events flaky_events_ok).
Defined.

(** Another write of the same number, an acknowledgement of others, a failing
    write, and the removal of another registration. *)
Theorem enqueued_event_stays_witness :
  let calls := [BMail (MPut "reg-1" 1 (toy_event "z")); BMail (MAck "reg-1" [2; 3]%Z); BRemove "reg-2";
                BRemoveByLease "lease-of-nobody"; BMail (MPut "reg-1" 2 (toy_event "b"))] in
  box_row (foldl box_apply (put_event flaky_events "reg-1" 1 (toy_event "a")).1 calls) ("reg-1", pretty 1%Z) =
    Some (event_to_item "reg-1" 1 (toy_event "a")).
Proof.
  intros calls. apply (enqueued_event_stays flaky_events "reg-1" 1 (toy_event "a") calls).
  - exact (mail_ok_box _ flaky_events_ok).
  - vm_compute. reflexivity.
  - split; [exact (λ x, x)|]. split.
    { intros [_ Hin]. rewrite !elem_of_cons, elem_of_nil in Hin. destruct Hin as [Hc|[Hc|[]]]; discriminate. }
    split; [discriminate|]. split; [vm_compute; discriminate|]. split; [exact (λ x, x)|exact Logic.I].
Defined.
End samples.
