(* ===== verification/DynamoRows.v ===== *)
(** * Rows and loops of the DynamoDB stores

    Whatever a table holds, what decodes is well typed and survives being written
    back; and the loops over mailbox pages end. *)

From S2P Require Import Prelude CoreTypes Matcher LeaseCore TxnStore EventStore.
From S2P Require Import Dynamo DynamoCodec DynamoSample DynamoLease DynamoTxn DynamoEvent.

Lemma parse_u64_range s z : parse_u64 s = Some z → is_u64 z.
Proof. apply parse_uint_bound. unfold u64_max. lia. Qed.

Lemma need_u64_range item k z : need_u64 item k = Ok z → is_u64 z.
Proof.
  unfold need_u64. destruct (get_n item k) as [s|]; cbn; [|done].
  destruct (parse_u64 s) as [y|] eqn:E; cbn; [|done]. intros [= <-]. by eapply parse_u64_range.
Qed.

Lemma collect_results_forall {A B} (f : A → result B Error) (P : B → Prop) l bs :
  (∀ a b, f a = Ok b → P b) → collect_results f l = Ok bs → Forall P bs.
Proof.
  intros Hf. revert bs. induction l as [|a l IH]; intros bs; cbn; [by intros [= <-]|].
  destruct (f a) as [b|] eqn:E; cbn; [|done]. destruct (collect_results f l) as [bs'|]; cbn; [|done].
  intros [= <-]. constructor; [by eapply Hf|by apply IH].
Qed.

Lemma participant_range av p : participant_from_av av = Ok p → is_u64 (pt_crash_count p).
Proof.
  unfold participant_from_av. destruct (as_m av) as [m|]; cbn; [|done]. destruct (get_s m _); cbn; [|done].
  destruct (get_n m _) as [n|]; cbn; [|done]. destruct (parse_u64 n) as [z|] eqn:E; cbn; [|done].
  intros [= <-]. by eapply parse_u64_range.
Qed.

Section typed.
Context {I : MapIter} {C : Chrono} {CL : ChronoLaws C} {R : Rfc3339} {RL : Rfc3339Laws R}.

Lemma lease_decoded item r : DynamoLease.record_from_item item = Ok r → is_u64 (lr_ttl_seconds r).
Proof.
  unfold DynamoLease.record_from_item. do 2 (destruct (need_s item _); cbn; [|done]).
  do 2 (destruct (need_time item _); cbn; [|done]). destruct (need_u64 item _) as [z|] eqn:E; cbn; [|done].
  intros [= <-]. by eapply need_u64_range.
Qed.

Lemma txn_decoded item r : DynamoTxn.record_from_item item = Ok r → participants_u64 r.
Proof.
  unfold DynamoTxn.record_from_item. do 2 (destruct (need_s item _); cbn; [|done]).
  destruct (rbind (need_s item _) _); cbn; [|done]. destruct (need_time item _); cbn; [|done].
  destruct (item !! "participants") as [[]|]; cbn; try (by intros [= <-]; constructor).
  destruct (collect_results _ _) as [ps|] eqn:E; cbn; [|done]. intros [= <-].
  eapply collect_results_forall; [apply participant_range|exact E].
Qed.

Lemma sub_decoded item sub : sub_from_item item = Ok sub → is_u64 (sb_initial_seq_num sub).
Proof.
  unfold sub_from_item. do 3 (destruct (need_s item _); cbn; [|done]).
  destruct (rbind (need_s item _) _); cbn; [|done]. destruct (read_map _ item _); cbn; [|done].
  intros [= <-]. cbn. destruct (get_n item _ ≫= parse_u64) as [z|] eqn:E; cbn.
  - destruct (get_n item _); cbn in E; [|done]. by eapply parse_u64_range.
  - unfold is_u64, u64_max. lia.
Qed.

Lemma event_decoded item e : event_from_item item = Ok e → is_u64 (er_seq_num e).
Proof.
  unfold event_from_item. do 3 (destruct (need_s item _); cbn; [|done]).
  destruct (need_u64 item _) as [z|] eqn:E; cbn; [|done]. destruct (need_time item _); cbn; [|done].
  destruct (read_map _ item _); cbn; [|done]. intros [= <-]. by eapply need_u64_range.
Qed.

(** Whatever [item] decodes to is [typed], and reads back after it is written. *)
Definition reads_back {A} (dec : Item → result A Error) (enc : A → Item) (typed : A → Prop) (item : Item) : Prop :=
  ∀ a, dec item = Ok a → typed a ∧ dec (enc a) = Ok a.

(** C39: What is read from a row is well typed, whoever wrote the row.  The
    numbers of a decoded lease, transaction, subscription or event fit their
    64-bit fields, and each of them, written back, reads as the same value again:
    no row turns into a record the store could not hold. *)
Theorem decoded_rows_typed item :
  reads_back DynamoLease.record_from_item DynamoLease.record_to_item (λ r, is_u64 (lr_ttl_seconds r)) item ∧
  reads_back DynamoTxn.record_from_item DynamoTxn.record_to_item participants_u64 item ∧
  reads_back sub_from_item sub_to_item (λ sub, is_u64 (sb_initial_seq_num sub)) item ∧
  ∀ reg, reads_back event_from_item (λ e, event_to_item reg (er_seq_num e) e) (λ e, is_u64 (er_seq_num e)) item.
Proof.
  split_and!.
  - intros r Hr%lease_decoded. split; [done|]. by apply lease_roundtrip.
  - intros r Hr%txn_decoded. split; [done|]. by apply txn_roundtrip.
  - intros sub Hs%sub_decoded. split; [done|].
    by apply (sub_roundtrip (sub, 0%Z)).
  - intros reg e He%event_decoded. split; [done|]. rewrite event_roundtrip by done. by destruct e.
Qed.
End typed.

(** ** The loops over pages end *)
Section loops.
Context {I : MapIter} {R : Rfc3339} {RL : Rfc3339Laws R}.
Context {D : Type} {DB : Dynamo D} {DV : DynamoView D} {DL : DynamoLaws D} {DH : DynamoHealthy D}.
Implicit Types (s : DynamoEventStore D).

(** Pages a loop over the mailbox [l] may ask for. *)
Definition page_bound (l : list (Z * EventRecord)) : nat := length l + 2.

Lemma drain_loop_more f1 f2 s reg start s' :
  drain_loop f1 s reg start = (s', Ok ()) → f1 ≤ f2 → drain_loop f2 s reg start = (s', Ok ()).
Proof.
  revert f2 s start. induction f1 as [|f1 IH]; intros f2 s start; [done|]. destruct f2 as [|f2]; [lia|].
  intros Hd Hle. cbn [drain_loop] in *. destruct (query _ _ _ _ _ _) as [page|]; [|done].
  destruct (batch_delete s _) as [s1 [u|]]; [|done]. destruct (pg_last page); [|done]. apply IH; [done|lia].
Qed.

Lemma peek_loop_more f1 f2 s reg after limit acc start out :
  peek_loop f1 s reg after limit acc start = Ok out → f1 ≤ f2 →
  peek_loop f2 s reg after limit acc start = Ok out.
Proof.
  revert f2 acc start. induction f1 as [|f1 IH]; intros f2 acc start; [done|]. destruct f2 as [|f2]; [lia|].
  intros Hp Hle. cbn [peek_loop] in *. destruct (limit <=? length acc); [done|].
  destruct (query _ _ _ _ _ _) as [page|]; cbn [map_err rbind] in *; [|done].
  destruct (push_decoded _ acc _) as [acc'|]; cbn [rbind] in *; [|done].
  destruct (pg_last page); [|done]. apply IH; [done|lia].
Qed.

Lemma box_drop_all reg (bx : string → list (Z * EventRecord)) r :
  (if decide (r = reg) then [] else bx r) = box_drop reg (bx reg).*1 bx r.
Proof.
  unfold box_drop. case_decide as Hr; [|done]. subst r.
  destruct (drop_seqs (bx reg).*1 (bx reg)) as [|[k e] l] eqn:E; [done|]. exfalso.
  assert (Hin : (k, e) ∈ drop_seqs (bx reg).*1 (bx reg)) by (rewrite E; left).
  apply drop_seqs_elem in Hin as [Hin Hn]. apply Hn, list_elem_of_fmap. by exists (k, e).
Qed.

(** C38: On a healthy database, whose calls are served and whose reads are caught
    up, the mailbox loops end with their result.  The drain of a mailbox, which
    deletes behind itself, ends with that mailbox empty and every other as it was;
    the peek, which asks for what is missing page by page, ends with the events
    after the cursor, in order, up to the limit.  Both need at most two pages more
    than the mailbox has events, however small the pages are. *)
Theorem mailbox_loops_terminate s reg bx mm fuel :
  holds_boxes (de_client s) (de_mailbox_table s) bx mm → reg ≠ "" → page_bound (bx reg) ≤ fuel →
  (∃ s' mm', drain_loop fuel s reg None = (s', Ok ()) ∧
     holds_boxes (de_client s') (de_mailbox_table s) (λ r, if decide (r = reg) then [] else bx r) mm') ∧
  (∀ after limit, ∃ out, peek_loop fuel s reg after limit [] None = Ok out ∧
     take limit out = take limit (bt_range after (bx reg)).*2).
Proof.
  intros Hh Hr Hf. split.
  - destruct (drain_loop_ok (S (length (bx reg))) s reg bx mm None Hh Hr) as (s' & Hd & [mm' Hm] & _); [lia|done|].
    exists s', mm'. split; [eapply drain_loop_more; [exact Hd|unfold page_bound in Hf; lia]|].
    eapply holds_boxes_ext; [intros r; symmetry; apply box_drop_all|exact Hm].
  - intros after limit. pose proof (List.filter_length_le (λ e : Z * EventRecord, (after <? e.1)%Z) (bx reg)) as Hl.
    destruct (peek_loop_ok (S (length (bx reg))) s reg after limit bx mm [] (bt_range after (bx reg)) None Hh Hr eq_refl)
      as (out & Hp & Ht); [unfold bt_range; lia|done|].
    exists out. split; [eapply peek_loop_more; [exact Hp|unfold page_bound in Hf; lia]|exact Ht].
Qed.
End loops.

(** ** Concrete runs *)
Section samples.
#[local] Existing Instance canonical_iter.
#[local] Existing Instance chrono_sample.
#[local] Existing Instance rfc_sample.
#[local] Existing Instance rfc_sample_laws.

(** A row with a count beyond 64 bits does not decode; one within does. *)
Definition odd_row (ttl : string) : Item :=
  <["ttl_seconds" := AN ttl]> (DynamoLease.record_to_item (mkLease "l" "registry:x" 0 5000000000 5)).

Theorem decoded_rows_typed_witness :
  is_ok (DynamoLease.record_from_item (odd_row "18446744073709551616")) = false ∧
  ∃ r, DynamoLease.record_from_item (odd_row "18446744073709551615") = Ok r ∧
    DynamoLease.record_from_item (DynamoLease.record_to_item r) = Ok r.
Proof.
  split; [vm_compute; reflexivity|]. eexists. split; [vm_compute; reflexivity|].
  apply (proj1 (decoded_rows_typed (odd_row "18446744073709551615"))). vm_compute. reflexivity.
Defined.

(** Two events in pages of one row. *)
Definition two_events : DynamoEventStore ToyDb :=
  (enqueue (enqueue (create_subscription toy_events toy_sub).1 "reg-1" (toy_event "a")).1 "reg-1" (toy_event "b")).1.

Definition two_boxes (reg : string) : list (Z * EventRecord) :=
  if decide (reg = "reg-1") then [(1, with_seq (toy_event "a") 1); (2, with_seq (toy_event "b") 2)]%Z else [].

Definition two_rows : gmap (string * Z) EventRecord :=
  <[("reg-1", 1%Z) := with_seq (toy_event "a") 1]> (<[("reg-1", 2%Z) := with_seq (toy_event "b") 2]> ∅).

Lemma two_events_held : holds_boxes (de_client two_events) "mail" two_boxes two_rows.
Proof.
  split.
  - vm_compute. reflexivity.
  - intros reg k e. unfold two_rows, two_boxes. rewrite !lookup_insert_Some, lookup_empty.
    case_decide as Hreg; rewrite ?elem_of_cons, elem_of_nil; naive_solver.
  - intros reg k e. unfold two_boxes. case_decide; rewrite ?elem_of_cons, elem_of_nil; [|done].
    unfold is_u64, u64_max. intros [[= -> ->]|[[= -> ->]|[]]]; subst; (split; [discriminate|]); (split; [lia|reflexivity]).
  - intros reg. unfold two_boxes. case_decide; repeat constructor; cbn; lia.
Qed.

Theorem mailbox_loops_terminate_witness :
  (∃ s', drain_loop 4 two_events "reg-1" None = (s', Ok ()) ∧
     tb_rows <$> tables (de_client s') !! "mail" = Some ∅) ∧
  ∃ out, peek_loop 4 two_events "reg-1" 1 5 [] None = Ok out ∧ take 5 out = [with_seq (toy_event "b") 2].
Proof.
  assert (Hr : "reg-1" ≠ "") by discriminate.
  destruct (mailbox_loops_terminate two_events "reg-1" two_boxes two_rows 4 two_events_held Hr (le_n 4))
    as [(s' & mm' & Hd & _) Hp].
  split; [|exact (Hp 1%Z 5)]. exists s'. split; [exact Hd|].
  vm_compute in Hd. injection Hd as <-. vm_compute. reflexivity.
Defined.
End samples.
