(* ===== verification/DynamoSpace.v ===== *)
(** * The DynamoDB tuple store ([providers/dynamo/src/space_store.rs])

    Four tables: committed tuples with an index on the lease, the uncommitted
    writes and the taken tuples of transactions keyed by transaction and tuple,
    and watches.  A transaction's own write that it took back is a taken row with
    a mark, where the in-memory store has a buffer of its own. *)

From S2P Require Import Prelude CoreTypes Matcher SpaceStore SpaceSpec SpaceManager.
From S2P Require Import Dynamo DynamoCodec DynamoSample.
From Stdlib Require Import Strings.Byte.

(** Attribute set on a taken row when the transaction took its own uncommitted
    write.  Such rows are never restored. *)
Definition OWN_WRITE_ATTR : string := "own_write".

Definition is_own_write (item : Item) : bool :=
  match item !! OWN_WRITE_ATTR with Some (ABool true) => true | _ => false end.

Definition kind_to_str (k : SpaceEventKind) : string :=
  match k with Appearance => "Appearance" | Expiration => "Expiration" end.

(** [{:?}] of the kind that is read, but for the escapes of special characters. *)
Definition debug_opt (o : option string) : string :=
  match o with
  | Some s => "Some(" +:+ String (Ascii.ascii_of_nat 34) s +:+ String (Ascii.ascii_of_nat 34) ")"
  | None => "None"
  end.

Definition kind_from (o : option string) : result SpaceEventKind Error :=
  match o with
  | Some s =>
      if String.eqb s "Appearance" then Ok Appearance
      else if String.eqb s "Expiration" then Ok Expiration
      else Err (Storage ("unknown SpaceEventKind: " +:+ debug_opt o))
  | None => Err (Storage ("unknown SpaceEventKind: " +:+ debug_opt o))
  end.

(** The row [create_watch] puts. *)
Definition watch_to_item (w : SpaceWatchRecord) : Item :=
  put_bytes "handback" (wt_handback w)
    (<["template" := write_map (wt_template w)]>
      (<["on" := AS (kind_to_str (wt_on w))]>
        (<["lease_id" := AS (wt_lease_id w)]>
          (<["watch_id" := AS (wt_watch_id w)]> ∅)))).

Record DynamoSpaceStore (D : Type) := mkDynSpace {
  ds_client : D;
  ds_tuple_table : string;
  ds_uncommitted_table : string;
  ds_txn_taken_table : string;
  ds_watches_table : string
}.
Arguments mkDynSpace {D}.
Arguments ds_client {D} _.
Arguments ds_tuple_table {D} _.
Arguments ds_uncommitted_table {D} _.
Arguments ds_txn_taken_table {D} _.
Arguments ds_watches_table {D} _.

Section store.
Context {I : MapIter} {R : Rfc3339}.

Definition put_input (o : option string) (item : Item) : Item :=
  match o with Some id => <["input_tuple_id" := AS id]> item | None => item end.

Definition tuple_to_item (r : TupleRecord) : Item :=
  put_input (tp_input_tuple_id r)
    (put_bytes "payload" (tp_payload r)
      (<["attrs" := write_map (tp_attrs r)]>
        (<["written_at" := AS (to_rfc3339 (tp_written_at r))]>
          (<["written_by" := AS (tp_written_by r)]>
            (<["lease_id" := AS (tp_lease_id r)]>
              (<["tuple_id" := AS (tp_tuple_id r)]> ∅)))))).

Definition tuple_from_item (item : Item) : result TupleRecord Error :=
  let? tuple_id := need_s item "tuple_id" in
  let? lease_id := need_s item "lease_id" in
  let? written_by := need_s item "written_by" in
  let? written_at := need_time item "written_at" in
  let? attrs := read_map (λ k, "attrs value for '" +:+ k +:+ "' is not a string") item "attrs" in
  let payload := read_bytes item "payload" in
  let input_tuple_id := get_s item "input_tuple_id" in
  Ok (mkTuple tuple_id attrs payload lease_id written_by written_at input_tuple_id).

Definition watch_from_item (item : Item) : result SpaceWatchRecord Error :=
  let? watch_id := need_s item "watch_id" in
  let? lease_id := need_s item "lease_id" in
  let? on := kind_from (get_s item "on") in
  let? template := read_map (λ k, "template value for '" +:+ k +:+ "' is not a string") item "template" in
  let handback := read_bytes item "handback" in
  Ok (mkWatch watch_id template on lease_id handback).

(** Rows of the two buffer tables. *)
Definition txn_item (txn_id : string) (r : TupleRecord) : Item :=
  <["txn_id" := AS txn_id]> (tuple_to_item r).
Definition own_item (txn_id : string) (r : TupleRecord) : Item :=
  <[OWN_WRITE_ATTR := ABool true]> (txn_item txn_id r).

Definition tuple_key_item (tuple_id : string) : Item := {["tuple_id" := AS tuple_id]}.
Definition txn_key_item (txn_id tuple_id : string) : Item :=
  <["tuple_id" := AS tuple_id]> {["txn_id" := AS txn_id]}.
Definition watch_key_item (watch_id : string) : Item := {["watch_id" := AS watch_id]}.

Context {D : Type} {DB : Dynamo D} {DV : DynamoView D}.
Implicit Types (s : DynamoSpaceStore D).

Definition with_tables (client : D) (tuple_table uncommitted_table txn_taken_table watches_table : string)
  : DynamoSpaceStore D :=
  mkDynSpace client tuple_table uncommitted_table txn_taken_table watches_table.

Definition new (client : D) : DynamoSpaceStore D :=
  with_tables client SPACE_TABLE SPACE_UNCOMMITTED_TABLE SPACE_TXN_TAKEN_TABLE SPACE_WATCHES_TABLE.

Definition set_client s (d : D) : DynamoSpaceStore D :=
  mkDynSpace d (ds_tuple_table s) (ds_uncommitted_table s) (ds_txn_taken_table s) (ds_watches_table s).

Definition init (env : string → option string) s : DynamoSpaceStore D * result unit Error :=
  let '(d, r) := init_tables env (ds_client s)
                   [λ d, ensure_space_table d (ds_tuple_table s);
                    λ d, ensure_space_uncommitted_table d (ds_uncommitted_table s);
                    λ d, ensure_space_txn_taken_table d (ds_txn_taken_table s);
                    λ d, ensure_space_watches_table d (ds_watches_table s)] in
  (set_client s d, r).

(** Whole tables, partitions, and the rows of one lease, as raw items. *)
Definition raw (item : Item) : result (list Item) Error := Ok [item].

Definition scan_all (d : D) (t : string) : result (list Item) Error :=
  scan_decoded d t None None "scan" raw.

Definition query_by_pk (d : D) (t pk : string) : result (list Item) Error :=
  query_decoded d t pk "query" raw.

Definition scan_by_lease (d : D) (t lease_id : string) : result (list Item) Error :=
  scan_decoded d t (Some (CEqS "lease_id" lease_id)) None "scan (lease filter)" raw.

(** [map_err] of a plain write. *)
Definition put s (t : string) (item : Item) : DynamoSpaceStore D * result unit Error :=
  let '(d, r) := put_item (ds_client s) t None item in
  (set_client s d, map_err (sdk_storage "put_item") r).

Definition del s (t : string) (key : Item) : DynamoSpaceStore D * result (option Item) Error :=
  let '(d, r) := delete_item (ds_client s) t None key in
  (set_client s d, map_err (sdk_storage "delete_item") r).

Definition put_taken s (item : Item) : DynamoSpaceStore D * result unit Error :=
  let '(d, r) := put_item (ds_client s) (ds_txn_taken_table s) None item in
  (set_client s d, map_err (sdk_storage "put_item (txn_taken)") r).

Definition insert s (record : TupleRecord) : DynamoSpaceStore D * result unit Error :=
  put s (ds_tuple_table s) (tuple_to_item record).

Definition insert_uncommitted s (txn_id : string) (record : TupleRecord)
  : DynamoSpaceStore D * result unit Error :=
  put s (ds_uncommitted_table s) (txn_item txn_id record).

Definition get s (tuple_id : string) : result (option TupleRecord) Error :=
  let? o := map_err (sdk_storage "get_item")
              (get_item (ds_client s) (ds_tuple_table s) (tuple_key_item tuple_id)) in
  match o with None => Ok None | Some item => rmap Some (tuple_from_item item) end.

Definition old_tuple (o : option Item) : result (option TupleRecord) Error :=
  match o with None => Ok None | Some item => rmap Some (tuple_from_item item) end.

Definition remove s (tuple_id : string) : DynamoSpaceStore D * result (option TupleRecord) Error :=
  let '(s, r) := del s (ds_tuple_table s) (tuple_key_item tuple_id) in
  (s, rbind r old_tuple).

(** The rows of one buffer table with the lease: the first that is still there
    when it is deleted is the answer. *)
Fixpoint remove_first_old s (t : string) (items : list Item)
  : DynamoSpaceStore D * result (option TupleRecord) Error :=
  match items with
  | [] => (s, Ok None)
  | item :: items =>
      match get_s item "txn_id" with
      | None => (s, Err (Storage "buffer item missing txn_id"))
      | Some txn_id =>
          match get_s item "tuple_id" with
          | None => (s, Err (Storage "buffer item missing tuple_id"))
          | Some tuple_id =>
              match del s t (txn_key_item txn_id tuple_id) with
              | (s, Err e) => (s, Err e)
              | (s, Ok (Some old)) => (s, rmap Some (tuple_from_item old))
              | (s, Ok None) => remove_first_old s t items
              end
          end
      end
  end.

Fixpoint remove_txn_buffered s (ts : list string) (lease_id : string)
  : DynamoSpaceStore D * result (option TupleRecord) Error :=
  match ts with
  | [] => (s, Ok None)
  | t :: ts =>
      match scan_by_lease (ds_client s) t lease_id with
      | Err e => (s, Err e)
      | Ok items =>
          match remove_first_old s t items with
          | (s, Ok None) => remove_txn_buffered s ts lease_id
          | out => out
          end
      end
  end.

Definition remove_txn_buffered_by_lease s (lease_id : string)
  : DynamoSpaceStore D * result (option TupleRecord) Error :=
  remove_txn_buffered s [ds_uncommitted_table s; ds_txn_taken_table s] lease_id.

Definition remove_by_lease s (lease_id : string)
  : DynamoSpaceStore D * result (option TupleRecord) Error :=
  match map_err (sdk_storage "query (lease GSI)")
          (query_index (ds_client s) (ds_tuple_table s) SPACE_LEASE_GSI lease_id 1) with
  | Err e => (s, Err e)
  | Ok items =>
      match head items with
      | None => remove_txn_buffered_by_lease s lease_id
      | Some item =>
          match get_s item "tuple_id" with
          | None => (s, Err (Storage "GSI item missing tuple_id"))
          | Some tuple_id =>
              match remove s tuple_id with
              | (s, Err e) => (s, Err e)
              | (s, Ok (Some record)) => (s, Ok (Some record))
              | (s, Ok None) => remove_txn_buffered_by_lease s lease_id
              end
          end
      end
  end.

(** The first item that matches; an item that does not decode ends the search. *)
Fixpoint first_match (ops : gmap string MatchOp) (items : list Item)
  : result (option TupleRecord) Error :=
  match items with
  | [] => Ok None
  | item :: items =>
      let? record := tuple_from_item item in
      if matches ops (tp_attrs record) then Ok (Some record) else first_match ops items
  end.

(** The transaction's uncommitted rows; none outside a transaction. *)
Definition own_rows s (txn_id : option string) : result (list Item) Error :=
  match txn_id with
  | Some tid => query_by_pk (ds_client s) (ds_uncommitted_table s) tid
  | None => Ok []
  end.

Definition find_match s (template : attrs_map) (txn_id : option string)
  : result (option TupleRecord) Error :=
  let ops := parse_template template in
  let? items := scan_all (ds_client s) (ds_tuple_table s) in
  let? o := first_match ops items in
  match o with
  | Some record => Ok (Some record)
  | None =>
      let? uncommitted := own_rows s txn_id in
      first_match ops uncommitted
  end.

(** One committed match of [take_match]: the conditional delete, one call on the
    database.  [Ok None]: someone else took it. *)
Definition claim s (tuple_id : string) : DynamoSpaceStore D * result (option TupleRecord) Error :=
  let '(d, r) := delete_item (ds_client s) (ds_tuple_table s) (Some (CExists "tuple_id"))
                   (tuple_key_item tuple_id) in
  (set_client s d,
   match r with
   | Ok o => old_tuple o
   | Err ConditionalCheckFailed => Ok None
   | Err e => Err (sdk_storage "delete_item" e)
   end).

Fixpoint take_committed s (ops : gmap string MatchOp) (txn_id : option string) (items : list Item)
  : DynamoSpaceStore D * result (option TupleRecord) Error :=
  match items with
  | [] => (s, Ok None)
  | item :: items =>
      match tuple_from_item item with
      | Err e => (s, Err e)
      | Ok record =>
          if matches ops (tp_attrs record) then
            match claim s (tp_tuple_id record) with
            | (s, Err e) => (s, Err e)
            | (s, Ok None) => take_committed s ops txn_id items
            | (s, Ok (Some taken)) =>
                match txn_id with
                | None => (s, Ok (Some taken))
                | Some tid =>
                    let '(s, r) := put_taken s (txn_item tid taken) in
                    (s, rmap (λ _, Some taken) r)
                end
            end
          else take_committed s ops txn_id items
      end
  end.

(** Taking the transaction's own uncommitted write. *)
Definition take_own s (txn_id : string) (record : TupleRecord)
  : DynamoSpaceStore D * result (option TupleRecord) Error :=
  match del s (ds_uncommitted_table s) (txn_key_item txn_id (tp_tuple_id record)) with
  | (s, Err e) => (s, Err e)
  | (s, Ok _) =>
      let '(s, r) := put_taken s (own_item txn_id record) in
      (s, rmap (λ _, Some record) r)
  end.

Definition take_match s (template : attrs_map) (txn_id : option string)
  : DynamoSpaceStore D * result (option TupleRecord) Error :=
  let ops := parse_template template in
  match rbind (own_rows s txn_id) (first_match ops), txn_id with
  | Err e, _ => (s, Err e)
  | Ok (Some record), Some tid => take_own s tid record
  | Ok _, _ =>
      match scan_all (ds_client s) (ds_tuple_table s) with
      | Err e => (s, Err e)
      | Ok items => take_committed s ops txn_id items
      end
  end.

Definition keep_match (ops : gmap string MatchOp) (item : Item) : result (list TupleRecord) Error :=
  let? record := tuple_from_item item in
  Ok (if ops_is_empty ops || matches ops (tp_attrs record) then [record] else []).

Definition find_all_matches s (template : attrs_map) (txn_id : option string)
  : result (list TupleRecord) Error :=
  let ops := parse_template template in
  let? items := scan_all (ds_client s) (ds_tuple_table s) in
  let? results := decode_all (keep_match ops) items in
  let? uncommitted := own_rows s txn_id in
  push_decoded (keep_match ops) results uncommitted.

(** The loops that end a transaction.  The tuple id of a row that decodes is that
    of its record, so that the two [unwrap]s on it do not panic. *)
Fixpoint flush_uncommitted s (txn_id : string) (items : list Item) (flushed : list TupleRecord)
  : DynamoSpaceStore D * result (list TupleRecord) Error :=
  match items with
  | [] => (s, Ok flushed)
  | item :: items =>
      match tuple_from_item item with
      | Err e => (s, Err e)
      | Ok record =>
          match insert s record with
          | (s, Err e) => (s, Err e)
          | (s, Ok _) =>
              match del s (ds_uncommitted_table s) (txn_key_item txn_id (tp_tuple_id record)) with
              | (s, Err e) => (s, Err e)
              | (s, Ok _) => flush_uncommitted s txn_id items (flushed ++ [record])
              end
          end
      end
  end.

(** Deletes each row and collects its record. *)
Fixpoint drop_rows s (t txn_id : string) (items : list Item) (dropped : list TupleRecord)
  : DynamoSpaceStore D * result (list TupleRecord) Error :=
  match items with
  | [] => (s, Ok dropped)
  | item :: items =>
      match tuple_from_item item with
      | Err e => (s, Err e)
      | Ok record =>
          match del s t (txn_key_item txn_id (tp_tuple_id record)) with
          | (s, Err e) => (s, Err e)
          | (s, Ok _) => drop_rows s t txn_id items (dropped ++ [record])
          end
      end
  end.

Definition commit_txn s (txn_id : string)
  : DynamoSpaceStore D * result (list TupleRecord * list TupleRecord) Error :=
  match query_by_pk (ds_client s) (ds_uncommitted_table s) txn_id with
  | Err e => (s, Err e)
  | Ok uncommitted_items =>
      match flush_uncommitted s txn_id uncommitted_items [] with
      | (s, Err e) => (s, Err e)
      | (s, Ok flushed) =>
          match query_by_pk (ds_client s) (ds_txn_taken_table s) txn_id with
          | Err e => (s, Err e)
          | Ok taken_items =>
              match drop_rows s (ds_txn_taken_table s) txn_id taken_items [] with
              | (s, Err e) => (s, Err e)
              | (s, Ok taken) => (s, Ok (flushed, taken))
              end
          end
      end
  end.

Fixpoint restore_taken s (txn_id : string) (items : list Item) (discarded restored : list TupleRecord)
  : DynamoSpaceStore D * result (list TupleRecord * list TupleRecord) Error :=
  match items with
  | [] => (s, Ok (discarded, restored))
  | item :: items =>
      match tuple_from_item item with
      | Err e => (s, Err e)
      | Ok record =>
          let own := is_own_write item in
          match (if own then (s, Ok ()) else insert s record) with
          | (s, Err e) => (s, Err e)
          | (s, Ok _) =>
              match del s (ds_txn_taken_table s) (txn_key_item txn_id (tp_tuple_id record)) with
              | (s, Err e) => (s, Err e)
              | (s, Ok _) =>
                  if own then restore_taken s txn_id items (discarded ++ [record]) restored
                  else restore_taken s txn_id items discarded (restored ++ [record])
              end
          end
      end
  end.

Definition abort_txn s (txn_id : string)
  : DynamoSpaceStore D * result (list TupleRecord * list TupleRecord) Error :=
  match query_by_pk (ds_client s) (ds_uncommitted_table s) txn_id with
  | Err e => (s, Err e)
  | Ok uncommitted_items =>
      match drop_rows s (ds_uncommitted_table s) txn_id uncommitted_items [] with
      | (s, Err e) => (s, Err e)
      | (s, Ok discarded) =>
          match query_by_pk (ds_client s) (ds_txn_taken_table s) txn_id with
          | Err e => (s, Err e)
          | Ok taken_items => restore_taken s txn_id taken_items discarded []
          end
      end
  end.

Definition has_txn s (txn_id : string) : result bool Error :=
  let? uncommitted := query_by_pk (ds_client s) (ds_uncommitted_table s) txn_id in
  if negb (bool_decide (uncommitted = [])) then Ok true
  else
    let? taken := query_by_pk (ds_client s) (ds_txn_taken_table s) txn_id in
    Ok (negb (bool_decide (taken = []))).

Definition list_all s : result (list TupleRecord) Error :=
  let? items := scan_all (ds_client s) (ds_tuple_table s) in
  decode_all (one tuple_from_item) items.

Definition create_watch s (w : SpaceWatchRecord) : DynamoSpaceStore D * result unit Error :=
  put s (ds_watches_table s) (watch_to_item w).

Definition remove_watch s (watch_id : string) : DynamoSpaceStore D * result unit Error :=
  let '(s, r) := del s (ds_watches_table s) (watch_key_item watch_id) in
  (s, rmap (λ _, ()) r).

Definition remove_watch_by_lease s (lease_id : string)
  : DynamoSpaceStore D * result (option SpaceWatchRecord) Error :=
  match map_err (sdk_storage "query (lease GSI)")
          (query_index (ds_client s) (ds_watches_table s) SPACE_WATCHES_LEASE_GSI lease_id 1) with
  | Err e => (s, Err e)
  | Ok items =>
      match head items with
      | None => (s, Ok None)
      | Some item =>
          match watch_from_item item with
          | Err e => (s, Err e)
          | Ok watch =>
              let '(s, r) := del s (ds_watches_table s) (watch_key_item (wt_watch_id watch)) in
              (s, rmap (λ _, Some watch) r)
          end
      end
  end.

Definition list_watches s : result (list SpaceWatchRecord) Error :=
  let? items := scan_all (ds_client s) (ds_watches_table s) in
  decode_all (one watch_from_item) items.

#[global] Instance DynamoSpaceStore_store : SpaceStore (DynamoSpaceStore D) := {|
  ss_insert := insert;
  ss_insert_uncommitted := insert_uncommitted;
  ss_get := get;
  ss_remove := remove;
  ss_remove_by_lease := remove_by_lease;
  ss_find_match := find_match;
  ss_take_match := take_match;
  ss_find_all_matches := find_all_matches;
  ss_commit_txn := commit_txn;
  ss_abort_txn := abort_txn;
  ss_has_txn := has_txn;
  ss_list_all := list_all;
  ss_create_watch := create_watch;
  ss_remove_watch := remove_watch;
  ss_remove_watch_by_lease := remove_watch_by_lease;
  ss_list_watches := list_watches
|}.
End store.

(** ** Rows *)
Section rows.
Context {I : MapIter} {R : Rfc3339} {RL : Rfc3339Laws R}.

(** The attributes of a tuple in a row; a row may have others. *)
Definition tuple_row (r : TupleRecord) (item : Item) : Prop :=
  item !! "tuple_id" = Some (AS (tp_tuple_id r)) ∧
  item !! "lease_id" = Some (AS (tp_lease_id r)) ∧
  item !! "written_by" = Some (AS (tp_written_by r)) ∧
  item !! "written_at" = Some (AS (to_rfc3339 (tp_written_at r))) ∧
  item !! "attrs" = Some (write_map (tp_attrs r)) ∧
  read_bytes item "payload" = tp_payload r ∧
  get_s item "input_tuple_id" = tp_input_tuple_id r.

Lemma put_input_ne o k item : k ≠ "input_tuple_id" → put_input o item !! k = item !! k.
Proof. intros Hne. destruct o; cbn; [|done]. by rewrite lookup_insert_ne. Qed.

Lemma tuple_to_item_row r : tuple_row r (tuple_to_item r).
Proof.
  unfold tuple_row, tuple_to_item. split_and!.
  1-5: rewrite put_input_ne, put_bytes_ne by done; by simplify_map_eq.
  - unfold read_bytes. rewrite put_input_ne by done. apply read_bytes_put. by simplify_map_eq.
  - unfold get_s. destruct (tp_input_tuple_id r); cbn [put_input].
    + by rewrite lookup_insert_eq.
    + rewrite put_bytes_ne by done. by simplify_map_eq.
Qed.

Lemma tuple_row_insert r k v item :
  k ∉ ["tuple_id"; "lease_id"; "written_by"; "written_at"; "attrs"; "payload"; "input_tuple_id"] →
  tuple_row r item → tuple_row r (<[k := v]> item).
Proof.
  rewrite !not_elem_of_cons. intros (? & ? & ? & ? & ? & ? & ? & _) (? & ? & ? & ? & ? & ? & ?).
  unfold tuple_row, read_bytes, get_s in *. by rewrite !lookup_insert_ne.
Qed.

(** A tuple survives being written to a row and read back, from the
    committed table and from both buffer tables. *)
Lemma tuple_roundtrip r item : tuple_row r item → tuple_from_item item = Ok r.
Proof.
  intros (H1 & H2 & H3 & H4 & H5 & H6 & H7). unfold tuple_from_item.
  rewrite (need_s_ok _ _ _ H1), (need_s_ok _ _ _ H2), (need_s_ok _ _ _ H3). cbn [rbind].
  rewrite (need_time_ok _ _ _ H4). cbn [rbind]. rewrite (read_map_ok _ _ _ _ H5). cbn [rbind].
  rewrite H6, H7. by destruct r.
Qed.

Lemma txn_item_row t r : tuple_row r (txn_item t r).
Proof. apply tuple_row_insert, tuple_to_item_row. set_solver. Qed.

Lemma own_item_row t r : tuple_row r (own_item t r).
Proof. apply tuple_row_insert, txn_item_row. unfold OWN_WRITE_ATTR. set_solver. Qed.

Lemma own_write_txn t r : is_own_write (txn_item t r) = false.
Proof.
  unfold is_own_write, txn_item, tuple_to_item, OWN_WRITE_ATTR. rewrite lookup_insert_ne by done.
  rewrite put_input_ne, put_bytes_ne by done. by simplify_map_eq.
Qed.

Lemma own_write_own t r : is_own_write (own_item t r) = true.
Proof. unfold is_own_write, own_item. by rewrite lookup_insert_eq. Qed.

Lemma kind_roundtrip k : kind_from (Some (kind_to_str k)) = Ok k.
Proof. by destruct k. Qed.

(** So does a watch. *)
Lemma watch_roundtrip w : watch_from_item (watch_to_item w) = Ok w.
Proof.
  assert (H1 : watch_to_item w !! "watch_id" = Some (AS (wt_watch_id w)))
    by (unfold watch_to_item; rewrite put_bytes_ne by done; by simplify_map_eq).
  assert (H2 : watch_to_item w !! "lease_id" = Some (AS (wt_lease_id w)))
    by (unfold watch_to_item; rewrite put_bytes_ne by done; by simplify_map_eq).
  assert (H3 : watch_to_item w !! "template" = Some (write_map (wt_template w)))
    by (unfold watch_to_item; rewrite put_bytes_ne by done; by simplify_map_eq).
  assert (H4 : get_s (watch_to_item w) "on" = Some (kind_to_str (wt_on w)))
    by (unfold watch_to_item, get_s; rewrite put_bytes_ne by done; by simplify_map_eq).
  unfold watch_from_item. rewrite (need_s_ok _ _ _ H1), (need_s_ok _ _ _ H2). cbn [rbind].
  rewrite H4, kind_roundtrip. cbn [rbind]. rewrite (read_map_ok _ _ _ _ H3). cbn [rbind].
  unfold watch_to_item. rewrite read_bytes_put by (by simplify_map_eq). by destruct w.
Qed.
End rows.
