(* ===== verification/DynamoSpaceSim.v ===== *)
(** * The DynamoDB tuple store refines the abstract space

    On a healthy database every call on the DynamoDB store does to the tuples what
    the specification of [SpaceSpec] allows, the specification the in-memory
    store refines too; and its watch calls keep the watches the in-memory store
    keeps. *)

From S2P Require Import Prelude CoreTypes Matcher SpaceStore SpaceSpec SpaceManager.
From S2P Require Import Dynamo DynamoCodec DynamoSample DynamoSpace.

(** ** Where a tuple is kept *)

(** The tables of tuples. *)
Inductive SpTable := TTuples | TUncommitted | TTaken.
#[global] Instance SpTable_eq_dec : EqDecision SpTable.
Proof. solve_decision. Defined.

Definition place_table (p : Place) : SpTable :=
  match p with
  | Visible => TTuples
  | Held BUncommitted _ => TUncommitted
  | Held BTaken _ | Held BSelfTaken _ => TTaken
  end.

Definition sp_spec (T : SpTable) : TableSpec :=
  match T with
  | TTuples => space_spec
  | TUncommitted => space_uncommitted_spec
  | TTaken => space_txn_taken_spec
  end.

Definition place_key (p : Place) (id : string) : Key :=
  match p with Visible => (id, "") | Held _ t => (t, id) end.

(** What callers pass, and so the tables hold: no empty id. *)
Definition place_ok (p : Place) : Prop := match p with Visible => True | Held _ t => t ≠ "" end.
Definition storable (r : TupleRecord) (p : Place) : Prop :=
  tp_tuple_id r ≠ "" ∧ tp_lease_id r ≠ "" ∧ place_ok p.

(** Every tuple under its own id, and no two with the same lease. *)
Record space_wf (a : space) : Prop := {
  sw_key : ∀ id r p, a !! id = Some (r, p) → tp_tuple_id r = id ∧ storable r p;
  sw_lease : ∀ id1 id2 r1 r2 p1 p2, a !! id1 = Some (r1, p1) → a !! id2 = Some (r2, p2) →
    tp_lease_id r1 = tp_lease_id r2 → id1 = id2
}.

Lemma place_key_inj p1 p2 id1 id2 :
  place_table p1 = place_table p2 → place_key p1 id1 = place_key p2 id2 → id1 = id2.
Proof. destruct p1 as [|[] ?], p2 as [|[] ?]; cbn; intros ? [=]; congruence. Qed.

Section sim.
Context {I : MapIter} {R : Rfc3339} {RL : Rfc3339Laws R}.

Definition place_item (p : Place) (r : TupleRecord) : Item :=
  match p with
  | Visible => tuple_to_item r
  | Held BSelfTaken t => own_item t r
  | Held _ t => txn_item t r
  end.

Definition key_item (p : Place) (id : string) : Item :=
  match p with Visible => tuple_key_item id | Held _ t => txn_key_item t id end.

Lemma place_item_row p r : tuple_row r (place_item p r).
Proof. destruct p as [|[] t]; [apply tuple_to_item_row|apply txn_item_row..|apply own_item_row]. Qed.

Lemma place_item_decode p r : tuple_from_item (place_item p r) = Ok r.
Proof. apply tuple_roundtrip, place_item_row. Qed.

Lemma place_item_id p1 p2 r1 r2 : place_item p1 r1 = place_item p2 r2 → r1 = r2.
Proof.
  intros Heq. pose proof (place_item_decode p1 r1) as H1. rewrite Heq, place_item_decode in H1.
  by injection H1.
Qed.

Lemma place_item_lease p r : get_s (place_item p r) "lease_id" = Some (tp_lease_id r).
Proof. destruct (place_item_row p r) as (_ & Hl & _). unfold get_s. by rewrite Hl. Qed.

Lemma place_item_tuple p r : get_s (place_item p r) "tuple_id" = Some (tp_tuple_id r).
Proof. destruct (place_item_row p r) as (Hl & _). unfold get_s. by rewrite Hl. Qed.

Lemma place_item_txn b t r : get_s (place_item (Held b t) r) "txn_id" = Some t.
Proof. unfold get_s. destruct b; cbn; unfold own_item, txn_item, OWN_WRITE_ATTR; by simplify_map_eq. Qed.

Lemma own_write_place p r : is_own_write (place_item p r) = match p with Held BSelfTaken _ => true | _ => false end.
Proof.
  destruct p as [|[] t]; cbn; [|apply own_write_txn..|apply own_write_own].
  unfold is_own_write, tuple_to_item, OWN_WRITE_ATTR. rewrite put_input_ne, put_bytes_ne by done. by simplify_map_eq.
Qed.

Lemma spec_key p item id :
  (match p with Held _ t => get_s item "txn_id" = Some t | Visible => True end) →
  get_s item "tuple_id" = Some id → id ≠ "" → place_ok p →
  key_of (sp_spec (place_table p)) item = Some (place_key p id).
Proof.
  destruct p as [|b t]; cbn.
  - intros _ Hid Hne _. unfold key_of. cbn. by rewrite Hid; cbn; rewrite nonempty_ok.
  - intros Ht Hid Hne Hok. unfold key_of. destruct b; cbn; rewrite Ht; cbn; rewrite nonempty_ok by done;
      rewrite Hid; cbn; by rewrite nonempty_ok.
Qed.

Lemma place_item_key p r :
  storable r p → key_of (sp_spec (place_table p)) (place_item p r) = Some (place_key p (tp_tuple_id r)).
Proof.
  intros (Hid & _ & Hok). apply spec_key; [|apply place_item_tuple|done|done].
  destruct p; [done|apply place_item_txn].
Qed.

Lemma key_item_key p id :
  id ≠ "" → place_ok p → key_of (sp_spec (place_table p)) (key_item p id) = Some (place_key p id).
Proof.
  intros Hid Hok. apply spec_key; [| |done|done].
  - destruct p; [done|]. cbn. unfold get_s, txn_key_item. by simplify_map_eq.
  - destruct p; cbn; unfold get_s, txn_key_item, tuple_key_item; by simplify_map_eq.
Qed.

Lemma place_item_index p r : storable r p → index_ok (sp_spec (place_table p)) (place_item p r) = true.
Proof.
  intros (_ & Hl & _). destruct p as [|[] t]; cbn; [|done..]. unfold index_ok. cbn.
  pose proof (place_item_lease Visible r) as Hg. cbn [place_item] in Hg.
  rewrite Hg, bool_decide_eq_false_2; [done|]. by intros [= ?].
Qed.

(** ** Tables that hold the tuples of an abstract space *)
Context {D : Type} {DB : Dynamo D} {DV : DynamoView D} {DL : DynamoLaws D} {DH : DynamoHealthy D}.
Implicit Types (s : DynamoSpaceStore D) (a : space) (T : SpTable).

Definition sp_name s T : string :=
  match T with
  | TTuples => ds_tuple_table s
  | TUncommitted => ds_uncommitted_table s
  | TTaken => ds_txn_taken_table s
  end.

(** Table [T] holds the tuples that [a] has there. *)
Definition table_holds s T a : Prop :=
  ∃ tb, tables (ds_client s) !! sp_name s T = Some tb ∧ tb_spec tb = sp_spec T ∧
    ∀ k it, tb_rows tb !! k = Some it ↔
      ∃ id r p, a !! id = Some (r, p) ∧ place_table p = T ∧ k = place_key p id ∧ it = place_item p r.

Definition names_distinct s : Prop :=
  NoDup [ds_tuple_table s; ds_uncommitted_table s; ds_txn_taken_table s; ds_watches_table s].

Record space_in s a : Prop := {
  si_names : names_distinct s;
  si_holds : ∀ T, table_holds s T a;
  si_wf : space_wf a
}.

(** [s'] differs from [s] at most in table [t]. *)
Definition at_most s s' (t : string) : Prop :=
  (∃ d, s' = set_client s d) ∧ ∀ t', t' ≠ t → tables (ds_client s') !! t' = tables (ds_client s) !! t'.

Lemma sp_name_inj s T1 T2 : names_distinct s → sp_name s T1 = sp_name s T2 → T1 = T2.
Proof.
  unfold names_distinct. rewrite !NoDup_cons, !not_elem_of_cons.
  intros (Hn1 & Hn2 & _). destruct T1, T2; cbn; naive_solver.
Qed.

Lemma at_most_names s s' t : at_most s s' t → ∀ T, sp_name s' T = sp_name s T.
Proof. intros [[d ->] _] []; done. Qed.

Lemma table_holds_other s s' T T' a :
  names_distinct s → at_most s s' (sp_name s T) → T' ≠ T → table_holds s T' a → table_holds s' T' a.
Proof.
  intros Hn Hm Hne (tb & Ht & Hrest). exists tb. split; [|done].
  rewrite (at_most_names _ _ _ Hm). destruct Hm as [_ Hm]. rewrite Hm; [done|].
  intros Heq. by apply Hne, (sp_name_inj s).
Qed.

(** Only the tuples in [T] matter. *)
Lemma table_holds_ext s T a a' :
  (∀ id r p, place_table p = T → a !! id = Some (r, p) ↔ a' !! id = Some (r, p)) →
  table_holds s T a → table_holds s T a'.
Proof.
  intros Hext (tb & Ht & Hspec & Hrows). exists tb. split_and!; [done..|]. intros k it. rewrite Hrows.
  split; intros (id & r & p & Hid & HT & ? & ?); exists id, r, p; (split; [|done]); by apply Hext.
Qed.

Lemma table_holds_wf s T a tb :
  space_wf a → tables (ds_client s) !! sp_name s T = Some tb → table_holds s T a → table_wf tb.
Proof.
  intros Hwf Htb (tb0 & Ht & Hspec & Hrows). rewrite Htb in Ht. injection Ht as <-.
  intros k it (id & r & p & Hid & HT & -> & ->)%Hrows. destruct (sw_key _ Hwf _ _ _ Hid) as [<- Hst].
  rewrite Hspec, <- HT. by apply place_item_key.
Qed.

(** *** One tuple enters or leaves one table *)
Lemma put_place s a r p :
  names_distinct s → table_holds s (place_table p) a → storable r p →
  (∀ r' p', a !! tp_tuple_id r = Some (r', p') → place_table p' ≠ place_table p) →
  ∃ d, put_item (ds_client s) (sp_name s (place_table p)) None (place_item p r) = (d, Ok ()) ∧
    at_most s (set_client s d) (sp_name s (place_table p)) ∧
    table_holds (set_client s d) (place_table p) (<[tp_tuple_id r := (r, p)]> a).
Proof.
  intros Hn (tb & Ht & Hspec & Hrows) Hst Hnew.
  assert (Hput : put_row None (place_item p r) tb =
    Some (Some (set_row tb (place_key p (tp_tuple_id r)) (place_item p r), ()))).
  { unfold put_row. rewrite Hspec, place_item_key by done. cbn [mbind option_bind].
    by rewrite option_guard_True by (by apply place_item_index). }
  destruct (put_item_ok _ _ _ _ _ _ Ht Hput) as [Hres Htabs].
  destruct (put_item _ _ _ _) as [d res]. cbn [fst snd] in *. subst res. exists d. split; [done|].
  split; [split; [by eexists|]; intros t' Hne; cbn; by rewrite Htabs, lookup_insert_ne|].
  eexists. split; [destruct (place_table p); cbn in *; by rewrite Htabs, lookup_insert_eq|].
  split; [done|]. intros k it. cbn. rewrite lookup_insert_Some, Hrows. split.
  - intros [[<- <-]|[Hne (id & r' & p' & Hid & HT & -> & ->)]].
    + exists (tp_tuple_id r), r, p. by rewrite lookup_insert_eq.
    + exists id, r', p'. rewrite lookup_insert_ne; [done|]. intros <-. by apply (Hnew r' p').
  - intros (id & r' & p' & [[<- [= <- <-]]|[Hne Hid]]%lookup_insert_Some & HT & -> & ->); [by left|].
    right. split; [|by eexists _, _, _]. intros Heq. apply Hne. eapply place_key_inj, Heq. done.
Qed.

Lemma del_place s a c id r p :
  names_distinct s → table_holds s (place_table p) a → space_wf a → a !! id = Some (r, p) →
  check c (Some (place_item p r)) = true →
  ∃ d, delete_item (ds_client s) (sp_name s (place_table p)) c (key_item p id) =
      (d, Ok (Some (place_item p r))) ∧
    at_most s (set_client s d) (sp_name s (place_table p)) ∧
    table_holds (set_client s d) (place_table p) (delete id a).
Proof.
  intros Hn (tb & Ht & Hspec & Hrows) Hwf Hid Hc. destruct (sw_key _ Hwf _ _ _ Hid) as [Hrid (Hne & _ & Hok)].
  rewrite Hrid in Hne.
  assert (Hrow : tb_rows tb !! place_key p id = Some (place_item p r)) by (apply Hrows; by exists id, r, p).
  assert (Hdel : delete_row c (key_item p id) tb =
    Some (Some (del_row tb (place_key p id), Some (place_item p r)))).
  { unfold delete_row. rewrite Hspec, key_item_key by done. cbn [mbind option_bind]. by rewrite Hrow, Hc. }
  destruct (delete_item_ok _ _ _ _ _ _ Ht Hdel) as [Hres Htabs].
  destruct (delete_item _ _ _ _) as [d res]. cbn [fst snd] in *. subst res. exists d. split; [done|].
  split; [split; [by eexists|]; intros t' Hnt; cbn; by rewrite Htabs, lookup_insert_ne|].
  eexists. split; [destruct (place_table p); cbn in *; by rewrite Htabs, lookup_insert_eq|].
  split; [done|]. intros k it. cbn. rewrite lookup_delete_Some, Hrows. split.
  - intros [Hnk (id' & r' & p' & Hid' & HT & -> & ->)]. exists id', r', p'.
    rewrite lookup_delete_ne; [done|]. intros <-. rewrite Hid in Hid'. by injection Hid' as <- <-.
  - intros (id' & r' & p' & [Hni Hid']%lookup_delete_Some & HT & -> & ->). split; [|by eexists _, _, _].
    intros Heq. apply Hni. eapply place_key_inj, Heq. done.
Qed.

Lemma del_absent s a id :
  names_distinct s → table_holds s TTuples a → space_wf a → id ≠ "" → (∀ r, a !! id ≠ Some (r, Visible)) →
  ∃ d, delete_item (ds_client s) (ds_tuple_table s) None (tuple_key_item id) = (d, Ok None) ∧
    at_most s (set_client s d) (ds_tuple_table s) ∧ table_holds (set_client s d) TTuples a.
Proof.
  intros Hn (tb & Ht & Hspec & Hrows) Hwf Hid Hno.
  assert (Hrow : tb_rows tb !! place_key Visible id = None).
  { apply eq_None_not_Some. intros [it (id' & r & p & Ha & HT & Hk & _)%Hrows].
    apply (place_key_inj Visible p) in Hk; [|done]. subst id'. destruct p as [|[] ?]; [|done..].
    by apply (Hno r). }
  assert (Hdel : delete_row None (key_item Visible id) tb = Some (Some (del_row tb (place_key Visible id), None))).
  { unfold delete_row. rewrite Hspec. rewrite (key_item_key Visible) by done. cbn [mbind option_bind]. by rewrite Hrow. }
  destruct (delete_item_ok _ _ _ _ _ _ Ht Hdel) as [Hres Htabs]. cbn [key_item sp_name] in *.
  destruct (delete_item _ _ _ _) as [d res]. cbn [fst snd] in *. subst res. exists d. split; [done|].
  split; [split; [by eexists|]; intros t' Hnt; cbn; by rewrite Htabs, lookup_insert_ne|].
  exists tb. cbn. rewrite Htabs, lookup_insert_eq. split; [|done]. f_equal. unfold del_row.
  rewrite delete_id by done. by destruct tb.
Qed.

(** *** Reading *)
Lemma decode_raw items : decode_all raw items = Ok items.
Proof. induction items as [|it items IH]; cbn; [done|]. by rewrite IH. Qed.

Definition item_of (rp : TupleRecord * Place) : Item := place_item rp.2 rp.1.
Definition id_of (rp : TupleRecord * Place) : string := tp_tuple_id rp.1.

(** Rows that are the tuples of [a] with [P]. *)
Lemma rows_list a (P : TupleRecord → Place → Prop) items :
  space_wf a → NoDup items →
  (∀ it, it ∈ items ↔ ∃ id r p, a !! id = Some (r, p) ∧ P r p ∧ it = place_item p r) →
  ∃ l, items = item_of <$> l ∧ NoDup (id_of <$> l) ∧
    ∀ r p, (r, p) ∈ l ↔ a !! tp_tuple_id r = Some (r, p) ∧ P r p.
Proof.
  intros Hwf Hnd Hiff.
  assert (Hl : ∃ l, items = item_of <$> l ∧ Forall (λ rp, a !! id_of rp = Some rp ∧ P rp.1 rp.2) l).
  { assert (Hall : Forall (λ it, ∃ rp, it = item_of rp ∧ a !! id_of rp = Some rp ∧ P rp.1 rp.2) items).
    { apply Forall_forall. intros it (id & r & p & Ha & HP & ->)%Hiff. exists (r, p).
      destruct (sw_key _ Hwf _ _ _ Ha) as [<- _]. done. }
    clear Hiff Hnd. induction Hall as [|it items (rp & -> & Hrp) _ (l & -> & Hl)]; [by exists []|].
    exists (rp :: l). split; [done|]. by constructor. }
  destruct Hl as (l & -> & Hl). rewrite Forall_forall in Hl. exists l. split; [done|]. split.
  - apply NoDup_fmap_1 in Hnd. apply NoDup_fmap_2_strong; [|done]. intros x y Hx Hy Heq.
    destruct (Hl _ Hx) as [Hax _], (Hl _ Hy) as [Hay _]. rewrite Heq, Hay in Hax. congruence.
  - intros r p. split; [by intros Hin; apply (Hl (r, p))|]. intros [Ha HP].
    assert (Hin : place_item p r ∈ item_of <$> l) by (apply Hiff; eauto 10).
    apply list_elem_of_fmap in Hin as ([r' p'] & Heq & Hin). apply place_item_id in Heq as Hr. cbn in Hr.
    subst r'. destruct (Hl _ Hin) as [Ha' _]. unfold id_of in Ha'. cbn in Ha'. rewrite Ha in Ha'.
    by injection Ha' as ->.
Qed.

Lemma table_values s T a tb :
  space_wf a → tables (ds_client s) !! sp_name s T = Some tb → table_holds s T a →
  NoDup (map_to_list (tb_rows tb)).*2 ∧
  ∀ it, it ∈ (map_to_list (tb_rows tb)).*2 ↔
    ∃ id r p, a !! id = Some (r, p) ∧ place_table p = T ∧ it = place_item p r.
Proof.
  intros Hwf Htb Hh. split.
  - destruct (rows_keyed tb (map_to_list (tb_rows tb)).*2) as [Hnd _]; [by eapply table_holds_wf|done|].
    by apply NoDup_fmap_1 in Hnd.
  - destruct Hh as (tb0 & Ht & _ & Hrows). rewrite Htb in Ht. injection Ht as <-. intros it. split.
    + intros ([k x] & -> & Hin%elem_of_map_to_list)%list_elem_of_fmap. apply Hrows in Hin. naive_solver.
    + intros (id & r & p & Ha & HT & ->). apply list_elem_of_fmap. exists (place_key p id, place_item p r).
      split; [done|]. apply elem_of_map_to_list, Hrows. eauto 10.
Qed.

Lemma scan_place s T a c what :
  space_wf a → table_holds s T a →
  ∃ l, scan_decoded (ds_client s) (sp_name s T) c None what raw = Ok (item_of <$> l) ∧
    NoDup (id_of <$> l) ∧
    ∀ r p, (r, p) ∈ l ↔ a !! tp_tuple_id r = Some (r, p) ∧ place_table p = T ∧ passes c (place_item p r) = true.
Proof.
  intros Hwf Hh. pose proof Hh as (tb & Ht & _).
  destruct (table_values s T a tb Hwf Ht Hh) as [Hnd Hin].
  assert (Hp : scan_rows (ds_client s) (sp_name s T) ≡ₚ (map_to_list (tb_rows tb)).*2)
    by (apply scan_rows_law; by rewrite replica_tables).
  destruct (rows_list a (λ r p, place_table p = T ∧ passes c (place_item p r) = true)
    (List.filter (passes c) (scan_rows (ds_client s) (sp_name s T)))) as (l & Hl & Hndl & Hinl); [done| | |].
  - rewrite Hp. apply NoDup_ListNoDup, List.NoDup_filter, NoDup_ListNoDup. done.
  - intros it. rewrite filter_bool_elem, Hp, Hin. split.
    + intros [(id & r & p & ? & ? & ->) ?]. eauto 10.
    + intros (id & r & p & ? & [? ?] & ->). split; [|done]. eauto 10.
  - exists l. rewrite <- Hl. split; [|done].
    eapply scan_decoded_ok; [done|by eapply table_holds_wf|done|apply decode_raw].
Qed.

(** The rows of one transaction in a buffer table. *)
Lemma query_place s T a t :
  T ≠ TTuples → space_wf a → table_holds s T a → t ≠ "" →
  ∃ l, query_by_pk (ds_client s) (sp_name s T) t = Ok (item_of <$> l) ∧ NoDup (id_of <$> l) ∧
    ∀ r p, (r, p) ∈ l ↔ a !! tp_tuple_id r = Some (r, p) ∧ place_table p = T ∧ ∃ b, p = Held b t.
Proof.
  intros HT Hwf Hh Hne. pose proof Hh as (tb & Ht & Hspec & _).
  destruct (table_values s T a tb Hwf Ht Hh) as [Hnd Hin].
  destruct (query_rows_law (ds_client s) (sp_name s T) t tb) as [Hp _]; [by rewrite replica_tables|].
  assert (Hhash : tp_hash (tb_spec tb) = "txn_id") by (rewrite Hspec; by destruct T).
  rewrite Hhash in Hp.
  destruct (rows_list a (λ r p, place_table p = T ∧ ∃ b, p = Held b t)
    (query_rows (ds_client s) (sp_name s T) t)) as (l & Hl & Hndl & Hinl); [done| | |].
  - rewrite Hp. apply NoDup_ListNoDup, List.NoDup_filter, NoDup_ListNoDup. done.
  - intros it. rewrite Hp, filter_bool_elem, bool_decide_eq_true, Hin. split.
    + intros [(id & r & p & Ha & Hpt & ->) Hg]. destruct p as [|b t']; [by destruct T|].
      rewrite place_item_txn in Hg. injection Hg as ->. eauto 10.
    + intros (id & r & p & Ha & [Hpt [b ->]] & ->). split; [eauto 10|]. apply place_item_txn.
  - exists l. rewrite <- Hl. split; [|done]. unfold query_by_pk.
    eapply query_decoded_ok; [done|by eapply table_holds_wf| |done|apply decode_raw].
    rewrite Hspec. by destruct T.
Qed.

(** *** Moving tuples between places *)
Lemma wf_insert a r p : space_wf a → fresh_tuple a r → storable r p → space_wf (<[tp_tuple_id r := (r, p)]> a).
Proof.
  intros [Hk Hl] [Hn Hf] Hst. split.
  - intros id r' p' [[<- [= <- <-]]|[_ Ha]]%lookup_insert_Some; [done|by apply Hk].
  - intros id1 id2 r1 r2 p1 p2 [[<- [= <- <-]]|[_ H1]]%lookup_insert_Some
      [[<- [= <- <-]]|[_ H2]]%lookup_insert_Some Heq; [done|..|by eapply Hl].
    + by destruct (Hf _ _ _ H2).
    + by destruct (Hf _ _ _ H1).
Qed.

Lemma wf_delete a id : space_wf a → space_wf (delete id a).
Proof.
  intros [Hk Hl]. split.
  - intros id' r p [_ Ha]%lookup_delete_Some. by apply Hk.
  - intros id1 id2 r1 r2 p1 p2 [_ H1]%lookup_delete_Some [_ H2]%lookup_delete_Some. by eapply Hl.
Qed.

Lemma fresh_deleted a r p : space_wf a → a !! tp_tuple_id r = Some (r, p) → fresh_tuple (delete (tp_tuple_id r) a) r.
Proof.
  intros Hwf Ha. split; [apply lookup_delete_eq|]. intros id r' p' [Hne Ha']%lookup_delete_Some Heq.
  apply Hne. by eapply (sw_lease _ Hwf).
Qed.

Lemma wf_move a r p p' :
  space_wf a → a !! tp_tuple_id r = Some (r, p) → storable r p' → space_wf (<[tp_tuple_id r := (r, p')]> a).
Proof.
  intros Hwf Ha Hst. rewrite <- insert_delete_eq. apply wf_insert; [by apply wf_delete| |done].
  by eapply fresh_deleted.
Qed.

(** The tuple calls leave the watches alone. *)
Definition evolves s s' : Prop :=
  ∃ d, s' = set_client s d ∧
    tables d !! ds_watches_table s = tables (ds_client s) !! ds_watches_table s.

Lemma space_evolves_refl s : evolves s s.
Proof. exists (ds_client s). by destruct s. Qed.

Lemma evolves_trans s1 s2 s3 : evolves s1 s2 → evolves s2 s3 → evolves s1 s3.
Proof. intros (d1 & -> & H1) (d2 & -> & H2). exists d2. split; [done|]. cbn in *. by rewrite H2, H1. Qed.

Lemma evolves_names s s' : evolves s s' → ∀ T, sp_name s' T = sp_name s T.
Proof. intros (d & -> & _) []; done. Qed.

Lemma at_most_evolves s d T : names_distinct s → at_most s (set_client s d) (sp_name s T) → evolves s (set_client s d).
Proof.
  intros Hn [_ Hm]. exists d. split; [done|]. apply Hm. unfold names_distinct in Hn.
  rewrite !NoDup_cons, !not_elem_of_cons in Hn. destruct T; cbn; naive_solver.
Qed.

Lemma space_put s a r p :
  space_in s a → fresh_tuple a r → storable r p →
  ∃ d, put_item (ds_client s) (sp_name s (place_table p)) None (place_item p r) = (d, Ok ()) ∧
    evolves s (set_client s d) ∧ space_in (set_client s d) (<[tp_tuple_id r := (r, p)]> a).
Proof.
  intros [Hn Hh Hwf] Hfr Hst. pose proof Hfr as [Hnone _].
  destruct (put_place s a r p Hn (Hh _) Hst) as (d & Hput & Hm & HT); [intros r' p' Ha; congruence|].
  exists d. split; [done|]. split; [by eapply at_most_evolves|]. split; [done| |by apply wf_insert].
  intros T. destruct (decide (T = place_table p)) as [->|Hne]; [done|].
  eapply table_holds_ext; [|by eapply table_holds_other].
  intros id r' p' Hp'. destruct (decide (tp_tuple_id r = id)) as [<-|Hid]; [|by rewrite lookup_insert_ne].
  rewrite lookup_insert_eq, Hnone. split; [done|]. by intros [= <- <-].
Qed.

Lemma space_del s a c id r p :
  space_in s a → a !! id = Some (r, p) → check c (Some (place_item p r)) = true →
  ∃ d, delete_item (ds_client s) (sp_name s (place_table p)) c (key_item p id) = (d, Ok (Some (place_item p r))) ∧
    evolves s (set_client s d) ∧ space_in (set_client s d) (delete id a).
Proof.
  intros [Hn Hh Hwf] Ha Hc. destruct (del_place s a c id r p Hn (Hh _) Hwf Ha Hc) as (d & Hdel & Hm & HT).
  exists d. split; [done|]. split; [by eapply at_most_evolves|]. split; [done| |by apply wf_delete].
  intros T. destruct (decide (T = place_table p)) as [->|Hne]; [done|].
  eapply table_holds_ext; [|by eapply table_holds_other].
  intros id' r' p' Hp'. destruct (decide (id = id')) as [<-|Hid]; [|by rewrite lookup_delete_ne].
  rewrite lookup_delete_eq, Ha. split; [by intros [= <- <-]|done].
Qed.

(** The row is written in the new table before the old one is deleted. *)
Lemma space_move s a r p p' :
  space_in s a → a !! tp_tuple_id r = Some (r, p) → storable r p' → place_table p ≠ place_table p' →
  ∃ d1 d2, put_item (ds_client s) (sp_name s (place_table p')) None (place_item p' r) = (d1, Ok ()) ∧
    delete_item d1 (sp_name s (place_table p)) None (key_item p (tp_tuple_id r)) = (d2, Ok (Some (place_item p r))) ∧
    evolves s (set_client s d2) ∧ space_in (set_client s d2) (<[tp_tuple_id r := (r, p')]> a).
Proof.
  intros [Hn Hh Hwf] Ha Hst Hpp.
  destruct (put_place s a r p' Hn (Hh _) Hst) as (d1 & Hput & Hm1 & HT1); [intros r' q Hq; congruence|].
  set (s1 := set_client s d1) in *.
  assert (Hold : table_holds s1 (place_table p) a) by (by eapply table_holds_other).
  destruct (del_place s1 a None _ r p Hn Hold Hwf Ha eq_refl) as (d2 & Hdel & Hm2 & HT2).
  exists d1, d2. change (sp_name s1 (place_table p)) with (sp_name s (place_table p)) in *.
  split; [done|]. split; [done|].
  split; [eapply evolves_trans; [by eapply at_most_evolves|]; eapply (at_most_evolves s1 d2 (place_table p)); [exact Hn|exact Hm2]|].
  split; [done| |by eapply wf_move].
  assert (Hother : ∀ T b, T ≠ place_table p → table_holds s1 T b → table_holds (set_client s d2) T b).
  { intros T b HT Hb. eapply (table_holds_other s1 _ (place_table p)); [exact Hn|exact Hm2|done|done]. }
  intros T. destruct (decide (T = place_table p')) as [->|Hne']; [by apply Hother|].
  destruct (decide (T = place_table p)) as [->|Hne].
  - eapply table_holds_ext; [|exact HT2]. intros id r' q Hq.
    destruct (decide (tp_tuple_id r = id)) as [<-|Hid]; [|by rewrite lookup_delete_ne, lookup_insert_ne].
    rewrite lookup_delete_eq, lookup_insert_eq. split; [done|]. by intros [= <- <-].
  - apply Hother; [done|]. eapply table_holds_ext; [|by eapply table_holds_other]. intros id r' q Hq.
    destruct (decide (tp_tuple_id r = id)) as [<-|Hid]; [|by rewrite lookup_insert_ne].
    rewrite lookup_insert_eq, Ha. split; by intros [= <- <-].
Qed.
End sim.
