(* ===== verification/DynamoSpaceRefine.v ===== *)
(** * Every call on the DynamoDB tuple store, against the abstract space

    The reads, the takes and the endings of transactions, on the tables of
    [DynamoSpaceSim], and the refinement theorem. *)

From S2P Require Import Prelude CoreTypes Matcher SpaceStore SpaceSpec SpaceManager.
From S2P Require Import Dynamo DynamoCodec DynamoSample DynamoSpace DynamoSpaceSim.

(** What callers pass: no empty id. *)
Definition space_op_valid (op : SpaceOp) : Prop :=
  match op with
  | OInsert r => tp_tuple_id r ≠ "" ∧ tp_lease_id r ≠ ""
  | OInsertUncommitted t r => t ≠ "" ∧ tp_tuple_id r ≠ "" ∧ tp_lease_id r ≠ ""
  | OGet id | ORemove id => id ≠ ""
  | ORemoveByLease l => l ≠ ""
  | OFindMatch _ t | OTakeMatch _ t | OFindAll _ t => t ≠ Some ""
  | OCommit t | OAbort t | OHasTxn t => t ≠ ""
  end.

Section refinement.
Context {I : MapIter} {R : Rfc3339} {RL : Rfc3339Laws R}.
Context {D : Type} {DB : Dynamo D} {DV : DynamoView D} {DL : DynamoLaws D} {DH : DynamoHealthy D}.
Implicit Types (s : DynamoSpaceStore D) (a : space).

Lemma visible_decode r : tuple_from_item (tuple_to_item r) = Ok r.
Proof. apply (place_item_decode Visible). Qed.

(** ** Reads *)
Lemma visible_rows s a :
  space_in s a →
  ∃ l, scan_all (ds_client s) (ds_tuple_table s) = Ok (item_of <$> l) ∧ NoDup (id_of <$> l) ∧
    ∀ r p, (r, p) ∈ l ↔ a !! tp_tuple_id r = Some (r, p) ∧ p = Visible.
Proof.
  intros [_ Hh Hwf]. destruct (scan_place s TTuples a None "scan" Hwf (Hh _)) as (l & Hl & Hnd & Hin).
  exists l. split_and!; [done|done|]. intros r p. rewrite Hin. destruct p as [|[] ?]; naive_solver.
Qed.

Lemma own_rows_ok s a txn_id :
  space_in s a → txn_id ≠ Some "" →
  ∃ l, own_rows s txn_id = Ok (item_of <$> l) ∧ NoDup (id_of <$> l) ∧
    ∀ r p, (r, p) ∈ l ↔ a !! tp_tuple_id r = Some (r, p) ∧ ∃ t, txn_id = Some t ∧ p = Held BUncommitted t.
Proof.
  intros [_ Hh Hwf] Ht. destruct txn_id as [t|]; cbn [own_rows].
  - destruct (query_place s TUncommitted a t) as (l & Hl & Hnd & Hin); [done|done|done|congruence|].
    exists l. split_and!; [done|done|]. intros r p. rewrite Hin. destruct p as [|[] ?]; naive_solver.
  - exists []. split_and!; [done|constructor|]. intros r p. rewrite elem_of_nil. naive_solver.
Qed.

(** What a query looks at is the candidates. *)
Lemma candidates_rows a tm txn_id (l1 l2 : list (TupleRecord * Place)) :
  (∀ r p, (r, p) ∈ l1 ↔ a !! tp_tuple_id r = Some (r, p) ∧ p = Visible) →
  (∀ r p, (r, p) ∈ l2 ↔ a !! tp_tuple_id r = Some (r, p) ∧ ∃ t, txn_id = Some t ∧ p = Held BUncommitted t) →
  ∀ r p, candidate a tm txn_id r p ↔ ((r, p) ∈ l1 ∨ (r, p) ∈ l2) ∧ accepts tm r = true.
Proof. intros H1 H2 r p. unfold candidate, available. rewrite H1, H2. naive_solver. Qed.

Definition found (tm : attrs_map) (l : list (TupleRecord * Place)) : option (TupleRecord * Place) :=
  List.find (λ rp, accepts tm rp.1) l.

Lemma found_spec tm l :
  match found tm l with
  | Some (r, p) => (r, p) ∈ l ∧ accepts tm r = true
  | None => ∀ r p, (r, p) ∈ l → accepts tm r = false
  end.
Proof.
  unfold found. destruct (List.find _ l) as [[r p]|] eqn:E.
  - apply List.find_some in E as [Hin Ha]. by rewrite list_elem_of_In.
  - intros r p Hin. apply list_elem_of_In in Hin. by apply (List.find_none _ _ E) in Hin.
Qed.

Lemma first_match_found tm l :
  first_match (parse_template tm) (item_of <$> l) = Ok (fst <$> found tm l).
Proof.
  unfold found. induction l as [|[r p] l IH]; [done|]. cbn [fmap list_fmap first_match].
  unfold item_of at 1. cbn [fst snd]. rewrite place_item_decode. cbn [rbind].
  change (matches _ (tp_attrs r)) with (accepts tm r). cbn [List.find fst]. by destruct (accepts tm r).
Qed.

Lemma find_match_ok s a tm txn_id :
  space_in s a → txn_id ≠ Some "" → allowed a (OFindMatch tm txn_id) (RTuple (find_match s tm txn_id)) a.
Proof.
  intros Hs Ht. destruct (visible_rows s a Hs) as (l1 & Hl1 & _ & Hin1).
  destruct (own_rows_ok s a txn_id Hs Ht) as (l2 & Hl2 & _ & Hin2).
  pose proof (candidates_rows a tm txn_id l1 l2 Hin1 Hin2) as Hc.
  pose proof (found_spec tm l1) as H1. pose proof (found_spec tm l2) as H2. unfold find_match.
  rewrite Hl1. cbn [rbind]. rewrite first_match_found. cbn [rbind]. destruct (found tm l1) as [[r p]|]; cbn.
  { split; [done|]. exists p. apply Hc. naive_solver. }
  rewrite Hl2. cbn [rbind]. rewrite first_match_found. destruct (found tm l2) as [[r p]|]; cbn.
  - split; [done|]. exists p. apply Hc. naive_solver.
  - split; [done|]. intros r p [[Hr|Hr] Ha]%Hc; [rewrite (H1 r p Hr) in Ha|rewrite (H2 r p Hr) in Ha]; done.
Qed.

Lemma keep_match_rows tm l :
  decode_all (keep_match (parse_template tm)) (item_of <$> l) =
    Ok (List.filter (accepts tm) l.*1).
Proof.
  induction l as [|[r p] l IH]; [done|]. cbn [fmap list_fmap decode_all]. unfold keep_match at 1, item_of at 1.
  cbn [fst snd]. rewrite place_item_decode. cbn [rbind]. rewrite IH, accepts_or. cbn [rbind List.filter fst].
  by destruct (accepts tm r).
Qed.

Lemma nodup_filter_ids tm (l : list (TupleRecord * Place)) :
  NoDup (id_of <$> l) → NoDup (tp_tuple_id <$> List.filter (accepts tm) l.*1).
Proof.
  intros Hnd. assert (Hnd' : NoDup (tp_tuple_id <$> l.*1)) by (by rewrite <- list_fmap_compose).
  clear Hnd. induction l.*1 as [|r rs IH]; cbn; [constructor|]. cbn in Hnd'.
  apply NoDup_cons in Hnd' as [Hn Hnd]. destruct (accepts tm r); [|by apply IH]. cbn.
  constructor; [|by apply IH]. intros (x & Hx & [Hin _]%filter_bool_elem)%list_elem_of_fmap.
  apply Hn. rewrite Hx. by apply list_elem_of_fmap_2.
Qed.

Lemma find_all_ok s a tm txn_id :
  space_in s a → txn_id ≠ Some "" → allowed a (OFindAll tm txn_id) (RTuples (find_all_matches s tm txn_id)) a.
Proof.
  intros Hs Ht. destruct (visible_rows s a Hs) as (l1 & Hl1 & Hnd1 & Hin1).
  destruct (own_rows_ok s a txn_id Hs Ht) as (l2 & Hl2 & Hnd2 & Hin2).
  pose proof (candidates_rows a tm txn_id l1 l2 Hin1 Hin2) as Hc. unfold find_all_matches.
  rewrite Hl1. cbn [rbind]. rewrite keep_match_rows. cbn [rbind]. rewrite Hl2. cbn [rbind].
  rewrite push_decoded_eq, keep_match_rows. cbn. split; [done|]. split.
  - rewrite fmap_app. apply NoDup_app. split_and!; [by apply nodup_filter_ids| |by apply nodup_filter_ids].
    intros id (r & -> & [([x p] & -> & H1)%list_elem_of_fmap _]%filter_bool_elem)%list_elem_of_fmap
      (r' & Hid & [([x' p'] & -> & H2)%list_elem_of_fmap _]%filter_bool_elem)%list_elem_of_fmap.
    cbn in *. apply Hin1 in H1 as [Ha ->]. apply Hin2 in H2 as [Ha' (t & _ & ->)]. rewrite <- Hid in Ha'. congruence.
  - intros r. rewrite elem_of_app, !filter_bool_elem, !list_elem_of_fmap. setoid_rewrite Hc. split.
    + intros [[([x p] & -> & Hx) Ha]|[([x p] & -> & Hx) Ha]]; exists p; auto.
    + intros (p & [Hx|Hx] & Ha); [left|right]; (split; [by exists (r, p)|done]).
Qed.

Lemma get_ok s a id : space_in s a → id ≠ "" → allowed a (OGet id) (RTuple (get s id)) a.
Proof.
  intros [_ Hh Hwf] Hid. destruct (Hh TTuples) as (tb & Ht & Hspec & Hrows). unfold get.
  assert (Hk : key_of (tb_spec tb) (tuple_key_item id) = Some (place_key Visible id))
    by (rewrite Hspec; by apply (key_item_key Visible)).
  rewrite (get_item_ok _ _ _ _ _ Ht Hk). cbn [map_err rbind].
  destruct (tb_rows tb !! place_key Visible id) as [it|] eqn:Hrow.
  - apply Hrows in Hrow as (id' & r & p & Ha & HT & Hk' & ->). apply (place_key_inj Visible p) in Hk' as <-; [|done].
    rewrite place_item_decode. cbn. split; [done|]. destruct p as [|[] ?]; [|done..].
    intros r'. rewrite Ha. split; by intros [= ->].
  - cbn. split; [done|]. intros r. split; [done|]. intros Ha. exfalso.
    assert (Hs : tb_rows tb !! place_key Visible id = Some (place_item Visible r)) by (apply Hrows; eauto 10).
    congruence.
Qed.

(** A transaction has rows in a table when it holds a tuple there. *)
Lemma rows_nonempty a T t (l : list (TupleRecord * Place)) :
  (∀ r p, (r, p) ∈ l ↔ a !! tp_tuple_id r = Some (r, p) ∧ place_table p = T ∧ ∃ b, p = Held b t) →
  item_of <$> l ≠ [] ↔ ∃ b r, holds a b t r ∧ place_table (Held b t) = T.
Proof.
  intros Hin. destruct l as [|[r p] l]; cbn.
  - split; [done|]. intros (b & r & Hr & HT). exfalso. apply (not_elem_of_nil (r, Held b t)), Hin. eauto.
  - split; [intros _|done]. destruct (Hin r p) as [Hfw _]. destruct Hfw as (Ha & HT & b & ->); [left|]. by exists b, r.
Qed.

Lemma has_txn_ok s a t : space_in s a → t ≠ "" → allowed a (OHasTxn t) (RBool (has_txn s t)) a.
Proof.
  intros [_ Hh Hwf] Ht. unfold has_txn.
  destruct (query_place s TUncommitted a t) as (l1 & Hl1 & _ & Hin1); [done..|].
  destruct (query_place s TTaken a t) as (l2 & Hl2 & _ & Hin2); [done..|]. cbn [sp_name] in *.
  apply rows_nonempty in Hin1, Hin2. rewrite Hl1. cbn [rbind].
  case_bool_decide as E1; cbn [negb].
  - rewrite Hl2. cbn. split; [done|]. rewrite negb_true_iff, bool_decide_eq_false. fold (not (item_of <$> l2 = [])).
    rewrite Hin2. split; [naive_solver|]. intros (b & r & Hr). exists b, r. split; [done|].
    destruct b; [|done..]. exfalso. apply Hin1; [|done]. eauto.
  - cbn. split; [done|]. apply Hin1 in E1. naive_solver.
Qed.

(** ** Writes *)
Definition refines s a op (out : DynamoSpaceStore D * SpaceRes) : Prop :=
  ∃ a', allowed a op out.2 a' ∧ space_in out.1 a' ∧ evolves s out.1.

Lemma read_refines s a op res : space_in s a → allowed a op res a → refines s a op (s, res).
Proof. intros Hs Ha. exists a. split_and!; [done|done|apply space_evolves_refl]. Qed.

Lemma insert_ok s a r :
  space_in s a → fresh_tuple a r → tp_tuple_id r ≠ "" → tp_lease_id r ≠ "" →
  ∃ s', insert s r = (s', Ok ()) ∧ evolves s s' ∧ space_in s' (<[tp_tuple_id r := (r, Visible)]> a).
Proof.
  intros Hs Hf Hid Hl. destruct (space_put s a r Visible Hs Hf) as (d & Hput & He & Hs'); [done|].
  exists (set_client s d). split; [|done]. unfold insert, put. cbn in Hput. by rewrite Hput.
Qed.

Lemma insert_uncommitted_ok s a t r :
  space_in s a → fresh_tuple a r → t ≠ "" → tp_tuple_id r ≠ "" → tp_lease_id r ≠ "" →
  ∃ s', insert_uncommitted s t r = (s', Ok ()) ∧ evolves s s' ∧
    space_in s' (<[tp_tuple_id r := (r, Held BUncommitted t)]> a).
Proof.
  intros Hs Hf Ht Hid Hl. destruct (space_put s a r (Held BUncommitted t) Hs Hf) as (d & Hput & He & Hs'); [done|].
  exists (set_client s d). split; [|done]. unfold insert_uncommitted, put. cbn in Hput. by rewrite Hput.
Qed.

(** A delete through the store's own helper. *)
Lemma del_ok s a id r p :
  space_in s a → a !! id = Some (r, p) →
  ∃ s', del s (sp_name s (place_table p)) (key_item p id) = (s', Ok (Some (place_item p r))) ∧
    evolves s s' ∧ space_in s' (delete id a).
Proof.
  intros Hs Ha. destruct (space_del s a None id r p Hs Ha eq_refl) as (d & Hdel & He & Hs').
  exists (set_client s d). split; [|done]. unfold del. by rewrite Hdel.
Qed.

Lemma remove_ok s a id :
  space_in s a → id ≠ "" → refines s a (ORemove id) (map_snd RTuple (remove s id)).
Proof.
  intros Hs Hid. assert (Hdec : (∃ r, a !! id = Some (r, Visible)) ∨ ∀ r, a !! id ≠ Some (r, Visible)).
  { destruct (a !! id) as [[r [|b t]]|]; [left; eauto|right; by intros ?..]. }
  unfold remove. destruct Hdec as [[r Ha]|Hno].
  - destruct (del_ok s a id r Visible Hs Ha) as (s' & Hdel & He & Hs'). cbn in Hdel. rewrite Hdel.
    exists (delete id a). cbn. rewrite visible_decode. cbn. done.
  - destruct Hs as [Hn Hh Hwf]. destruct (del_absent s a id Hn (Hh _) Hwf Hid Hno) as (d & Hdel & Hm & HT).
    unfold del. rewrite Hdel. exists a. cbn. split; [done|]. split; [|by eapply (at_most_evolves s d TTuples)].
    split; [done| |done]. intros T. destruct (decide (T = TTuples)) as [->|Hne]; [done|].
    by eapply (table_holds_other s _ TTuples).
Qed.

(** ** Taking *)
Lemma row_claim_ok s a id r :
  space_in s a → a !! id = Some (r, Visible) →
  ∃ s', claim s id = (s', Ok (Some r)) ∧ evolves s s' ∧ space_in s' (delete id a).
Proof.
  intros Hs Ha. destruct (space_del s a (Some (CExists "tuple_id")) id r Visible Hs Ha) as (d & Hdel & He & Hs').
  { cbn. destruct (place_item_row Visible r) as (Hid & _). cbn [place_item] in Hid.
    by rewrite Hid, bool_decide_eq_true_2. }
  exists (set_client s d). split; [|done]. unfold claim. cbn in Hdel. rewrite Hdel. cbn.
  by rewrite visible_decode.
Qed.

(** A tuple that has left its table enters the taken one. *)
Lemma put_taken_ok s a r p b t :
  space_in s (delete (tp_tuple_id r) a) → space_wf a → a !! tp_tuple_id r = Some (r, p) → t ≠ "" →
  b ≠ BUncommitted →
  ∃ s', put_taken s (place_item (Held b t) r) = (s', Ok ()) ∧ evolves s s' ∧
    space_in s' (<[tp_tuple_id r := (r, Held b t)]> a).
Proof.
  intros Hs Hwf Ha Ht Hb. destruct (sw_key _ Hwf _ _ _ Ha) as [_ (Hid & Hl & _)].
  destruct (space_put s _ r (Held b t) Hs (fresh_deleted _ _ _ Hwf Ha)) as (d & Hput & He & Hs'); [done|].
  rewrite insert_delete_eq in Hs'. exists (set_client s d). split; [|done]. unfold put_taken.
  destruct b; [done|cbn [sp_name place_table] in Hput; by rewrite Hput..].
Qed.

Lemma take_committed_ok s a tm txn_id l :
  space_in s a → txn_id ≠ Some "" →
  (∀ r p, (r, p) ∈ l → a !! tp_tuple_id r = Some (r, p) ∧ p = Visible) →
  let out := take_committed s (parse_template tm) txn_id (item_of <$> l) in
  match found tm l with
  | Some (r, _) => out.2 = Ok (Some r) ∧ evolves s out.1 ∧ space_in out.1 (take_tuple txn_id r Visible a)
  | None => out = (s, Ok None)
  end.
Proof.
  intros Hs Ht. cbn zeta. induction l as [|[r p] l IH]; intros Hl; [done|].
  cbn [fmap list_fmap take_committed]. change (item_of (r, p)) with (place_item p r). rewrite place_item_decode.
  change (matches _ (tp_attrs r)) with (accepts tm r). unfold found. cbn [List.find fst].
  destruct (accepts tm r).
  - destruct (Hl r p) as [Ha ->]; [left|]. destruct (row_claim_ok s a _ r Hs Ha) as (s1 & -> & He1 & Hs1).
    destruct txn_id as [t|]; [|by split_and!].
    destruct (put_taken_ok s1 a r Visible BTaken t Hs1 (si_wf _ _ Hs) Ha) as (s2 & Hput & He2 & Hs2); [congruence|done|].
    cbn [place_item] in Hput. rewrite Hput. cbn. split_and!; [done|by eapply evolves_trans|done].
  - apply IH. intros; apply Hl; by right.
Qed.

Lemma take_own_ok s a t r :
  space_in s a → t ≠ "" → a !! tp_tuple_id r = Some (r, Held BUncommitted t) →
  ∃ s', take_own s t r = (s', Ok (Some r)) ∧ evolves s s' ∧
    space_in s' (take_tuple (Some t) r (Held BUncommitted t) a).
Proof.
  intros Hs Ht Ha. unfold take_own.
  destruct (del_ok s a _ r _ Hs Ha) as (s1 & Hdel & He1 & Hs1). cbn [key_item place_table sp_name] in Hdel.
  rewrite Hdel. destruct (put_taken_ok s1 a r _ BSelfTaken t Hs1 (si_wf _ _ Hs) Ha Ht) as (s2 & Hput & He2 & Hs2); [done|].
  cbn [place_item] in Hput. rewrite Hput. exists s2. split; [done|]. split; [by eapply evolves_trans|done].
Qed.

Lemma take_match_ok s a tm txn_id :
  space_in s a → txn_id ≠ Some "" → refines s a (OTakeMatch tm txn_id) (map_snd RTuple (take_match s tm txn_id)).
Proof.
  intros Hs Ht. destruct (visible_rows s a Hs) as (l1 & Hl1 & _ & Hin1).
  destruct (own_rows_ok s a txn_id Hs Ht) as (l2 & Hl2 & _ & Hin2).
  pose proof (candidates_rows a tm txn_id l1 l2 Hin1 Hin2) as Hc.
  pose proof (found_spec tm l1) as H1. pose proof (found_spec tm l2) as H2. unfold take_match, refines.
  rewrite Hl2. cbn [rbind]. rewrite first_match_found. destruct (found tm l2) as [[r p]|]; cbn [fmap option_fmap option_map].
  - destruct H2 as [Hr Ha]. pose proof Hr as Hr'. apply Hin2 in Hr' as [Har (t & -> & ->)].
    cbn [fst]. cbn iota beta.
    destruct (take_own_ok s a t r Hs) as (s' & -> & He & Hs'); [congruence|done|].
    eexists. split; [|done]. exists (Held BUncommitted t). split; [|done]. apply Hc. auto.
  - rewrite Hl1.
    pose proof (take_committed_ok s a tm txn_id l1 Hs Ht ltac:(intros r p Hr; by apply Hin1)) as Htc. cbn zeta in Htc.
    destruct (take_committed s (parse_template tm) txn_id (item_of <$> l1)) as [s' res].
    destruct (found tm l1) as [[r p]|].
    + cbn [fst snd] in Htc. destruct Htc as (-> & He & Hs'). destruct H1 as [Hr Ha]. pose proof Hr as Hr'. apply Hin1 in Hr' as [_ ->].
      eexists. split; [|done]. exists Visible. split; [|done]. apply Hc. auto.
    + injection Htc as -> ->. apply read_refines; [done|]. split; [done|].
      intros r p [[Hr|Hr] Ha]%Hc; [rewrite (H1 r p Hr) in Ha|rewrite (H2 r p Hr) in Ha]; done.
Qed.

(** ** Expiry *)
Lemma drop_lease_delete a id r p :
  space_wf a → a !! id = Some (r, p) → drop_lease (tp_lease_id r) a = delete id a.
Proof.
  intros Hwf Ha. apply map_eq. intros id'. apply option_eq. intros [r' p']. unfold drop_lease.
  rewrite map_lookup_filter_Some, lookup_delete_Some. cbn. split.
  - intros [Ha' Hl]. split; [|done]. intros <-. congruence.
  - intros [Hne Ha']. split; [done|]. intros Hl. apply Hne. by eapply (sw_lease _ Hwf).
Qed.

(** The rows of a buffer table with a lease: the first is deleted. *)
Lemma remove_first_old_ok s a T (l : list (TupleRecord * Place)) :
  space_in s a → T ≠ TTuples → (∀ r p, (r, p) ∈ l → a !! tp_tuple_id r = Some (r, p) ∧ place_table p = T) →
  match l with
  | [] => remove_first_old s (sp_name s T) (item_of <$> l) = (s, Ok None)
  | (r, p) :: _ => ∃ s', remove_first_old s (sp_name s T) (item_of <$> l) = (s', Ok (Some r)) ∧
      evolves s s' ∧ space_in s' (delete (tp_tuple_id r) a)
  end.
Proof.
  intros Hs HT Hl. destruct l as [|[r p] l]; [done|]. destruct (Hl r p) as [Ha Hp]; [left|].
  destruct p as [|b t]; [by destruct T|]. destruct (del_ok s a _ r _ Hs Ha) as (s' & Hdel & He & Hs').
  rewrite Hp in Hdel. cbn [fmap list_fmap remove_first_old]. change (item_of (r, Held b t)) with (place_item (Held b t) r).
  rewrite place_item_txn, place_item_tuple. cbn [key_item] in Hdel. rewrite Hdel. exists s'.
  by rewrite place_item_decode.
Qed.

Lemma lease_rows s a T l :
  space_in s a →
  ∃ rows, scan_by_lease (ds_client s) (sp_name s T) l = Ok (item_of <$> rows) ∧
    ∀ r p, (r, p) ∈ rows ↔ a !! tp_tuple_id r = Some (r, p) ∧ place_table p = T ∧ tp_lease_id r = l.
Proof.
  intros [_ Hh Hwf]. destruct (scan_place s T a (Some (CEqS "lease_id" l)) "scan (lease filter)" Hwf (Hh _))
    as (rows & Hrows & _ & Hin).
  exists rows. split; [done|]. intros r p. rewrite Hin. cbn [passes cond_holds].
  rewrite place_item_lease, bool_decide_eq_true. naive_solver.
Qed.

Lemma remove_buffered_ok s a l :
  space_in s a → (∀ id r, a !! id = Some (r, Visible) → tp_lease_id r ≠ l) →
  refines s a (ORemoveByLease l) (map_snd RTuple (remove_txn_buffered_by_lease s l)).
Proof.
  intros Hs Hvis. unfold remove_txn_buffered_by_lease.
  destruct (lease_rows s a TUncommitted l Hs) as (l1 & Hl1 & Hin1).
  destruct (lease_rows s a TTaken l Hs) as (l2 & Hl2 & Hin2). cbn [sp_name] in *. cbn [remove_txn_buffered].
  assert (Hhit : ∀ r p s', (∃ T, a !! tp_tuple_id r = Some (r, p) ∧ place_table p = T ∧ tp_lease_id r = l) →
    evolves s s' → space_in s' (delete (tp_tuple_id r) a) → refines s a (ORemoveByLease l) (s', RTuple (Ok (Some r)))).
  { intros r p s' (T & Ha & _ & Hl) He Hs'. exists (delete (tp_tuple_id r) a). split; [|done]. cbn.
    split_and!; [done|by exists p|]. rewrite <- Hl. symmetry. eapply drop_lease_delete; [apply Hs|done]. }
  rewrite Hl1. pose proof (remove_first_old_ok s a TUncommitted l1 Hs ltac:(done)
    ltac:(intros r p Hr; by apply Hin1 in Hr as (? & ? & _))) as H1. cbn [sp_name] in H1.
  destruct l1 as [|[r p] l1].
  2: { destruct H1 as (s' & -> & He & Hs'). eapply Hhit; [|done|done]. eexists. apply Hin1. left. }
  rewrite H1, Hl2. pose proof (remove_first_old_ok s a TTaken l2 Hs ltac:(done)
    ltac:(intros r p Hr; by apply Hin2 in Hr as (? & ? & _))) as H2. cbn [sp_name] in H2.
  destruct l2 as [|[r p] l2].
  2: { destruct H2 as (s' & -> & He & Hs'). eapply Hhit; [|done|done]. eexists. apply Hin2. left. }
  rewrite H2. apply read_refines; [done|]. split; [done|]. intros id r p Ha Hl.
  destruct (sw_key _ (si_wf _ _ Hs) _ _ _ Ha) as [Hid _]. rewrite <- Hid in Ha.
  destruct (place_table p) eqn:HT.
  - destruct p as [|[] ?]; [|done..]. by eapply Hvis.
  - apply (not_elem_of_nil (r, p)), Hin1. done.
  - apply (not_elem_of_nil (r, p)), Hin2. done.
Qed.

Lemma remove_by_lease_ok s a l :
  space_in s a → l ≠ "" → refines s a (ORemoveByLease l) (map_snd RTuple (remove_by_lease s l)).
Proof.
  intros Hs Hl. pose proof Hs as [_ Hh Hwf]. destruct (Hh TTuples) as (tb & Ht & Hspec & Hrows).
  destruct (query_index_ok _ _ _ SPACE_LEASE_GSI "lease_id" l Ht ltac:(by rewrite Hspec) Hl) as (o & Hq & Ho).
  cbn [sp_name] in *. unfold remove_by_lease. rewrite Hq. cbn [map_err]. destruct o as [it|]; cbn [option_list].
  - destruct Ho as [[k Hk] Hv]. apply Hrows in Hk as (id & r & p & Ha & HT & -> & ->).
    rewrite place_item_lease in Hv. injection Hv as Hv. destruct p as [|[] ?]; [|done..].
    destruct (sw_key _ Hwf _ _ _ Ha) as [Hid _]. rewrite <- Hid in Ha.
    change (head (option_list (Some (place_item Visible r)))) with (Some (place_item Visible r)). cbn beta iota.
    rewrite place_item_tuple. unfold remove.
    destruct (del_ok s a _ r Visible Hs Ha) as (s' & Hdel & He & Hs'). cbn [sp_name place_table key_item] in Hdel.
    rewrite Hdel. cbn [rbind old_tuple]. rewrite place_item_decode. cbn.
    exists (delete (tp_tuple_id r) a). split; [|done]. cbn. split_and!; [done|by exists Visible|].
    rewrite <- Hv. symmetry. by eapply drop_lease_delete.
  - apply remove_buffered_ok; [done|]. intros id r Ha Heq.
    apply (Ho (place_key Visible id) (place_item Visible r)); [apply Hrows; eauto 10|].
    by rewrite place_item_lease, Heq.
Qed.

(** ** Endings *)

(** The tuples [ids] have moved as [f] says, the others have not. *)
Definition settled (f : Place → option Place) (ids : list string) (a a' : space) : Prop :=
  ∀ id, a' !! id = if decide (id ∈ ids) then a !! id ≫= (λ rp, (λ p, (rp.1, p)) <$> f rp.2) else a !! id.

Lemma settled_nil f a : settled f [] a a.
Proof. intros id. by rewrite decide_False by (by apply not_elem_of_nil). Qed.

Lemma settled_app f ids1 ids2 a a1 a2 :
  (∀ id, id ∈ ids1 → id ∉ ids2) → settled f ids1 a a1 → settled f ids2 a1 a2 → settled f (ids1 ++ ids2) a a2.
Proof.
  intros Hdis H1 H2 id. rewrite H2, H1. destruct (decide (id ∈ ids1)) as [Hi|Hi].
  - rewrite decide_False by (by apply Hdis). by rewrite decide_True by (apply elem_of_app; by left).
  - destruct (decide (id ∈ ids2)) as [Hj|Hj].
    + by rewrite decide_True by (apply elem_of_app; by right).
    + rewrite decide_False; [done|]. rewrite elem_of_app. tauto.
Qed.

Lemma settled_insert f a id r p p' : a !! id = Some (r, p) → f p = Some p' → settled f [id] a (<[id := (r, p')]> a).
Proof.
  intros Ha Hf id'. destruct (decide (id' ∈ [id])) as [->%list_elem_of_singleton|Hne].
  - rewrite lookup_insert_eq, Ha. cbn. by rewrite Hf.
  - rewrite lookup_insert_ne; [done|]. intros ->. apply Hne. left.
Qed.

Lemma settled_delete f a id r p : a !! id = Some (r, p) → f p = None → settled f [id] a (delete id a).
Proof.
  intros Ha Hf id'. destruct (decide (id' ∈ [id])) as [->%list_elem_of_singleton|Hne].
  - rewrite lookup_delete_eq, Ha. cbn. by rewrite Hf.
  - rewrite lookup_delete_ne; [done|]. intros ->. apply Hne. left.
Qed.

(** Everything that has somewhere to go has gone there. *)
Lemma settled_all f ids a a' :
  (∀ id r p, a !! id = Some (r, p) → id ∉ ids → f p = Some p) → settled f ids a a' → a' = move_all f a.
Proof.
  intros Hf Hs. apply map_eq. intros id. unfold move_all. rewrite lookup_omap, Hs. case_decide as Hin; [done|].
  destruct (a !! id) as [[r p]|] eqn:Ha; cbn; [|done]. by rewrite (Hf id r p).
Qed.

(** Rows that wait for their ending: distinct tuples of [a], each held by [t] in
    table [T]. *)
Definition pending a T t (l : list (TupleRecord * Place)) : Prop :=
  NoDup (id_of <$> l) ∧
  ∀ r p, (r, p) ∈ l → a !! tp_tuple_id r = Some (r, p) ∧ place_table p = T ∧ ∃ b, p = Held b t.

Lemma pending_cons a a' f T t r p l :
  pending a T t ((r, p) :: l) → settled f [tp_tuple_id r] a a' → pending a' T t l.
Proof.
  intros [Hnd Hl] Hs. cbn in Hnd. apply NoDup_cons in Hnd as [Hn Hnd]. split; [done|].
  intros r' p' Hin. destruct (Hl r' p') as (Ha & HT & Hb); [by right|]. split; [|done]. rewrite Hs.
  rewrite decide_False; [done|]. intros Heq%list_elem_of_singleton. apply Hn.
  change (id_of (r, p)) with (tp_tuple_id r). rewrite <- Heq. by apply (list_elem_of_fmap_2 id_of) in Hin.
Qed.

Lemma settled_cons f a a1 a2 r p l :
  NoDup (id_of <$> (r, p) :: l) → settled f [tp_tuple_id r] a a1 → settled f (id_of <$> l) a1 a2 →
  settled f (id_of <$> (r, p) :: l) a a2.
Proof.
  intros Hnd H1 H2. cbn in Hnd. apply NoDup_cons in Hnd as [Hn _].
  change (id_of <$> (r, p) :: l) with ([tp_tuple_id r] ++ (id_of <$> l)).
  eapply settled_app; [|done|done]. by intros id ->%list_elem_of_singleton.
Qed.

(** A row is published: put in the committed table, then deleted from its own. *)
Lemma publish_row s a b t r :
  space_in s a → a !! tp_tuple_id r = Some (r, Held b t) →
  ∃ s1 s2, insert s r = (s1, Ok ()) ∧ evolves s s1 ∧
    del s1 (sp_name s (place_table (Held b t))) (txn_key_item t (tp_tuple_id r)) =
      (s2, Ok (Some (place_item (Held b t) r))) ∧
    evolves s s2 ∧ space_in s2 (<[tp_tuple_id r := (r, Visible)]> a).
Proof.
  intros Hs Ha. destruct (sw_key _ (si_wf _ _ Hs) _ _ _ Ha) as [_ (Hid & Hl & _)].
  destruct (space_move s a r (Held b t) Visible Hs Ha) as (d1 & d2 & Hput & Hdel & He & Hs'); [done|by destruct b|].
  exists (set_client s d1), (set_client s d2). unfold insert, put, del. cbn [sp_name place_table place_item] in Hput.
  rewrite Hput. split; [done|]. split.
  - pose proof (put_item_law (ds_client s) (ds_tuple_table s) None (tuple_to_item r)) as Hw. rewrite Hput in Hw.
    destruct Hw as (tb & tb' & _ & _ & Ht). exists d1. split; [done|]. cbn in Ht. rewrite Ht, lookup_insert_ne; [done|].
    pose proof (si_names _ _ Hs) as Hn. unfold names_distinct in Hn.
    rewrite !NoDup_cons, !not_elem_of_cons in Hn. naive_solver.
  - cbn [ds_client set_client]. cbn [key_item] in Hdel. rewrite Hdel. done.
Qed.

Lemma drop_row s a b t r :
  space_in s a → a !! tp_tuple_id r = Some (r, Held b t) →
  ∃ s', del s (sp_name s (place_table (Held b t))) (txn_key_item t (tp_tuple_id r)) =
      (s', Ok (Some (place_item (Held b t) r))) ∧ evolves s s' ∧ space_in s' (delete (tp_tuple_id r) a).
Proof. intros Hs Ha. exact (del_ok s a _ r _ Hs Ha). Qed.

Lemma flush_uncommitted_ok t l s a acc :
  space_in s a → pending a TUncommitted t l →
  ∃ s' a', flush_uncommitted s t (item_of <$> l) acc = (s', Ok (acc ++ l.*1)) ∧ evolves s s' ∧
    space_in s' a' ∧ settled (commit_place t) (id_of <$> l) a a'.
Proof.
  revert s a acc. induction l as [|[r p] l IH]; intros s a acc Hs Hl.
  { exists s, a. rewrite app_nil_r. split_and!; [done|apply space_evolves_refl|done|apply settled_nil]. }
  destruct Hl as [Hnd Hin] eqn:El. destruct (Hin r p) as (Ha & HT & b & ->); [left|]. destruct b; [|done..].
  destruct (publish_row s a BUncommitted t r Hs Ha) as (s1 & s2 & Hins & He1 & Hdel & He2 & Hs2).
  cbn [fmap list_fmap flush_uncommitted]. change (item_of (r, ?p)) with (place_item p r). rewrite place_item_decode, Hins.
  pose proof (evolves_names _ _ He1 TUncommitted) as Hnm. cbn [sp_name place_table] in *. rewrite Hnm, Hdel.
  assert (Hset : settled (commit_place t) [tp_tuple_id r] a (<[tp_tuple_id r := (r, Visible)]> a)).
  { eapply settled_insert; [done|]. cbn. by rewrite String.eqb_refl. }
  destruct (IH s2 _ (acc ++ [r]) Hs2 (pending_cons _ _ _ _ _ _ _ _ Hl Hset)) as (s3 & a3 & Hfl & He3 & Hs3 & Hset3).
  exists s3, a3. rewrite Hfl. split_and!; [by rewrite <- app_assoc|by eapply evolves_trans|done|].
  by eapply settled_cons.
Qed.

Lemma drop_rows_ok f T t l s a acc :
  (∀ b, place_table (Held b t) = T → f (Held b t) = None) → space_in s a → pending a T t l →
  ∃ s' a', drop_rows s (sp_name s T) t (item_of <$> l) acc = (s', Ok (acc ++ l.*1)) ∧ evolves s s' ∧
    space_in s' a' ∧ settled f (id_of <$> l) a a'.
Proof.
  intros Hf. revert s a acc. induction l as [|[r p] l IH]; intros s a acc Hs Hl.
  { exists s, a. rewrite app_nil_r. split_and!; [done|apply space_evolves_refl|done|apply settled_nil]. }
  destruct Hl as [Hnd Hin] eqn:El. destruct (Hin r p) as (Ha & HT & b & ->); [left|].
  destruct (drop_row s a b t r Hs Ha) as (s1 & Hdel & He1 & Hs1).
  cbn [fmap list_fmap drop_rows]. change (item_of (r, ?p)) with (place_item p r). rewrite place_item_decode.
  rewrite HT in Hdel. rewrite Hdel.
  assert (Hset : settled f [tp_tuple_id r] a (delete (tp_tuple_id r) a)) by (eapply settled_delete; [done|by apply Hf]).
  destruct (IH s1 _ (acc ++ [r]) Hs1 (pending_cons _ _ _ _ _ _ _ _ Hl Hset)) as (s3 & a3 & Hfl & He3 & Hs3 & Hset3).
  rewrite (evolves_names _ _ He1) in Hfl.
  exists s3, a3. rewrite Hfl. split_and!; [by rewrite <- app_assoc|by eapply evolves_trans|done|].
  by eapply settled_cons.
Qed.

(** The marked rows are discarded, the others published again. *)
Definition own_taken (rp : TupleRecord * Place) : bool :=
  match rp.2 with Held BSelfTaken _ => true | _ => false end.

Lemma restore_taken_ok t l s a disc rest :
  space_in s a → pending a TTaken t l →
  ∃ s' a', restore_taken s t (item_of <$> l) disc rest =
      (s', Ok (disc ++ (List.filter own_taken l).*1, rest ++ (List.filter (λ rp, negb (own_taken rp)) l).*1)) ∧
    evolves s s' ∧ space_in s' a' ∧ settled (abort_place t) (id_of <$> l) a a'.
Proof.
  revert s a disc rest. induction l as [|[r p] l IH]; intros s a disc rest Hs Hl.
  { exists s, a. cbn. rewrite !app_nil_r. split_and!; [done|apply space_evolves_refl|done|apply settled_nil]. }
  pose proof Hl as [Hnd Hin]. destruct (Hin r p) as (Ha & HT & b & ->); [left|].
  cbn [fmap list_fmap restore_taken]. change (item_of (r, ?p)) with (place_item p r).
  rewrite place_item_decode, own_write_place. destruct b; [done|..]; cbn [List.filter own_taken snd negb].
  - destruct (publish_row s a BTaken t r Hs Ha) as (s1 & s2 & -> & He1 & Hdel & He2 & Hs2).
    pose proof (evolves_names _ _ He1 TTaken) as Hnm. cbn [sp_name place_table] in *. rewrite Hnm, Hdel.
    assert (Hset : settled (abort_place t) [tp_tuple_id r] a (<[tp_tuple_id r := (r, Visible)]> a)).
    { eapply settled_insert; [done|]. cbn. by rewrite String.eqb_refl. }
    destruct (IH s2 _ disc (rest ++ [r]) Hs2 (pending_cons _ _ _ _ _ _ _ _ Hl Hset)) as (s3 & a3 & Hfl & He3 & Hs3 & Hset3).
    exists s3, a3. rewrite Hfl. split_and!; [by rewrite <- app_assoc|by eapply evolves_trans|done|].
    by eapply settled_cons.
  - destruct (drop_row s a BSelfTaken t r Hs Ha) as (s1 & Hdel & He1 & Hs1).
    cbn [sp_name place_table] in Hdel. rewrite Hdel.
    assert (Hset : settled (abort_place t) [tp_tuple_id r] a (delete (tp_tuple_id r) a)).
    { eapply settled_delete; [done|]. cbn. by rewrite String.eqb_refl. }
    destruct (IH s1 _ (disc ++ [r]) rest Hs1 (pending_cons _ _ _ _ _ _ _ _ Hl Hset)) as (s3 & a3 & Hfl & He3 & Hs3 & Hset3).
    exists s3, a3. rewrite Hfl. split_and!; [by rewrite <- app_assoc|by eapply evolves_trans|done|].
    by eapply settled_cons.
Qed.

(** The rows of a transaction in a buffer table. *)
Lemma pending_rows s a T t :
  space_in s a → T ≠ TTuples → t ≠ "" →
  ∃ l, query_by_pk (ds_client s) (sp_name s T) t = Ok (item_of <$> l) ∧ pending a T t l ∧
    (∀ r p, (r, p) ∈ l ↔ a !! tp_tuple_id r = Some (r, p) ∧ place_table p = T ∧ ∃ b, p = Held b t) ∧
    (∀ id r b, a !! id = Some (r, Held b t) → place_table (Held b t) = T → id ∈ id_of <$> l).
Proof.
  intros [_ Hh Hwf] HT Ht. destruct (query_place s T a t HT Hwf (Hh _) Ht) as (l & Hl & Hnd & Hin).
  exists l. split_and!; [done|split; [done|]; intros r p; apply Hin|done|].
  intros id r b Ha Hb. destruct (sw_key _ Hwf _ _ _ Ha) as [<- _].
  change (tp_tuple_id r) with (id_of (r, Held b t)). apply list_elem_of_fmap_2, Hin. eauto.
Qed.

(** What a transaction holds in another table is untouched. *)
Lemma settled_other f l T t a a1 :
  pending a T t l → settled f (id_of <$> l) a a1 → (∀ b b' t', f (Held b t) ≠ Some (Held b' t')) →
  ∀ id r b, place_table (Held b t) ≠ T → a1 !! id = Some (r, Held b t) ↔ a !! id = Some (r, Held b t).
Proof.
  intros [_ Hl] Hs Hf id r b HT. rewrite Hs. case_decide as Hin; [|done].
  apply list_elem_of_fmap in Hin as ([r' p'] & -> & Hin). destruct (Hl _ _ Hin) as (Ha & HT' & b' & ->).
  change (id_of (r', Held b' t)) with (tp_tuple_id r'). rewrite Ha. cbn [mbind option_bind fst snd]. split.
  - destruct (f (Held b' t)) as [[|b0 t0]|] eqn:E; [done| |done]. by destruct (Hf b' b0 t0).
  - intros [= _ ->]. done.
Qed.

Lemma elem_of_records (l : list (TupleRecord * Place)) (P : TupleRecord → Place → Prop) :
  (∀ r p, (r, p) ∈ l ↔ P r p) → ∀ r, r ∈ l.*1 ↔ ∃ p, P r p.
Proof.
  intros Hin r. rewrite list_elem_of_fmap. split.
  - intros ([r' p] & -> & Hr). exists p. by apply Hin.
  - intros [p Hp]. exists (r, p). split; [done|]. by apply Hin.
Qed.

(** Both endings: the rows of the first buffer are settled, then those of the
    second, and all tuples are where the ending sends them. *)
Lemma ending_ok f t s a s1 a1 l1 :
  (∀ b b' t', f (Held b t) ≠ Some (Held b' t')) → (∀ p, (∀ b, p ≠ Held b t) → f p = Some p) → t ≠ "" →
  (∀ r p, (r, p) ∈ l1 ↔ a !! tp_tuple_id r = Some (r, p) ∧ place_table p = TUncommitted ∧ ∃ b, p = Held b t) →
  space_in s a → pending a TUncommitted t l1 → space_in s1 a1 → settled f (id_of <$> l1) a a1 →
  ∃ l2, query_by_pk (ds_client s1) (sp_name s1 TTaken) t = Ok (item_of <$> l2) ∧ pending a1 TTaken t l2 ∧
    (∀ r p, (r, p) ∈ l2 ↔ a !! tp_tuple_id r = Some (r, p) ∧ place_table p = TTaken ∧ ∃ b, p = Held b t) ∧
    (∀ a2, settled f (id_of <$> l2) a1 a2 → a2 = move_all f a).
Proof.
  intros Hf1 Hf2 Ht Hin1 Hs Hp1 Hs1 Hset1.
  destruct (pending_rows s1 a1 TTaken t Hs1) as (l2 & Hq2 & Hp2 & Hin2 & Hall2); [done|done|].
  assert (Hsame : ∀ id r b, place_table (Held b t) = TTaken →
    a1 !! id = Some (r, Held b t) ↔ a !! id = Some (r, Held b t)).
  { intros id r b HT. eapply settled_other; [done|done|done|]. by rewrite HT. }
  assert (Hin2' : ∀ r p, (r, p) ∈ l2 ↔
    a !! tp_tuple_id r = Some (r, p) ∧ place_table p = TTaken ∧ ∃ b, p = Held b t).
  { intros r p. rewrite Hin2. split; intros (Ha & HT & b & ->); (split; [|eauto]); by apply Hsame. }
  exists l2. split_and!; [done|done|done|]. intros a2 Hset2.
  eapply (settled_all f ((id_of <$> l1) ++ (id_of <$> l2))); [|eapply settled_app; [|done|done]].
  - intros id r p Ha Hnot. rewrite not_elem_of_app in Hnot. destruct Hnot as [Hn1 Hn2].
    apply Hf2. intros b ->. destruct (place_table (Held b t)) eqn:HT; [by destruct b| |].
    + apply Hn1. destruct (sw_key _ (si_wf _ _ Hs) _ _ _ Ha) as [<- _].
      change (tp_tuple_id r) with (id_of (r, Held b t)). apply list_elem_of_fmap_2, Hin1. eauto.
    + apply Hn2. eapply Hall2; [by apply Hsame|done].
  - intros id ([r1 p1] & -> & H1)%list_elem_of_fmap ([r2 p2] & Heq & H2)%list_elem_of_fmap.
    apply Hin1 in H1 as (Ha1 & HT1 & _). apply Hin2' in H2 as (Ha2 & HT2 & _).
    unfold id_of in Heq. cbn in Heq. rewrite <- Heq in Ha2. rewrite Ha1 in Ha2. injection Ha2 as -> ->. congruence.
Qed.

Lemma commit_txn_ok s a t :
  space_in s a → t ≠ "" → refines s a (OCommit t) (map_snd RPair (commit_txn s t)).
Proof.
  intros Hs Ht. destruct (pending_rows s a TUncommitted t Hs) as (l1 & Hq1 & Hp1 & Hin1 & _); [done|done|].
  destruct (flush_uncommitted_ok t l1 s a [] Hs Hp1) as (s1 & a1 & Hfl & He1 & Hs1 & Hset1).
  destruct (ending_ok (commit_place t) t s a s1 a1 l1) as (l2 & Hq2 & Hp2 & Hin2 & Hall); try done.
  { intros b b' t'. cbn. rewrite String.eqb_refl. by destruct b. }
  { intros [|b t'] Hne; [done|]. cbn. destruct (String.eqb_spec t' t) as [->|]; [by destruct (Hne b)|done]. }
  destruct (drop_rows_ok (commit_place t) TTaken t l2 s1 a1 []) as (s2 & a2 & Hdr & He2 & Hs2 & Hset2); [|done|done|].
  { intros b HT. cbn. rewrite String.eqb_refl. by destruct b. }
  unfold commit_txn. cbn [sp_name] in *. rewrite Hq1, Hfl, Hq2, Hdr. exists a2. cbn.
  split_and!; [by apply Hall| | |done|by eapply evolves_trans].
  - intros r. rewrite (elem_of_records _ _ Hin1). unfold holds. split; [|eauto 10].
    intros (p & Ha & HT & b & ->). by destruct b.
  - intros r. rewrite (elem_of_records _ _ Hin2). unfold holds. split; [|naive_solver].
    intros (p & Ha & HT & b & ->). destruct b; [done|by left|by right].
Qed.

Lemma abort_txn_ok s a t :
  space_in s a → t ≠ "" → refines s a (OAbort t) (map_snd RPair (abort_txn s t)).
Proof.
  intros Hs Ht. destruct (pending_rows s a TUncommitted t Hs) as (l1 & Hq1 & Hp1 & Hin1 & _); [done|done|].
  destruct (drop_rows_ok (abort_place t) TUncommitted t l1 s a []) as (s1 & a1 & Hdr & He1 & Hs1 & Hset1); [|done|done|].
  { intros b HT. cbn. rewrite String.eqb_refl. by destruct b. }
  destruct (ending_ok (abort_place t) t s a s1 a1 l1) as (l2 & Hq2 & Hp2 & Hin2 & Hall); try done.
  { intros b b' t'. cbn. rewrite String.eqb_refl. by destruct b. }
  { intros [|b t'] Hne; [done|]. cbn. destruct (String.eqb_spec t' t) as [->|]; [by destruct (Hne b)|done]. }
  destruct (restore_taken_ok t l2 s1 a1 l1.*1 [] Hs1 Hp2) as (s2 & a2 & Hre & He2 & Hs2 & Hset2).
  unfold abort_txn. cbn [sp_name] in *. rewrite Hq1, Hdr, Hq2. cbn [app] in Hre |- *. rewrite Hre. exists a2. cbn.
  assert (Hown : ∀ f r p, (r, p) ∈ List.filter f l2 ↔
    (a !! tp_tuple_id r = Some (r, p) ∧ place_table p = TTaken ∧ ∃ b, p = Held b t) ∧ f (r, p) = true)
    by (intros f r p; by rewrite filter_bool_elem, Hin2).
  split_and!; [by apply Hall| | |done|by eapply evolves_trans].
  - intros r. rewrite elem_of_app, (elem_of_records _ _ Hin1), (elem_of_records _ _ (Hown _)). unfold holds. split.
    + intros [(p & Ha & HT & b & ->)|(p & (Ha & HT & b & ->) & Hf)]; [left; by destruct b|right; by destruct b].
    + intros [Ha|Ha]; [left; eauto 10|right]. exists (Held BSelfTaken t). split; [eauto 10|done].
  - intros r. rewrite (elem_of_records _ _ (Hown _)). unfold holds. split.
    + intros (p & (Ha & HT & b & ->) & Hf). by destruct b.
    + intros Ha. exists (Held BTaken t). split; [eauto 10|done].
Qed.

(** Every call does to the tuples what the specification allows, answers
    accordingly, and leaves the watches alone. *)
Lemma call_refines s a op :
  space_in s a → op_fresh a op → space_op_valid op → refines s a op (ss_apply s op).
Proof.
  intros Hs Hf Hv. destruct op as [r|t r|id|id|l|tm t|tm t|tm t|t|t|t]; cbn [op_fresh space_op_valid] in *.
  - destruct Hv. destruct (insert_ok s a r Hs Hf) as (s' & Hi & He & Hs'); [done|done|].
    eexists. cbn. rewrite Hi. by split_and!.
  - destruct Hv as (? & ? & ?). destruct (insert_uncommitted_ok s a t r Hs Hf) as (s' & Hi & He & Hs'); [done..|].
    eexists. cbn. rewrite Hi. by split_and!.
  - apply read_refines; [done|]. by apply get_ok.
  - by apply remove_ok.
  - by apply remove_by_lease_ok.
  - apply read_refines; [done|]. by apply find_match_ok.
  - by apply take_match_ok.
  - apply read_refines; [done|]. by apply find_all_ok.
  - by apply commit_txn_ok.
  - by apply abort_txn_ok.
  - apply read_refines; [done|]. by apply has_txn_ok.
Qed.

(** A sequence of calls and its answers, against the specification. *)
Fixpoint trace_allowed a (ops : list SpaceOp) (rs : list SpaceRes) : Prop :=
  match ops, rs with
  | [], [] => True
  | op :: ops, r :: rs =>
      op_fresh a op → space_op_valid op → ∃ a', allowed a op r a' ∧ trace_allowed a' ops rs
  | _, _ => False
  end.

(** C8: The DynamoDB store keeps the contract of the tuple space.  On a
    healthy database, whatever calls are made in whatever order, the answers are
    those the specification that the in-memory store refines allows, as long as
    the ids callers draw are new and not empty: tuples move between visible and
    held by a transaction as they should, and none is lost or doubled. *)
Theorem dynamo_space_refines s a ops :
  space_in s a → trace_allowed a ops (run_calls ss_apply s ops).2.
Proof.
  revert s a. induction ops as [|op ops IH]; intros s a Hs; [done|]. cbn [run_calls].
  pose proof (call_refines s a op Hs) as Hc. destruct (ss_apply s op) as [s1 r].
  pose proof (IH s1) as Hrest. destruct (run_calls ss_apply s1 ops) as [s2 rs]. cbn [snd trace_allowed] in *.
  intros Hf Hv. destruct (Hc Hf Hv) as (a' & Hal & Hs1 & _). exists a'. auto.
Qed.

(** A write to the watches leaves the tuples alone. *)
Lemma watch_write s a {A} (w : Table → option (option (Table * A))) d (res : result A SdkError) :
  space_in s a → written (ds_client s) (ds_watches_table s) w (d, res) → space_in (set_client s d) a.
Proof.
  intros [Hn Hh Hwf] Hw. split; [done| |done]. intros T. destruct (Hh T) as (tb & Ht & Hrest).
  exists tb. split; [|done]. change (sp_name (set_client s d) T) with (sp_name s T). cbn.
  apply written_either in Hw as [[Heq _]|(tb0 & tb' & x & _ & _ & Heq & _)]; cbn in Heq; rewrite Heq; [done|].
  rewrite lookup_insert_ne; [done|]. unfold names_distinct in Hn.
  rewrite !NoDup_cons, !not_elem_of_cons in Hn. destruct T; cbn; naive_solver.
Qed.

(** The Space manager runs on it as on the in-memory store. *)
#[global] Instance DynamoSpaceStore_laws : SpaceStoreLaws (DynamoSpaceStore D).
Proof.
  refine {| ss_rep := space_in; ss_valid := space_op_valid |}.
  - intros s a Hs id r p Ha. by apply (sw_key _ (si_wf _ _ Hs)) in Ha as [? _].
  - intros s a op Hs Hf Hv. destruct (call_refines s a op Hs Hf Hv) as (a' & Hal & Hs' & _). eauto.
  - intros s a w Hs. cbn. unfold create_watch, put.
    pose proof (put_item_law (ds_client s) (ds_watches_table s) None (watch_to_item w)) as Hw.
    destruct (put_item _ _ _ _) as [d res]. by eapply watch_write.
  - intros s a l Hs. cbn. unfold remove_watch_by_lease.
    destruct (query_index _ _ _ _ _) as [items|]; cbn [map_err]; [|done].
    destruct (head items) as [it|]; [|done]. destruct (watch_from_item it) as [w|]; [|done]. unfold del.
    pose proof (delete_item_law (ds_client s) (ds_watches_table s) None (watch_key_item (wt_watch_id w))) as Hw.
    destruct (delete_item _ _ _ _) as [d res]. by eapply watch_write.
Defined.
End refinement.

(** ** Concrete runs *)

(** A store whose tables are empty. *)
Lemma space_in_empty `{R : Rfc3339} `{DynamoView D} (s : DynamoSpaceStore D) :
  names_distinct s → (∀ T, tables (ds_client s) !! sp_name s T = Some (mkTable (sp_spec T) ∅)) → space_in s ∅.
Proof.
  intros Hn Ht. split; [done| |].
  - intros T. eexists. split; [apply Ht|]. split; [done|]. intros k it. cbn. rewrite lookup_empty.
    split; [done|]. intros (id & r & p & Ha & _). by rewrite lookup_empty in Ha.
  - split; intros ?*; by rewrite lookup_empty.
Qed.

Section samples.
#[local] Existing Instance canonical_iter.
#[local] Existing Instance rfc_sample.
#[local] Existing Instance rfc_sample_laws.

Definition toy_space : DynamoSpaceStore ToyDb :=
  with_tables {| toy_tables := <["tuples" := mkTable space_spec ∅]> (<["unc" := mkTable space_uncommitted_spec ∅]>
                   (<["taken" := mkTable space_txn_taken_spec ∅]> {["watches" := mkTable space_watches_spec ∅]}));
                 toy_page := 0 |} "tuples" "unc" "taken" "watches".

Lemma toy_space_in : space_in toy_space ∅.
Proof.
  apply space_in_empty; [by apply (bool_decide_unpack _); vm_compute|]. intros []; vm_compute; reflexivity.
Qed.

(** A job is taken under [t], its result written and taken back; [t] aborts. *)
Definition dynamo_script : list SpaceOp :=
  [OInsert tuple_a; OTakeMatch {["kind" := "job"]} (Some "t"); OInsertUncommitted "t" tuple_c;
   OTakeMatch {["kind" := "result"]} (Some "t"); OFindAll ∅ None; OAbort "t"; OFindAll ∅ None].

Theorem dynamo_space_refines_witness :
  trace_allowed ∅ dynamo_script (run_calls ss_apply toy_space dynamo_script).2 ∧
  (run_calls ss_apply toy_space dynamo_script).2 =
    [RUnit (Ok ()); RTuple (Ok (Some tuple_a)); RUnit (Ok ()); RTuple (Ok (Some tuple_c)); RTuples (Ok []);
     RPair (Ok ([tuple_c], [tuple_a])); RTuples (Ok [tuple_a])].
Proof. split; [apply (dynamo_space_refines toy_space ∅ dynamo_script toy_space_in)|vm_compute; reflexivity]. Defined.
End samples.
