(* ===== verification/DynamoSpaceFaults.v ===== *)
(** * The DynamoDB tuple store under faults and lag

    A take reads the tables page by page, from replicas that may be behind, and
    then claims what it found by one conditional delete after the other; in a
    transaction it writes what it got to the taken tuples.  Here a take is cut at
    every call it makes, so that any number of takers run at once, between them
    and the writes of everybody else, while calls fail, take effect without an
    answer, or are answered from the past.  A tuple is still handed out at most
    once for each time it was written.  The last section shows what the store does
    not survive: it reads without asking for consistency, and moves a tuple between
    tables in two calls. *)

From S2P Require Import Prelude CoreTypes Matcher SpaceStore SpaceSpec SpaceManager.
From S2P Require Import Dynamo DynamoCodec DynamoSample DynamoSpace DynamoSpaceSim DynamoSpaceRefine.

(** The plain writes of the store, as its operations make them: inserts, the
    removals of expiries, and the moves of commits and aborts. *)
Inductive SpaceWrite :=
| WPut (table : string) (item : Item)
| WDel (table : string) (key : Item).

(** Where a take stands: the call it makes next, and what it knows by then. *)
Inductive TakeCall :=
| TkStart (template : attrs_map) (txn_id : option string)
| TkScan (ops : gmap string MatchOp) (txn_id : option string)
| TkTry (ops : gmap string MatchOp) (txn_id : option string) (id : string) (rest : list Item)
| TkTrack (txn_id : string) (taken : TupleRecord)
| TkOwn (txn_id : string) (record : TupleRecord)
| TkOwnTrack (txn_id : string) (record : TupleRecord)
| TkDone (own : bool) (r : result (option TupleRecord) Error).

Definition is_some {A} (o : option A) : bool := match o with Some _ => true | None => false end.

(** Of a list of counted things, one is replaced. *)
Lemma sum_insert {A} (f : A → nat) l i (x y : A) :
  l !! i = Some x → sum_list_with f (<[i := y]> l) + f x = sum_list_with f l + f y.
Proof.
  revert i. induction l as [|z l IH]; intros i Hi; [done|].
  destruct i as [|i]; cbn in Hi |- *; [injection Hi as ->; lia|].
  rewrite <- !Nat.add_assoc. f_equal. exact (IH i Hi).
Qed.

Section faults.
Context {I : MapIter} {R : Rfc3339}.
Context {D : Type} {DB : Dynamo D} {DV : DynamoView D} {DL : DynamoLaws D}.
Implicit Types (s : DynamoSpaceStore D) (k : TakeCall).

(** The answer says whether a row was handed out. *)
Definition write_apply s (w : SpaceWrite) : DynamoSpaceStore D * result bool Error :=
  match w with
  | WPut t item => let '(s', r) := put s t item in (s', rmap (λ _, false) r)
  | WDel t key => let '(s', r) := del s t key in (s', rmap is_some r)
  end.

(** ** A take, one call at a time *)

(** The next scanned row that matches is the next to be claimed. *)
Fixpoint next_try (ops : gmap string MatchOp) (txn_id : option string) (items : list Item) : TakeCall :=
  match items with
  | [] => TkDone false (Ok None)
  | item :: items =>
      match tuple_from_item item with
      | Err e => TkDone false (Err e)
      | Ok record =>
          if matches ops (tp_attrs record) then TkTry ops txn_id (tp_tuple_id record) items
          else next_try ops txn_id items
      end
  end.

(** The read a taker makes next. *)
Definition tread s k : result (list Item) Error :=
  match k with
  | TkStart _ txn_id => own_rows s txn_id
  | TkScan _ _ => scan_all (ds_client s) (ds_tuple_table s)
  | _ => Ok []
  end.

(** One call of a taker; [rows] is the answer to its read. *)
Definition tstep s (rows : result (list Item) Error) k : DynamoSpaceStore D * TakeCall :=
  match k with
  | TkStart template txn_id =>
      let ops := parse_template template in
      match txn_id with
      | None => (s, TkScan ops None)
      | Some tid =>
          (s, match rbind rows (first_match ops) with
              | Err e => TkDone true (Err e)
              | Ok (Some record) => TkOwn tid record
              | Ok None => TkScan ops txn_id
              end)
      end
  | TkScan ops txn_id =>
      (s, match rows with Err e => TkDone false (Err e) | Ok items => next_try ops txn_id items end)
  | TkTry ops txn_id id rest =>
      let '(s, r) := claim s id in
      (s, match r with
          | Err e => TkDone false (Err e)
          | Ok None => next_try ops txn_id rest
          | Ok (Some taken) =>
              match txn_id with
              | None => TkDone false (Ok (Some taken))
              | Some tid => TkTrack tid taken
              end
          end)
  | TkTrack tid taken =>
      let '(s, r) := put_taken s (txn_item tid taken) in
      (s, TkDone false (rmap (λ _, Some taken) r))
  | TkOwn tid record =>
      let '(s, r) := del s (ds_uncommitted_table s) (txn_key_item tid (tp_tuple_id record)) in
      (s, match r with Err e => TkDone true (Err e) | Ok _ => TkOwnTrack tid record end)
  | TkOwnTrack tid record =>
      let '(s, r) := put_taken s (own_item tid record) in
      (s, TkDone true (rmap (λ _, Some record) r))
  | TkDone _ _ => (s, k)
  end.

(** Nobody else makes a call, and reads are answered as they are. *)
Definition alone (x y : DynamoSpaceStore D * TakeCall) : Prop :=
  y = tstep x.1 (tread x.1 x.2) x.2.

(** ** Any number of takers, and everybody else *)

Record Takers := mkTakers {
  ts_store : DynamoSpaceStore D;
  ts_takers : list TakeCall;
  ts_log : list (SpaceWrite * result bool Error)
}.

(** A take begins; a taker makes its next call, which when it is a read may be
    answered with any rows; somebody else writes. *)
Inductive takers_step : Takers → Takers → Prop :=
| ts_begin s ks log template txn_id :
    takers_step (mkTakers s ks log) (mkTakers s (ks ++ [TkStart template txn_id]) log)
| ts_call s ks log i k rows s' k' :
    ks !! i = Some k → tstep s rows k = (s', k') →
    takers_step (mkTakers s ks log) (mkTakers s' (<[i := k']> ks) log)
| ts_write s ks log w s' r :
    write_apply s w = (s', r) → takers_step (mkTakers s ks log) (mkTakers s' ks (log ++ [(w, r)])).

Definition tuple_key (id : string) : Key := (id, "").

(** The taker has the committed tuple [id], or has returned it. *)
Definition got (id : string) k : nat :=
  match k with
  | TkTrack _ r | TkDone false (Ok (Some r)) => if decide (tp_tuple_id r = id) then 1 else 0
  | _ => 0
  end.

(** An entry of the log removed the committed tuple [id], or tried to write it. *)
Definition removed (tuple_table id : string) (e : SpaceWrite * result bool Error) : nat :=
  match e with
  | (WDel t key, Ok true) =>
      if decide (t = tuple_table ∧ key_of space_spec key = Some (tuple_key id)) then 1 else 0
  | _ => 0
  end.

Definition attempt (tuple_table id : string) (w : SpaceWrite) : nat :=
  match w with
  | WPut t item =>
      if decide (t = tuple_table ∧ key_of space_spec item = Some (tuple_key id)) then 1 else 0
  | WDel _ _ => 0
  end.

(** How often the tuple left the table into somebody's hands. *)
Definition handed_out (tuple_table id : string) (x : Takers) : nat :=
  sum_list_with (got id) (ts_takers x) + sum_list_with (removed tuple_table id) (ts_log x).

Definition attempts (tuple_table id : string) (x : Takers) : nat :=
  sum_list_with (attempt tuple_table id) (ts_log x).*1.

(** The table of committed tuples, and whether a tuple is in it. *)
Definition tuples_ok s : Prop :=
  ds_txn_taken_table s ≠ ds_tuple_table s ∧
  ∃ tb, tables (ds_client s) !! ds_tuple_table s = Some tb ∧ tb_spec tb = space_spec ∧
    ∀ key it, tb_rows tb !! key = Some it → key_of space_spec it = Some key.

Definition row_there (ts : Tables) (t id : string) : nat :=
  match ts !! t with
  | Some tb => match tb_rows tb !! tuple_key id with Some _ => 1 | None => 0 end
  | None => 0
  end.

Definition present s (id : string) : nat := row_there (tables (ds_client s)) (ds_tuple_table s) id.

(** ** One call's effect on the row of [id] *)

Lemma delete_effect s t c key id (out : D * result (option Item) SdkError) :
  tuples_ok s → written (ds_client s) t (delete_row c key) out →
  let s' := set_client s out.1 in
  tuples_ok s' ∧ present s' id ≤ present s id ∧
  (t = ds_tuple_table s → ∀ it, out.2 = Ok (Some it) →
    key_of space_spec it = key_of space_spec key ∧
    (key_of space_spec key = Some (tuple_key id) → present s id = 1 ∧ present s' id = 0)).
Proof.
  intros (Hne & tb & Ht & Hspec & Hwf) Hw. cbn zeta. unfold tuples_ok, present, row_there. cbn.
  apply written_either in Hw as [[Heq Hno]|(tb0 & tb' & a & Ht0 & Hdel & Heq & Hans)].
  { rewrite Heq, Ht. split; [split; [done|by exists tb]|]. split; [done|].
    intros _ it Hok. by rewrite Hok in Hno. }
  unfold delete_row in Hdel. destruct (key_of (tb_spec tb0) key) as [kk|] eqn:Hk; [|done]. cbn in Hdel.
  destruct (check c _); [|done]. injection Hdel as <- <-. rewrite Heq, Ht.
  destruct (decide (t = ds_tuple_table s)) as [->|Hne'].
  2: { rewrite lookup_insert_ne, Ht by done. split; [split; [done|by exists tb]|]. split; [done|]. by intros ->. }
  rewrite Ht in Ht0. injection Ht0 as <-. rewrite lookup_insert_eq. rewrite Hspec in Hk. split_and!.
  - done.
  - eexists. split; [reflexivity|]. split; [done|]. cbn. intros k0 it [_ Hl]%lookup_delete_Some. eauto.
  - cbn. destruct (decide (kk = tuple_key id)) as [->|Hn]; [|by rewrite lookup_delete_ne].
    rewrite lookup_delete_eq. lia.
  - intros _ it Hok. apply Hans in Hok. symmetry in Hok. rewrite Hk. split; [eauto|].
    intros [= ->]. cbn. by rewrite lookup_delete_eq, Hok.
Qed.

Lemma put_effect s t item id (out : D * result unit SdkError) :
  tuples_ok s → written (ds_client s) t (put_row None item) out →
  let s' := set_client s out.1 in
  tuples_ok s' ∧ present s' id ≤ present s id + attempt (ds_tuple_table s) id (WPut t item).
Proof.
  intros (Hne & tb & Ht & Hspec & Hwf) Hw. cbn zeta. unfold tuples_ok, present, row_there. cbn.
  apply written_either in Hw as [[Heq _]|(tb0 & tb' & a & Ht0 & Hput & Heq & _)].
  { rewrite Heq, Ht. split; [split; [done|by exists tb]|]. lia. }
  apply put_row_inv in Hput as (kk & Hk & _ & ->). rewrite Heq, Ht.
  destruct (decide (t = ds_tuple_table s)) as [->|Hne'].
  2: { rewrite lookup_insert_ne, Ht by done. split; [split; [done|by exists tb]|]. lia. }
  rewrite Ht in Ht0. injection Ht0 as <-. rewrite lookup_insert_eq. rewrite Hspec in Hk. split.
  - split; [done|]. eexists. split; [reflexivity|]. split; [done|]. cbn.
    intros k0 it [[<- <-]|[_ Hl]]%lookup_insert_Some; eauto.
  - cbn. destruct (decide (kk = tuple_key id)) as [->|Hn].
    + destruct (decide _) as [|Hno]; [|by destruct Hno]. repeat case_match; lia.
    + rewrite lookup_insert_ne by done. lia.
Qed.

Lemma put_call s t item id (s' : DynamoSpaceStore D) r :
  tuples_ok s → put s t item = (s', r) →
  tuples_ok s' ∧ ds_tuple_table s' = ds_tuple_table s ∧
  present s' id ≤ present s id + attempt (ds_tuple_table s) id (WPut t item).
Proof.
  intros Hok. unfold put. pose proof (put_item_law (ds_client s) t None item) as Hw.
  destruct (put_item _ _ _ _) as [d res]. intros [= <- <-]. by destruct (put_effect s t item id _ Hok Hw).
Qed.

Lemma put_taken_call s item id (s' : DynamoSpaceStore D) r :
  tuples_ok s → put_taken s item = (s', r) →
  tuples_ok s' ∧ ds_tuple_table s' = ds_tuple_table s ∧ present s' id ≤ present s id.
Proof.
  intros Hok. unfold put_taken.
  pose proof (put_item_law (ds_client s) (ds_txn_taken_table s) None item) as Hw.
  destruct (put_item _ _ _ _) as [d res]. intros [= <- <-].
  destruct (put_effect s _ item id _ Hok Hw) as [Hok' Hle]. split_and!; [done..|].
  cbn [attempt] in Hle. destruct (decide _) as [[Heq _]|]; [|cbn in *; lia]. by destruct Hok as [Hne _].
Qed.

Lemma del_call s t key id (s' : DynamoSpaceStore D) r :
  tuples_ok s → del s t key = (s', r) →
  tuples_ok s' ∧ ds_tuple_table s' = ds_tuple_table s ∧
  present s' id + removed (ds_tuple_table s) id (WDel t key, rmap is_some r) ≤ present s id.
Proof.
  intros Hok. unfold del. pose proof (delete_item_law (ds_client s) t None key) as Hw.
  destruct (delete_item _ _ _ _) as [d res]. intros [= <- <-].
  destruct (delete_effect s t None key id _ Hok Hw) as (Hok' & Hle & Hgot). cbn [fst snd] in *.
  split_and!; [done|done|]. destruct res as [[it|]|e]; cbn; [|lia..].
  destruct (decide _) as [[Htt Hk]|]; [|lia]. destruct (Hgot Htt it eq_refl) as [_ Hp].
  destruct (Hp Hk). lia.
Qed.

(** A row decodes to the tuple of its key. *)
Lemma tuple_from_item_id it r id :
  tuple_from_item it = Ok r → key_of space_spec it = Some (tuple_key id) → tp_tuple_id r = id.
Proof.
  unfold tuple_from_item, need_s, key_of. cbn. destruct (get_s it "tuple_id") as [x|]; [|done]. cbn.
  unfold nonempty. destruct (is_empty x); [done|]. intros Hr [= ->].
  repeat match type of Hr with context [rbind ?o _] => destruct o; cbn in Hr; [|done] end. by injection Hr as <-.
Qed.

(** A claim that is answered with a tuple took just that one away. *)
Lemma claim_call s cid id (s' : DynamoSpaceStore D) r :
  tuples_ok s → claim s cid = (s', r) →
  tuples_ok s' ∧ ds_tuple_table s' = ds_tuple_table s ∧ present s' id ≤ present s id ∧
  (∀ rec, r = Ok (Some rec) → tp_tuple_id rec = id → present s id = 1 ∧ present s' id = 0).
Proof.
  intros Hok. unfold claim.
  pose proof (delete_item_law (ds_client s) (ds_tuple_table s) (Some (CExists "tuple_id")) (tuple_key_item cid)) as Hw.
  destruct (delete_item _ _ _ _) as [d res]. intros [= <- <-].
  destruct (delete_effect s _ _ _ id _ Hok Hw) as (Hok' & Hle & Hgot). cbn [fst snd] in *.
  split_and!; [done..|]. intros rec Hr Hid. destruct res as [[it|]|[]]; try done.
  destruct (Hgot eq_refl it eq_refl) as [Hkey Hp]. apply Hp. cbn in Hr.
  destruct (tuple_from_item it) as [rec'|] eqn:Hd; [|done]. injection Hr as ->.
  assert (Hcid : cid ≠ "").
  { intros ->. destruct Hw as (tb & tb' & Ht & Hdel & _). destruct Hok as (_ & tb1 & Ht1 & Hspec & _).
    rewrite Ht in Ht1. injection Ht1 as <-. unfold delete_row in Hdel. by rewrite Hspec in Hdel. }
  pose proof (key_item_key Visible cid Hcid Logic.I) as Hk. cbn in Hk. rewrite Hk in Hkey |- *.
  apply (tuple_from_item_id it rec cid) in Hkey; [|done]. by subst.
Qed.

Lemma next_try_got ops txn items id : got id (next_try ops txn items) = 0.
Proof.
  induction items as [|it items IH]; [done|]. cbn. destruct (tuple_from_item it); [|done].
  by destruct (matches _ _).
Qed.

(** ** Conservation *)

(** A taker's call: what it gets, it took out of the table. *)
Lemma tstep_effect s rows k id (s' : DynamoSpaceStore D) k' :
  tuples_ok s → tstep s rows k = (s', k') →
  tuples_ok s' ∧ ds_tuple_table s' = ds_tuple_table s ∧ present s' id + got id k' ≤ present s id + got id k.
Proof.
  intros Hok. destruct k as [tm txn|ops txn|ops txn cid rest|tid taken|tid rec|tid rec|own r]; cbn [tstep].
  - destruct txn as [tid|]; intros [= <- <-]; split_and!; [done|done| |done|done|cbn; lia].
    destruct (rbind _ _) as [[rec|]|]; cbn; lia.
  - intros [= <- <-]. split_and!; [done|done|]. destruct rows; [rewrite next_try_got|]; cbn; lia.
  - destruct (claim s cid) as [s1 r] eqn:Hc. intros [= <- <-].
    destruct (claim_call s cid id s1 r Hok Hc) as (Hok' & Hnm & Hle & Hgot). split_and!; [done|done|].
    destruct r as [[rec|]|e]; [|rewrite next_try_got; cbn; lia|cbn; lia].
    specialize (Hgot rec eq_refl). destruct txn; cbn; destruct (decide _) as [Hid|]; try lia;
      destruct (Hgot Hid); lia.
  - destruct (put_taken s _) as [s1 r] eqn:Hp. intros [= <- <-].
    destruct (put_taken_call s _ id s1 r Hok Hp) as (Hok' & Hnm & Hle). split_and!; [done|done|].
    destruct r; cbn; destruct (decide _); lia.
  - destruct (del s _ _) as [s1 r] eqn:Hp. intros [= <- <-].
    destruct (del_call s _ _ id s1 r Hok Hp) as (Hok' & Hnm & Hle). split_and!; [done|done|].
    destruct r; cbn; lia.
  - destruct (put_taken s _) as [s1 r] eqn:Hp. intros [= <- <-].
    destruct (put_taken_call s _ id s1 r Hok Hp) as (Hok' & Hnm & Hle). split_and!; [done|done|].
    destruct r; cbn; lia.
  - intros [= <- <-]. done.
Qed.

Definition conserved (t id : string) (n : nat) (x : Takers) : Prop :=
  tuples_ok (ts_store x) ∧ ds_tuple_table (ts_store x) = t ∧
  present (ts_store x) id + handed_out t id x ≤ n + attempts t id x.

Lemma takers_step_conserved t id n x y :
  takers_step x y → conserved t id n x → conserved t id n y.
Proof.
  unfold conserved, handed_out, attempts.
  intros [s ks log tm txn|s ks log i k rows s' k' Hi Hs|s ks log w s' r Hw] (Hok & <- & Hle); cbn in *.
  - split_and!; [done..|]. rewrite sum_list_with_app. cbn. lia.
  - destruct (tstep_effect s rows k id s' k' Hok Hs) as (Hok' & -> & Hc).
    pose proof (sum_insert (got id) ks i k k' Hi). split_and!; [done..|]. lia.
  - rewrite fmap_app, !sum_list_with_app. cbn. destruct w as [tb item|tb key]; cbn in Hw.
    + destruct (put s tb item) as [s1 r1] eqn:Hp. injection Hw as <- <-.
      destruct (put_call s tb item id s1 r1 Hok Hp) as (Hok' & -> & Hc). split_and!; [done..|].
      cbn in *. lia.
    + destruct (del s tb key) as [s1 r1] eqn:Hp. injection Hw as <- <-.
      destruct (del_call s tb key id s1 r1 Hok Hp) as (Hok' & -> & Hc). split_and!; [done..|].
      cbn in *. lia.
Qed.

Lemma takers_run_conserved t id n x y :
  rtc takers_step x y → conserved t id n x → conserved t id n y.
Proof. induction 1; eauto using takers_step_conserved. Qed.

(** ** The takers are [take_match] *)

Lemma take_step_once s k (y z : DynamoSpaceStore D * TakeCall) :
  tstep s (tread s k) k = y → rtc alone y z → rtc alone (s, k) z.
Proof. intros <- Hz. eapply rtc_l; [|exact Hz]. done. Qed.

Lemma claims_alone ops txn items s :
  let out := take_committed s ops txn items in
  rtc alone (s, next_try ops txn items) (out.1, TkDone false out.2).
Proof.
  revert s. induction items as [|it items IH]; intros s; cbn; [apply rtc_refl|].
  destruct (tuple_from_item it) as [rec|e]; [|apply rtc_refl].
  destruct (matches ops (tp_attrs rec)); [|apply IH].
  eapply take_step_once; [reflexivity|]. cbn. destruct (claim s (tp_tuple_id rec)) as [s1 [[taken|]|e]].
  2: apply IH. 2: apply rtc_refl.
  destruct txn as [tid|]; [|apply rtc_refl]. eapply take_step_once; [reflexivity|]. cbn.
  destruct (put_taken s1 _) as [s2 r]. apply rtc_refl.
Qed.

Lemma take_match_alone s tm txn :
  let out := take_match s tm txn in
  ∃ own, rtc alone (s, TkStart tm txn) (out.1, TkDone own out.2).
Proof.
  assert (Hscan : ∃ own, rtc alone (s, TkScan (parse_template tm) txn)
    (let out := match scan_all (ds_client s) (ds_tuple_table s) with
                | Err e => (s, Err e) | Ok items => take_committed s (parse_template tm) txn items end in
     (out.1, TkDone own out.2))).
  { exists false. eapply take_step_once; [reflexivity|]. cbn [tread tstep].
    destruct (scan_all (ds_client s) (ds_tuple_table s)); [apply claims_alone|apply rtc_refl]. }
  unfold take_match. destruct txn as [tid|].
  2: { cbn. destruct Hscan as [own Hscan]. exists own. by eapply take_step_once. }
  destruct (rbind (own_rows s (Some tid)) _) as [[rec|]|e] eqn:Hown.
  - exists true. eapply take_step_once; [reflexivity|]. cbn [tread tstep]. rewrite Hown.
    eapply take_step_once; [reflexivity|]. cbn. unfold take_own.
    destruct (del s _ _) as [s1 [o|e]]; [|apply rtc_refl].
    eapply take_step_once; [reflexivity|]. cbn. destruct (put_taken s1 _). apply rtc_refl.
  - destruct Hscan as [own Hscan]. exists own. eapply take_step_once; [reflexivity|].
    cbn [tread tstep]. by rewrite Hown.
  - exists true. eapply take_step_once; [reflexivity|]. cbn [tread tstep]. rewrite Hown. apply rtc_refl.
Qed.

(** C13: A committed tuple is taken at most once for each time it was written.
    Any number of takes run at once, inside and outside transactions, each cut at
    every call it makes on the database, between them the writes of everybody else;
    calls may fail, may take effect without being answered, and reads may be
    answered with any rows at all.  Still the takers that have the committed tuple
    [id], or returned it, and the removals that were answered with it, are
    together no more than it was there to begin with and was put since.  A taker
    whose calls are not disturbed is [take_match]. *)
Theorem tuple_handed_out_once s id x :
  tuples_ok s → rtc takers_step (mkTakers s [] []) x →
  present (ts_store x) id + handed_out (ds_tuple_table s) id x ≤
    present s id + attempts (ds_tuple_table s) id x ∧
  ∀ template txn_id,
    let out := take_match (ts_store x) template txn_id in
    ∃ own, rtc alone (ts_store x, TkStart template txn_id) (out.1, TkDone own out.2).
Proof.
  intros Hok Hrun. split; [|intros; apply take_match_alone].
  apply (takers_run_conserved (ds_tuple_table s) id (present s id)) in Hrun; [apply Hrun|].
  split_and!; [done..|]. cbn. lia.
Qed.
End faults.

(** ** Concrete runs *)
Section samples.
#[local] Existing Instance canonical_iter.
#[local] Existing Instance rfc_sample.

(** Reads answered from [read], writes to the tables [faulty] failing. *)
Definition flaky_space (now read : DynamoSpaceStore ToyDb) (faulty : list string) : DynamoSpaceStore FlakyDb :=
  with_tables {| fl_now := ds_client now; fl_read := ds_client read;
                 fl_faults := λ t _, bool_decide (t ∈ faulty) |} "tuples" "unc" "taken" "watches".

(** The rows of a table. *)
Definition row_count (s : DynamoSpaceStore FlakyDb) (t : string) : nat :=
  match tables (ds_client s) !! t with Some tb => size (tb_rows tb) | None => 0 end.

(** Tuple [a] is visible. *)
Definition one_tuple : DynamoSpaceStore ToyDb := (insert toy_space tuple_a).1.

(** Two takers scan before either claims: one outside any transaction, one in
    transaction [t].  The first gets [a], the second finds it gone.  Then [a] is
    written again, the second scans once more as a third taker and gets it, the
    write that tracks it failing. *)
Definition job_template : attrs_map := {["kind" := "job"]}.
Definition flaky_one : DynamoSpaceStore FlakyDb := flaky_space one_tuple one_tuple ["taken"].

Definition call_of (x : Takers (D:=FlakyDb)) (i : nat) : Takers (D:=FlakyDb) :=
  match ts_takers x !! i with
  | Some k =>
      let '(s, k') := tstep (ts_store x) (tread (ts_store x) k) k in
      mkTakers s (<[i := k']> (ts_takers x)) (ts_log x)
  | None => x
  end.
Definition begin_of (x : Takers (D:=FlakyDb)) (txn_id : option string) : Takers (D:=FlakyDb) :=
  mkTakers (ts_store x) (ts_takers x ++ [TkStart job_template txn_id]) (ts_log x).
Definition write_of (x : Takers (D:=FlakyDb)) (w : SpaceWrite) : Takers (D:=FlakyDb) :=
  let '(s, r) := write_apply (ts_store x) w in mkTakers s (ts_takers x) (ts_log x ++ [(w, r)]).

Lemma call_of_step (x : Takers (D:=FlakyDb)) i : rtc takers_step x (call_of x i).
Proof.
  unfold call_of. destruct (ts_takers x !! i) as [k|] eqn:Hi; [|apply rtc_refl].
  destruct (tstep _ _ k) as [s' k'] eqn:Hs. apply rtc_once. destruct x. by eapply ts_call.
Qed.

Lemma write_of_step (x : Takers (D:=FlakyDb)) w : takers_step x (write_of x w).
Proof.
  unfold write_of. destruct (write_apply (ts_store x) w) as [s' r] eqn:Hw. destruct x. by apply ts_write.
Qed.

Lemma begin_of_step (x : Takers (D:=FlakyDb)) t : takers_step x (begin_of x t).
Proof. destruct x. apply ts_begin. Qed.

Definition two_takers : Takers (D:=FlakyDb) :=
  foldl call_of (begin_of (begin_of (mkTakers flaky_one [] []) None) (Some "t")) [0; 1; 0; 1; 0; 1].
Definition third_taker : Takers (D:=FlakyDb) :=
  foldl call_of (begin_of (write_of two_takers (WPut "tuples" (tuple_to_item tuple_a))) (Some "t")) [2; 2; 2].

Lemma calls_of_steps (l : list nat) (x y : Takers (D:=FlakyDb)) : rtc takers_step x y → rtc takers_step x (foldl call_of y l).
Proof.
  revert y. induction l as [|i l IH]; intros y Hy; [done|]. apply IH.
  etrans; [exact Hy|apply call_of_step].
Qed.

Theorem tuple_handed_out_once_witness :
  got "tup-a" <$> ts_takers third_taker = [1; 0; 1] ∧
  present (ts_store third_taker) "tup-a" + handed_out "tuples" "tup-a" third_taker ≤
    present flaky_one "tup-a" + attempts "tuples" "tup-a" third_taker.
Proof.
  split; [vm_compute; reflexivity|].
  apply (tuple_handed_out_once flaky_one "tup-a" third_taker).
  - split; [done|]. eexists. split; [vm_compute; reflexivity|]. split; [reflexivity|].
    apply (bool_decide_eq_true_1 (map_Forall (λ key it, key_of space_spec it = Some key) _)).
    vm_compute. reflexivity.
  - apply calls_of_steps. eapply rtc_r; [|apply begin_of_step]. eapply rtc_r; [|apply write_of_step].
    apply calls_of_steps. eapply rtc_l; [apply ts_begin|]. eapply rtc_l; [apply ts_begin|]. apply rtc_refl.
Defined.

(** A commit loses a write the reads have not caught up with: it finds no row to
    flush, answers that all is well, and the tuple stays in the buffer of a
    transaction that is over. *)
Theorem lagging_commit_loses_write :
  let s := flaky_space (insert_uncommitted toy_space "t" tuple_c).1 toy_space [] in
  let out := commit_txn s "t" in
  row_count s "unc" = 1 ∧ out.2 = Ok ([], []) ∧ row_count out.1 "tuples" = 0 ∧ row_count out.1 "unc" = 1.
Proof. split_and!; vm_compute; reflexivity. Qed.

(** A take whose tracking write fails loses the tuple: it is deleted from the
    visible ones before it is written to the taken ones, the caller gets an error,
    and the transaction's abort has nothing to restore. *)
Theorem failed_tracking_loses_tuple :
  let s := flaky_space one_tuple one_tuple ["taken"] in
  let out := take_match s {["kind" := "job"]} (Some "t") in
  let s' := flaky_space (with_tables (fl_now (ds_client out.1)) "tuples" "unc" "taken" "watches")
              (with_tables (fl_now (ds_client out.1)) "tuples" "unc" "taken" "watches") [] in
  is_ok out.2 = false ∧ row_count out.1 "tuples" = 0 ∧ row_count out.1 "taken" = 0 ∧
  (abort_txn s' "t").2 = Ok ([], []) ∧ row_count (abort_txn s' "t").1 "tuples" = 0.
Proof. split_and!; vm_compute; reflexivity. Qed.

(** A transaction takes its own uncommitted write twice when the second read
    still shows it: unlike the take of a committed tuple, the delete has no
    condition. *)
Theorem own_write_taken_twice :
  let written := (insert_uncommitted toy_space "t" tuple_c).1 in
  let s := flaky_space written written [] in
  let first := take_match s {["kind" := "result"]} (Some "t") in
  let second := take_match first.1 {["kind" := "result"]} (Some "t") in
  first.2 = Ok (Some tuple_c) ∧ row_count first.1 "unc" = 0 ∧ second.2 = Ok (Some tuple_c).
Proof. split_and!; vm_compute; reflexivity. Qed.
End samples.
