(* ===== verification/DynamoSpaceWatch.v ===== *)
(** * Watches in DynamoDB, and tables at boot

    The watch calls of the DynamoDB store answer as those of the in-memory one;
    and an [init] that succeeds leaves the store's tables in place without
    touching one that was there. *)

From S2P Require Import Prelude CoreTypes Matcher SpaceStore SpaceSpec SpaceManager.
From S2P Require Import Dynamo DynamoCodec DynamoSample DynamoSpace DynamoSpaceSim DynamoSpaceRefine.

(** ** Watch calls *)
Inductive WatchOp :=
| OpCreateWatch (w : SpaceWatchRecord)
| OpRemoveWatch (watch_id : string)
| OpRemoveWatchByLease (lease_id : string)
| OpListWatches.

Inductive WatchRes :=
| ResUnit (r : result unit Error)
| ResWatch (r : result (option SpaceWatchRecord) Error)
| ResWatches (r : result (list SpaceWatchRecord) Error).

Definition ws_apply {S} `{SpaceStore S} (s : S) (op : WatchOp) : S * WatchRes :=
  match op with
  | OpCreateWatch w => map_snd ResUnit (ss_create_watch s w)
  | OpRemoveWatch id => map_snd ResUnit (ss_remove_watch s id)
  | OpRemoveWatchByLease l => map_snd ResWatch (ss_remove_watch_by_lease s l)
  | OpListWatches => (s, ResWatches (ss_list_watches s))
  end.

(** Equal answers, up to the order of a listing. *)
Definition same_watch_answer (a b : WatchRes) : Prop :=
  match a, b with
  | ResWatches (Ok l1), ResWatches (Ok l2) => l1 ≡ₚ l2
  | _, _ => a = b
  end.

Abbreviation watch_map := (gmap string SpaceWatchRecord).

Definition watch_lease_unused (ws : watch_map) (lease_id : string) : Prop :=
  ∀ id w, ws !! id = Some w → wt_lease_id w ≠ lease_id.

(** Ids are not empty, and those of a new watch are new. *)
Definition watch_op_valid (ws : watch_map) (op : WatchOp) : Prop :=
  match op with
  | OpCreateWatch w => wt_watch_id w ≠ "" ∧ wt_lease_id w ≠ "" ∧
      ws !! wt_watch_id w = None ∧ watch_lease_unused ws (wt_lease_id w)
  | OpRemoveWatch id => id ≠ ""
  | OpRemoveWatchByLease l => l ≠ ""
  | OpListWatches => True
  end.

(** No two watches with one lease. *)
Definition watch_leases_unique (ws : watch_map) : Prop :=
  ∀ i j w1 w2, ws !! i = Some w1 → ws !! j = Some w2 → wt_lease_id w1 = wt_lease_id w2 → i = j.

Lemma unique_insert ws w :
  watch_leases_unique ws → watch_lease_unused ws (wt_lease_id w) → watch_leases_unique (<[wt_watch_id w := w]> ws).
Proof.
  intros Hu Hun i j w1 w2 [[<- <-]|[_ H1]]%lookup_insert_Some [[<- <-]|[_ H2]]%lookup_insert_Some Heq;
    [done|..|by eapply Hu].
  - by destruct (Hun _ _ H2).
  - by destruct (Hun _ _ H1).
Qed.

Lemma unique_delete ws id : watch_leases_unique ws → watch_leases_unique (delete id ws).
Proof. intros Hu i j w1 w2 [_ H1]%lookup_delete_Some [_ H2]%lookup_delete_Some. by eapply Hu. Qed.

(** The in-memory store holds [ws], with an exact lease index. *)
Record memory_watches (m : InMemorySpaceStore) (ws : watch_map) : Prop := {
  mw_watches : watches m = ws;
  mw_index : ∀ l id, watch_lease_index m !! l = Some id ↔ ∃ w, ws !! id = Some w ∧ wt_lease_id w = l
}.

Section agreement.
Context {I : MapIter} {R : Rfc3339}.
Context {D : Type} {DB : Dynamo D} {DV : DynamoView D} {DL : DynamoLaws D} {DH : DynamoHealthy D}.
Implicit Types (s : DynamoSpaceStore D) (m : InMemorySpaceStore) (ws : watch_map).

Abbreviation watch_table ws := (record_table space_watches_spec watch_to_item ws).

(** The DynamoDB store holds [ws]. *)
Record watches_in s ws : Prop := {
  wi_rows : tables (ds_client s) !! ds_watches_table s = Some (watch_table ws);
  wi_filed : filed wt_watch_id ws;
  wi_lease : map_Forall (λ _ w, wt_lease_id w ≠ "") ws
}.

Lemma watch_row_id w : get_s (watch_to_item w) (tp_hash space_watches_spec) = Some (wt_watch_id w).
Proof. unfold get_s, watch_to_item. cbn. rewrite put_bytes_ne by done. by simplify_map_eq. Qed.

Lemma watch_row_lease w : get_s (watch_to_item w) "lease_id" = Some (wt_lease_id w).
Proof. unfold get_s, watch_to_item. rewrite put_bytes_ne by done. by simplify_map_eq. Qed.

Lemma watch_row_index w : wt_lease_id w ≠ "" → index_ok space_watches_spec (watch_to_item w) = true.
Proof. intros Hl. unfold index_ok. cbn. rewrite watch_row_lease, bool_decide_eq_false_2; [done|]. by intros [= ?]. Qed.

Lemma create_watch_ok s ws w :
  watches_in s ws → wt_watch_id w ≠ "" → wt_lease_id w ≠ "" →
  ∃ s', create_watch s w = (s', Ok ()) ∧ watches_in s' (<[wt_watch_id w := w]> ws).
Proof.
  intros [Hrows Hf Hl] Hid Hlease. unfold create_watch, put.
  pose proof (put_record space_watches_spec watch_to_item wt_watch_id eq_refl watch_row_id None w ws Hid
    (watch_row_index w Hlease)) as Hput.
  destruct (put_item_ok _ _ _ None _ _ Hrows Hput) as [Hr Ht].
  destruct (put_item _ _ _ _) as [d res]. cbn [fst snd] in *. subst res. exists (set_client s d). split; [done|].
  split; [cbn; by rewrite Ht, lookup_insert_eq|by apply filed_insert|by apply map_Forall_insert_2].
Qed.

Lemma del_watch_ok s ws id :
  watches_in s ws → id ≠ "" →
  ∃ s' o, del s (ds_watches_table s) (watch_key_item id) = (s', Ok o) ∧ watches_in s' (delete id ws).
Proof.
  intros [Hrows Hf Hl] Hid. unfold del, watch_key_item. change "watch_id" with (tp_hash space_watches_spec).
  pose proof (delete_record space_watches_spec watch_to_item eq_refl None id ws Hid) as Hdel.
  destruct (delete_item_ok _ _ _ _ _ _ Hrows Hdel) as [Hr Ht].
  destruct (delete_item _ _ _ _) as [d res]. cbn [fst snd] in *. subst res. eexists (set_client s d), _. split; [done|].
  split; [cbn; by rewrite Ht, lookup_insert_eq|by apply filed_delete|by apply map_Forall_delete].
Qed.

Lemma remove_watch_by_lease_ok s ws l :
  watches_in s ws → l ≠ "" →
  (∃ id w s', ws !! id = Some w ∧ wt_lease_id w = l ∧ remove_watch_by_lease s l = (s', Ok (Some w)) ∧
     watches_in s' (delete id ws)) ∨
  (watch_lease_unused ws l ∧ remove_watch_by_lease s l = (s, Ok None)).
Proof.
  intros Hs Hl. unfold remove_watch_by_lease.
  destruct (query_index_ok _ _ _ SPACE_WATCHES_LEASE_GSI "lease_id" l (wi_rows _ _ Hs) eq_refl Hl) as (o & -> & Ho).
  destruct o as [it|]; cbn [map_err option_list].
  - left. destruct Ho as [[k Hk] Hv]. apply record_rows_Some in Hk as (id & w & -> & -> & Hw).
    rewrite watch_row_lease in Hv. injection Hv as Hv. destruct (wi_filed _ _ Hs _ _ Hw) as [Hid Hne].
    change (head (option_list (Some (watch_to_item w)))) with (Some (watch_to_item w)). cbn beta iota.
    rewrite watch_roundtrip, Hid. destruct (del_watch_ok s ws id Hs Hne) as (s' & x & -> & Hs').
    exists id, w, s'. done.
  - right. split; [|done]. intros id w Hw Heq. apply (Ho (hash_key id) (watch_to_item w)).
    + apply record_rows_Some. by exists id, w.
    + by rewrite watch_row_lease, Heq.
Qed.

Lemma list_watches_ok s ws :
  watches_in s ws → ∃ l, list_watches s = Ok l ∧ l ≡ₚ (map_to_list ws).*2.
Proof.
  intros Hs. destruct (scan_records space_watches_spec watch_to_item wt_watch_id eq_refl watch_row_id _ _ _
    None None "scan" raw (λ w, [watch_to_item w]) (wi_rows _ _ Hs) (wi_filed _ _ Hs)) as (out & Hout & Hp); [done|done|].
  unfold list_watches, scan_all. rewrite Hout. cbn [rbind]. rewrite filter_true in Hp.
  assert (Hp' : out ≡ₚ watch_to_item <$> (map_to_list ws).*2).
  { rewrite Hp. clear. induction (map_to_list ws).*2 as [|w l IH]; cbn; [done|]. by f_equiv. }
  destruct (decode_encoded (one watch_from_item) watch_to_item (λ w, [w]) _ _ Hp') as (l & Hl & Hperm).
  { intros w _. unfold one. by rewrite watch_roundtrip. }
  exists l. split; [done|]. by rewrite Hperm, bind_singletons.
Qed.

(** Both stores hold the same watches. *)
Definition same_watches s m : Prop := watches_in s (watches m) ∧ memory_watches m (watches m) ∧ watch_leases_unique (watches m).

Lemma memory_lease_none m ws l : memory_watches m ws → watch_lease_unused ws l → watch_lease_index m !! l = None.
Proof.
  intros [_ Hix] Hun. apply eq_None_not_Some. intros [id (w & Hw & Hl)%Hix]. by apply (Hun id w).
Qed.

Lemma watch_call_agrees s m op :
  same_watches s m → watch_op_valid (watches m) op →
  same_watches (ws_apply s op).1 (ws_apply m op).1 ∧ same_watch_answer (ws_apply s op).2 (ws_apply m op).2.
Proof.
  intros (Hs & Hm & Hu) Hv. destruct op as [w|id|l|]; cbn [ws_apply watch_op_valid] in *.
  - destruct Hv as (Hid & Hl & Hnew & Hun). destruct (create_watch_ok s _ w Hs Hid Hl) as (s' & Hc & Hs').
    cbn. rewrite Hc. cbn. split; [|done]. split_and!; [done| |by apply unique_insert].
    split; [done|]. intros l' id'. cbn. destruct Hm as [_ Hix].
    rewrite lookup_insert_Some, Hix. setoid_rewrite lookup_insert_Some.
    split.
    + intros [[<- <-]|[Hne (w' & Hw' & Hl')]]; [by eauto|]. exists w'. split; [|done]. right. split; [|done]. congruence.
    + intros (w' & [[<- <-]|[Hne Hw']] & Hl'); [by left|]. right. split; [|eauto]. rewrite <- Hl'.
      intros Heq. by apply (Hun _ _ Hw').
  - destruct (del_watch_ok s _ id Hs Hv) as (s' & o & Hd & Hs'). cbn. unfold remove_watch, SpaceStore.remove_watch.
    rewrite Hd. cbn. destruct (watches m !! id) as [w|] eqn:Hw; cbn.
    + split; [|done]. split_and!; [done| |by apply unique_delete]. split; [done|]. cbn. destruct Hm as [_ Hix].
      intros l id'. rewrite lookup_delete_Some, Hix. setoid_rewrite lookup_delete_Some. split.
      * intros [Hne (w' & Hw' & <-)]. exists w'. split; [|done]. split; [|done]. intros <-. congruence.
      * intros (w' & [Hne Hw'] & <-). split; [|eauto]. intros Heq. apply Hne. by eapply Hu.
    + rewrite delete_id in Hs' by done. split; [|done]. by split_and!.
  - cbn. unfold SpaceStore.remove_watch_by_lease.
    destruct (remove_watch_by_lease_ok s _ l Hs Hv) as [(id & w & s' & Hw & Hl & -> & Hs')|[Hun ->]]; cbn.
    + assert (Hlook : watch_lease_index m !! l = Some id) by (apply (mw_index _ _ Hm); eauto).
      rewrite Hlook. cbn. rewrite Hw. cbn. split; [|done]. split_and!; [done| |by apply unique_delete].
      split; [done|]. cbn. destruct Hm as [_ Hix]. intros l' id'.
      rewrite lookup_delete_Some, Hix. setoid_rewrite lookup_delete_Some. split.
      * intros [Hne (w' & Hw' & <-)]. exists w'. split; [|done]. split; [|done]. intros <-. congruence.
      * intros (w' & [Hne Hw'] & <-). split; [|eauto]. intros ->. apply Hne. eapply Hu; [done|done|congruence].
    + rewrite (memory_lease_none _ _ _ Hm Hun). split; [by split_and!|done].
  - split; [by split_and!|]. destruct (list_watches_ok s _ Hs) as (out & Hout & Hp). cbn. rewrite Hout.
    cbn. by rewrite Hp, map_values_perm.
Qed.

(** On a healthy database, any sequence of watch calls gives the same
    answers on the DynamoDB store and on the in-memory one, and leaves the same
    watches. *)
Theorem dynamo_watches_agree s m ops :
  same_watches s m → calls_valid ws_apply (λ m, watch_op_valid (watches m)) m ops →
  same_watches (run_calls ws_apply s ops).1 (run_calls ws_apply m ops).1 ∧
  Forall2 same_watch_answer (run_calls ws_apply s ops).2 (run_calls ws_apply m ops).2.
Proof. apply (run_calls_agree ws_apply ws_apply (λ m, watch_op_valid (watches m))). apply watch_call_agrees. Qed.
End agreement.

(** ** Boot *)
Section boot.
Context {D : Type} {DB : Dynamo D} {DV : DynamoView D} {DL : DynamoLaws D}.
Implicit Types (s : DynamoSpaceStore D).

Definition space_tables s : list (string * TableSpec) :=
  [(ds_tuple_table s, space_spec); (ds_uncommitted_table s, space_uncommitted_spec);
   (ds_txn_taken_table s, space_txn_taken_spec); (ds_watches_table s, space_watches_spec)].

(** [init] at every boot.  Whatever fails, no table that exists is
    touched; the first creation that fails is the error returned; when [init]
    succeeds with table creation on, each of the four tables is there, as it was
    or empty with the keys the store uses; with it off, nothing is done. *)
Theorem space_init_ready env s :
  names_distinct s →
  let '(s', r) := init env s in
  (∀ t tb, tables (ds_client s) !! t = Some tb → tables (ds_client s') !! t = Some tb) ∧
  (auto_create_enabled env = false → tables (ds_client s') = tables (ds_client s) ∧ r = Ok ()) ∧
  (auto_create_enabled env = true → r = Ok () → ∀ t spec, (t, spec) ∈ space_tables s →
    tables (ds_client s') !! t = Some (default (mkTable spec ∅) (tables (ds_client s) !! t))).
Proof.
  intros Hn. unfold init, init_tables. destruct (auto_create_enabled env); [|done].
  pose proof (ensure_all_effect (ds_client s) (space_tables s) Hn) as He.
  cbn [space_tables fmap list_fmap] in He. change (ensure_step (?t, ?spec)) with (λ d : D, ensure_table d t spec) in He.
  destruct (ensure_all (ds_client s) _) as [d r]. destruct He as (Hkeep & _ & Hin).
  split_and!; [done|done|]. intros _. exact Hin.
Qed.
End boot.

(** ** Concrete runs *)
Section samples.
#[local] Existing Instance canonical_iter.
#[local] Existing Instance rfc_sample.

Definition watch_1 : SpaceWatchRecord := mkWatch "w1" {["kind" := "job"]} Appearance "lw1" [].
Definition watch_2 : SpaceWatchRecord := mkWatch "w2" ∅ Expiration "lw2" [Byte.x01].

Lemma toy_watches : same_watches toy_space SpaceStore.new.
Proof.
  split_and!.
  - split; [vm_compute; reflexivity|by intros i w; cbn; rewrite lookup_empty|apply map_Forall_empty].
  - split; [done|]. intros l id. cbn. rewrite lookup_empty. split; [done|]. intros (w & Hw & _).
    by rewrite lookup_empty in Hw.
  - intros i j w1 w2. cbn. by rewrite lookup_empty.
Qed.

Definition watch_script : list WatchOp :=
  [OpCreateWatch watch_1; OpCreateWatch watch_2; OpRemoveWatchByLease "lw1"; OpRemoveWatch "w9"; OpListWatches].

Theorem dynamo_watches_agree_witness :
  Forall2 same_watch_answer (run_calls ws_apply toy_space watch_script).2
    (run_calls ws_apply SpaceStore.new watch_script).2 ∧
  (run_calls ws_apply toy_space watch_script).2 =
    [ResUnit (Ok ()); ResUnit (Ok ()); ResWatch (Ok (Some watch_1)); ResUnit (Ok ()); ResWatches (Ok [watch_2])].
Proof.
  split; [|vm_compute; reflexivity].
  apply (dynamo_watches_agree toy_space SpaceStore.new watch_script toy_watches).
  split; [|split; [|split; [discriminate|split; [discriminate|split; exact Logic.I]]]].
  - split_and!; [discriminate|discriminate|reflexivity|]. intros id w. cbn. by rewrite lookup_empty.
  - split_and!; [discriminate|discriminate|reflexivity|]. intros id w Hw.
    change (<["w1" := watch_1]> (∅ : watch_map) !! id = Some w) in Hw.
    apply lookup_insert_Some in Hw as [[_ <-]|[_ Hw]]; [discriminate|]. by rewrite lookup_empty in Hw.
Defined.

(** First boot on an empty database, where the creation of the third table
    fails, and the next, where none does. *)
Definition boot_env (k : string) : option string :=
  if String.eqb k "COORDIN8_AUTO_CREATE_TABLES" then Some "TRUE" else None.

Definition bare_space (faulty : list string) (d : ToyDb) : DynamoSpaceStore FlakyDb :=
  with_tables {| fl_now := d; fl_read := d; fl_faults := λ t _, bool_decide (t ∈ faulty) |}
    "tuples" "unc" "taken" "watches".

Theorem space_init_ready_witness :
  let first := init boot_env (bare_space ["taken"] {| toy_tables := ∅; toy_page := 0 |}) in
  let second := init boot_env (bare_space [] (fl_now (ds_client first.1))) in
  first.2 = Err (Storage "create_table failed: throttled") ∧ second.2 = Ok () ∧
  ∀ t spec, (t, spec) ∈ space_tables second.1 → is_Some (tables (ds_client second.1) !! t).
Proof.
  intros first second. split; [vm_compute; reflexivity|]. split; [vm_compute; reflexivity|].
  assert (Hn : names_distinct (bare_space [] (fl_now (ds_client first.1))))
    by (apply (bool_decide_unpack _); vm_compute; exact Logic.I).
  pose proof (space_init_ready boot_env (bare_space [] (fl_now (ds_client first.1))) Hn) as H.
  intros t spec Hin. unfold second.
  assert (Hr : (init boot_env (bare_space [] (fl_now (ds_client first.1)))).2 = Ok ()) by (vm_compute; reflexivity).
  assert (Ht : space_tables (init boot_env (bare_space [] (fl_now (ds_client first.1)))).1 =
    space_tables (bare_space [] (fl_now (ds_client first.1)))) by (vm_compute; reflexivity).
  unfold second in Hin. rewrite Ht in Hin.
  destruct (init boot_env (bare_space [] (fl_now (ds_client first.1)))) as [s' r]. destruct H as (_ & _ & H).
  cbn [fst snd] in *. eexists. exact (H ltac:(vm_compute; reflexivity) Hr t spec Hin).
Defined.
End samples.
