(* ===== verification/Boot.v ===== *)
(** * Boot of the services ([coordin8-djinn/src/services.rs], [main.rs])

    What each command of the binary builds before it serves: the stores the
    environment selects, the landlord of each service, the background tasks, and
    the gRPC services with the port they are mounted on.  A boot sequence is a
    program over the database it prepares and the tasks it has spawned; it ends
    with the node to serve or with the error the process exits with.  What binding
    an address gives is a parameter. *)

From S2P Require Import Prelude CoreTypes LeaseCore Proxy Allowlist Auth.
From S2P Require Import Dynamo DynamoSample DynamoRegistry DynamoLease DynamoTxn DynamoEvent DynamoSpace.

(** ** Environment *)
Definition environment := string → option string.

Definition bind_addr (env : environment) : string := default "0.0.0.0:0" (env "COORDIN8_BIND_ADDR").

Definition advertise_host (env : environment) : string :=
  default "127.0.0.1" (env "COORDIN8_ADVERTISE_HOST").

Definition provider_from_env (env : environment) : string := default "local" (env "COORDIN8_PROVIDER").

(** A bound listener; what [local_addr] answers is the port, or an error. *)
Record TcpListener := { tl_local_addr : result Z string }.

(** ** Boot programs *)

(** The error a process exits with. *)
Inductive BootFailure :=
| FIo (why : string)
| FEnv (why : string)
| FStore (e : Error)
| FAllowlist (why : string).

(** Where a store keeps its data: this process, or these tables. *)
Inductive Backend := InMemory | OnTables (ts : list (string * TableSpec)).

(** [embedded_landlord]: the lease manager of one service and the address it
    stamps on the leases it grants. *)
Record Landlord := {
  ld_namespace : string;
  ld_store : Backend;
  ld_config : LeaseConfig;
  ld_grantor_host : string;
  ld_grantor_port : Z
}.

(** The arguments of [spawn_registration]. *)
Record RegistrationSpec := {
  rs_registry_url : string;
  rs_client_auth : ClientAuthConfig;
  rs_interface : string;
  rs_host : string;
  rs_port : Z;
  rs_ttl_seconds : Z
}.

(** Background tasks.  A cascade reads the reclaims of a landlord; a sweep holds
    the resources of a store against a landlord's leases. *)
Inductive Task :=
| TReaper (l : Landlord)
| TCascade (label : string) (l : Landlord)
| TSweep (label : string) (l : Landlord) (store : Backend)
| TResolve (registry_addr : string)
| TRegister (r : RegistrationSpec).

Inductive Resolver := LocalResolver (store : Backend) | PendingResolver.

Record TxnWiring := {
  tw_store : Backend;
  tw_leases : Landlord;
  tw_client_auth : ClientAuthConfig;
  tw_allowlist : ParticipantAllowlist
}.

Inductive Enlister :=
| LocalEnlister (t : TxnWiring)
| RemoteEnlister (registry_addr : string) (auth : ClientAuthConfig).

Record SpaceWiring := {
  sw_store : Backend;
  sw_leases : Landlord;
  sw_enlister : Enlister;
  sw_participant_endpoint : string
}.

(** The gRPC services; the host and port are those a service puts in the leases
    it returns. *)
Inductive Service :=
| SHealth
| SLease (l : Landlord)
| SRegistry (store : Backend) (leases : Landlord) (host : string) (port : Z)
| SProxy (resolver : Resolver) (config : ProxyConfig) (leases : Landlord) (host : string) (port : Z)
| STxn (t : TxnWiring) (host : string) (port : Z)
| SEvent (store : Backend) (leases : Landlord) (host : string) (port : Z)
| SSpace (s : SpaceWiring) (host : string) (port : Z)
| SParticipant (s : SpaceWiring).

(** A mounted service, with the interceptor in front of it, and whether it was
    given the shutdown signal ([with_shutdown]). *)
Record Mounted := { mt_service : Service; mt_interceptor : option AuthConfig; mt_shutdown : bool }.

Record Server := { sv_port : Z; sv_mounted : list Mounted }.

Inductive ServingStatus := Serving | NotServing.

(** What is served: in bundled mode no health service is mounted. *)
Record Node := {
  nd_name : string;
  nd_servers : list Server;
  nd_registrations : list RegistrationSpec;
  nd_health : option ServingStatus
}.

Section boot.
Context {J : Jwt} {C : Chrono}.
Context {D : Type} {DB : Dynamo D}.

Record Process := { pc_db : D; pc_tasks : list Task }.

Definition boot (A : Type) : Type := Process → Process * result A BootFailure.

Definition boot_ret {A} (a : A) : boot A := λ p, (p, Ok a).
Definition boot_bind {A B} (m : boot A) (k : A → boot B) : boot B :=
  λ p, let '(p', r) := m p in
       match r with Ok a => k a p' | Err e => (p', Err e) end.
Definition lift {A} (r : result A BootFailure) : boot A := λ p, (p, r).

#[local] Notation "'let!' x ':=' m 'in' k" := (boot_bind m (λ x, k))
  (at level 10, x pattern, m at level 100, k at level 200).

Definition spawn (t : Task) : boot unit :=
  λ p, ({| pc_db := pc_db p; pc_tasks := pc_tasks p ++ [t] |}, Ok ()).

(** A client made, a store on it, and its [init]. *)
Definition open_store {X} (init : X → X * result unit Error) (client_of : X → D) (make : D → X)
    (tables_of : X → list (string * TableSpec)) : boot Backend :=
  λ p, let '(s, r) := init (make (pc_db p)) in
       ({| pc_db := client_of s; pc_tasks := pc_tasks p |},
        match r with Ok _ => Ok (OnTables (tables_of s)) | Err e => Err (FStore e) end).

(** ** Stores *)

Definition lease_tables (s : DynamoLeaseStore D) : list (string * TableSpec) :=
  [(dl_table_name s, lease_spec)].
Definition registry_tables (s : DynamoRegistryStore D) : list (string * TableSpec) :=
  [(dr_table_name s, registry_spec)].
Definition event_tables (s : DynamoEventStore D) : list (string * TableSpec) :=
  [(de_sub_table s, event_sub_spec); (de_mailbox_table s, event_mailbox_spec)].
Definition txn_tables (s : DynamoTxnStore D) : list (string * TableSpec) :=
  [(dt_table_name s, txn_spec)].
Definition tuple_tables (s : DynamoSpaceStore D) : list (string * TableSpec) :=
  [(ds_tuple_table s, space_spec); (ds_uncommitted_table s, space_uncommitted_spec);
   (ds_txn_taken_table s, space_txn_taken_spec); (ds_watches_table s, space_watches_spec)].

Definition lease_table_name (namespace : string) : string := "coordin8_leases_" +:+ namespace.

Definition lease_store_from_env (env : environment) (namespace : string) : boot Backend :=
  if String.eqb namespace "proxy" then boot_ret InMemory
  else if String.eqb (provider_from_env env) "dynamo" then
    open_store (DynamoLease.init env) dl_client
      (λ d, DynamoLease.with_table d (lease_table_name namespace)) lease_tables
  else boot_ret InMemory.

Definition registry_store_from_env (env : environment) : boot Backend :=
  if String.eqb (provider_from_env env) "dynamo" then
    open_store (DynamoRegistry.init env) dr_client DynamoRegistry.new registry_tables
  else boot_ret InMemory.

Definition event_store_from_env (env : environment) : boot Backend :=
  if String.eqb (provider_from_env env) "dynamo" then
    open_store (DynamoEvent.init env) de_client DynamoEvent.new event_tables
  else boot_ret InMemory.

Definition txn_store_from_env (env : environment) : boot Backend :=
  if String.eqb (provider_from_env env) "dynamo" then
    open_store (DynamoTxn.init env) dt_client DynamoTxn.new txn_tables
  else boot_ret InMemory.

Definition space_store_from_env (env : environment) : boot Backend :=
  if String.eqb (provider_from_env env) "dynamo" then
    open_store (DynamoSpace.init env) ds_client DynamoSpace.new tuple_tables
  else boot_ret InMemory.

(** ** Landlords, cascades, registrations *)

Definition with_interceptor (s : Service) (auth : AuthConfig) : Mounted :=
  {| mt_service := s; mt_interceptor := Some auth; mt_shutdown := false |}.
Definition with_shutdown (m : Mounted) : Mounted :=
  {| mt_service := mt_service m; mt_interceptor := mt_interceptor m; mt_shutdown := true |}.
Definition health_service : Mounted :=
  {| mt_service := SHealth; mt_interceptor := None; mt_shutdown := false |}.

Definition embedded_landlord (env : environment) (namespace grantor_host : string) (grantor_port : Z)
    (auth_config : AuthConfig) : boot (Landlord * Mounted) :=
  let! store := lease_store_from_env env namespace in
  let manager := {| ld_namespace := namespace; ld_store := store;
                    ld_config := from_env_for env (Some namespace);
                    ld_grantor_host := grantor_host; ld_grantor_port := grantor_port |} in
  let! _ := spawn (TReaper manager) in
  boot_ret (manager, with_shutdown (with_interceptor (SLease manager) auth_config)).

Definition spawn_registration (r : RegistrationSpec) : boot RegistrationSpec :=
  let! _ := spawn (TRegister r) in boot_ret r.

Definition bundled_self_register (env : environment) (interface : string) (port : Z) (auth : AuthConfig)
  : boot RegistrationSpec :=
  spawn_registration {|
    rs_registry_url := "http://localhost:9002"; rs_client_auth := client_config auth interface;
    rs_interface := interface; rs_host := advertise_host env; rs_port := port; rs_ttl_seconds := 30 |}.

(** [format!("{host}:{port}")]. *)
Definition endpoint (host : string) (port : Z) : string := host +:+ ":" +:+ pretty port.

(** ** [run_all], service by service *)
Definition bundled_registry (env : environment) (host : string) (auth_config : AuthConfig) (store : Backend)
  : boot (Landlord * Mounted) :=
  let! (leases, lease_svc) := embedded_landlord env "registry" host 9002 auth_config in
  let! _ := spawn (TCascade "registry" leases) in
  let! _ := spawn (TSweep "registry" leases store) in
  boot_ret (leases, lease_svc).

Definition bundled_event (env : environment) (host : string) (auth_config : AuthConfig) (store : Backend)
  : boot (Landlord * Mounted) :=
  let! (leases, lease_svc) := embedded_landlord env "event" host 9005 auth_config in
  let! _ := spawn (TCascade "event" leases) in
  let! _ := spawn (TSweep "event" leases store) in
  boot_ret (leases, lease_svc).

Definition bundled_proxy (env : environment) (host : string) (auth_config : AuthConfig)
  : boot (Landlord * Mounted) :=
  let! (leases, lease_svc) := embedded_landlord env "proxy" host 9003 auth_config in
  let! _ := spawn (TCascade "proxy" leases) in
  boot_ret (leases, lease_svc).

Definition bundled_txn (env : environment) (host : string) (auth_config : AuthConfig) (store : Backend)
  : boot (TxnWiring * Mounted) :=
  let! (leases, lease_svc) := embedded_landlord env "txn" host 9004 auth_config in
  let! allowlist := lift (map_err FAllowlist
      (txn_participant_allowlist (env "COORDIN8_TXN_PARTICIPANT_ALLOW") (Some (endpoint host 9006)))) in
  let! _ := spawn (TCascade "txn" leases) in
  let! _ := spawn (TSweep "txn" leases store) in
  boot_ret ({| tw_store := store; tw_leases := leases;
               tw_client_auth := client_config auth_config "txn"; tw_allowlist := allowlist |}, lease_svc).

Definition bundled_space (env : environment) (host : string) (auth_config : AuthConfig) (store : Backend)
    (txn : TxnWiring) : boot (SpaceWiring * Mounted) :=
  let! (leases, lease_svc) := embedded_landlord env "space" host 9006 auth_config in
  let! _ := spawn (TCascade "space" leases) in
  let! _ := spawn (TSweep "space" leases store) in
  boot_ret ({| sw_store := store; sw_leases := leases; sw_enlister := LocalEnlister txn;
               sw_participant_endpoint := endpoint host 9006 |}, lease_svc).

(** The services on their ports, each with its lease service. *)
Definition bundled_servers (auth_config : AuthConfig) (host : string) (proxy_config : ProxyConfig)
    (registry_store event_store : Backend) (registry_leases event_leases proxy_leases : Landlord)
    (txn : TxnWiring) (space : SpaceWiring)
    (lease_registry lease_event lease_proxy lease_txn lease_space : Mounted) : list Server :=
  let mount s := with_interceptor s auth_config in
  [{| sv_port := 9002;
      sv_mounted := [with_shutdown (mount (SRegistry registry_store registry_leases host 9002)); lease_registry] |};
   {| sv_port := 9003;
      sv_mounted := [mount (SProxy (LocalResolver registry_store) proxy_config proxy_leases host 9003);
                     lease_proxy] |};
   {| sv_port := 9004; sv_mounted := [mount (STxn txn host 9004); lease_txn] |};
   {| sv_port := 9005;
      sv_mounted := [with_shutdown (mount (SEvent event_store event_leases host 9005)); lease_event] |};
   {| sv_port := 9006;
      sv_mounted := [with_shutdown (mount (SSpace space host 9006)); mount (SParticipant space); lease_space] |}].

Definition bundled_registrations (env : environment) (auth_config : AuthConfig) : boot (list RegistrationSpec) :=
  let! event_reg := bundled_self_register env "EventMgr" 9005 auth_config in
  let! proxy_reg := bundled_self_register env "Proxy" 9003 auth_config in
  let! txn_reg := bundled_self_register env "TransactionMgr" 9004 auth_config in
  let! space_reg := bundled_self_register env "Space" 9006 auth_config in
  boot_ret [event_reg; proxy_reg; txn_reg; space_reg].

Definition run_all (env : environment) : boot Node :=
  let! registry_store := registry_store_from_env env in
  let! event_store := event_store_from_env env in
  let! txn_store := txn_store_from_env env in
  let! space_store := space_store_from_env env in
  let host := advertise_host env in
  let auth_config := auth_from_env env in
  let! (registry_leases, lease_registry) := bundled_registry env host auth_config registry_store in
  let! (event_leases, lease_event) := bundled_event env host auth_config event_store in
  let! (proxy_leases, lease_proxy) := bundled_proxy env host auth_config in
  let! (txn, lease_txn) := bundled_txn env host auth_config txn_store in
  let! (space, lease_space) := bundled_space env host auth_config space_store txn in
  let! registrations := bundled_registrations env auth_config in
  boot_ret {|
    nd_name := "Djinn";
    nd_servers := bundled_servers auth_config host (proxy_from_env env) registry_store event_store
                    registry_leases event_leases proxy_leases txn space
                    lease_registry lease_event lease_proxy lease_txn lease_space;
    nd_registrations := registrations;
    nd_health := None |}.

(** ** Split mode, on a bound listener *)

(** [listener.local_addr()?.port()]. *)
Definition local_port (listener : TcpListener) : boot Z := lift (map_err FIo (tl_local_addr listener)).

Definition run_registry_on_listener (env : environment) (listener : TcpListener) : boot Node :=
  let! port := local_port listener in
  let host := advertise_host env in
  let auth_config := auth_from_env env in
  let! registry_store := registry_store_from_env env in
  let! (leases, lease_svc) := embedded_landlord env "registry" host port auth_config in
  let! _ := spawn (TCascade "registry" leases) in
  let! _ := spawn (TSweep "registry" leases registry_store) in
  let registry_svc := with_shutdown (with_interceptor (SRegistry registry_store leases host port) auth_config) in
  boot_ret {|
    nd_name := "registry";
    nd_servers := [{| sv_port := port; sv_mounted := [health_service; registry_svc; lease_svc] |}];
    nd_registrations := []; nd_health := Some Serving |}.

Definition run_event_on_listener (env : environment) (listener : TcpListener)
    (registry_addr advertise_host : string) (self_lease_ttl : Z) : boot Node :=
  let! advertise_port := local_port listener in
  let auth_config := auth_from_env env in
  let! (leases, lease_svc) := embedded_landlord env "event" advertise_host advertise_port auth_config in
  let! event_store := event_store_from_env env in
  let! _ := spawn (TCascade "event" leases) in
  let! _ := spawn (TSweep "event" leases event_store) in
  let event_svc := with_shutdown
    (with_interceptor (SEvent event_store leases advertise_host advertise_port) auth_config) in
  let! registration := spawn_registration {|
    rs_registry_url := registry_addr; rs_client_auth := client_config auth_config "EventMgr";
    rs_interface := "EventMgr"; rs_host := advertise_host; rs_port := advertise_port;
    rs_ttl_seconds := self_lease_ttl |} in
  boot_ret {|
    nd_name := "event";
    nd_servers := [{| sv_port := advertise_port; sv_mounted := [health_service; event_svc; lease_svc] |}];
    nd_registrations := [registration]; nd_health := Some Serving |}.

Definition run_space_on_listener (env : environment) (listener : TcpListener)
    (registry_addr advertise_host : string) (self_lease_ttl : Z) : boot Node :=
  let! advertise_port := local_port listener in
  let auth_config := auth_from_env env in
  let! (leases, lease_svc) := embedded_landlord env "space" advertise_host advertise_port auth_config in
  let enlister := RemoteEnlister registry_addr (client_config auth_config "space") in
  let! space_store := space_store_from_env env in
  let space := {| sw_store := space_store; sw_leases := leases; sw_enlister := enlister;
                  sw_participant_endpoint := endpoint advertise_host advertise_port |} in
  let! _ := spawn (TCascade "space" leases) in
  let! _ := spawn (TSweep "space" leases space_store) in
  let! registration := spawn_registration {|
    rs_registry_url := registry_addr; rs_client_auth := client_config auth_config "Space";
    rs_interface := "Space"; rs_host := advertise_host; rs_port := advertise_port;
    rs_ttl_seconds := self_lease_ttl |} in
  boot_ret {|
    nd_name := "space";
    nd_servers := [{| sv_port := advertise_port;
                      sv_mounted := [health_service;
                                     with_shutdown (with_interceptor (SSpace space advertise_host advertise_port) auth_config);
                                     with_interceptor (SParticipant space) auth_config; lease_svc] |}];
    nd_registrations := [registration]; nd_health := Some Serving |}.

Definition run_txn_on_listener (env : environment) (listener : TcpListener)
    (registry_addr advertise_host : string) (self_lease_ttl : Z) : boot Node :=
  let! advertise_port := local_port listener in
  let auth_config := auth_from_env env in
  let! (leases, lease_svc) := embedded_landlord env "txn" advertise_host advertise_port auth_config in
  let! txn_store := txn_store_from_env env in
  let! txn_allowlist := lift (map_err FAllowlist
      (txn_participant_allowlist (env "COORDIN8_TXN_PARTICIPANT_ALLOW") None)) in
  let txn := {| tw_store := txn_store; tw_leases := leases;
                tw_client_auth := client_config auth_config "txn"; tw_allowlist := txn_allowlist |} in
  let! _ := spawn (TCascade "txn" leases) in
  let! _ := spawn (TSweep "txn" leases txn_store) in
  let! registration := spawn_registration {|
    rs_registry_url := registry_addr; rs_client_auth := client_config auth_config "TransactionMgr";
    rs_interface := "TransactionMgr"; rs_host := advertise_host; rs_port := advertise_port;
    rs_ttl_seconds := self_lease_ttl |} in
  boot_ret {|
    nd_name := "txn";
    nd_servers := [{| sv_port := advertise_port;
                      sv_mounted := [health_service;
                                     with_interceptor (STxn txn advertise_host advertise_port) auth_config;
                                     lease_svc] |}];
    nd_registrations := [registration]; nd_health := Some Serving |}.

Definition run_proxy_on_listener (env : environment) (listener : TcpListener)
    (registry_addr advertise_host : string) (self_lease_ttl : Z) : boot Node :=
  let! advertise_port := local_port listener in
  let auth_config := auth_from_env env in
  let proxy_config := proxy_from_env env in
  let! (leases, lease_svc) := embedded_landlord env "proxy" advertise_host advertise_port auth_config in
  let! _ := spawn (TCascade "proxy" leases) in
  let! _ := spawn (TResolve registry_addr) in
  let proxy_svc := with_interceptor
    (SProxy PendingResolver proxy_config leases advertise_host advertise_port) auth_config in
  let! registration := spawn_registration {|
    rs_registry_url := registry_addr; rs_client_auth := client_config auth_config "Proxy";
    rs_interface := "Proxy"; rs_host := advertise_host; rs_port := advertise_port;
    rs_ttl_seconds := self_lease_ttl |} in
  boot_ret {|
    nd_name := "proxy";
    nd_servers := [{| sv_port := advertise_port; sv_mounted := [health_service; proxy_svc; lease_svc] |}];
    nd_registrations := [registration]; nd_health := Some NotServing |}.

(** ** The commands of [main] *)
Context (bind : string → result TcpListener string).

Definition bind_tcp (env : environment) : boot TcpListener := lift (map_err FIo (bind (bind_addr env))).

Definition need_registry (env : environment) (what : string) : boot string :=
  lift (ok_or (FEnv ("COORDIN8_REGISTRY must be set for split-mode " +:+ what)) (env "COORDIN8_REGISTRY")).

Definition run_registry (env : environment) : boot Node :=
  let! listener := bind_tcp env in
  let! _ := local_port listener in
  run_registry_on_listener env listener.

Definition run_event (env : environment) : boot Node :=
  let! listener := bind_tcp env in
  let host := advertise_host env in
  let! registry_addr := need_registry env "EventMgr" in
  run_event_on_listener env listener registry_addr host 30.

Definition run_space (env : environment) : boot Node :=
  let! listener := bind_tcp env in
  let host := advertise_host env in
  let! registry_addr := need_registry env "Space" in
  run_space_on_listener env listener registry_addr host 30.

Definition run_txn (env : environment) : boot Node :=
  let! listener := bind_tcp env in
  let host := advertise_host env in
  let! registry_addr := need_registry env "TransactionMgr" in
  run_txn_on_listener env listener registry_addr host 30.

Definition run_proxy (env : environment) : boot Node :=
  let! listener := bind_tcp env in
  let host := advertise_host env in
  let! registry_addr := need_registry env "Proxy" in
  run_proxy_on_listener env listener registry_addr host 30.

Inductive Command := CAll | CRegistry | CEvent | CSpace | CTxn | CProxy.

(** The name a process traces under. *)
Definition service_name (command : option Command) : string :=
  match command with
  | None | Some CAll => "coordin8-djinn"
  | Some CRegistry => "coordin8-registry"
  | Some CEvent => "coordin8-event"
  | Some CSpace => "coordin8-space"
  | Some CTxn => "coordin8-txn"
  | Some CProxy => "coordin8-proxy"
  end.

(** The boot of [main]'s dispatch; no subcommand is [All]. *)
Definition main_boot (command : option Command) (env : environment) : boot Node :=
  match command with
  | None | Some CAll => run_all env
  | Some CRegistry => run_registry env
  | Some CEvent => run_event env
  | Some CSpace => run_space env
  | Some CTxn => run_txn env
  | Some CProxy => run_proxy env
  end.
End boot.
Arguments Process D : clear implicits.
Arguments boot D A : clear implicits.
