(* ===== verification/BootWiring.v ===== *)
(** * What a booted node looks like

    Theorems on the boot sequences of [Boot]: every lease carries the address of
    a server that renews it, every announcement names a server that offers the
    interface, every service sits behind the interceptor, lease tables are not
    shared, and a boot that fails has announced nothing. *)

From S2P Require Import Prelude CoreTypes LeaseCore Proxy Allowlist Auth.
From S2P Require Import Dynamo DynamoSample DynamoRegistry DynamoLease DynamoTxn DynamoEvent DynamoSpace.
From S2P Require Import Boot.

(** ** Descriptions *)

(** The landlord a service grants from, with the address it answers. *)
Definition grants_from (s : Service) : option (Landlord * string * Z) :=
  match s with
  | SRegistry _ l h p | SProxy _ _ l h p | SEvent _ l h p => Some (l, h, p)
  | STxn t h p => Some (tw_leases t, h, p)
  | SSpace s h p => Some (sw_leases s, h, p)
  | SHealth | SLease _ | SParticipant _ => None
  end.

(** The store a service works on, if it has one of its own. *)
Definition data_of (s : Service) : option Backend :=
  match s with
  | SRegistry b _ _ _ | SEvent b _ _ _ => Some b
  | STxn t _ _ => Some (tw_store t)
  | SSpace s _ _ => Some (sw_store s)
  | SHealth | SLease _ | SParticipant _ | SProxy _ _ _ _ _ => None
  end.

(** The interface under which a service is looked up in the Registry. *)
Definition interface_of (s : Service) : option string :=
  match s with
  | SEvent _ _ _ _ => Some "EventMgr"
  | SProxy _ _ _ _ _ => Some "Proxy"
  | STxn _ _ _ => Some "TransactionMgr"
  | SSpace _ _ _ => Some "Space"
  | SHealth | SLease _ | SParticipant _ | SRegistry _ _ _ _ => None
  end.

(** The services with a streaming call that stays open ([WatchExpiry], [Watch],
    [Receive], [Notify]). *)
Definition streams (s : Service) : bool :=
  match s with
  | SLease _ | SRegistry _ _ _ _ | SEvent _ _ _ _ | SSpace _ _ _ => true
  | SHealth | SParticipant _ | SProxy _ _ _ _ _ | STxn _ _ _ => false
  end.

Definition offered (sv : Server) : list Service := mt_service <$> sv_mounted sv.

Definition backend_tables (b : Backend) : list string :=
  match b with InMemory => [] | OnTables ts => ts.*1 end.

Definition is_registration (t : Task) : bool := match t with TRegister _ => true | _ => false end.

(** The landlords and the data stores of a node. *)
Definition landlord_of (n : Node) (l : Landlord) : Prop :=
  ∃ sv, sv ∈ nd_servers n ∧ SLease l ∈ offered sv.
Definition data_store_of (n : Node) (b : Backend) : Prop :=
  ∃ sv s, sv ∈ nd_servers n ∧ s ∈ offered sv ∧ data_of s = Some b.

(** One mounted service of a server. *)
Record mounted_ok (auth : AuthConfig) (host : string) (tasks : list Task) (sv : Server) (m : Mounted)
  : Prop := {
  mo_auth : mt_interceptor m = match mt_service m with SHealth => None | _ => Some auth end;
  mo_shutdown : mt_shutdown m = streams (mt_service m);
  mo_lease : ∀ l, mt_service m = SLease l →
    ld_grantor_host l = host ∧ ld_grantor_port l = sv_port sv ∧
    TReaper l ∈ tasks ∧ TCascade (ld_namespace l) l ∈ tasks;
  mo_grants : ∀ l h p, grants_from (mt_service m) = Some (l, h, p) →
    h = host ∧ p = sv_port sv ∧ SLease l ∈ offered sv;
  mo_sweep : ∀ l h p b, grants_from (mt_service m) = Some (l, h, p) → data_of (mt_service m) = Some b →
    TSweep (ld_namespace l) l b ∈ tasks;
  mo_space : ∀ s h p, mt_service m = SSpace s h p →
    sw_participant_endpoint s = endpoint host (sv_port sv) ∧ SParticipant s ∈ offered sv
}.

(** What a registration announces is there. *)
Definition announced_ok (host : string) (n : Node) (r : RegistrationSpec) : Prop :=
  rs_host r = host ∧
  ∃ sv s, sv ∈ nd_servers n ∧ sv_port sv = rs_port r ∧ s ∈ offered sv ∧ interface_of s = Some (rs_interface r).

Record wired (env : environment) (old tasks : list Task) (n : Node) : Prop := {
  wi_mounted : Forall (λ sv, Forall (mounted_ok (auth_from_env env) (advertise_host env) tasks sv) (sv_mounted sv))
                 (nd_servers n);
  wi_announced : Forall (announced_ok (advertise_host env) n) (nd_registrations n);
  wi_every : ∀ sv s i, sv ∈ nd_servers n → s ∈ offered sv → interface_of s = Some i →
    i ∈ rs_interface <$> nd_registrations n;
  wi_tasks : ∃ others, tasks = old ++ others ++ (TRegister <$> nd_registrations n) ∧
    Forall (λ t, is_registration t = false) others
}.

(** The backends of a node. *)
Definition lease_backend_ok (l : Landlord) : Prop :=
  (ld_store l = InMemory ∨ ld_store l = OnTables [(lease_table_name (ld_namespace l), lease_spec)]) ∧
  (ld_namespace l = "proxy" → ld_store l = InMemory).

Definition data_backends : list (list (string * TableSpec)) :=
  [[(REGISTRY_TABLE, registry_spec)];
   [(EVENT_SUB_TABLE, event_sub_spec); (EVENT_MAILBOX_TABLE, event_mailbox_spec)];
   [(TXN_TABLE, txn_spec)];
   [(SPACE_TABLE, space_spec); (SPACE_UNCOMMITTED_TABLE, space_uncommitted_spec);
    (SPACE_TXN_TAKEN_TABLE, space_txn_taken_spec); (SPACE_WATCHES_TABLE, space_watches_spec)]].

Definition data_backend_ok (b : Backend) : Prop :=
  b = InMemory ∨ ∃ ts, b = OnTables ts ∧ ts ∈ data_backends.

(** ** Reasoning about boot programs *)
Section wiring.
Context {J : Jwt} {C : Chrono}.
Context {D : Type} {DB : Dynamo D} {DV : DynamoView D} {DL : DynamoLaws D}.
Context (bind : string → result TcpListener string).
Implicit Types (p : Process D) (d : D).

(** [m] from [p]: it ends in [Q], or fails in [E]. *)
Definition yields {A} (m : boot D A) p (Q : A → Process D → Prop)
    (E : BootFailure → Process D → Prop) : Prop :=
  match m p with (p', Ok a) => Q a p' | (p', Err e) => E e p' end.

Lemma yields_ret {A} (a : A) p (Q : A → Process D → Prop) (E : BootFailure → Process D → Prop) :
  Q a p → yields (boot_ret a) p Q E.
Proof. done. Qed.

Lemma yields_bind {A B} (m : boot D A) (k : A → boot D B) p Q E :
  yields m p (λ a p', yields (k a) p' Q E) E → yields (boot_bind m k) p Q E.
Proof. unfold yields, boot_bind. by destruct (m p) as [p' []]. Qed.

Lemma yields_spawn t p (Q : unit → Process D → Prop) (E : BootFailure → Process D → Prop) :
  Q () {| pc_db := pc_db p; pc_tasks := pc_tasks p ++ [t] |} → yields (spawn t) p Q E.
Proof. done. Qed.

Lemma yields_lift {A} (r : result A BootFailure) p Q (E : BootFailure → Process D → Prop) :
  (∀ a, r = Ok a → Q a p) → (∀ e, r = Err e → E e p) → yields (lift r) p Q E.
Proof. unfold yields, lift. destruct r; auto. Qed.

(** The tables of the program, with their keys. *)
Definition known (t : string) (spec : TableSpec) : Prop :=
  (∃ ts, ts ∈ data_backends ∧ (t, spec) ∈ ts) ∨ (spec = lease_spec ∧ ∃ ns, t = lease_table_name ns).

(** The database after a boot: what was there is kept, what is new is empty and
    has the keys of its name. *)
Definition grows d d' : Prop :=
  (∀ t tb, tables d !! t = Some tb → tables d' !! t = Some tb) ∧
  (∀ t tb, tables d !! t = None → tables d' !! t = Some tb → tb_rows tb = ∅ ∧ known t (tb_spec tb)).

Definition ready d (b : Backend) : Prop := ∀ t, t ∈ backend_tables b → is_Some (tables d !! t).

Lemma grows_refl d : grows d d.
Proof. split; [done|]. intros t tb Hn Hs. congruence. Qed.

Lemma grows_trans d1 d2 d3 : grows d1 d2 → grows d2 d3 → grows d1 d3.
Proof.
  intros [K1 N1] [K2 N2]. split; [by auto|]. intros t tb Hn Hs.
  destruct (tables d2 !! t) as [tb'|] eqn:E; [|eauto].
  rewrite (K2 _ _ E) in Hs. injection Hs as <-. eauto.
Qed.

Lemma ready_grows d d' b : grows d d' → ready d b → ready d' b.
Proof. intros [K _] Hr t [tb Ht]%Hr. exists tb. auto. Qed.

(** A step that makes sure of one table. *)
Definition ensures (f : D → D * result unit string) (ts : string * TableSpec) : Prop :=
  ∀ d, let '(d', r) := f d in grows d d' ∧ (is_ok r = true → is_Some (tables d' !! ts.1)).

Lemma ensure_table_ensures t spec : known t spec → ensures (λ d, ensure_table d t spec) (t, spec).
Proof.
  intros Hk d. pose proof (ensure_table_effect d t spec) as He.
  destruct (ensure_table d t spec) as [d' r]. destruct He as (Ho & Ht & Hr). split; [split|].
  - intros t' tb Htb. destruct (decide (t' = t)) as [->|]; [|by rewrite Ho].
    destruct Ht as [->|[Hn _]]; [done|congruence].
  - intros t' tb Hn Htb. destruct (decide (t' = t)) as [->|]; [|rewrite Ho in Htb; congruence].
    destruct Ht as [E|[_ E]]; rewrite E in Htb; [congruence|]. by injection Htb as <-.
  - destruct r as [[]|]; [|done]. intros _. cbn. rewrite Hr by done. eauto.
Qed.

Lemma ensure_lease_ensures ns :
  ensures (λ d, ensure_lease_table d (lease_table_name ns)) (lease_table_name ns, lease_spec).
Proof.
  intros d. unfold ensure_lease_table.
  pose proof (ensure_table_ensures (lease_table_name ns) lease_spec) as He.
  specialize (He ltac:(right; eauto) d). cbv beta in He.
  destruct (ensure_table _ _ _) as [d1 [[]|e]]; destruct He as [Hg Hr]; [|by split]. pose proof (update_ttl_law d1 (lease_table_name ns) "ttl") as Ht.
  destruct (update_time_to_live _ _ _) as [d2 ?]. cbn in Ht.
  unfold grows. by rewrite Ht.
Qed.

Lemma init_tables_ready env d steps ts :
  Forall2 ensures steps ts →
  let '(d', r) := init_tables env d steps in
  grows d d' ∧ (is_ok r = true → auto_create_enabled env = true → ready d' (OnTables ts)).
Proof.
  intros Hs. unfold init_tables. destruct (auto_create_enabled env); [|by split; [apply grows_refl|]].
  revert d. induction Hs as [|f [t spec] steps ts Hf _ IH]; intros d; cbn [ensure_all].
  { split; [apply grows_refl|]. intros _ _ t []%elem_of_nil. }
  specialize (Hf d). destruct (f d) as [d1 [[]|e]]; destruct Hf as [Hg Hr]; [|by split].
  specialize (IH d1). destruct (ensure_all d1 steps) as [d2 r]. destruct IH as [Hg2 Hr2].
  split; [by eapply grows_trans|]. intros Hok Ha t'. cbn. intros [->|Hin]%elem_of_cons.
  - destruct (Hr eq_refl) as [tb Ht]. exists tb. by apply Hg2.
  - by apply Hr2.
Qed.

(** What opening a store does, whatever the provider. *)
Definition opens (env : environment) d d' (b : Backend) : Prop :=
  grows d d' ∧ (auto_create_enabled env = true → ready d' b).

Definition opens_with (env : environment) (ok : Backend → Prop) (m : boot D Backend) : Prop :=
  ∀ p Q (E : BootFailure → Process D → Prop),
  (∀ b d', opens env (pc_db p) d' b → ok b → Q b {| pc_db := d'; pc_tasks := pc_tasks p |}) →
  (∀ e d', grows (pc_db p) d' → E e {| pc_db := d'; pc_tasks := pc_tasks p |}) →
  yields m p Q E.

Lemma opens_in_memory env (ok : Backend → Prop) : ok InMemory → opens_with env ok (boot_ret InMemory).
Proof.
  intros Hok [d ts] Q E HQ _. apply yields_ret, (HQ InMemory); [|done].
  split; [apply grows_refl|]. intros _ t []%elem_of_nil.
Qed.

Lemma opens_on_tables {X} env (ok : Backend → Prop) (init : X → X * result unit Error) client_of make tables_of steps ts :
  (∀ d, init (make d) = (let '(d', r) := init_tables env d steps in (make d', r))) →
  (∀ d, client_of (make d) = d) → (∀ d, tables_of (make d) = ts) →
  Forall2 ensures steps ts → ok (OnTables ts) →
  opens_with env ok (open_store init client_of make tables_of).
Proof.
  intros Hi Hc Ht Hs Hok [d tasks] Q E HQ HE. unfold yields, open_store. cbn. rewrite Hi.
  pose proof (init_tables_ready env d steps ts Hs) as Hr.
  destruct (init_tables env d steps) as [d' r]. destruct Hr as [Hg Hr]. rewrite Hc, Ht.
  destruct r as [u|e]; [|by apply HE]. apply (HQ (OnTables ts)); [|done]. split; auto.
Qed.

Lemma data_known ts t spec : ts ∈ data_backends → (t, spec) ∈ ts → known t spec.
Proof. intros H1 H2. left. eauto. Qed.

Lemma opens_on_data {X} env (init : X → X * result unit Error) client_of make tables_of ts :
  ts ∈ data_backends →
  (∀ d, init (make d) = (let '(d', r) := init_tables env d (ensure_step <$> ts) in (make d', r))) →
  (∀ d, client_of (make d) = d) → (∀ d, tables_of (make d) = ts) →
  opens_with env data_backend_ok
    (if String.eqb (provider_from_env env) "dynamo" then open_store init client_of make tables_of
     else boot_ret InMemory).
Proof.
  intros Hin Hi Hc Ht. destruct (String.eqb _ _); [|by apply opens_in_memory; left].
  eapply opens_on_tables; [done..| |by right; eauto].
  apply Forall2_fmap_l, Forall_Forall2_diag, Forall_forall. intros [t spec] Hts.
  apply ensure_table_ensures. by eapply data_known.
Qed.

Ltac opens_data k :=
  apply opens_on_data with (ts := default [] (data_backends !! k));
  [apply (list_elem_of_lookup_2 _ k)|..]; reflexivity.

Lemma registry_store_opens env : opens_with env data_backend_ok (registry_store_from_env env).
Proof. opens_data 0. Qed.
Lemma event_store_opens env : opens_with env data_backend_ok (event_store_from_env env).
Proof. opens_data 1. Qed.
Lemma txn_store_opens env : opens_with env data_backend_ok (txn_store_from_env env).
Proof. opens_data 2. Qed.
Lemma space_store_opens env : opens_with env data_backend_ok (space_store_from_env env).
Proof. opens_data 3. Qed.

Definition lease_backend_of (ns : string) (b : Backend) : Prop :=
  (b = InMemory ∨ b = OnTables [(lease_table_name ns, lease_spec)]) ∧ (ns = "proxy" → b = InMemory).

Lemma lease_store_opens env ns : opens_with env (lease_backend_of ns) (lease_store_from_env env ns).
Proof.
  unfold lease_store_from_env. destruct (String.eqb_spec ns "proxy") as [->|Hne].
  { apply opens_in_memory. split; auto. }
  destruct (String.eqb _ _); [|apply opens_in_memory; split; auto].
  apply opens_on_tables with (steps := [λ d, ensure_lease_table d (lease_table_name ns)])
    (ts := [(lease_table_name ns, lease_spec)]);
    [intros d; reflexivity|reflexivity|reflexivity| |split; [by right|done]].
  constructor; [apply ensure_lease_ensures|constructor].
Qed.

Lemma yields_landlord env ns host port auth p Q E :
  (∀ b d', opens env (pc_db p) d' b → lease_backend_of ns b →
    let l := {| ld_namespace := ns; ld_store := b; ld_config := from_env_for env (Some ns);
                ld_grantor_host := host; ld_grantor_port := port |} in
    Q (l, with_shutdown (with_interceptor (SLease l) auth))
      {| pc_db := d'; pc_tasks := pc_tasks p ++ [TReaper l] |}) →
  (∀ e d', grows (pc_db p) d' → E e {| pc_db := d'; pc_tasks := pc_tasks p |}) →
  yields (embedded_landlord env ns host port auth) p Q E.
Proof.
  intros HQ HE. unfold embedded_landlord. apply yields_bind, lease_store_opens; [|done].
  intros b d' Ho Hb. apply yields_bind, yields_spawn, yields_ret. by apply HQ.
Qed.
(** ** Every command *)

(** A boot that succeeded. *)
Record booted (env : environment) p (n : Node) p' : Prop := {
  bt_wired : wired env (pc_tasks p) (pc_tasks p') n;
  bt_grows : grows (pc_db p) (pc_db p');
  bt_leases : ∀ l, landlord_of n l →
    lease_backend_of (ld_namespace l) (ld_store l) ∧
    (auto_create_enabled env = true → ready (pc_db p') (ld_store l));
  bt_data : ∀ b, data_store_of n b →
    data_backend_ok b ∧ (auto_create_enabled env = true → ready (pc_db p') b);
  bt_single : is_Some (nd_health n) → (length (nd_registrations n) ≤ 1)%nat
}.

(** A boot that failed. *)
Definition failed p (e : BootFailure) p' : Prop :=
  grows (pc_db p) (pc_db p') ∧
  ∃ others, pc_tasks p' = pc_tasks p ++ others ∧ Forall (λ t, is_registration t = false) others.

Lemma booted_intro env p n p' others :
  Forall (λ sv, Forall (mounted_ok (auth_from_env env) (advertise_host env) (pc_tasks p') sv) (sv_mounted sv))
    (nd_servers n) →
  Forall (announced_ok (advertise_host env) n) (nd_registrations n) →
  Forall (λ sv, Forall (λ s, from_option (λ i, i ∈ rs_interface <$> nd_registrations n) True (interface_of s))
    (offered sv)) (nd_servers n) →
  pc_tasks p' = pc_tasks p ++ others ++ (TRegister <$> nd_registrations n) →
  Forall (λ t, is_registration t = false) others →
  grows (pc_db p) (pc_db p') →
  Forall (λ sv, Forall (λ s,
    match s with
    | SLease l => lease_backend_of (ld_namespace l) (ld_store l) ∧
        (auto_create_enabled env = true → ready (pc_db p') (ld_store l))
    | _ => True
    end ∧
    from_option (λ b, data_backend_ok b ∧ (auto_create_enabled env = true → ready (pc_db p') b)) True (data_of s))
    (offered sv)) (nd_servers n) →
  (is_Some (nd_health n) → (length (nd_registrations n) ≤ 1)%nat) →
  booted env p n p'.
Proof.
  intros Hm Ha Hi Ht Ho Hg Hb Hone. split; [split; [done|done| |by exists others]|done|..|done].
  - intros sv s i Hsv Hs E. rewrite Forall_forall in Hi. specialize (Hi sv Hsv).
    rewrite Forall_forall in Hi. specialize (Hi s Hs). by rewrite E in Hi.
  - intros l (sv & Hsv & Hs). rewrite Forall_forall in Hb. specialize (Hb sv Hsv).
    rewrite Forall_forall in Hb. by specialize (Hb _ Hs) as [? _].
  - intros b (sv & s & Hsv & Hs & E). rewrite Forall_forall in Hb. specialize (Hb sv Hsv).
    rewrite Forall_forall in Hb. specialize (Hb _ Hs) as [_ Hb]. by rewrite E in Hb.
Qed.

(** Running a boot program: each fallible stage leaves its failure to [boot_fail]. *)
Ltac grows_chain :=
  first [assumption | apply grows_refl | eapply grows_trans; [eassumption|grows_chain]].

Ltac boot_fail :=
  first
    [ exact Logic.I
    | cbn [pc_db pc_tasks] in *; split; cbn [pc_db pc_tasks]; [grows_chain|];
      eexists; split; [rewrite <- ?app_assoc; cbn; first [reflexivity|by rewrite app_nil_r]|];
      repeat constructor ].

Ltac opened := intros ? ? [? ?] ?; cbn [pc_db pc_tasks] in *.

Ltac boot_stage :=
  cbv zeta;
  lazymatch goal with
  | |- yields (boot_bind _ _) _ _ _ => apply yields_bind
  | |- yields (boot_ret _) _ _ _ => apply yields_ret
  | |- yields (spawn _) _ _ _ => apply yields_spawn
  | |- yields (lift _) _ _ _ => apply yields_lift; [intros ? ?|intros ? ?; boot_fail]
  | |- yields (embedded_landlord _ _ _ _ _) _ _ _ => apply yields_landlord; [opened|intros ? ? ?; boot_fail]
  | |- yields (registry_store_from_env _) _ _ _ => apply registry_store_opens; [opened|intros ? ? ?; boot_fail]
  | |- yields (event_store_from_env _) _ _ _ => apply event_store_opens; [opened|intros ? ? ?; boot_fail]
  | |- yields (txn_store_from_env _) _ _ _ => apply txn_store_opens; [opened|intros ? ? ?; boot_fail]
  | |- yields (space_store_from_env _) _ _ _ => apply space_store_opens; [opened|intros ? ? ?; boot_fail]
  end.

Ltac find_elem :=
  first [ apply list_elem_of_here | apply list_elem_of_further; find_elem
        | apply elem_of_app; first [right; find_elem|left; find_elem] ].

Ltac each_elem := repeat first [apply Forall_nil_2 | apply Forall_cons_2].

Ltac fact := intros; simplify_eq; split_and?; first [reflexivity|find_elem].

Ltac split_tasks :=
  match goal with
  | |- ?t = ?p ++ ?o ++ (TRegister <$> ?r) =>
      cbn [app]; apply (f_equal (app p));
      match goal with |- ?l = _ =>
        let k := eval cbn [length Nat.sub] in (length l - length r)%nat in
        let x := eval cbn [take] in (take k l) in
        unify o x
      end; cbn [app fmap list_fmap]; first [reflexivity|rewrite app_nil_r; reflexivity]
  end.

Ltac backend_done :=
  split; cbn [from_option data_of sw_store tw_store ld_namespace ld_store];
  first [ exact Logic.I
        | split; [assumption|]; intros Hauto; eapply ready_grows; [|eauto]; grows_chain ].

Ltac pick := apply list_elem_of_here + (apply list_elem_of_further; pick).

Ltac announced :=
  split; [reflexivity|]; cbn [rs_port rs_interface nd_servers];
  do 2 eexists; once (split_and!; [pick|reflexivity|cbn; pick|reflexivity]).

Ltac boot_done :=
  cbn [pc_db pc_tasks]; rewrite <- ?app_assoc; eapply booted_intro; cbn [nd_servers nd_registrations sv_mounted offered pc_db pc_tasks];
  [ each_elem; constructor; cbn; fact
  | each_elem; announced
  | each_elem; cbn; try exact Logic.I; find_elem
  | split_tasks
  | each_elem; reflexivity
  | grows_chain
  | each_elem; backend_done
  | cbn; intros []; first [discriminate|lia] ].

Lemma run_registry_yields env p : yields (run_registry bind env) p (booted env p) (failed p).
Proof.
  unfold run_registry, run_registry_on_listener, bind_tcp, local_port.
  repeat boot_stage. boot_done.
Qed.

Lemma run_event_yields env p : yields (run_event bind env) p (booted env p) (failed p).
Proof.
  unfold run_event, run_event_on_listener, bind_tcp, local_port, need_registry, spawn_registration.
  repeat boot_stage. boot_done.
Qed.

Lemma run_space_yields env p : yields (run_space bind env) p (booted env p) (failed p).
Proof.
  unfold run_space, run_space_on_listener, bind_tcp, local_port, need_registry, spawn_registration.
  repeat boot_stage. boot_done.
Qed.

Lemma run_txn_yields env p : yields (run_txn bind env) p (booted env p) (failed p).
Proof.
  unfold run_txn, run_txn_on_listener, bind_tcp, local_port, need_registry, spawn_registration.
  repeat boot_stage. boot_done.
Qed.

Lemma run_proxy_yields env p : yields (run_proxy bind env) p (booted env p) (failed p).
Proof.
  unfold run_proxy, run_proxy_on_listener, bind_tcp, local_port, need_registry, spawn_registration.
  repeat boot_stage. boot_done.
Qed.

Lemma run_all_yields env p : yields (run_all env) p (booted env p) (failed p).
Proof.
  unfold run_all, bundled_registry, bundled_event, bundled_proxy, bundled_txn, bundled_space,
    bundled_registrations, bundled_self_register, spawn_registration, bundled_servers.
  repeat boot_stage. boot_done.
Qed.

Lemma main_boot_yields command env p :
  yields (main_boot bind command env) p (booted env p) (failed p).
Proof.
  unfold main_boot. destruct command as [[]|];
    first [ apply run_all_yields | apply run_registry_yields | apply run_event_yields
          | apply run_space_yields | apply run_txn_yields | apply run_proxy_yields ].
Qed.

Lemma main_boot_ok command env p p' n :
  main_boot bind command env p = (p', Ok n) → booted env p n p'.
Proof. intros E. pose proof (main_boot_yields command env p) as H. unfold yields in H. by rewrite E in H. Qed.


(** What is announced and when.  A boot that fails has spawned no
    registration; one that succeeds spawns its registrations after every other
    task, one for each interface it offers and none else, each with the
    advertised host and the port of a server that offers the interface. *)
Theorem announced_when_complete command env p :
  match main_boot bind command env p with
  | (p', Err _) => ∃ others, pc_tasks p' = pc_tasks p ++ others ∧
      Forall (λ t, is_registration t = false) others
  | (p', Ok n) =>
      (∃ others, pc_tasks p' = pc_tasks p ++ others ++ (TRegister <$> nd_registrations n) ∧
         Forall (λ t, is_registration t = false) others) ∧
      (∀ r, r ∈ nd_registrations n → announced_ok (advertise_host env) n r) ∧
      (∀ sv s i, sv ∈ nd_servers n → s ∈ offered sv → interface_of s = Some i →
         i ∈ rs_interface <$> nd_registrations n)
  end.
Proof.
  pose proof (main_boot_yields command env p) as H. unfold yields in H.
  destruct (main_boot bind command env p) as [p' [n|e]]; [|by destruct H].
  destruct H as [[_ Ha He Ht] _ _ _ _]. split_and!; [done| |done]. by rewrite Forall_forall in Ha.
Qed.

Lemma lease_table_inj ns ns' : lease_table_name ns = lease_table_name ns' → ns = ns'.
Proof. unfold lease_table_name. by intros [=]. Qed.

Lemma lease_table_not_data ns b : data_backend_ok b → lease_table_name ns ∉ backend_tables b.
Proof.
  intros [->|(ts & -> & Hin)]; cbn; [apply not_elem_of_nil|]. unfold lease_table_name.
  unfold data_backends in Hin. repeat (apply elem_of_cons in Hin as [->|Hin]; [|]); [..|by apply elem_of_nil in Hin];
    cbn; rewrite ?not_elem_of_cons; split_and?; try apply not_elem_of_nil; discriminate.
Qed.

Lemma lease_backend_table ns b t : lease_backend_of ns b → t ∈ backend_tables b → t = lease_table_name ns.
Proof. intros [[->| ->] _]; cbn; [by intros ?%elem_of_nil|by intros ->%list_elem_of_singleton]. Qed.

(** C21: Lease state is private to its service: between any two nodes, booted
    by whatever commands under whatever environments, lease stores that have a
    table in common belong to the same namespace, none has a table in common
    with a data store, and the leases of a Proxy are on no table at all. *)
Theorem lease_tables_private c1 env1 p1 p1' n1 c2 env2 p2 p2' n2 l1 t :
  main_boot bind c1 env1 p1 = (p1', Ok n1) → main_boot bind c2 env2 p2 = (p2', Ok n2) →
  landlord_of n1 l1 → t ∈ backend_tables (ld_store l1) →
  ld_namespace l1 ≠ "proxy" ∧
  (∀ l2, landlord_of n2 l2 → t ∈ backend_tables (ld_store l2) → ld_namespace l2 = ld_namespace l1) ∧
  (∀ b, data_store_of n2 b → t ∉ backend_tables b).
Proof.
  intros [_ _ Hl1 _ _]%main_boot_ok [_ _ Hl2 Hd2 _]%main_boot_ok Hin Ht.
  destruct (Hl1 _ Hin) as [Hb1 _]. pose proof (lease_backend_table _ _ _ Hb1 Ht) as ->. split_and!.
  - intros Hp. destruct Hb1 as [_ Hpx]. rewrite (Hpx Hp) in Ht. by apply elem_of_nil in Ht.
  - intros l2 Hin2 Ht2. destruct (Hl2 _ Hin2) as [Hb2 _].
    pose proof (lease_backend_table _ _ _ Hb2 Ht2) as E. by apply lease_table_inj in E.
  - intros b Hb. by apply lease_table_not_data, Hd2.
Qed.

(** C37: A boot and the database.  Succeeding or not, it keeps every table
    that is there and what is in it, and what it adds is an empty table of the
    program with the keys of its name; when it succeeds with table creation on,
    every table a mounted store uses is there. *)
Theorem boot_prepares_database command env p :
  let '(p', r) := main_boot bind command env p in
  grows (pc_db p) (pc_db p') ∧
  ∀ n, r = Ok n → auto_create_enabled env = true →
    (∀ l, landlord_of n l → ready (pc_db p') (ld_store l)) ∧
    (∀ b, data_store_of n b → ready (pc_db p') b).
Proof.
  pose proof (main_boot_yields command env p) as H. unfold yields in H.
  destruct (main_boot bind command env p) as [p' [n|e]]; [|by destruct H].
  destruct H as [_ Hg Hl Hd _]. split; [done|]. intros ? [= <-] Ha.
  split; [intros l Hin; by apply Hl|intros b Hin; by apply Hd].
Qed.

(** ** The bundled transaction manager and Space *)

Lemma implicit_checked var ep a :
  txn_participant_allowlist var (Some ep) = Ok a →
  (al_entries a ≠ [] ∨ is_ok (parse_endpoint ep) = true) → Allowlist.check a ep = Ok ().
Proof.
  unfold txn_participant_allowlist. intros Ha Hor. pose proof (configured_wf var (Some ep) a Ha) as Hwf.
  destruct (Allowlist.from_env var) as [a0|]; [|done]. cbn [rbind] in Ha. unfold with_implicit_endpoint in Ha.
  destruct (parse_endpoint ep) as [[h q]|] eqn:Hep.
  - apply (check_ok a ep h q Hwf Hep). destruct (is_allow_all a0) eqn:Hall; cbn in Ha; injection Ha as <-.
    + left. unfold is_allow_all in Hall. by destruct (al_entries a0).
    + right. eexists. split; [apply elem_of_app; right; left|]. cbn.
      destruct (parse_endpoint_wf _ _ _ Hep) as [Hh _]. by apply implicit_allows.
  - destruct (is_allow_all a0) eqn:Hall; [|done]. injection Ha as <-.
    unfold is_allow_all in Hall. destruct (al_entries a0); [|done]. by destruct Hor.
Qed.

Definition bundled_pair (env : environment) (n : Node) : Prop :=
  ∀ sv1 sv2 t h1 q1 s h2 q2, sv1 ∈ nd_servers n → sv2 ∈ nd_servers n →
    STxn t h1 q1 ∈ offered sv1 → SSpace s h2 q2 ∈ offered sv2 →
    sw_enlister s = LocalEnlister t ∧
    txn_participant_allowlist (env "COORDIN8_TXN_PARTICIPANT_ALLOW") (Some (sw_participant_endpoint s)) =
      Ok (tw_allowlist t).

Lemma run_all_pair env p : yields (run_all env) p (λ n _, bundled_pair env n) (λ _ _, True).
Proof.
  unfold run_all, bundled_registry, bundled_event, bundled_proxy, bundled_txn, bundled_space,
    bundled_registrations, bundled_self_register, spawn_registration, bundled_servers.
  repeat boot_stage. intros sv1 sv2 t h1 q1 s h2 q2 E1 E2. cbn [nd_servers] in E1, E2.
  repeat (apply elem_of_cons in E1 as [->|E1]); [..|by apply elem_of_nil in E1];
    repeat (apply elem_of_cons in E2 as [->|E2]); try (by apply elem_of_nil in E2); cbn; intros Ht Hs;
    rewrite ?elem_of_cons, ?elem_of_nil in Ht; rewrite ?elem_of_cons, ?elem_of_nil in Hs; destruct_or?; try discriminate; try done; simplify_eq.
  split; [reflexivity|]. cbn.
  match goal with Ha : map_err _ ?r = Ok _ |- _ => destruct r; simplify_eq/=; reflexivity end.
Qed.

(** In bundled mode the Space enlists itself with the transaction manager
    of the same process, and the allowlist of that manager never stands in the
    way: with an allowlist configured the Space's own endpoint passes its check;
    with none it passes whenever it parses as an endpoint. *)
Theorem bundled_space_enlists env p p' n sv1 t h1 q1 sv2 s h2 q2 :
  main_boot bind (Some CAll) env p = (p', Ok n) →
  sv1 ∈ nd_servers n → STxn t h1 q1 ∈ offered sv1 →
  sv2 ∈ nd_servers n → SSpace s h2 q2 ∈ offered sv2 →
  sw_enlister s = LocalEnlister t ∧
  sw_participant_endpoint s = endpoint (advertise_host env) (sv_port sv2) ∧
  (al_entries (tw_allowlist t) ≠ [] ∨ is_ok (parse_endpoint (sw_participant_endpoint s)) = true →
   Allowlist.check (tw_allowlist t) (sw_participant_endpoint s) = Ok ()).
Proof.
  intros Hb H1 Ht H2 Hs. pose proof (run_all_pair env p) as Hp. unfold yields in Hp.
  pose proof (main_boot_ok _ _ _ _ _ Hb) as [[Hm _ _ _] _ _ _ _].
  cbn [main_boot] in Hb. rewrite Hb in Hp. destruct (Hp _ _ _ _ _ _ _ _ H1 H2 Ht Hs) as [He Ha].
  rewrite Forall_forall in Hm. specialize (Hm sv2 H2). rewrite Forall_forall in Hm.
  apply list_elem_of_fmap in Hs as (m & Em & Hin). destruct (Hm m Hin) as [_ _ _ _ _ Hsp].
  split_and!; [done|by apply (Hsp s h2 q2)|].
  exact (implicit_checked _ _ _ Ha).
Qed.

(** ** What a boot on the local provider refuses *)

Definition to_option {A E} (r : result A E) : option E := match r with Ok _ => None | Err e => Some e end.

(** The first of a list of checks that fails. *)
Fixpoint first_refusal (checks : list (option BootFailure)) : option BootFailure :=
  match checks with
  | [] => None
  | Some e :: _ => Some e
  | None :: checks => first_refusal checks
  end.

Definition bind_refusal (env : environment) : option BootFailure :=
  to_option (map_err FIo (bind (bind_addr env))).
Definition port_refusal (env : environment) : option BootFailure :=
  match bind (bind_addr env) with Ok l => to_option (map_err FIo (tl_local_addr l)) | Err _ => None end.
Definition registry_refusal (env : environment) (what : string) : option BootFailure :=
  match env "COORDIN8_REGISTRY" with
  | Some _ => None
  | None => Some (FEnv ("COORDIN8_REGISTRY must be set for split-mode " +:+ what))
  end.
Definition allowlist_refusal (env : environment) (implicit : option string) : option BootFailure :=
  to_option (map_err FAllowlist (txn_participant_allowlist (env "COORDIN8_TXN_PARTICIPANT_ALLOW") implicit)).

(** The checks of each command, in the order the code makes them. *)
Definition refusal (command : option Command) (env : environment) : option BootFailure :=
  first_refusal
    match command with
    | None | Some CAll => [allowlist_refusal env (Some (endpoint (advertise_host env) 9006))]
    | Some CRegistry => [bind_refusal env; port_refusal env]
    | Some CEvent => [bind_refusal env; registry_refusal env "EventMgr"; port_refusal env]
    | Some CSpace => [bind_refusal env; registry_refusal env "Space"; port_refusal env]
    | Some CTxn => [bind_refusal env; registry_refusal env "TransactionMgr"; port_refusal env;
                    allowlist_refusal env None]
    | Some CProxy => [bind_refusal env; registry_refusal env "Proxy"; port_refusal env]
    end.

Lemma local_landlord env ns host port auth p Q E :
  lease_store_from_env env ns = boot_ret InMemory →
  (let l := {| ld_namespace := ns; ld_store := InMemory; ld_config := from_env_for env (Some ns);
               ld_grantor_host := host; ld_grantor_port := port |} in
   Q (l, with_shutdown (with_interceptor (SLease l) auth))
     {| pc_db := pc_db p; pc_tasks := pc_tasks p ++ [TReaper l] |}) →
  yields (embedded_landlord env ns host port auth) p Q E.
Proof. intros H HQ. unfold embedded_landlord. by rewrite H. Qed.

Ltac local_stage :=
  cbv zeta;
  lazymatch goal with
  | H : ∀ ns, lease_store_from_env _ ns = _ |- yields (embedded_landlord _ _ _ _ _) _ _ _ =>
      apply (local_landlord _ _ _ _ _ _ _ _ (H _)); cbn [pc_db pc_tasks]
  | |- yields (boot_bind _ _) _ _ _ => apply yields_bind
  | |- yields (boot_ret _) _ _ _ => apply yields_ret
  | |- yields (spawn _) _ _ _ => apply yields_spawn
  | |- yields (lift _) _ _ _ => apply yields_lift; intros ? ?
  end.

(** One check of the specification, by what the code found. *)
Ltac refused :=
  match goal with
  | H : map_err _ ?r = _ |- context [?r] => destruct r; simplify_eq/=
  | H : ok_or _ ?r = _ |- context [?r] => destruct r; simplify_eq/=
  end.

(** C36: On the local provider a boot fails for the reasons listed and no
    other, with the first of them: the address cannot be bound, a service run by
    itself is not told its Registry, the port cannot be read, the participant
    allowlist does not parse.  Nothing else of the environment can stop it, and
    the database is not touched. *)
Theorem local_boot_outcome command env p :
  provider_from_env env ≠ "dynamo" →
  to_option (main_boot bind command env p).2 = refusal command env ∧
  pc_db (main_boot bind command env p).1 = pc_db p.
Proof.
  intros Hl. apply String.eqb_neq in Hl.
  assert (Hreg : registry_store_from_env (D := D) env = boot_ret InMemory)
    by (unfold registry_store_from_env; by rewrite Hl).
  assert (Hev : event_store_from_env (D := D) env = boot_ret InMemory)
    by (unfold event_store_from_env; by rewrite Hl).
  assert (Htx : txn_store_from_env (D := D) env = boot_ret InMemory)
    by (unfold txn_store_from_env; by rewrite Hl).
  assert (Hsp : space_store_from_env (D := D) env = boot_ret InMemory)
    by (unfold space_store_from_env; by rewrite Hl).
  assert (Hls : ∀ ns, lease_store_from_env (D := D) env ns = boot_ret InMemory)
    by (intros ns; unfold lease_store_from_env; by rewrite Hl; destruct (String.eqb ns _)).
  cut (yields (main_boot bind command env) p (λ _ p', refusal command env = None ∧ pc_db p' = pc_db p)
         (λ e p', refusal command env = Some e ∧ pc_db p' = pc_db p)).
  { unfold yields. destruct (main_boot bind command env p) as [p' []]; intros [H1 H2]; by rewrite H1. }
  unfold main_boot, run_all, run_registry, run_event, run_space, run_txn, run_proxy, run_registry_on_listener,
    run_event_on_listener, run_space_on_listener, run_txn_on_listener, run_proxy_on_listener,
    bundled_registry, bundled_event, bundled_proxy, bundled_txn, bundled_space, bundled_registrations,
    bundled_self_register, spawn_registration, bundled_servers, bind_tcp, local_port, need_registry.
  destruct command as [[]|]; rewrite ?Hreg, ?Hev, ?Htx, ?Hsp; repeat local_stage; (split; [|reflexivity]);
    unfold refusal, bind_refusal, port_refusal, registry_refusal, allowlist_refusal;
    repeat refused; reflexivity.
Qed.
End wiring.

(** ** Concrete boots *)
Section samples.
#[local] Existing Instance chrono_sample.
#[local] Existing Instance toy_jwt.

Definition any_port (_ : string) : result TcpListener string := Ok {| tl_local_addr := Ok 40001%Z |}.

Definition vars (l : list (string * string)) : environment := λ k, (list_to_map l : gmap string string) !! k.

(** Split mode against a Registry, and the bundle on DynamoDB behind an allowlist. *)
Definition split_env : environment :=
  vars [("COORDIN8_REGISTRY", "http://registry:9002"); ("COORDIN8_ADVERTISE_HOST", "space-1");
        ("COORDIN8_JWT_SECRET", "s3cret")].
Definition bundle_env : environment :=
  vars [("COORDIN8_PROVIDER", "dynamo"); ("COORDIN8_AUTO_CREATE_TABLES", "1");
        ("COORDIN8_TXN_PARTICIPANT_ALLOW", "*.internal")].

Definition bare : Process ToyDb := {| pc_db := {| toy_tables := ∅; toy_page := 0 |}; pc_tasks := [] |}.

(** What is observed of a node: the ports, and how many services each server mounts. *)
Definition shape (r : result Node BootFailure) : list (Z * nat) :=
  match r with
  | Ok n => (λ sv, (sv_port sv, length (sv_mounted sv))) <$> nd_servers n
  | Err _ => []
  end.


Lemma bundle_shape :
  shape (main_boot any_port None bundle_env bare).2 =
    [(9002%Z, 2); (9003%Z, 2); (9004%Z, 2); (9005%Z, 2); (9006%Z, 3)].
Proof. vm_compute. reflexivity. Qed.


(** The landlords of a node, with their tables. *)
Definition lease_tables_seen (r : result Node BootFailure) : list (string * list string) :=
  match r with
  | Ok n => nd_servers n ≫= λ sv, offered sv ≫= λ s,
      match s with SLease l => [(ld_namespace l, backend_tables (ld_store l))] | _ => [] end
  | Err _ => []
  end.

Lemma lease_tables_seen_elem n ns ts :
  (ns, ts) ∈ lease_tables_seen (Ok n) →
  ∃ l, landlord_of n l ∧ ld_namespace l = ns ∧ backend_tables (ld_store l) = ts.
Proof.
  intros (sv & (s & Hs & Hin)%list_elem_of_bind & Hsv)%list_elem_of_bind.
  destruct s; cbn in Hs; try by apply elem_of_nil in Hs. apply list_elem_of_singleton in Hs. simplify_eq.
  exists l. split_and!; [by exists sv|done..].
Qed.

Lemma bundle_lease_tables :
  lease_tables_seen (main_boot any_port None bundle_env bare).2 =
    [("registry", ["coordin8_leases_registry"]); ("proxy", []); ("txn", ["coordin8_leases_txn"]);
     ("event", ["coordin8_leases_event"]); ("space", ["coordin8_leases_space"])].
Proof. vm_compute. reflexivity. Qed.

Theorem lease_tables_private_witness :
  ∃ p' n l, main_boot any_port None bundle_env bare = (p', Ok n) ∧
    landlord_of n l ∧ ld_namespace l = "space" ∧ "coordin8_leases_space" ∈ backend_tables (ld_store l) ∧
    ∀ b, data_store_of n b → "coordin8_leases_space" ∉ backend_tables b.
Proof.
  pose proof (λ p' n l H, lease_tables_private any_port None bundle_env bare p' n None bundle_env bare p' n l
    "coordin8_leases_space" H H) as Hw.
  pose proof bundle_lease_tables as Hs. destruct (main_boot any_port None bundle_env bare) as [p' [n|e]]; [|done].
  destruct (lease_tables_seen_elem n "space" ["coordin8_leases_space"]) as (l & Hl & Hns & Hts).
  { change (lease_tables_seen (Ok n) = [("registry", ["coordin8_leases_registry"]); ("proxy", []);
      ("txn", ["coordin8_leases_txn"]); ("event", ["coordin8_leases_event"]); ("space", ["coordin8_leases_space"])]) in Hs.
    rewrite Hs. do 4 right. left. }
  exists p', n, l. rewrite Hts. split; [reflexivity|]. split; [exact Hl|]. split; [exact Hns|]. split; [left|].
  apply (Hw p' n l eq_refl Hl). rewrite Hts. left.
Defined.

Theorem boot_prepares_database_witness :
  ∃ p' n l, main_boot any_port None bundle_env bare = (p', Ok n) ∧
    landlord_of n l ∧ backend_tables (ld_store l) = ["coordin8_leases_txn"] ∧
    is_Some (tables (pc_db p') !! "coordin8_leases_txn") ∧ ∀ b, data_store_of n b → ready (pc_db p') b.
Proof.
  pose proof (boot_prepares_database any_port None bundle_env bare) as Hw.
  pose proof bundle_lease_tables as Hs. destruct (main_boot any_port None bundle_env bare) as [p' [n|e]]; [|done].
  destruct (lease_tables_seen_elem n "txn" ["coordin8_leases_txn"]) as (l & Hl & _ & Hts).
  { cbn [snd] in Hs. rewrite Hs. do 2 right. left. }
  destruct Hw as [_ Hw]. destruct (Hw n eq_refl ltac:(vm_compute; reflexivity)) as [Hleases Hdata].
  exists p', n, l. split; [reflexivity|]. split; [exact Hl|]. split; [exact Hts|]. split; [|exact Hdata].
  apply (Hleases l Hl). rewrite Hts. left.
Defined.

Theorem local_boot_outcome_witness :
  to_option (main_boot any_port (Some CProxy) (λ _, None) bare).2 =
    Some (FEnv "COORDIN8_REGISTRY must be set for split-mode Proxy") ∧
  to_option (main_boot any_port (Some CTxn) split_env bare).2 = None.
Proof.
  split.
  - rewrite (proj1 (local_boot_outcome any_port (Some CProxy) (λ _, None) bare ltac:(discriminate))). reflexivity.
  - assert (H : provider_from_env split_env ≠ "dynamo") by (vm_compute; discriminate).
    rewrite (proj1 (local_boot_outcome any_port (Some CTxn) split_env bare H)). vm_compute. reflexivity.
Defined.

(** The transaction manager and the Space of a node. *)
Definition enlisting_pairs (r : result Node BootFailure) : list (TxnWiring * SpaceWiring) :=
  match r with
  | Ok n =>
      let all := nd_servers n ≫= offered in
      (all ≫= λ s, match s with STxn t _ _ => [t] | _ => [] end) ≫= λ t,
      (all ≫= λ s, match s with SSpace s _ _ => [(t, s)] | _ => [] end)
  | Err _ => []
  end.

Lemma enlisting_pairs_elem n t s :
  (t, s) ∈ enlisting_pairs (Ok n) →
  ∃ sv1 h1 q1 sv2 h2 q2, sv1 ∈ nd_servers n ∧ STxn t h1 q1 ∈ offered sv1 ∧
    sv2 ∈ nd_servers n ∧ SSpace s h2 q2 ∈ offered sv2.
Proof.
  intros (t' & (s2 & H2 & (sv2 & Ho2 & Hsv2)%list_elem_of_bind)%list_elem_of_bind &
    (s1 & H1 & (sv1 & Ho1 & Hsv1)%list_elem_of_bind)%list_elem_of_bind)%list_elem_of_bind.
  destruct s1; cbn in H1; try by apply elem_of_nil in H1. apply list_elem_of_singleton in H1 as ->.
  destruct s2; cbn in H2; try by apply elem_of_nil in H2. apply list_elem_of_singleton in H2. simplify_eq.
  exists sv1. do 2 eexists. exists sv2. do 2 eexists. split_and!; done.
Qed.

Lemma bundle_pairs :
  length (enlisting_pairs (main_boot any_port (Some CAll) bundle_env bare).2) = 1%nat ∧
  forallb (λ ts, Nat.eqb (length (al_entries (tw_allowlist ts.1))) 2)
    (enlisting_pairs (main_boot any_port (Some CAll) bundle_env bare).2) = true.
Proof. split; vm_compute; reflexivity. Qed.

Theorem bundled_space_enlists_witness :
  ∃ p' n t s, main_boot any_port (Some CAll) bundle_env bare = (p', Ok n) ∧
    (t, s) ∈ enlisting_pairs (Ok n) ∧ length (al_entries (tw_allowlist t)) = 2%nat ∧
    sw_enlister s = LocalEnlister t ∧
    Allowlist.check (tw_allowlist t) (sw_participant_endpoint s) = Ok ().
Proof.
  pose proof (bundled_space_enlists any_port bundle_env bare) as Hw.
  destruct bundle_pairs as [Hlen Hall].
  destruct (main_boot any_port (Some CAll) bundle_env bare) as [p' [n|e]]; [|done].
  cbn [snd] in Hlen, Hall.
  destruct (enlisting_pairs (Ok n)) as [|[t s] ?] eqn:E; [done|]. cbn in Hall.
  apply andb_prop in Hall as [H2%Nat.eqb_eq _].
  destruct (enlisting_pairs_elem n t s) as (sv1 & h1 & q1 & sv2 & h2 & q2 & A & B & Hc & F); [rewrite E; left|].
  destruct (Hw p' n sv1 t h1 q1 sv2 s h2 q2 eq_refl A B Hc F) as (He & _ & Hok).
  exists p', n, t, s. split; [reflexivity|]. rewrite E. split; [left|]. split; [exact H2|]. split; [exact He|].
  apply Hok. left. intros Hn. by rewrite Hn in H2.
Defined.
End samples.
