(* ===== verification/Drain.v ===== *)
(** * Registration, health checks and graceful shutdown
    ([coordin8-djinn/src/services.rs])

    The task that announces a service, the check of a running service, and what
    happens after SIGTERM: health, deregistration, streams and servers, under one
    deadline.  Time is in milliseconds; how long an await takes, if it ends at
    all, and what the network does to a call are parameters.  The Registry the
    calls reach is the modelled one. *)

From S2P Require Import Prelude CoreTypes LeaseCore LeaseStore LeaseManager LeaseService Matcher RegistryStore RegistryIndex RegistryService Proxy Allowlist Auth Bootstrap Shutdown.
From S2P Require Import Boot.

(** ** Futures under a deadline *)

(** How long an await takes. *)
Inductive Await := Takes (ms : Z) | Hangs.

(** An await that ends takes no negative time. *)
Definition await_ok (a : Await) : Prop := match a with Takes ms => (0 ≤ ms)%Z | Hangs => True end.

(** A future on shared state [X], polled until the deadline: given the time
    left it either ends, with the time then left, or is cut. *)
Definition future (X A : Type) : Type := Z → X → X * option (Z * A).

Section futures.
Context {X : Type}.

Definition fret {A} (a : A) : future X A := λ rem x, (x, Some (rem, a)).
Definition fbind {A B} (m : future X A) (k : A → future X B) : future X B :=
  λ rem x, match m rem x with
            | (x', Some (rem', a)) => k a rem' x'
            | (x', None) => (x', None)
            end.
Definition act (f : X → X) : future X unit := λ rem x, (f x, Some (rem, ())).
Definition wait (a : Await) : future X unit :=
  λ rem x, match a with
            | Takes ms => if (ms <=? rem)%Z then (x, Some ((rem - ms)%Z, ())) else (x, None)
            | Hangs => (x, None)
            end.

(** [tokio::time::timeout]: the value, or [None] when the deadline passed, and
    the time taken. *)
Definition timeout {A} (limit : Z) (m : future X A) (x : X) : X * option A * Z :=
  match m limit x with
  | (x', Some (rem, a)) => (x', Some a, (limit - rem)%Z)
  | (x', None) => (x', None, limit)
  end.
End futures.

Notation "'wait_for!' x ':=' m 'in' k" := (fbind m (λ x, k))
  (at level 10, x pattern, m at level 100, k at level 200) : djinn_scope.

(** ** Health check of a running service *)

(** The status a check reports, and the answers of the network to one. *)
Inductive HealthStatus := HUnknown | HServing | HNotServing | HServiceUnknown.

Record HealthNet := {
  hn_valid_addr : bool;
  hn_connect : Await * result unit string;
  hn_check : Await * result HealthStatus string
}.

Inductive HealthError :=
| HInvalidAddr | HConnectFailed (why : string) | HCheckFailed (why : string)
| HStatus (s : HealthStatus) | HTimedOut.

Definition answer {X A E F} (f : E → F) (c : Await * result A E) : future X (result A F) :=
  wait_for! _ := wait c.1 in fret (map_err f c.2).

Definition check_once {X} (net : HealthNet) : future X (result unit HealthError) :=
  if negb (hn_valid_addr net) then fret (Err HInvalidAddr)
  else
    wait_for! c := answer HConnectFailed (hn_connect net) in
    match c with
    | Err e => fret (Err e)
    | Ok _ =>
        wait_for! r := answer HCheckFailed (hn_check net) in
        match r with
        | Err e => fret (Err e)
        | Ok HServing => fret (Ok ())
        | Ok s => fret (Err (HStatus s))
        end
    end.

Definition run_healthcheck (net : HealthNet) : result unit HealthError * Z :=
  match timeout 3000 (check_once net) () with
  | (_, Some r, t) => (r, t)
  | (_, None, t) => (Err HTimedOut, t)
  end.

(** ** The registration task *)

(** A round of [self_register_retrying]: the failed dials before a connection,
    then the call, its fate and what the Registry draws to serve it. *)
Record Round := { ro_failed_dials : nat; ro_fate : Fate; ro_cap : string; ro_env : Env }.

(** What the task has come to. *)
Inductive TaskEnd := Registered (h : SelfRegistrationHandle) | StillTrying | Panicked.

Section registration.
Context {C : Chrono} {I : MapIter} {S L : Type} {RS : RegistryStore S} {LG : Leasing L}.
(** [Channel::from_shared]: whether the text is a URI. *)
Context (valid_uri : string → bool).
Implicit Types (v : RegistryService S L).

(** [dial_registry_authed]: [None] when it panics on a text that is no URI, else
    the pauses before the connection. *)
Definition dial_registry_authed (registry_url : string) (failed : nat) : option (list Z) :=
  if valid_uri registry_url then Some (replicate failed 200%Z) else None.

Fixpoint self_register_retrying v (registry_url : string) (initial : RegisterRequest) (rounds : list Round)
  : RegistryService S L * TaskEnd * list Z :=
  match rounds with
  | [] => (v, StillTrying, [])
  | r :: rounds =>
      match dial_registry_authed registry_url (ro_failed_dials r) with
      | None => (v, Panicked, [])
      | Some pauses =>
          let '(v', answer) := register_over (ro_fate r) v (ro_cap r) (ro_env r) initial in
          match self_register initial answer with
          | Ok h => (v', Registered h, pauses)
          | Err _ =>
              let '(v'', e, more) := self_register_retrying v' registry_url initial rounds in
              (v'', e, pauses ++ 500%Z :: more)
          end
      end
  end.

(** [Registration]: the slot the handle lands in when the task is done. *)
Record Registration := { rn_interface : string; rn_slot : option SelfRegistrationHandle }.

Definition spawn_registration_end (interface : string) (e : TaskEnd) : Registration :=
  {| rn_interface := interface;
     rn_slot := match e with Registered h => Some h | StillTrying | Panicked => None end |}.

(** ** Shutdown *)

Definition DEFAULT_SHUTDOWN_GRACE_SECS : Z := 20.

(** In milliseconds. *)
Definition shutdown_grace (env : environment) : Z :=
  (default DEFAULT_SHUTDOWN_GRACE_SECS
     (env "COORDIN8_SHUTDOWN_GRACE_SECS" ≫= λ text, parse_u64 (trim text)) * 1000)%Z.

(** What the shutdown of a process acts on. *)
Record Running := {
  ru_health : option ServingStatus;
  ru_registry : RegistryService S L;
  ru_streams : Signal;
  ru_stop : bool
}.

Definition set_health (st : ServingStatus) (x : Running) : Running :=
  {| ru_health := match ru_health x with Some _ => Some st | None => None end;
     ru_registry := ru_registry x; ru_streams := ru_streams x; ru_stop := ru_stop x |}.
Definition set_registry v (x : Running) : Running :=
  {| ru_health := ru_health x; ru_registry := v; ru_streams := ru_streams x; ru_stop := ru_stop x |}.
Definition trigger (x : Running) : Running :=
  {| ru_health := ru_health x; ru_registry := ru_registry x; ru_streams := Fired; ru_stop := ru_stop x |}.
Definition send_stop (x : Running) : Running :=
  {| ru_health := ru_health x; ru_registry := ru_registry x; ru_streams := ru_streams x; ru_stop := true |}.

(** The writes to the health status while a process drains: the shutdown's own,
    and that of the Proxy's background task when it has found the Registry. *)
Inductive HealthWrite := ByShutdown | ByResolver.

Definition write_health (x : Running) (w : HealthWrite) : Running :=
  match w with ByShutdown => set_health NotServing x | ByResolver => set_health Serving x end.

(** [Registration::deregister]: the task is stopped; if it had left a handle, the
    call to the Registry, with its fate and how long its answer takes.  A call
    that fails is only logged. *)
Definition deregister (c : Fate * Await) (reg : Registration) : future Running unit :=
  match rn_slot reg with
  | None => fret ()
  | Some h =>
      wait_for! _ := act (λ x, set_registry (handle_cancel c.1 (ru_registry x) (sr_task h)).1 x) in
      wait c.2
  end.

Fixpoint deregister_all (regs : list (Fate * Await * Registration)) : future Running unit :=
  match regs with
  | [] => fret ()
  | (c, reg) :: regs => wait_for! _ := deregister c reg in deregister_all regs
  end.

(** What ends the serving phase: the servers, or the signal. *)
Inductive FirstEvent := ServersEnded (r : result unit string) | ShutdownFired.

Inductive ShutdownError := ServerFailed (why : string) | GraceElapsed.

Definition finish (o : option (result unit string)) : result unit ShutdownError :=
  match o with
  | Some r => map_err ServerFailed r
  | None => Err GraceElapsed
  end.

(** [serve_split]: [health] is the time the status update takes, [drained] the
    time until the server future ends after the stop, with its result. *)
Definition serve_split (env : environment) (first : FirstEvent) (health : Await)
    (registration : option (Fate * Await * Registration)) (drained : Await * result unit string) (x : Running)
  : Running * result unit ShutdownError * Z :=
  match first with
  | ServersEnded r => (x, map_err ServerFailed r, 0%Z)
  | ShutdownFired =>
      let drain :=
        wait_for! _ := wait health in
        wait_for! _ := act (set_health NotServing) in
        wait_for! _ := match registration with
                       | Some (c, reg) => deregister c reg
                       | None => fret ()
                       end in
        wait_for! _ := act trigger in
        wait_for! _ := act send_stop in
        wait_for! _ := wait drained.1 in
        fret drained.2 in
      let '(x, o, t) := timeout (shutdown_grace env) drain x in
      (x, finish o, t)
  end.

(** The end of [run_all]: no health service, every registration in turn, one
    drain for the five servers. *)
Definition run_all_serve (env : environment) (first : FirstEvent)
    (registrations : list (Fate * Await * Registration)) (drained : Await * result unit string) (x : Running)
  : Running * result unit ShutdownError * Z :=
  match first with
  | ServersEnded r => (x, map_err ServerFailed r, 0%Z)
  | ShutdownFired =>
      let drain :=
        wait_for! _ := deregister_all registrations in
        wait_for! _ := act trigger in
        wait_for! _ := act send_stop in
        wait_for! _ := wait drained.1 in
        fret drained.2 in
      let '(x, o, t) := timeout (shutdown_grace env) drain x in
      (x, finish o, t)
  end.
End registration.
Arguments Running S L : clear implicits.

(** ** Theorems: deadlines *)

(** The time a sequence of awaits takes, if it ends. *)
Fixpoint total (l : list Await) : option Z :=
  match l with
  | [] => Some 0%Z
  | Takes ms :: l => (λ t, (ms + t)%Z) <$> total l
  | Hangs :: _ => None
  end.

Definition in_time (limit : Z) (l : list Await) : bool :=
  match total l with Some t => (t <=? limit)%Z | None => false end.

Lemma total_nonneg l t : Forall await_ok l → total l = Some t → (0 ≤ t)%Z.
Proof.
  intros Hl. revert t. induction Hl as [|[ms|] l Ha _ IH]; intros t; cbn.
  - intros [= <-]. lia.
  - intros (t' & Ht' & ->)%fmap_Some. specialize (IH _ Ht'). cbn in Ha. lia.
  - done.
Qed.

Lemma in_time_cons limit a l :
  Forall await_ok l →
  in_time limit (a :: l) =
    match a with Takes ms => (ms <=? limit)%Z && in_time (limit - ms) l | Hangs => false end.
Proof.
  intros Hl. unfold in_time. destruct a as [ms|]; cbn; [|done].
  destruct (total l) as [t|] eqn:E; cbn; [|by rewrite andb_false_r].
  pose proof (total_nonneg l t Hl E). apply Bool.eq_iff_eq_true.
  rewrite andb_true_iff, !Z.leb_le. lia.
Qed.

Lemma in_time_app limit l l' : Forall await_ok l' → in_time limit (l ++ l') = true → in_time limit l = true.
Proof.
  intros Hl'. unfold in_time. revert limit. induction l as [|[ms|] l IH]; intros limit; cbn.
  - destruct (total l') as [t|] eqn:E; [|done]. pose proof (total_nonneg l' t Hl' E).
    rewrite !Z.leb_le. lia.
  - specialize (IH (limit - ms)%Z). destruct (total (l ++ l')) as [t|]; [|done]. destruct (total l) as [t'|]; cbn in *.
    + rewrite Z.leb_le in *. intros Ht. assert (t <= limit - ms)%Z by lia. rewrite Z.leb_le in IH. intuition lia.
    + intros Ht%Z.leb_le. rewrite Z.leb_le in IH. intuition lia.
  - done.
Qed.

Lemma shutdown_grace_nonneg env : (0 ≤ shutdown_grace env)%Z.
Proof.
  unfold shutdown_grace, DEFAULT_SHUTDOWN_GRACE_SECS. destruct (env _) as [text|]; cbn; [|lia].
  destruct (parse_u64 (trim text)) as [z|] eqn:E; cbn; [|lia]. apply parse_uint_bound in E as [? ?]; [lia|done..].
Qed.

(** ** Theorems: health checks *)

(** A health check says yes exactly when the address is valid, the
    connection and the call succeed, the status is SERVING and all of it took at
    most three seconds; it always answers within three seconds. *)
Theorem healthcheck_exact net :
  await_ok (hn_connect net).1 → await_ok (hn_check net).1 →
  (0 ≤ (run_healthcheck net).2 ≤ 3000)%Z ∧
  ((run_healthcheck net).1 = Ok () ↔
   hn_valid_addr net = true ∧ is_ok (hn_connect net).2 = true ∧ (hn_check net).2 = Ok HServing ∧
   in_time 3000 [(hn_connect net).1; (hn_check net).1] = true).
Proof.
  intros H1 H2. unfold in_time, run_healthcheck, timeout, check_once, answer, fbind, wait, fret.
  destruct (hn_valid_addr net); cbn; [|split; [lia|naive_solver]].
  destruct (hn_connect net) as [[t1|] [[]|]], (hn_check net) as [[t2|] [[]|]]; cbn in *;
    repeat (case_match; cbn in *; simplify_eq/=); rewrite ?andb_true_r, ?Z.leb_le, ?Z.leb_gt in *;
    (split; [lia|]); (split; [intros ?; try discriminate; split_and!; try done; apply Z.leb_le; lia|]);
    intros (_ & ? & ? & ?); try discriminate; rewrite ?Z.leb_le in *; try done; lia.
Qed.

(** What the health service answers: without one the call is unimplemented. *)
Definition reported (h : option ServingStatus) : result HealthStatus string :=
  match h with
  | Some Serving => Ok HServing
  | Some NotServing => Ok HNotServing
  | None => Err "unimplemented"
  end.

(** ** Theorems: the order of a shutdown *)
Section shutdown_theorems.
Context {C : Chrono} {I : MapIter} {S L : Type} {RS : RegistryStore S} {LG : Leasing L}.
Implicit Types (v : RegistryService S L) (x : Running S L) (regs : list (Fate * Await * Registration)).

(** The awaits of the deregistrations, and what they do to the Registry. *)
Definition cancel_waits regs : list Await :=
  regs ≫= λ '(c, reg), match rn_slot reg with Some _ => [c.2] | None => [] end.

Fixpoint cancel_all regs v : RegistryService S L :=
  match regs with
  | [] => v
  | (c, reg) :: regs =>
      cancel_all regs match rn_slot reg with Some h => (handle_cancel c.1 v (sr_task h)).1 | None => v end
  end.

(** Everything a shutdown does before it waits for the servers. *)
Definition told_to_stop regs x : Running S L :=
  send_stop (trigger (set_registry (cancel_all regs (ru_registry x)) x)).

Lemma cancel_waits_cons c reg regs :
  cancel_waits ((c, reg) :: regs) =
    match rn_slot reg with Some _ => [c.2] | None => [] end ++ cancel_waits regs.
Proof. done. Qed.

Lemma deregister_all_run regs rem x :
  Forall await_ok (cancel_waits regs) → (0 ≤ rem)%Z →
  ∃ v o, deregister_all regs rem x = (set_registry v x, o) ∧
  match o with
  | Some (rem', _) => v = cancel_all regs (ru_registry x) ∧ (0 ≤ rem' ≤ rem)%Z ∧
      total (cancel_waits regs) = Some (rem - rem')%Z
  | None => in_time rem (cancel_waits regs) = false
  end.
Proof.
  revert rem x. induction regs as [|[[f w] reg] regs IH]; intros rem x Hw Hrem.
  { exists (ru_registry x), (Some (rem, ())). split; [by destruct x|]. split; [done|]. split; [lia|].
    cbn. by rewrite Z.sub_diag. }
  rewrite cancel_waits_cons in *. cbn [deregister_all cancel_all].
  unfold fbind, deregister. destruct (rn_slot reg) as [h|]; cbn [app fst snd] in *; [|by apply IH].
  apply Forall_cons in Hw as [Hw Hws]. cbn [fbind act wait].
  set (v1 := (handle_cancel f (ru_registry x) (sr_task h)).1). unfold fbind, act, wait. cbn [fst snd].
  destruct w as [ms|]; [|by exists v1, None].
  rewrite in_time_cons by done. cbn [total]. destruct (Z.leb_spec ms rem) as [Hle|Hgt]; [|by exists v1, None].
  destruct (IH (rem - ms)%Z (set_registry v1 x) Hws) as (v & o & E & Ho); [lia|].
  exists v, o. split; [exact E|]. destruct o as [[rem' []]|]; [|done].
  destruct Ho as (-> & Hr & Ht). cbn in Hw. split; [done|]. split; [lia|]. rewrite Ht. cbn. f_equal. lia.
Qed.

(** What follows the deregistrations, in both modes. *)
Definition stop_and_wait (drained : Await * result unit string) : future (Running S L) (result unit string) :=
  wait_for! _ := act trigger in
  wait_for! _ := act send_stop in
  wait_for! _ := wait drained.1 in
  fret drained.2.

Lemma total_snoc l a : total (l ++ [a]) = match total l, a with Some t, Takes ms => Some (t + ms)%Z | _, _ => None end.
Proof.
  induction l as [|[ms'|] l IH]; cbn; [destruct a; cbn; f_equal; lia| |done].
  rewrite IH. destruct (total l), a; cbn; f_equal; lia.
Qed.

Lemma drain_run regs drained rem x :
  Forall await_ok (cancel_waits regs) → await_ok drained.1 → (0 ≤ rem)%Z →
  let waits := cancel_waits regs ++ [drained.1] in
  ∃ x' o, fbind (deregister_all regs) (λ _, stop_and_wait drained) rem x = (x', o) ∧
  match o with
  | Some (rem', r) => x' = told_to_stop regs x ∧ (0 ≤ rem' ≤ rem)%Z ∧ r = drained.2 ∧
      total waits = Some (rem - rem')%Z
  | None => in_time rem waits = false ∧
      if in_time rem (cancel_waits regs) then x' = told_to_stop regs x
      else ∃ v, x' = set_registry v x
  end.
Proof.
  intros Hw Hd Hrem waits. destruct (deregister_all_run regs rem x Hw Hrem) as (v & o & E & Ho).
  unfold fbind at 1. rewrite E. subst waits. unfold in_time. rewrite total_snoc. destruct o as [[rem1 []]|].
  - destruct Ho as (-> & Hr & ->). unfold stop_and_wait, fbind, act, wait, fret. fold (told_to_stop regs x).
    destruct drained as [[ms|] r]; cbn in *.
    + destruct (Z.leb_spec ms rem1).
      * do 2 eexists. split; [reflexivity|]. cbn. split_and!; [done|lia|lia|done|f_equal; lia].
      * do 2 eexists. split; [reflexivity|]. cbn. split; [apply Z.leb_gt; lia|].
        rewrite (proj2 (Z.leb_le _ _)) by lia. done.
    + do 2 eexists. split; [reflexivity|]. cbn. split; [done|]. rewrite (proj2 (Z.leb_le _ _)) by lia. done.
  - do 2 eexists. split; [reflexivity|]. cbn. unfold in_time in Ho. destruct (total (cancel_waits regs)) as [t|].
    + rewrite Ho. split; [|by exists v]. destruct drained as [[ms|] r]; [|done]. cbn in *.
      apply Z.leb_gt in Ho. apply Z.leb_gt. lia.
    + split; [done|by exists v].
Qed.

Lemma health_after x ws w :
  ru_health (write_health (foldl write_health x ws) w) =
    match ru_health x with
    | Some _ => Some match w with ByShutdown => NotServing | ByResolver => Serving end
    | None => None
    end.
Proof.
  assert (H : is_Some (ru_health (foldl write_health x ws)) ↔ is_Some (ru_health x)).
  { revert x. induction ws as [|w' ws IH]; intros x; [done|]. cbn. rewrite IH.
    destruct w'; cbn; destruct (ru_health x); split; intros []; eauto. }
  rewrite <- !not_eq_None_Some in H.
  destruct w; cbn; destruct (ru_health (foldl _ _ _)), (ru_health x); try done; exfalso; naive_solver.
Qed.

(** Health checks of a draining service, whatever was written before.
    When the shutdown's NOT_SERVING is the last write, a check that reaches the
    service fails; when the resolver's comes after it, the check passes although
    the service is about to stop. *)
Theorem draining_health x ws w net :
  hn_valid_addr net = true → hn_connect net = (Takes 0, Ok ()) →
  hn_check net = (Takes 0, reported (ru_health (write_health (foldl write_health x ws) w))) →
  is_Some (ru_health x) →
  (run_healthcheck net).1 = match w with ByShutdown => Err (HStatus HNotServing) | ByResolver => Ok () end.
Proof.
  intros Hv Hc Hr [st Hx]. rewrite health_after, Hx in Hr.
  unfold run_healthcheck, timeout, check_once, answer, fbind, wait, fret. rewrite Hv, Hc, Hr. by destruct w.
Qed.

(** *** What a shutdown does, and in what order *)

(** The state after a shutdown that ended as [r] after [t] ms, with [ready] what
    precedes the wait for the servers and [done] the state it leaves. *)
Definition shutdown_spec (grace : Z) (ready : list Await) (drained : Await * result unit string)
    (final : Running S L) x (out : Running S L * result unit ShutdownError * Z) : Prop :=
  let '(x', r, t) := out in
  (0 ≤ t ≤ grace)%Z ∧
  if in_time grace (ready ++ [drained.1]) then
    total (ready ++ [drained.1]) = Some t ∧ r = map_err ServerFailed drained.2 ∧ x' = final
  else
    r = Err GraceElapsed ∧ t = grace ∧
    if in_time grace ready then x' = final
    else ru_stop x' = ru_stop x ∧ ru_streams x' = ru_streams x.

Lemma run_all_shutdown env regs drained x :
  Forall await_ok (cancel_waits regs) → await_ok drained.1 →
  shutdown_spec (shutdown_grace env) (cancel_waits regs) drained (told_to_stop regs x) x
    (run_all_serve env ShutdownFired regs drained x).
Proof.
  intros Hw Hd. pose proof (shutdown_grace_nonneg env) as Hg.
  destruct (drain_run regs drained (shutdown_grace env) x Hw Hd Hg) as (x' & o & E & Ho).
  unfold run_all_serve, timeout. fold (stop_and_wait drained). rewrite E.
  unfold shutdown_spec. destruct o as [[rem' r]|].
  - destruct Ho as (-> & Hr & -> & Ht). split; [lia|]. unfold in_time. rewrite Ht.
    rewrite (proj2 (Z.leb_le _ _)) by lia. done.
  - destruct Ho as [-> Ho]. split; [lia|]. split; [done|]. split; [done|].
    destruct (in_time _ _); [done|]. by destruct Ho as [v ->].
Qed.

Lemma total_cons a l : total (a :: l) = match a with Takes ms => (λ t, (ms + t)%Z) <$> total l | Hangs => None end.
Proof. by destruct a. Qed.

Lemma split_shutdown env health registration drained x :
  await_ok health → Forall await_ok (cancel_waits (option_list registration)) → await_ok drained.1 →
  shutdown_spec (shutdown_grace env) (health :: cancel_waits (option_list registration)) drained
    (told_to_stop (option_list registration) (set_health NotServing x)) x
    (serve_split env ShutdownFired health registration drained x).
Proof.
  intros Hh Hw Hd. pose proof (shutdown_grace_nonneg env) as Hg. set (regs := option_list registration) in *.
  assert (Hdereg : ∀ rem y,
    (match registration with Some (c, reg) => deregister c reg | None => fret () end : future (Running S L) unit) rem y =
    deregister_all regs rem y).
  { intros rem y. subst regs. destruct registration as [[c reg]|]; [|done]. 
    change (option_list (Some ?r)) with [r]. cbn [deregister_all].
    unfold fbind. by destruct (deregister c reg rem y) as [? [[? []]|]]. }
  assert (Hall : Forall await_ok (cancel_waits regs ++ [drained.1])) by (apply Forall_app; auto).
  unfold serve_split, timeout. fold (stop_and_wait drained). unfold fbind at 1 2 3. cbn [act].
  unfold shutdown_spec. cbn [app]. rewrite !in_time_cons by done.
  destruct health as [ms|]; cbn [wait]; [|split; [lia|done]].
  destruct (Z.leb_spec ms (shutdown_grace env)) as [Hle|Hgt]; [|split; [lia|done]]. cbn [andb]. cbn in Hh.
  destruct (drain_run regs drained (shutdown_grace env - ms) (set_health NotServing x) Hw Hd ltac:(lia))
    as (x' & o & E & Ho).
  unfold fbind at 1 in E. rewrite Hdereg. cbn [fst snd]. rewrite E.
  destruct o as [[rem' r]|].
  - destruct Ho as (-> & Hr & -> & Ht). split; [lia|]. rewrite total_cons, Ht. unfold in_time. rewrite Ht.
    rewrite (proj2 (Z.leb_le _ _)) by lia. cbn. split_and!; [f_equal; lia|done|done].
  - destruct Ho as [-> Ho]. split; [lia|]. split; [done|]. split; [done|].
    destruct (in_time _ _); [done|]. by destruct Ho as [v ->].
Qed.

(** C19: Shutdown of a service run by itself, and of the bundle.  It always ends,
    within the grace period.  When the status update (which only a service run by
    itself makes), the deregistrations and the wait for the open calls together
    fit in that period it returns the result of the server, an error if that ended
    with one, and the process has reported NOT_SERVING, left the Registry, ended
    its streams and stopped the server.  Otherwise it fails for having run out of
    time, and the servers were told to stop, and the streams to end, exactly if all
    that comes before was done in time. *)
Theorem shutdown_in_order env health registration regs drained x :
  await_ok health → Forall await_ok (cancel_waits (option_list registration)) →
  Forall await_ok (cancel_waits regs) → await_ok drained.1 →
  shutdown_spec (shutdown_grace env) (health :: cancel_waits (option_list registration)) drained
    (told_to_stop (option_list registration) (set_health NotServing x)) x
    (serve_split env ShutdownFired health registration drained x) ∧
  shutdown_spec (shutdown_grace env) (cancel_waits regs) drained (told_to_stop regs x) x
    (run_all_serve env ShutdownFired regs drained x).
Proof. intros. split; [by apply split_shutdown|by apply run_all_shutdown]. Qed.
End shutdown_theorems.

(** ** Theorems: what the Registry holds after a shutdown *)
Section unregistration.
Context {C : Chrono} {I : MapIter} {S L : Type}.
Context {RS : RegistryStore S} {RV : RegistryStoreView S} {RL : RegistryStoreLaws S}.
Context {LG : Leasing L} {LGV : LeasingView L} {LGL : LeasingLaws L}.
Implicit Types (v : RegistryService S L) (x : Running S L) (regs : list (Fate * Await * Registration)).

Abbreviation ents v := (rg_entries (rv_store v)).
Abbreviation leases v := (lg_leases (rv_leases v)).

(** The leases the handles of the registrations hold. *)
Definition held_leases regs : list string :=
  regs ≫= λ '(_, reg), match rn_slot reg with Some h => [cu_lease_id (rt_current (sr_task h))] | None => [] end.

(** The Registry's cascade on a list of reclaimed leases. *)
Definition reclaim_all v (l : list string) : RegistryService S L := foldl reclaim_entry v l.

(** A registration of the service [base] that is in place, and whose cancel call
    will be served. *)
Definition in_place v (base : RegisterRequest) (r : Fate * Await * Registration) : Prop :=
  r.1.1 = Delivered ∧
  ∃ h, rn_slot r.2 = Some h ∧ boot_reach base v (sr_task h) Waiting ∧
    rq_capability_id (rt_request (sr_task h)) ≠ "".

Lemma reclaim_all_filter l v :
  rg_inv (rv_store v) →
  ents (reclaim_all v l) = filter (λ kv, re_lease_id kv.2 ∉ l) (ents v).
Proof.
  revert v. induction l as [|lease l IH]; intros v Hinv.
  - symmetry. apply map_filter_id. intros k e _. apply not_elem_of_nil.
  - destruct (reclaim_entry_filter v lease Hinv) as (Hinv' & _ & He). unfold reclaim_all. cbn.
    fold (reclaim_all (reclaim_entry v lease) l). rewrite IH, He by done. rewrite map_filter_filter.
    apply map_filter_ext. intros k e _. cbn. rewrite not_elem_of_cons. tauto.
Qed.

Lemma in_place_lease v base r :
  in_place v base r →
  ∃ h, rn_slot r.2 = Some h ∧ cu_lease_id (rt_current (sr_task h)) ≠ "" ∧ rg_inv (rv_store v) ∧
    ∀ e, ents v !! cu_capability_id (rt_current (sr_task h)) = Some e →
      re_lease_id e = cu_lease_id (rt_current (sr_task h)).
Proof.
  intros (_ & h & Hs & [Hinv _ _ Hci Htr _]%boot_reach_ok & Hc). destruct (Htr Hc) as [Hcu Hlu].
  exists h. rewrite Hcu, Hlu. destruct Hci as [[]|(_ & Hl & Hown)]; done.
Qed.

Lemma handle_cancel_delivered v h :
  cu_lease_id (rt_current (sr_task h)) ≠ "" →
  let v' := (handle_cancel Delivered v (sr_task h)).1 in
  rv_store v' = rv_store v ∧ leases v' = delete (cu_lease_id (rt_current (sr_task h))) (leases v).
Proof.
  intros Hl. unfold handle_cancel, cancel_target.
  destruct (is_empty _) eqn:E; [by apply is_empty_true in E|]. cbn.
  pose proof (lg_cancel_law (rv_leases v) (cu_lease_id (rt_current (sr_task h)))) as Hlaw.
  destruct (lg_cancel _ _) as [l' res]. by destruct Hlaw as [_ Hdel].
Qed.

Lemma cancel_all_delivered v regs :
  (∀ r, r ∈ regs → r.1.1 = Delivered ∧ ∃ h, rn_slot r.2 = Some h ∧ cu_lease_id (rt_current (sr_task h)) ≠ "") →
  rv_store (cancel_all regs v) = rv_store v ∧
  leases (cancel_all regs v) = filter (λ kv, kv.1 ∉ held_leases regs) (leases v).
Proof.
  revert v. induction regs as [|[[f w] reg] regs IH]; intros v Hall.
  { split; [done|]. symmetry. apply map_filter_id. intros k r _. apply not_elem_of_nil. }
  destruct (Hall _ (list_elem_of_here _ _)) as (Hf & h & Hs & Hl). cbn in Hf, Hs. subst f. cbn [cancel_all]. rewrite Hs.
  destruct (handle_cancel_delivered v h Hl) as [Hst Hle]. cbn [fst].
  destruct (IH (handle_cancel Delivered v (sr_task h)).1) as [-> ->].
  { intros r Hr. apply Hall. by right. }
  split; [done|]. rewrite Hle. unfold held_leases at 2. cbn. rewrite Hs. cbn.
  fold (held_leases regs). apply map_eq. intros k. rewrite !map_lookup_filter.
  destruct (decide (k = cu_lease_id (rt_current (sr_task h)))) as [->|Hne].
  - rewrite lookup_delete_eq. destruct (leases v !! _); cbn; [|done]. rewrite option_guard_False; [done|].
    rewrite not_elem_of_cons. tauto.
  - rewrite lookup_delete_ne by done. destruct (leases v !! k); cbn; [|done].
    apply option_guard_iff. rewrite not_elem_of_cons. tauto.
Qed.

(** A shutdown of either mode. *)
Inductive shuts_down (env : environment) regs (drained : Await * result unit string) x
  : Running S L * result unit ShutdownError * Z → Prop :=
| shut_bundle : shuts_down env regs drained x (run_all_serve env ShutdownFired regs drained x)
| shut_split health registration : await_ok health → regs = option_list registration →
    shuts_down env regs drained x (serve_split env ShutdownFired health registration drained x).

Lemma shuts_down_stops env regs drained x x' r t :
  shuts_down env regs drained x (x', r, t) →
  Forall await_ok (cancel_waits regs) → await_ok drained.1 → ru_stop x = false → ru_stop x' = true →
  ru_registry x' = cancel_all regs (ru_registry x) ∧ ru_streams x' = Fired.
Proof.
  intros Hsh Hw Hd Hx Hx'. remember (x', r, t) as out eqn:Eout.
  destruct Hsh as [|health registration Hh ->].
  - pose proof (run_all_shutdown env regs drained x Hw Hd) as Hs. rewrite Eout in Hs. destruct Hs as [_ Hs].
    repeat case_match; destruct_and?; subst; cbn in *; try done; congruence.
  - pose proof (split_shutdown env health registration drained x Hh Hw Hd) as Hs.
    rewrite Eout in Hs. destruct Hs as [_ Hs].
    repeat case_match; destruct_and?; subst; cbn in *; try done; congruence.
Qed.

Lemma unregistered_when_stopped env bases regs drained x x' r t :
  shuts_down env regs drained x (x', r, t) →
  Forall2 (in_place (ru_registry x)) bases regs →
  Forall await_ok (cancel_waits regs) → await_ok drained.1 → ru_stop x = false → ru_stop x' = true →
  ru_streams x' = Fired ∧
  leases (ru_registry x') = filter (λ kv, kv.1 ∉ held_leases regs) (leases (ru_registry x)) ∧
  let v' := reclaim_all (ru_registry x') (held_leases regs) in
  ents v' = filter (λ kv, re_lease_id kv.2 ∉ held_leases regs) (ents (ru_registry x)) ∧
  ∀ q h, q ∈ regs → rn_slot q.2 = Some h → ents v' !! cu_capability_id (rt_current (sr_task h)) = None.
Proof.
  intros Hsh Hp Hw Hd Hx Hx'. destruct (shuts_down_stops _ _ _ _ _ _ _ Hsh Hw Hd Hx Hx') as [-> ->].
  assert (Hreg : ∀ q, q ∈ regs → ∃ base, in_place (ru_registry x) base q).
  { intros q Hq. apply list_elem_of_lookup in Hq as [i Hq]. destruct (Forall2_lookup_r _ _ _ _ _ Hp Hq) as (b & _ & ?). by exists b. }
  destruct (cancel_all_delivered (ru_registry x) regs) as [Hst Hle].
  { intros q [base Hq]%Hreg. split; [apply Hq|]. destruct (in_place_lease _ _ _ Hq) as (h & ? & ? & _). eauto. }
  split; [done|]. split; [done|]. cbv zeta.
  destruct regs as [|q0 regs0]; [split; [|by intros ? ? ?%elem_of_nil]|].
  { cbn. symmetry. apply map_filter_id. intros k e _. apply not_elem_of_nil. }
  set (regs := q0 :: regs0) in *.
  assert (Hinv : rg_inv (rv_store (ru_registry x))).
  { destruct (Hreg q0 (list_elem_of_here _ _)) as [base Hq]. by destruct (in_place_lease _ _ _ Hq) as (? & _ & _ & ? & _). }
  rewrite reclaim_all_filter by (by rewrite Hst). rewrite Hst. split; [done|].
  intros q h Hq Hs. destruct (Hreg q Hq) as [base Hb]. destruct (in_place_lease _ _ _ Hb) as (h' & Hs' & _ & _ & Hown).
  rewrite Hs in Hs'. injection Hs' as <-. apply map_lookup_filter_None. right. intros e He Hn. apply Hn. cbn [snd].
  rewrite (Hown e He). unfold held_leases. apply list_elem_of_bind. exists q. split; [|done]. destruct q as [c reg]. cbn in *. rewrite Hs.
  by left.
Qed.

(** C18: Once a server has been told to stop, no client can still find the
    services it stands for.  In either mode, if every registration was in place
    and the Registry served the cancel calls, then the Registry holds none of
    their leases, and its cascade removes the entries of those leases and no
    others: in particular each of the announced capabilities. *)
Theorem stopped_means_unregistered env bases regs drained x x' r t :
  shuts_down env regs drained x (x', r, t) →
  Forall2 (in_place (ru_registry x)) bases regs →
  Forall await_ok (cancel_waits regs) → await_ok drained.1 → ru_stop x = false → ru_stop x' = true →
  ru_streams x' = Fired ∧
  leases (ru_registry x') = filter (λ kv, kv.1 ∉ held_leases regs) (leases (ru_registry x)) ∧
  let v' := reclaim_all (ru_registry x') (held_leases regs) in
  ents v' = filter (λ kv, re_lease_id kv.2 ∉ held_leases regs) (ents (ru_registry x)) ∧
  ∀ q h, q ∈ regs → rn_slot q.2 = Some h → ents v' !! cu_capability_id (rt_current (sr_task h)) = None.
Proof. apply unregistered_when_stopped. Qed.

(** *** The registration task *)
Context (valid_uri : string → bool).

(** The ids the Registry draws for each round are new when the round comes, and
    what fails a call in transit is a transport failure. *)
Fixpoint rounds_ok v (initial : RegisterRequest) (rounds : list Round) : Prop :=
  match rounds with
  | [] => True
  | r :: rounds =>
      fate_ok (ro_fate r) = true ∧ fresh_ids v (ro_cap r) (ro_env r) ∧
      rounds_ok (register_over (ro_fate r) v (ro_cap r) (ro_env r) initial).1 initial rounds
  end.

(** The Registry when the calls of these rounds have been made. *)
Fixpoint after_rounds v (initial : RegisterRequest) (rounds : list Round) : RegistryService S L :=
  match rounds with
  | [] => v
  | r :: rounds => after_rounds (register_over (ro_fate r) v (ro_cap r) (ro_env r) initial).1 initial rounds
  end.

(** A registration just made: the handle holds the entry and its lease, and the
    renewal task starts from there. *)
Definition announced_as (initial : RegisterRequest) v' (h : SelfRegistrationHandle) : Prop :=
  boot_reach initial v' (sr_task h) Waiting ∧
  registered v' initial (cu_capability_id (rt_current (sr_task h))) (cu_lease_id (rt_current (sr_task h))) ∧
  rq_capability_id (rt_request (sr_task h)) ≠ "".

Lemma accepted_round v initial r v' answer h :
  rg_inv (rv_store v) → keyed_leases v → fresh_ids v (ro_cap r) (ro_env r) →
  rq_capability_id initial = "" → rq_lease_id initial = "" → fate_ok (ro_fate r) = true →
  register_over (ro_fate r) v (ro_cap r) (ro_env r) initial = (v', answer) →
  self_register initial answer = Ok h → announced_as initial v' h.
Proof.
  intros Hinv Hk Hfr Hc Hl Hf Hover Hself.
  destruct (register_over_spec _ _ _ _ _ _ _ Hinv Hk Hfr ltac:(by left) Hf Hover) as (_ & _ & _ & Ha).
  destruct answer as [resp|]; [|done]. destruct Ha as (l & El & Hreg & Hne & _).
  assert (ro_fate r = Delivered) as Hd.
  { unfold register_over in Hover. by destruct (ro_fate r). }
  rewrite Hd in Hover. split; [by eapply boot_init|]. injection Hself as <-. cbn. unfold reply_lease_id.
  rewrite El. done.
Qed.

(** A service gets registered.  Whatever the rounds before came to (no
    connection, a call lost on the way out or back, an error), a round whose call
    the Registry serves and whose lease it grants ends the loop, if none ended it
    before, with the service in the Registry under the lease the handle cancels;
    the pauses are 200 ms after a failed dial and 500 ms after a failed call. *)
Theorem registration_succeeds url initial v rounds r :
  valid_uri url = true → rq_capability_id initial = "" → rq_lease_id initial = "" →
  rg_inv (rv_store v) → keyed_leases v → rounds_ok v initial (rounds ++ [r]) →
  ro_fate r = Delivered → grants (after_rounds v initial rounds) (ro_cap r) (ro_env r) (rq_ttl_seconds initial) →
  let '(v', e, pauses) := self_register_retrying valid_uri v url initial (rounds ++ [r]) in
  ∃ h, e = Registered h ∧ announced_as initial v' h ∧
    Forall (λ ms, ms = 200%Z ∨ ms = 500%Z) pauses.
Proof.
  intros Hu Hc Hl. revert v. induction rounds as [|r0 rounds IH]; intros v Hinv Hk Hok Hd Hg;
    cbn [app self_register_retrying]; unfold dial_registry_authed; rewrite Hu; cbn [app rounds_ok] in Hok;
    destruct Hok as (Hf & Hfr & Hok).
  all: assert (H200 : ∀ n, Forall (λ ms, ms = 200%Z ∨ ms = 500%Z) (replicate n 200%Z))
    by (intros n; apply Forall_replicate; auto).
  all: match goal with |- context [register_over ?f ?v ?c ?e ?i] =>
    destruct (register_over f v c e i) as [v' answer] eqn:Hover end.
  - destruct (self_register initial answer) as [h|b] eqn:Hself.
    { exists h. split; [done|]. split; [by eapply accepted_round|done]. }
    exfalso. rewrite Hd in Hover. destruct Hg as [rec Hgr]. cbn in Hgr.
    pose proof (register_rpc_spec v (ro_cap r) (ro_env r) initial Hinv Hk Hfr ltac:(by left)) as Hs. cbn zeta in Hs.
    unfold register_over, over in Hover. destruct (register_rpc _ _ _ _) as [v2 [resp|st]]; cbn in *.
    + injection Hover as <- <-. done.
    + rewrite Hc in Hs. destruct Hs as (_ & _ & _ & _ & _ & e & He). congruence.
  - destruct (self_register initial answer) as [h|b] eqn:Hself.
    { exists h. split; [done|]. split; [by eapply accepted_round|done]. }
    destruct (register_over_spec _ _ _ _ _ _ _ Hinv Hk Hfr ltac:(by left) Hf Hover) as (Hinv' & Hk' & _ & _).
    cbn [after_rounds] in Hg. rewrite Hover in Hg. specialize (IH v' Hinv' Hk' Hok Hd Hg).
    destruct (self_register_retrying valid_uri v' url initial (rounds ++ [r])) as [[v'' e] more].
    destruct IH as (h & -> & Ha & Hm). exists h. split; [done|]. split; [done|].
    apply Forall_app. split; [done|]. constructor; [by right|done].
Qed.

(** *** Where a shutdown or a registration falls short *)

(** A Registry address that is no URI is not reported to anyone: the
    registration task panics at its first dial, the slot stays empty, and the
    service serves on without ever being announced. *)
Theorem invalid_url_never_announces url initial v r rounds interface :
  valid_uri url = false →
  let '(v', e, _) := self_register_retrying valid_uri v url initial (r :: rounds) in
  v' = v ∧ e = Panicked ∧ rn_slot (spawn_registration_end interface e) = None.
Proof. intros Hu. cbn. unfold dial_registry_authed. by rewrite Hu. Qed.

(** A deregistration the Registry never answers uses up the whole grace
    period: even with no call in flight, the shutdown fails, the streams are not
    ended and the servers are never told to stop. *)
Theorem hung_deregistration_cuts_shutdown env f reg h drained x :
  rn_slot reg = Some h → await_ok drained.1 →
  let '(x', r, t) := run_all_serve env ShutdownFired [(f, Hangs, reg)] drained x in
  r = Err GraceElapsed ∧ t = shutdown_grace env ∧ ru_stop x' = ru_stop x ∧ ru_streams x' = ru_streams x.
Proof.
  intros Hs Hd. pose proof (run_all_shutdown env [(f, Hangs, reg)] drained x) as H.
  rewrite cancel_waits_cons, Hs in H. specialize (H ltac:(by repeat constructor) Hd).
  destruct (run_all_serve _ _ _ _ _) as [[x' r] t]. destruct H as [_ H]. exact H.
Qed.

(** A shutdown that comes after the Registry has entered the service but
    before the task has stored the handle leaves the entry: there is nothing to
    cancel, and the entry stays until its lease runs out. *)
Theorem unstored_registration_lingers env initial v r v' answer h drained x :
  rg_inv (rv_store v) → keyed_leases v → fresh_ids v (ro_cap r) (ro_env r) →
  rq_capability_id initial = "" → rq_lease_id initial = "" → fate_ok (ro_fate r) = true →
  register_over (ro_fate r) v (ro_cap r) (ro_env r) initial = (v', answer) →
  self_register initial answer = Ok h → ru_registry x = v' → await_ok drained.1 →
  let '(x', _, _) := run_all_serve env ShutdownFired
    [(Delivered, Takes 0, spawn_registration_end (rq_interface initial) StillTrying)] drained x in
  registered (ru_registry x') initial (cu_capability_id (rt_current (sr_task h)))
    (cu_lease_id (rt_current (sr_task h))).
Proof.
  intros Hinv Hk Hfr Hc Hl Hf Hover Hself <- Hd.
  destruct (accepted_round v initial r _ answer h Hinv Hk Hfr Hc Hl Hf Hover Hself) as (_ & Hreg & _).
  pose proof (run_all_shutdown env [(Delivered, Takes 0, spawn_registration_end (rq_interface initial) StillTrying)]
    drained x ltac:(constructor) Hd) as H.
  destruct (run_all_serve _ _ _ _ _) as [[x' q] t]. destruct H as [_ H].
  assert (in_time (shutdown_grace env) [] = true) as Hg by (apply Z.leb_le, shutdown_grace_nonneg).
  cbn -[in_time] in H. rewrite Hg in H. destruct (in_time _ _); destruct_and?; subst; exact Hreg.
Qed.
End unregistration.

(** ** Concrete runs *)
Section samples.
#[local] Existing Instance chrono_sample.
#[local] Existing Instance canonical_iter.

Definition sample_net (connect check : Z) (h : option ServingStatus) : HealthNet :=
  {| hn_valid_addr := true; hn_connect := (Takes connect, Ok ()); hn_check := (Takes check, reported h) |}.

Theorem healthcheck_exact_witness :
  (run_healthcheck (sample_net 100 2900 (Some Serving))).1 = Ok () ∧
  (run_healthcheck (sample_net 100 2901 (Some Serving))).1 ≠ Ok ().
Proof.
  split.
  - apply (healthcheck_exact (sample_net 100 2900 (Some Serving))); [cbn; lia..|]. by vm_compute.
  - rewrite (proj2 (healthcheck_exact (sample_net 100 2901 (Some Serving)) ltac:(cbn; lia) ltac:(cbn; lia))).
    vm_compute. by intros (_ & _ & _ & ?).
Defined.

(** The Space of [Bootstrap]'s sample, announced, and a signal that finds it idle. *)
Definition space_registration : Registration := {| rn_interface := "Space"; rn_slot := Some boot_handle |}.

Definition space_running : Running InMemoryRegistryStore (LeaseManager InMemoryLeaseStore) :=
  {| ru_health := Some Serving; ru_registry := boot_v1; ru_streams := NotFired; ru_stop := false |}.

Definition grace_5s : environment :=
  λ k, if String.eqb k "COORDIN8_SHUTDOWN_GRACE_SECS" then Some " 5 " else None.

Definition space_shutdown (drain_ms : Z) :=
  serve_split grace_5s ShutdownFired (Takes 1) (Some (Delivered, Takes 20, space_registration))
    (Takes drain_ms, Ok ()) space_running.

Theorem shutdown_in_order_witness :
  (space_shutdown 300).1.2 = Ok () ∧ (space_shutdown 300).2 = 321%Z ∧
  (space_shutdown 6000).1.2 = Err GraceElapsed ∧ (space_shutdown 6000).2 = 5000%Z ∧
  ru_stop (space_shutdown 6000).1.1 = true.
Proof.
  assert (Hw : ∀ ms, (0 ≤ ms)%Z → shutdown_spec 5000 [Takes 1; Takes 20] (Takes ms, Ok ())
    (told_to_stop [(Delivered, Takes 20, space_registration)] (set_health NotServing space_running)) space_running
    (space_shutdown ms)).
  { intros ms Hms. apply (shutdown_in_order grace_5s (Takes 1) (Some (Delivered, Takes 20, space_registration)) []
      (Takes ms, Ok ()) space_running); [cbn; lia|by repeat constructor|constructor|done]. }
  pose proof (Hw 300%Z ltac:(lia)) as H1. pose proof (Hw 6000%Z ltac:(lia)) as H2.
  destruct (space_shutdown 300) as [[x1 r1] t1], (space_shutdown 6000) as [[x2 r2] t2].
  destruct H1 as (_ & Ht & -> & _). injection Ht as <-. destruct H2 as (_ & -> & -> & ->). by split_and!.
Defined.

Theorem stopped_means_unregistered_witness :
  let x' := (space_shutdown 300).1.1 in
  ru_stop x' = true ∧
  rg_entries (rv_store (reclaim_all (ru_registry x') ["lease-1"])) !! "cap-1" = None ∧
  is_Some (rg_entries (rv_store (ru_registry space_running)) !! "cap-1").
Proof.
  set (regs := [(Delivered, Takes 20, space_registration)]).
  pose proof (stopped_means_unregistered grace_5s [boot_base] regs (Takes 300, Ok ()) space_running
    (space_shutdown 300).1.1 (space_shutdown 300).1.2 (space_shutdown 300).2) as Hw.
  assert (Hs : ru_stop (space_shutdown 300).1.1 = true) by (vm_compute; reflexivity).
  destruct Hw as (_ & _ & _ & Hq).
  - rewrite <- !surjective_pairing.
    exact (shut_split grace_5s regs (Takes 300, Ok ()) space_running (Takes 1) (Some (Delivered, Takes 20, space_registration))
      ltac:(cbn; lia) eq_refl).
  - constructor; [|constructor]. split; [reflexivity|]. exists boot_handle.
    split; [reflexivity|]. split; [exact boot_reach_registered|discriminate].
  - repeat constructor; cbn; lia.
  - cbn; lia.
  - reflexivity.
  - exact Hs.
  - split; [exact Hs|]. split; [|vm_compute; eauto].
    apply (Hq (Delivered, Takes 20, space_registration) boot_handle); [left|reflexivity].
Defined.

(** Two failed dials and an answer lost on the way back, then success. *)
Definition sample_rounds : list Round :=
  [{| ro_failed_dials := 2; ro_fate := lost; ro_cap := "cap-1"; ro_env := boot_env "lease-1" |}].
Definition last_round : Round :=
  {| ro_failed_dials := 0; ro_fate := Delivered; ro_cap := "cap-2"; ro_env := boot_env "lease-2" |}.

Theorem registration_succeeds_witness :
  ∃ h, (self_register_retrying (λ _, true) sample_empty "http://registry:9002" boot_base
          (sample_rounds ++ [last_round])).1.2 = Registered h ∧
    (self_register_retrying (λ _, true) sample_empty "http://registry:9002" boot_base
       (sample_rounds ++ [last_round])).2 = [200; 200; 500]%Z.
Proof.
  pose proof (registration_succeeds (λ _, true) "http://registry:9002" boot_base sample_empty sample_rounds last_round
    eq_refl eq_refl eq_refl (store_inv_new) ltac:(apply keyed_local; by vm_compute)) as Hw.
  assert (Hp : (self_register_retrying (λ _, true) sample_empty "http://registry:9002" boot_base
    (sample_rounds ++ [last_round])).2 = [200; 200; 500]%Z) by (vm_compute; reflexivity).
  destruct (self_register_retrying _ _ _ _ _) as [[v' e] pauses].
  destruct Hw as (h & -> & _ & _).
  - split; [reflexivity|]. split; [apply fresh_local; by vm_compute|].
    split; [reflexivity|]. split; [apply fresh_local; by vm_compute|exact Logic.I].
  - reflexivity.
  - apply grants_local. vm_compute. reflexivity.
  - exists h. split; [reflexivity|exact Hp].
Defined.

Theorem draining_health_witness :
  (run_healthcheck (sample_net 0 0 (ru_health (write_health (foldl write_health space_running [ByShutdown]) ByResolver)))).1 = Ok () ∧
  (run_healthcheck (sample_net 0 0 (ru_health (write_health (foldl write_health space_running []) ByShutdown)))).1 =
    Err (HStatus HNotServing).
Proof.
  split.
  - apply (draining_health space_running [ByShutdown] ByResolver); [reflexivity..|by eexists].
  - apply (draining_health space_running [] ByShutdown); [reflexivity..|by eexists].
Defined.
End samples.
