(* ===== verification/Observability.v ===== *)
(** * Observability ([coordin8-observability])

    What the crate decides itself: the formats and ports read from the
    environment, the labels of a call, the counters its hooks keep, the routes of
    the metrics endpoint, and the metadata of an outgoing call.  The libraries it
    configures are parameters: the layer that fires the hooks of a call
    ([tower-http]), and the propagator that reads and writes a trace context
    ([opentelemetry]). *)

From S2P Require Import Prelude CoreTypes LeaseCore Allowlist Auth.
From Stdlib Require Import Strings.Ascii.

(** ** Logging ([logging.rs]) *)
Definition LOG_FORMAT_ENV_VAR : string := "COORDIN8_LOG_FORMAT".

Inductive LogFormat := Pretty | Json.

Definition log_format_from_opt (value : option string) : LogFormat :=
  match value with
  | Some v => if eq_ignore_ascii_case v "json" then Json else Pretty
  | None => Pretty
  end.

Definition log_format_from_env (env : string → option string) : LogFormat :=
  log_format_from_opt (env LOG_FORMAT_ENV_VAR).

(** ** Labels ([metrics.rs]) *)

Definition slash : ascii := "/"%char.

(** [trim_start_matches('/')]. *)
Fixpoint trim_slashes (s : string) : string :=
  match s with
  | String c rest => if Ascii.eqb c slash then trim_slashes rest else s
  | EmptyString => ""
  end.

Definition split_grpc_path (path : string) : string * string :=
  let trimmed := trim_slashes path in
  match split_once slash trimmed with
  | Some (service, method) => (service, method)
  | None => ("unknown", trimmed)
  end.

(** A span, by the labels [stash_grpc_labels] left on it; without the registry
    subscriber a span has none. *)
Record GrpcLabels := { gl_service : string; gl_method : string }.
Record Span := { sn_labels : option GrpcLabels }.

Definition stash_grpc_labels (registered : bool) (sp : Span) (service method : string) : Span :=
  if registered then {| sn_labels := Some {| gl_service := service; gl_method := method |} |} else sp.

Definition labels_from_span (sp : Span) : string * string :=
  match sn_labels sp with
  | Some l => (gl_service l, gl_method l)
  | None => ("unknown", "unknown")
  end.

(** [GrpcFailureClass]; the enum is open. *)
Inductive GrpcFailureClass (GrpcCode : Type) :=
| FStatus (code : option GrpcCode) (raw : Z)
| FError (message : string)
| FOther.
Arguments FStatus {GrpcCode}.
Arguments FError {GrpcCode}.
Arguments FOther {GrpcCode}.

(** ** Counters *)

(** The two metric families: a [u64] per service, method and code, and the
    observed latencies per service and method. *)
Record Metrics := {
  requests_total : gmap (string * string * string) Z;
  request_duration : gmap (string * string) (list Z)
}.

Definition metrics_new : Metrics := {| requests_total := ∅; request_duration := ∅ |}.

Definition record_call (labels : string * string) (code : string) (latency : Z) (m : Metrics) : Metrics := {|
  requests_total :=
    <[(labels, code) := wrap64 (default 0%Z (requests_total m !! (labels, code)) + 1)]> (requests_total m);
  request_duration := <[labels := default [] (request_duration m !! labels) ++ [latency]]> (request_duration m)
|}.

Definition on_response (latency : Z) (sp : Span) (m : Metrics) : Metrics :=
  record_call (labels_from_span sp) "Ok" latency m.

Section metrics.
(** The status codes of [tower-http] and their [Debug] names. *)
Context {GrpcCode : Type} (code_debug : GrpcCode → string).

Definition grpc_code_label (class : GrpcFailureClass GrpcCode) : string :=
  match class with
  | FStatus (Some code) _ => code_debug code
  | FStatus None raw => "unrecognized(" +:+ pretty raw +:+ ")"
  | FError _ => "transport_error"
  | FOther => "unknown"
  end.

Definition on_failure (class : GrpcFailureClass GrpcCode) (latency : Z) (sp : Span) (m : Metrics) : Metrics :=
  record_call (labels_from_span sp) (grpc_code_label class) latency m.

(** ** The server layer ([otel.rs]) *)

(** The hooks fired for one call. *)
Inductive Hook := OnResponse (latency : Z) | OnFailure (class : GrpcFailureClass GrpcCode) (latency : Z).

(** How a call ended: a response, classified as success or not, after some time;
    or no response. *)
Inductive CallEnd :=
| Responded (class : option (GrpcFailureClass GrpcCode)) (latency failed_after : Z)
| NoResponse (message : string) (latency : Z).

(** [tower_http::trace::TraceLayer]. *)
Class TraceLayer := hooks : CallEnd → list Hook.

(** Its documentation: [on_response] is called whenever the inner service
    responds, however the response is classified; [on_failure] is called, as well,
    when the response is classified as a failure, and when there is none. *)
Class TraceLayerLaws (T : TraceLayer) : Prop := {
  hooks_ok : ∀ t t', hooks (Responded None t t') = [OnResponse t];
  hooks_failed : ∀ c t t', hooks (Responded (Some c) t t') = [OnResponse t; OnFailure c t'];
  hooks_error : ∀ e t, hooks (NoResponse e t) = [OnFailure (FError e) t]
}.

Definition fire (sp : Span) (m : Metrics) (h : Hook) : Metrics :=
  match h with
  | OnResponse t => on_response t sp m
  | OnFailure c t => on_failure c t sp m
  end.

(** The span of a call and its labels ([make_span]). *)
Definition make_span (registered : bool) (path : string) : Span :=
  let '(service, method) := split_grpc_path path in
  stash_grpc_labels registered {| sn_labels := None |} service method.

(** One call through the layer. *)
Definition serve_call `{TraceLayer} (registered : bool) (m : Metrics) (call : string * CallEnd) : Metrics :=
  foldl (fire (make_span registered call.1)) m (hooks call.2).

Definition serve_calls `{TraceLayer} (registered : bool) (m : Metrics) (calls : list (string * CallEnd)) : Metrics :=
  foldl (serve_call registered) m calls.
End metrics.
Arguments CallEnd GrpcCode : clear implicits.
Arguments Hook GrpcCode : clear implicits.
Arguments TraceLayer GrpcCode : clear implicits.

(** ** The metrics endpoint *)
Definition PORT_ENV_VAR : string := "COORDIN8_METRICS_PORT".

Record MetricsConfig := { mc_port : option Z }.

Definition metrics_from_env (env : string → option string) : MetricsConfig :=
  {| mc_port := env PORT_ENV_VAR ≫= parse_u16 |}.

Definition metrics_enabled (c : MetricsConfig) : bool := bool_decide (is_Some (mc_port c)).

(** [MetricsConfig::spawn]: the address bound, if any. *)
Definition metrics_spawn (c : MetricsConfig) : option (string * Z) := (λ port, ("0.0.0.0", port)) <$> mc_port c.

(** A response: status, and the body, which is the snapshot or empty. *)
Definition handle_request {B} (render : B) (path method : string) : Z * option B :=
  if negb (String.eqb path "/metrics") then (404%Z, None)
  else if negb (String.eqb method "GET") then (405%Z, None)
  else (200%Z, Some render).

(** ** Tracing ([otel.rs], [propagation.rs]) *)
(** [HeaderExtractor::get]. *)
Definition header_get (headers : metadata) (key : string) : option string :=
  match headers !! key with Some (Text s) => Some s | _ => None end.

(** [MetadataInjector::set]: a key or a value that is not valid metadata is
    skipped. *)
Definition injector_set (is_key is_value : string → bool) (md : metadata) (kv : string * string) : metadata :=
  if is_key kv.1 && is_value kv.2 then <[kv.1 := Text kv.2]> md else md.

(** The propagator: what it sets for a context, and what it reads. *)
Class Propagator (Cx : Type) := {
  pg_inject : Cx → list (string * string);
  pg_extract : (string → option string) → Cx
}.

Section tracing.
Context {Cx : Type} `{Propagator Cx} (is_key is_value : string → bool).

Definition extract_parent_context (headers : metadata) : Cx := pg_extract (header_get headers).

(** [ClientTraceInterceptor::call], in the span with context [cx]. *)
Definition trace_call (cx : Cx) (req : metadata) : result metadata Status :=
  Ok (foldl (injector_set is_key is_value) req (pg_inject cx)).

(** A call on a channel from [wrap_traced_channel]: the trace interceptor is
    outermost, the client authentication inside it. *)
Definition traced_call (cc : ClientAuthConfig) (cx : Cx) (now : Z) (req : metadata) : result metadata Status :=
  let? req := trace_call cx req in client_call is_value cc now req.
End tracing.

(** ** Theorems: labels *)

Definition no_slash (s : string) : Prop := split_once slash s = None.

Lemma split_once_app a b : no_slash a → split_once slash (a +:+ String slash b) = Some (a, b).
Proof.
  unfold no_slash. induction a as [|c a IH]; intros Ha; [reflexivity|].
  rewrite cons_app. cbn [split_once] in *. destruct (Ascii.eqb slash c); [done|].
  destruct (split_once slash a) as [[]|]; [done|]. by rewrite IH.
Qed.

(** The labels of a well-formed path are its service and its method. *)
Lemma grpc_path_labels service method :
  no_slash service → service ≠ "" →
  split_grpc_path ("/" +:+ service +:+ "/" +:+ method) = (service, method).
Proof.
  intros Hn Hne. unfold split_grpc_path.
  assert (Ht : trim_slashes ("/" +:+ service +:+ "/" +:+ method) = service +:+ String slash method).
  { change ("/" +:+ ?x) with (String slash x). change ("/" +:+ ?x) with (String slash x). cbn [trim_slashes].
    rewrite Ascii.eqb_refl. destruct service as [|c service]; [done|]. rewrite cons_app. cbn [trim_slashes].
    destruct (Ascii.eqb_spec c slash) as [->|]; [by cbn in Hn|done]. }
  rewrite Ht, split_once_app by done. done.
Qed.

Lemma make_span_labels service method :
  no_slash service → service ≠ "" →
  labels_from_span (make_span true ("/" +:+ service +:+ "/" +:+ method)) = (service, method).
Proof. intros Hn Hne. unfold make_span. by rewrite grpc_path_labels. Qed.

(** ** Theorems: counters *)
Section counting.
Context {GrpcCode : Type} (code_debug : GrpcCode → string).
Context {T : TraceLayer GrpcCode} {TL : TraceLayerLaws T}.
Implicit Types (calls : list (string * CallEnd GrpcCode)) (m : Metrics).

(** The code a hook counts under. *)
Definition hook_code (h : Hook GrpcCode) : string :=
  match h with OnResponse _ => "Ok" | OnFailure c _ => grpc_code_label code_debug c end.

Lemma fire_total sp m h k :
  default 0%Z (requests_total (fire code_debug sp m h) !! k) =
    if decide ((labels_from_span sp, hook_code h) = k)
    then wrap64 (default 0%Z (requests_total m !! k) + 1) else default 0%Z (requests_total m !! k).
Proof.
  destruct h as [t|c t]; cbn; (case_decide as E; [rewrite <- E, lookup_insert_eq|rewrite lookup_insert_ne]); done.
Qed.

(** The entries a list of calls makes under a label and a code. *)
Definition entries_of (registered : bool) calls : list (string * string * string) :=
  calls ≫= λ c, (λ h, (labels_from_span (make_span registered c.1), hook_code h)) <$> hooks c.2.

Lemma wrap64_succ z : wrap64 (wrap64 z + 1) = wrap64 (z + 1).
Proof. unfold wrap64. by rewrite Zplus_mod_idemp_l. Qed.

Definition count (k : string * string * string) (l : list (string * string * string)) : Z :=
  Z.of_nat (length (filter (k =.) l)).

Lemma hooks_total sp hs m k z :
  default 0%Z (requests_total m !! k) = wrap64 z →
  default 0%Z (requests_total (foldl (fire code_debug sp) m hs) !! k) =
    wrap64 (z + count k ((λ h, (labels_from_span sp, hook_code h)) <$> hs)).
Proof.
  revert m z. induction hs as [|h hs IH]; intros m z Hm; cbn [foldl fmap list_fmap].
  { by rewrite Z.add_0_r. }
  unfold count. rewrite filter_cons. destruct (decide (k = _)) as [->|Hne].
  - rewrite (IH _ (z + 1)%Z).
    + cbn [length]. unfold count. f_equal. lia.
    + rewrite fire_total, decide_True, Hm by done. apply wrap64_succ.
  - apply IH. by rewrite fire_total, decide_False by auto.
Qed.

Lemma calls_total registered calls m k z :
  default 0%Z (requests_total m !! k) = wrap64 z →
  default 0%Z (requests_total (serve_calls code_debug registered m calls) !! k) =
    wrap64 (z + count k (entries_of registered calls)).
Proof.
  revert m z. induction calls as [|c calls IH]; intros m z Hm; [by cbn; rewrite Z.add_0_r|].
  change (serve_calls code_debug registered m (c :: calls))
    with (serve_calls code_debug registered (foldl (fire code_debug (make_span registered c.1)) m (hooks c.2)) calls).
  rewrite (IH _ _ (hooks_total (make_span registered c.1) (hooks c.2) m k z Hm)).
  unfold entries_of, count. cbn. rewrite filter_app, length_app. f_equal. lia.
Qed.

(** Calls with given labels, by how they ended. *)
Definition labelled (registered : bool) (labels : string * string) (c : string * CallEnd GrpcCode) : Prop :=
  labels_from_span (make_span registered c.1) = labels.
#[global] Instance labelled_dec registered labels c : Decision (labelled registered labels c).
Proof. unfold labelled. apply _. Defined.
Definition responded (e : CallEnd GrpcCode) : bool :=
  match e with Responded _ _ _ => true | NoResponse _ _ => false end.
Definition failure (e : CallEnd GrpcCode) : option (GrpcFailureClass GrpcCode) :=
  match e with Responded c _ _ => c | NoResponse msg _ => Some (FError msg) end.

(** The entries of one call: [Ok] if there was a response, and the code of the
    failure if there was one. *)
Lemma hooks_codes e :
  hook_code <$> hooks e =
    (if responded e then ["Ok"] else []) ++
    match failure e with Some c => [grpc_code_label code_debug c] | None => [] end.
Proof.
  destruct e as [[c|] t t'|msg t]; cbn.
  - by rewrite hooks_failed.
  - by rewrite hooks_ok.
  - by rewrite hooks_error.
Qed.

Lemma code_count code e :
  length (filter (code =.) (hook_code <$> hooks e)) =
    ((if decide (code = "Ok") then if responded e then 1 else 0 else 0) +
     if bool_decide ((grpc_code_label code_debug <$> failure e) = Some code) then 1 else 0)%nat.
Proof.
  assert (Hone : ∀ a, length (filter (code =.) [a]) = if decide (code = a) then 1%nat else 0%nat)
    by (intros a; rewrite filter_cons; by case_decide).
  rewrite hooks_codes, filter_app, length_app. f_equal.
  - destruct (responded e); [by rewrite Hone|by case_decide].
  - destruct (failure e) as [c|]; [|done]. rewrite Hone. cbn.
    case_decide; case_bool_decide; congruence.
Qed.

Lemma count_call registered labels code c :
  count (labels, code) ((λ h, (labels_from_span (make_span registered c.1), hook_code h)) <$> hooks c.2) =
    if decide (labelled registered labels c) then Z.of_nat (length (filter (code =.) (hook_code <$> hooks c.2))) else 0%Z.
Proof.
  unfold count, labelled. case_decide as El.
  - rewrite El. induction (hooks c.2) as [|h hs IH]; [done|]. rewrite !fmap_cons, !filter_cons.
    destruct (decide (code = hook_code h)) as [->|Hn].
    + rewrite decide_True by done. cbn in *. lia.
    + rewrite decide_False by congruence. exact IH.
  - induction (hooks c.2) as [|h hs IH]; [done|].
    rewrite fmap_cons, filter_cons, decide_False by congruence. exact IH.
Qed.

(** Counting a code, when each call has it at most once. *)
Lemma count_entries registered labels code (P : string * CallEnd GrpcCode → Prop) `{!∀ c, Decision (P c)} calls :
  (∀ c, c ∈ calls →
    length (filter (code =.) (hook_code <$> hooks c.2)) = if decide (P c) then 1%nat else 0%nat) →
  count (labels, code) (entries_of registered calls) =
    Z.of_nat (length (filter (λ c, labelled registered labels c ∧ P c) calls)).
Proof.
  intros Hc. induction calls as [|c calls IH]; [done|].
  unfold entries_of, count. cbn [mbind list_bind]. rewrite filter_app, length_app, Nat2Z.inj_add.
  fold (count (labels, code) ((λ h, (labels_from_span (make_span registered c.1), hook_code h)) <$> hooks c.2)).
  fold (entries_of registered calls). fold (count (labels, code) (entries_of registered calls)).
  rewrite count_call, IH by (intros; apply Hc; by right). rewrite filter_cons.
  destruct (decide (labelled registered labels c)) as [El|El].
  - rewrite Hc by (by left). destruct (decide (P c)).
    + rewrite decide_True by done. cbn [length]. lia.
    + rewrite decide_False by naive_solver. lia.
  - rewrite decide_False by naive_solver. lia.
Qed.

(** The counter of a service, method and code after a list of calls. *)
Definition counted (registered : bool) calls (labels : string * string) (code : string) : Z :=
  default 0%Z (requests_total (serve_calls code_debug registered metrics_new calls) !! (labels, code)).

(** The requests counted.  Under a service and method the code [Ok]
    counts every call that was answered, those answered with an error included;
    any other code counts the calls that failed with it.  A call answered with an
    error is thus counted twice, once as a success. *)
Theorem ok_counts_every_response registered labels calls :
  (∀ c e, c ∈ calls → failure c.2 = Some e → grpc_code_label code_debug e ≠ "Ok") →
  counted registered calls labels "Ok" =
    wrap64 (Z.of_nat (length (filter (λ c, labelled registered labels c ∧ responded c.2 = true) calls))) ∧
  ∀ code, code ≠ "Ok" →
    counted registered calls labels code = wrap64 (Z.of_nat (length (filter (λ c, labelled registered labels c ∧
      (grpc_code_label code_debug <$> failure c.2) = Some code) calls))).
Proof.
  intros Hne. unfold counted. split; [|intros code Hcode];
    rewrite (calls_total registered calls metrics_new _ 0), Z.add_0_l by done.
  - rewrite (count_entries _ _ _ (λ c, responded c.2 = true)); [done|].
    intros c Hin. rewrite code_count, decide_True by done.
    assert (bool_decide ((grpc_code_label code_debug <$> failure c.2) = Some "Ok") = false) as ->.
    { apply bool_decide_eq_false. intros (e & Ef & E)%fmap_Some. by eapply Hne. }
    by destruct (responded c.2).
  - rewrite (count_entries _ _ _ (λ c, (grpc_code_label code_debug <$> failure c.2) = Some code)); [done|].
    intros c Hin. rewrite code_count, decide_False by done. by repeat case_bool_decide || case_decide.
Qed.

(** A call on any path a client chooses, answered. *)
Definition answered_call (w : string * string) : string * CallEnd GrpcCode :=
  ("/" +:+ w.1 +:+ "/" +:+ w.2, Responded None 0 0).

Lemma fire_keeps sp m h k :
  is_Some (requests_total m !! k) → is_Some (requests_total (fire code_debug sp m h) !! k).
Proof. intros Hk. destruct h; cbn; apply lookup_insert_is_Some'; by right. Qed.

Lemma serve_calls_keeps registered calls m k :
  is_Some (requests_total m !! k) → is_Some (requests_total (serve_calls code_debug registered m calls) !! k).
Proof.
  revert m. induction calls as [|c calls IH]; intros m Hk; [done|]. apply IH. unfold serve_call.
  revert m Hk. induction (hooks c.2) as [|h hs IHh]; intros m Hk; [done|]. by apply IHh, fire_keeps.
Qed.

(** The layer sits outside authentication and routing, so the labels are
    whatever the client puts in the path: as many different paths, as many
    different series. *)
Theorem labels_follow_the_client ws :
  NoDup ws → Forall (λ w, no_slash w.1 ∧ w.1 ≠ "") ws →
  length ws ≤ size (requests_total (serve_calls code_debug true metrics_new (answered_call <$> ws))).
Proof.
  intros Hnd Hok. rewrite <- size_dom.
  transitivity (size (list_to_set ((λ w, (w, "Ok")) <$> ws) : gset (string * string * string))).
  { rewrite size_list_to_set, length_fmap; [done|]. apply NoDup_fmap_2; [|done]. by intros ? ? [=]. }
  apply subseteq_size. intros k. rewrite elem_of_list_to_set. intros (w & -> & Hw)%list_elem_of_fmap.
  apply elem_of_dom. apply list_elem_of_split in Hw as (l1 & l2 & ->).
  rewrite fmap_app, fmap_cons. unfold serve_calls. rewrite foldl_app. cbn [foldl].
  apply serve_calls_keeps. apply Forall_app in Hok as [_ [[Hn Hne] _]%Forall_cons].
  unfold serve_call. cbn [answered_call fst snd]. rewrite hooks_ok. cbn [foldl fire on_response].
  unfold on_response. rewrite make_span_labels by done. cbn. rewrite <- surjective_pairing, lookup_insert_eq. eauto.
Qed.
End counting.

(** ** Theorems: trace context *)

(** The W3C propagator, on valid contexts: what it sets are distinct keys of its
    own with valid values, and reading them back gives the context. *)
Class PropagatorLaws {Cx} (P : Propagator Cx) (is_key is_value : string → bool) (valid : Cx → Prop) : Prop := {
  pg_keys : ∀ cx, NoDup (pg_inject cx).*1;
  pg_own : ∀ cx kv, kv ∈ pg_inject cx → kv.1 ≠ "authorization" ∧ is_key kv.1 = true ∧ is_value kv.2 = true;
  pg_roundtrip : ∀ cx get, valid cx → (∀ k v, (k, v) ∈ pg_inject cx → get k = Some v) → pg_extract get = cx
}.

Section trace_theorems.
Context {Cx : Type} {P : Propagator Cx} (is_key is_value : string → bool) (valid : Cx → Prop).
Context {PL : PropagatorLaws P is_key is_value valid}.
Context {J : Jwt} {C : Chrono} {JL : JwtLaws J is_value} {CL : ChronoLaws C}.

Lemma injected md l :
  NoDup l.*1 → Forall (λ kv, is_key kv.1 = true ∧ is_value kv.2 = true) l →
  let md' := foldl (injector_set is_key is_value) md l in
  (∀ k v, (k, v) ∈ l → md' !! k = Some (Text v)) ∧ (∀ k, k ∉ l.*1 → md' !! k = md !! k).
Proof.
  cbv zeta. revert md. induction l as [|[k v] l IH]; intros md Hnd Hok; [by split; [intros ? ? ?%elem_of_nil|]|].
  cbn in Hnd. apply NoDup_cons in Hnd as [Hk Hnd]. apply Forall_cons in Hok as [[H1 H2] Hok]. cbn in H1, H2.
  cbn [foldl]. assert (injector_set is_key is_value md (k, v) = <[k:=Text v]> md) as ->
    by (unfold injector_set; cbn; by rewrite H1, H2).
  destruct (IH (<[k:=Text v]> md) Hnd Hok) as [Hin Hout]. split.
  - intros k' v' [[= -> ->]|Hin']%elem_of_cons; [|auto]. by rewrite Hout, lookup_insert_eq.
  - intros k' Hk'. cbn in Hk'. apply not_elem_of_cons in Hk' as [Hne Hk']. by rewrite Hout, lookup_insert_ne.
Qed.

(** A call between two services of a deployment.  Made through a traced
    channel with the caller's own configuration, it carries the caller's trace
    context to the callee whatever it carried before, and, when the two share
    their secret, passes the callee's interceptor. *)
Theorem trace_context_survives a b subject cx now now' req t :
  valid cx →
  ac_secret a = ac_secret b → ac_issuer b = None → ac_claims_check b = None →
  mint_token now (default "" (ac_secret a)) subject five_minutes None None = Ok t →
  (timestamp now' < timestamp now + 300)%Z →
  ∃ req', traced_call is_key is_value (client_config a subject) cx now req = Ok req' ∧
    auth_call b now' req' = Ok req' ∧ extract_parent_context req' = cx.
Proof.
  intros Hv Hs Hi Hc Ht Hlt. unfold traced_call, trace_call. cbn [rbind].
  set (md := foldl _ req (pg_inject cx)).
  destruct (self_minted_call_accepted is_value a b subject now now' md t Hs Hi Hc Ht Hlt) as (req' & Hreq & Hauth & _).
  exists req'. split; [done|]. split; [done|]. apply pg_roundtrip; [done|]. intros k v Hkv.
  destruct (injected req (pg_inject cx) (pg_keys cx)) as [Hin _].
  { apply Forall_forall. intros kv H. by destruct (pg_own cx kv H) as (_ & ? & ?). }
  destruct (pg_own cx (k, v) Hkv) as [Hne _]. cbn in Hne. fold md in Hin.
  assert (Hsame : req' !! k = md !! k).
  { unfold client_call in Hreq. repeat case_match; simplify_eq; [|done..]. by rewrite lookup_insert_ne. }
  unfold header_get. by rewrite Hsame, (Hin k v Hkv).
Qed.
End trace_theorems.

(** ** Concrete instances *)
Section samples.
#[local] Existing Instance chrono_sample.
#[local] Existing Instance toy_jwt.
#[local] Existing Instance toy_jwt_laws.

(** Codes by name, and a layer that behaves as documented. *)
#[local] Instance sample_layer : TraceLayer string := λ e,
  match e with
  | Responded None t _ => [OnResponse t]
  | Responded (Some c) t t' => [OnResponse t; OnFailure c t']
  | NoResponse msg t => [OnFailure (FError msg) t]
  end.
#[local] Instance sample_layer_laws : TraceLayerLaws sample_layer.
Proof. split; reflexivity. Qed.

Definition refused_call : string * CallEnd string :=
  ("/coordin8.RegistryService/Register", Responded (Some (FStatus (Some "Unauthenticated") 16)) 5 5).

(** Three refused calls: three successes on the counter. *)
Theorem ok_counts_every_response_witness :
  counted (λ s, s) true [refused_call; refused_call; refused_call] ("coordin8.RegistryService", "Register") "Ok" = 3%Z ∧
  counted (λ s, s) true [refused_call; refused_call; refused_call] ("coordin8.RegistryService", "Register") "Unauthenticated" = 3%Z.
Proof.
  destruct (ok_counts_every_response (λ s, s) true ("coordin8.RegistryService", "Register")
    [refused_call; refused_call; refused_call]) as [H1 H2].
  - intros c e Hin. assert (c = refused_call) as ->.
    { repeat (apply elem_of_cons in Hin as [->|Hin]; [reflexivity|]). by apply elem_of_nil in Hin. }
    intros [= <-]. discriminate.
  - rewrite H1, (H2 "Unauthenticated") by discriminate. split; vm_compute; reflexivity.
Defined.

Theorem labels_follow_the_client_witness :
  2 ≤ size (requests_total (serve_calls (λ s : string, s) true metrics_new
    (answered_call <$> [("a", "1"); ("b", "2")]))).
Proof.
  apply (labels_follow_the_client (λ s : string, s) [("a", "1"); ("b", "2")]).
  - apply (bool_decide_unpack _). vm_compute. exact Logic.I.
  - repeat constructor; discriminate.
Defined.

#[local] Instance one_header : Propagator string :=
  {| pg_inject := λ cx, [("traceparent", cx)]; pg_extract := λ get, default "" (get "traceparent") |}.
#[local] Instance one_header_laws : PropagatorLaws one_header (λ _, true) (λ _, true) (λ _, True).
Proof.
  split.
  - intros cx. apply NoDup_singleton.
  - intros cx kv ->%list_elem_of_singleton. by split_and!.
  - intros cx get _ Hget. cbn. by rewrite (Hget "traceparent" cx) by left.
Qed.

Theorem trace_context_survives_witness :
  ∃ req', traced_call (λ _, true) (λ _, true) (client_config shared "space") "00-4bf9-00f0-01" 0 ∅ = Ok req' ∧
    auth_call shared 100000000000 req' = Ok req' ∧ extract_parent_context req' = "00-4bf9-00f0-01".
Proof.
  apply (trace_context_survives (λ _, true) (λ _, true) (λ _, True) (CL := chrono_sample_laws) shared shared "space"
    "00-4bf9-00f0-01" 0 100000000000 ∅ "s3cret"); [exact Logic.I|reflexivity|reflexivity|reflexivity|reflexivity|by_compute].
Defined.
End samples.
