(* ===== verification/Telemetry.v ===== *)
(** * Telemetry of a process ([coordin8-observability]: [otel.rs], [logging.rs],
    [lib.rs], the server of [metrics.rs])

    What [init] reads from the environment and installs in the process: the log
    format, the tracing configuration with its sampling ratio, the exporter and
    the global propagator; and the loop of the metrics server.  [f64] is the
    binary64 format of [SpecFloat]; parsing rounds to nearest, ties to even.  The
    OTLP exporter builder is a parameter: whether it accepts an endpoint. *)

From S2P Require Import Prelude CoreTypes Allowlist Auth Observability.
From Stdlib Require Import Floats.SpecFloat Strings.Ascii.

(** ** [f64] *)
Abbreviation f64 := spec_float.

#[global] Instance f64_eq_dec : EqDecision f64.
Proof. solve_decision. Defined.

Definition f64_zero : f64 := S754_zero false.
Definition f64_one : f64 := S754_finite false 4503599627370496 (-52).

(** The [f64] nearest to [m * 10^e], with a sign. *)
Definition f64_of_decimal (neg : bool) (m e : Z) : f64 :=
  match m with
  | Zpos p =>
      if (0 <=? e)%Z then
        match (m * 10 ^ e)%Z with Zpos p => binary_round 53 1024 neg p 0 | _ => S754_zero neg end
      else
        let '(q, x, l) := SFdiv_core_binary 53 1024 m 0 (10 ^ (- e)) 0 in
        binary_round_aux 53 1024 neg q x l
  | _ => S754_zero neg
  end.

Definition digit (c : ascii) : option Z :=
  let n := Z.of_nat (nat_of_ascii c) in
  if (48 <=? n)%Z && (n <=? 57)%Z then Some (n - 48)%Z else None.

(** The digits at the front: their value after [acc], how many, and the rest. *)
Fixpoint digits (acc : Z) (n : nat) (s : string) : Z * nat * string :=
  match s with
  | String c rest =>
      match digit c with
      | Some d => digits (acc * 10 + d) (S n) rest
      | None => (acc, n, s)
      end
  | EmptyString => (acc, n, s)
  end.

(** An optional sign. *)
Definition signed (s : string) : bool * string :=
  match s with
  | String c rest =>
      if Ascii.eqb c "-" then (true, rest) else if Ascii.eqb c "+" then (false, rest) else (false, s)
  | EmptyString => (false, s)
  end.

(** The exponent, up to the end: absent, or [e] with a signed number. *)
Definition exponent (s : string) : option Z :=
  match s with
  | EmptyString => Some 0%Z
  | String c rest =>
      if Ascii.eqb c "e" || Ascii.eqb c "E" then
        let '(neg, rest) := signed rest in
        match digits 0 0 rest with
        | (x, S _, EmptyString) => Some (if neg then - x else x)%Z
        | _ => None
        end
      else None
  end.

(** A decimal number: digits with an optional point, at least one digit, and an
    exponent. *)
Definition parse_number (neg : bool) (s : string) : option f64 :=
  let '(whole, n, rest) := digits 0 0 s in
  let '(m, k, rest) :=
    match rest with
    | String c frac => if Ascii.eqb c "." then digits whole 0 frac else (whole, 0%nat, rest)
    | EmptyString => (whole, 0%nat, rest)
    end in
  if bool_decide (n + k = 0)%nat then None
  else (λ e, f64_of_decimal neg m (e - Z.of_nat k)) <$> exponent rest.

(** [str::parse::<f64>]. *)
Definition parse_f64 (s : string) : option f64 :=
  let '(neg, rest) := signed s in
  if eq_ignore_ascii_case rest "inf" || eq_ignore_ascii_case rest "infinity" then Some (S754_infinity neg)
  else if eq_ignore_ascii_case rest "nan" then Some S754_nan
  else parse_number neg rest.

(** [f64::clamp]. *)
Definition clamp (lo hi x : f64) : f64 :=
  let x := if SFltb x lo then lo else x in
  if SFltb hi x then hi else x.

(** ** [TracingConfig] *)
Definition ENDPOINT_ENV_VAR : string := "COORDIN8_OTEL_ENDPOINT".
Definition SAMPLE_RATIO_ENV_VAR : string := "COORDIN8_OTEL_SAMPLE_RATIO".
Definition DEFAULT_SAMPLE_RATIO : f64 := f64_one.

Record TracingConfig := {
  tg_service_name : string;
  tg_endpoint : option string;
  tg_sample_ratio : f64
}.

Definition parse_otel_endpoint (value : option string) : option string :=
  match value with
  | Some s => if negb (is_empty s) then Some s else None
  | None => None
  end.

Definition parse_sample_ratio (value : option string) : f64 :=
  default DEFAULT_SAMPLE_RATIO (clamp f64_zero f64_one <$> (value ≫= parse_f64)).

Definition tracing_from_env (env : string → option string) (service_name : string) : TracingConfig := {|
  tg_service_name := service_name;
  tg_endpoint := parse_otel_endpoint (env ENDPOINT_ENV_VAR);
  tg_sample_ratio := parse_sample_ratio (env SAMPLE_RATIO_ENV_VAR)
|}.

Definition export_enabled (c : TracingConfig) : bool := bool_decide (is_Some (tg_endpoint c)).

(** The provider: the attribute of its resource, its sampler and its exporter. *)
Inductive Exporter := Otlp (endpoint : string) | NoopExporter.
Record Provider := { pv_service_name : string; pv_ratio : f64; pv_exporter : Exporter }.

Section setup.
Context (build_ok : string → bool).

Definition build_provider (c : TracingConfig) : Provider := {|
  pv_service_name := tg_service_name c;
  pv_ratio := tg_sample_ratio c;
  pv_exporter := match tg_endpoint c with
                 | Some endpoint => if build_ok endpoint then Otlp endpoint else NoopExporter
                 | None => NoopExporter
                 end
|}.

(** ** What is installed in a process

    The global propagator, the providers leaked, and the global subscriber. *)
Record Subscriber := { sb_directive : string; sb_format : LogFormat; sb_tracer : Provider }.

Record Process := {
  ps_propagator : bool;
  ps_leaked : list Provider;
  ps_subscriber : option Subscriber
}.

Definition fresh_process : Process := {| ps_propagator := false; ps_leaked := []; ps_subscriber := None |}.

(** [TracingConfig::layer]: installs the propagator and leaks the provider. *)
Definition layer (c : TracingConfig) (p : Process) : Process * Provider :=
  let provider := build_provider c in
  ({| ps_propagator := true; ps_leaked := ps_leaked p ++ [provider]; ps_subscriber := ps_subscriber p |}, provider).

Record LoggingConfig := { lg_format : LogFormat }.

Definition logging_from_env (env : string → option string) : LoggingConfig :=
  {| lg_format := log_format_from_env env |}.

(** [LoggingConfig::fmt_layer]: the encoding of the lines. *)
Definition fmt_layer (c : LoggingConfig) : LogFormat :=
  match lg_format c with Pretty => Pretty | Json => Json end.

(** [coordin8_observability::init]; [None]: it panicked, a subscriber is set. *)
Definition init (env : string → option string) (service_name : string) (p : Process) : option Process :=
  let logging := logging_from_env env in
  let tracing_cfg := tracing_from_env env service_name in
  let '(p, tracer) := layer tracing_cfg p in
  match ps_subscriber p with
  | Some _ => None
  | None =>
      Some {| ps_propagator := ps_propagator p; ps_leaked := ps_leaked p;
              ps_subscriber := Some {| sb_directive := "coordin8=info"; sb_format := fmt_layer logging; sb_tracer := tracer |} |}
  end.
End setup.

(** ** Propagation through the global propagator

    Until one is installed it writes and reads nothing. *)
Section propagation.
Context {Cx : Type} {P : Propagator Cx} (no_context : Cx) (is_key is_value : string → bool).

Definition in_process (p : Process) : Propagator Cx := {|
  pg_inject := λ cx, if ps_propagator p then pg_inject cx else [];
  pg_extract := λ get, if ps_propagator p then pg_extract get else no_context
|}.
End propagation.

(** ** The metrics server

    [serve] on what the listener accepts: a failed accept is skipped; a
    connection is a list of requests, each a path and a method. *)
Definition serve_metrics {B} (render : B) (bound : bool) (accepted : list (option (list (string * string))))
  : list (list (Z * option B)) :=
  if bound
  then omap (λ conn : option (list (string * string)),
      (λ reqs : list (string * string), (λ r, handle_request render r.1 r.2) <$> reqs) <$> conn) accepted
  else [].

(** [spawn] and the task it starts. *)
Definition metrics_server {B} (render : B) (c : MetricsConfig) (bound : bool)
    (accepted : list (option (list (string * string)))) : list (list (Z * option B)) :=
  match metrics_spawn c with
  | Some _ => serve_metrics render bound accepted
  | None => []
  end.

(** ** Theorems *)

(** Comparison on binary floats is antisymmetric where it is defined. *)
Lemma sf_compare_swap x y : SFcompare y x = CompOpp <$> SFcompare x y.
Proof.
  destruct x as [[]|[]| |[] m e], y as [[]|[]| |[] m' e']; try reflexivity; cbn;
    rewrite (Z.compare_antisym e e'); destruct (e ?= e')%Z; try reflexivity; cbn;
    change (Pos.compare_cont Eq m' m) with (m' ?= m)%positive;
    change (Pos.compare_cont Eq m m') with (m ?= m')%positive;
    rewrite (Pos.compare_antisym m m'); by destruct (m ?= m')%positive.
Qed.

Lemma sf_compare_nan x y : x ≠ S754_nan → y ≠ S754_nan → is_Some (SFcompare x y).
Proof. by destruct x as [[]|[]| |[] ? ?], y as [[]|[]| |[] ? ?]; cbn; eauto. Qed.

(** What is not below is at least as large, unless one of the two is NaN. *)
Lemma sf_not_below x y : x ≠ S754_nan → y ≠ S754_nan → SFltb x y = false → SFleb y x = true.
Proof.
  intros Hx Hy. unfold SFltb, SFleb. rewrite (sf_compare_swap x y).
  destruct (sf_compare_nan x y Hx Hy) as [c ->]. by destruct c.
Qed.

(** Clamping between ordered bounds, neither of them NaN, gives NaN or a number
    between them. *)
Lemma clamp_between lo hi x :
  lo ≠ S754_nan → hi ≠ S754_nan → SFleb lo hi = true →
  clamp lo hi x = S754_nan ∨ (SFleb lo (clamp lo hi x) = true ∧ SFleb (clamp lo hi x) hi = true).
Proof.
  intros Hlo Hhi Hle. unfold clamp. destruct (SFltb x lo) eqn:E1.
  - assert (Hn : SFltb hi lo = false).
    { unfold SFleb in Hle. unfold SFltb. rewrite (sf_compare_swap lo hi).
      destruct (SFcompare lo hi) as [[]|]; done. }
    rewrite Hn. right. split; [|done]. by apply sf_not_below; [..|destruct lo as [[]|[]| |[] ? ?]; cbn; rewrite ?Z.compare_refl, ?Pos.compare_cont_refl].
  - destruct (decide (x = S754_nan)) as [->|Hx]; [left; by destruct hi as [[]|[]| |[] ? ?]|right].
    destruct (SFltb hi x) eqn:E2.
    + split; [done|]. by apply sf_not_below; [..|destruct hi as [[]|[]| |[] ? ?]; cbn; rewrite ?Z.compare_refl, ?Pos.compare_cont_refl].
    + split; by apply sf_not_below.
Qed.

(** The sampling ratio is between 0 and 1 whatever the variable holds,
    or it is NaN. *)
Theorem sample_ratio_bounded value :
  let r := parse_sample_ratio value in
  r = S754_nan ∨ (SFleb f64_zero r = true ∧ SFleb r f64_one = true).
Proof.
  unfold parse_sample_ratio. destruct (value ≫= parse_f64) as [x|]; cbn [fmap option_fmap option_map default].
  - by apply clamp_between.
  - by right.
Qed.

(** Parsing rounds to the nearest value, also at the ends of the range. *)
Example parse_f64_samples :
  parse_f64 "0.1" = Some (S754_finite false 7205759403792794 (-56)) ∧
  parse_f64 "-.5e1" = Some (S754_finite true 5629499534213120 (-50)) ∧
  parse_f64 "1e400" = Some (S754_infinity false) ∧ parse_f64 "1e-400" = Some (S754_zero false) ∧
  parse_f64 "5e-324" = Some (S754_finite false 1 (-1074)) ∧
  parse_f64 "." = None ∧ parse_f64 "1e" = None ∧ parse_f64 "" = None.
Proof. repeat split; vm_compute; reflexivity. Qed.

(** And NaN it can be: clamping keeps it. *)
Theorem nan_ratio_accepted : parse_sample_ratio (Some "NaN") = S754_nan.
Proof. vm_compute. reflexivity. Qed.

(** [init] installs the propagator and the subscriber whatever the environment
    holds and whether or not the exporter can be built; spans leave the process
    exactly when an endpoint is set for which it can.  A second call panics. *)
Theorem init_outcome build_ok env name :
  ∃ p, init build_ok env name fresh_process = Some p ∧ ps_propagator p = true ∧
    (∀ e, (pv_exporter <$> ps_leaked p = [Otlp e]) ↔
       (env ENDPOINT_ENV_VAR = Some e ∧ e ≠ "" ∧ build_ok e = true)) ∧
    (∀ env' name', init build_ok env' name' p = None).
Proof.
  unfold init. cbn. eexists. split; [done|]. split; [done|]. split; [|done]. intros e. cbn.
  unfold parse_otel_endpoint. destruct (env ENDPOINT_ENV_VAR) as [x|]; [|naive_solver].
  destruct (is_empty x) eqn:Hx; cbn.
  - apply is_empty_true in Hx as ->. naive_solver.
  - assert (x ≠ "") by (intros ->; done). destruct (build_ok x) eqn:Hb; naive_solver congruence.
Qed.

Section trace_theorems.
Context {Cx : Type} {P : Propagator Cx} (no_context : Cx) (is_key is_value : string → bool) (valid : Cx → Prop).
Context {PL : PropagatorLaws P is_key is_value valid}.

(** Propagation does not depend on export: between any two processes that called
    [init], a call carries the caller's trace context; a process that did not
    call it adds nothing to its calls and takes every request for a new root. *)
Theorem propagation_unconditional build_ok env env' name name' p p' cx req req' :
  init build_ok env name fresh_process = Some p → init build_ok env' name' fresh_process = Some p' → valid cx →
  (trace_call (H := in_process no_context p) is_key is_value cx req = Ok req' →
   extract_parent_context (H := in_process no_context p') req' = cx) ∧
  trace_call (H := in_process no_context fresh_process) is_key is_value cx req = Ok req ∧
  extract_parent_context (H := in_process no_context fresh_process) req' = no_context.
Proof.
  intros Hp Hp' Hv. destruct (init_outcome build_ok env name) as (q & Hq & Hi & _).
  destruct (init_outcome build_ok env' name') as (q' & Hq' & Hi' & _). simplify_eq.
  split; [|done]. unfold trace_call, extract_parent_context. cbn. rewrite Hi, Hi'. intros [= <-].
  apply pg_roundtrip; [done|]. intros k v Hkv. unfold header_get.
  destruct (injected is_key is_value req (pg_inject cx) (pg_keys cx)) as [Hin _].
  { apply Forall_forall. intros kv H. by destruct (pg_own cx kv H) as (_ & ? & ?). }
  by rewrite (Hin k v Hkv).
Qed.
End trace_theorems.

(** The metrics server answers with the snapshot exactly the requests for
    [GET /metrics], and nothing at all when no port is configured. *)
Theorem metrics_server_exact {B} (render : B) c bound accepted :
  (mc_port c = None → metrics_server render c bound accepted = []) ∧
  Forall (λ conn, ∃ reqs, Some reqs ∈ accepted ∧ length conn = length reqs ∧
      ∀ i r x, reqs !! i = Some r → conn !! i = Some x →
        (x.2 = Some render ↔ r = ("/metrics", "GET")))
    (metrics_server render c bound accepted).
Proof.
  unfold metrics_server, metrics_spawn. split; [by intros ->|].
  destruct (mc_port c); cbn; [|done]. unfold serve_metrics. destruct bound; [|done].
  apply Forall_forall. intros conn (o & Ho & Hc)%list_elem_of_omap.
  destruct o as [reqs|]; [|done]. injection Hc as <-. exists reqs. split; [done|]. split; [by rewrite length_fmap|].
  intros i [path method] x Hr. rewrite list_lookup_fmap, Hr. intros [= <-]. cbn. unfold handle_request.
  destruct (String.eqb_spec path "/metrics") as [->|]; cbn; [|naive_solver].
  destruct (String.eqb_spec method "GET") as [->|]; cbn; naive_solver.
Qed.
