(* ===== verification/Djinn.v ===== *)
(** * The process ([coordin8-djinn/src/main.rs])

    A run of the binary from its command to its exit: the boot of [Boot], then the
    serving and shutdown of [Drain] on the node that booted. *)

From S2P Require Import Prelude CoreTypes LeaseCore LeaseStore LeaseManager LeaseService Matcher RegistryStore RegistryIndex RegistryService Proxy Allowlist Auth Bootstrap Shutdown.
From S2P Require Import Dynamo DynamoSample Boot BootWiring Drain.

(** What the world does to a running node: what ends its serving phase, how long
    the status update takes, for each of its registrations what the task came to
    and what becomes of the cancel call, and how the servers drain. *)
Record Life := {
  lf_first : FirstEvent;
  lf_health : Await;
  lf_tasks : list (Fate * Await * TaskEnd);
  lf_drained : Await * result unit string
}.

Definition life_ok (l : Life) : Prop :=
  await_ok (lf_health l) ∧ Forall (λ t, await_ok t.1.2) (lf_tasks l) ∧ await_ok (lf_drained l).1.

(** The registrations of a node, each with the slot its task has left. *)
Definition node_registrations (n : Node) (l : Life) : list (Fate * Await * Registration) :=
  zip_with (λ r t, (t.1, spawn_registration_end (rs_interface r) t.2)) (nd_registrations n) (lf_tasks l).

Inductive ExitError := BootFailed (e : BootFailure) | ShutdownFailed (e : ShutdownError).

Section djinn.
Context {J : Jwt} {C : Chrono} {I : MapIter}.
Context {D : Type} {DB : Dynamo D} {S L : Type} {RS : RegistryStore S} {LG : Leasing L}.
Context (bind : string → result TcpListener string).

(** The node when the first event comes, with the Registry its calls reach. *)
Definition serving (n : Node) (v : RegistryService S L) : Running S L :=
  {| ru_health := nd_health n; ru_registry := v; ru_streams := NotFired; ru_stop := false |}.

(** The bundle serves as [run_all] does, a single service with [serve_split] and
    the registration it has, if any. *)
Definition serve_node (env : environment) (n : Node) (l : Life) (x : Running S L)
  : Running S L * result unit ShutdownError * Z :=
  match nd_health n with
  | None => run_all_serve env (lf_first l) (node_registrations n l) (lf_drained l) x
  | Some _ => serve_split env (lf_first l) (lf_health l) (head (node_registrations n l)) (lf_drained l) x
  end.

(** [main] on a command that serves: the node, if it booted, the state it left,
    the exit, and the time from the first event to it. *)
Definition djinn_main (command : option Command) (env : environment) (p : Process D) (l : Life)
    (v : RegistryService S L) : option (Node * Running S L) * result unit ExitError * Z :=
  match main_boot bind command env p with
  | (_, Err e) => (None, Err (BootFailed e), 0%Z)
  | (_, Ok n) =>
      let '(x, r, t) := serve_node env n l (serving n v) in
      (Some (n, x), map_err ShutdownFailed r, t)
  end.
End djinn.

(** ** Theorems *)
Section theorems.
Context {J : Jwt} {C : Chrono} {I : MapIter}.
Context {D : Type} {DB : Dynamo D} {DV : DynamoView D} {DL : DynamoLaws D}.
Context {S L : Type} {RS : RegistryStore S} {RV : RegistryStoreView S} {RL : RegistryStoreLaws S}.
Context {LG : Leasing L} {LGV : LeasingView L} {LGL : LeasingLaws L}.
Context (bind : string → result TcpListener string).
Implicit Types (v : RegistryService S L) (x : Running S L) (n : Node).

Lemma node_registrations_single command env p p' n l :
  main_boot bind command env p = (p', Ok n) → is_Some (nd_health n) →
  option_list (head (node_registrations n l)) = node_registrations n l.
Proof.
  intros [_ _ _ _ Hone]%main_boot_ok Hh. specialize (Hone Hh). unfold node_registrations.
  destruct (nd_registrations n) as [|r [|]]; cbn in *; [done| |lia]. by destruct (lf_tasks l).
Qed.

Lemma node_waits_ok n l : life_ok l → Forall await_ok (cancel_waits (node_registrations n l)).
Proof.
  intros (_ & Ht & _). unfold node_registrations. generalize (nd_registrations n) as rs. revert Ht.
  generalize (lf_tasks l) as ts. intros ts Ht rs. revert rs.
  induction Ht as [|[[f a] e] ts Ha _ IH]; intros [|r rs]; [constructor..|]. cbn [zip_with].
  rewrite cancel_waits_cons. apply Forall_app. split; [|apply IH]. destruct (rn_slot _); repeat constructor. exact Ha.
Qed.

(** What a node must get done before it waits for its servers. *)
Definition node_waits n l : list Await :=
  match nd_health n with Some _ => [lf_health l] | None => [] end ++ cancel_waits (node_registrations n l).

Definition node_stopped n l x : Running S L :=
  told_to_stop (node_registrations n l) match nd_health n with Some _ => set_health NotServing x | None => x end.

Lemma serve_node_shutdown command env p p' n l v :
  main_boot bind command env p = (p', Ok n) → life_ok l → lf_first l = ShutdownFired →
  shutdown_spec (shutdown_grace env) (node_waits n l) (lf_drained l) (node_stopped n l (serving n v)) (serving n v)
    (serve_node env n l (serving n v)).
Proof.
  intros Hb Hl Hf. pose proof (node_waits_ok n l Hl) as Hw. destruct Hl as (Hh & _ & Hd).
  unfold serve_node, node_waits, node_stopped. rewrite Hf. destruct (nd_health n) as [st|] eqn:En.
  - pose proof (node_registrations_single _ _ _ _ _ l Hb (mk_is_Some _ _ En)) as Hone. 
    pose proof (split_shutdown env (lf_health l) (head (node_registrations n l)) (lf_drained l)
      (serving n v) Hh) as H. rewrite Hone in H. exact (H Hw Hd).
  - by apply run_all_shutdown.
Qed.

(** The life of a process.  It ends by itself with what ended its servers;
    a boot that fails ends it at once.  After a signal it ends within the grace
    period, and with success exactly when what it owes before and the wait for
    its servers fit in that period and the servers end well. *)
Theorem process_exit command env p l v :
  life_ok l →
  let '(o, r, t) := djinn_main bind command env p l v in
  match main_boot bind command env p with
  | (_, Err e) => o = None ∧ r = Err (BootFailed e)
  | (_, Ok n) =>
      (0 ≤ t ≤ shutdown_grace env)%Z ∧
      (r = Ok () ↔
       match lf_first l with
       | ServersEnded q => q = Ok ()
       | ShutdownFired => in_time (shutdown_grace env) (node_waits n l ++ [(lf_drained l).1]) = true ∧
                          (lf_drained l).2 = Ok ()
       end)
  end.
Proof.
  intros Hl. unfold djinn_main. destruct (main_boot bind command env p) as [p' [n|e]] eqn:Hb; [|done].
  destruct (lf_first l) as [q|] eqn:Hf.
  - assert (serve_node env n l (serving n v) = (serving n v, map_err ServerFailed q, 0%Z)) as ->
      by (unfold serve_node; rewrite Hf; by destruct (nd_health n)).
    pose proof (shutdown_grace_nonneg env). split; [lia|]. by destruct q as [[]|].
  - pose proof (serve_node_shutdown command env p p' n l v Hb Hl Hf) as Hs.
    destruct (serve_node env n l (serving n v)) as [[x r] t]. destruct Hs as [Ht Hs]. split; [done|].
    destruct (in_time _ _).
    + destruct Hs as (_ & -> & _). destruct (lf_drained l) as [w [[]|]]; cbn; [done|]. split; [done|]. by intros [_ ?].
    + destruct Hs as (-> & _ & _). cbn. split; [done|]. by intros [? _].
Qed.

(** The request a registration makes. *)
Definition request_of (r : RegistrationSpec) : RegisterRequest :=
  initial_request (rs_interface r) ∅ (rs_host r) (rs_port r) (rs_ttl_seconds r).

(** C28: Boot and shutdown together, against one Registry.  A node that boots
    announces each interface at a server that offers it.  If every registration of
    it was in place when a signal came, its cancel calls are served and the
    shutdown gets as far as stopping the servers, then the node's streams have
    been ended and, once the Registry has reclaimed the cancelled leases, none of
    those entries is left and all others are as they were.  (A registration that
    was never stored is not cancelled: [unstored_registration_lingers].) *)
Theorem node_comes_and_goes command env p p' n l v x r t :
  main_boot bind command env p = (p', Ok n) →
  life_ok l → lf_first l = ShutdownFired → length (lf_tasks l) = length (nd_registrations n) →
  Forall2 (in_place v) (request_of <$> nd_registrations n) (node_registrations n l) →
  serve_node env n l (serving n v) = (x, r, t) → ru_stop x = true →
  let held := held_leases (node_registrations n l) in
  let v' := reclaim_all (ru_registry x) held in
  (∀ spec, spec ∈ nd_registrations n → announced_ok (advertise_host env) n spec) ∧
  ru_streams x = Fired ∧
  rg_entries (rv_store v') = filter (λ kv, re_lease_id kv.2 ∉ held) (rg_entries (rv_store v)) ∧
  ∀ i spec f a h, nd_registrations n !! i = Some spec → lf_tasks l !! i = Some (f, a, Registered h) →
    rg_entries (rv_store v') !! cu_capability_id (rt_current (sr_task h)) = None.
Proof.
  intros Hb Hl Hf Hlen Hp Hserve Hstop held v'. pose proof (node_waits_ok n l Hl) as Hw.
  assert (Hsh : shuts_down env (node_registrations n l) (lf_drained l) (serving n v) (x, r, t)).
  { rewrite <- Hserve. unfold serve_node. rewrite Hf. destruct (nd_health n) as [st|] eqn:En; [|constructor].
    apply shut_split; [apply Hl|]. symmetry. by eapply node_registrations_single. }
  destruct Hl as (_ & _ & Hd).
  destruct (unregistered_when_stopped env _ _ _ _ _ _ _ Hsh Hp Hw Hd eq_refl Hstop) as (Hst & _ & He & Hall).
  pose proof (main_boot_ok bind _ _ _ _ _ Hb) as [[_ Ha _ _] _ _ _ _]. split_and!; [by rewrite Forall_forall in Ha|done..|].
  intros i spec f a h Hi Ht. apply (Hall (f, a, spawn_registration_end (rs_interface spec) (Registered h)) h); [|done].
  apply list_elem_of_lookup. exists i. unfold node_registrations. rewrite lookup_zip_with, Hi, Ht. done.
Qed.
End theorems.

(** ** A concrete life *)
Section samples.
#[local] Existing Instance chrono_sample.
#[local] Existing Instance toy_jwt.
#[local] Existing Instance canonical_iter.

(** What a node announces, and whether it reports health. *)
Definition announced_seen (r : result Node BootFailure) : list (string * string * Z * Z) * bool :=
  match r with
  | Ok n => ((λ s, (rs_interface s, rs_host s, rs_port s, rs_ttl_seconds s)) <$> nd_registrations n,
             match nd_health n with Some _ => true | None => false end)
  | Err _ => ([], false)
  end.

Lemma split_space_announced :
  announced_seen (main_boot any_port (Some CSpace) split_env bare).2 = ([("Space", "space-1", 40001%Z, 30%Z)], true).
Proof. vm_compute. reflexivity. Qed.

(** The Registry after the Space of [split_env] has announced itself. *)
Definition space_base : RegisterRequest := initial_request "Space" ∅ "space-1" 40001 30.
Definition space_v : RegistryService InMemoryRegistryStore (LeaseManager InMemoryLeaseStore) :=
  (register_rpc sample_empty "cap-1" (boot_env "lease-1") space_base).1.
Definition space_handle : SelfRegistrationHandle := {|
  sr_initial_lease_id := "lease-1"; sr_initial_capability_id := "cap-1";
  sr_task := {| rt_request := with_ids space_base "cap-1" "lease-1";
                rt_current := {| cu_lease_id := "lease-1"; cu_capability_id := "cap-1" |};
                rt_log_cap_id := "cap-1" |};
  sr_renewal_interval := 10 |}.

Lemma space_reach : boot_reach space_base space_v (sr_task space_handle) Waiting.
Proof.
  eapply (boot_init space_base sample_empty "cap-1" (boot_env "lease-1") space_v).
  - apply store_inv_new.
  - apply keyed_local. by vm_compute.
  - apply fresh_local. by vm_compute.
  - done.
  - done.
  - reflexivity.
  - reflexivity.
Qed.

(** A signal finds it idle; the cancel call takes 20 ms and the drain 300 ms. *)
Definition space_life : Life := {|
  lf_first := ShutdownFired; lf_health := Takes 1;
  lf_tasks := [(Delivered, Takes 20, Registered space_handle)]; lf_drained := (Takes 300, Ok ()) |}.

Lemma space_life_ok : life_ok space_life.
Proof. split_and!; cbn; [lia|repeat constructor; cbn; lia|lia]. Qed.

Theorem node_comes_and_goes_witness :
  ∃ p' n, main_boot any_port (Some CSpace) split_env bare = (p', Ok n) ∧
    is_Some (rg_entries (rv_store space_v) !! "cap-1") ∧
    let out := serve_node split_env n space_life (serving n space_v) in
    out.1.2 = Ok () ∧ ru_streams out.1.1 = Fired ∧
    rg_entries (rv_store (reclaim_all (ru_registry out.1.1) ["lease-1"])) !! "cap-1" = None.
Proof.
  pose proof (node_comes_and_goes any_port (Some CSpace) split_env bare) as Hw. pose proof split_space_announced as Hs.
  destruct (main_boot any_port (Some CSpace) split_env bare) as [p' [n|e]]; [|done].
  exists p', n. split; [done|]. split; [vm_compute; eauto|]. cbn in Hs.
  destruct (nd_registrations n) as [|spec [|]] eqn:Hr; [done| |done].
  destruct (nd_health n) as [st|] eqn:En; [|done]. injection Hs as Hi Hh Hp Ht.
  assert (Hregs : node_registrations n space_life =
    [(Delivered, Takes 20, spawn_registration_end "Space" (Registered space_handle))]).
  { unfold node_registrations. by rewrite Hr, <- Hi. }
  assert (Hserve : serve_node split_env n space_life (serving n space_v) =
    serve_split split_env ShutdownFired (Takes 1)
      (Some (Delivered, Takes 20, spawn_registration_end "Space" (Registered space_handle)))
      (Takes 300, Ok ()) {| ru_health := Some st; ru_registry := space_v; ru_streams := NotFired; ru_stop := false |}).
  { unfold serve_node, serving. by rewrite Hregs, En. }
  cbv zeta. rewrite Hserve. destruct (serve_split _ _ _ _ _ _) as [[x r] t] eqn:Eo.
  assert (Hr' : r = Ok () ∧ ru_stop x = true) by (vm_compute in Eo; by simplify_eq).
  destruct Hr' as [-> Hstop]. cbn [fst snd].
  destruct (Hw p' n space_life space_v x (Ok ()) t eq_refl space_life_ok eq_refl) as (_ & Hf & _ & Hgone).
  - by rewrite Hr.
  - rewrite Hr, Hregs. cbn. unfold request_of. rewrite Hi, Hh, Hp, Ht. constructor; [|constructor].
    split; [done|]. exists space_handle. split_and!; [done|exact space_reach|done].
  - exact Hserve.
  - exact Hstop.
  - split; [done|]. split; [done|]. rewrite Hregs in Hgone.
    eapply (Hgone 0 spec Delivered (Takes 20) space_handle); [by rewrite Hr|done].
Defined.
End samples.
