(* ===== verification/TxnSpaces.v ===== *)
(** * Transactions across Spaces
    ([coordin8-txn/src/manager.rs] with [coordin8-space/src/participant.rs])

    The transaction manager and the Spaces it coordinates, as one system.  The
    handlers of [TxnManager] run as they are; their participant calls reach the
    participant service of the Space at that endpoint, over a network that may
    lose a request or a reply.  A Space enlists itself with the shared manager,
    in process or over the network. *)

From S2P Require Import Prelude CoreTypes LeaseCore LeaseStore LeaseManager Matcher.
From S2P Require Import TxnStore TxnManager TxnProtocol TxnService.
From S2P Require Import SpaceStore SpaceSpec SpaceManager Bootstrap.
From Stdlib Require Import Strings.Byte.

(** ** Enlisters that share a transaction manager *)

(** An enlister holds a reference to a transaction manager; [se_share] gives it
    the current state of that manager. *)
Class SharedEnlister (W T : Type) := {
  se_coord : T → W;
  se_share : W → T → T
}.

(** The endpoints of a transaction. *)
Definition endpoints (r : TransactionRecord) : list string := pt_endpoint <$> tx_participants r.

Definition enrolled (m : txn_map) (txn_id endpoint : string) : Prop :=
  ∃ r, m !! txn_id = Some r ∧ endpoint ∈ endpoints r.

(** Enlistments only add participants. *)
Definition grown (m m' : txn_map) : Prop :=
  ∀ id r, m !! id = Some r → ∃ r', m' !! id = Some r' ∧ tx_state r' = tx_state r ∧ endpoints r ⊆ endpoints r'.

(** What a Space relies on: an enlister that answers [Ok] has recorded it. *)
Class SharedEnlisterLaws (CS CL T : Type) `{TxnStoreView CS} `{TxnEnlister T}
    `{SharedEnlister (World CS CL) T} : Prop := {
  se_shared : ∀ w e, se_coord (se_share w e) = w;
  se_enlist_law : ∀ e txn_id endpoint,
    let '(e', res) := te_enlist e txn_id endpoint in
    grown (ts_view (w_store (se_coord e))) (ts_view (w_store (se_coord e'))) ∧
    (res = Ok () → enrolled (ts_view (w_store (se_coord e'))) txn_id endpoint)
}.

(** In process: [LocalTxnEnlister]. *)
Section local.
Context {CS CL : Type} {TS : TxnStore CS} {CLG : Leasing CL} (allow : string → result unit Error).

(** [enlist] makes no participant call. *)
Definition no_net : Network := λ _ _ _, Answer 2.

Definition local_enlister : TxnEnlister (World CS CL) :=
  {| te_enlist := λ w txn_id endpoint, run no_net w (local_enlist allow txn_id endpoint) |}.

Definition local_shared : SharedEnlister (World CS CL) (World CS CL) :=
  {| se_coord := λ w, w; se_share := λ w _, w |}.
End local.

(** Over the network: [RemoteTxnEnlister], once it has found the transaction
    manager.  A call that fails in transport is made once more. *)
Record RemoteEnlister (W : Type) := { rme_coord : W; rme_fates : list (Fate * Fate) }.
Arguments rme_coord {W} _.
Arguments rme_fates {W} _.

Section remote.
Context {CS CL : Type} {TS : TxnStore CS} {CLG : Leasing CL} {SD : StatusDisplay}.
Context (allow : string → result unit Error).
Abbreviation Coord := (World CS CL).

Definition remote_attempts (f1 f2 : Fate) (w : Coord) (txn_id endpoint : string)
  : Coord * result unit Error :=
  let call w := run no_net w (enlist_rpc allow txn_id endpoint 0) in
  match over f1 w (call w) with
  | (w, Ok _) => (w, Ok ())
  | (w, Err status) =>
      if is_transport_failure status then
        let '(w, res) := over f2 w (call w) in (w, map_err enlist_error res)
      else (w, Err (enlist_error status))
  end.

Definition remote_enlister : TxnEnlister (RemoteEnlister Coord) := {|
  te_enlist := λ e txn_id endpoint,
    let '(f, rest) := match rme_fates e with [] => ((Delivered, Delivered), []) | f :: rest => (f, rest) end in
    let '(w, res) := remote_attempts f.1 f.2 (rme_coord e) txn_id endpoint in
    ({| rme_coord := w; rme_fates := rest |}, res) |}.

Definition remote_shared : SharedEnlister Coord (RemoteEnlister Coord) := {|
  se_coord := rme_coord; se_share := λ w e, {| rme_coord := w; rme_fates := rme_fates e |} |}.
End remote.

(** ** The system *)
Section system.
Context {I : MapIter} {SD : StatusDisplay}.
Context {CS CL : Type} {TS : TxnStore CS} {CLG : Leasing CL}.
Context {S L T : Type} {SS : SpaceStore S} {LG : Leasing L} {TE : TxnEnlister T}.
Context {SE : SharedEnlister (World CS CL) T}.
(** [ParticipantAllowlist::check], and how participants that are no Spaces answer. *)
Context (allow : string → result unit Error) (others : Network).

Abbreviation Space := (SpaceManager S L T).

(** [sy_net] is what becomes of the next calls to Spaces; when it is used up they
    are delivered. *)
Record System := {
  sy_coord : World CS CL;
  sy_spaces : gmap string Space;
  sy_net : list Fate
}.
Implicit Types (y : System) (m : Space).

Definition set_coord y (w : World CS CL) : System :=
  {| sy_coord := w; sy_spaces := sy_spaces y; sy_net := sy_net y |}.
Definition set_spaces y (sp : gmap string Space) (net : list Fate) : System :=
  {| sy_coord := sy_coord y; sy_spaces := sp; sy_net := net |}.

(** *** The participant service of a Space, as the network reaches it *)
Definition serve (k : RpcKind) m (txn_id : string) : Space * result Z Status :=
  match k with
  | KPrepare => (m, prepare_rpc m txn_id)
  | KCommit => let '(m, r) := SpaceManager.commit_rpc m txn_id in (m, rmap (λ _, 0%Z) r)
  | KAbort => let '(m, r) := SpaceManager.abort_rpc m txn_id in (m, rmap (λ _, 0%Z) r)
  | KPrepareAndCommit => prepare_and_commit_rpc m txn_id
  end.

Definition outcome_of (r : result Z Status) : RpcOutcome :=
  match r with Ok v => Answer v | Err s => RpcFailed (status_to_string s) end.

Definition next_fate (net : list Fate) : Fate * list Fate :=
  match net with [] => (Delivered, []) | f :: net => (f, net) end.

Definition dial (k : RpcKind) (txn_id endpoint : string) y : System * RpcOutcome :=
  match sy_spaces y !! endpoint with
  | None => (y, others k txn_id endpoint)
  | Some m =>
      let '(f, net) := next_fate (sy_net y) in
      let '(m', r) := over f m (serve k m txn_id) in
      (set_spaces y (<[endpoint := m']> (sy_spaces y)) net, outcome_of r)
  end.

(** The calls of a batch, in order. *)
Fixpoint dial_all (k : RpcKind) (txn_id : string) (eps : list string) y : System * list RpcOutcome :=
  match eps with
  | [] => (y, [])
  | ep :: eps =>
      let '(y, o) := dial k txn_id ep y in
      let '(y, outs) := dial_all k txn_id eps y in
      (y, o :: outs)
  end.

(** *** Handlers of the transaction manager, against the Spaces *)
Definition on_coord y {X : Type} (a : Act X) : System * X :=
  let '(w, x) := exec others (sy_coord y) a in (set_coord y w, x).

Definition sexec y {X : Type} (a : Act X) : System * X :=
  match a in Act X return System * X with
  | ACalls k id eps =>
      let '(y, outs) := dial_all k id eps y in
      (set_coord y (add_calls (sy_coord y) (zip_with (λ ep o, mkCall k id ep o) eps outs)), outs)
  | ACreate r => on_coord y (ACreate r)
  | AGet id => on_coord y (AGet id)
  | ACas id e n => on_coord y (ACas id e n)
  | AAdd id p => on_coord y (AAdd id p)
  | AGrant env rid ttl => on_coord y (AGrant env rid ttl)
  | ACancel lease => on_coord y (ACancel lease)
  end.

Fixpoint srun {A} y (p : prog A) : System * A :=
  match p with
  | Ret a => (y, a)
  | Do a k => let '(y', x) := sexec y a in srun y' (k x)
  end.

(** *** Operations of Spaces, against the shared manager *)
Definition plug m (w : World CS CL) : Space :=
  mkManager (sm_store m) (sm_leases m) (sm_tuple_tx m) (sm_expiry_tx m) (se_share w <$> sm_enlister m)
    (sm_participant_endpoint m) (sm_enlisted m).

Definition coord_of m (w : World CS CL) : World CS CL :=
  match sm_enlister m with Some e => se_coord e | None => w end.

Definition on_space y (endpoint : string) (f : Space → Space) : System :=
  match sy_spaces y !! endpoint with
  | None => y
  | Some m =>
      let m' := f (plug m (sy_coord y)) in
      {| sy_coord := coord_of m' (sy_coord y); sy_spaces := <[endpoint := m']> (sy_spaces y); sy_net := sy_net y |}
  end.

(** What may happen: requests to the transaction manager, the expiry of a
    transaction's lease, and anything that happens to a Space. *)
Inductive SysOp :=
| YBegin (txn_id : string) (env : Env) (ttl : Z)
| YEnlist (txn_id endpoint : string) (crash_count : Z)
| YCommit (txn_id : string)
| YAbort (txn_id : string)
| YExpired (txn_id : string)
| YSpace (endpoint : string) (op : MOp).

Definition sys_step y (op : SysOp) : System :=
  match op with
  | YBegin id env ttl => (srun y (begin_txn id env ttl)).1
  | YEnlist id ep n => (srun y (enlist allow id ep n)).1
  | YCommit id => (srun y (commit id)).1
  | YAbort id => (srun y (abort id)).1
  | YExpired id => (srun y (abort_expired id)).1
  | YSpace ep op => on_space y ep (λ m, mrun m op)
  end.
End system.
Arguments System CS CL S L T : clear implicits.

(** ** Both enlisters keep the contract *)
Lemma grown_refl m : grown m m.
Proof. intros id r ?. eauto. Qed.

Lemma grown_trans m1 m2 m3 : grown m1 m2 → grown m2 m3 → grown m1 m3.
Proof.
  intros H1 H2 id r Hr. destruct (H1 id r Hr) as (r1 & Hr1 & E1 & S1).
  destruct (H2 id r1 Hr1) as (r2 & ? & E2 & S2). exists r2. split_and!; [done|congruence|set_solver].
Qed.

Lemma grown_enrolled m m' id ep : grown m m' → enrolled m id ep → enrolled m' id ep.
Proof. intros Hg (r & Hr & Hep). destruct (Hg id r Hr) as (r' & ? & _ & ?). exists r'. set_solver. Qed.

Lemma endpoints_push r p : endpoints (push_participant r p) = endpoints r ++ [pt_endpoint p].
Proof. unfold endpoints. destruct r. cbn. by rewrite fmap_app. Qed.

Section enlisters.
Context {CS CL : Type} {TS : TxnStore CS} {TV : TxnStoreView CS} {TL : TxnStoreLaws CS}.
Context {CLG : Leasing CL} {SD : StatusDisplay} (allow : string → result unit Error).
Implicit Types (w : World CS CL).

Lemma enlist_grows w id ep n :
  let '(w', res) := run no_net w (enlist allow id ep n) in
  grown (ts_view (w_store w)) (ts_view (w_store w')) ∧
  (res = Ok () → enrolled (ts_view (w_store w')) id ep).
Proof.
  unfold enlist. destruct (allow ep) as [[]|e]; cbn [run]; [|by split; [apply grown_refl|]].
  cbn [exec]. pose proof (ts_add_law (w_store w) id {| pt_endpoint := ep; pt_crash_count := n |}) as Hl.
  destruct (ts_add_participant _ _ _) as [s res]. cbn.
  destruct (ts_view (w_store w) !! id) as [r|] eqn:Er; [case_decide|]; destruct Hl as [-> ->];
    (split; [|try done]); try apply grown_refl.
  - intros id' r' Hr'. destruct (decide (id' = id)) as [->|].
    + simplify_eq. eexists. rewrite lookup_insert_eq, endpoints_push. split_and!; [done|by destruct r|set_solver].
    + exists r'. by rewrite lookup_insert_ne.
  - intros _. eexists. rewrite lookup_insert_eq, endpoints_push. split; [done|]. cbn. set_solver.
Qed.

Lemma local_enlister_laws :
  @SharedEnlisterLaws CS CL (World CS CL) _ (local_enlister allow) local_shared.
Proof.
  split; [done|]. intros w id ep. unfold te_enlist, local_enlister, local_enlist.
  pose proof (enlist_grows w id ep 0) as H. by destruct (run _ _ _).
Qed.

(** Whatever becomes of the call: an answer [Ok] means that it was served. *)
Lemma over_enlist_grows f w id ep :
  let '(w', res) := over f w (run no_net w (enlist_rpc allow id ep 0)) in
  grown (ts_view (w_store w)) (ts_view (w_store w')) ∧ (res = Ok () → enrolled (ts_view (w_store w')) id ep).
Proof.
  unfold enlist_rpc.
  pose proof (runs_map no_net w (map_err txn_map_err) (enlist allow id ep 0) (λ w' res,
    grown (ts_view (w_store w)) (ts_view (w_store w')) ∧
    (res = Ok () → enrolled (ts_view (w_store w')) id ep))) as Hm. unfold runs in Hm.
  pose proof (enlist_grows w id ep 0) as He. destruct (run no_net w (enlist allow id ep 0)) as [w1 r1].
  destruct (run no_net w (prog_map _ _)) as [w2 r2]. cbn in Hm.
  destruct Hm as [Hg Hok]; [destruct He as [? He]; split; [done|]; destruct r1 as [[]|]; [auto|done]|].
  destruct f; cbn; [done|by split; [apply grown_refl|]|done].
Qed.

Lemma remote_enlister_laws :
  @SharedEnlisterLaws CS CL (RemoteEnlister (World CS CL)) _ (remote_enlister allow) remote_shared.
Proof.
  split; [done|]. intros e id ep. unfold te_enlist, remote_enlister.
  destruct (match rme_fates e with [] => _ | _ :: _ => _ end) as [[f1 f2] rest]. unfold remote_attempts. cbn [fst snd].
  pose proof (over_enlist_grows f1 (rme_coord e) id ep) as H1. destruct (over f1 _ _) as [w1 [[]|st]]; cbn in H1 |- *;
    [by destruct H1 as [? He]; split; [|intros _; apply He]|].
  destruct (is_transport_failure st); cbn; [|by split; [apply H1|]].
  pose proof (over_enlist_grows f2 w1 id ep) as H2. destruct (over f2 _ _) as [w2 r2]. cbn.
  destruct H1 as [G1 _], H2 as [G2 E2]. split; [by eapply grown_trans|]. destruct r2 as [[]|]; [auto|done].
Qed.
End enlisters.

(** ** What a transaction leaves in a Space *)

(** The space with a transaction settled: [BUncommitted] publishes its writes,
    [BTaken] puts back what it took. *)
Definition settled (b : Buffer) (t : string) (a : space) : space := move_all (settle_place b t) a.

Definition holds_nothing (a : space) (t : string) : Prop := ¬ ∃ k r, holds a k t r.

Definition keyed (a : space) : Prop := ∀ id r p, a !! id = Some (r, p) → tp_tuple_id r = id.

Lemma settled_holds b t a k t' r : holds (settled b t a) k t' r ↔ holds a k t' r ∧ t' ≠ t.
Proof.
  unfold holds, settled. rewrite lookup_move. setoid_rewrite settle_held. naive_solver.
Qed.

Lemma settled_nothing b t a : holds_nothing (settled b t a) t.
Proof. intros (k & r & [_ ?]%settled_holds). done. Qed.

Lemma settled_id b t a : keyed a → holds_nothing a t → settled b t a = a.
Proof.
  intros Hk Hn. apply map_eq. intros id. apply option_eq. intros [r p]. unfold settled. rewrite lookup_move. split.
  - intros (p0 & Hr & Hp). destruct p as [|b' t'].
    + apply settle_visible in Hp as [-> | ->]; [done|]. destruct Hn. exists b, r. unfold holds. by rewrite (Hk _ _ _ Hr).
    + by apply settle_held in Hp as [-> _].
  - intros Hr. exists p. split; [done|]. destruct p as [|b' t']; [by apply settle_visible; left|].
    apply settle_held. split; [done|]. intros ->. destruct Hn. exists b', r. unfold holds. by rewrite (Hk _ _ _ Hr).
Qed.

Section spaces.
Context {I : MapIter} {SD : StatusDisplay}.
Context {CS CL : Type} {TS : TxnStore CS} {TV : TxnStoreView CS} {TL : TxnStoreLaws CS} {CLG : Leasing CL}.
Context {S L T : Type} {SS : SpaceStore S} {SL : SpaceStoreLaws S}.
Context {LG : Leasing L} {LV : LeasingView L} {LL : LeasingLaws L}.
Context {TE : TxnEnlister T} {SE : SharedEnlister (World CS CL) T} {SEL : SharedEnlisterLaws CS CL T}.

Abbreviation Space := (SpaceManager S L T).
Abbreviation rep m a := (ss_rep (sm_store m) a).
Abbreviation txns w := (ts_view (w_store w)).
Implicit Types (m : Space) (w : World CS CL).

(** A Space that holds something of a transaction is enlisted in it ... *)
Definition accounts m (a : space) : Prop := ∀ t k r, holds a k t r → t ∈ sm_enlisted m.

(** ... and one that is enlisted is among the participants. *)
Definition linked m (ep : string) : Prop :=
  sm_participant_endpoint m = Some ep ∧
  ∃ e, sm_enlister m = Some e ∧ ∀ t, t ∈ sm_enlisted m → enrolled (txns (se_coord e)) t ep.

(** [m] and [m'] differ in store, leases and channels only. *)
Definition same_links m m' : Prop :=
  sm_enlister m' = sm_enlister m ∧ sm_participant_endpoint m' = sm_participant_endpoint m ∧
  sm_enlisted m' = sm_enlisted m.

Lemma same_links_linked m m' ep : same_links m m' → linked m ep → linked m' ep.
Proof. intros (E1 & E2 & E3) [? (e & ? & ?)]. split; [congruence|]. exists e. rewrite E1, E3. done. Qed.

Lemma cancel_leases_links m l : same_links m (cancel_leases m l).
Proof.
  unfold same_links. revert m. induction l as [|r l IH]; intros m; [done|].
  change (cancel_leases m (r :: l)) with (cancel_leases (put_leases m (lg_cancel (sm_leases m) (tp_lease_id r)).1) l).
  by destruct (IH (put_leases m (lg_cancel (sm_leases m) (tp_lease_id r)).1)) as (-> & -> & ->).
Qed.

Lemma broadcast_links m l : same_links m (broadcast m l).
Proof.
  unfold same_links. revert m. induction l as [|r l IH]; intros m; [done|].
  change (broadcast m (r :: l)) with (broadcast (send_tuple m r) l).
  by destruct (IH (send_tuple m r)) as (-> & -> & ->).
Qed.

Lemma ensure_enlisted_links m t ep :
  linked m ep →
  let '(m', res) := ensure_enlisted m t in
  sm_store m' = sm_store m ∧ sm_leases m' = sm_leases m ∧ linked m' ep ∧ sm_enlisted m ⊆ sm_enlisted m' ∧
  (res = Ok () → t ∈ sm_enlisted m') ∧
  ∀ w, grown (txns (coord_of m w)) (txns (coord_of m' w)).
Proof.
  intros [Hep (e & He & Hin)]. unfold ensure_enlisted. rewrite He, Hep.
  case_bool_decide as Ht; [split_and!; [done|done|by split; [|exists e]|set_solver|done|intros w; apply grown_refl]|].
  pose proof (se_enlist_law e t ep) as Hl.
  destruct (te_enlist e t ep) as [e' res]. destruct Hl as [Hg Hok].
  assert (Hold : ∀ t', t' ∈ sm_enlisted m → enrolled (txns (se_coord e')) t' ep)
    by (intros t' Ht'; exact (grown_enrolled _ _ _ _ Hg (Hin t' Ht'))).
  assert (Hgw : ∀ w, grown (txns (coord_of m w)) (txns (se_coord e'))) by (intros w; unfold coord_of; by rewrite He).
  destruct res as [[]|err].
  - split; [done|]. split; [done|]. split; [|set_solver].
    split; [done|]. exists e'. split; [done|]. intros t'. cbn. rewrite elem_of_union, elem_of_singleton.
    intros [->|?]; auto.
  - split; [done|]. split; [done|]. split; [by split; [|exists e']|]. done.
Qed.

(** What an operation owes. *)
Definition keeps_links m ep m' : Prop :=
  linked m' ep ∧ (∃ a, rep m' a ∧ accounts m' a) ∧ ∀ w, grown (txns (coord_of m w)) (txns (coord_of m' w)).

Lemma keeps_same m ep m' a :
  linked m ep → same_links m m' → rep m' a → accounts m' a → keeps_links m ep m'.
Proof.
  intros Hl Hs HR Ha. split_and!; [by eapply same_links_linked|by exists a|]. intros w. unfold coord_of.
  destruct Hs as (-> & _). apply grown_refl.
Qed.

Lemma keeps_after m ep m1 m' a :
  (∀ w, grown (txns (coord_of m w)) (txns (coord_of m1 w))) → linked m1 ep → same_links m1 m' → rep m' a → accounts m' a →
  keeps_links m ep m'.
Proof.
  intros Hg Hl Hs HR Ha. destruct (keeps_same m1 ep m' a Hl Hs HR Ha) as (? & ? & Hg').
  split_and!; [done..|]. intros w. by eapply grown_trans.
Qed.

(** Settling a transaction forgets it and what it holds. *)
Lemma settle_keeps m ep a b t s' l1 l2 :
  linked m ep → accounts m a → ss_rep s' (settled b t a) →
  keeps_links m ep (broadcast (cancel_leases (forget_enlisted (put_store m s') t) l1) l2).
Proof.
  intros [Hep (e & He & Hin)] Ha HR. set (m1 := forget_enlisted (put_store m s') t).
  destruct (cancel_leases_links m1 l1) as (A1 & A2 & A3), (broadcast_links (cancel_leases m1 l1) l2) as (B1 & B2 & B3).
  destruct (cancel_leases_spec m1 l1) as (C1 & _), (broadcast_spec (cancel_leases m1 l1) l2) as (D1 & _).
  cbn in A3. split_and!.
  - split; [by rewrite B2, A2|]. exists e. rewrite B1, A1, B3, A3. split; [done|]. intros t' Ht'. apply Hin. set_solver.
  - exists (settled b t a). rewrite D1, C1. split; [done|]. intros t' k r [Hh Hne]%settled_holds. rewrite B3, A3.
    apply Ha in Hh. set_solver.
  - intros w. unfold coord_of. rewrite B1, A1. apply grown_refl.
Qed.

Lemma take_once_keeps m a tm txn :
  rep m a → accounts m a → ss_valid (OTakeMatch tm txn) → (∀ t, txn = Some t → t ∈ sm_enlisted m) →
  let m' := (take_once m tm txn).1 in same_links m m' ∧ ∃ a', rep m' a' ∧ accounts m' a'.
Proof.
  intros HR Ha Hv Hin. destruct (take_call _ a tm txn HR Hv) as (s' & o & a' & E & HR' & Ho).
  cbv zeta. unfold take_once. rewrite E. destruct o as [r|].
  2: { destruct Ho as [-> _]. cbn. split; [done|]. by exists a. }
  destruct Ho as (p & _ & ->). destruct txn as [t|]; cbn; (split; [done|]); eexists; (split; [exact HR'|]);
    intros t' k r'; unfold holds, take_tuple; cbn.
  - rewrite lookup_insert_Some. intros [[_ [= _ <- <-]]|[_ Hh]]; [by apply Hin|by eapply Ha].
  - rewrite lookup_delete_Some. intros [_ Hh]. by eapply Ha.
Qed.

Lemma write_keeps m ep a id env at_ pl ttl by_ inp txn :
  linked m ep → rep m a → accounts m a → mop_fresh a (MWrite id env at_ pl ttl by_ inp txn) →
  mop_valid (MWrite id env at_ pl ttl by_ inp txn) →
  keeps_links m ep (write m id env at_ pl ttl by_ inp txn).1.
Proof.
  intros Hlk HR Ha [Hn Hfl] Hv. unfold write.
  pose proof (lg_grant_law (sm_leases m) env ("space:" +:+ id) ttl) as Hg.
  destruct (lg_grant _ _ _ _) as [l' [lease|e]]; [|by eapply keeps_same].
  destruct Hg as (Hid & _ & _). set (r := mkTuple _ _ _ _ _ _ _).
  assert (Hf : fresh_tuple a r) by (split; [done|simpl; by rewrite Hid]).
  specialize (Hv r eq_refl Hid). assert (Hlk1 : linked (put_leases m l') ep) by exact Hlk.
  destruct txn as [t|].
  - pose proof (ensure_enlisted_links _ t ep Hlk1) as He.
    destruct (ensure_enlisted (put_leases m l') t) as [m1 res]. destruct He as (Es & _ & Hl1 & Hsub & Hok & Hgr).
    cbn in Es. rewrite <- Es in HR. destruct res as [[]|err].
    2: { eapply keeps_after; [exact Hgr|done|done|done|]. intros t' k r' Hh. eapply Hsub, Ha, Hh. }
    destruct (call_op (OInsertUncommitted t r) HR Hf Hv) as (a' & Hal & HR').
    simpl in Hal, HR'. destruct (ss_insert_uncommitted _ _ _) as [s' [|]]; [|done]. cbn in *. subst a'.
    eapply keeps_after; [exact Hgr|done|done|exact HR'|]. intros t' k r'. unfold holds.
    rewrite lookup_insert_Some. intros [[_ [= _ _ <-]]|[_ Hh]]; [by apply Hok|eapply Hsub, Ha, Hh].
  - destruct (call_op (OInsert r) HR Hf Hv) as (a' & Hal & HR').
    simpl in Hal, HR'. cbn [sm_store put_leases]. destruct (ss_insert _ _) as [s' [|]]; [|done]. cbn in *. subst a'.
    eapply keeps_same; [done|done|exact HR'|]. intros t' k r'. unfold holds.
    rewrite lookup_insert_Some. intros [[_ [=]]|[_ Hh]]. by eapply Ha.
Qed.

(** An operation on a Space: the ids it draws are new, and a take that wakes up
    for a transaction is still enlisted in it. *)
Definition op_ok m (op : MOp) : Prop :=
  mop_valid op ∧ (∀ a, rep m a → mop_fresh a op) ∧
  match op with MTakeWake _ (Some t) _ => t ∈ sm_enlisted m | _ => True end.

Lemma fewer_held m a a' : accounts m a → (∀ id r p, a' !! id = Some (r, p) → a !! id = Some (r, p)) → accounts m a'.
Proof. intros Ha Hsub t k r Hh. eapply Ha, Hsub, Hh. Qed.

Lemma mrun_keeps m ep op :
  linked m ep → (∃ a, rep m a ∧ accounts m a) → op_ok m op → keeps_links m ep (mrun m op).
Proof.
  intros Hlk (a & HR & Ha) (Hv & Hf & Hw). specialize (Hf a HR).
  destruct op as [id env at_ pl ttl by_ inp t|tm w t|tm t w|t|t|id env tm on ttl hb|l|l|id|env id ttl]; cbn in Hv.
  - by eapply write_keeps.
  - cbn. unfold take_now. destruct t as [t|].
    + pose proof (ensure_enlisted_links m t ep Hlk) as He.
      destruct (ensure_enlisted m t) as [m1 res]. destruct He as (Es & _ & Hl1 & Hsub & Hok & Hgr).
      rewrite <- Es in HR. assert (Ha1 : accounts m1 a) by (intros t' k r Hh; eapply Hsub, Ha, Hh).
      destruct res as [[]|]; [|by eapply keeps_after].
      destruct (take_once_keeps m1 a tm (Some t) HR Ha1 Hv) as (Hs & a' & HR' & Ha'); [intros ? [= <-]; auto|].
      destruct (take_once m1 tm (Some t)) as [m2 [[r|]|]]; cbn in *; by eapply keeps_after.
    + destruct (take_once_keeps m a tm None HR Ha Hv) as (Hs & a' & HR' & Ha'); [done|].
      destruct (take_once m tm None) as [m2 [[r|]|]]; cbn in *; by eapply keeps_same.
  - cbn. unfold take_wake. destruct (take_once_keeps m a tm t HR Ha Hv) as (Hs & a' & HR' & Ha').
    { intros t' ->. done. }
    assert (keeps_links m ep m) by (by eapply keeps_same).
    clear Hw. destruct (take_once m tm t) as [m2 [[r|]|]]; destruct w; cbn in *; try case_match; try done; by eapply keeps_same.
  - cbn. destruct (commit_call _ a t HR Hv) as (s' & flushed & taken & E & HR' & _).
    rewrite commit_place_settle in HR'. unfold commit_space_txn. rewrite E. by eapply settle_keeps.
  - cbn. destruct (abort_call _ a t HR Hv) as (s' & disc & rest & E & HR' & _).
    rewrite abort_place_settle in HR'. unfold abort_space_txn. rewrite E. by eapply settle_keeps.
  - cbn. unfold notify. destruct (lg_grant _ _ _ _) as [l' [lease|]]; [|by eapply keeps_same].
    cbn [sm_store put_leases].
    pose proof (ss_create_watch_law (sm_store m) a (mkWatch id tm on (lr_lease_id lease) hb) HR).
    destruct (ss_create_watch _ _) as [s' res]. by eapply keeps_same.
  - destruct (call_op (ORemoveByLease l) HR) as (a' & Hal & HR'); [done..|]. simpl in *.
    unfold on_tuple_expired. assert (Ha' : accounts m a').
    { eapply fewer_held; [exact Ha|]. destruct (ss_remove_by_lease _ _) as [s' [[r|]|]]; [| |done].
      - destruct Hal as (_ & _ & ->). intros id r' p. unfold drop_lease. rewrite map_lookup_filter_Some. tauto.
      - by destruct Hal as [-> _]. }
    destruct (ss_remove_by_lease _ _) as [s' [[r|]|]]; by eapply keeps_same.
  - eapply keeps_same; [done|done|apply (ss_remove_watch_law (sm_store m) a l HR)|done].
  - destruct (call_op (ORemove id) HR) as (a' & Hal & HR'); [done..|]. simpl in *.
    unfold cancel. assert (Ha' : accounts m a').
    { eapply fewer_held; [exact Ha|]. destruct (ss_remove _ _) as [s' [[r|]|]]; [| |done].
      - destruct Hal as [_ ->]. intros id' r' p. rewrite lookup_delete_Some. tauto.
      - by destruct Hal as [-> _]. }
    destruct (ss_remove _ _) as [s' [[r|]|]]; [destruct (lg_cancel _ _)|..]; by eapply keeps_same.
  - cbn. unfold renew. destruct (ss_get _ _) as [[r|]|]; [destruct (lg_renew _ _ _ _)|..]; by eapply keeps_same.
Qed.

(** *** Participant calls *)

(** The calls on [t] the store of a Space is made for. *)
Definition txn_valid (t : string) : Prop := ss_valid (OHasTxn t) ∧ ss_valid (OCommit t) ∧ ss_valid (OAbort t).

(** [m'] is [m] with [t] settled. *)
Definition reaches (b : Buffer) (t : string) m m' : Prop :=
  sm_enlister m' = sm_enlister m ∧ sm_participant_endpoint m' = sm_participant_endpoint m ∧
  sm_enlisted m' ⊆ sm_enlisted m ∧
  ∀ a, rep m a → rep m' (settled b t a) ∧ (accounts m a → accounts m' (settled b t a)).

Lemma rep_keyed m a : rep m a → keyed a.
Proof. intros HR. exact (ss_key _ a HR). Qed.

Lemma reaches_nothing b t m : (∀ a, rep m a → holds_nothing a t) → reaches b t m m.
Proof.
  intros Hn. split_and!; [done..|]. intros a HR. by rewrite (settled_id b t a (rep_keyed m a HR) (Hn a HR)).
Qed.

Lemma reaches_trans b t m1 m2 m3 : reaches b t m1 m2 → reaches b t m2 m3 → reaches b t m1 m3.
Proof.
  intros (A1 & A2 & A3 & A4) (B1 & B2 & B3 & B4). split_and!; [congruence..|set_solver|].
  intros a HR. destruct (A4 a HR) as [HR2 Ha2]. destruct (B4 _ HR2) as [HR3 Ha3].
  rewrite (settled_id b t (settled b t a) (rep_keyed _ _ HR2) (settled_nothing b t a)) in HR3, Ha3. auto.
Qed.

Lemma settle_reaches m b t s' l1 l2 :
  (∀ a, rep m a → ss_rep s' (settled b t a)) →
  reaches b t m (broadcast (cancel_leases (forget_enlisted (put_store m s') t) l1) l2).
Proof.
  intros Hs. set (m1 := forget_enlisted (put_store m s') t).
  destruct (cancel_leases_links m1 l1) as (A1 & A2 & A3), (broadcast_links (cancel_leases m1 l1) l2) as (B1 & B2 & B3).
  destruct (cancel_leases_spec m1 l1) as (C1 & _), (broadcast_spec (cancel_leases m1 l1) l2) as (D1 & _).
  unfold reaches. rewrite B1, A1, B2, A2, B3, A3, D1, C1. cbn. split_and!; [done..|set_solver|].
  intros a HR. split; [by apply Hs|]. intros Ha t' k r [Hh Hne]%settled_holds. rewrite B3, A3. cbn.
  apply Ha in Hh. set_solver.
Qed.

Lemma commit_reaches m a t :
  rep m a → ss_valid (OCommit t) → (commit_space_txn m t).2 = Ok () ∧ reaches BUncommitted t m (commit_space_txn m t).1.
Proof.
  intros HR Hv. destruct (commit_call _ a t HR Hv) as (s' & flushed & taken & E & _).
  unfold commit_space_txn. rewrite E. split; [done|]. apply settle_reaches. intros a' HR'.
  destruct (commit_call _ a' t HR' Hv) as (s2 & ? & ? & E' & HR2 & _). rewrite commit_place_settle in HR2.
  by assert (s2 = s') as <- by congruence.
Qed.

Lemma abort_reaches m a t :
  rep m a → ss_valid (OAbort t) → (abort_space_txn m t).2 = Ok () ∧ reaches BTaken t m (abort_space_txn m t).1.
Proof.
  intros HR Hv. destruct (abort_call _ a t HR Hv) as (s' & disc & rest & E & _).
  unfold abort_space_txn. rewrite E. split; [done|]. apply settle_reaches. intros a' HR'.
  destruct (abort_call _ a' t HR' Hv) as (s2 & ? & ? & E' & HR2 & _). rewrite abort_place_settle in HR2.
  by assert (s2 = s') as <- by congruence.
Qed.

Lemma has_txn_settles m a t :
  rep m a → ss_valid (OHasTxn t) →
  ∃ b, has_txn m t = Ok b ∧ (b = false → ∀ a', rep m a' → holds_nothing a' t) ∧ (holds_nothing a t → b = false).
Proof.
  intros HR Hv. destruct (has_txn_call _ a t HR Hv) as (b & E & Hb). exists b. split; [done|]. split.
  - intros -> a' HR'. destruct (has_txn_call _ a' t HR' Hv) as (b' & E' & Hb'). intros Hh%Hb'. congruence.
  - intros Hn. destruct b; [|done]. by destruct Hn; apply Hb.
Qed.

(** What a call does to a Space that is reached by it. *)
Definition settles (k : RpcKind) : option Buffer :=
  match k with KPrepare => None | KAbort => Some BTaken | KCommit | KPrepareAndCommit => Some BUncommitted end.

Lemma serve_spec k m a t :
  rep m a → txn_valid t →
  let '(m', r) := serve k m t in
  (match settles k with None => m' = m | Some b => reaches b t m m' end) ∧
  ∃ v, r = Ok v ∧ yes (Answer v) = true ∧
    (k = KPrepare → v ≠ 0%Z → ∀ a', rep m a' → holds_nothing a' t).
Proof.
  intros HR (V1 & V2 & V3). destruct (has_txn_settles m a t HR V1) as (b & E & Hb & _). destruct k; cbn [serve settles].
  - unfold prepare_rpc. rewrite E. split; [done|]. destruct b; cbn; [by exists 0%Z|]. exists 1%Z. split_and!; [done..|]. auto.
  - unfold SpaceManager.commit_rpc. destruct (commit_reaches m a t HR V2) as [Hok Hr].
    destruct (commit_space_txn m t) as [m' r]. cbn in *. subst r. split; [done|]. by exists 0%Z.
  - unfold SpaceManager.abort_rpc. destruct (abort_reaches m a t HR V3) as [Hok Hr].
    destruct (abort_space_txn m t) as [m' r]. cbn in *. subst r. split; [done|]. by exists 0%Z.
  - unfold prepare_and_commit_rpc. rewrite E. destruct b.
    + destruct (commit_reaches m a t HR V2) as [Hok Hr].
      destruct (commit_space_txn m t) as [m' r]. cbn in *. subst r. split; [done|]. by exists 0%Z.
    + split; [apply reaches_nothing; auto|]. by exists 1%Z.
Qed.

(** *** Batches of calls *)
Context (allow : string → result unit Error) (others : Network).
Abbreviation Sys := (System CS CL S L T).
Implicit Types (y : Sys).

Definition represented y : Prop := ∀ ep m, sy_spaces y !! ep = Some m → ∃ a, rep m a.

(** Every Space is as it was or has [t] settled. *)
Definition spaces_moved (b : Buffer) (t : string) y y' : Prop :=
  ∀ ep, match sy_spaces y !! ep with
        | None => sy_spaces y' !! ep = None
        | Some m => ∃ m', sy_spaces y' !! ep = Some m' ∧ (m' = m ∨ reaches b t m m')
        end.

(** The Space at [ep], if there is one, has [t] settled. *)
Definition arrived (b : Buffer) (t ep : string) y y' : Prop :=
  ∀ m, sy_spaces y !! ep = Some m → ∃ m', sy_spaces y' !! ep = Some m' ∧ reaches b t m m'.

Lemma spaces_moved_same b t y y' : sy_spaces y' = sy_spaces y → spaces_moved b t y y'.
Proof. intros E ep. rewrite E. destruct (sy_spaces y !! ep); eauto. Qed.

Lemma spaces_moved_trans b t y1 y2 y3 : spaces_moved b t y1 y2 → spaces_moved b t y2 y3 → spaces_moved b t y1 y3.
Proof.
  intros H1 H2 ep. specialize (H1 ep). specialize (H2 ep). destruct (sy_spaces y1 !! ep) as [m1|].
  - destruct H1 as (m2 & E2 & H1). rewrite E2 in H2. destruct H2 as (m3 & E3 & H2). exists m3. split; [done|].
    destruct H1 as [->|H1], H2 as [->|H2]; eauto using reaches_trans.
  - by rewrite H1 in H2.
Qed.

Lemma spaces_moved_arrived b t ep y1 y2 y3 : spaces_moved b t y1 y2 → arrived b t ep y2 y3 → arrived b t ep y1 y3.
Proof.
  intros H1 H2 m Hm. specialize (H1 ep). rewrite Hm in H1. destruct H1 as (m2 & E2 & H1).
  destruct (H2 m2 E2) as (m3 & E3 & H3). exists m3. split; [done|]. destruct H1 as [->|H1]; [done|by eapply reaches_trans].
Qed.

Lemma arrived_moved b t ep y1 y2 y3 : arrived b t ep y1 y2 → spaces_moved b t y2 y3 → arrived b t ep y1 y3.
Proof.
  intros H1 H2 m Hm. destruct (H1 m Hm) as (m2 & E2 & R2). specialize (H2 ep). rewrite E2 in H2.
  destruct H2 as (m3 & E3 & H3). exists m3. split; [done|]. destruct H3 as [->|H3]; [done|by eapply reaches_trans].
Qed.

Lemma spaces_moved_represented b t y y' : spaces_moved b t y y' → represented y → represented y'.
Proof.
  intros Hm Hr ep m' E. specialize (Hm ep). destruct (sy_spaces y !! ep) as [m|] eqn:Em; [|congruence].
  destruct Hm as (m1 & E1 & Hm). destruct (Hr ep m Em) as [a HR]. assert (m1 = m') as -> by congruence.
  destruct Hm as [->|(_ & _ & _ & Hm)]; [by exists a|]. exists (settled b t a). by apply Hm.
Qed.

(** A call that settles, whatever becomes of it; without losses it is served. *)
Lemma dial_settles k b t ep y :
  represented y → txn_valid t → settles k = Some b →
  let '(y', o) := dial others k t ep y in
  sy_coord y' = sy_coord y ∧ spaces_moved b t y y' ∧
  (sy_spaces y !! ep = None → y' = y) ∧
  (∀ v, is_Some (sy_spaces y !! ep) → o = Answer v → yes o = true) ∧
  (sy_net y = [] → sy_net y' = [] ∧ arrived b t ep y y' ∧ (is_Some (sy_spaces y !! ep) → ∃ v, o = Answer v)).
Proof.
  intros Hr Hv Hk. unfold dial. destruct (sy_spaces y !! ep) as [m|] eqn:Em.
  2: { split_and!; [done|by apply spaces_moved_same|done|by intros v []|]. intros ->.
       split_and!; [done| |by intros []]. intros m E. congruence. }
  destruct (Hr ep m Em) as [a HR]. pose proof (serve_spec k m a t HR Hv) as Hs. rewrite Hk in Hs.
  destruct (serve k m t) as [m1 r] eqn:Es. destruct Hs as [Hreach (v & -> & Hyes & _)].
  destruct (next_fate (sy_net y)) as [f net] eqn:Ef.
  assert (Hmv : ∀ m' net', m' = m ∨ m' = m1 → spaces_moved b t y (set_spaces y (<[ep := m']> (sy_spaces y)) net')).
  { intros m' net' Hm' ep'. cbn. destruct (decide (ep' = ep)) as [->|Hne].
    - rewrite Em, lookup_insert_eq. exists m'. split; [done|]. destruct Hm' as [->| ->]; auto.
    - rewrite lookup_insert_ne by done. destruct (sy_spaces y !! ep'); eauto. }
  destruct (over f m (m1, Ok v)) as [m' r'] eqn:Eo. split_and!; [done|..].
  - apply Hmv. destruct f; cbn in Eo; simplify_eq; auto.
  - done.
  - intros v' _. destruct f; cbn in Eo; by simplify_eq.
  - intros Hn. rewrite Hn in Ef. cbn in Ef. simplify_eq. cbn in Eo. simplify_eq. split_and!; [done| |by exists v].
    intros m0 E0. assert (m0 = m) as -> by congruence. exists m'. cbn. by rewrite lookup_insert_eq.
Qed.

Lemma dial_all_settles k b t eps y :
  represented y → txn_valid t → settles k = Some b →
  let '(y', outs) := dial_all others k t eps y in
  sy_coord y' = sy_coord y ∧ spaces_moved b t y y' ∧ (sy_net y = [] → ∀ ep, ep ∈ eps → arrived b t ep y y').
Proof.
  intros Hr Hv Hk. revert y Hr. induction eps as [|ep eps IH]; intros y Hr; cbn [dial_all].
  { split_and!; [done|by apply spaces_moved_same|]. intros _ ep ?%elem_of_nil. done. }
  pose proof (dial_settles k b t ep y Hr Hv Hk) as Hd. destruct (dial others k t ep y) as [y1 o].
  destruct Hd as (E1 & M1 & _ & _ & N1). specialize (IH y1 (spaces_moved_represented _ _ _ _ M1 Hr)).
  destruct (dial_all others k t eps y1) as [y2 outs]. destruct IH as (E2 & M2 & N2).
  split_and!; [congruence|by eapply spaces_moved_trans|]. intros Hn. destruct (N1 Hn) as (Hn1 & A1 & _).
  intros ep' [->|Hin]%elem_of_cons; [by eapply arrived_moved|]. eapply spaces_moved_arrived; [done|]. by apply N2.
Qed.

(** The votes. *)
Definition vote_ok (t ep : string) (o : RpcOutcome) y : Prop :=
  ∀ m, sy_spaces y !! ep = Some m →
    yes o = true ∧ (voted_prepared o = false → ∀ a, rep m a → holds_nothing a t).

Lemma dial_all_prepare t eps y :
  represented y → txn_valid t →
  let '(y', outs) := dial_all others KPrepare t eps y in
  sy_coord y' = sy_coord y ∧ sy_spaces y' = sy_spaces y ∧ length outs = length eps ∧
  (sy_net y = [] → sy_net y' = [] ∧ Forall2 (λ ep o, vote_ok t ep o y) eps outs).
Proof.
  intros Hr Hv. revert y Hr. induction eps as [|ep eps IH]; intros y Hr; cbn [dial_all]; [done|].
  assert (Hd : let '(y', o) := dial others KPrepare t ep y in
    sy_coord y' = sy_coord y ∧ sy_spaces y' = sy_spaces y ∧ (sy_net y = [] → sy_net y' = [] ∧ vote_ok t ep o y)).
  { unfold dial. destruct (sy_spaces y !! ep) as [m|] eqn:Em; [|by split_and!; [..|intros ->; split; [|intros m; congruence]]].
    destruct (Hr ep m Em) as [a HR]. pose proof (serve_spec KPrepare m a t HR Hv) as Hs.
    destruct (serve KPrepare m t) as [m1 r]. destruct Hs as [-> (v & -> & Hyes & Hno)].
    destruct (next_fate (sy_net y)) as [f net] eqn:Ef. destruct (over f m (m, Ok v)) as [m' r'] eqn:Eo.
    assert (m' = m) as -> by (destruct f; cbn in Eo; by simplify_eq). split_and!; [done|by apply insert_id|].
    intros Hn. rewrite Hn in Ef. cbn in Ef. simplify_eq. cbn in Eo. simplify_eq. split; [done|].
    intros m0 E0. assert (m0 = m) as -> by congruence. split; [done|]. cbn. intros Hv0%Z.eqb_neq. auto. }
  destruct (dial others KPrepare t ep y) as [y1 o]. destruct Hd as (E1 & S1 & N1).
  specialize (IH y1). destruct (dial_all others KPrepare t eps y1) as [y2 outs].
  destruct IH as (E2 & S2 & L2 & N2); [unfold represented; by rewrite S1|].
  split_and!; [congruence|congruence|cbn; congruence|]. intros Hn. destruct (N1 Hn) as [Hn1 Hvo].
  destruct (N2 Hn1) as [Hn2 HF]. split; [done|]. constructor; [done|].
  eapply Forall2_impl; [exact HF|]. intros ep' o'. unfold vote_ok. by rewrite S1.
Qed.

(** *** Handlers against the Spaces *)

(** Run alone from [y], [p] ends in a system and with a value satisfying [Q]. *)
Definition sruns {A} y (p : prog A) (Q : Sys → A → Prop) : Prop := Q (srun others y p).1 (srun others y p).2.

(** [y'] differs from [y] in the transaction manager only, whose records are [m]. *)
Definition coord_moved y y' (m : txn_map) : Prop :=
  txns (sy_coord y') = m ∧ sy_spaces y' = sy_spaces y ∧ sy_net y' = sy_net y.

Lemma sruns_ret {A} y (a : A) (Q : Sys → A → Prop) : Q y a → sruns y (Ret a) Q.
Proof. done. Qed.

Lemma sruns_fetch {A} y id r (k : TransactionRecord → prog (result A Error)) Q :
  txns (sy_coord y) !! id = Some r → sruns y (k r) Q → sruns y (fetch id k) Q.
Proof. intros Hr Hk. unfold sruns. cbn. rewrite ts_get_law, Hr. by destruct y. Qed.

Lemma sruns_cas_hit {A} y id r e n (k : _ → prog A) Q :
  txns (sy_coord y) !! id = Some r → tx_state r = e →
  (∀ y', coord_moved y y' (<[id := with_state r n]> (txns (sy_coord y))) → sruns y' (k (Ok true)) Q) →
  sruns y (Do (ACas id e n) k) Q.
Proof.
  intros Hr He Hk. unfold sruns. cbn. unfold on_coord. cbn.
  pose proof (ts_cas_law (w_store (sy_coord y)) id e n) as Hc. destruct (ts_update_state_if _ _ _ _) as [s' res].
  rewrite Hr, decide_True in Hc by done. destruct Hc as [-> Hv]. by apply Hk.
Qed.

Lemma sruns_transition y id r from to k Q :
  txns (sy_coord y) !! id = Some r → tx_state r = from →
  (∀ y', coord_moved y y' (<[id := with_state r to]> (txns (sy_coord y))) → sruns y' k Q) →
  sruns y (transition id from to k) Q.
Proof. intros ???. by eapply sruns_cas_hit. Qed.

Lemma sruns_cancel {A} y lease (k : prog A) Q :
  (∀ y', coord_moved y y' (txns (sy_coord y)) → sruns y' k Q) → sruns y (Do (ACancel lease) (λ _, k)) Q.
Proof. intros Hk. unfold sruns. cbn. unfold on_coord. cbn. destruct (lg_cancel _ _) as [l' res]. by apply Hk. Qed.

Lemma sruns_calls {A} y kd id eps (k : _ → prog A) Q :
  (∀ y1 outs, dial_all others kd id eps y = (y1, outs) →
     ∀ y', coord_moved y1 y' (txns (sy_coord y1)) → sruns y' (k outs) Q) →
  sruns y (Do (ACalls kd id eps) k) Q.
Proof. intros Hk. unfold sruns. cbn. destruct (dial_all _ _ _ _ _) as [y1 outs]. by eapply Hk. Qed.

(** A batch that settles. *)
Lemma sruns_settle {A} y kd b id eps (k : _ → prog A) Q :
  represented y → txn_valid id → settles kd = Some b →
  (∀ y' outs, txns (sy_coord y') = txns (sy_coord y) → spaces_moved b id y y' →
     (sy_net y = [] → ∀ ep, ep ∈ eps → arrived b id ep y y') → sruns y' (k outs) Q) →
  sruns y (Do (ACalls kd id eps) k) Q.
Proof.
  intros Hr Hv Hkd Hk. apply sruns_calls. intros y1 outs E y' (C1 & C2 & C3).
  pose proof (dial_all_settles kd b id eps y Hr Hv Hkd) as Hd. rewrite E in Hd. destruct Hd as (E1 & M1 & N1).
  apply Hk; [congruence|intros ep; rewrite C2; exact (M1 ep)|].
  intros Hn ep Hin m Hm. rewrite C2. exact (N1 Hn ep Hin m Hm).
Qed.

(** What the votes decide. *)
Lemma scan_zip eps outs acc :
  length outs = length eps →
  let '(prepared, refused) := scan_votes (zip_with (λ ep o, (ep, call_prepare ep o)) eps outs) acc in
  (refused = false → ∀ ep, ep ∈ acc ∨ (∃ o, (ep, o) ∈ zip eps outs ∧ voted_prepared o = true) → ep ∈ prepared) ∧
  (Forall (λ o, yes o = true) outs → refused = false).
Proof.
  revert outs acc. induction eps as [|ep eps IH]; intros [|o outs] acc Hlen; try done.
  { cbn. split; [|done]. intros _ ep [?|(o & ?%elem_of_nil & _)]; done. }
  injection Hlen as Hlen.
  assert (Hcons : ∀ ep', (∃ o', (ep', o') ∈ zip (ep :: eps) (o :: outs) ∧ voted_prepared o' = true) →
    (ep' = ep ∧ voted_prepared o = true) ∨ ∃ o', (ep', o') ∈ zip eps outs ∧ voted_prepared o' = true).
  { intros ep' (o' & [[= -> ->]|Hin]%elem_of_cons & Hv); [by left|right; eauto]. }
  cbn [zip_with scan_votes]. unfold call_prepare, call_rpc, rmap, vote_from_i32.
  destruct o as [| | |v]; [split; [done|]; by inversion 1..|].
  pose proof (IH outs acc Hlen) as IH0. pose proof (IH outs (acc ++ [ep]) Hlen) as IH1.
  destruct (v =? 0)%Z eqn:E0; [|destruct (v =? 1)%Z eqn:E1].
  - destruct (scan_votes _ (acc ++ [ep])) as [p rf]. destruct IH1 as [Ha Hb]. split; [|inversion 1; auto].
    intros Hrf ep' [?|[[-> _]|?]%Hcons]; apply Ha; auto; left; set_solver.
  - destruct (scan_votes _ acc) as [p rf]. destruct IH0 as [Ha Hb]. split; [|inversion 1; auto].
    intros Hrf ep' [?|[[-> Hv]|?]%Hcons]; apply Ha; auto. cbn in Hv. congruence.
  - split; [done|]. inversion 1 as [|?? Hy]. cbn in Hy. by rewrite E0, E1 in Hy.
Qed.

(** The decision an answer reports, and the state the transaction is left in. *)
Definition decision (res : result unit Error) : option (Buffer * TransactionState) :=
  match res with
  | Ok _ => Some (BUncommitted, Committed)
  | Err (TransactionAborted _) => Some (BTaken, Aborted)
  | Err (TransactionOutcomeUnknown _) => Some (BUncommitted, Voting)
  | Err _ => None
  end.

(** What [commit] owes on an Active transaction. *)
Definition commit_across y id (r : TransactionRecord) y' (res : result unit Error) : Prop :=
  ∃ b st, decision res = Some (b, st) ∧
    txns (sy_coord y') = <[id := with_state r st]> (txns (sy_coord y)) ∧
    spaces_moved b id y y' ∧ (st = Voting → ∃ ep, endpoints r = [ep]) ∧
    (sy_net y = [] → ∀ ep, ep ∈ endpoints r → arrived b id ep y y').

(** A transaction brought to [st]; the rest of the manager's records are as in [y]. *)
Definition at_state y y1 id r (st : TransactionState) : Prop :=
  txns (sy_coord y1) = <[id := with_state r st]> (txns (sy_coord y)).

Lemma at_state_lookup y y1 id r st : at_state y y1 id r st → txns (sy_coord y1) !! id = Some (with_state r st).
Proof. intros ->. apply lookup_insert_eq. Qed.

Lemma at_state_next y y1 y2 id r st st' :
  at_state y y1 id r st → coord_moved y1 y2 (<[id := with_state (with_state r st) st']> (txns (sy_coord y1))) →
  at_state y y2 id r st'.
Proof. intros E (Hm & _). unfold at_state in *. rewrite Hm, E, insert_insert_eq. by destruct r. Qed.

(** The end of a decided handler. *)
Lemma sruns_finish y y1 id r from to lease (res : result unit Error) (Q : Sys → result unit Error → Prop) :
  at_state y y1 id r from →
  (∀ y', at_state y y' id r to → sy_spaces y' = sy_spaces y1 → Q y' res) →
  sruns y1 (transition id from to (await _ := ACancel lease in Ret res)) Q.
Proof.
  intros E HQ. eapply sruns_transition; [by eapply at_state_lookup|by destruct r|]. intros y2 M2.
  pose proof (at_state_next _ _ _ _ _ _ _ E M2) as E2. apply sruns_cancel. intros y3 (C1 & C2 & _).
  apply sruns_ret, HQ; [unfold at_state in *; congruence|]. destruct M2 as (_ & ? & _). congruence.
Qed.

Lemma spaces_moved_eq b t y y1 y2 : spaces_moved b t y y1 → sy_spaces y2 = sy_spaces y1 → spaces_moved b t y y2.
Proof. intros Hm E. eapply spaces_moved_trans; [exact Hm|by apply spaces_moved_same]. Qed.

Lemma arrived_eq b t ep y y1 y2 : arrived b t ep y y1 → sy_spaces y2 = sy_spaces y1 → arrived b t ep y y2.
Proof. intros Hm E. eapply arrived_moved; [exact Hm|by apply spaces_moved_same]. Qed.

Lemma arrived_from b t ep y1 y y' : sy_spaces y1 = sy_spaces y → arrived b t ep y1 y' → arrived b t ep y y'.
Proof. unfold arrived. by intros ->. Qed.

Lemma represented_from y y' : sy_spaces y' = sy_spaces y → represented y → represented y'.
Proof. unfold represented. by intros ->. Qed.

Lemma commit_single_across y y1 id r ep :
  represented y → txn_valid id → at_state y y1 id r Voting → sy_spaces y1 = sy_spaces y → sy_net y1 = sy_net y →
  endpoints r = [ep] → sruns y1 (commit_single id ep (tx_lease_id r)) (commit_across y id r).
Proof.
  intros Hr Hv E1 S1 N1 Hep. unfold commit_single. apply sruns_calls. intros y2 outs Ed y3 (C1 & C2 & C3).
  cbn [dial_all] in Ed.
  pose proof (dial_settles KPrepareAndCommit BUncommitted id ep y1 (represented_from _ _ S1 Hr) Hv eq_refl) as Hd.
  destruct (dial others KPrepareAndCommit id ep y1) as [y2' o]. simplify_eq. destruct Hd as (D1 & D2 & D3 & D4 & D5).
  assert (E3 : at_state y y3 id r Voting) by (unfold at_state in *; congruence).
  assert (M3 : spaces_moved BUncommitted id y y3)
    by (intros ep'; rewrite C2; specialize (D2 ep'); by rewrite S1 in D2).
  assert (A3 : sy_net y = [] → ∀ ep', ep' ∈ [ep] → arrived BUncommitted id ep' y y3).
  { intros Hn ep' ->%list_elem_of_singleton. rewrite <- N1 in Hn. destruct (D5 Hn) as (_ & A & _).
    by eapply arrived_eq; [eapply arrived_from|]. }
  assert (Hdone : ∀ y', at_state y y' id r Committed → sy_spaces y' = sy_spaces y3 → commit_across y id r y' (Ok ())).
  { intros y' E' S'. exists BUncommitted, Committed. rewrite Hep. split_and!; [done|done|by eapply spaces_moved_eq|done|].
    intros Hn ep' Hin. eapply arrived_eq; [by apply A3|done]. }
  destruct o as [| | |v]; cbn.
  1-3: apply sruns_ret; exists BUncommitted, Voting; rewrite Hep; split_and!; eauto.
  unfold vote_from_i32. destruct (v =? 0)%Z eqn:E0; [|destruct (v =? 1)%Z eqn:E1'].
  1-2: eapply sruns_finish; [exact E3|]; auto.
  eapply sruns_finish; [exact E3|]. intros y' E' S'. exists BTaken, Aborted. rewrite Hep.
  assert (Hno : sy_spaces y1 !! ep = None).
  { destruct (sy_spaces y1 !! ep) eqn:Em; [|done]. specialize (D4 v (mk_is_Some _ _ eq_refl) eq_refl). cbn in D4.
    by rewrite E0, E1' in D4. }
  rewrite (D3 Hno) in C2. split_and!; [done|done|apply spaces_moved_same; congruence|done|].
  intros _ ep' ->%list_elem_of_singleton m Hm. congruence.
Qed.

Lemma commit_many_across y y1 id r p1 p2 ps :
  represented y → txn_valid id → at_state y y1 id r Voting → sy_spaces y1 = sy_spaces y → sy_net y1 = sy_net y →
  tx_participants r = p1 :: p2 :: ps →
  sruns y1 (commit_many id (tx_lease_id r) (tx_participants r)) (commit_across y id r).
Proof.
  intros Hr Hv E1 S1 N1 Hps. unfold commit_many. fold (endpoints r). set (eps := endpoints r).
  apply sruns_calls. intros y2 outs Ed y3 (C1 & C2 & C3).
  pose proof (dial_all_prepare id eps y1 (represented_from _ _ S1 Hr) Hv) as Hd. rewrite Ed in Hd.
  destruct Hd as (D1 & D2 & D3 & D4). rewrite S1 in D2. rewrite N1 in D4.
  assert (E3 : at_state y y3 id r Voting) by (unfold at_state in *; congruence).
  assert (S3 : sy_spaces y3 = sy_spaces y) by congruence.
  assert (N3 : sy_net y = [] → sy_net y3 = []) by (intros Hn; rewrite C3; by apply D4).
  pose proof (scan_zip eps outs [] D3) as Hs. destruct (scan_votes _ _) as [prepared refused].
  destruct Hs as [Hprep Href]. destruct refused.
  - eapply sruns_transition; [by eapply at_state_lookup|by destruct r|]. intros y4 M4.
    pose proof (at_state_next _ _ _ _ _ _ _ E3 M4) as E4. destruct M4 as (_ & S4 & N4). rewrite S3 in S4.
    unfold do_abort_participants. fold (endpoints r).
    eapply sruns_settle; [by eapply represented_from|done|done|]. intros y5 outs' T5 M5 A5.
    apply sruns_cancel. intros y6 (T6 & S6 & _). apply sruns_ret. exists BTaken, Aborted. split_and!; [done| | |done|].
    + unfold at_state in E4. congruence.
    + intros ep. rewrite S6, <- S4. exact (M5 ep).
    + intros Hn ep Hin. eapply arrived_eq; [eapply arrived_from; [exact S4|]|exact S6]. apply A5; [|done].
      rewrite N4. auto.
  - eapply sruns_transition; [by eapply at_state_lookup|by destruct r|]. intros y4 M4.
    pose proof (at_state_next _ _ _ _ _ _ _ E3 M4) as E4. destruct M4 as (_ & S4 & N4). rewrite S3 in S4.
    eapply sruns_settle; [by eapply represented_from|done|done|]. intros y5 outs' T5 M5 A5.
    eapply (sruns_finish y); [unfold at_state in *; rewrite T5; exact E4|]. intros y6 E6 S6.
    exists BUncommitted, Committed. split_and!; [done|done| |done|].
    + intros ep. rewrite S6, <- S4. exact (M5 ep).
    + intros Hn ep Hin. eapply arrived_eq; [eapply arrived_from; [exact S4|]|exact S6].
      destruct (D4 Hn) as [_ HF]. apply list_elem_of_lookup in Hin as [i Hi].
      destruct (Forall2_lookup_l _ _ _ _ _ HF Hi) as (o & Ho & Hvote).
      destruct (voted_prepared o) eqn:Ep.
      * apply A5; [rewrite N4; auto|]. apply Hprep; [done|]. right. exists o. split; [|done].
        apply list_elem_of_lookup. exists i. rewrite lookup_zip_with. fold eps in Hi. by rewrite Hi, Ho.
      * intros m Hm. assert (Hn' : ∀ a, rep m a → holds_nothing a id).
        { apply (Hvote m); [|done]. rewrite S1. rewrite S4 in Hm. exact Hm. }
        specialize (M5 ep). rewrite Hm in M5. destruct M5 as (m' & Em' & [->|R]); [|by exists m'].
        exists m. split; [done|]. by apply reaches_nothing.
Qed.

(** Whatever is lost, [commit] on an Active transaction leaves every Space as it
    was or with the transaction settled in one and the same way, which its
    answer reports. *)
Lemma commit_active_across y id r :
  represented y → txn_valid id → txns (sy_coord y) !! id = Some r → tx_state r = Active →
  sruns y (commit id) (commit_across y id r).
Proof.
  intros Hr Hv Hid Ha. unfold commit. eapply sruns_cas_hit; [done..|]. intros y1 (T1 & S1 & N1).
  assert (E1 : at_state y y1 id r Voting) by exact T1.
  eapply sruns_fetch; [by eapply at_state_lookup|]. cbn [tx_participants tx_lease_id with_state].
  destruct (tx_participants r) as [|p1 [|p2 ps]] eqn:Hps.
  - eapply sruns_finish; [exact E1|]. intros y' E' S'. exists BUncommitted, Committed. split_and!; [done|done| |done|].
    + apply spaces_moved_same. congruence.
    + intros _ ep. unfold endpoints. rewrite Hps. by intros ?%elem_of_nil.
  - apply (commit_single_across y); try done. unfold endpoints. by rewrite Hps.
  - rewrite <- Hps. by eapply commit_many_across.
Qed.

(** An Active transaction rolled back: by [abort], or because its lease ended. *)
Definition abort_across y id (r : TransactionRecord) y' (res : result unit Error) : Prop :=
  res = Ok () ∧ txns (sy_coord y') = <[id := with_state r Aborted]> (txns (sy_coord y)) ∧
  spaces_moved BTaken id y y' ∧ (sy_net y = [] → ∀ ep, ep ∈ endpoints r → arrived BTaken id ep y y').

Lemma abort_batch_across {A} y y1 id r (k : prog A) Q :
  represented y → txn_valid id → coord_moved y y1 (<[id := with_state r Aborted]> (txns (sy_coord y))) →
  (∀ y', abort_across y id r y' (Ok ()) → sruns y' k Q) →
  sruns y1 (do_abort_participants id (tx_participants r) k) Q.
Proof.
  intros Hr Hv (T1 & S1 & N1) Hk. unfold do_abort_participants.
  eapply sruns_settle; [by eapply represented_from|done|done|]. intros y2 outs T2 M2 A2. apply Hk. split_and!; [done|congruence|..].
  - intros ep. rewrite <- S1. exact (M2 ep).
  - intros Hn ep Hin. eapply arrived_from; [exact S1|]. apply A2; [congruence|done].
Qed.

Lemma abort_active_across y id r :
  represented y → txn_valid id → txns (sy_coord y) !! id = Some r → tx_state r = Active →
  sruns y (abort id) (abort_across y id r) ∧ sruns y (abort_expired id) (abort_across y id r).
Proof.
  intros Hr Hv Hid Ha. split.
  - unfold abort. eapply sruns_cas_hit; [done..|]. intros y1 M1. cbn.
    eapply sruns_fetch; [by eapply at_state_lookup, M1|]. apply (abort_batch_across y _ id r); [done..|]. intros y2 (_ & T2 & M2 & A2).
    apply sruns_cancel. intros y3 (T3 & S3 & _). apply sruns_ret. split_and!; [done|congruence|by eapply spaces_moved_eq|].
    intros Hn ep Hin. eapply arrived_eq; [by apply A2|done].
  - unfold abort_expired. eapply sruns_cas_hit; [done..|]. intros y1 M1. cbn.
    change (sruns y1 (Do (AGet id) (λ got, match got with
      | Err e => Ret (Err e) | Ok None => Ret (Ok ())
      | Ok (Some txn) => do_abort_participants id (tx_participants txn) (Ret (Ok ())) end)) (abort_across y id r)).
    unfold sruns. cbn. rewrite ts_get_law, (at_state_lookup y y1 id r Aborted (proj1 M1)).
    change (set_coord y1 (sy_coord y1)) with y1 || destruct y1.
    apply (abort_batch_across y _ id r); [done..|]. intros y2 H2. by apply sruns_ret.
Qed.

(** *** The invariant of the system *)

Definition attached w (ep : string) m : Prop :=
  sm_participant_endpoint m = Some ep ∧ is_Some (sm_enlister m) ∧ ∀ t, t ∈ sm_enlisted m → enrolled (txns w) t ep.

(** Every Space is known to the manager for each transaction it holds something of. *)
Definition sys_inv y : Prop :=
  ∀ ep m, sy_spaces y !! ep = Some m → attached (sy_coord y) ep m ∧ ∃ a, rep m a ∧ accounts m a.

(** Participants stay. *)
Definition kept (m m' : txn_map) : Prop := ∀ id ep, enrolled m id ep → enrolled m' id ep.

Lemma kept_refl (tm : txn_map) : kept tm tm.
Proof. by intros id ep. Qed.
#[local] Hint Resolve kept_refl : core.

Lemma sys_inv_represented y : sys_inv y → represented y.
Proof. intros Hi ep m Hm. destruct (Hi ep m Hm) as (_ & a & ? & _). by exists a. Qed.

Lemma attached_kept w w' ep m : kept (txns w) (txns w') → attached w ep m → attached w' ep m.
Proof. intros Hk (? & ? & Hin). split_and!; [done..|]. intros t Ht. by apply Hk, Hin. Qed.

Lemma sys_inv_coord y w : kept (txns (sy_coord y)) (txns w) → sys_inv y → sys_inv (set_coord y w).
Proof. intros Hk Hi ep m Hm. destruct (Hi ep m Hm) as [Ha ?]. split; [by eapply attached_kept|done]. Qed.

Lemma sys_inv_moved b t y y' :
  sy_coord y' = sy_coord y → spaces_moved b t y y' → sys_inv y → sys_inv y'.
Proof.
  intros Ec Hm Hi ep m' Em'. specialize (Hm ep). destruct (sy_spaces y !! ep) as [m|] eqn:Em; [|congruence].
  destruct Hm as (m1 & E1 & Hm). assert (m1 = m') as -> by congruence. rewrite Ec.
  destruct (Hi ep m Em) as [(A1 & A2 & A3) (a & HR & Ha)].
  destruct Hm as [->|(B1 & B2 & B3 & B4)]; [by split; [|exists a]|]. destruct (B4 a HR) as [HR' Ha'].
  split; [|by exists (settled b t a); auto]. split_and!; [congruence|by rewrite B1|]. intros t' Ht'. apply A3. set_solver.
Qed.

Lemma dial_all_inv k t eps y : txn_valid t → sys_inv y → sys_inv (dial_all others k t eps y).1.
Proof.
  intros Hv Hi. pose proof (sys_inv_represented y Hi) as Hr. destruct (settles k) as [b|] eqn:Ek.
  - pose proof (dial_all_settles k b t eps y Hr Hv Ek) as Hd. destruct (dial_all _ _ _ _ _) as [y' outs].
    destruct Hd as (E & M & _). by eapply sys_inv_moved.
  - assert (k = KPrepare) as -> by (by destruct k). pose proof (dial_all_prepare t eps y Hr Hv) as Hd.
    destruct (dial_all _ _ _ _ _) as [y' outs]. destruct Hd as (E & M & _).
    eapply (sys_inv_moved BTaken t); [done|by apply spaces_moved_same|done].
Qed.

(** A handler that creates no record and calls participants for valid ids. *)
Fixpoint tame {A} (p : prog A) : Prop :=
  match p with
  | Ret _ => True
  | Do a k =>
      match a with ACreate _ => False | ACalls _ id' _ => txn_valid id' | _ => True end ∧ ∀ x, tame (k x)
  end.

Lemma kept_insert (tm : txn_map) id r r' :
  tm !! id = Some r → endpoints r ⊆ endpoints r' → kept tm (<[id := r']> tm).
Proof.
  intros Hr Hsub id' ep (r0 & Hr0 & Hep). destruct (decide (id' = id)) as [->|Hne].
  - exists r'. rewrite lookup_insert_eq. simplify_eq. split; [done|]. by apply Hsub.
  - exists r0. by rewrite lookup_insert_ne.
Qed.

Lemma sexec_inv {X} y (a : Act X) :
  match a with ACreate _ => False | ACalls _ id' _ => txn_valid id' | _ => True end →
  sys_inv y → sys_inv (sexec others y a).1.
Proof.
  intros Ht Hi.
  destruct a as [r|id'|id' e n|id' p|env rid ttl|lease|k id' eps]; [done|..]; cbn [sexec]; unfold on_coord; cbn [exec].
  - by apply sys_inv_coord.
  - pose proof (ts_cas_law (w_store (sy_coord y)) id' e n) as Hl. destruct (ts_update_state_if _ _ _ _) as [s' res].
    apply sys_inv_coord; [|done]. cbn. destruct (txns (sy_coord y) !! id') as [r|] eqn:Hr; [case_decide|];
      destruct Hl as [_ ->]; try apply kept_refl. by eapply kept_insert; [exact Hr|destruct r].
  - pose proof (ts_add_law (w_store (sy_coord y)) id' p) as Hl. destruct (ts_add_participant _ _ _) as [s' res].
    apply sys_inv_coord; [|done]. cbn. destruct (txns (sy_coord y) !! id') as [r|] eqn:Hr; [case_decide|];
      destruct Hl as [_ ->]; try apply kept_refl. eapply kept_insert; [exact Hr|]. rewrite endpoints_push. set_solver.
  - destruct (lg_grant _ _ _ _). by apply sys_inv_coord.
  - destruct (lg_cancel _ _). by apply sys_inv_coord.
  - pose proof (dial_all_inv k id' eps y Ht Hi) as Hd. destruct (dial_all _ _ _ _ _) as [y' outs].
    by apply sys_inv_coord.
Qed.

Lemma srun_inv {A} y (p : prog A) : tame p → sys_inv y → sys_inv (srun others y p).1.
Proof.
  revert y. induction p as [a|X a k IH]; intros y Ht Hi; [done|]. destruct Ht as [Ht Hk]. cbn.
  pose proof (sexec_inv y a Ht Hi) as Hi'. destruct (sexec others y a) as [y' x]. by apply IH.
Qed.

Ltac tame := repeat (cbn; first [done | split; [done|] | intros ? | case_match]).

Lemma commit_tame id : txn_valid id → tame (commit id).
Proof. intros Hv. unfold commit, commit_single, commit_many, transition, fetch, do_abort_participants. tame. Qed.

Lemma abort_tame id : txn_valid id → tame (abort id).
Proof. intros Hv. unfold abort, fetch, do_abort_participants. tame. Qed.

Lemma abort_expired_tame id : txn_valid id → tame (abort_expired id).
Proof. intros Hv. unfold abort_expired, do_abort_participants. tame. Qed.

Lemma enlist_tame id ep n : tame (enlist allow id ep n).
Proof. unfold enlist. tame. Qed.

Lemma begin_inv y id env ttl :
  txns (sy_coord y) !! id = None → sys_inv y → sys_inv (srun others y (begin_txn id env ttl)).1.
Proof.
  intros Hid Hi. unfold begin_txn. cbn. unfold on_coord. cbn.
  destruct (lg_grant _ _ _ _) as [l' [lease|e]]; cbn; [|by apply sys_inv_coord; [apply kept_refl|]]. unfold on_coord. cbn.
  set (rec := mkTxn _ _ _ _ _). pose proof (ts_create_law (w_store (sy_coord y)) rec) as Hc.
  destruct (ts_create _ _) as [s' res]. destruct Hc as [-> Hv]. cbn. apply (sys_inv_coord (set_coord y _)); [|by apply sys_inv_coord; [apply kept_refl|]].
  cbn. rewrite Hv. intros id' ep (r & Hr & Hep). exists r. split; [|done]. cbn. rewrite lookup_insert_ne; [done|]. congruence.
Qed.

Lemma on_space_inv y ep op :
  (∀ m, sy_spaces y !! ep = Some m → op_ok m op) → sys_inv y → sys_inv (on_space y ep (λ m, mrun m op)).
Proof.
  intros Hop Hi. unfold on_space. destruct (sy_spaces y !! ep) as [m|] eqn:Em; [|done].
  destruct (Hi ep m Em) as [(A1 & [e A2] & A3) Hrep].
  assert (Hl : linked (plug m (sy_coord y)) ep).
  { split; [done|]. exists (se_share (sy_coord y) e). cbn. rewrite A2. split; [done|]. by rewrite se_shared. }
  destruct (mrun_keeps (plug m (sy_coord y)) ep op Hl Hrep (Hop m eq_refl)) as ([B1 (e' & B2 & B3)] & Hrep' & Hg).
  specialize (Hg (sy_coord y)). unfold coord_of in *. cbn in Hg. rewrite A2 in Hg. cbn in Hg. rewrite se_shared in Hg.
  intros ep' m'. cbn. destruct (decide (ep' = ep)) as [->|Hne].
  - rewrite lookup_insert_eq. intros [= <-]. split; [|done]. split_and!; [done|by rewrite B2|]. by rewrite B2.
  - rewrite lookup_insert_ne by done. intros Hm'. destruct (Hi ep' m' Hm') as [Ha ?]. split; [|done].
    eapply attached_kept; [|exact Ha]. intros id0 ep0. rewrite B2 in Hg |- *. by apply grown_enrolled.
Qed.

Definition set_net y (net : list Fate) : Sys := set_spaces y (sy_spaces y) net.

(** Ids of new transactions are new; Spaces are called for ids they are made for. *)
Definition sys_ok y (op : SysOp) : Prop :=
  match op with
  | YBegin id _ _ => txns (sy_coord y) !! id = None
  | YEnlist _ _ _ => True
  | YCommit id | YAbort id | YExpired id => txn_valid id
  | YSpace ep op => ∀ m, sy_spaces y !! ep = Some m → op_ok m op
  end.

(** Spaces that have just been started. *)
Definition sys_init y : Prop :=
  ∀ ep m, sy_spaces y !! ep = Some m →
    sm_participant_endpoint m = Some ep ∧ is_Some (sm_enlister m) ∧ sm_enlisted m = ∅ ∧
    ∃ a, rep m a ∧ ∀ t, holds_nothing a t.

(** What the system can come to, whatever the network loses on the way. *)
Inductive sys_reach (y0 : Sys) : Sys → Prop :=
| sys_reach_init : sys_reach y0 y0
| sys_reach_step y net op : sys_reach y0 y → sys_ok y op → sys_reach y0 (sys_step allow others (set_net y net) op).

Lemma sys_reach_inv y0 y : sys_init y0 → sys_reach y0 y → sys_inv y.
Proof.
  intros H0. induction 1 as [|y net op _ IH Hok].
  - intros ep m Hm. destruct (H0 ep m Hm) as (A & B & C & a & HR & Hn). split.
    + split_and!; [done..|]. rewrite C. intros t ?%not_elem_of_empty. done.
    + exists a. split; [done|]. intros t k r Hh. destruct (Hn t). eauto.
  - assert (Hi : sys_inv (set_net y net)) by exact IH.
    destruct op; cbn [sys_step sys_ok] in *.
    + by apply begin_inv.
    + apply srun_inv; [apply enlist_tame|done].
    + apply srun_inv; [by apply commit_tame|done].
    + apply srun_inv; [by apply abort_tame|done].
    + apply srun_inv; [by apply abort_expired_tame|done].
    + by apply on_space_inv.
Qed.

(** A Space that is no participant holds nothing of the transaction. *)
Lemma bystander y id r ep m a :
  sys_inv y → txn_valid id → txns (sy_coord y) !! id = Some r → sy_spaces y !! ep = Some m →
  ep ∉ endpoints r → rep m a → holds_nothing a id.
Proof.
  intros Hi (Hv & _) Hr Hm Hep HR. destruct (Hi ep m Hm) as [(_ & _ & Hin) (a0 & HR0 & Ha0)].
  destruct (has_txn_settles m a0 id HR0 Hv) as (b & _ & Hb & Hnone). apply Hb; [|done]. apply Hnone.
  intros (k & r' & Hh). apply Ha0, Hin in Hh as (r0 & Hr0 & ?). by simplify_eq.
Qed.

(** All Spaces of the system, with [id] settled as [b] says. *)
Definition all_settled (b : Buffer) id y y' : Prop :=
  ∀ ep m a, sy_spaces y !! ep = Some m → rep m a →
    ∃ m', sy_spaces y' !! ep = Some m' ∧ rep m' (settled b id a) ∧ holds_nothing (settled b id a) id.

Lemma all_settled_intro b id r y y' :
  sys_inv y → txn_valid id → txns (sy_coord y) !! id = Some r → spaces_moved b id y y' →
  (∀ ep, ep ∈ endpoints r → arrived b id ep y y') → all_settled b id y y'.
Proof.
  intros Hi Hv Hr Hm Harr ep m a Em HR. destruct (decide (ep ∈ endpoints r)) as [Hin|Hnin].
  - destruct (Harr ep Hin m Em) as (m' & E' & _ & _ & _ & Hs). exists m'. split_and!; [done|by apply Hs|apply settled_nothing].
  - pose proof (bystander y id r ep m a Hi Hv Hr Em Hnin HR) as Hn. specialize (Hm ep). rewrite Em in Hm.
    destruct Hm as (m' & E' & Hm). exists m'. split_and!; [done| |apply settled_nothing].
    destruct Hm as [->|(_ & _ & _ & Hs)]; [|by apply Hs]. by rewrite (settled_id b id a (rep_keyed m a HR) Hn).
Qed.

(** Each Space is as it was or has [id] settled as [b] says. *)
Definition none_mixed (b : Buffer) id y y' : Prop :=
  ∀ ep m a, sy_spaces y !! ep = Some m → rep m a →
    ∃ m', sy_spaces y' !! ep = Some m' ∧ (rep m' a ∨ rep m' (settled b id a)).

Lemma none_mixed_intro b id y y' : spaces_moved b id y y' → none_mixed b id y y'.
Proof.
  intros Hm ep m a Em HR. specialize (Hm ep). rewrite Em in Hm. destruct Hm as (m' & E' & Hm). exists m'. split; [done|].
  destruct Hm as [->|(_ & _ & _ & Hs)]; [by left|]. right. by apply Hs.
Qed.

(** C2: A transaction is atomic across Spaces.  In every state the system
    can reach, [commit] on an Active transaction takes one decision, which its
    answer and the transaction's record report.  Whatever calls or answers the
    network loses, no Space does the opposite of it: each is as it was or has the
    transaction settled that way, and the decision is open only when the one
    participant there is did not answer.  When nothing is lost, every Space of
    the system, enlisted or not, has it settled that way and holds nothing of the
    transaction any more. *)
Theorem transaction_atomic_across_spaces y0 y id r net :
  sys_init y0 → sys_reach y0 y → txn_valid id →
  txns (sy_coord y) !! id = Some r → tx_state r = Active →
  let '(y', res) := srun others (set_net y net) (commit id) in
  ∃ b st, decision res = Some (b, st) ∧ txns (sy_coord y') !! id = Some (with_state r st) ∧
    none_mixed b id y y' ∧ (st = Voting → ∃ ep, endpoints r = [ep]) ∧
    (net = [] → all_settled b id y y').
Proof.
  intros H0 Hreach Hv Hr Ha. pose proof (sys_reach_inv y0 y H0 Hreach) as Hi.
  assert (Hi' : sys_inv (set_net y net)) by exact Hi.
  pose proof (commit_active_across (set_net y net) id r (sys_inv_represented _ Hi') Hv Hr Ha) as Hc.
  unfold sruns in Hc. destruct (srun others (set_net y net) (commit id)) as [y' res].
  destruct Hc as (b & st & Hd & Ht & Hm & Hone & Harr). exists b, st. cbn [fst snd] in *. split_and!; [done| | |done|].
  - rewrite Ht. apply lookup_insert_eq.
  - exact (none_mixed_intro b id _ _ Hm).
  - intros Hn. exact (all_settled_intro b id r _ _ Hi' Hv Hr Hm (Harr Hn)).
Qed.

(** C22: A transaction that is aborted, or whose lease ends, is undone.  In every
    state the system can reach, whatever calls or answers the network loses, the
    transaction is recorded as aborted and each Space is as it was or has it rolled
    back; a Space the call did not reach still holds what it held.  When no call is
    lost, every Space of the system gets back what the transaction took, its writes
    are gone, and nothing of it is held any more. *)
Theorem aborted_transaction_undone y0 y id r net (p : prog (result unit Error)) :
  sys_init y0 → sys_reach y0 y → txn_valid id →
  txns (sy_coord y) !! id = Some r → tx_state r = Active → p = abort id ∨ p = abort_expired id →
  let '(y', res) := srun others (set_net y net) p in
  res = Ok () ∧ txns (sy_coord y') !! id = Some (with_state r Aborted) ∧
  none_mixed BTaken id y y' ∧ (net = [] → all_settled BTaken id y y').
Proof.
  intros H0 Hreach Hv Hr Ha Hp. pose proof (sys_reach_inv y0 y H0 Hreach) as Hi.
  assert (Hi' : sys_inv (set_net y net)) by exact Hi.
  destruct (abort_active_across (set_net y net) id r (sys_inv_represented _ Hi') Hv Hr Ha) as [H1 H2].
  assert (Hc : sruns (set_net y net) p (abort_across (set_net y net) id r)) by (by destruct Hp as [-> | ->]).
  unfold sruns in Hc. destruct (srun others (set_net y net) p) as [y' res].
  destruct Hc as (Hok & Ht & Hm & Harr). cbn [fst snd] in *. split_and!; [done| | |].
  - rewrite Ht. apply lookup_insert_eq.
  - exact (none_mixed_intro BTaken id _ _ Hm).
  - intros Hn. exact (all_settled_intro BTaken id r _ _ Hi' Hv Hr Hm (Harr Hn)).
Qed.

(** A take that is still waiting when its transaction ends does not notice.  Woken
    in a Space that is not enlisted in the transaction (any more), it takes a
    tuple for it all the same, and the Space is still not enlisted. *)
Theorem woken_take_not_enlisted m a tm t r :
  rep m a → ss_valid (OTakeMatch tm (Some t)) → holds_nothing a t → t ∉ sm_enlisted m →
  a !! tp_tuple_id r = Some (r, Visible) → accepts tm r = true →
  ∃ r0 a', (take_wake m tm (Some t) (WRecv r)).2 = Some (Some r0) ∧
    let m' := (take_wake m tm (Some t) (WRecv r)).1 in
    rep m' a' ∧ holds a' BTaken t r0 ∧ t ∉ sm_enlisted m'.
Proof.
  intros HR Hv Hn Ht Hr Hacc. destruct (take_call _ a tm (Some t) HR Hv) as (s' & o & a' & E & HR' & Ho).
  unfold take_wake. fold (accepts tm r). rewrite Hacc. unfold take_once. rewrite E. destruct o as [r0|].
  - destruct Ho as (p & (Hr0 & Hav & _) & ->). exists r0. eexists. split; [done|]. cbn. split; [exact HR'|]. split; [|done].
    destruct Hav as [->|(t' & [= <-] & ->)]; [|by destruct Hn; exists BUncommitted, r0].
    unfold holds, take_tuple. cbn. by rewrite lookup_insert_eq.
  - destruct Ho as [_ Hno]. exfalso. apply (Hno r Visible). split_and!; [done|by left|done].
Qed.
End spaces.

(** ** Two Spaces and a transaction over both *)
Section samples.
#[local] Existing Instance chrono_sample.
#[local] Existing Instance canonical_iter.
#[local] Existing Instance show_message.

Abbreviation Coord := (World InMemoryTxnStore (LeaseManager InMemoryLeaseStore)).

#[local] Instance sample_enlister : TxnEnlister (RemoteEnlister Coord) := remote_enlister sample_allow.
#[local] Instance sample_shared : SharedEnlister Coord (RemoteEnlister Coord) := remote_shared.
#[local] Instance sample_enlister_laws :
  SharedEnlisterLaws InMemoryTxnStore (LeaseManager InMemoryLeaseStore) (RemoteEnlister Coord) :=
  remote_enlister_laws sample_allow.

Abbreviation TwoSpaces := (System InMemoryTxnStore (LeaseManager InMemoryLeaseStore) InMemorySpaceStore
  (LeaseManager InMemoryLeaseStore) (RemoteEnlister Coord)).

(** A started Space; the answer of the first enlistment from [b] gets lost. *)
Definition started (s : InMemorySpaceStore) (ep : string) (fates : list (Fate * Fate)) :=
  with_enlister (L := LeaseManager InMemoryLeaseStore) s space_leases
    {| rme_coord := sample_world; rme_fates := fates |} ep.

Definition two_spaces : TwoSpaces := {|
  sy_coord := sample_world;
  sy_spaces := <["a:1" := started SpaceStore.new "a:1" []]>
    (<["b:1" := started store_ab "b:1" [(lost, Delivered)]]> ∅);
  sy_net := [] |}.

(** [t1] writes a tuple in [a] and takes one from [b]. *)
Definition t1_ops : list SysOp := [
  YBegin "t1" (sample_env "t1") 30;
  YSpace "a:1" (MWrite "tup-new" write_env {["kind" := "alert"]} [] 30 "w" None (Some "t1"));
  YSpace "b:1" (MTakeNow {["size" := "*"]} false (Some "t1"))].

Definition t1_active : TwoSpaces :=
  foldl (λ y op, sys_step sample_allow no_net (set_net y []) op) two_spaces t1_ops.

(** What a client outside the transaction sees in a Space. *)
Definition seen (y : TwoSpaces) (ep : string) : list string :=
  match sy_spaces y !! ep with
  | Some m => match contents m ∅ None with Ok l => tp_tuple_id <$> l | Err _ => [] end
  | None => []
  end.

Definition t1_record : option (TransactionState * list string) :=
  (λ r, (tx_state r, endpoints r)) <$> ts_view (w_store (sy_coord t1_active)) !! "t1".

Example t1_active_seen :
  t1_record = Some (Active, ["a:1"; "b:1"; "b:1"]) ∧ seen t1_active "a:1" = [] ∧ length (seen t1_active "b:1") = 1%nat.
Proof. vm_compute. auto. Qed.

Lemma two_spaces_lookup ep m :
  sy_spaces two_spaces !! ep = Some m →
  (ep = "a:1" ∧ m = started SpaceStore.new "a:1" []) ∨ (ep = "b:1" ∧ m = started store_ab "b:1" [(lost, Delivered)]).
Proof. cbn. rewrite !lookup_insert_Some, lookup_empty. naive_solver. Qed.

Lemma two_spaces_init : sys_init two_spaces.
Proof.
  intros ep m [[-> ->]|[-> ->]]%two_spaces_lookup; (split; [done|]); (split; [by eexists|]); (split; [done|]).
  - exists ∅. split; [exact represents_new|]. by intros t (k & r & Hh).
  - exists space_ab. split; [exact rep_ab|]. intros t (k & r & Hh). revert Hh. unfold holds, space_ab.
    rewrite !lookup_insert_Some, lookup_empty. naive_solver.
Qed.

(** Nothing is in a new store. *)
Lemma new_is_empty a : represents SpaceStore.new a → ∀ id, a !! id = None.
Proof.
  intros HR id. destruct (a !! id) as [[r [|b t]]|] eqn:E; [| |done].
  - by apply (rp_tuples _ _ HR) in E.
  - pose proof (rp_key _ _ HR _ _ _ E) as Hk. rewrite <- Hk in E. apply (rp_buf _ _ HR) in E.
    by destruct b; apply elem_of_nil in E.
Qed.

Lemma t1_reach : sys_reach sample_allow no_net two_spaces t1_active.
Proof.
  unfold t1_active, t1_ops. cbn [foldl].
  apply sys_reach_step; [apply sys_reach_step; [apply sys_reach_step; [apply sys_reach_init|]|]|].
  - reflexivity.
  - intros m Hm. assert (sm_store m = SpaceStore.new) as Hs by (vm_compute in Hm; by injection Hm as <-).
    split; [by intros|]. split; [|done]. intros a HR. rewrite Hs in HR. pose proof (new_is_empty a HR) as Ha.
    split; [done|]. intros id' r p. by rewrite Ha.
  - intros m Hm. by split_and!.
Qed.

Lemma t1_record_active :
  ∃ r, ts_view (w_store (sy_coord t1_active)) !! "t1" = Some r ∧ tx_state r = Active.
Proof. eexists. vm_compute. split; reflexivity. Qed.

(** Without losses the commit shows the write in [a] and keeps the take from [b];
    when the votes of [b] get lost, everything is rolled back. *)
Theorem transaction_atomic_across_spaces_witness :
  let good := srun no_net (set_net t1_active []) (commit "t1") in
  let bad := srun no_net (set_net t1_active [Delivered; lost]) (commit "t1") in
  good.2 = Ok () ∧ seen good.1 "a:1" = ["tup-new"] ∧ length (seen good.1 "b:1") = 1%nat ∧
  bad.2 = Err (TransactionAborted "t1") ∧ seen bad.1 "a:1" = [] ∧ length (seen bad.1 "b:1") = 2%nat ∧
  all_settled BUncommitted "t1" t1_active good.1.
Proof.
  destruct t1_record_active as (r & Hr & Ha). cbv zeta.
  assert (Hg : (srun no_net (set_net t1_active []) (commit "t1")).2 = Ok ()) by (vm_compute; reflexivity).
  split; [exact Hg|]. split; [vm_compute; reflexivity|]. split; [vm_compute; reflexivity|].
  split; [vm_compute; reflexivity|]. split; [vm_compute; reflexivity|]. split; [vm_compute; reflexivity|].
  pose proof (transaction_atomic_across_spaces sample_allow no_net two_spaces t1_active "t1" r []
    two_spaces_init t1_reach (conj Logic.I (conj Logic.I Logic.I)) Hr Ha) as H.
  destruct (srun no_net (set_net t1_active []) (commit "t1")) as [y' res]. cbn [fst snd] in Hg |- *. subst res.
  destruct H as (b & st & [= <- <-] & _ & _ & _ & Hall). by apply Hall.
Defined.

(** The end of the lease gives [b] its tuple back; when the call to [b] is lost it
    keeps holding it. *)
Theorem aborted_transaction_undone_witness :
  let out := srun no_net (set_net t1_active []) (abort_expired "t1") in
  let never := RequestLost (mkStatus CUnavailable "connection refused") in
  let bad := srun no_net (set_net t1_active [Delivered; never; never]) (abort_expired "t1") in
  seen out.1 "a:1" = [] ∧ length (seen out.1 "b:1") = 2%nat ∧ length (seen bad.1 "b:1") = 1%nat ∧
  all_settled BTaken "t1" t1_active out.1.
Proof.
  destruct t1_record_active as (r & Hr & Ha). cbv zeta.
  split; [vm_compute; reflexivity|]. split; [vm_compute; reflexivity|]. split; [vm_compute; reflexivity|].
  pose proof (aborted_transaction_undone sample_allow no_net two_spaces t1_active "t1" r [] (abort_expired "t1")
    two_spaces_init t1_reach (conj Logic.I (conj Logic.I Logic.I)) Hr Ha (or_intror eq_refl)) as H.
  destruct (srun no_net (set_net t1_active []) (abort_expired "t1")) as [y' res]. by apply H.
Defined.

(** A take under [t1] waits in [a], [t1] is aborted, an alert is written: the take
    gets it, the Space shows no alert, and nothing brings it back. *)
Definition waiting_take : list SysOp := [
  YBegin "t1" (sample_env "t1") 30;
  YSpace "a:1" (MTakeNow alert_template true (Some "t1"));
  YAbort "t1";
  YSpace "a:1" (MWrite "tup-new" write_env alert_template [] 30 "w" None None);
  YSpace "a:1" (MTakeWake alert_template (Some "t1") (WRecv (mkTuple "tup-new" alert_template [] "lease-new" "w" 1 None)));
  YAbort "t1"; YExpired "t1"; YCommit "t1"].

Definition play (ops : list SysOp) : TwoSpaces :=
  foldl (λ y op, sys_step sample_allow no_net (set_net y []) op) two_spaces ops.

Theorem woken_take_strands_tuple :
  seen (play (take 4 waiting_take)) "a:1" = ["tup-new"] ∧ seen (play waiting_take) "a:1" = [] ∧
  (tx_state <$> ts_view (w_store (sy_coord (play waiting_take))) !! "t1") = Some Aborted ∧
  ((λ m, has_txn m "t1") <$> sy_spaces (play waiting_take) !! "a:1") = Some (Ok true).
Proof. split_and!; vm_compute; reflexivity. Qed.
End samples.
