(* ===== verification/TestKit.v ===== *)
(** * Running the tests of the repository

    A Rust test is a program over the state of the components it creates, in
    which an assertion that fails and an [unwrap] of an error panic.  Tests
    written in this monad run on the model; a test passes when it does not
    panic. *)

From S2P Require Import Prelude CoreTypes LeaseCore.
From Stdlib Require Import Strings.Byte.

(** [None]: the test panicked. *)
Definition test (W A : Type) : Type := W → option (W * A).

#[global] Instance test_ret {W} : MRet (test W) := λ A a w, Some (w, a).
#[global] Instance test_bind {W} : MBind (test W) := λ A B k m w,
  match m w with Some (w', a) => k a w' | None => None end.

(** A call on the state, a look at it, a change of it. *)
Definition call {W A} (f : W → W * A) : test W A := λ w, Some (f w).
Definition look {W A} (f : W → A) : test W A := λ w, Some (w, f w).
Definition change {W} (f : W → W) : test W () := λ w, Some (f w, ()).

Definition panic {W A} : test W A := λ _, None.

(** [assert!], [assert_eq!], [unwrap] and [unwrap_err]. *)
Definition assert {W} (b : bool) : test W () := λ w, if b then Some (w, ()) else None.
Definition assert_eq {W A} `{EqDecision A} (x y : A) : test W () := assert (bool_decide (x = y)).
Definition unwrap {W A E} (r : result A E) : test W A := λ w,
  match r with Ok a => Some (w, a) | Err _ => None end.
Definition unwrap_err {W A E} (r : result A E) : test W E := λ w,
  match r with Ok _ => None | Err e => Some (w, e) end.
Definition unwrap_some {W A} (o : option A) : test W A := λ w,
  match o with Some a => Some (w, a) | None => None end.

Definition is_some {A} (o : option A) : bool := match o with Some _ => true | None => false end.
Definition is_none {A} (o : option A) : bool := negb (is_some o).
Definition is_empty_list {A} (l : list A) : bool := match l with [] => true | _ => false end.

Definition passes {W A} (w : W) (t : test W A) : bool := is_some (t w).

(** A loop over a list. *)
Fixpoint for_each {W A} (l : list A) (f : A → test W ()) : test W () :=
  match l with [] => mret () | x :: l => f x;; for_each l f end.

(** The [n]-th id a test draws. *)
Definition nth_id (n : nat) : string := "id-" +:+ pretty n.

Definition bytes (s : string) : list byte := String.list_byte_of_string s.
Definition attrs (l : list (string * string)) : gmap string string := list_to_map l.

(** [broadcast::Receiver::recv] with a buffer of [cap] messages. *)
Definition recv_at {A} (cap : nat) (tx : list A) (pos : nat) : option (Recv A * nat) :=
  let behind := (length tx - pos)%nat in
  if (cap <? behind)%nat then Some (RecvLagged (Z.of_nat (behind - cap)), (length tx - cap)%nat)
  else (λ e, (RecvMsg e, S pos)) <$> tx !! pos.

(** What a receiver with a buffer of [cap] yields of [tx] from [pos] on. *)
Fixpoint recv_all {A} (fuel cap pos : nat) (tx : list A) : list (Recv A) :=
  match fuel with
  | 0 => []
  | S fuel =>
      match recv_at cap tx pos with
      | None => []
      | Some (item, pos) => item :: recv_all fuel cap pos tx
      end
  end.

(** The environment of the tests that need tables. *)
Definition test_env (name : string) : option string :=
  if String.eqb name "COORDIN8_AUTO_CREATE_TABLES" then Some "true" else None.
