(* ===== verification/TestSpace.v ===== *)
(** * The tests of the Space on the model
    ([coordin8-space/tests/demo.rs], the tests of [coordin8-space/src/service.rs]) *)

From S2P Require Import Prelude CoreTypes LeaseCore LeaseStore LeaseManager Matcher.
From S2P Require Import SpaceStore SpaceSpec SpaceManager SpaceService Sweep TestKit.
From Stdlib Require Import Strings.Byte.

Section tests.
#[local] Existing Instance chrono_sample.
#[local] Existing Instance canonical_iter.
#[local] Existing Instance accept_enlister.

(** The tests run on any tuple store. *)
Context {S : Type} {SS : SpaceStore S}.

Abbreviation LocalSpace := (SpaceManager S (LeaseManager InMemoryLeaseStore) ()).

(** The manager under test, the time in nanoseconds, the ids drawn so far, how
    far the expiry listener has read its channel, and whether the reaper runs. *)
Record World := {
  w_mgr : LocalSpace;
  w_now : Z;
  w_ids : nat;
  w_listened : nat
}.

Definition make_manager (store : S) : World := {|
  w_mgr := new_manager store
    {| lm_store := LeaseStore.new; lm_config := LeaseConfig_default; lm_expiry_tx := [] |};
  w_now := 0; w_ids := 0; w_listened := 0 |}.

Definition with_mgr (w : World) (m : LocalSpace) : World :=
  {| w_mgr := m; w_now := w_now w; w_ids := w_ids w; w_listened := w_listened w |}.

(** An operation of the manager that draws no id. *)
Definition on_mgr {A} (f : LocalSpace → LocalSpace * A) : test World A :=
  call (λ w, let '(m, a) := f (w_mgr w) in (with_mgr w m, a)).

Definition write_ at_ payload ttl by_ input txn : test World (TupleRecord * LeaseRecord) :=
  r ← call (λ w,
    let env := {| now := w_now w; now2 := w_now w; uuid := nth_id (w_ids w + 1) |} in
    let '(m, r) := write (w_mgr w) (nth_id (w_ids w)) env at_ payload ttl by_ input txn in
    ({| w_mgr := m; w_now := w_now w; w_ids := w_ids w + 2; w_listened := w_listened w |}, r));
  unwrap r.

(** [read] and [take] that do not wait. *)
Definition read_ template txn : test World (option TupleRecord) :=
  r ← look (λ w, read_now (w_mgr w) template false txn);
  r ← unwrap_some r; unwrap r.

Definition take_ template txn : test World (option TupleRecord) :=
  r ← on_mgr (λ m, take_now m template false txn);
  r ← unwrap_some r; unwrap r.

Definition contents_ template txn : test World (list TupleRecord) :=
  r ← look (λ w, contents (w_mgr w) template txn); unwrap r.

Definition commit_ txn : test World () := r ← on_mgr (λ m, commit_space_txn m txn); unwrap r.
Definition abort_ txn : test World () := r ← on_mgr (λ m, abort_space_txn m txn); unwrap r.
Definition cancel_ id : test World () := r ← on_mgr (λ m, cancel m id); unwrap r.
Definition has_txn_ txn : test World bool := r ← look (λ w, has_txn (w_mgr w) txn); unwrap r.
Definition expired_ lease : test World () := on_mgr (λ m, (on_tuple_expired m lease, ())).
Definition lease_ lease : test World (option LeaseRecord) :=
  r ← look (λ w, LeaseManager.get (sm_leases (w_mgr w)) lease); unwrap r.

(** A spawned [take] that waits: where its subscription starts. *)
Definition spawn_take template txn : test World nat :=
  pos ← look (λ w, length (sm_tuple_tx (w_mgr w)));
  r ← on_mgr (λ m, take_now m template true txn);
  assert (is_none r);; mret pos.

(** Joining it: it sees what was sent since, then its timeout. *)
Fixpoint woken template txn (l : list Wake) (m : LocalSpace) : LocalSpace * option (option TupleRecord) :=
  match l with
  | [] => (m, None)
  | k :: l => match take_wake m template txn k with
              | (m, Some r) => (m, Some r)
              | (m, None) => woken template txn l m
              end
  end.

Definition join_take template txn (pos : nat) : test World (option TupleRecord) :=
  r ← on_mgr (λ m, woken template txn ((WRecv <$> drop pos (sm_tuple_tx m)) ++ [WTimeout]) m);
  unwrap_some r.

(** Time passes, with the reaper and the expiry listener of
    [make_manager_with_reaper] at work. *)
Definition sleep_reaping (ns : Z) : test World () := change (λ w,
  let now := (w_now w + ns)%Z in
  let m := put_leases (w_mgr w) (reaper_tick (sm_leases (w_mgr w)) (λ _, now)) in
  let events := lm_expiry_tx (sm_leases m) in
  {| w_mgr := cascade space_handler m (RecvMsg <$> drop (w_listened w) events);
     w_now := now; w_ids := w_ids w; w_listened := length events |}).

(** ** The tests *)

Definition write_and_read : test World () :=
  '(record, _) ← write_ (attrs [("kind", "price"); ("ticker", "AAPL")]) (bytes "{" ++ [x22] ++ bytes "price" ++ [x22] ++ bytes ": 189}") 60 "test" None None;
  found ← read_ (attrs [("kind", "price")]) None;
  assert (is_some found);;
  found ← unwrap_some found;
  assert_eq (tp_tuple_id found) (tp_tuple_id record);;
  assert_eq (tp_attrs found !! "ticker") (Some "AAPL").

Definition write_and_take : test World () :=
  _ ← write_ (attrs [("kind", "task"); ("name", "build")]) [] 60 "producer" None None;
  taken ← take_ (attrs [("kind", "task")]) None;
  assert (is_some taken);;
  second ← take_ (attrs [("kind", "task")]) None;
  assert (is_none second).

Definition read_nonblocking_empty : test World () :=
  result ← read_ (attrs [("kind", "nope")]) None;
  assert (is_none result).

Definition take_nonblocking_empty : test World () :=
  result ← take_ (attrs [("kind", "nope")]) None;
  assert (is_none result).

Definition take_blocking_unblocks_on_write : test World () :=
  taker ← spawn_take (attrs [("kind", "job")]) None;
  _ ← write_ (attrs [("kind", "job"); ("id", "42")]) [] 60 "dispatcher" None None;
  result ← join_take (attrs [("kind", "job")]) None taker;
  assert (is_some result);;
  result ← unwrap_some result;
  assert_eq (tp_attrs result !! "id") (Some "42").

(** The wait ends by its timeout. *)
Definition read_blocking_timeout : test World () :=
  r ← look (λ w, read_now (w_mgr w) (attrs [("kind", "ghost")]) true None);
  assert (is_none r);;
  r ← look (λ w, read_loop (attrs [("kind", "ghost")]) None [(w_mgr w, WTimeout)]);
  result ← unwrap_some r;
  assert (is_none result).

Definition template_matching : test World () :=
  _ ← write_ (attrs [("kind", "sensor"); ("location", "tampa-east-7"); ("metrics", "wind,humidity,temp")]) [] 60 "test" None None;
  exact ← read_ (attrs [("kind", "sensor")]) None;
  assert (is_some exact);;
  contains ← read_ (attrs [("metrics", "contains:humidity")]) None;
  assert (is_some contains);;
  starts ← read_ (attrs [("location", "starts_with:tampa")]) None;
  assert (is_some starts);;
  any ← read_ (attrs [("kind", "sensor"); ("location", "*")]) None;
  assert (is_some any);;
  miss ← read_ (attrs [("kind", "camera")]) None;
  assert (is_none miss).

Definition tuple_lease_expiry : test World () :=
  _ ← write_ (attrs [("kind", "ephemeral")]) [] 1 "test" None None;
  exists_ ← read_ (attrs [("kind", "ephemeral")]) None;
  assert (is_some exists_);;
  sleep_reaping 2000000000;;
  gone ← read_ (attrs [("kind", "ephemeral")]) None;
  assert (is_none gone).

Definition notify_appearance : test World () :=
  r ← call (λ w,
    let env := {| now := w_now w; now2 := w_now w; uuid := nth_id (w_ids w + 1) |} in
    let '(m, r) := notify (w_mgr w) (nth_id (w_ids w)) env (attrs [("kind", "alert")]) Appearance 60 (bytes "my-handback") in
    ({| w_mgr := m; w_now := w_now w; w_ids := w_ids w + 2; w_listened := w_listened w |}, r));
  _ ← unwrap r;
  rx ← look (λ w, length (sm_tuple_tx (w_mgr w)));
  _ ← write_ (attrs [("kind", "alert"); ("level", "critical")]) (bytes "disk full") 60 "monitor" None None;
  event ← look (λ w, sm_tuple_tx (w_mgr w) !! rx);
  event ← unwrap_some event;
  assert_eq (tp_attrs event !! "kind") (Some "alert");;
  assert_eq (tp_attrs event !! "level") (Some "critical").

(** One take after the other; [concurrent_takes_disjoint] interleaves them. *)
Definition take_race_one_winner : test World () :=
  _ ← write_ (attrs [("kind", "token")]) [] 60 "test" None None;
  r1 ← take_ (attrs [("kind", "token")]) None;
  r2 ← take_ (attrs [("kind", "token")]) None;
  assert_eq (length (List.filter (λ b : bool, b) [is_some r1; is_some r2])) 1%nat.

Definition cancel_tuple_removes : test World () :=
  '(record, _) ← write_ (attrs [("kind", "temp")]) [] 60 "test" None None;
  cancel_ (tp_tuple_id record);;
  gone ← read_ (attrs [("kind", "temp")]) None;
  assert (is_none gone).

Definition provenance_tracking : test World () :=
  '(input, _) ← write_ (attrs [("kind", "raw")]) (bytes "raw data") 60 "sensor" None None;
  '(derived, _) ← write_ (attrs [("kind", "processed")]) (bytes "processed data") 60 "pipeline" (Some (tp_tuple_id input)) None;
  assert_eq (tp_written_by derived) "pipeline";;
  assert_eq (tp_input_tuple_id derived) (Some (tp_tuple_id input)).

Definition contents_bulk_read : test World () :=
  for_each ["AAPL"; "TSLA"; "GOOG"] (λ ticker,
    _ ← write_ (attrs [("kind", "price"); ("ticker", ticker)]) [] 60 "feed" None None; mret ());;
  _ ← write_ (attrs [("kind", "task")]) [] 60 "scheduler" None None;
  prices ← contents_ (attrs [("kind", "price")]) None;
  assert_eq (length prices) 3%nat;;
  all ← contents_ ∅ None;
  assert_eq (length all) 4%nat;;
  none ← contents_ (attrs [("kind", "nope")]) None;
  assert (is_empty_list none).

Definition txn_write_invisible_without_txn : test World () :=
  _ ← write_ (attrs [("kind", "secret")]) (bytes "hidden") 60 "writer" None (Some "txn-001");
  result ← read_ (attrs [("kind", "secret")]) None;
  assert (is_none result);;
  result ← take_ (attrs [("kind", "secret")]) None;
  assert (is_none result).

Definition txn_write_visible_with_txn : test World () :=
  _ ← write_ (attrs [("kind", "secret"); ("data", "classified")]) (bytes "payload") 60 "writer" None (Some "txn-002");
  result ← read_ (attrs [("kind", "secret")]) (Some "txn-002");
  assert (is_some result);;
  result ← unwrap_some result;
  assert_eq (tp_attrs result !! "data") (Some "classified").

Definition txn_commit_makes_visible : test World () :=
  _ ← write_ (attrs [("kind", "committed")]) [] 60 "writer" None (Some "txn-003");
  before ← read_ (attrs [("kind", "committed")]) None;
  assert (is_none before);;
  commit_ "txn-003";;
  after ← read_ (attrs [("kind", "committed")]) None;
  assert (is_some after).

Definition txn_abort_discards_writes : test World () :=
  _ ← write_ (attrs [("kind", "doomed")]) [] 60 "writer" None (Some "txn-004");
  abort_ "txn-004";;
  result ← read_ (attrs [("kind", "doomed")]) None;
  assert (is_none result);;
  result ← read_ (attrs [("kind", "doomed")]) (Some "txn-004");
  assert (is_none result).

Definition txn_take_then_commit : test World () :=
  _ ← write_ (attrs [("kind", "takeable")]) [] 60 "writer" None (Some "txn-005");
  taken ← take_ (attrs [("kind", "takeable")]) (Some "txn-005");
  assert (is_some taken);;
  commit_ "txn-005";;
  result ← read_ (attrs [("kind", "takeable")]) None;
  assert (is_none result).

Definition txn_isolation_between_txns : test World () :=
  _ ← write_ (attrs [("kind", "alpha")]) [] 60 "txn-a" None (Some "txn-A");
  _ ← write_ (attrs [("kind", "beta")]) [] 60 "txn-b" None (Some "txn-B");
  sees_alpha ← read_ (attrs [("kind", "alpha")]) (Some "txn-A");
  assert (is_some sees_alpha);;
  sees_beta ← read_ (attrs [("kind", "beta")]) (Some "txn-A");
  assert (is_none sees_beta);;
  sees_beta ← read_ (attrs [("kind", "beta")]) (Some "txn-B");
  assert (is_some sees_beta);;
  sees_alpha ← read_ (attrs [("kind", "alpha")]) (Some "txn-B");
  assert (is_none sees_alpha).

Definition txn_take_committed_abort_restores : test World () :=
  _ ← write_ (attrs [("kind", "restoreable")]) [] 60 "writer" None None;
  taken ← take_ (attrs [("kind", "restoreable")]) (Some "txn-006");
  assert (is_some taken);;
  gone ← read_ (attrs [("kind", "restoreable")]) None;
  assert (is_none gone);;
  abort_ "txn-006";;
  restored ← read_ (attrs [("kind", "restoreable")]) None;
  assert (is_some restored).

Definition txn_full_isolation_scenario : test World () :=
  _ ← write_ (attrs [("kind", "order"); ("id", "42")]) (bytes "order payload") 60 "producer" None (Some "txn-full");
  r ← read_ (attrs [("kind", "order")]) None;
  assert (is_none r);;
  r ← take_ (attrs [("kind", "order")]) None;
  assert (is_none r);;
  r ← read_ (attrs [("kind", "order")]) (Some "txn-full");
  assert (is_some r);;
  r ← unwrap_some r;
  assert_eq (tp_attrs r !! "id") (Some "42");;
  r ← take_ (attrs [("kind", "order")]) (Some "txn-full");
  assert (is_some r);;
  commit_ "txn-full";;
  r ← read_ (attrs [("kind", "order")]) None;
  assert (is_none r).

Definition txn_cross_process_shared_txn : test World () :=
  _ ← write_ (attrs [("kind", "transfer"); ("amount", "500")]) (bytes "bank transfer") 60 "process-a" None (Some "txn-shared");
  r ← read_ (attrs [("kind", "transfer")]) None;
  assert (is_none r);;
  r ← take_ (attrs [("kind", "transfer")]) None;
  assert (is_none r);;
  r ← read_ (attrs [("kind", "transfer")]) (Some "txn-shared");
  assert (is_some r);;
  r ← unwrap_some r;
  assert_eq (tp_attrs r !! "amount") (Some "500");;
  r ← take_ (attrs [("kind", "transfer")]) (Some "txn-shared");
  assert (is_some r);;
  r ← read_ (attrs [("kind", "transfer")]) None;
  assert (is_none r);;
  commit_ "txn-shared";;
  r ← read_ (attrs [("kind", "transfer")]) None;
  assert (is_none r).

Definition txn_shared_abort_voids_everything : test World () :=
  _ ← write_ (attrs [("kind", "payment"); ("id", "99")]) (bytes "$500") 60 "writer" None (Some "txn-doomed");
  taken ← take_ (attrs [("kind", "payment")]) (Some "txn-doomed");
  assert (is_some taken);;
  taken ← unwrap_some taken;
  assert_eq (tp_attrs taken !! "id") (Some "99");;
  abort_ "txn-doomed";;
  r ← read_ (attrs [("kind", "payment")]) None;
  assert (is_none r);;
  r ← read_ (attrs [("kind", "payment")]) (Some "txn-doomed");
  assert (is_none r).

Definition txn_taker_abort_restores_committed_tuple : test World () :=
  _ ← write_ (attrs [("kind", "invoice"); ("id", "777")]) (bytes "invoice data") 60 "billing" None (Some "txn-writer");
  r ← read_ (attrs [("kind", "invoice")]) None;
  assert (is_none r);;
  commit_ "txn-writer";;
  r ← read_ (attrs [("kind", "invoice")]) None;
  assert (is_some r);;
  taken ← take_ (attrs [("kind", "invoice")]) (Some "txn-taker");
  assert (is_some taken);;
  r ← read_ (attrs [("kind", "invoice")]) None;
  assert (is_none r);;
  abort_ "txn-taker";;
  r ← read_ (attrs [("kind", "invoice")]) None;
  assert (is_some r);;
  r ← unwrap_some r;
  assert_eq (tp_attrs r !! "id") (Some "777").

Definition txn_abort_unblocks_waiting_taker : test World () :=
  _ ← write_ (attrs [("kind", "job"); ("id", "101")]) [] 60 "dispatcher" None None;
  taken ← take_ (attrs [("kind", "job")]) (Some "txn-taker1");
  assert (is_some taken);;
  taker2 ← spawn_take (attrs [("kind", "job")]) None;
  abort_ "txn-taker1";;
  result ← join_take (attrs [("kind", "job")]) None taker2;
  assert (is_some result);;
  result ← unwrap_some result;
  assert_eq (tp_attrs result !! "id") (Some "101");;
  r ← read_ (attrs [("kind", "job")]) None;
  assert (is_none r).

Definition txn_contents_includes_uncommitted : test World () :=
  _ ← write_ (attrs [("kind", "item"); ("id", "1")]) [] 60 "w" None None;
  _ ← write_ (attrs [("kind", "item"); ("id", "2")]) [] 60 "w" None None;
  _ ← write_ (attrs [("kind", "item"); ("id", "3")]) [] 60 "w" None (Some "txn-contents");
  without ← contents_ (attrs [("kind", "item")]) None;
  assert_eq (length without) 2%nat;;
  with_ ← contents_ (attrs [("kind", "item")]) (Some "txn-contents");
  assert_eq (length with_) 3%nat.

Definition txn_write_expired_mid_txn_not_published_on_commit : test World () :=
  '(_, lease) ← write_ (attrs [("k", "w")]) [] 60 "t" None (Some "txn-a");
  expired_ (lr_lease_id lease);;
  commit_ "txn-a";;
  r ← read_ (attrs [("k", "w")]) None;
  assert (is_none r);;
  all ← contents_ ∅ None;
  assert (is_empty_list all);;
  held ← has_txn_ "txn-a";
  assert (negb held).

Definition txn_taken_expired_mid_txn_not_restored_on_abort : test World () :=
  '(_, lease) ← write_ (attrs [("k", "t")]) [] 60 "t" None None;
  taken ← take_ (attrs [("k", "t")]) (Some "txn-b");
  assert (is_some taken);;
  expired_ (lr_lease_id lease);;
  abort_ "txn-b";;
  r ← read_ (attrs [("k", "t")]) None;
  assert (is_none r);;
  all ← contents_ ∅ None;
  assert (is_empty_list all).

Definition commit_cancels_leases_of_taken_tuples : test World () :=
  '(_, committed_lease) ← write_ (attrs [("k", "c")]) [] 60 "t" None None;
  '(_, own_lease) ← write_ (attrs [("k", "own")]) [] 60 "t" None (Some "txn-c");
  r ← take_ (attrs [("k", "c")]) (Some "txn-c"); _ ← unwrap_some r;
  r ← take_ (attrs [("k", "own")]) (Some "txn-c"); _ ← unwrap_some r;
  l ← lease_ (lr_lease_id committed_lease);
  assert (is_some l);;
  l ← lease_ (lr_lease_id own_lease);
  assert (is_some l);;
  commit_ "txn-c";;
  l ← lease_ (lr_lease_id committed_lease);
  assert (is_none l);;
  l ← lease_ (lr_lease_id own_lease);
  assert (is_none l).

Definition abort_cancels_lease_of_own_write_taken_in_txn : test World () :=
  '(_, own_lease) ← write_ (attrs [("k", "own")]) [] 60 "t" None (Some "txn-d");
  r ← take_ (attrs [("k", "own")]) (Some "txn-d"); _ ← unwrap_some r;
  abort_ "txn-d";;
  l ← lease_ (lr_lease_id own_lease);
  assert (is_none l);;
  all ← contents_ ∅ None;
  assert (is_empty_list all).

(** The tests of the file. *)
Definition space_tests : list (test World ()) := [
    write_and_read; write_and_take; read_nonblocking_empty; take_nonblocking_empty; take_blocking_unblocks_on_write;
    read_blocking_timeout; template_matching; tuple_lease_expiry; notify_appearance; take_race_one_winner;
    cancel_tuple_removes; provenance_tracking; contents_bulk_read; txn_write_invisible_without_txn;
    txn_write_visible_with_txn; txn_commit_makes_visible; txn_abort_discards_writes; txn_take_then_commit;
    txn_isolation_between_txns; txn_take_committed_abort_restores; txn_full_isolation_scenario;
    txn_cross_process_shared_txn; txn_shared_abort_voids_everything; txn_taker_abort_restores_committed_tuple;
    txn_abort_unblocks_waiting_taker; txn_contents_includes_uncommitted;
    txn_write_expired_mid_txn_not_published_on_commit; txn_taken_expired_mid_txn_not_restored_on_abort;
    commit_cancels_leases_of_taken_tuples; abort_cancels_lease_of_own_write_taken_in_txn].
End tests.

(** ** The tests of [coordin8-space/src/service.rs] *)
Section service.
Context `{Chrono} {I : MapIter}.
#[local] Existing Instance accept_enlister.
Abbreviation Mgr := (SpaceManager InMemorySpaceStore (LeaseManager InMemoryLeaseStore) ()).

Definition service : Mgr := new_manager SpaceStore.new
  {| lm_store := LeaseStore.new; lm_config := LeaseConfig_default; lm_expiry_tx := [] |}.

(** The forwarding task has not run when the tuples are written, and its receiver
    keeps two of them. *)
Definition notify_stream_that_lags_ends_with_data_loss : test Mgr () :=
  let env id := {| now := 0; now2 := 0; uuid := id |} in
  r ← call (λ m, notify m "watch" (env "lease") ∅ (notify_kind 0) 60 []); unwrap r;;
  pos ← look (λ m, length (sm_tuple_tx m));
  for_each (seq 0 10) (λ i,
    r ← call (λ m, write m (nth_id (2 * i)) (env (nth_id (2 * i + 1))) ∅ [] 60 "t" None None); unwrap r;; mret ());;
  tx ← look sm_tuple_tx;
  let stream := notify_stream ∅ Appearance [] ((λ item, (0%Z, item)) <$> recv_all 20 2 pos tx) in
  last_item ← unwrap_some (last stream); err ← unwrap_err last_item;
  assert_eq (st_code err) CDataLoss;;
  assert (forallb is_ok (removelast stream)).

Definition gone_is_not_found_not_internal : bool :=
  bool_decide (st_code <$> [space_map_err (TupleNotFound "t"); space_map_err (LeaseExpired "l"); space_map_err (Storage "x")] =
    [CNotFound; CFailedPrecondition; CInternal]).
End service.

Section pass.
#[local] Existing Instance chrono_sample.
#[local] Existing Instance canonical_iter.

(** Every test passes on the model with the in-memory store. *)
Theorem space_tests_pass : forallb (passes (make_manager SpaceStore.new)) space_tests = true.
Proof. vm_compute. reflexivity. Qed.

Theorem space_service_tests_pass :
  passes service notify_stream_that_lags_ends_with_data_loss && gone_is_not_found_not_internal = true.
Proof. vm_compute. reflexivity. Qed.
End pass.
