(* ===== verification/TestTxn.v ===== *)
(** * The tests of the transaction manager on the model
    ([coordin8-txn/tests], the tests of [coordin8-txn/src/allowlist.rs]) *)

From S2P Require Import Prelude CoreTypes LeaseCore LeaseStore LeaseManager LeaseService Matcher.
From S2P Require Import TxnStore TxnManager TxnService Allowlist TestKit.

Section tests.
#[local] Existing Instance chrono_sample.
#[local] Existing Instance canonical_iter.

(** The manager under test with its allowlist, the votes of the mock participants
    by endpoint, and the ids drawn so far.  Nobody listens at other endpoints. *)
Record TxnTest := {
  tt_world : World InMemoryTxnStore (LeaseManager InMemoryLeaseStore);
  tt_allow : ParticipantAllowlist;
  tt_votes : list (string * Z);
  tt_ids : nat
}.

Definition make_txn (allow : ParticipantAllowlist) : TxnTest := {|
  tt_world := {| w_store := TxnStore.new;
                 w_leases := {| lm_store := LeaseStore.new; lm_config := LeaseConfig_default; lm_expiry_tx := [] |};
                 w_calls := [] |};
  tt_allow := allow; tt_votes := []; tt_ids := 0 |}.

Definition make_txn_manager : TxnTest := make_txn allow_all.

Definition with_world (s : TxnTest) w : TxnTest :=
  {| tt_world := w; tt_allow := tt_allow s; tt_votes := tt_votes s; tt_ids := tt_ids s |}.

(** [MockParticipant]: the vote it was given, an empty answer to the others. *)
Definition mock_net (votes : list (string * Z)) : Network := λ k _ ep,
  match (list_to_map votes : gmap string Z) !! ep with
  | None => TxnManager.ConnectFailed "refused"
  | Some vote => match k with KPrepare | KPrepareAndCommit => Answer vote | KCommit | KAbort => Answer 0 end
  end.

Definition handler {A} (p : TxnTest → prog A) : test TxnTest A := call (λ s,
  let '(w, a) := run (mock_net (tt_votes s)) (tt_world s) (p s) in (with_world s w, a)).

Definition spawn_participant (ep : string) (vote : Z) : test TxnTest string :=
  change (λ s, {| tt_world := tt_world s; tt_allow := tt_allow s;
                  tt_votes := (ep, vote) :: tt_votes s; tt_ids := tt_ids s |});; mret ep.

Definition begin_ (ttl : Z) : test TxnTest string :=
  r ← handler (λ s, begin_txn (nth_id (tt_ids s)) {| now := 0; now2 := 0; uuid := nth_id (S (tt_ids s)) |} ttl);
  change (λ s, {| tt_world := tt_world s; tt_allow := tt_allow s; tt_votes := tt_votes s; tt_ids := S (S (tt_ids s)) |});;
  r ← unwrap r; mret r.1.

Definition try_enlist id ep : test TxnTest (result unit Error) := handler (λ s, enlist (check (tt_allow s)) id ep 0).
Definition enlist_ id ep : test TxnTest () := r ← try_enlist id ep; unwrap r.
Definition try_commit id : test TxnTest (result unit Error) := handler (λ _, commit id).
Definition commit_ id : test TxnTest () := r ← try_commit id; unwrap r.
Definition try_abort id : test TxnTest (result unit Error) := handler (λ _, TxnManager.abort id).
Definition abort_ id : test TxnTest () := r ← try_abort id; unwrap r.
Definition abort_expired_ id : test TxnTest () := r ← handler (λ _, abort_expired id); unwrap r.
Definition get_state_ id : test TxnTest TransactionState := r ← handler (λ _, get_state id); unwrap r.
Definition record_ id : test TxnTest TransactionRecord :=
  r ← look (λ s, ts_get (w_store (tt_world s)) id); r ← unwrap r; unwrap_some r.

(** The flags of a mock participant, from the calls it was sent. *)
Definition calls_to (s : TxnTest) (ep : string) : list RpcKind :=
  cl_kind <$> List.filter (λ c, String.eqb (cl_endpoint c) ep) (w_calls (tt_world s)).

Definition committed_ ep : test TxnTest bool := look (λ s,
  existsb (λ k, bool_decide (k = KCommit) ||
    (bool_decide (k = KPrepareAndCommit) && bool_decide ((ep, 0%Z) ∈ tt_votes s))) (calls_to s ep)).
Definition aborted_ ep : test TxnTest bool := look (λ s,
  existsb (λ k, bool_decide (k = KAbort) ||
    (bool_decide (k = KPrepareAndCommit) && negb (bool_decide ((ep, 0%Z) ∈ tt_votes s)))) (calls_to s ep)).

Definition assert_flags ep (committed aborted : bool) : test TxnTest () :=
  c ← committed_ ep; assert_eq c committed;;
  a ← aborted_ ep; assert_eq a aborted.

(** ** demo.rs *)

Definition single_participant_commit : test TxnTest () :=
  ep ← spawn_participant "127.0.0.1:4001" 0;
  txn_id ← begin_ 60;
  enlist_ txn_id ep;;
  commit_ txn_id;;
  state ← get_state_ txn_id;
  assert_eq state Committed;;
  assert_flags ep true false.

Definition multi_participant_all_prepared_commits : test TxnTest () :=
  ep_a ← spawn_participant "127.0.0.1:4001" 0;
  ep_b ← spawn_participant "127.0.0.1:4002" 0;
  txn_id ← begin_ 60;
  enlist_ txn_id ep_a;; enlist_ txn_id ep_b;;
  commit_ txn_id;;
  state ← get_state_ txn_id;
  assert_eq state Committed;;
  assert_flags ep_a true false;;
  assert_flags ep_b true false.

Definition participant_vetoes_aborts_everyone : test TxnTest () :=
  ep_a ← spawn_participant "127.0.0.1:4001" 0;
  ep_b ← spawn_participant "127.0.0.1:4002" 2;
  txn_id ← begin_ 60;
  enlist_ txn_id ep_a;; enlist_ txn_id ep_b;;
  result ← try_commit txn_id;
  state ← get_state_ txn_id;
  assert (negb (is_ok result));;
  assert_eq state Aborted;;
  assert_flags ep_a false true;;
  assert_flags ep_b false true.

Definition explicit_abort_no_state_change : test TxnTest () :=
  ep_a ← spawn_participant "127.0.0.1:4001" 0;
  ep_b ← spawn_participant "127.0.0.1:4002" 0;
  txn_id ← begin_ 60;
  enlist_ txn_id ep_a;; enlist_ txn_id ep_b;;
  abort_ txn_id;;
  state ← get_state_ txn_id;
  assert_eq state Aborted;;
  assert_flags ep_a false true;;
  assert_flags ep_b false true.

Definition notchanged_voter_skipped_at_commit : test TxnTest () :=
  ep_a ← spawn_participant "127.0.0.1:4001" 0;
  ep_b ← spawn_participant "127.0.0.1:4002" 1;
  txn_id ← begin_ 60;
  enlist_ txn_id ep_a;; enlist_ txn_id ep_b;;
  commit_ txn_id;;
  state ← get_state_ txn_id;
  assert_eq state Committed;;
  a ← committed_ ep_a; assert a;;
  b ← committed_ ep_b; assert (negb b).

Definition lease_expiry_auto_aborts : test TxnTest () :=
  ep_a ← spawn_participant "127.0.0.1:4001" 0;
  txn_id ← begin_ 60;
  enlist_ txn_id ep_a;;
  abort_expired_ txn_id;;
  state ← get_state_ txn_id;
  assert_eq state Aborted;;
  assert_flags ep_a false true.

Definition zero_participants_trivial_commit : test TxnTest () :=
  txn_id ← begin_ 60;
  commit_ txn_id;;
  state ← get_state_ txn_id;
  assert_eq state Committed.

(** ** races.rs *)

(** A handler run up to its participant calls, and what is left of it. *)
Fixpoint up_to_calls {A} (net : Network) (w : World InMemoryTxnStore (LeaseManager InMemoryLeaseStore)) (p : prog A)
  : World InMemoryTxnStore (LeaseManager InMemoryLeaseStore) * prog A :=
  match p with
  | Ret a => (w, Ret a)
  | Do a k =>
      match a with
      | ACalls _ _ _ => (w, p)
      | _ => let '(w, x) := exec net w a in up_to_calls net w (k x)
      end
  end.

(** A commit whose participant is slow to answer. *)
Definition commit_in_flight txn_id : test TxnTest (prog (result unit Error)) :=
  ep ← spawn_participant "127.0.0.1:4003" 0;
  enlist_ txn_id ep;;
  h ← call (λ s, let '(w, p) := up_to_calls (mock_net (tt_votes s)) (tt_world s) (commit txn_id) in (with_world s w, p));
  state ← get_state_ txn_id;
  assert_eq state Voting;;
  mret h.

Definition join_commit (h : prog (result unit Error)) : test TxnTest () := r ← handler (λ _, h); unwrap r.

Definition in_progress (r : result unit Error) : bool :=
  match r with Err (TransactionCommitInProgress _) => true | _ => false end.
Definition terminal (r : result unit Error) : bool :=
  match r with Err (TransactionTerminal _) => true | _ => false end.

Definition abort_expired_during_voting_does_not_abort : test TxnTest () :=
  txn_id ← begin_ 60;
  h ← commit_in_flight txn_id;
  abort_expired_ txn_id;;
  state ← get_state_ txn_id; assert_eq state Voting;;
  join_commit h;;
  state ← get_state_ txn_id; assert_eq state Committed.

Definition second_commit_while_voting_is_in_progress_error : test TxnTest () :=
  txn_id ← begin_ 60;
  h ← commit_in_flight txn_id;
  r ← try_commit txn_id; assert (in_progress r);;
  r ← try_abort txn_id; assert (in_progress r);;
  join_commit h;;
  commit_ txn_id;;
  r ← try_abort txn_id; assert (terminal r).

Definition enlist_after_commit_cas_is_rejected : test TxnTest () :=
  txn_id ← begin_ 60;
  h ← commit_in_flight txn_id;
  r ← try_enlist txn_id "127.0.0.1:9"; assert (terminal r);;
  rec ← record_ txn_id;
  assert_eq (length (tx_participants rec)) 1%nat;;
  join_commit h.

Definition single_participant_transport_error_is_not_aborted : test TxnTest () :=
  txn_id ← begin_ 60;
  enlist_ txn_id "127.0.0.1:1";;
  r ← try_commit txn_id; err ← unwrap_err r;
  assert match err with TransactionOutcomeUnknown _ => true | _ => false end;;
  state ← get_state_ txn_id; assert_eq state Voting;;
  abort_expired_ txn_id;;
  state ← get_state_ txn_id; assert_eq state Voting.

Definition store_cas_false_on_wrong_expected_state : test TxnTest () :=
  txn_id ← begin_ 60;
  r ← handler (λ _, Do (ACas txn_id Voting Committed) Ret); r ← unwrap r; assert (negb r);;
  state ← get_state_ txn_id; assert_eq state Active.

(** ** allowlist.rs: the service with an allowlist *)

Definition service_begin : test TxnTest string :=
  r ← handler (λ s, begin_rpc {| grantor_host := "127.0.0.1"; grantor_port := 9004 |} (nth_id (tt_ids s))
    {| now := 0; now2 := 0; uuid := nth_id (S (tt_ids s)) |} 60);
  change (λ s, {| tt_world := tt_world s; tt_allow := tt_allow s; tt_votes := tt_votes s; tt_ids := S (S (tt_ids s)) |});;
  r ← unwrap r; mret (tcr_txn_id r).

Definition service_enlist txn_id ep : test TxnTest (result unit Status) :=
  handler (λ s, enlist_rpc (check (tt_allow s)) txn_id ep 0).

Definition refused_with (code : Code) txn_id ep : test TxnTest () :=
  r ← service_enlist txn_id ep; err ← unwrap_err r; assert_eq (st_code err) code.

(** [make]: a test on a service whose allowlist is the one given. *)
Definition with_allow (a : result ParticipantAllowlist string) (t : test TxnTest ()) : test TxnTest () :=
  a ← unwrap a; change (λ _, make_txn a);; t.

Definition disallowed_enlist_is_permission_denied_and_not_stored : test TxnTest () :=
  with_allow (parse "space:9006") (
    txn_id ← service_begin;
    refused_with CPermissionDenied txn_id "127.0.0.1:9";;
    rec ← record_ txn_id;
    assert (is_empty_list (tx_participants rec));;
    r ← handler (λ _, commit_rpc txn_id); _ ← unwrap r;
    rec ← record_ txn_id;
    assert_eq (tx_state rec) Committed).

Definition allowed_enlist_is_stored : test TxnTest () :=
  with_allow (parse "127.0.0.0/8, space:9006") (
    txn_id ← service_begin;
    r ← service_enlist txn_id "127.0.0.1:5555"; _ ← unwrap r;
    r ← service_enlist txn_id "space:9006"; _ ← unwrap r;
    refused_with CPermissionDenied txn_id "space:9007";;
    rec ← record_ txn_id;
    assert_eq (length (tx_participants rec)) 2%nat).

Definition malformed_endpoint_is_invalid_argument : test TxnTest () :=
  for_each [""; "space:9006"] (λ allow,
    with_allow (parse allow) (
      txn_id ← service_begin;
      for_each [""; "no-port"; "host:"; "host:notaport"; "http://x:80"; "::1:80"] (λ bad,
        refused_with CInvalidArgument txn_id bad);;
      rec ← record_ txn_id;
      assert (is_empty_list (tx_participants rec)))).

Definition unset_allowlist_allows_any_well_formed_endpoint : test TxnTest () :=
  with_allow (Ok allow_all) (
    txn_id ← service_begin;
    r ← service_enlist txn_id "anything.example:1234"; unwrap r).

Definition bundled_space_endpoint_is_implicitly_allowed : test TxnTest () :=
  with_allow (rbind (parse "*.corp.internal") (λ a, with_implicit_endpoint a "127.0.0.1:9006")) (
    txn_id ← service_begin;
    r ← service_enlist txn_id "127.0.0.1:9006"; _ ← unwrap r;
    r ← service_enlist txn_id "a.corp.internal:7000"; _ ← unwrap r;
    refused_with CPermissionDenied txn_id "127.0.0.1:9004").

(** ** The unit tests of the allowlist *)

Definition al (spec : string) : test TxnTest ParticipantAllowlist := unwrap (parse spec).
Definition allowed (a : ParticipantAllowlist) (ep : string) : bool := is_ok (check a ep).
Definition all_allowed (a : ParticipantAllowlist) (eps : list string) : test TxnTest () := for_each eps (λ ep, assert (allowed a ep)).
Definition none_allowed (a : ParticipantAllowlist) (eps : list string) : test TxnTest () := for_each eps (λ ep, assert (negb (allowed a ep))).

Definition unset_or_blank_allows_all : test TxnTest () :=
  a ← al ""; all_allowed a ["anything.example:1"];;
  a ← al "  "; all_allowed a ["10.1.2.3:99"];;
  assert (is_allow_all allow_all).

Definition malformed_endpoint_is_invalid_argument_even_when_allow_all : test TxnTest () :=
  a ← al "";
  for_each [""; "nohost"; "host:"; ":80"; "host:0"; "host:99999"; "a b:1"; "::1:80"; "[::1]"; "[::1"] (λ bad,
    assert match check a bad with Err (InvalidArgument _) => true | _ => false end).

Definition exact_host_and_port : test TxnTest () :=
  a ← al "space, Other:9006";
  all_allowed a ["space:9006"; "SPACE:1"; "other:9006"];;
  none_allowed a ["other:9007"; "evil:9006"];;
  assert match check a "evil:9006" with Err (PermissionDenied _) => true | _ => false end.

Definition wildcard_suffix : test TxnTest () :=
  a ← al "*.internal";
  all_allowed a ["a.internal:1"; "a.b.internal:1"];;
  none_allowed a ["internal:1"; "xinternal:1"; "a.internal.evil.com:1"; "10.0.0.1:1"];;
  p ← al "*.internal:9006";
  all_allowed p ["a.internal:9006"];;
  none_allowed p ["a.internal:80"].

Definition ip_literals : test TxnTest () :=
  a ← al "10.0.0.5, ::1, [fd00::7]:9006";
  all_allowed a ["10.0.0.5:80"; "[::1]:80"; "[fd00::7]:9006"; "[::ffff:10.0.0.5]:80"];;
  none_allowed a ["10.0.0.6:80"; "[fd00::7]:9007"].

Definition cidr_v4_and_v6 : test TxnTest () :=
  a ← al "10.0.0.0/8, fd00::/8, 192.168.1.128/25";
  all_allowed a ["10.200.1.1:1"; "[fd12::1]:1"; "192.168.1.200:1"];;
  none_allowed a ["11.0.0.1:1"; "[fe80::1]:1"; "192.168.1.5:1"; "internal.example:1"];;
  a ← al "0.0.0.0/0"; all_allowed a ["1.2.3.4:5"];;
  a ← al "10.1.2.3/32"; all_allowed a ["10.1.2.3:5"].

Definition invalid_entries_rejected_at_parse : test TxnTest () :=
  for_each ["space,,x"; "10.0.0.0/33"; "fd00::/129"; "10.0.0.0/x"; "300.1.1.1/8"; "host:0"; "host:70000"; "*"; "*.";
            "a*.b"; "bad host"; "*.a:b"; "[::1"; "10.0.0.0/8:80"] (λ bad, assert (negb (is_ok (parse bad))));;
  e ← unwrap_err (parse "ok,10.0.0.0/99");
  assert (contains "10.0.0.0/99" e && contains ALLOW_ENV_VAR e).

Definition implicit_endpoint_added_only_when_restricted : test TxnTest () :=
  a ← unwrap (rbind (parse "*.internal") (λ a, with_implicit_endpoint a "djinn-host:9006"));
  all_allowed a ["djinn-host:9006"; "x.internal:1"];;
  none_allowed a ["djinn-host:9007"];;
  all ← unwrap (rbind (parse "") (λ a, with_implicit_endpoint a "djinn-host:9006"));
  assert (is_allow_all all).

(** Every test passes on the model. *)
Theorem txn_tests_pass :
  forallb (passes make_txn_manager) [
    single_participant_commit; multi_participant_all_prepared_commits; participant_vetoes_aborts_everyone;
    explicit_abort_no_state_change; notchanged_voter_skipped_at_commit; lease_expiry_auto_aborts;
    zero_participants_trivial_commit; abort_expired_during_voting_does_not_abort;
    second_commit_while_voting_is_in_progress_error; enlist_after_commit_cas_is_rejected;
    single_participant_transport_error_is_not_aborted; store_cas_false_on_wrong_expected_state;
    disallowed_enlist_is_permission_denied_and_not_stored; allowed_enlist_is_stored;
    malformed_endpoint_is_invalid_argument; unset_allowlist_allows_any_well_formed_endpoint;
    bundled_space_endpoint_is_implicitly_allowed; unset_or_blank_allows_all;
    malformed_endpoint_is_invalid_argument_even_when_allow_all; exact_host_and_port; wildcard_suffix; ip_literals;
    cidr_v4_and_v6; invalid_entries_rejected_at_parse; implicit_endpoint_added_only_when_restricted] = true.
Proof. vm_compute. reflexivity. Qed.
End tests.
