(* ===== verification/TestEvent.v ===== *)
(** * The tests of the event manager and its service on the model
    ([coordin8-event/tests/demo.rs], the tests of [coordin8-event/src/service.rs])

    The scenarios are written once for every event store, as in the repository,
    and run on the in-memory store and on the DynamoDB store over an in-memory
    database. *)

From S2P Require Import Prelude CoreTypes LeaseCore LeaseStore LeaseManager LeaseService Matcher.
From S2P Require Import EventStore EventManager Shutdown EventService.
From S2P Require Import Dynamo DynamoCodec DynamoSample DynamoEvent TestKit.
From Stdlib Require Import Strings.Byte.

(** ** An executable [Receive] stream *)

(** The task behind a stream, its channel of one slot, how far its receiver has
    read the broadcast, whether the task has returned and whether the client
    dropped the stream. *)
Record Stream := {
  st_task : Receiving;
  st_end : EndOnShutdown (result Event Status);
  st_slot : option (result Event Status);
  st_pos : nat;
  st_returned : bool;
  st_dropped : bool
}.

Record EventTest (S L : Type) := mkET {
  et_mgr : EventManager S L;
  et_cap : nat;
  et_signal : Signal;
  et_ids : nat;
  et_streams : list Stream
}.
Arguments mkET {S L}.
Arguments et_mgr {S L} _.
Arguments et_cap {S L} _.
Arguments et_signal {S L} _.
Arguments et_ids {S L} _.
Arguments et_streams {S L} _.

Section run.
Context `{Chrono} {I : MapIter} {S L : Type} {ES : EventStore S} {LG : Leasing L}.
Abbreviation W := (EventTest S L).
Implicit Types (m : EventManager S L) (x : Stream).

Definition to_task x (task : Receiving) (slot : option (result Event Status)) (pos : nat) (ret : bool) : Stream :=
  {| st_task := task; st_end := st_end x; st_slot := slot; st_pos := pos; st_returned := ret; st_dropped := st_dropped x |}.

(** One step of the task, unless it is blocked. *)
Definition task_step (cap : nat) m x : option (EventManager S L * Stream) :=
  if st_returned x then None else
  match st_task x with
  | RxBestEffort source template handback =>
      if st_dropped x then Some (m, to_task x (st_task x) None (st_pos x) true)
      else match st_slot x, recv_at cap (em_event_tx m) (st_pos x) with
           | None, Some (item, pos) =>
               Some (m, to_task x (st_task x) (head (best_effort_loop source template handback [item])) pos
                          (match item with RecvLagged _ => true | RecvMsg _ => false end))
           | _, _ => None
           end
  | RxDurable reg source handback d =>
      let go m r slot pos :=
        let d' := dstep source d r in
        Some (m, to_task x (RxDurable reg source handback d') slot pos
                   (match d_ctl d' with CReturned => true | _ => false end)) in
      let failed {A} (r : result A Error) :=
        match r with Ok _ => None | Err e => Some (Err (event_map_err e)) end in
      match d_ctl d with
      | CSend e _ =>
          if st_dropped x then go m (RSent false) None (st_pos x)
          else match st_slot x with
               | Some _ => None
               | None => go m (RSent true) (Some (Ok (event_record_to_proto e handback))) (st_pos x)
               end
      | CReserve _ _ =>
          if st_dropped x then go m (RReserved false) None (st_pos x)
          else match st_slot x with Some _ => None | None => go m (RReserved true) None (st_pos x) end
      | CAck e _ =>
          let '(m, r) := ack_mailbox m reg [er_seq_num e] in go m (RAcked r) (failed r) (st_pos x)
      | CPeek =>
          let r := peek_mailbox m reg (d_cursor d) MAILBOX_BATCH in go m (RPeeked r) (failed r) (st_pos x)
      | CWait =>
          if st_dropped x then go m RClosed None (st_pos x)
          else match recv_at cap (em_event_tx m) (st_pos x) with
               | Some (item, pos) => go m (RWoken (Some item)) (st_slot x) pos
               | None => None
               end
      | CReturned => None
      end
  end.

(** A task runs until it is blocked; no scenario takes it more than 500 steps. *)
Fixpoint run_task (fuel cap : nat) m x : EventManager S L * Stream :=
  match fuel with
  | 0 => (m, x)
  | Datatypes.S fuel =>
      match task_step cap m x with
      | Some (m, x) => run_task fuel cap m x
      | None => (m, x)
      end
  end.

Fixpoint run_tasks (cap : nat) m (l : list Stream) : EventManager S L * list Stream :=
  match l with
  | [] => (m, [])
  | x :: l => let '(m, x) := run_task 500 cap m x in let '(m, l) := run_tasks cap m l in (m, x :: l)
  end.

Definition put (w : W) m (l : list Stream) : W := mkET m (et_cap w) (et_signal w) (et_ids w) l.
Definition set_manager (w : W) m : W := put w m (et_streams w).
Definition drew (w : W) (n : nat) : W := mkET (et_mgr w) (et_cap w) (et_signal w) (et_ids w + n) (et_streams w).

(** The test waits: every spawned task runs. *)
Definition settle : test W () := change (λ w,
  let '(m, l) := run_tasks (et_cap w) (et_mgr w) (et_streams w) in put w m l).

(** [stream.next()]: [PollPending] is what a timeout would end. *)
Definition poll_stream (signal : Signal) x : Stream * Poll (result Event Status) :=
  let inner := match st_slot x with
               | Some item => PollReady (Some item)
               | None => if st_returned x then PollReady None else PollPending
               end in
  let '(e, p) := poll_next (st_end x) signal inner in
  let slot := if eo_done e then st_slot x else None in
  ({| st_task := st_task x; st_end := e; st_slot := slot; st_pos := st_pos x;
      st_returned := st_returned x; st_dropped := st_dropped x |}, p).

Definition next (i : nat) : test W (Poll (result Event Status)) :=
  settle;;
  x ← look (λ w, et_streams w !! i); x ← unwrap_some x;
  call (λ w, let '(x, p) := poll_stream (et_signal w) x in
             (put w (et_mgr w) (<[i := x]> (et_streams w)), p)).

(** The next item, an event. *)
Definition next_event (i : nat) : test W Event :=
  p ← next i;
  match p with
  | PollReady (Some (Ok e)) => mret e
  | _ => panic
  end.

(** [collect]: events until the stream is quiet, at most 100. *)
Fixpoint collect_go (fuel i : nat) : test W (list Event) :=
  match fuel with
  | 0 => mret []
  | Datatypes.S fuel =>
      p ← next i;
      match p with
      | PollReady (Some (Ok e)) => l ← collect_go fuel i; mret (e :: l)
      | _ => mret []
      end
  end.
Definition collect (i : nat) : test W (list Event) := collect_go 100 i.

Definition drop_stream (i : nat) : test W () := change (λ w,
  put w (et_mgr w) (alter (λ x, {| st_task := st_task x; st_end := st_end x; st_slot := None; st_pos := st_pos x;
                                   st_returned := st_returned x; st_dropped := true |}) i (et_streams w))).

Definition receive (reg : string) : test W nat :=
  r ← look (λ w, receive_rpc (et_mgr w) reg); '(task, e) ← unwrap r;
  call (λ w, (put w (et_mgr w) (et_streams w ++
    [{| st_task := task; st_end := e; st_slot := None; st_pos := length (em_event_tx (et_mgr w));
        st_returned := false; st_dropped := false |}]), length (et_streams w))).

(** ** Calls of the manager *)
Definition subscribe_full source template delivery ttl handback : test W (string * LeaseRecord * Z) :=
  r ← call (λ w,
    let env := {| now := 0; now2 := 0; uuid := nth_id (et_ids w + 1) |} in
    let '(m, r) := EventManager.subscribe (et_mgr w) (nth_id (et_ids w)) env source template delivery ttl handback in
    (drew (set_manager w m) 2, r));
  unwrap r.

Definition try_emit source ty at_ payload : test W (result EventRecord Error) := call (λ w,
  let '(m, r) := EventManager.emit (et_mgr w) (nth_id (et_ids w)) 0 source ty at_ payload in
  (drew (set_manager w m) 1, r)).
Definition emit_full source ty at_ payload : test W EventRecord := r ← try_emit source ty at_ payload; unwrap r.

Definition peek_ reg (after : Z) (limit : nat) : test W (list EventRecord) :=
  r ← look (λ w, peek_mailbox (et_mgr w) reg after limit); unwrap r.

Definition ack_ reg seqs : test W () :=
  r ← call (λ w, let '(m, r) := ack_mailbox (et_mgr w) reg seqs in (set_manager w m, r)); unwrap r.

Definition get_subscription_ reg : test W (option SubscriptionRecord) :=
  r ← look (λ w, es_get_subscription (em_store (et_mgr w)) reg); unwrap r.

Definition cancel_subscription_ reg : test W () :=
  r ← call (λ w, let '(m, r) := cancel_subscription (et_mgr w) reg in (set_manager w m, r)); unwrap r.

Definition unsubscribe_by_lease_ lease : test W (option string) :=
  r ← call (λ w, let '(m, r) := unsubscribe_by_lease (et_mgr w) lease in (set_manager w m, r)); unwrap r.

(** The manager under test: [manager] of the unit tests, [make_manager] of the
    demo. *)
Definition manager (store : S) (leases : L) (broadcast_cap : nat) : W :=
  mkET (mkEM store leases [] ∅) broadcast_cap NotFired 0 [].

(** A fresh manager over the store of the old one. *)
Definition restarted : test W () := change (λ w,
  set_manager w (mkEM (em_store (et_mgr w)) (em_leases (et_mgr w)) [] ∅)).
End run.

(** ** The tests *)

#[local] Instance byte_dec : EqDecision byte := Byte.byte_eq_dec.

(** [StubLeases]; it is never asked to renew. *)
Definition stub_leases : Leasing () := {|
  lg_grant := λ l env resource_id ttl_secs,
    (l, Ok {| lr_lease_id := uuid env; lr_resource_id := resource_id; lr_granted_at := now env;
              lr_expires_at := now2 env; lr_ttl_seconds := ttl_secs |});
  lg_renew := λ l _ _ _, (l, Err (Internal "not implemented"));
  lg_cancel := λ l _, (l, Ok ())
|}.

Section scenarios.
Context `{Chrono} {I : MapIter} {S : Type} {ES : EventStore S}.
#[local] Existing Instance stub_leases.
Abbreviation W := (EventTest S ()).

Definition subscribe (delivery : DeliveryMode) : test W string :=
  r ← subscribe_full "src" ∅ delivery 60 [x09]; mret r.1.1.

Definition emit (event_type : string) : test W () := emit_full "src" event_type ∅ [x01];; mret ().

Definition seqs (l : list EventRecord) : list Z := er_seq_num <$> l.
Definition received (l : list Event) : list Z := ev_seq_num <$> l.
Definition upto (n : nat) : list Z := Z.of_nat <$> seq 1 n.

Definition two_event_types_both_arrive : test W () :=
  reg ← subscribe Durable;
  emit "a";; emit "b";;
  got ← peek_ reg 0 100;
  assert_eq (er_event_type <$> got) ["a"; "b"];;
  assert_eq (seqs got) [1; 2]%Z.

Definition restart_does_not_overwrite : test W () :=
  reg ← subscribe Durable;
  for_each (seq 0 3) (λ _, emit "a");;
  restarted;;
  for_each (seq 0 2) (λ _, emit "a");;
  got ← peek_ reg 0 100;
  assert_eq (length got) 5;;
  assert_eq (seqs got) (upto 5);;
  assert_eq (size (list_to_set (er_event_id <$> got) : gset string)) 5.

Definition disconnect_mid_backlog_loses_nothing : test W () :=
  reg ← subscribe Durable;
  for_each (seq 0 5) (λ _, emit "a");;
  s1 ← receive reg;
  e1 ← next_event s1; e2 ← next_event s1;
  drop_stream s1;; settle;;
  s2 ← receive reg;
  rest ← collect s2;
  assert_eq (list_to_set (ev_seq_num e1 :: ev_seq_num e2 :: received rest) : gset Z) (list_to_set (upto 5)).

Definition live_delivered_not_replayed : test W () :=
  reg ← subscribe Durable;
  s1 ← receive reg;
  for_each (seq 0 3) (λ _, emit "a");;
  got ← collect s1;
  assert_eq (received got) (upto 3);;
  assert_eq (ev_handback <$> head got) (Some [x09]);;
  settle;; drop_stream s1;;
  s2 ← receive reg;
  got ← collect s2;
  assert (is_empty_list got);;
  emit "a";;
  got ← collect s2;
  assert_eq (received got) [4]%Z.

(** Twenty events while the receiver does not run. *)
Definition durable_recovers_from_lag : test W () :=
  reg ← subscribe Durable;
  s ← receive reg;
  for_each (seq 0 20) (λ _, emit "a");;
  got ← collect s;
  assert_eq (received got) (upto 20).

Fixpoint until_error (fuel s : nat) : test W (option Status) :=
  match fuel with
  | 0 => mret None
  | Datatypes.S fuel =>
      item ← next s;
      match item with
      | PollReady (Some (Ok _)) => until_error fuel s
      | PollReady (Some (Err e)) => mret (Some e)
      | _ => mret None
      end
  end.

Definition best_effort_lag_ends_stream_with_data_loss : test W () :=
  reg ← subscribe BestEffort;
  s ← receive reg;
  for_each (seq 0 20) (λ _, emit "a");;
  status ← until_error 100 s; status ← unwrap_some status;
  assert_eq (st_code status) CDataLoss;;
  again ← next s;
  assert (match again with PollReady None => true | _ => false end).

Definition trigger : test W () := change (λ w,
  mkET (et_mgr w) (et_cap w) Fired (et_ids w) (et_streams w)).

(** For one delivery mode. *)
Definition receive_ends_unavailable_on_shutdown (mode : DeliveryMode) : test W () :=
  reg ← subscribe mode;
  s ← receive reg;
  trigger;;
  item ← next s;
  assert (match item with PollReady (Some (Err status)) => bool_decide (st_code status = CUnavailable) | _ => false end).

Definition emit_fails_when_durable_enqueue_fails : test W () :=
  subscribe Durable;;
  r ← try_emit "src" "a" ∅ []; err ← unwrap_err r;
  assert (match err with Storage _ => true | _ => false end).
End scenarios.

(** The store whose enqueue always fails. *)
Record FailingEnqueue := { fe_store : InMemoryEventStore }.

Definition failing_store {I : MapIter} : EventStore FailingEnqueue :=
  let on {A} (out : InMemoryEventStore * A) := ({| fe_store := out.1 |}, out.2) in {|
  es_create_subscription := λ s sub, on (es_create_subscription (fe_store s) sub);
  es_get_subscription := λ s reg, es_get_subscription (fe_store s) reg;
  es_remove_subscription := λ s reg, on (es_remove_subscription (fe_store s) reg);
  es_remove_by_lease := λ s lease, on (es_remove_by_lease (fe_store s) lease);
  es_list_subscriptions := λ s, es_list_subscriptions (fe_store s);
  es_enqueue := λ s _ _, (s, Err (Storage "boom"));
  es_peek := λ s reg after limit, es_peek (fe_store s) reg after limit;
  es_ack := λ s reg l, on (es_ack (fe_store s) reg l)
|}.

Section tests.
#[local] Existing Instance chrono_sample.
#[local] Existing Instance canonical_iter.
#[local] Existing Instance rfc_sample.
#[local] Existing Instance stub_leases.
#[local] Existing Instance failing_store.

(** *** In memory *)
Definition mem (broadcast_cap : nat) : EventTest InMemoryEventStore () := manager EventStore.new () broadcast_cap.

(** *** On DynamoDB: two tables of its own in an empty database, which answers
    with pages of three rows. *)
Definition dynamo_store : DynamoEventStore ToyDb * result unit Error :=
  DynamoEvent.init test_env
    (DynamoEvent.with_tables {| toy_tables := ∅; toy_page := 2 |} "coordin8_event_sub_test" "coordin8_event_mailbox_test").

Definition dyn (broadcast_cap : nat) : EventTest (DynamoEventStore ToyDb) () :=
  manager dynamo_store.1 () broadcast_cap.

Definition mem_two_event_types_both_arrive : bool := passes (mem 16) two_event_types_both_arrive.
Definition mem_restart_does_not_overwrite : bool := passes (mem 16) restart_does_not_overwrite.
Definition mem_disconnect_mid_backlog_loses_nothing : bool := passes (mem 16) disconnect_mid_backlog_loses_nothing.
Definition mem_live_delivered_not_replayed : bool := passes (mem 16) live_delivered_not_replayed.
Definition mem_durable_recovers_from_lag : bool := passes (mem 2) durable_recovers_from_lag.

Definition dynamo_two_event_types_both_arrive : bool := passes (dyn 16) two_event_types_both_arrive.
Definition dynamo_restart_does_not_overwrite : bool := passes (dyn 16) restart_does_not_overwrite.
Definition dynamo_disconnect_mid_backlog_loses_nothing : bool := passes (dyn 16) disconnect_mid_backlog_loses_nothing.
Definition dynamo_live_delivered_not_replayed : bool := passes (dyn 16) live_delivered_not_replayed.
Definition dynamo_durable_recovers_from_lag : bool := passes (dyn 2) durable_recovers_from_lag.

Definition receive_ends_unavailable_on_shutdown_in_both_modes : bool :=
  forallb (λ mode, passes (mem 16) (receive_ends_unavailable_on_shutdown mode)) [BestEffort; Durable].

Definition gone_is_not_found_not_internal : bool :=
  bool_decide (st_code <$> [event_map_err (SubscriptionNotFound "r"); event_map_err (LeaseNotFound "l");
    event_map_err (SubscriptionExpired "r"); event_map_err (Unavailable "x"); event_map_err (Storage "x")] =
    [CNotFound; CNotFound; CFailedPrecondition; CUnavailable; CInternal]).

Theorem event_service_tests_pass :
  forallb id [mem_two_event_types_both_arrive; mem_restart_does_not_overwrite;
    mem_disconnect_mid_backlog_loses_nothing; mem_live_delivered_not_replayed; mem_durable_recovers_from_lag;
    passes (mem 2) best_effort_lag_ends_stream_with_data_loss;
    receive_ends_unavailable_on_shutdown_in_both_modes;
    passes (manager {| fe_store := EventStore.new |} () 16) emit_fails_when_durable_enqueue_fails;
    gone_is_not_found_not_internal] = true.
Proof. vm_compute. reflexivity. Qed.

Theorem dynamo_event_service_tests_pass :
  dynamo_store.2 = Ok () ∧
  forallb id [dynamo_two_event_types_both_arrive; dynamo_restart_does_not_overwrite;
    dynamo_disconnect_mid_backlog_loses_nothing; dynamo_live_delivered_not_replayed;
    dynamo_durable_recovers_from_lag] = true.
Proof. split; vm_compute; reflexivity. Qed.
End tests.

(** ** demo.rs *)
Section demo.
#[local] Existing Instance chrono_sample.
#[local] Existing Instance canonical_iter.
Abbreviation W := (EventTest InMemoryEventStore (LeaseManager InMemoryLeaseStore)).

Definition make_manager : W :=
  manager EventStore.new {| lm_store := LeaseStore.new; lm_config := LeaseConfig_default; lm_expiry_tx := [] |} 256.

(** [drain] of the demo. *)
Definition drain reg : test W (list EventRecord) :=
  events ← peek_ reg 0 1000;
  ack_ reg (er_seq_num <$> events);;
  mret events.

Definition durable_mailbox_drains_backlog : test W () :=
  '(reg_id, _, _) ← subscribe_full "market.signals" ∅ Durable 60 (bytes "my-handback");
  for_each (seq 1 3) (λ i,
    emit_full "market.signals" "price.update" (attrs [("ticker", "AAPL")])
      (bytes "{" ++ [x22] ++ bytes "price" ++ [x22] ++ bytes (": " +:+ pretty (150 + i)) ++ bytes "}");; mret ());;
  backlog ← drain reg_id;
  assert_eq (length backlog) 3;;
  assert_eq (er_seq_num <$> backlog !! 0) (Some 1%Z);;
  assert_eq (er_seq_num <$> backlog !! 2) (Some 3%Z);;
  assert_eq (er_source <$> backlog !! 0) (Some "market.signals");;
  empty ← drain reg_id;
  assert (is_empty_list empty).

Definition best_effort_live_only : test W () :=
  '(reg_id, _, _) ← subscribe_full "sensors" ∅ BestEffort 60 [];
  emit_full "sensors" "temp" (attrs [("unit", "C")]) (bytes "22.4");;
  queue ← drain reg_id;
  assert (is_empty_list queue).

Definition template_filtering_enqueues_only_matches : test W () :=
  '(reg_id, _, _) ← subscribe_full "market.signals" (attrs [("ticker", "TSLA")]) Durable 60 [];
  emit_full "market.signals" "price.update" (attrs [("ticker", "AAPL")]) (bytes "150");;
  emit_full "market.signals" "price.update" (attrs [("ticker", "TSLA")]) (bytes "242");;
  backlog ← drain reg_id;
  assert_eq (length backlog) 1;;
  assert_eq ((λ e, er_attrs e !! "ticker") <$> backlog) [Some "TSLA"].

Definition sequence_numbers_are_monotonic_per_source_type : test W () :=
  e1 ← emit_full "feed" "tick" ∅ []; e2 ← emit_full "feed" "tick" ∅ []; e3 ← emit_full "feed" "tick" ∅ [];
  e4 ← emit_full "feed" "tick" ∅ []; e5 ← emit_full "feed" "tick" ∅ [];
  other ← emit_full "feed" "heartbeat" ∅ [];
  assert_eq (er_seq_num <$> [e1; e2; e3; e4; e5]) [1; 2; 3; 4; 5]%Z;;
  assert_eq (er_seq_num other) 1%Z.

Definition cancel_removes_subscription : test W () :=
  '(reg_id, _, _) ← subscribe_full "events" ∅ Durable 60 [];
  cancel_subscription_ reg_id;;
  sub ← get_subscription_ reg_id;
  assert (is_none sub).

Definition subscription_lease_expiry_cascade : test W () :=
  '(reg_id, lease, _) ← subscribe_full "test.source" ∅ Durable 1 [];
  sub ← get_subscription_ reg_id;
  assert (is_some sub);;
  removed ← unsubscribe_by_lease_ (lr_lease_id lease);
  assert_eq removed (Some reg_id);;
  sub ← get_subscription_ reg_id;
  assert (is_none sub);;
  left ← peek_ reg_id 0 100;
  assert (is_empty_list left).

Theorem event_demo_passes :
  forallb (passes make_manager) [durable_mailbox_drains_backlog; best_effort_live_only;
    template_filtering_enqueues_only_matches; sequence_numbers_are_monotonic_per_source_type;
    cancel_removes_subscription; subscription_lease_expiry_cascade] = true.
Proof. vm_compute. reflexivity. Qed.
End demo.
