(* ===== verification/TestRegistry.v ===== *)
(** * The tests of the Registry on the model

    The tests of [coordin8-registry/src/service.rs] and [matcher.rs], and those of
    [providers/dynamo/src/registry_store.rs] on an in-memory database. *)

From S2P Require Import Prelude CoreTypes LeaseCore LeaseStore LeaseManager LeaseService Matcher.
From S2P Require Import RegistryStore RegistryIndex RegistryService.
From S2P Require Import Dynamo DynamoCodec DynamoSample DynamoRegistry TestKit.

(** ** matcher.rs *)
Section matcher.
Context {I : MapIter}.

Definition template (pairs : list (string * string)) : gmap string MatchOp := Eq <$> attrs pairs.

Definition exact_match : bool :=
  matches (template [("interface", "WeatherStation"); ("region", "tampa-east")])
    (attrs [("interface", "WeatherStation"); ("region", "tampa-east"); ("station", "7")]).

Definition missing_field_is_nonmatch : bool :=
  negb (matches (template [("interface", "WeatherStation"); ("region", "miami")])
          (attrs [("interface", "WeatherStation"); ("region", "tampa-east")])).

Definition any_matches_present_field : bool :=
  matches (<["region" := Any]> (template [("interface", "WeatherStation")]))
    (attrs [("interface", "WeatherStation"); ("region", "anything")]).

Definition contains_match : bool :=
  matches {["metrics" := Contains "humidity"]} (attrs [("metrics", "wind,humidity,temp")]).
End matcher.

(** ** service.rs *)
Section service.
Context `{Chrono} {I : MapIter}.
Abbreviation Svc := (RegistryService InMemoryRegistryStore (LeaseManager InMemoryLeaseStore)).

(** The service, the time in nanoseconds, and the ids drawn so far. *)
Record RegistryTest := { rt_svc : Svc; rt_now : Z; rt_ids : nat }.
Abbreviation W := RegistryTest.

Definition service : W := {|
  rt_svc := {| rv_store := RegistryStore.new;
               rv_leases := {| lm_store := LeaseStore.new; lm_config := LeaseConfig_default; lm_expiry_tx := [] |};
               rv_event_tx := []; rv_grantor := {| grantor_host := "127.0.0.1"; grantor_port := 9002 |} |};
  rt_now := 0; rt_ids := 0 |}.

Definition set_svc (w : W) (v : Svc) : W := {| rt_svc := v; rt_now := rt_now w; rt_ids := rt_ids w |}.

Definition sleep (ns : Z) : test W () := change (λ w,
  {| rt_svc := rt_svc w; rt_now := rt_now w + ns; rt_ids := rt_ids w |}).

Definition register_ (r : RegisterRequest) : test W (result RegisterResponse Status) := call (λ w,
  let env := {| now := rt_now w; now2 := rt_now w; uuid := nth_id (S (rt_ids w)) |} in
  let '(v, res) := register_rpc (rt_svc w) (nth_id (rt_ids w)) env r in
  ({| rt_svc := v; rt_now := rt_now w; rt_ids := S (S (rt_ids w)) |}, res)).

Definition modify_ (r : ModifyAttrsRequest) : test W (result Capability Status) := call (λ w,
  let '(v, res) := modify_attrs (rt_svc w) r in (set_svc w v, res)).

Definition refused {A} (code : Code) (r : result A Status) : test W () :=
  err ← unwrap_err r; assert_eq (st_code err) code.

(** The events sent since a receiver subscribed, at most [cap] of them kept. *)
Definition sent_since (pos : nat) : test W (list RegistryChangedEvent) :=
  look (λ w, drop pos (rv_event_tx (rt_svc w))).
Definition position : test W nat := look (λ w, length (rv_event_tx (rt_svc w))).

Definition whatever (cap lease : string) : RegisterRequest := {|
  rq_interface := "Whatever"; rq_attrs := ∅; rq_ttl_seconds := 1; rq_transport := None;
  rq_capability_id := cap; rq_lease_id := lease |}.

Definition reregister_on_an_entry_with_an_expired_lease_is_failed_precondition : test W () :=
  initial ← register_ (whatever "" ""); initial ← unwrap initial;
  sleep 1100000000;;
  r ← register_ (whatever (rp_capability_id initial) (pl_lease_id (rp_lease initial)));
  refused CFailedPrecondition r.

Definition reg_req_to (host : string) (at_ : list (string * string)) (cap lease : string) : RegisterRequest := {|
  rq_interface := "Svc"; rq_attrs := attrs at_; rq_ttl_seconds := 30;
  rq_transport := Some {| td_type := "grpc"; td_config := attrs [("host", host)] |};
  rq_capability_id := cap; rq_lease_id := lease |}.
Definition reg_req := reg_req_to "good".

Definition lookup_attrs : test W Capability :=
  r ← look (λ w, lookup_rpc (rt_svc w) (attrs [("interface", "Svc")])); unwrap r.

(** A first registration: the id of the entry and of its lease. *)
Definition first_registration : test W (string * string) :=
  r ← register_ (reg_req [("a", "1")] "" ""); first ← unwrap r;
  mret (rp_capability_id first, pl_lease_id (rp_lease first)).

Definition reregister_requires_the_entrys_lease_id : test W () :=
  '(cap, lease) ← first_registration;
  for_each ["wrong-lease"; ""] (λ bad,
    r ← register_ (reg_req_to "evil" [("a", "evil")] cap bad);
    refused CPermissionDenied r);;
  seen ← lookup_attrs;
  assert_eq (cp_attrs seen !! "a") (Some "1");;
  assert_eq (cp_transport seen ≫= λ t, td_config t !! "host") (Some "good");;
  r ← register_ (reg_req [("a", "2")] cap lease); unwrap r;;
  seen ← lookup_attrs;
  assert_eq (cp_attrs seen !! "a") (Some "2").

Definition modify_attrs_requires_the_entrys_lease_id : test W () :=
  '(cap, lease) ← first_registration;
  let req v l := {| mq_capability_id := cap; mq_add_attrs := attrs [("a", v)]; mq_remove_attrs := []; mq_lease_id := l |} in
  for_each ["wrong-lease"; ""] (λ bad,
    r ← modify_ (req "evil" bad);
    refused CPermissionDenied r);;
  seen ← lookup_attrs;
  assert_eq (cp_attrs seen !! "a") (Some "1");;
  r ← modify_ (req "2" lease); updated ← unwrap r;
  assert_eq (cp_attrs updated !! "a") (Some "2").

Definition pure_renewal_emits_no_modified_but_a_change_does : test W () :=
  '(cap, lease) ← first_registration;
  rx ← position;
  r ← register_ (reg_req [("a", "1")] cap lease); unwrap r;;
  events ← sent_since rx;
  assert (is_empty_list events);;
  r ← register_ (reg_req [("a", "2")] cap lease); unwrap r;;
  events ← sent_since rx;
  assert_eq (ev_type <$> events) [2%Z].

Definition watch_that_lags_ends_with_data_loss : test W () :=
  pos ← position;
  let entry := {| re_capability_id := "c"; re_lease_id := "l"; re_interface := "Svc"; re_attrs := ∅; re_transport := None |} in
  for_each (seq 0 10) (λ _, change (λ w, set_svc w (send_event (rt_svc w) 0 entry)));;
  items ← look (λ w, omap (watch_item ∅) (recv_all 20 2 pos (rv_event_tx (rt_svc w))));
  loss ← unwrap_some (List.find (λ i, match i with Err _ => true | Ok _ => false end) items);
  refused CDataLoss loss.
End service.

(** ** registry_store.rs of the DynamoDB provider

    The tests use nothing but the interface of a registry store. *)
Section store.
Context {I : MapIter} {S : Type} {RS : RegistryStore S}.

Definition make_entry (capability_id lease_id : string) : RegistryEntry := {|
  re_capability_id := capability_id; re_lease_id := lease_id; re_interface := "Greeter";
  re_attrs := attrs [("host", "localhost"); ("port", "9000")];
  re_transport := Some {| tc_type := "grpc"; tc_config := attrs [("address", "localhost:9000")] |} |}.

Definition insert_ (entry : RegistryEntry) : test S () := r ← call (λ s, rg_insert s entry); unwrap r.
Definition update_ (entry : RegistryEntry) : test S (option RegistryEntry) := r ← call (λ s, rg_update s entry); unwrap r.
Definition remove_by_lease_ (lease : string) : test S (option RegistryEntry) :=
  r ← call (λ s, rg_remove_by_lease s lease); unwrap r.
Definition get_ (cap : string) : test S (option RegistryEntry) := r ← look (λ s, rg_get s cap); unwrap r.
Definition get_by_lease_ (lease : string) : test S (option RegistryEntry) := r ← look (λ s, rg_get_by_lease s lease); unwrap r.

Definition insert_and_get_with_transport : test S () :=
  insert_ (make_entry "cap-1" "lease-1");;
  fetched ← get_ "cap-1"; fetched ← unwrap_some fetched;
  assert_eq (re_capability_id fetched) "cap-1";;
  assert_eq (re_lease_id fetched) "lease-1";;
  assert_eq (re_interface fetched) "Greeter";;
  assert_eq (re_attrs fetched !! "host") (Some "localhost");;
  transport ← unwrap_some (re_transport fetched);
  assert_eq (tc_type transport) "grpc";;
  assert_eq (tc_config transport !! "address") (Some "localhost:9000").

Definition insert_with_none_transport : test S () :=
  insert_ {| re_capability_id := "cap-no-transport"; re_lease_id := "lease-2"; re_interface := "Notifier";
             re_attrs := ∅; re_transport := None |};;
  fetched ← get_ "cap-no-transport"; fetched ← unwrap_some fetched;
  assert (is_none (re_transport fetched)).

Definition update_existing : test S () :=
  insert_ (make_entry "cap-update" "lease-3");;
  result ← update_ {| re_capability_id := "cap-update"; re_lease_id := "lease-3"; re_interface := "Greeter";
                      re_attrs := attrs [("host", "remotehost")]; re_transport := None |};
  returned ← unwrap_some result;
  assert_eq (re_attrs returned !! "host") (Some "remotehost");;
  fetched ← get_ "cap-update"; fetched ← unwrap_some fetched;
  assert_eq (re_attrs fetched !! "host") (Some "remotehost").

Definition update_non_existent_returns_none : test S () :=
  result ← update_ (make_entry "does-not-exist" "lease-x");
  assert (is_none result);;
  fetched ← get_ "does-not-exist";
  assert (is_none fetched).

Definition remove_by_lease : test S () :=
  insert_ (make_entry "cap-remove" "lease-rm");;
  removed ← remove_by_lease_ "lease-rm"; removed ← unwrap_some removed;
  assert_eq (re_capability_id removed) "cap-remove";;
  fetched ← get_ "cap-remove";
  assert (is_none fetched).

Definition remove_by_lease_non_existent_returns_none : test S () :=
  result ← remove_by_lease_ "no-such-lease";
  assert (is_none result).

Definition get_by_lease : test S () :=
  insert_ (make_entry "cap-by-lease" "lease-lookup");;
  found ← get_by_lease_ "lease-lookup"; found ← unwrap_some found;
  assert_eq (re_capability_id found) "cap-by-lease".

Definition list_all : test S () :=
  insert_ (make_entry "cap-a" "lease-a");; insert_ (make_entry "cap-b" "lease-b");; insert_ (make_entry "cap-c" "lease-c");;
  all ← look rg_list_all; all ← unwrap all;
  assert_eq (length all) 3;;
  for_each ["cap-a"; "cap-b"; "cap-c"] (λ c, assert (bool_decide (c ∈ re_capability_id <$> all))).

Definition update_changes_lease_id : test S () :=
  insert_ (make_entry "cap-lease-change" "old-lease");;
  update_ {| re_capability_id := "cap-lease-change"; re_lease_id := "new-lease"; re_interface := "Greeter";
             re_attrs := ∅; re_transport := None |};;
  old_lookup ← get_by_lease_ "old-lease";
  assert (is_none old_lookup);;
  new_lookup ← get_by_lease_ "new-lease"; new_lookup ← unwrap_some new_lookup;
  assert_eq (re_capability_id new_lookup) "cap-lease-change".

Definition registry_store_tests : list (test S ()) :=
  [insert_and_get_with_transport; insert_with_none_transport; update_existing; update_non_existent_returns_none;
   remove_by_lease; remove_by_lease_non_existent_returns_none; get_by_lease; list_all; update_changes_lease_id].
End store.

Section tests.
#[local] Existing Instance chrono_sample.
#[local] Existing Instance canonical_iter.

Theorem matcher_tests_pass :
  forallb id [exact_match; missing_field_is_nonmatch; any_matches_present_field; contains_match] = true.
Proof. vm_compute. reflexivity. Qed.

Theorem registry_service_tests_pass :
  forallb (passes service) [reregister_on_an_entry_with_an_expired_lease_is_failed_precondition;
    reregister_requires_the_entrys_lease_id; modify_attrs_requires_the_entrys_lease_id;
    pure_renewal_emits_no_modified_but_a_change_does; watch_that_lags_ends_with_data_loss] = true.
Proof. vm_compute. reflexivity. Qed.

(** A table of its own in an empty database with pages of two rows. *)
Definition setup : DynamoRegistryStore ToyDb * result unit Error :=
  DynamoRegistry.init test_env (DynamoRegistry.with_table {| toy_tables := ∅; toy_page := 1 |} "coordin8_registry_test").

Theorem registry_store_tests_pass :
  setup.2 = Ok () ∧
  forallb (passes setup.1) registry_store_tests = true ∧
  forallb (passes RegistryStore.new) registry_store_tests = true.
Proof. split_and!; vm_compute; reflexivity. Qed.
End tests.
