(* ===== verification/TestLease.v ===== *)
(** * The tests of leases on the model

    The tests of [providers/local/src/lease_store.rs], written for any lease
    store, and those of [coordin8-lease/src/service.rs]. *)

From S2P Require Import Prelude CoreTypes LeaseCore LeaseStore LeaseManager LeaseService TestKit.

(** ** Lease stores *)

(** The store, the time in nanoseconds and the ids drawn so far. *)
Record LeaseTest (S : Type) := mkLT { lt_store : S; lt_now : Z; lt_ids : nat }.
Arguments mkLT {S}.
Arguments lt_store {S} _.
Arguments lt_now {S} _.
Arguments lt_ids {S} _.

Section store.
Context `{Chrono} {S : Type} {LS : LeaseStore S}.
Abbreviation W := (LeaseTest S).

Definition started_at (s : S) : W := mkLT s 0 0.

Definition on_store {A} (f : W → S * A) : test W A := call (λ w,
  let '(s, a) := f w in (mkLT s (lt_now w) (lt_ids w), a)).

Definition try_create rid ttl : test W (result LeaseRecord Error) := call (λ w,
  let '(s, r) := ls_create (lt_store w) (lt_now w) (nth_id (lt_ids w)) rid ttl in
  (mkLT s (lt_now w) (lt_ids w + 1), r)).
Definition create_ rid ttl : test W LeaseRecord := r ← try_create rid ttl; unwrap r.
Definition try_renew id ttl : test W (result LeaseRecord Error) :=
  on_store (λ w, ls_renew (lt_store w) (lt_now w) id ttl).
Definition renew_ id ttl : test W LeaseRecord := r ← try_renew id ttl; unwrap r.
Definition cancel_ id : test W () := r ← on_store (λ w, ls_cancel (lt_store w) id); unwrap r.
Definition get_ id : test W (option LeaseRecord) := r ← look (λ w, ls_get (lt_store w) id); unwrap r.
Definition get_by_resource_ rid : test W (option LeaseRecord) :=
  r ← look (λ w, ls_get_by_resource (lt_store w) rid); unwrap r.
Definition list_expired_ : test W (list LeaseRecord) :=
  r ← look (λ w, ls_list_expired (lt_store w) (λ _, lt_now w)); unwrap r.
Definition remove_if_unchanged_ r : test W bool :=
  r ← on_store (λ w, ls_remove_if_unchanged (lt_store w) r); unwrap r.

Definition millis (n : Z) : Z := (n * 1000000)%Z.
Definition sleep (ms : Z) : test W () := change (λ w, mkLT (lt_store w) (lt_now w + millis ms) (lt_ids w)).

Definition is_expired_ r : test W bool := look (λ w, is_expired (lt_now w) r).
Definition lists (l : list LeaseRecord) (id : string) : bool := existsb (λ r, String.eqb (lr_lease_id r) id) l.
Definition failed {A} (r : result A Error) : bool := match r with Ok _ => false | Err _ => true end.

Definition grant_and_get : test W () :=
  record ← create_ "worker-1" 30;
  assert_eq (lr_resource_id record) "worker-1";;
  e ← is_expired_ record; assert (negb e);;
  fetched ← get_ (lr_lease_id record);
  assert (is_some fetched).

Definition cancel_removes_lease : test W () :=
  record ← create_ "worker-2" 30;
  cancel_ (lr_lease_id record);;
  fetched ← get_ (lr_lease_id record);
  assert (is_none fetched).

Definition expired_lease_shows_up_in_list : test W () :=
  record ← create_ "worker-3" 1;
  sleep 1100;;
  expired ← list_expired_;
  assert (lists expired (lr_lease_id record)).

Definition forever_lease_never_expires : test W () :=
  record ← create_ "worker-forever" LEASE_FOREVER;
  assert_eq (lr_ttl_seconds record) LEASE_FOREVER;;
  e ← is_expired_ record; assert (negb e);;
  sleep 10;;
  expired ← list_expired_;
  assert (negb (lists expired (lr_lease_id record))).

Definition renewed_between_list_and_remove_is_not_removed : test W () :=
  record ← create_ "racer" 1;
  sleep 1100;;
  expired ← list_expired_;
  assert_eq (length expired) 1;;
  renew_ (lr_lease_id record) 60;;
  listed ← unwrap_some (head expired);
  removed ← remove_if_unchanged_ listed; assert (negb removed);;
  fetched ← get_ (lr_lease_id record);
  assert (is_some fetched).

Definition remove_if_unchanged_removes_unchanged_lease : test W () :=
  record ← create_ "plain" 1;
  sleep 1100;;
  expired ← list_expired_; listed ← unwrap_some (head expired);
  removed ← remove_if_unchanged_ listed; assert removed;;
  fetched ← get_ (lr_lease_id record);
  assert (is_none fetched);;
  removed ← remove_if_unchanged_ listed; assert (negb removed).

Definition huge_ttl_negotiates_to_forever_and_does_not_panic : test W () :=
  let cfg := {| max_ttl := None; preferred_ttl := 300 |} in
  let granted := negotiate cfg 100000000000000000 in
  assert_eq granted LEASE_FOREVER;;
  assert_eq (negotiate cfg (u64_max - 1)) LEASE_FOREVER;;
  record ← create_ "huge" granted;
  e ← is_expired_ record; assert (negb e);;
  renew_ (lr_lease_id record) granted;;
  r ← try_create "bad" 100000000000000000; assert (failed r);;
  r ← try_create "bad" (u64_max - 1); assert (failed r);;
  r ← try_renew (lr_lease_id record) (u64_max - 1); assert (failed r).

Definition lease_store_tests : list (test W ()) :=
  [grant_and_get; cancel_removes_lease; expired_lease_shows_up_in_list; forever_lease_never_expires;
   renewed_between_list_and_remove_is_not_removed; remove_if_unchanged_removes_unchanged_lease;
   huge_ttl_negotiates_to_forever_and_does_not_panic].
End store.

(** ** service.rs *)
Section service.
Context `{Chrono} {I : MapIter}.
Abbreviation M := (LeaseManager InMemoryLeaseStore).

Definition service : M := {| lm_store := LeaseStore.new; lm_config := LeaseConfig_default; lm_expiry_tx := [] |}.
Definition grantor : Grantor := {| grantor_host := "127.0.0.1"; grantor_port := 9002 |}.
Definition at0 (id : string) : Env := {| now := 0; now2 := 0; uuid := id |}.

(** [n] items, none of them a lease of the manager. *)
Definition unknown_leases (n : nat) : list (Env * (string * Z)) :=
  (λ i : nat, (at0 "", ("lease-" +:+ pretty i, 30%Z))) <$> seq 0 n.

Definition renew_all_ items : test M (result (list RenewResult) Status) := call (λ m, renew_all_rpc grantor m items).

Definition renew_all_rejects_a_batch_over_the_cap : test M () :=
  r ← renew_all_ (unknown_leases (RENEW_ALL_MAX_ITEMS + 1)); err ← unwrap_err r;
  assert_eq (st_code err) CInvalidArgument.

Definition renew_all_accepts_a_batch_at_exactly_the_cap : test M () :=
  r ← renew_all_ (unknown_leases RENEW_ALL_MAX_ITEMS); results ← unwrap r;
  assert_eq (length results) RENEW_ALL_MAX_ITEMS;;
  assert (forallb (λ r, is_none (rr_lease r)) results).

Definition watch_expiry_that_lags_ends_with_data_loss : test M () :=
  r ← call (λ m, grant m (at0 "l") "res" 60); record ← unwrap r;
  let expiry_tx := replicate 10 {| rc_record := record; rc_reason := Expired |} in
  let items := watch_expiry "" (recv_all 20 2 0 expiry_tx) in
  loss ← unwrap_some (List.find (λ i, match i with Err _ => true | Ok _ => false end) items);
  err ← unwrap_err loss;
  assert_eq (st_code err) CDataLoss.
End service.

Section tests.
#[local] Existing Instance chrono_sample.
#[local] Existing Instance canonical_iter.

Theorem lease_store_tests_pass :
  forallb (passes (started_at LeaseStore.new)) lease_store_tests = true.
Proof. vm_compute. reflexivity. Qed.

Theorem lease_service_tests_pass :
  forallb (passes service) [renew_all_rejects_a_batch_over_the_cap;
    renew_all_accepts_a_batch_at_exactly_the_cap; watch_expiry_that_lags_ends_with_data_loss] = true.
Proof. vm_compute. reflexivity. Qed.
End tests.
