(* ===== verification/TestDynamoLease.v ===== *)
(** * The tests of the DynamoDB lease store on the model
    ([providers/dynamo/src/lease_store.rs]), on an in-memory database *)

From S2P Require Import Prelude CoreTypes LeaseCore LeaseStore.
From S2P Require Import Dynamo DynamoCodec DynamoSample DynamoLease TestKit TestLease.

Section tests.
#[local] Existing Instance chrono_sample.
#[local] Existing Instance rfc_sample.
#[local] Existing Instance canonical_iter.
Abbreviation Store := (DynamoLeaseStore ToyDb).
Abbreviation W := (LeaseTest Store).

(** An empty table of its own in a database with pages of three rows, at 1000 s. *)
Definition created : Store * result unit Error :=
  DynamoLease.init test_env (DynamoLease.with_table {| toy_tables := ∅; toy_page := 2 |} "coordin8_leases_test").

Definition setup : W := mkLT created.1 (millis 1000000) 0.

Definition create_and_get : test W () :=
  record ← create_ "worker-1" 30;
  assert_eq (lr_resource_id record) "worker-1";;
  e ← is_expired_ record; assert (negb e);;
  fetched ← get_ (lr_lease_id record); fetched ← unwrap_some fetched;
  assert_eq (lr_resource_id fetched) "worker-1".

(** As for the in-memory store. *)
Definition cancel_removes_lease : test W () := TestLease.cancel_removes_lease.
Definition expired_lease_shows_up_in_list : test W () := TestLease.expired_lease_shows_up_in_list.
Definition forever_lease_never_expires : test W () := TestLease.forever_lease_never_expires.

(** A number of the row of a lease. *)
Definition raw_n (id attr : string) : test W (option Z) :=
  r ← look (λ w, get_item (dl_client (lt_store w)) (dl_table_name (lt_store w)) {["lease_id" := AS id]});
  item ← unwrap r;
  mret (item ≫= λ it, get_n it attr ≫= parse_u64).

Definition assert_epochs (id : string) (expires ttl : option Z) : test W () :=
  ee ← raw_n id "expires_epoch"; assert_eq ee expires;;
  t ← raw_n id "ttl"; assert_eq t ttl.

Definition native_ttl_trails_expiry_by_grace : test W () :=
  record ← create_ "graced" 30;
  let id := lr_lease_id record in
  assert_epochs id (Some (timestamp (lr_expires_at record))) (Some (timestamp (lr_expires_at record) + TTL_GRACE_SECS)%Z);;
  renewed ← renew_ id 120;
  assert_epochs id (Some (timestamp (lr_expires_at renewed))) (Some (timestamp (lr_expires_at renewed) + TTL_GRACE_SECS)%Z);;
  forever ← renew_ id LEASE_FOREVER;
  assert_eq (lr_ttl_seconds forever) LEASE_FOREVER;;
  assert_epochs id None None.

(** A row without [expires_epoch], put in the table directly. *)
Definition put_raw (item : W → Item) : test W () :=
  r ← on_store (λ w, let s := lt_store w in
    let '(d, r) := put_item (dl_client s) (dl_table_name s) None (item w) in (set_client s d, r));
  unwrap r;; mret ().

Definition row_without_expires_epoch_is_still_reaped : test W () :=
  put_raw (λ w, let past := (lt_now w - millis 5000)%Z in list_to_map [
    ("lease_id", AS "old-row"); ("resource_id", AS "old");
    ("granted_at", AS (to_rfc3339 (past - millis 30000))); ("expires_at", AS (to_rfc3339 past));
    ("ttl_seconds", AN "30"); ("ttl", AN (pretty (timestamp past)))]);;
  listed ← list_expired_;
  found ← get_ "old-row";
  if is_none found then mret () else assert (lists listed "old-row").

Definition get_by_resource : test W () :=
  record ← create_ "my-service" 60;
  found ← get_by_resource_ "my-service"; found ← unwrap_some found;
  assert_eq (lr_lease_id found) (lr_lease_id record).

Definition renew_updates_expiry : test W () :=
  record ← create_ "renewer" 10;
  sleep 50;;
  renewed ← renew_ (lr_lease_id record) 3600;
  assert (lr_expires_at record <? lr_expires_at renewed)%Z.

Definition forever_lease_not_listed_even_when_others_expired : test W () :=
  forever ← create_ "f" LEASE_FOREVER;
  short ← create_ "s" 1;
  sleep 1100;;
  expired ← list_expired_;
  assert (lists expired (lr_lease_id short));;
  assert (negb (lists expired (lr_lease_id forever))).

(** Creates leases for [rids] and gives their ids. *)
Fixpoint create_each (rids : list string) (ttl : Z) : test W (list string) :=
  match rids with
  | [] => mret []
  | rid :: rids => r ← create_ rid ttl; l ← create_each rids ttl; mret (lr_lease_id r :: l)
  end.

(** A page limit of two, seven expired leases and two others. *)
Definition list_expired_paginates : test W () :=
  change (λ w, mkLT (with_scan_page_limit (lt_store w) 2) (lt_now w) (lt_ids w));;
  expired_ids ← create_each ((λ i : nat, "e-" +:+ pretty i) <$> seq 0 7) 1;
  live ← create_ "live" 3600;
  forever ← create_ "forever" LEASE_FOREVER;
  sleep 1100;;
  listed ← list_expired_;
  assert_eq (length listed) 7;;
  for_each expired_ids (λ id, assert (lists listed id));;
  assert (negb (lists listed (lr_lease_id live)));;
  assert (negb (lists listed (lr_lease_id forever))).

Definition remove_if_unchanged_is_conditional : test W () :=
  record ← create_ "cond" 1;
  let id := lr_lease_id record in
  sleep 1100;;
  expired ← list_expired_;
  listed ← unwrap_some (List.find (λ r, String.eqb (lr_lease_id r) id) expired);
  renew_ id 60;;
  removed ← remove_if_unchanged_ listed; assert (negb removed);;
  fetched ← get_ id; assert (is_some fetched);;
  current ← unwrap_some fetched;
  removed ← remove_if_unchanged_ current; assert removed;;
  fetched ← get_ id; assert (is_none fetched);;
  removed ← remove_if_unchanged_ current; assert (negb removed).

Definition huge_ttl_does_not_panic : test W () :=
  r ← try_create "huge" (u64_max - 1);
  assert (failed r).

Theorem dynamo_lease_tests_pass :
  created.2 = Ok () ∧
  forallb (passes setup) [create_and_get; cancel_removes_lease; expired_lease_shows_up_in_list;
    native_ttl_trails_expiry_by_grace; row_without_expires_epoch_is_still_reaped; forever_lease_never_expires;
    get_by_resource; renew_updates_expiry; forever_lease_not_listed_even_when_others_expired;
    list_expired_paginates; remove_if_unchanged_is_conditional; huge_ttl_does_not_panic] = true ∧
  forallb (passes setup) lease_store_tests = true.
Proof. split_and!; vm_compute; reflexivity. Qed.
End tests.
