(* ===== verification/TestDynamoTxn.v ===== *)
(** * The tests of the transaction stores on the model

    Those of [providers/dynamo/src/txn_store.rs] and of
    [providers/local/src/txn_store.rs], written for any transaction store and run
    on both, the DynamoDB store over an in-memory database. *)

From S2P Require Import Prelude CoreTypes LeaseCore TxnStore.
From S2P Require Import Dynamo DynamoCodec DynamoSample DynamoTxn TestKit.

Section store.
Context {S : Type} {TS : TxnStore S}.

Definition make_record (txn_id lease_id : string) : TransactionRecord := mkTxn txn_id lease_id Active [] 0.
Definition participant (endpoint : string) (n : Z) : ParticipantRecord :=
  {| pt_endpoint := endpoint; pt_crash_count := n |}.

Definition create_ (r : TransactionRecord) : test S () := r ← call (λ s, ts_create s r); unwrap r.
Definition get_ (id : string) : test S (option TransactionRecord) := r ← look (λ s, ts_get s id); unwrap r.
Definition fetched (id : string) : test S TransactionRecord := r ← get_ id; unwrap_some r.
Definition try_update (id : string) (st : TransactionState) : test S (result unit Error) :=
  call (λ s, ts_update_state s id st).
Definition try_cas (id : string) (e n : TransactionState) : test S (result bool Error) :=
  call (λ s, ts_update_state_if s id e n).
Definition try_add (id : string) (p : ParticipantRecord) : test S (result unit Error) :=
  call (λ s, ts_add_participant s id p).
Definition assert_state (id : string) (st : TransactionState) : test S () :=
  r ← fetched id; assert_eq (tx_state r) st.

Definition terminal (e : Error) : bool := match e with TransactionTerminal _ => true | _ => false end.
Definition not_found (e : Error) : bool := match e with TransactionNotFound _ => true | _ => false end.

(** *** The in-memory store *)
Definition cas_applies_only_on_expected_state : test S () :=
  create_ (make_record "t" "l");;
  r ← try_cas "t" Voting Committed; hit ← unwrap r; assert (negb hit);;
  assert_state "t" Active;;
  r ← try_cas "t" Active Voting; hit ← unwrap r; assert hit;;
  assert_state "t" Voting;;
  r ← try_cas "nope" Active Voting; unwrap_err r;; mret ().

Definition local_add_participant_rejected_when_not_active : test S () :=
  create_ (make_record "t" "l");;
  r ← try_add "t" (participant "h:1" 0); unwrap r;;
  r ← try_update "t" Voting; unwrap r;;
  r ← try_add "t" (participant "h:1" 0); err ← unwrap_err r;
  assert (terminal err);;
  r ← fetched "t";
  assert_eq (length (tx_participants r)) 1.

(** *** The DynamoDB store *)
Definition create_and_get : test S () :=
  create_ (make_record "txn-1" "lease-1");;
  r ← fetched "txn-1";
  assert_eq (tx_txn_id r) "txn-1";;
  assert_eq (tx_lease_id r) "lease-1";;
  assert_eq (tx_state r) Active;;
  assert (is_empty_list (tx_participants r)).

Definition update_state : test S () :=
  create_ (make_record "txn-state" "lease-s");;
  r ← try_update "txn-state" Committed; unwrap r;;
  assert_state "txn-state" Committed.

Definition update_state_not_found : test S () :=
  r ← try_update "no-such-txn" Aborted; unwrap_err r;; mret ().

Definition add_participant : test S () :=
  create_ (make_record "txn-part" "lease-p");;
  r ← try_add "txn-part" (participant "localhost:8080" 0); unwrap r;;
  r ← fetched "txn-part";
  assert_eq (length (tx_participants r)) 1;;
  assert_eq (pt_endpoint <$> tx_participants r !! 0) (Some "localhost:8080");;
  assert_eq (pt_crash_count <$> tx_participants r !! 0) (Some 0%Z);;
  r ← try_add "txn-part" (participant "localhost:8081" 1); unwrap r;;
  r ← fetched "txn-part";
  assert_eq (length (tx_participants r)) 2.

Definition remove : test S () :=
  create_ (make_record "txn-rm" "lease-rm");;
  r ← call (λ s, ts_remove s "txn-rm"); unwrap r;;
  r ← get_ "txn-rm"; assert (is_none r).

Definition list_all : test S () :=
  create_ (make_record "txn-a" "lease-a");; create_ (make_record "txn-b" "lease-b");;
  all ← look ts_list_all; all ← unwrap all;
  assert_eq (length all) 2;;
  for_each ["txn-a"; "txn-b"] (λ id, assert (bool_decide (id ∈ tx_txn_id <$> all))).

Definition update_state_if_cas : test S () :=
  create_ (make_record "txn-cas" "lease-cas");;
  r ← try_cas "txn-cas" Voting Committed; hit ← unwrap r; assert (negb hit);;
  assert_state "txn-cas" Active;;
  r ← try_cas "txn-cas" Active Voting; hit ← unwrap r; assert hit;;
  assert_state "txn-cas" Voting;;
  r ← try_cas "missing" Active Voting; err ← unwrap_err r;
  assert (not_found err).

Definition add_participant_rejected_when_not_active : test S () :=
  create_ (make_record "txn-na" "lease-na");;
  let p := participant "localhost:8080" 0 in
  r ← try_add "txn-na" p; unwrap r;;
  r ← try_update "txn-na" Voting; unwrap r;;
  r ← try_add "txn-na" p; err ← unwrap_err r; assert (terminal err);;
  r ← try_add "missing" p; err ← unwrap_err r; assert (not_found err);;
  r ← fetched "txn-na";
  assert_eq (length (tx_participants r)) 1.

Definition txn_store_tests : list (test S ()) :=
  [cas_applies_only_on_expected_state; local_add_participant_rejected_when_not_active; create_and_get; update_state;
   update_state_not_found; add_participant; remove; list_all; update_state_if_cas;
   add_participant_rejected_when_not_active].
End store.

Section tests.
#[local] Existing Instance canonical_iter.
#[local] Existing Instance rfc_sample.

(** A table of its own in an empty database, with pages of one row. *)
Definition setup : DynamoTxnStore ToyDb * result unit Error :=
  DynamoTxn.init test_env (DynamoTxn.with_table {| toy_tables := ∅; toy_page := 0 |} "coordin8_txn_test").

Theorem txn_store_tests_pass :
  setup.2 = Ok () ∧
  forallb (passes setup.1) txn_store_tests = true ∧
  forallb (passes TxnStore.new) txn_store_tests = true.
Proof. split_and!; vm_compute; reflexivity. Qed.
End tests.
