(* ===== verification/TestDynamoEvent.v ===== *)
(** * The tests of the DynamoDB event store on the model
    ([providers/dynamo/src/event_store.rs]), on an in-memory database and, where
    they use nothing but the interface of an event store, on the in-memory store *)

From S2P Require Import Prelude CoreTypes LeaseCore Matcher EventStore.
From S2P Require Import Dynamo DynamoCodec DynamoSample DynamoEvent TestKit.
From Stdlib Require Import Strings.Byte.

#[local] Instance byte_dec : EqDecision byte := Byte.byte_eq_dec.

Section store.
Context {S : Type} {ES : EventStore S}.

Definition make_sub (reg_id lease_id : string) : SubscriptionRecord :=
  mkSub reg_id "market-data" (attrs [("event_type", "price_update")]) Durable lease_id [x01; x02; x03] 0.

Definition make_event (event_id : string) (seq : Z) : EventRecord :=
  mkEvent event_id "market-data" "price_update" seq ∅ [x2a] 0.

Definition create_subscription_ sub : test S () := r ← call (λ s, es_create_subscription s sub); unwrap r.
Definition get_subscription_ reg : test S (option SubscriptionRecord) := r ← look (λ s, es_get_subscription s reg); unwrap r.
Definition remove_subscription_ reg : test S () := r ← call (λ s, es_remove_subscription s reg); unwrap r.
Definition remove_by_lease_ lease : test S (option SubscriptionRecord) := r ← call (λ s, es_remove_by_lease s lease); unwrap r.
Definition list_subscriptions_ : test S (list SubscriptionRecord) := r ← look es_list_subscriptions; unwrap r.
Definition try_enqueue reg e : test S (result Z Error) := call (λ s, es_enqueue s reg e).
Definition enqueue_ reg e : test S Z := r ← try_enqueue reg e; unwrap r.
Definition peek_ reg (after : Z) (limit : nat) : test S (list EventRecord) := r ← look (λ s, es_peek s reg after limit); unwrap r.
Definition ack_ reg seqs : test S () := r ← call (λ s, es_ack s reg seqs); unwrap r.

(** [windows(2).all(|w| w[0].seq_num < w[1].seq_num)]. *)
Fixpoint ascending (l : list Z) : bool :=
  match l with
  | x :: (y :: _) as rest => (x <? y)%Z && ascending rest
  | _ => true
  end.

Definition create_and_get_subscription : test S () :=
  create_subscription_ (make_sub "reg-1" "lease-1");;
  fetched ← get_subscription_ "reg-1"; fetched ← unwrap_some fetched;
  assert_eq (sb_registration_id fetched) "reg-1";;
  assert_eq (sb_lease_id fetched) "lease-1";;
  assert_eq (sb_source fetched) "market-data";;
  assert_eq (sb_delivery fetched) Durable;;
  assert_eq (sb_handback fetched) [x01; x02; x03].

Definition remove_subscription : test S () :=
  create_subscription_ (make_sub "reg-rm" "lease-rm");;
  remove_subscription_ "reg-rm";;
  fetched ← get_subscription_ "reg-rm";
  assert (is_none fetched).

Definition remove_by_lease : test S () :=
  create_subscription_ (make_sub "reg-lease" "lease-target");;
  removed ← remove_by_lease_ "lease-target"; removed ← unwrap_some removed;
  assert_eq (sb_registration_id removed) "reg-lease";;
  fetched ← get_subscription_ "reg-lease";
  assert (is_none fetched).

Definition enqueue_peek_ack : test S () :=
  create_subscription_ (make_sub "reg-q" "lease-q");;
  n ← enqueue_ "reg-q" (make_event "e1" 1); assert_eq n 1%Z;;
  n ← enqueue_ "reg-q" (make_event "e2" 1); assert_eq n 2%Z;;
  n ← enqueue_ "reg-q" (make_event "e3" 1); assert_eq n 3%Z;;
  events ← peek_ "reg-q" 0 100;
  assert_eq (er_event_id <$> events) ["e1"; "e2"; "e3"];;
  assert_eq (er_seq_num <$> events) [1; 2; 3]%Z;;
  two ← peek_ "reg-q" 0 2; assert_eq (length two) 2;;
  tail ← peek_ "reg-q" 1 100; assert_eq (er_seq_num <$> tail) [2; 3]%Z;;
  ack_ "reg-q" [1; 2]%Z;;
  left ← peek_ "reg-q" 0 100;
  assert_eq (er_event_id <$> left) ["e3"];;
  n ← enqueue_ "reg-q" (make_event "e4" 1); assert_eq n 4%Z.

Definition enqueue_unknown_registration_fails_without_phantom_row : test S () :=
  r ← try_enqueue "nope" (make_event "e1" 1); err ← unwrap_err r;
  assert (match err with SubscriptionNotFound _ => true | _ => false end);;
  subs ← list_subscriptions_;
  assert (is_empty_list subs).

(** [restart] is what becomes of the store when the process starts again. *)
Definition large_mailbox (restart : S → S) : test S () :=
  create_subscription_ (make_sub "reg-big" "lease-big");;
  for_each (seq 0 60) (λ i, enqueue_ "reg-big" (make_event ("e" +:+ pretty i) 7);; mret ());;
  change restart;;
  n ← enqueue_ "reg-big" (make_event "late" 7); assert_eq n 61%Z;;
  all ← peek_ "reg-big" 0 1000;
  assert_eq (length all) 61;;
  assert (ascending (er_seq_num <$> all));;
  ack_ "reg-big" (er_seq_num <$> all);;
  left ← peek_ "reg-big" 0 1000; assert (is_empty_list left);;
  enqueue_ "reg-big" (make_event "x" 7);;
  remove_subscription_ "reg-big";;
  left ← peek_ "reg-big" 0 1000; assert (is_empty_list left).

Definition list_subscriptions : test S () :=
  create_subscription_ (make_sub "reg-a" "lease-a");;
  create_subscription_ (make_sub "reg-b" "lease-b");;
  all ← list_subscriptions_;
  assert_eq (length all) 2.

Definition event_store_tests : list (test S ()) :=
  [create_and_get_subscription; remove_subscription; remove_by_lease; enqueue_peek_ack;
   enqueue_unknown_registration_fails_without_phantom_row; list_subscriptions].
End store.

Section tests.
#[local] Existing Instance canonical_iter.
#[local] Existing Instance rfc_sample.
Abbreviation Store := (DynamoEventStore ToyDb).

(** Two tables of their own in an empty database with pages of eight rows. *)
Definition open_store (client : ToyDb) : Store :=
  DynamoEvent.with_tables client "coordin8_event_sub_test" "coordin8_event_mailbox_test".
Definition setup : Store * result unit Error := DynamoEvent.init test_env (open_store {| toy_tables := ∅; toy_page := 7 |}).

(** A fresh store over the same tables. *)
Definition seq_survives_new_store_instance_and_large_mailbox_paginates : test Store () :=
  large_mailbox (λ s, open_store (de_client s)).

Theorem event_store_tests_pass :
  setup.2 = Ok () ∧
  forallb (passes setup.1) (seq_survives_new_store_instance_and_large_mailbox_paginates :: event_store_tests) = true ∧
  forallb (passes EventStore.new) (large_mailbox id :: event_store_tests) = true.
Proof. split_and!; vm_compute; reflexivity. Qed.
End tests.
