(* ===== verification/TestDynamoSpace.v ===== *)
(** * The tests of the DynamoDB tuple store on the model
    ([providers/dynamo/src/space_store.rs])

    They run on the DynamoDB store over an in-memory database and, since they use
    nothing but the interface of a tuple store, on the in-memory store as well.
    The tests of the Space manager are run on the DynamoDB store too. *)

From S2P Require Import Prelude CoreTypes LeaseCore LeaseStore LeaseManager Matcher SpaceStore SpaceSpec SpaceManager.
From S2P Require Import Dynamo DynamoCodec DynamoSample DynamoSpace TestKit TestSpace.
From Stdlib Require Import Strings.Byte.

Section store.
Context {S : Type} {SS : SpaceStore S}.

Definition make_tuple_of (kind tuple_id lease_id : string) : TupleRecord :=
  mkTuple tuple_id (attrs [("type", kind); ("symbol", "AAPL")]) [x01; x02; x03] lease_id "test-client" 0 None.
Definition make_tuple : string → string → TupleRecord := make_tuple_of "order".

Definition insert_ r : test S () := r ← call (λ s, ss_insert s r); unwrap r.
Definition insert_uncommitted_ txn r : test S () := r ← call (λ s, ss_insert_uncommitted s txn r); unwrap r.
Definition get_ id : test S (option TupleRecord) := r ← look (λ s, ss_get s id); unwrap r.
Definition remove_by_lease_ lease : test S (option TupleRecord) := r ← call (λ s, ss_remove_by_lease s lease); unwrap r.
Definition find_ tmpl txn : test S (option TupleRecord) := r ← look (λ s, ss_find_match s tmpl txn); unwrap r.
Definition take_one tmpl txn : test S (option TupleRecord) := r ← call (λ s, ss_take_match s tmpl txn); unwrap r.
Definition commit_txn_ txn : test S (list TupleRecord * list TupleRecord) := r ← call (λ s, ss_commit_txn s txn); unwrap r.
Definition abort_txn_ txn : test S (list TupleRecord * list TupleRecord) := r ← call (λ s, ss_abort_txn s txn); unwrap r.
Definition gone id : test S () := r ← get_ id; assert (is_none r).
Definition there id : test S () := r ← get_ id; assert (is_some r).

Definition symbol (s : string) : attrs_map := {["symbol" := s]}.
Definition order_template : attrs_map := {["type" := "order"]}.

Definition insert_and_get : test S () :=
  insert_ (make_tuple "t-1" "lease-1");;
  fetched ← get_ "t-1"; fetched ← unwrap_some fetched;
  assert_eq (tp_tuple_id fetched) "t-1";;
  assert_eq (tp_lease_id fetched) "lease-1";;
  assert_eq (tp_attrs fetched !! "symbol") (Some "AAPL");;
  assert_eq (tp_payload fetched) [x01; x02; x03].

Definition remove_returns_old : test S () :=
  insert_ (make_tuple "t-rm" "lease-rm");;
  r ← call (λ s, ss_remove s "t-rm"); removed ← unwrap r; removed ← unwrap_some removed;
  assert_eq (tp_tuple_id removed) "t-rm";;
  gone "t-rm".

Definition remove_by_lease : test S () :=
  insert_ (make_tuple "t-lease" "lease-target");;
  removed ← remove_by_lease_ "lease-target";
  assert (is_some removed);;
  gone "t-lease".

Definition find_match : test S () :=
  insert_ (make_tuple "t-find" "lease-f");;
  found ← find_ (symbol "AAPL") None; found ← unwrap_some found;
  assert_eq (tp_tuple_id found) "t-find";;
  not_found ← find_ (symbol "GOOG") None;
  assert (is_none not_found).

Definition take_match_atomic : test S () :=
  insert_ (make_tuple "t-take" "lease-t");;
  taken ← take_one order_template None; taken ← unwrap_some taken;
  assert_eq (tp_tuple_id taken) "t-take";;
  gone "t-take";;
  taken2 ← take_one order_template None;
  assert (is_none taken2).

Definition txn_uncommitted_visible_within_txn : test S () :=
  insert_uncommitted_ "txn-1" (make_tuple "t-uncommitted" "lease-uc");;
  without_txn ← find_ (symbol "AAPL") None; assert (is_none without_txn);;
  with_txn ← find_ (symbol "AAPL") (Some "txn-1"); assert (is_some with_txn).

Definition commit_flushes_uncommitted : test S () :=
  insert_uncommitted_ "txn-commit" (make_tuple "t-c1" "lease-c1");;
  '(flushed, taken) ← commit_txn_ "txn-commit";
  assert (is_empty_list taken);;
  assert_eq (tp_tuple_id <$> flushed) ["t-c1"];;
  there "t-c1".

Definition abort_discards_uncommitted_restores_taken : test S () :=
  insert_ (make_tuple "t-taken" "lease-taken");;
  insert_uncommitted_ "txn-abort" (make_tuple_of "receipt" "t-uc" "lease-uc");;
  taken ← take_one order_template (Some "txn-abort"); taken ← unwrap_some taken;
  assert_eq (tp_tuple_id taken) "t-taken";;
  '(discarded, restored) ← abort_txn_ "txn-abort";
  assert_eq (tp_tuple_id <$> discarded) ["t-uc"];;
  assert_eq (tp_tuple_id <$> restored) ["t-taken"];;
  there "t-taken";;
  gone "t-uc".

Definition watches_crud : test S () :=
  r ← call (λ s, ss_create_watch s (mkWatch "w-1" order_template Appearance "lease-w" [x63])); unwrap r;;
  watches ← look ss_list_watches; watches ← unwrap watches;
  assert_eq ((λ w, (wt_watch_id w, wt_handback w)) <$> watches) [("w-1", [x63])];;
  assert (forallb (λ w, match wt_on w with Appearance => true | Expiration => false end) watches);;
  r ← call (λ s, ss_remove_watch_by_lease s "lease-w"); removed ← unwrap r; removed ← unwrap_some removed;
  assert_eq (wt_watch_id removed) "w-1";;
  watches ← look ss_list_watches; watches ← unwrap watches;
  assert (is_empty_list watches).

Definition has_txn : test S () :=
  r ← look (λ s, ss_has_txn s "txn-check"); known ← unwrap r; assert (negb known);;
  insert_uncommitted_ "txn-check" (make_tuple "t-htx" "lease-htx");;
  r ← look (λ s, ss_has_txn s "txn-check"); known ← unwrap r; assert known.

Definition expired_uncommitted_write_not_published_on_commit : test S () :=
  insert_uncommitted_ "txn-x" (make_tuple "t-x" "lease-x");;
  removed ← remove_by_lease_ "lease-x"; removed ← unwrap_some removed;
  assert_eq (tp_tuple_id removed) "t-x";;
  '(flushed, taken) ← commit_txn_ "txn-x";
  assert (is_empty_list flushed && is_empty_list taken);;
  gone "t-x".

Definition expired_taken_tuple_not_restored_on_abort : test S () :=
  insert_ (make_tuple "t-y" "lease-y");;
  taken ← take_one order_template (Some "txn-y"); assert (is_some taken);;
  removed ← remove_by_lease_ "lease-y"; removed ← unwrap_some removed;
  assert_eq (tp_tuple_id removed) "t-y";;
  '(discarded, restored) ← abort_txn_ "txn-y";
  assert (is_empty_list discarded && is_empty_list restored);;
  gone "t-y".

Definition commit_returns_taken_including_own_writes : test S () :=
  insert_ (make_tuple "t-c" "lease-c");;
  insert_uncommitted_ "txn-z" (make_tuple_of "receipt" "t-own" "lease-own");;
  r ← take_one order_template (Some "txn-z"); unwrap_some r;;
  r ← take_one {["type" := "receipt"]} (Some "txn-z"); unwrap_some r;;
  '(flushed, taken) ← commit_txn_ "txn-z";
  assert (is_empty_list flushed);;
  assert_eq (length taken) 2;;
  assert_eq (list_to_set (tp_tuple_id <$> taken) : gset string) {["t-c"; "t-own"]}.

Definition space_store_tests : list (test S ()) :=
  [insert_and_get; remove_returns_old; remove_by_lease; find_match; take_match_atomic;
   txn_uncommitted_visible_within_txn; commit_flushes_uncommitted; abort_discards_uncommitted_restores_taken;
   watches_crud; has_txn; expired_uncommitted_write_not_published_on_commit;
   expired_taken_tuple_not_restored_on_abort; commit_returns_taken_including_own_writes].
End store.

Section tests.
#[local] Existing Instance canonical_iter.
#[local] Existing Instance rfc_sample.

(** Four tables of their own in an empty database with pages of two rows. *)
Definition setup : DynamoSpaceStore ToyDb * result unit Error :=
  DynamoSpace.init test_env (DynamoSpace.with_tables {| toy_tables := ∅; toy_page := 1 |}
    "coordin8_space_test" "coordin8_space_uncommitted_test" "coordin8_space_txn_taken_test" "coordin8_space_watches_test").

Theorem space_store_tests_pass :
  setup.2 = Ok () ∧
  forallb (passes setup.1) space_store_tests = true ∧
  forallb (passes SpaceStore.new) space_store_tests = true.
Proof. split_and!; vm_compute; reflexivity. Qed.

(** The tests of the manager, on this store. *)
Theorem space_tests_pass_on_dynamo : forallb (passes (make_manager setup.1)) space_tests = true.
Proof. vm_compute. reflexivity. Qed.
End tests.
