(* ===== verification/TestAuth.v ===== *)
(** * The tests of authentication on the model ([coordin8-auth/src/lib.rs])

    The JWT library is played by one whose token is the secret and the claims,
    written out. *)

From S2P Require Import Prelude CoreTypes LeaseCore Auth DynamoCodec TestKit.

Abbreviation claims_tuple := (string * Z * Z * option string * option string)%type.

Definition of_claims (c : Claims) : claims_tuple := (cm_sub c, cm_exp c, cm_iat c, cm_scope c, cm_iss c).
Definition to_claims (t : claims_tuple) : Claims :=
  let '(sub, ex, ia, sc, iss) := t in {| cm_sub := sub; cm_exp := ex; cm_iat := ia; cm_scope := sc; cm_iss := iss |}.

Definition read_token (t : string) : option (string * claims_tuple) := decode (unbits t).

Definition plain_jwt : Jwt := {|
  jwt_encode := λ secret c, Ok (bits (encode (secret, of_claims c)));
  jwt_decode := λ secret t,
    match read_token t with
    | Some (s, c) => if String.eqb s secret then Ok (to_claims c) else Err "InvalidSignature"
    | None => Err "InvalidToken"
    end;
  jwt_decode_insecure := λ t,
    match read_token t with Some (_, c) => Ok (to_claims c) | None => Err "InvalidToken" end
|}.

(** It keeps what the library documents. *)
Lemma plain_jwt_laws : JwtLaws plain_jwt (λ _, true).
Proof.
  split; [| |done]; intros secret [] t [= <-]; cbn; unfold read_token; rewrite unbits_bits, decode_encode;
    by rewrite ?String.eqb_refl.
Qed.

Section tests.
#[local] Existing Instance chrono_sample.
#[local] Existing Instance plain_jwt.

(** Tests of pure functions. *)
Abbreviation pure := (test () ()).

Definition minutes (n : Z) : Z := (n * 60 * nanos_per_sec)%Z.

Definition config (secret : string) : AuthConfig :=
  {| ac_secret := Some secret; ac_verify_signature := true; ac_issuer := None; ac_claims_check := None |}.

Definition bearer_request (token : string) : metadata := {["authorization" := Text ("Bearer " +:+ token)]}.

Definition mint (secret : string) (ttl : Z) (scope issuer : option string) : test () string :=
  unwrap (mint_token 0 secret "greeter" ttl scope issuer).

Definition rejected (code : Code) (cfg : AuthConfig) (req : metadata) : pure :=
  err ← unwrap_err (validate cfg 0 req); assert_eq (st_code err) code.

Definition accepted (cfg : AuthConfig) (req : metadata) : pure := unwrap (validate cfg 0 req).

Definition disabled_config_is_a_no_op : test () () :=
  assert (negb (enabled AuthConfig_default));;
  accepted AuthConfig_default ∅.

Definition missing_token_is_rejected_when_enabled : test () () := rejected CUnauthenticated (config "shh") ∅.

Definition valid_token_is_accepted : test () () :=
  token ← mint "shh" (minutes 5) None None;
  accepted (config "shh") (bearer_request token).

Definition expired_token_is_rejected : test () () :=
  token ← mint "shh" (-5 * nanos_per_sec) None None;
  rejected CUnauthenticated (config "shh") (bearer_request token).

Definition wrong_secret_is_rejected : test () () :=
  token ← mint "secret-a" (minutes 5) None None;
  rejected CUnauthenticated (config "secret-b") (bearer_request token).

Definition verify_signature_false_trusts_an_unsigned_or_wrongly_signed_token : test () () :=
  token ← mint "secret-a" (minutes 5) None None;
  accepted {| ac_secret := Some "secret-b"; ac_verify_signature := false; ac_issuer := None; ac_claims_check := None |}
    (bearer_request token).

Definition claims_check_hook_runs_after_baseline_checks : test () () :=
  token ← mint "shh" (minutes 5) (Some "readonly") None;
  rejected CPermissionDenied
    (with_claims_check (config "shh") (λ claims,
       if bool_decide (cm_scope claims = Some "admin") then Ok ()
       else Err (mkStatus CPermissionDenied "requires admin scope")))
    (bearer_request token).

Definition issuer_mismatch_is_rejected : test () () :=
  token ← mint "shh" (minutes 5) None (Some "someone-else");
  rejected CUnauthenticated (with_issuer (config "shh") "coordin8") (bearer_request token).

Definition extract_bearer (req : metadata) : option string :=
  match req !! "authorization" with Some (Text v) => strip_prefix "Bearer " v | _ => None end.

Definition intercept (cc : ClientAuthConfig) : test () metadata := unwrap (client_call (λ _, true) cc 0 ∅).

Definition trust_attaches_nothing : test () () :=
  req ← intercept trust; assert (is_none (extract_bearer req)).

Definition self_minted_attaches_a_verifiable_token : test () () :=
  req ← intercept (self_minted "shh" "space");
  token ← unwrap_some (extract_bearer req);
  accepted (config "shh") (bearer_request token).

Definition custom_provider_attaches_whatever_it_returns : test () () :=
  req ← intercept (from_provider (λ _, Some "from-mtls-cn"));
  assert_eq (extract_bearer req) (Some "from-mtls-cn").

Definition custom_provider_returning_none_attaches_nothing : test () () :=
  req ← intercept (from_provider (λ _, None));
  assert (is_none (extract_bearer req)).

Theorem auth_tests_pass :
  forallb (passes ()) [disabled_config_is_a_no_op; missing_token_is_rejected_when_enabled; valid_token_is_accepted;
    expired_token_is_rejected; wrong_secret_is_rejected;
    verify_signature_false_trusts_an_unsigned_or_wrongly_signed_token;
    claims_check_hook_runs_after_baseline_checks; issuer_mismatch_is_rejected; trust_attaches_nothing;
    self_minted_attaches_a_verifiable_token; custom_provider_attaches_whatever_it_returns;
    custom_provider_returning_none_attaches_nothing] = true.
Proof. vm_compute. reflexivity. Qed.
End tests.
