(* ===== verification/TestNode.v ===== *)
(** * The tests of the parts of a node on the model

    Those of [coordin8-proxy/src/manager.rs], [coordin8-djinn/src/sweep.rs] and
    [services.rs], [coordin8-bootstrap/src/lib.rs] and the crate
    [coordin8-observability]. *)

From S2P Require Import Prelude CoreTypes LeaseCore LeaseStore LeaseManager LeaseService Matcher.
From S2P Require Import RegistryStore RegistryIndex RegistryService Sweep SweepSchedule Proxy Bootstrap.
From S2P Require Import Auth Observability Telemetry TestKit.

Section proxy.
Context `{Chrono} {I : MapIter}.
Abbreviation Leases := (LeaseManager InMemoryLeaseStore).

(** The resolver that always finds the same entry. *)
Record Fixed := the_fixed {}.
Definition fixed : CapabilityResolver Fixed := {|
  cr_resolve := λ _ _, Ok (Some {|
    re_capability_id := "c"; re_lease_id := "l"; re_interface := "Svc"; re_attrs := ∅;
    re_transport := Some {| tc_type := "tcp"; tc_config := attrs [("host", "127.0.0.1"); ("port", "1")] |} |})
|}.
#[local] Existing Instance fixed.

(** The manager with its landlord, reaper and cascade: the time in nanoseconds,
    the ids drawn, and how far the cascade has read its channel. *)
Record Rig := { rg_mgr : ProxyManager Leases; rg_now : Z; rg_ids : nat; rg_read : nat }.

Definition rig : Rig := {|
  rg_mgr := proxy_new ProxyConfig_default
    {| lm_store := LeaseStore.new; lm_config := {| max_ttl := None; preferred_ttl := 30 |}; lm_expiry_tx := [] |};
  rg_now := 0; rg_ids := 0; rg_read := 0 |}.

Definition set_mgr (w : Rig) (m : ProxyManager Leases) : Rig :=
  {| rg_mgr := m; rg_now := rg_now w; rg_ids := rg_ids w; rg_read := rg_read w |}.

(** A listener that was told to stop ends its task. *)
Definition exit_stopped (m : ProxyManager Leases) : ProxyManager Leases :=
  foldl (λ m '(id, t), if ln_stopped t then task_exit m id else m) m (miter (px_listeners m)).

(** A tick of the reaper, every 100 ms, and the cascade behind it. *)
Definition reaper_step (w : Rig) : Rig :=
  let now := (rg_now w + 100000000)%Z in
  let m := rg_mgr w in
  let m := mkProxy (reaper_tick (px_leasing m) (λ _, now)) (px_proxies m) (px_config m) (px_next_port m) (px_listeners m) in
  let events := lm_expiry_tx (px_leasing m) in
  {| rg_mgr := exit_stopped (cascade handle_reclaimed m (RecvMsg <$> drop (rg_read w) events));
     rg_now := now; rg_ids := rg_ids w; rg_read := length events |}.

Definition sleep_ticks (n : nat) : test Rig () := change (Nat.iter n reaper_step).

(** The system hands out a fresh port. *)
Definition open_ (ttl : Z) : test Rig (string * Z * LeaseRecord) :=
  r ← call (λ w,
    let n := rg_ids w in
    let env := {| now := rg_now w; now2 := rg_now w; uuid := nth_id (n + 1) |} in
    let '(m, r) := open the_fixed (rg_mgr w) (nth_id n) env
      {| os_bind := λ _, true; os_any := Ok (40000 + Z.of_nat n)%Z |} ∅ ttl in
    ({| rg_mgr := m; rg_now := rg_now w; rg_ids := n + 2; rg_read := rg_read w |}, r));
  unwrap r.

Definition renew_ (id : string) (ttl : Z) : test Rig (result LeaseRecord Error) := call (λ w,
  let m := rg_mgr w in
  let '(l, r) := lg_renew (px_leasing m) {| now := rg_now w; now2 := rg_now w; uuid := "" |} id ttl in
  (set_mgr w (mkProxy l (px_proxies m) (px_config m) (px_next_port m) (px_listeners m)), r)).

Definition is_listening (port : Z) : test Rig bool := look (λ w,
  existsb (λ t, (ln_port t =? port)%Z && negb (ln_stopped t)) (map_values (px_listeners (rg_mgr w)))).
(** Whether the port can be bound: no listener holds it. *)
Definition can_bind (port : Z) : test Rig bool := look (λ w,
  negb (existsb (λ t, (ln_port t =? port)%Z) (map_values (px_listeners (rg_mgr w))))).

Definition abandoned_proxy_is_reclaimed_and_port_reusable : test Rig () :=
  '(id, port, lease) ← open_ 1;
  assert_eq (lr_resource_id lease) ("proxy:" +:+ id);;
  up ← is_listening port; assert up;;
  sleep_ticks 25;;
  up ← is_listening port; assert (negb up);;
  entry ← look (λ w, px_proxies (rg_mgr w) !! id); assert (is_none entry);;
  free ← can_bind port; assert free.

Definition renewed_proxy_stays_open : test Rig () :=
  '(_, port, lease) ← open_ 1;
  for_each (seq 0 6) (λ _, sleep_ticks 5;; r ← renew_ (lr_lease_id lease) 1; unwrap r;; mret ());;
  up ← is_listening port; assert up.

Definition release_cancels_lease : test Rig () :=
  '(id, port, lease) ← open_ 60;
  r ← call (λ w, let '(m, r) := close (rg_mgr w) id in (set_mgr w m, r)); unwrap r;;
  sleep_ticks 2;;
  up ← is_listening port; assert (negb up);;
  r ← renew_ (lr_lease_id lease) 60; unwrap_err r;; mret ().

Definition handle_reclaimed_ignores_foreign_resources : test Rig () :=
  '(_, port, lease) ← open_ 60;
  let foreign := mkLease (lr_lease_id lease) "space:xyz" (lr_granted_at lease) (lr_expires_at lease) (lr_ttl_seconds lease) in
  change (λ w, set_mgr w (handle_reclaimed (rg_mgr w) {| rc_record := foreign; rc_reason := Expired |}));;
  up ← is_listening port; assert up.
End proxy.

(** ** sweep.rs and services.rs *)
Section sweep.
Context `{Chrono} {I : MapIter} {SI : SetIter}.
Abbreviation Leases := (LeaseManager InMemoryLeaseStore).

Definition h (id lease : string) : Held := held_new "entry" id lease.

Definition strike (leaseless : gset Held) : test OrphanTracker (list Held) := call (λ t, pass t leaseless).

Definition two_strikes_before_reclaim : test OrphanTracker () :=
  let a := h "a" "la" in let b := h "b" "lb" in
  r ← strike {[a]}; assert (is_empty_list r);;
  r ← strike {[a; b]}; assert_eq r [a];;
  r ← strike ∅; assert (is_empty_list r);;
  r ← strike {[b]}; assert (is_empty_list r).

Definition no_leases : Leases := {| lm_store := LeaseStore.new; lm_config := LeaseConfig_default; lm_expiry_tx := [] |}.

Definition at0 (id : string) : Env := {| now := 0; now2 := 0; uuid := id |}.

(** A live lease, and one whose row vanished without a reclaim. *)
Definition lost_reclaim : test Leases (LeaseRecord * LeaseRecord) :=
  r ← call (λ m, grant m (at0 "l1") "live" 600); live ← unwrap r;
  r ← call (λ m, grant m (at0 "l2") "gone" 600); gone ← unwrap r;
  r ← call (λ m, let '(s, r) := LeaseStore.cancel (lm_store m) (lr_lease_id gone) in (set_store m s, r)); unwrap r;;
  mret (live, gone).

Definition reclaims_only_resources_whose_lease_is_gone : test Leases () :=
  '(live, gone) ← lost_reclaim;
  m ← look id;
  let held := observe m [h "live" (lr_lease_id live); h "gone" (lr_lease_id gone)] in
  let '(t, reclaimed, n) := sweep_once (λ l x, l ++ [hd_id x]) tracker_default [] (Ok held) in
  n ← unwrap n; assert_eq n 0;;
  let '(_, reclaimed, n) := sweep_once (λ l x, l ++ [hd_id x]) t reclaimed (Ok held) in
  n ← unwrap n; assert_eq n 1;;
  assert_eq reclaimed ["gone"].

Definition entry (id lease_id : string) : RegistryEntry := {|
  re_capability_id := id; re_lease_id := lease_id; re_interface := "Greeter"; re_attrs := ∅; re_transport := None |}.

(** A pass over the registry, by [spawn_registry_sweep]. *)
Definition registry_pass (leases : Leases) (s : OrphanTracker * RegistryService InMemoryRegistryStore Leases)
  : OrphanTracker * RegistryService InMemoryRegistryStore Leases :=
  (sweep_once registry_reclaim s.1 s.2 (rmap (observe leases) (registry_held (rv_store s.2)))).1.

(** Three passes fall in the time the test sleeps. *)
Definition registry_sweep_reclaims_entry_whose_lease_vanished : test Leases () :=
  '(live, gone) ← lost_reclaim;
  leases ← look id;
  let store := (register (register RegistryStore.new (entry "live" (lr_lease_id live))).1 (entry "gone" (lr_lease_id gone))).1 in
  let svc := {| rv_store := store; rv_leases := leases; rv_event_tx := [];
                rv_grantor := {| grantor_host := ""; grantor_port := 0 |} |} in
  let '(_, svc) := Nat.iter 3 (registry_pass leases) (tracker_default, svc) in
  left ← unwrap (rg_list_all (rv_store svc));
  assert_eq (re_capability_id <$> left) ["live"];;
  ev ← unwrap_some (head (rv_event_tx svc));
  assert_eq (re_capability_id (ev_entry ev)) "gone".
End sweep.

(** ** bootstrap/src/lib.rs *)
Definition entry_is_unusable_matches_not_found_and_failed_precondition_only : bool :=
  forallb entry_is_unusable [CNotFound; CFailedPrecondition] &&
  forallb (λ c, negb (entry_is_unusable c)) [COk; CUnavailable; CDeadlineExceeded; CInvalidArgument; CInternal].

(** ** coordin8-observability *)
Definition is_json (f : LogFormat) : bool := match f with Json => true | Pretty => false end.

Definition defaults_to_pretty_when_unset : bool := negb (is_json (log_format_from_opt None)).
Definition defaults_to_pretty_for_unrecognized_value : bool :=
  negb (is_json (log_format_from_opt (Some "syslog"))) && negb (is_json (log_format_from_opt (Some ""))).
Definition json_when_set : bool := is_json (log_format_from_opt (Some "json")).
Definition json_is_case_insensitive : bool :=
  is_json (log_format_from_opt (Some "JSON")) && is_json (log_format_from_opt (Some "Json")).

Definition split_grpc_path_splits_service_and_method : bool :=
  bool_decide (split_grpc_path "/coordin8.RegistryService/LookupAll" = ("coordin8.RegistryService", "LookupAll")).
Definition split_grpc_path_falls_back_on_malformed_input : bool :=
  bool_decide (split_grpc_path "nonsense" = ("unknown", "nonsense")) && bool_decide (split_grpc_path "" = ("unknown", "")).
Definition metrics_config_disabled_when_port_unset : bool := negb (metrics_enabled {| mc_port := None |}).
Definition metrics_config_enabled_when_port_set : bool := metrics_enabled {| mc_port := Some 9100%Z |}.
Definition grpc_code_label_never_leaks_free_text_error_into_the_label : bool :=
  bool_decide (grpc_code_label (λ c : string, c) (FError "some very specific transport failure") = "transport_error").
Definition labels_from_span_defaults_to_unknown_without_a_registry_subscriber : bool :=
  bool_decide (labels_from_span {| sn_labels := None |} = ("unknown", "unknown")).

Definition cfg (endpoint : option string) : TracingConfig :=
  {| tg_service_name := "test"; tg_endpoint := endpoint; tg_sample_ratio := DEFAULT_SAMPLE_RATIO |}.
Definition export_disabled_without_endpoint : bool := negb (export_enabled (cfg None)).
Definition export_enabled_with_endpoint : bool := export_enabled (cfg (Some "http://localhost:4317")).
Definition sample_ratio_clamps_to_valid_range : bool :=
  bool_decide (parse_sample_ratio (Some "5.0") = f64_one) && bool_decide (parse_sample_ratio (Some "-1.0") = f64_zero).
Definition sample_ratio_defaults_when_unset_or_invalid : bool :=
  bool_decide (parse_sample_ratio None = DEFAULT_SAMPLE_RATIO) &&
  bool_decide (parse_sample_ratio (Some "not-a-number") = DEFAULT_SAMPLE_RATIO).
Definition endpoint_treats_empty_string_as_unset : bool :=
  bool_decide (parse_otel_endpoint (Some "") = None) && bool_decide (parse_otel_endpoint None = None) &&
  bool_decide (parse_otel_endpoint (Some "http://localhost:4317") = Some "http://localhost:4317").

(** ** They pass *)
Section tests.
#[local] Existing Instance chrono_sample.
#[local] Existing Instance canonical_iter.
#[local] Existing Instance canonical_siter.

Theorem proxy_tests_pass :
  forallb (passes rig) [abandoned_proxy_is_reclaimed_and_port_reusable; renewed_proxy_stays_open;
    release_cancels_lease; handle_reclaimed_ignores_foreign_resources] = true.
Proof. vm_compute. reflexivity. Qed.

Theorem sweep_tests_pass :
  passes tracker_default two_strikes_before_reclaim &&
  forallb (passes no_leases) [reclaims_only_resources_whose_lease_is_gone;
    registry_sweep_reclaims_entry_whose_lease_vanished] = true.
Proof. vm_compute. reflexivity. Qed.

Theorem observability_tests_pass :
  forallb id [entry_is_unusable_matches_not_found_and_failed_precondition_only;
    defaults_to_pretty_when_unset; defaults_to_pretty_for_unrecognized_value; json_when_set; json_is_case_insensitive;
    split_grpc_path_splits_service_and_method; split_grpc_path_falls_back_on_malformed_input;
    metrics_config_disabled_when_port_unset; metrics_config_enabled_when_port_set;
    grpc_code_label_never_leaks_free_text_error_into_the_label;
    labels_from_span_defaults_to_unknown_without_a_registry_subscriber; export_disabled_without_endpoint;
    export_enabled_with_endpoint; sample_ratio_clamps_to_valid_range; sample_ratio_defaults_when_unset_or_invalid;
    endpoint_treats_empty_string_as_unset] = true.
Proof. vm_compute. reflexivity. Qed.
End tests.
